(* ===== verification/_CoqProject ===== *)
-Q . S2P
Prelude.v
BTree.v
Text.v
Decimal.v
Split.v
Ident.v
Temporal.v
Value.v
Fingerprint.v
Limits.v
Codec.v
Schema.v
Components.v
Ordering.v
SchemaDelta.v
Dependencies.v
Delta.v
PlanReplay.v
Inverse.v
Safety.v
Assertion.v
Migration.v
Manifest.v
Policy.v
ApplyPlan.v
RollbackPlan.v
Execution.v
RollbackJournal.v
Coordinator.v
RollbackCoordinator.v
Report.v
Fencing.v
Protocol.v
ApplySafety.v
ApplyRecovery.v
RollbackSafety.v
RollbackRecovery.v
ReferenceEnvironment.v
Profile.v
Versions.v
ReleasedSpec.v
ReleasedAnnotations.v
ReleasedGraph.v
ReleasedPlan.v
ReleasedExecutor.v
ReleasedSteps.v
ReleasedRunLog.v
ReleasedRecovery.v
History.v
HistoryOrder.v
HistoryReach.v
HistoryPlans.v
HistoryGraph.v
