(* ===== verification/Prelude.v ===== *)
(** * TypeBridge: verification of the schema, delta and migration core

    TypeBridge keeps the schema of a TypeDB database under version control. The
    Rust engine under type-bridge-core/crates declares schemas as sets of facts,
    plans the delta between two declarations, classifies how dangerous the delta
    is, records it as a migration in a history, plans which migrations to apply or
    roll back, and executes plans under a fenced lease with a recovery journal. This
    library models that pipeline and proves it correct. Paths below are relative to
    type-bridge-core/crates.

    ** Conventions

    Rust's [Result] is [result] with [let?] for the question mark; a diagnostic is
    its category and stable code. An outer [option] whose [None] stands for a panic
    (an [expect], an [unreachable!], an index out of a map) or for exhausted fuel
    appears only where the code has one; the theorems say it does not happen. Texts
    are lists of ASCII bytes; the UTF-8 content of documentation strings is opaque.
    [BTreeSet] and [BTreeMap] are strictly sorted lists over an [Ord] class with
    laws (BTree.v), so iteration order is the code's. Machine integers are [Z] with
    their bounds written out ([usize] has 64 bits). SHA-256, serde_json's printer,
    what serde derives and the encodings of migrations are section parameters; where
    a theorem needs hashing to be injective it concludes equality or an explicit
    collision.

    ** Files

    - Prelude.v, BTree.v, Text.v: results, tactics, ordered sets and maps, ASCII
      texts and decimal numbers.
    - Decimal.v (contract/src/decimal.rs), Temporal.v (temporal.rs), Value.v
      (value.rs): canonical scalars, their parsers, printers, orders, sets and
      ranges. Parsing accepts exactly the canonical spellings; comparison is
      numeric; UTC instants count calendar days exactly; wire forms round-trip.
    - Split.v (split.rs): the greedy splitter; it is greedy, minimal and refuses
      exactly what cannot fit.
    - Ident.v (id.rs, reserved.rs, capability.rs), Fingerprint.v (fingerprint.rs):
      names, capability sets, domain-separated digests.
    - Limits.v (limits.rs): codec, structural and query limits; overrides,
      negotiation and attribution are exact.
    - Codec.v (codec.rs): canonical JSON encoding; it accepts exactly the values
      within the ceilings, and the order of keys does not matter.
    - Schema.v (schema.rs): facts and declared schemas; [from_facts] accepts exactly
      the well-formed declarations whose identity can be encoded, in any order, and
      fingerprints it.
    - Components.v, Ordering.v, Dependencies.v (schema/src/delta_dependencies.rs):
      Tarjan's components, their deterministic order, the dependency graph and the
      planner.
    - SchemaDelta.v (contract/src/schema_delta.rs, managed_scope.rs), Delta.v
      (schema/src/delta.rs): operations, deltas, replay and inversion. Replay
      refines a step relation on inventories.
    - PlanReplay.v, Inverse.v: the composition. A plan replays to its target and its
      inverse replays back; one planned delta that replay refuses is exhibited.
    - Safety.v (schema/src/delta_safety.rs): the safety report; a delta reported
      additive only weakens constraints.
    - Assertion.v (contract/src/migration_assertion.rs), Migration.v (migration.rs,
      migration_backfill.rs), Manifest.v (schema-migration/src/manifest.rs, legacy.rs,
      profile.rs and contract/src/schema_lowering.rs): assertion plans, migration
      steps and their contracts, drafts, released references and manifests.
    - Profile.v (schema-migration/src/profile.rs and the gate of lowering.rs): the
      lowering registries; they are closed and agree with the safety report except on
      two kinds of operation on roles, which are exhibited.
    - Policy.v (schema-migration/src/policy.rs and the gates of apply_plan.rs and
      rollback_plan.rs): the policy floor, approvals bound to one transition, and the
      gate that requires them.
    - ApplyPlan.v (schema-migration/src/apply_plan.rs and the plan types of
      lowering.rs): verified apply plans and the partition of a manifest into
      transaction groups; the executor's order covers every step once.
    - RollbackPlan.v (schema-migration/src/rollback_plan.rs): verified rollback plans,
      their reverse programs and the applied set they assume.
    - Execution.v, RollbackJournal.v (schema-migration/src/execution.rs): fences,
      leases, journal records, recovery tables, reconstruction of open apply and
      rollback plans and the active ledger.
    - Coordinator.v, RollbackCoordinator.v (schema-migration/src/coordinator.rs): the
      apply and the rollback executor as programs over the operations of the store
      and provider traits, with the validation of an interrupted plan. Report.v: the
      public report of an outcome.
    - Fencing.v: worlds, the contract the traits document, and pools of executors
      whose steps interleave with lease expiry. A stale lease changes nothing, journal
      writes may fail with or without being durable, commits may have an unknown
      outcome, and a backfill that ends without an answer may have committed any number
      of its transaction groups. The history of the database has what was run and
      the postconditions the provider verified. A program logic reduces a pool to one
      process under its lease.
    - Protocol.v: the commit protocol both executors follow, for any plan presented
      through the interface [PlanView] with the laws [PlanLaws]: the invariant that
      relates journal, live schema and database log, and the programs that keep it.
      ApplySafety.v and RollbackSafety.v instantiate it: any pool of executors
      executes an apply plan, or undoes a rollback plan, in order and exactly once; a
      backfill counts as executed once its postcondition is verified.
      ApplyRecovery.v and RollbackRecovery.v prove the converse of the refusals:
      wherever executors stop, the plan they leave open is rebuilt and accepted by
      the recovery, which resumes at the first manifest that is not complete.
      ReferenceEnvironment.v runs an environment that meets the contract through a
      crash and a recovery of each.
    - History.v (schema-migration/src/history.rs): the history graph and its plans.
      HistoryOrder.v proves the ordering loop, HistoryReach.v the two searches,
      HistoryPlans.v the plans of a valid graph, HistoryGraph.v that construction
      accepts exactly the well-formed histories and yields valid graphs; it states
      the theorems on plans: every prefix of a plan is a valid applied set, applying
      and rolling back are inverse, and the default plan applies everything.
    - Versions.v (core/src/version.rs, orm/src/schema/annotations.rs): server
      versions, protocol bands and the version gate. The scanner finds an annotation
      exactly outside strings and comments, and band 9 meets no server below 3.12.
    - ReleasedSpec.v (migration/src/spec.rs, orm/src/schema/info.rs) opens the first
      generation of the engine, which is still released: migrations, operations and
      schema entries. ReleasedGraph.v (migration/src/graph.rs, checksum.rs): graph
      validation with its cycle search on an explicit stack, and the checksum gate; a
      graph without diagnostics is a well-formed one.
    - ReleasedAnnotations.v (orm/src/schema/annotations.rs): flag strings, token
      differences and the statements of a difference. A difference is exact in both
      directions. What a server does with a statement is not modelled.
    - ReleasedPlan.v, ReleasedSteps.v (migration/src/plan.rs): the gates, the
      selection of migrations, role ordering and the assembly of steps. A plan exists
      exactly for well-formed inputs whose operations can be lowered; its run keeps
      the ledger closed exactly when the discovery order is a dependency order.
    - ReleasedExecutor.v (migration/src/executor.rs, backfill.rs), ReleasedRunLog.v
      (state/mod.rs, bin/type_bridge_migration.rs): execution step by step, the run
      log and the migrate command, as computations that extend a history of calls
      on the session and the store. What they answer is any function of the history.
      What is committed is a prefix of the plan, and the recorded migrations stay
      closed under dependencies; a run log that fails loses the records of all
      migrations the command has applied.
    - ReleasedRecovery.v (migration/src/recovery.rs): step identities and the
      fail-closed execution under an external ledger. It also shows that no run sends
      a schema annotation to a server known to be too old for it.

    ** Fuel

    Every loop that is not structural takes fuel from its caller, and a theorem says
    the fuel is enough: Tarjan's recursion gets the number of nodes, the ordering
    loops one unit per node of the subset, [reachable] one per node and one for the
    start, the closure of apply targets one per target and edge, and the attribute
    supertype walk the number of facts. In the released engine the cycle search gets
    one unit per node and dependency and one more, the walk to a parent role the
    number of declared relations and one more, the splitting of flags and the
    scanners of TypeQL the length of their text, and the reading of a count its depth.

    ** Not modelled

    Schema documents (YAML), semantic resolution and projection, the decoding of
    canonical JSON and the wire forms, building a manifest from a draft (which needs resolution), the TypeQL
    grammar and the rendering through it (an argument of the released planner),
    the database stores, the version probe and its TLS configuration, the loading
    and authoring of released migrations, the query engine, the object mapper, the
    server, code generation, the other commands and the language bindings. They
    are input and output around the modelled core, or wrap libraries this
    development does not have. The session layer of the object mapper is an
    argument of the released executors: its answers are unconstrained, and the
    theorems hold for all of them. *)

From Stdlib Require Export ZArith Lia Bool Ascii String.
From stdpp Require Export prelude strings.

#[export] Set Default Goal Selector "!".
#[export] Set Warnings "-clear-no-such-hyp".

(** ** Notations of the development *)

Declare Scope tb_scope.
Delimit Scope tb_scope with tb.
#[global] Open Scope tb_scope.

(** ** Results: Rust's [Result<A, E>] with the [?] operator *)

Inductive result (E A : Type) : Type :=
| Ok (a : A)
| Err (e : E).
Arguments Ok {E A} a.
Arguments Err {E A} e.

Notation "'let?' x ':=' e 'in' k" :=
  (match e with Ok x => k | Err err => Err err end)
  (at level 10, x pattern, e at level 100, k at level 200) : tb_scope.

Notation "'guard?' b 'else' e 'in' k" :=
  (if b then k else Err e)
  (at level 10, b at level 100, e at level 100, k at level 200) : tb_scope.

(** A sequence of fallible steps succeeds when every step does. *)
Lemma bind_ok_iff {E A B} (r : result E A) (k : A -> result E B) (b : B) :
  (let? x := r in k x) = Ok b <-> exists a, r = Ok a /\ k a = Ok b.
Proof. destruct r; naive_solver. Qed.

Lemma guard_ok_iff {E A} (c : bool) (e : E) (r : result E A) (a : A) :
  (if c then Err e else r) = Ok a <-> c = false /\ r = Ok a.
Proof. destruct c; naive_solver. Qed.

Definition ok_or {E A} (o : option A) (e : E) : result E A :=
  match o with Some a => Ok a | None => Err e end.

Definition map_err {E F A} (f : E -> F) (r : result E A) : result F A :=
  match r with Ok a => Ok a | Err e => Err (f e) end.

Definition is_ok {E A} (r : result E A) : bool :=
  match r with Ok _ => true | Err _ => false end.

(** Folding a fallible step over a list, left to right, stopping at the first error. *)
Fixpoint try_fold {E S A} (f : S -> A -> result E S) (s : S) (l : list A) : result E S :=
  match l with
  | [] => Ok s
  | a :: l => let? s' := f s a in try_fold f s' l
  end.

(** Mapping a fallible function over a list, stopping at the first error. *)
Fixpoint try_map {E A B} (f : A -> result E B) (l : list A) : result E (list B) :=
  match l with
  | [] => Ok []
  | a :: l => let? b := f a in let? bs := try_map f l in Ok (b :: bs)
  end.

Lemma try_map_ok_iff {E A B} (f : A -> result E B) (l : list A) :
  (exists bs, try_map f l = Ok bs) <-> Forall (fun a => exists b, f a = Ok b) l.
Proof.
  induction l as [|a l IH]; cbn; [split; [constructor|by eexists]|]. rewrite Forall_cons, <- IH.
  destruct (f a) as [b|e]; [|naive_solver]. destruct (try_map f l); naive_solver.
Qed.

(** ** Diagnostics (contract/src/diagnostic.rs)

    A diagnostic is identified by its stable category and code; the
    human-readable message, the path and the detail map are presentation. *)

Inductive DiagnosticCategory : Set :=
| InvalidContract | UnsupportedCapability | ResourceLimit | Cancelled | Integrity.

Record Diagnostic : Set := stable { d_category : DiagnosticCategory; d_code : string }.

#[global] Instance DiagnosticCategory_eq_dec : EqDecision DiagnosticCategory.
Proof. solve_decision. Defined.
#[global] Instance Diagnostic_eq_dec : EqDecision Diagnostic.
Proof. solve_decision. Defined.

(** ** Automation *)

Create HintDb tb.
Create Rewrite HintDb tb.

(** Split conjunctions, existentials and boolean connectives in the context. *)
Ltac simp_step :=
  match goal with
  | H : _ /\ _ |- _ => destruct H
  | H : exists _, _ |- _ => destruct H
  | H : Ok _ = Ok _ |- _ => injection H as H
  | H : Err _ = Err _ |- _ => injection H as H
  | H : Some _ = Some _ |- _ => injection H as H
  | H : Ok _ = Err _ |- _ => discriminate H
  | H : Err _ = Ok _ |- _ => discriminate H
  | H : Some _ = None |- _ => discriminate H
  | H : None = Some _ |- _ => discriminate H
  | H : andb _ _ = true |- _ => apply andb_true_iff in H
  | H : orb _ _ = false |- _ => apply orb_false_iff in H
  | H : negb _ = true |- _ => apply negb_true_iff in H
  | H : negb _ = false |- _ => apply negb_false_iff in H
  | H : (_, _) = (_, _) |- _ => apply pair_equal_spec in H
  end.
Ltac simp := repeat (simp_step; try subst).

(** Case analysis on the scrutinee of the first [match] or [if] of a hypothesis. *)
Ltac case_in H :=
  match type of H with
  | context [match ?x with _ => _ end] =>
      lazymatch x with
      | context [match _ with _ => _ end] => fail
      | _ => let E := fresh "E" in destruct x eqn:E; try discriminate H
      end
  end.

(** Case analysis on the scrutinee of the first [match] or [if] of the goal. *)
Ltac case_goal :=
  match goal with
  | |- context [match ?x with _ => _ end] =>
      lazymatch x with
      | context [match _ with _ => _ end] => fail
      | _ => let E := fresh "E" in destruct x eqn:E
      end
  end.
