(* ===== verification/BTree.v ===== *)
(** * Ordered collections

    Rust's derived [Ord] as a class of lawful comparisons, and
    [std::collections::{BTreeSet, BTreeMap}] as lists sorted strictly by that
    comparison: iteration order is list order, and equality of two such
    collections is equality of the lists. Nothing here models repository code;
    every component file builds on it. *)

From S2P Require Import Prelude.
From Stdlib Require Import Sorted.

(** ** Derived comparisons *)

Class Ord (A : Type) := cmp : A -> A -> comparison.

Class OrdLaws (A : Type) {o : Ord A} : Prop := {
  cmp_eq_iff : forall x y : A, cmp x y = Eq <-> x = y;
  cmp_opp : forall x y : A, cmp y x = CompOpp (cmp x y);
  cmp_lt_trans : forall x y z : A, cmp x y = Lt -> cmp y z = Lt -> cmp x z = Lt
}.

(** [Ordering::then_with]. *)
Definition then_cmp (c d : comparison) : comparison :=
  match c with Eq => d | _ => c end.

Definition oeqb {A} {o : Ord A} (x y : A) : bool :=
  match cmp x y with Eq => true | _ => false end.

Definition oltb {A} {o : Ord A} (x y : A) : bool :=
  match cmp x y with Lt => true | _ => false end.

Section ord_facts.
Context {A : Type} {o : Ord A} {ol : OrdLaws A}.

Lemma cmp_refl (x : A) : cmp x x = Eq.
Proof. by apply cmp_eq_iff. Qed.

Lemma cmp_gt_iff (x y : A) : cmp x y = Gt <-> cmp y x = Lt.
Proof. rewrite (cmp_opp x y). destruct (cmp x y); simpl; intuition congruence. Qed.

Lemma cmp_lt_ne (x y : A) : cmp x y = Lt -> x <> y.
Proof. intros H ->. rewrite cmp_refl in H. discriminate. Qed.

Lemma oeqb_spec (x y : A) : reflect (x = y) (oeqb x y).
Proof.
  unfold oeqb. destruct (cmp x y) eqn:E; constructor.
  - by apply cmp_eq_iff.
  - intros ->. rewrite cmp_refl in E. discriminate.
  - intros ->. rewrite cmp_refl in E. discriminate.
Qed.

Lemma oeqb_true (x y : A) : oeqb x y = true <-> x = y.
Proof. symmetry. apply reflect_iff, oeqb_spec. Qed.

Lemma oeqb_false (x y : A) : oeqb x y = false <-> x <> y.
Proof. destruct (oeqb_spec x y); intuition congruence. Qed.

Lemma oeqb_refl (x : A) : oeqb x x = true.
Proof. by apply oeqb_true. Qed.

Definition ord_eq_dec : EqDecision A :=
  fun x y =>
    match oeqb x y as b return oeqb x y = b -> Decision (x = y) with
    | true => fun e => left (proj1 (oeqb_true x y) e)
    | false => fun e => right (proj1 (oeqb_false x y) e)
    end eq_refl.

End ord_facts.

(** A comparison pulled back along an injection: records through tuples,
    tagged unions through sums. *)
Definition ord_by {A B} {o : Ord A} (f : B -> A) : Ord B := fun x y => cmp (f x) (f y).

Lemma ord_by_laws {A B} {o : Ord A} {ol : OrdLaws A} (f : B -> A) :
  (forall x y, f x = f y -> x = y) -> @OrdLaws B (ord_by f).
Proof.
  intros Hinj. split.
  - intros x y. change (cmp (f x) (f y) = Eq <-> x = y). rewrite cmp_eq_iff.
    split; [apply Hinj | by intros ->].
  - intros x y. exact (cmp_opp (f x) (f y)).
  - intros x y z. exact (cmp_lt_trans (f x) (f y) (f z)).
Qed.

#[global] Instance Ord_Z : Ord Z := Z.compare.
#[global] Instance OrdLaws_Z : OrdLaws Z.
Proof.
  split; unfold cmp, Ord_Z; intros.
  - apply Z.compare_eq_iff.
  - apply Z.compare_antisym.
  - rewrite Z.compare_lt_iff in *. lia.
Qed.

#[global] Instance Ord_nat : Ord nat := Nat.compare.
#[global] Instance OrdLaws_nat : OrdLaws nat.
Proof.
  split; unfold cmp, Ord_nat; intros.
  - apply Nat.compare_eq_iff.
  - apply Nat.compare_antisym.
  - rewrite Nat.compare_lt_iff in *. lia.
Qed.

#[global] Instance Ord_bool : Ord bool := ord_by (fun b : bool => if b then 1 else 0).
#[global] Instance OrdLaws_bool : OrdLaws bool.
Proof. apply ord_by_laws. by intros [] []. Qed.

#[global] Instance Ord_unit : Ord unit := fun _ _ => Eq.
#[global] Instance OrdLaws_unit : OrdLaws unit.
Proof. split; [by intros [] []|done|done]. Qed.

(** Bytes compare by their unsigned code. *)
Definition code (c : ascii) : Z := Z.of_N (N_of_ascii c).

Lemma code_inj (c d : ascii) : code c = code d -> c = d.
Proof.
  unfold code. intros H. apply N2Z.inj in H.
  rewrite <- (ascii_N_embedding c), <- (ascii_N_embedding d). by rewrite H.
Qed.

#[global] Instance Ord_ascii : Ord ascii := ord_by code.
#[global] Instance OrdLaws_ascii : OrdLaws ascii.
Proof. apply ord_by_laws, code_inj. Qed.

Section lexicographic.
Context {A B : Type} {oA : Ord A} {oB : Ord B} {lA : OrdLaws A} {lB : OrdLaws B}.

#[global] Instance Ord_prod : Ord (A * B) := fun x y => then_cmp (cmp x.1 y.1) (cmp x.2 y.2).
#[global] Instance OrdLaws_prod : OrdLaws (A * B).
Proof.
  split; unfold cmp, Ord_prod.
  - intros [a b] [a' b']; simpl. destruct (cmp a a') eqn:E; simpl.
    + apply cmp_eq_iff in E as ->. rewrite cmp_eq_iff. intuition congruence.
    + apply cmp_lt_ne in E. intuition congruence.
    + apply cmp_gt_iff, cmp_lt_ne in E. intuition congruence.
  - intros [a b] [a' b']; simpl. rewrite (cmp_opp a a'), (cmp_opp b b').
    by destruct (cmp a a').
  - intros [a b] [a' b'] [a'' b'']; simpl.
    destruct (cmp a a') eqn:E1; simpl; try discriminate.
    + apply cmp_eq_iff in E1 as ->. destruct (cmp a' a''); simpl; try discriminate; [|done].
      apply cmp_lt_trans.
    + intros _. destruct (cmp a' a'') eqn:E2; simpl; try discriminate.
      * apply cmp_eq_iff in E2 as ->. by rewrite E1.
      * intros _. by rewrite (cmp_lt_trans _ _ _ E1 E2).
Qed.

Fixpoint list_cmp (l k : list A) : comparison :=
  match l, k with
  | [], [] => Eq
  | [], _ => Lt
  | _, [] => Gt
  | x :: l, y :: k => then_cmp (cmp x y) (list_cmp l k)
  end.
#[global] Instance Ord_list : Ord (list A) := list_cmp.
#[global] Instance OrdLaws_list : OrdLaws (list A).
Proof.
  split; unfold cmp, Ord_list.
  - induction x as [|x l IH]; intros [|y k]; simpl; try (split; congruence).
    destruct (cmp x y) eqn:E; simpl.
    + apply cmp_eq_iff in E as ->. rewrite IH. split; congruence.
    + apply cmp_lt_ne in E. split; congruence.
    + apply cmp_gt_iff, cmp_lt_ne in E. split; congruence.
  - induction x as [|x l IH]; intros [|y k]; simpl; try done.
    rewrite (cmp_opp x y), IH. by destruct (cmp x y).
  - induction x as [|x l IH]; intros [|y k] [|z m]; simpl; try done.
    destruct (cmp x y) eqn:E1; simpl; try discriminate.
    + apply cmp_eq_iff in E1 as ->. destruct (cmp y z); simpl; try discriminate; [|done].
      apply IH.
    + intros _. destruct (cmp y z) eqn:E2; simpl; try discriminate.
      * apply cmp_eq_iff in E2 as ->. by rewrite E1.
      * intros _. by rewrite (cmp_lt_trans _ _ _ E1 E2).
Qed.

#[global] Instance Ord_sum : Ord (A + B) := fun x y =>
  match x, y with
  | inl a, inl a' => cmp a a'
  | inl _, inr _ => Lt
  | inr _, inl _ => Gt
  | inr b, inr b' => cmp b b'
  end.
#[global] Instance OrdLaws_sum : OrdLaws (A + B).
Proof.
  split; unfold cmp, Ord_sum.
  - intros [a|b] [a'|b']; try (split; congruence); rewrite cmp_eq_iff; split; congruence.
  - intros [a|b] [a'|b']; simpl; try done; apply cmp_opp.
  - intros [a|b] [a'|b'] [a''|b'']; simpl; try done; apply cmp_lt_trans.
Qed.
End lexicographic.

#[global] Instance Ord_option {A} {o : Ord A} : Ord (option A) :=
  ord_by (fun x : option A => match x with None => inl tt | Some a => inr a end).
#[global] Instance OrdLaws_option {A} {o : Ord A} {ol : OrdLaws A} : OrdLaws (option A).
Proof. apply ord_by_laws. intros [] []; congruence. Qed.

(** ** [BTreeSet]: strictly increasing lists *)

Definition olt {A} {o : Ord A} (x y : A) : Prop := cmp x y = Lt.

Abbreviation BTreeSet := list (only parsing).
Abbreviation ssorted := (StronglySorted olt).

Section btree_set.
Context {A : Type} {o : Ord A}.

Definition smem (x : A) (s : BTreeSet A) : bool := existsb (oeqb x) s.

Fixpoint sins (x : A) (s : BTreeSet A) : BTreeSet A :=
  match s with
  | [] => [x]
  | y :: s' => match cmp x y with
               | Lt => x :: s
               | Eq => s
               | Gt => y :: sins x s'
               end
  end.

Definition sdel (x : A) (s : BTreeSet A) : BTreeSet A :=
  base.filter (fun y => oeqb x y = false) s.

Definition sof (l : list A) : BTreeSet A := fold_left (fun s x => sins x s) l [].
Definition sunion (s t : BTreeSet A) : BTreeSet A := fold_left (fun s x => sins x s) t s.
Definition sdiff (s t : BTreeSet A) : BTreeSet A := base.filter (fun x => smem x t = false) s.
Definition sinter (s t : BTreeSet A) : BTreeSet A := base.filter (fun x => smem x t = true) s.

Context {ol : OrdLaws A}.

Lemma smem_true x s : smem x s = true <-> x ∈ s.
Proof.
  unfold smem. rewrite existsb_exists. setoid_rewrite <- list_elem_of_In. split.
  - intros (y & Hy & ->%oeqb_true). done.
  - intros H. exists x. split; [done|]. apply oeqb_refl.
Qed.

Lemma smem_false x s : smem x s = false <-> x ∉ s.
Proof. rewrite <- smem_true. destruct (smem x s); intuition congruence. Qed.

Lemma elem_sins x y s : y ∈ sins x s <-> y = x \/ y ∈ s.
Proof.
  induction s as [|z s IH]; simpl.
  - set_solver.
  - destruct (cmp x z) eqn:E.
    + apply cmp_eq_iff in E as ->. set_solver.
    + set_solver.
    + rewrite !elem_of_cons, IH. tauto.
Qed.

Lemma sins_sorted x s : ssorted s -> ssorted (sins x s).
Proof.
  induction 1 as [|z s Hs IH Hz]; simpl.
  - repeat constructor.
  - destruct (cmp x z) eqn:E.
    + by constructor.
    + constructor; [by constructor|]. constructor; [done|].
      eapply Forall_impl; [exact Hz|]. intros w Hw. by eapply cmp_lt_trans.
    + constructor; [done|]. apply Forall_forall. intros w [->|Hw]%elem_sins.
      * by apply cmp_gt_iff.
      * rewrite Forall_forall in Hz. by apply Hz.
Qed.

Lemma filter_sorted (P : A -> Prop) `{forall x, Decision (P x)} s :
  ssorted s -> ssorted (base.filter P s).
Proof.
  induction 1 as [|z s Hs IH Hz]; [constructor|].
  rewrite filter_cons. case_decide; [|done]. constructor; [done|].
  rewrite Forall_forall in Hz |- *. intros w [_ Hw]%list_elem_of_filter. by apply Hz.
Qed.

Lemma sdel_sorted x s : ssorted s -> ssorted (sdel x s).
Proof. apply filter_sorted. Qed.

Lemma elem_sdel x y s : y ∈ sdel x s <-> y <> x /\ y ∈ s.
Proof. unfold sdel. rewrite list_elem_of_filter, oeqb_false. intuition congruence. Qed.

Lemma fold_sins_sorted l s : ssorted s -> ssorted (fold_left (fun s x => sins x s) l s).
Proof. revert s. induction l as [|x l IH]; intros s Hs; simpl; [done|]. by apply IH, sins_sorted. Qed.

Lemma elem_fold_sins l s y :
  y ∈ fold_left (fun s x => sins x s) l s <-> y ∈ l \/ y ∈ s.
Proof.
  revert s. induction l as [|x l IH]; intros s; simpl; [set_solver|].
  rewrite IH, elem_sins, elem_of_cons. tauto.
Qed.

Lemma sof_sorted l : ssorted (sof l).
Proof. apply fold_sins_sorted. constructor. Qed.
Lemma elem_sof l y : y ∈ sof l <-> y ∈ l.
Proof. unfold sof. rewrite elem_fold_sins. set_solver. Qed.
Lemma sunion_sorted s t : ssorted s -> ssorted (sunion s t).
Proof. apply fold_sins_sorted. Qed.
Lemma elem_sunion s t y : y ∈ sunion s t <-> y ∈ s \/ y ∈ t.
Proof. unfold sunion. rewrite elem_fold_sins. tauto. Qed.
Lemma sdiff_sorted s t : ssorted s -> ssorted (sdiff s t).
Proof. apply filter_sorted. Qed.
Lemma elem_sdiff s t y : y ∈ sdiff s t <-> y ∈ s /\ y ∉ t.
Proof. unfold sdiff. rewrite list_elem_of_filter, smem_false. tauto. Qed.
Lemma sinter_sorted s t : ssorted s -> ssorted (sinter s t).
Proof. apply filter_sorted. Qed.
Lemma elem_sinter s t y : y ∈ sinter s t <-> y ∈ s /\ y ∈ t.
Proof. unfold sinter. rewrite list_elem_of_filter, smem_true. tauto. Qed.

Lemma ssorted_NoDup s : ssorted s -> NoDup s.
Proof.
  induction 1 as [|z s Hs IH Hz]; constructor; [|done].
  intros Hin. rewrite Forall_forall in Hz. by apply Hz, cmp_lt_ne in Hin.
Qed.

(** Two ordered sets with the same members are equal. *)
Lemma ssorted_ext s t : ssorted s -> ssorted t -> (forall x, x ∈ s <-> x ∈ t) -> s = t.
Proof.
  intros Hs. revert t. induction Hs as [|x s Hs IH Hx]; intros t Ht Hext.
  - destruct t as [|y t]; [done|]. specialize (Hext y). set_solver.
  - destruct Ht as [|y t Ht Hy]; [specialize (Hext x); set_solver|].
    rewrite Forall_forall in Hx, Hy.
    assert (x = y) as ->.
    { destruct (cmp x y) eqn:E; [by apply cmp_eq_iff| |].
      - assert (x ∈ y :: t) as [->|Hin]%elem_of_cons by (apply Hext; set_solver); [done|].
        apply Hy in Hin. apply cmp_gt_iff in Hin. congruence.
      - assert (y ∈ x :: s) as [->|Hin]%elem_of_cons by (apply Hext; set_solver); [done|].
        apply Hx in Hin. unfold olt in Hin. congruence. }
    f_equal. apply IH; [done|]. intros z. specialize (Hext z). rewrite !elem_of_cons in Hext.
    split; intros Hz; destruct Hext as [H1 H2].
    + destruct H1 as [->|]; [by right| |done]. by apply Hx, cmp_lt_ne in Hz.
    + destruct H2 as [->|]; [by right| |done]. by apply Hy, cmp_lt_ne in Hz.
Qed.

Lemma sins_id x s : ssorted s -> x ∈ s -> sins x s = s.
Proof.
  intros Hs Hx. apply ssorted_ext; [by apply sins_sorted|done|].
  intros y. rewrite elem_sins. naive_solver.
Qed.

End btree_set.

#[export] Hint Resolve sins_sorted sdel_sorted sof_sorted sunion_sorted sdiff_sorted
  sinter_sorted filter_sorted : tb.
#[export] Hint Resolve SSorted_nil : tb.
#[export] Hint Rewrite @elem_sins @elem_sdel @elem_sof @elem_sunion @elem_sdiff @elem_sinter
  using typeclasses eauto : tb.

(** ** [BTreeMap]: association lists with strictly increasing keys *)

Abbreviation BTreeMap K V := (list (K * V)) (only parsing).
Abbreviation msorted m := (ssorted (map fst m)) (only parsing).

Section btree_map.
Context {K V : Type} {o : Ord K}.

Fixpoint mget (k : K) (m : BTreeMap K V) : option V :=
  match m with
  | [] => None
  | (k', v) :: m' => if oeqb k k' then Some v else mget k m'
  end.

Definition mmem (k : K) (m : BTreeMap K V) : bool :=
  match mget k m with Some _ => true | None => false end.

Fixpoint mins (k : K) (v : V) (m : BTreeMap K V) : BTreeMap K V :=
  match m with
  | [] => [(k, v)]
  | (k', v') :: m' => match cmp k k' with
                      | Lt => (k, v) :: m
                      | Eq => (k, v) :: m'
                      | Gt => (k', v') :: mins k v m'
                      end
  end.

Definition mdel (k : K) (m : BTreeMap K V) : BTreeMap K V :=
  base.filter (fun p => oeqb k p.1 = false) m.

Definition mkeys (m : BTreeMap K V) : list K := map fst m.
Definition mvals (m : BTreeMap K V) : list V := map snd m.

Definition mof (l : list (K * V)) : BTreeMap K V :=
  fold_left (fun m p => mins p.1 p.2 m) l [].

(** [map.entry(k).or_default().f()]: update the value at [k], starting from [d]. *)
Definition mentry (k : K) (d : V) (f : V -> V) (m : BTreeMap K V) : BTreeMap K V :=
  mins k (f (match mget k m with Some v => v | None => d end)) m.

Context {ol : OrdLaws K}.

Lemma mget_mins_eq k v m : mget k (mins k v m) = Some v.
Proof.
  induction m as [|[k' v'] m IH]; simpl.
  - by rewrite oeqb_refl.
  - destruct (cmp k k') eqn:E; simpl; rewrite ?oeqb_refl; try done.
    destruct (oeqb_spec k k') as [->|]; [|done]. by rewrite cmp_refl in E.
Qed.

Lemma mget_mins_ne k k' v m : k <> k' -> mget k' (mins k v m) = mget k' m.
Proof.
  intros Hne. induction m as [|[k2 v2] m IH]; simpl.
  - destruct (oeqb_spec k' k); congruence.
  - destruct (cmp k k2) eqn:E; simpl.
    + apply cmp_eq_iff in E as ->. destruct (oeqb_spec k' k2); congruence.
    + destruct (oeqb_spec k' k); congruence.
    + by rewrite IH.
Qed.

Lemma mget_mins k k' v m : mget k' (mins k v m) = if oeqb k k' then Some v else mget k' m.
Proof.
  destruct (oeqb_spec k k') as [->|]; [apply mget_mins_eq|by apply mget_mins_ne].
Qed.

Lemma mget_mdel k k' m : mget k' (mdel k m) = if oeqb k k' then None else mget k' m.
Proof.
  unfold mdel. induction m as [|[k2 v2] m IH]; simpl; [by destruct (oeqb _ _)|].
  rewrite filter_cons. simpl. case_decide as Hd; simpl.
  - rewrite IH. apply oeqb_false in Hd. destruct (oeqb_spec k' k2) as [->|]; [|done].
    destruct (oeqb_spec k k2); congruence.
  - rewrite IH. apply not_false_iff_true, oeqb_true in Hd as ->.
    destruct (oeqb_spec k2 k') as [->|]; [done|]. destruct (oeqb_spec k' k2); congruence.
Qed.

Lemma mdel_sorted k m : msorted m -> msorted (mdel k m).
Proof.
  unfold mdel. induction m as [|[k' v'] m IH]; simpl; [done|].
  intros Hs. inversion Hs as [|? ? Hs' Hf]; subst.
  rewrite filter_cons. simpl. case_decide; simpl; [|by apply IH].
  constructor; [by apply IH|]. rewrite Forall_forall in Hf |- *. intros k2 Hk2. apply Hf.
  apply list_elem_of_fmap in Hk2 as ([k3 v3] & -> & [_ Hk3]%list_elem_of_filter).
  apply (list_elem_of_fmap_2 fst _ (k3, v3)). done.
Qed.

Lemma mkeys_mins k v m : msorted m -> map fst (mins k v m) = sins k (map fst m).
Proof.
  induction m as [|[k' v'] m IH]; simpl; [done|]. intros Hs.
  destruct (cmp k k') eqn:E; simpl.
  - by apply cmp_eq_iff in E as ->.
  - done.
  - f_equal. apply IH. by inversion Hs.
Qed.

Lemma mins_sorted k v m : msorted m -> msorted (mins k v m).
Proof. intros Hs. rewrite mkeys_mins by done. by apply sins_sorted. Qed.

Lemma mof_sorted l : msorted (mof l).
Proof.
  unfold mof. assert (msorted (@nil (K * V))) as Hs by constructor. revert Hs.
  generalize (@nil (K * V)). induction l as [|[k v] l IH]; intros m Hs; simpl; [done|].
  by apply IH, mins_sorted.
Qed.

Lemma mget_elem k m : is_Some (mget k m) <-> k ∈ map fst m.
Proof.
  induction m as [|[k' v'] m IH]; simpl.
  - split; [by intros []|set_solver].
  - destruct (oeqb_spec k k') as [->|Hne].
    + split; [set_solver|eauto].
    + rewrite IH. set_solver.
Qed.

Lemma mmem_true k m : mmem k m = true <-> k ∈ map fst m.
Proof.
  rewrite <- mget_elem. unfold mmem. destruct (mget k m) as [v|].
  - split; [by exists v|done].
  - split; [done|by intros []].
Qed.

Lemma mget_None k m : mget k m = None <-> k ∉ map fst m.
Proof. rewrite <- mget_elem, eq_None_not_Some. done. Qed.

Lemma mmem_false k m : mmem k m = false <-> mget k m = None.
Proof. unfold mmem. destruct (mget k m); split; congruence. Qed.

Lemma mget_In k v m : mget k m = Some v -> (k, v) ∈ m.
Proof.
  induction m as [|[k' v'] m IH]; simpl; [done|].
  destruct (oeqb_spec k k') as [->|].
  - intros [= ->]. by left.
  - intros H. right. by apply IH.
Qed.

Lemma elem_mget k v m : msorted m -> (k, v) ∈ m <-> mget k m = Some v.
Proof.
  intros Hs. split; [|apply mget_In]. induction m as [|[k' v'] m IH]; simpl; [set_solver|].
  inversion Hs as [|? ? Hs' Hf]; subst. intros [[= -> ->]|Hin]%elem_of_cons.
  - by rewrite oeqb_refl.
  - destruct (oeqb_spec k k') as [->|]; [|by apply IH].
    rewrite Forall_forall in Hf. apply (list_elem_of_fmap_2 fst) in Hin.
    apply Hf, cmp_lt_ne in Hin. done.
Qed.

(** Two ordered maps with the same lookups are equal. *)
Lemma msorted_ext m n : msorted m -> msorted n -> (forall k, mget k m = mget k n) -> m = n.
Proof.
  revert n. induction m as [|[k v] m IH]; intros [|[k' v'] n] Hm Hn Hext.
  - done.
  - specialize (Hext k'). simpl in Hext. by rewrite oeqb_refl in Hext.
  - specialize (Hext k). simpl in Hext. by rewrite oeqb_refl in Hext.
  - assert (map fst ((k, v) :: m) = map fst ((k', v') :: n)) as Hkeys.
    { apply ssorted_ext; [done|done|]. intros x. by rewrite <- !mget_elem, Hext. }
    simpl in Hkeys. injection Hkeys as <- Hkeys.
    assert (v = v') as ->.
    { specialize (Hext k). simpl in Hext. rewrite oeqb_refl in Hext. congruence. }
    f_equal. inversion Hm as [|? ? Hm' Hfm]; subst. inversion Hn as [|? ? Hn' Hfn]; subst.
    apply IH; [done|done|]. intros x. specialize (Hext x). simpl in Hext.
    rewrite Forall_forall in Hfm, Hfn. destruct (oeqb_spec x k) as [Heq|Hne]; [|done].
    assert (forall l : list (K * V), (forall y, y ∈ map fst l -> olt k y) -> mget x l = None)
      as Hnone.
    { intros l Hl. apply mget_None. rewrite Heq. intros Hin. by apply Hl, cmp_lt_ne in Hin. }
    by rewrite !Hnone.
Qed.

Lemma mget_mof k l :
  NoDup (map fst l) -> forall v, mget k (mof l) = Some v <-> (k, v) ∈ l.
Proof.
  unfold mof. intros Hnd v.
  enough (forall m, (forall k', k' ∈ map fst l -> mget k' m = None) ->
    mget k (fold_left (fun m p => mins p.1 p.2 m) l m) = Some v
    <-> (k, v) ∈ l \/ mget k m = Some v) as H.
  { rewrite H by done. simpl. intuition congruence. }
  induction l as [|[k1 v1] l IH]; intros m Hm; simpl; [set_solver|].
  simpl in Hnd. apply NoDup_cons in Hnd as [Hk1 Hnd]. rewrite IH; [|done|].
  - rewrite mget_mins, elem_of_cons. simpl. destruct (oeqb_spec k1 k) as [->|Hne].
    + rewrite (Hm k) by set_solver. split.
      * intros [H|[= ->]]; [by left; right|by left; left].
      * intros [[[= ->]|H]|[=]]; [by right|by left].
    + naive_solver.
  - intros k' Hk'. simpl. rewrite mget_mins_ne by set_solver. apply Hm. set_solver.
Qed.

(** The keys of a map built from a list, and the source of its values. *)
Lemma mof_fold (l : list (K * V)) k : forall m0 : BTreeMap K V,
  (is_Some (mget k (fold_left (fun m p => mins p.1 p.2 m) l m0)) <-> is_Some (mget k m0) \/ k ∈ map fst l) /\
  (forall v, mget k (fold_left (fun m p => mins p.1 p.2 m) l m0) = Some v -> (k, v) ∈ l \/ mget k m0 = Some v).
Proof.
  induction l as [|[k1 v1] l IH]; intros m0; cbn [fold_left map fst snd].
  { split; [|by right]. split; [by left|]. intros [H|H%not_elem_of_nil]; done. }
  destruct (IH (mins k1 v1 m0)) as [Hd Hv]. rewrite mget_mins in Hd, Hv. rewrite Hd, elem_of_cons. split.
  - destruct (oeqb_spec k1 k) as [->|Hne]; [|naive_solver]. split; [by right; left|by left].
  - intros v [H|H]%Hv; [by left; apply list_elem_of_further|].
    destruct (oeqb_spec k1 k) as [->|Hne]; [injection H as ->; left; apply list_elem_of_here|by right].
Qed.

End btree_map.

#[export] Hint Resolve mins_sorted mdel_sorted mof_sorted : tb.
