(* ===== verification/Text.v ===== *)
(** * Byte strings

    Rust's [str] and [String] as their UTF-8 byte sequences, with the
    [core::str] and [core::num] functions the sources use: prefix and suffix
    stripping, splitting, trimming, decimal parsing with its overflow
    behaviour, and decimal printing with zero padding. Nothing here models
    repository code. *)

From S2P Require Import Prelude BTree.
From Stdlib Require Import Sorted.
#[local] Open Scope Z_scope.

Abbreviation str := (list ascii).

Definition lit (s : string) : str := list_ascii_of_string s.
Notation "'b#' s" := (lit s%string) (at level 1, s at level 0) : tb_scope.

(** ** Byte classes *)

Definition in_range (lo hi : Z) (c : ascii) : bool := (lo <=? code c) && (code c <=? hi).
Definition is_ascii_digit : ascii -> bool := in_range 48 57.
Definition is_ascii_lowercase : ascii -> bool := in_range 97 122.
Definition is_ascii_uppercase : ascii -> bool := in_range 65 90.
Definition is_ascii_alphanumeric (c : ascii) : bool :=
  is_ascii_digit c || is_ascii_lowercase c || is_ascii_uppercase c.
Definition is_ascii_hexdigit (c : ascii) : bool :=
  is_ascii_digit c || in_range 97 102 c || in_range 65 70 c.
Definition is_ascii (s : str) : bool := forallb (fun c => code c <=? 127) s.

(** ** Searching and splitting *)

Definition str_eqb (s t : str) : bool := oeqb s t.

Fixpoint strip_prefix (p s : str) : option str :=
  match p, s with
  | [], _ => Some s
  | a :: p, b :: s => if oeqb a b then strip_prefix p s else None
  | _, [] => None
  end.

Definition strip_suffix (p s : str) : option str :=
  option_map (@rev ascii) (strip_prefix (rev p) (rev s)).

Definition starts_with (p s : str) : bool :=
  match strip_prefix p s with Some _ => true | None => false end.
Definition ends_with (p s : str) : bool :=
  match strip_suffix p s with Some _ => true | None => false end.

Fixpoint split_once (c : ascii) (s : str) : option (str * str) :=
  match s with
  | [] => None
  | d :: s => if oeqb c d then Some ([], s)
              else match split_once c s with
                   | Some (l, r) => Some (d :: l, r)
                   | None => None
                   end
  end.

Definition rsplit_once (c : ascii) (s : str) : option (str * str) :=
  match split_once c (rev s) with
  | Some (l, r) => Some (rev r, rev l)
  | None => None
  end.

Fixpoint split_on (c : ascii) (s : str) : list str :=
  match s with
  | [] => [[]]
  | d :: s => if oeqb c d then [] :: split_on c s
              else match split_on c s with
                   | seg :: segs => (d :: seg) :: segs
                   | [] => [[d]]
                   end
  end.

Definition contains_byte (c : ascii) (s : str) : bool := existsb (oeqb c) s.

Fixpoint trim_start (c : ascii) (s : str) : str :=
  match s with
  | [] => []
  | d :: s' => if oeqb c d then trim_start c s' else s
  end.
Definition trim_end (c : ascii) (s : str) : str := rev (trim_start c (rev s)).

(** ** Decimal digits *)

Definition all_digits (s : str) : bool := forallb is_ascii_digit s.
Definition digit_val (c : ascii) : Z := code c - 48.
Definition digit_char (d : Z) : ascii := ascii_of_N (Z.to_N (48 + d)).

Definition dval_from (z : Z) (s : str) : Z := fold_left (fun acc c => acc * 10 + digit_val c) s z.
Definition dval (s : str) : Z := dval_from 0 s.

Fixpoint dshow_fuel (fuel : nat) (z : Z) (acc : str) : str :=
  match fuel with
  | O => acc
  | S fuel => let acc := digit_char (z mod 10) :: acc in
              if z <? 10 then acc else dshow_fuel fuel (z / 10) acc
  end.

(** [u64::to_string] and the like, for a non-negative value. *)
Definition dshow (z : Z) : str := dshow_fuel (S (Z.to_nat (Z.log2 z))) z [].

(** [i64::to_string]. *)
Definition ishow (z : Z) : str := if z <? 0 then "-"%char :: dshow (- z) else dshow z.

(** [format!("{:0w$}", z)] for a non-negative value. *)
Definition pad_left (w : nat) (s : str) : str := replicate (w - length s) "0"%char ++ s.
Definition pad_right (w : nat) (s : str) : str := s ++ replicate (w - length s) "0"%char.

(** [str::parse] at an unsigned type with the given maximum. *)
Definition parse_uint (max : Z) (s : str) : option Z :=
  let digits := match s with "+"%char :: t => t | _ => s end in
  if negb (bool_decide (digits = [])) && all_digits digits && (dval digits <=? max)
  then Some (dval digits) else None.

(** [str::parse] at a signed type with the given range. *)
Definition parse_int (min max : Z) (s : str) : option Z :=
  match s with
  | "-"%char :: t =>
      if negb (bool_decide (t = [])) && all_digits t && (min <=? - dval t)
      then Some (- dval t) else None
  | _ => parse_uint max s
  end.

(** ** Machine widths *)

Definition u8_max : Z := 255.
Definition u32_max : Z := 4294967295.
Definition u64_max : Z := 18446744073709551615.
Definition usize_max : Z := u64_max.
Definition i32_min : Z := -2147483648.
Definition i32_max : Z := 2147483647.
Definition i64_min : Z := -9223372036854775808.
Definition i64_max : Z := 9223372036854775807.
Definition u8 (z : Z) : Z := z mod 256.
Definition usize (z : Z) : Z := z mod 18446744073709551616.

#[global] Arguments in_range : simpl never.
#[global] Arguments is_ascii_digit : simpl never.
#[global] Arguments is_ascii_lowercase : simpl never.
#[global] Arguments is_ascii_uppercase : simpl never.
#[global] Arguments is_ascii_alphanumeric : simpl never.
#[global] Arguments is_ascii_hexdigit : simpl never.
#[global] Arguments code : simpl never.
#[global] Arguments dshow : simpl never.
#[global] Arguments dval : simpl never.

(** ** Facts about bytes and stripping *)

Lemma code_range c : 0 <= code c < 256.
Proof. unfold code. pose proof (N_ascii_bounded c). lia. Qed.

Lemma digit_spec c : is_ascii_digit c = true <-> 48 <= code c <= 57.
Proof. unfold is_ascii_digit, in_range. rewrite andb_true_iff, !Z.leb_le. done. Qed.

Lemma code_digit_char d : 0 <= d <= 9 -> code (digit_char d) = 48 + d.
Proof.
  intros Hd. unfold code, digit_char. rewrite N_ascii_embedding by lia. lia.
Qed.

Lemma digit_char_val c : is_ascii_digit c = true -> digit_char (digit_val c) = c.
Proof.
  intros Hc%digit_spec. apply code_inj. unfold digit_val. rewrite code_digit_char by lia. lia.
Qed.

Lemma strip_prefix_Some p s t : strip_prefix p s = Some t <-> s = p ++ t.
Proof.
  revert s. induction p as [|a p IH]; intros s; simpl; [naive_solver|].
  destruct s as [|b s]; [naive_solver|].
  destruct (oeqb_spec a b) as [->|Hne]; [rewrite IH|]; naive_solver.
Qed.

Lemma strip_suffix_Some p s t : strip_suffix p s = Some t <-> s = t ++ p.
Proof.
  unfold strip_suffix. destruct (strip_prefix (rev p) (rev s)) as [u|] eqn:E; simpl.
  - apply strip_prefix_Some in E. apply (f_equal (@rev ascii)) in E.
    rewrite rev_involutive, rev_app_distr, rev_involutive in E. subst. split.
    + by intros [= <-].
    + intros ->%app_inv_tail. done.
  - split; [done|]. intros ->. rewrite rev_app_distr in E.
    assert (strip_prefix (rev p) (rev p ++ rev t) = Some (rev t)) by by apply strip_prefix_Some.
    congruence.
Qed.

Lemma strip_suffix_None p s : strip_suffix p s = None <-> forall t, s <> t ++ p.
Proof.
  destruct (strip_suffix p s) as [u|] eqn:E.
  - apply strip_suffix_Some in E. split; [done|]. intros H. by destruct (H u).
  - split; [|done]. intros _ t Ht%strip_suffix_Some. congruence.
Qed.

Lemma elem_of_rev {A} (x : A) (l : list A) : x ∈ rev l <-> x ∈ l.
Proof. by rewrite !list_elem_of_In, <- in_rev. Qed.

Lemma split_once_Some c s l r : split_once c s = Some (l, r) <-> s = l ++ c :: r /\ c ∉ l.
Proof.
  revert l r. induction s as [|d s IH]; intros l r; simpl.
  - split; [done|]. intros [H _]. by destruct l.
  - destruct (oeqb_spec c d) as [->|Hne].
    + split; [intros [= <- <-]; split; [done|set_solver]|].
      intros [H Hl]. destruct l as [|x l]; simplify_eq/=; [done|]. set_solver.
    + destruct (split_once c s) as [[l' r']|] eqn:E.
      * split.
        -- intros [= <- <-]. destruct (IH l' r') as [[-> Hl] _]; [done|]. split; [done|set_solver].
        -- intros [H Hl]. destruct l as [|x l]; simplify_eq/=.
           destruct (IH l r) as [_ IH2].
           assert (Some (l', r') = Some (l, r)) as [= <- <-]; [|done].
           apply IH2. split; [done|set_solver].
      * split; [done|]. intros [H Hl]. destruct l as [|x l]; simplify_eq/=.
        destruct (IH l r) as [_ IH2]. exfalso.
        by assert (@None (str * str) = Some (l, r)) by (apply IH2; split; [done|set_solver]).
Qed.

Lemma split_once_None c s : split_once c s = None <-> c ∉ s.
Proof.
  induction s as [|d s IH]; simpl; [set_solver|].
  destruct (oeqb_spec c d) as [->|Hne]; [set_solver|].
  destruct (split_once c s) as [[l r]|]; split; try done; intros; set_solver.
Qed.

Lemma rsplit_once_Some c s l r : rsplit_once c s = Some (l, r) <-> s = l ++ c :: r /\ c ∉ r.
Proof.
  unfold rsplit_once. destruct (split_once c (rev s)) as [[l' r']|] eqn:E.
  - apply split_once_Some in E as [E Hl]. apply (f_equal (@rev ascii)) in E.
    rewrite rev_involutive, rev_app_distr in E. simpl in E. rewrite <- app_assoc in E. simpl in E.
    split.
    + intros [= <- <-]. split; [done|]. by rewrite elem_of_rev.
    + intros [H Hr]. enough (split_once c (rev s) = Some (rev r, rev l)) as H2.
      { assert (split_once c (rev s) = Some (l', r')) as H3.
        { apply split_once_Some. split; [|done]. rewrite E, rev_app_distr. simpl.
          rewrite <- app_assoc, !rev_involutive. done. }
        rewrite H2 in H3. injection H3 as <- <-. by rewrite !rev_involutive. }
      apply split_once_Some. rewrite H, rev_app_distr. simpl. rewrite <- app_assoc.
      split; [done|]. by rewrite elem_of_rev.
  - split; [done|]. intros [-> Hr]. apply split_once_None in E.
    exfalso. apply E. rewrite elem_of_rev. set_solver.
Qed.

(** ** Facts about decimal digit strings *)

(** A non-empty digit string without a redundant leading zero. *)
Definition canonical_digits (s : str) : bool :=
  match s with
  | [] => false
  | [c] => is_ascii_digit c
  | c :: _ => all_digits s && negb (oeqb c "0"%char)
  end.

Lemma all_digits_app s t : all_digits (s ++ t) = all_digits s && all_digits t.
Proof. apply forallb_app. Qed.

Lemma all_digits_rev s : all_digits (rev s) = all_digits s.
Proof.
  induction s as [|c s IH]; simpl; [done|].
  rewrite all_digits_app, IH. simpl. rewrite andb_true_r. apply andb_comm.
Qed.

Lemma all_digits_replicate n : all_digits (replicate n "0"%char) = true.
Proof. induction n; done. Qed.

Lemma canonical_all_digits s : canonical_digits s = true -> all_digits s = true.
Proof.
  destruct s as [|c [|d t]]; simpl; [done|by intros ->|].
  by intros [H _]%andb_true_iff.
Qed.

Lemma dval_from_eq z s : dval_from z s = z * 10 ^ Z.of_nat (length s) + dval s.
Proof.
  unfold dval, dval_from. revert z. induction s as [|c s IH]; intros z.
  - cbn. lia.
  - cbn [fold_left length]. rewrite (IH (z * 10 + digit_val c)), (IH (0 * 10 + digit_val c)).
    rewrite Nat2Z.inj_succ, Z.pow_succ_r by lia. ring.
Qed.

Lemma dval_cons c s : dval (c :: s) = digit_val c * 10 ^ Z.of_nat (length s) + dval s.
Proof. unfold dval at 1. cbn [dval_from fold_left]. apply dval_from_eq. Qed.

Lemma dval_app s t : dval (s ++ t) = dval s * 10 ^ Z.of_nat (length t) + dval t.
Proof. unfold dval at 1, dval_from. rewrite fold_left_app. apply dval_from_eq. Qed.

Lemma dval_replicate n : dval (replicate n "0"%char) = 0.
Proof.
  induction n as [|n IH]; [done|]. rewrite replicate_S, dval_cons, IH.
  change (digit_val "0") with 0. lia.
Qed.

Lemma pow10_pos n : 0 < 10 ^ Z.of_nat n.
Proof. apply Z.pow_pos_nonneg; lia. Qed.

Lemma digit_val_range c : is_ascii_digit c = true -> 0 <= digit_val c <= 9.
Proof. intros H%digit_spec. unfold digit_val. lia. Qed.

Lemma dval_range s : all_digits s = true -> 0 <= dval s < 10 ^ Z.of_nat (length s).
Proof.
  induction s as [|c s IH]; [by vm_compute|]. intros H. cbn in H. simp.
  specialize (IH H0). apply digit_val_range in H. rewrite dval_cons.
  cbn [length]. rewrite Nat2Z.inj_succ, Z.pow_succ_r by lia. nia.
Qed.

(** Digit strings of equal length compare bytewise exactly as numbers. *)
Lemma digits_cmp s t :
  all_digits s = true -> all_digits t = true -> length s = length t ->
  cmp s t = (dval s ?= dval t).
Proof.
  revert t. induction s as [|c s IH]; intros [|d t] Hs Ht Hlen; try done.
  cbn in Hs, Ht, Hlen. simp.
  change (cmp (c :: s) (d :: t)) with (then_cmp (cmp c d) (cmp s t)).
  change (cmp c d) with (code c ?= code d).
  rewrite !dval_cons, IH by (done || lia).
  pose proof (dval_range s) as Rs. pose proof (dval_range t) as Rt.
  specialize (Rs ltac:(done)). specialize (Rt ltac:(done)).
  assert (length s = length t) as Hl by lia. rewrite Hl in *.
  unfold digit_val. destruct (Z.compare_spec (code c) (code d)) as [E|E|E]; simpl.
  - rewrite E. destruct (Z.compare_spec (dval s) (dval t)) as [F|F|F]; symmetry.
    + rewrite F. apply Z.compare_refl.
    + apply Z.compare_lt_iff. lia.
    + apply Z.compare_gt_iff. lia.
  - symmetry. apply Z.compare_lt_iff. nia.
  - symmetry. apply Z.compare_gt_iff. nia.
Qed.

Lemma dval_inj s t :
  all_digits s = true -> all_digits t = true -> length s = length t ->
  dval s = dval t -> s = t.
Proof.
  intros Hs Ht Hl He. apply (cmp_eq_iff (A := str)). rewrite digits_cmp by done.
  by apply Z.compare_eq_iff.
Qed.

Lemma canonical_lower c d t :
  canonical_digits (c :: d :: t) = true ->
  10 ^ Z.of_nat (length (d :: t)) <= dval (c :: d :: t).
Proof.
  intros H. pose proof (canonical_all_digits _ H) as [Hc Hdt]%andb_true_iff.
  apply andb_true_iff in H as [_ Hz%negb_true_iff%oeqb_false].
  rewrite dval_cons. pose proof (dval_range (d :: t) Hdt). apply digit_val_range in Hc.
  assert (1 <= digit_val c).
  { destruct (Z.eq_dec (digit_val c) 0) as [E|]; [|lia].
    exfalso. apply Hz, code_inj. unfold digit_val in E. change (code "0") with 48. lia. }
  pose proof (pow10_pos (length (d :: t))). nia.
Qed.

Lemma canonical_length_lt s t :
  canonical_digits s = true -> canonical_digits t = true -> (length s < length t)%nat ->
  dval s < dval t.
Proof.
  intros Hs Ht Hl. apply canonical_all_digits in Hs as Hds. apply dval_range in Hds.
  destruct t as [|c [|d t]]; [simpl in Hl; lia| |].
  - destruct s; [done|]. simpl in Hl. lia.
  - apply canonical_lower in Ht. assert (10 ^ Z.of_nat (length s) <= 10 ^ Z.of_nat (length (d :: t))).
    { apply Z.pow_le_mono_r; [lia|]. simpl in *. lia. }
    lia.
Qed.

(** Length first, then bytes: the numeric order of canonical digit strings. *)
Lemma canonical_cmp s t :
  canonical_digits s = true -> canonical_digits t = true ->
  then_cmp (cmp (length s) (length t)) (cmp s t) = (dval s ?= dval t).
Proof.
  intros Hs Ht. change (cmp (length s) (length t)) with (Nat.compare (length s) (length t)).
  destruct (Nat.compare_spec (length s) (length t)) as [E|E|E]; simpl.
  - apply digits_cmp; eauto using canonical_all_digits.
  - symmetry. apply Z.compare_lt_iff. by apply canonical_length_lt.
  - symmetry. apply Z.compare_gt_iff. by apply canonical_length_lt.
Qed.

Lemma canonical_unique s t :
  canonical_digits s = true -> canonical_digits t = true -> dval s = dval t -> s = t.
Proof.
  intros Hs Ht He. pose proof (canonical_cmp s t Hs Ht) as H.
  rewrite He, Z.compare_refl in H. destruct (cmp (length s) (length t)); simpl in H; try done.
  by apply cmp_eq_iff.
Qed.

(** ** Printing and parsing decimals *)

Lemma canonical_snoc s c :
  canonical_digits s = true -> 0 < dval s -> is_ascii_digit c = true ->
  canonical_digits (s ++ [c]) = true.
Proof.
  destruct s as [|a [|a' s]]; intros Hs Hpos Hc; [done| |].
  - cbn. simpl in Hs. rewrite Hs, Hc. simpl. apply negb_true_iff, oeqb_false. intros ->.
    vm_compute in Hpos. done.
  - cbn in Hs |- *. simp. unfold all_digits in *. rewrite forallb_app. cbn.
    rewrite H, H1, H2, Hc. simpl. by rewrite H0.
Qed.

Lemma dshow_fuel_spec f z acc :
  0 <= z < 2 ^ Z.of_nat f -> (0 < f)%nat ->
  exists s, dshow_fuel f z acc = s ++ acc /\ canonical_digits s = true /\ dval s = z.
Proof.
  revert z acc. induction f as [|f IH]; intros z acc Hz Hf; [lia|]. cbn [dshow_fuel].
  pose proof (Z.mod_pos_bound z 10 ltac:(lia)) as Hm.
  assert (is_ascii_digit (digit_char (z mod 10)) = true) as Hd.
  { apply digit_spec. rewrite code_digit_char by lia. lia. }
  assert (digit_val (digit_char (z mod 10)) = z mod 10) as Hdv.
  { unfold digit_val. rewrite code_digit_char by lia. lia. }
  destruct (Z.ltb_spec z 10).
  - exists [digit_char (z mod 10)]. split; [done|]. split; [exact Hd|].
    rewrite dval_cons, Hdv. rewrite Z.mod_small by lia. cbn [length].
    change (dval []) with 0. rewrite Z.pow_0_r. lia.
  - rewrite Nat2Z.inj_succ, Z.pow_succ_r in Hz by lia.
    assert (1 <= z / 10) by (apply Z.div_le_lower_bound; lia).
    assert (z / 10 < 2 ^ Z.of_nat f) by (apply Z.div_lt_upper_bound; lia).
    destruct (IH (z / 10) (digit_char (z mod 10) :: acc)) as (s & -> & Hc & Hv).
    { lia. }
    { destruct f; [|lia]. simpl in *. lia. }
    exists (s ++ [digit_char (z mod 10)]). rewrite <- app_assoc. split; [done|].
    split; [apply canonical_snoc; [done|lia|done]|].
    rewrite dval_app, dval_cons, Hdv, Hv. cbn [length]. change (dval []) with 0.
    change (10 ^ Z.of_nat 1) with 10. rewrite Z.pow_0_r.
    pose proof (Z.div_mod z 10). lia.
Qed.

Lemma dshow_spec z : 0 <= z -> canonical_digits (dshow z) = true /\ dval (dshow z) = z.
Proof.
  intros Hz. unfold dshow.
  destruct (dshow_fuel_spec (S (Z.to_nat (Z.log2 z))) z []) as (s & -> & Hc & Hv).
  - split; [done|]. rewrite Nat2Z.inj_succ, Z2Nat.id by apply Z.log2_nonneg.
    destruct (Z.eq_dec z 0) as [->|]; [done|]. apply Z.log2_spec. lia.
  - lia.
  - by rewrite app_nil_r.
Qed.

Lemma dshow_canonical z : 0 <= z -> canonical_digits (dshow z) = true.
Proof. apply dshow_spec. Qed.

Lemma dshow_digits z : 0 <= z -> all_digits (dshow z) = true.
Proof. intros. by apply canonical_all_digits, dshow_canonical. Qed.

Lemma dval_dshow z : 0 <= z -> dval (dshow z) = z.
Proof. apply dshow_spec. Qed.

Lemma dshow_dval s : canonical_digits s = true -> dshow (dval s) = s.
Proof.
  intros Hs. apply canonical_unique; [|done|].
  - apply dshow_canonical, dval_range, canonical_all_digits, Hs.
  - apply dval_dshow, dval_range, canonical_all_digits, Hs.
Qed.

Lemma canonical_nonempty s : canonical_digits s = true -> s <> [].
Proof. by destruct s. Qed.

Lemma not_digit_plus_minus s :
  all_digits s = true -> match s with [] => True | c :: _ => c <> "+"%char /\ c <> "-"%char end.
Proof. destruct s as [|c s]; [done|]. intros H. cbn in H. simp. split; by intros ->. Qed.

Lemma parse_uint_digits max s :
  all_digits s = true -> s <> [] -> dval s <= max -> parse_uint max s = Some (dval s).
Proof.
  intros Hd Hne Hle. pose proof (not_digit_plus_minus s Hd) as Hc. unfold parse_uint.
  assert (match s with "+"%char :: t => t | _ => s end = s) as ->.
  { destruct s as [|c s]; [done|]. destruct Hc as [Hp _].
    destruct c as [[] [] [] [] [] [] [] []]; try done. }
  rewrite bool_decide_eq_false_2 by done. rewrite Hd. simpl.
  by replace (dval s <=? max) with true by (symmetry; apply Z.leb_le; lia).
Qed.

Lemma parse_int_digits min max s :
  all_digits s = true -> s <> [] -> dval s <= max -> parse_int min max s = Some (dval s).
Proof.
  intros Hd Hne Hle. pose proof (not_digit_plus_minus s Hd) as Hc.
  rewrite <- (parse_uint_digits max s) by done. unfold parse_int.
  destruct s as [|c s]; [done|]. destruct Hc as [_ Hm].
  destruct c as [[] [] [] [] [] [] [] []]; try done.
Qed.

Lemma parse_int_minus min max s :
  all_digits s = true -> s <> [] -> min <= - dval s ->
  parse_int min max ("-"%char :: s) = Some (- dval s).
Proof.
  intros Hd Hne Hle. unfold parse_int. rewrite bool_decide_eq_false_2 by done. rewrite Hd. simpl.
  by replace (min <=? - dval s) with true by (symmetry; apply Z.leb_le; lia).
Qed.

(** ** Trimming zeros *)

Lemma trim_start_spec c s :
  exists n, s = replicate n c ++ trim_start c s /\
  match trim_start c s with [] => True | d :: _ => d <> c end.
Proof.
  induction s as [|d s (n & E & Hh)]; simpl.
  - exists 0%nat. done.
  - destruct (oeqb_spec c d) as [->|Hne].
    + exists (S n). simpl. by rewrite <- E.
    + exists 0%nat. split; [done|]. congruence.
Qed.

Lemma trim_end_spec c s :
  exists n, s = trim_end c s ++ replicate n c /\ last (trim_end c s) <> Some c.
Proof.
  unfold trim_end. destruct (trim_start_spec c (rev s)) as (n & E & Hh). exists n. split.
  - apply (f_equal (@rev ascii)) in E. rewrite rev_involutive, rev_app_distr in E.
    rewrite E at 1. f_equal. clear. induction n as [|n IH]; [done|].
    simpl. rewrite IH. symmetry. apply (replicate_cons_app n c).
  - destruct (trim_start c (rev s)) as [|d t]; simpl; [done|].
    rewrite last_snoc. congruence.
Qed.

(** ** Lowercase hexadecimal *)

Definition is_lower_hex (c : ascii) : bool := is_ascii_digit c || in_range 97 102 c.
Definition hex_char (d : Z) : ascii :=
  if d <? 10 then digit_char d else ascii_of_N (Z.to_N (87 + d)).
Definition hex_val (c : ascii) : Z := if is_ascii_digit c then code c - 48 else code c - 87.

(** [format!("{:0w$x}", z)] for a value of at most [w] hexadecimal digits. *)
Fixpoint hex_show (w : nat) (z : Z) : str :=
  match w with
  | O => []
  | S w => hex_show w (z / 16) ++ [hex_char (z mod 16)]
  end.

(** [from_str_radix(_, 16)] of lowercase hexadecimal text. *)
Definition hex_parse (s : str) : Z := fold_left (fun acc c => acc * 16 + hex_val c) s 0.

Lemma in_range_spec a b c : in_range a b c = true <-> a <= code c <= b.
Proof. unfold in_range. rewrite andb_true_iff, !Z.leb_le. done. Qed.

Lemma hex_char_spec d : 0 <= d < 16 -> is_lower_hex (hex_char d) = true /\ hex_val (hex_char d) = d.
Proof.
  intros Hd. unfold hex_char, is_lower_hex, hex_val. destruct (Z.ltb_spec d 10).
  - assert (is_ascii_digit (digit_char d) = true) as ->
      by (apply digit_spec; rewrite code_digit_char; lia).
    rewrite code_digit_char by lia. split; [done|lia].
  - assert (code (ascii_of_N (Z.to_N (87 + d))) = 87 + d) as E.
    { unfold code. rewrite N_ascii_embedding by lia. lia. }
    assert (is_ascii_digit (ascii_of_N (Z.to_N (87 + d))) = false) as ->.
    { apply not_true_iff_false. rewrite digit_spec, E. lia. }
    split; [|lia]. apply in_range_spec. rewrite E. lia.
Qed.

Lemma hex_val_spec c : is_lower_hex c = true -> 0 <= hex_val c < 16 /\ hex_char (hex_val c) = c.
Proof.
  intros H. unfold is_lower_hex in H. unfold hex_val, hex_char.
  destruct (is_ascii_digit c) eqn:E.
  - apply digit_spec in E as E'. rewrite (proj2 (Z.ltb_lt _ _)) by lia. split; [lia|].
    by apply digit_char_val.
  - cbn in H. apply in_range_spec in H.
    rewrite (proj2 (Z.ltb_ge _ _)) by lia. split; [lia|]. apply code_inj.
    unfold code at 1. rewrite N_ascii_embedding by lia. lia.
Qed.

Lemma hex_show_spec w z :
  0 <= z < 16 ^ Z.of_nat w ->
  length (hex_show w z) = w /\ forallb is_lower_hex (hex_show w z) = true /\ hex_parse (hex_show w z) = z.
Proof.
  revert z. induction w as [|w IH]; intros z Hz.
  - change (16 ^ Z.of_nat 0) with 1 in Hz. replace z with 0 by lia. done.
  - rewrite Nat2Z.inj_succ, Z.pow_succ_r in Hz by lia. cbn [hex_show].
    destruct (IH (z / 16)) as (Hl & Hh & Hp).
    { split; [apply Z.div_pos; lia|]. apply Z.div_lt_upper_bound; lia. }
    destruct (hex_char_spec (z mod 16)) as [Hc Hv]; [apply Z.mod_pos_bound; lia|]. split_and!.
    + rewrite length_app, Hl. simpl. lia.
    + rewrite forallb_app, Hh. simpl. by rewrite Hc.
    + unfold hex_parse in *. rewrite fold_left_app, Hp. simpl. rewrite Hv.
      pose proof (Z.div_mod z 16). lia.
Qed.

Lemma hex_parse_snoc s c : hex_parse (s ++ [c]) = hex_parse s * 16 + hex_val c.
Proof. unfold hex_parse. by rewrite fold_left_app. Qed.

Lemma hex_parse_spec s :
  forallb is_lower_hex s = true ->
  0 <= hex_parse s < 16 ^ Z.of_nat (length s) /\ hex_show (length s) (hex_parse s) = s.
Proof.
  induction s as [|c s IH] using rev_ind; [by vm_compute|].
  rewrite forallb_app, andb_true_iff. intros [Hs Hc]. cbn [forallb] in Hc. rewrite andb_true_r in Hc.
  destruct (IH Hs) as [Hr Hsh]. destruct (hex_val_spec c Hc) as [Hv Hcc].
  rewrite hex_parse_snoc, length_app. cbn [length]. rewrite Nat.add_1_r, Nat2Z.inj_succ, Z.pow_succ_r by lia.
  split; [lia|]. cbn [hex_show].
  replace ((hex_parse s * 16 + hex_val c) / 16) with (hex_parse s) by (Z.div_mod_to_equations; lia).
  replace ((hex_parse s * 16 + hex_val c) mod 16) with (hex_val c) by (Z.div_mod_to_equations; lia).
  by rewrite Hsh, Hcc.
Qed.
