(* ===== verification/Decimal.v ===== *)
(** * TypeDB decimals (contract/src/decimal.rs)

    [parse_decimal] accepts the TypeQL and driver grammar and normalizes it;
    [compare] orders the normalized parts without building a number;
    [canonical_string] prints them. The specification is the exact value scaled
    by 10^19, the finest fraction the grammar admits. *)

From S2P Require Import Prelude BTree Text.
#[local] Open Scope Z_scope.

Module Decimal.

(** ** The normalized components *)

Record CanonicalDecimal : Set := mk { negative : bool; whole : str; fraction : str }.

#[global] Instance CanonicalDecimal_eq_dec : EqDecision CanonicalDecimal.
Proof. solve_decision. Defined.

(** [Ordering::reverse]. *)
Definition reverse (c : comparison) : comparison := CompOpp c.

Definition compare (self other : CanonicalDecimal) : comparison :=
  if negb (Bool.eqb (negative self) (negative other)) then
    if negative self then Lt else Gt
  else
    let width := Nat.max (length (fraction self)) (length (fraction other)) in
    let magnitude :=
      then_cmp (then_cmp (cmp (length (whole self)) (length (whole other)))
                         (cmp (whole self) (whole other)))
               (cmp (pad_right width (fraction self)) (pad_right width (fraction other))) in
    if negative self then reverse magnitude else magnitude.

Definition canonical_string (self : CanonicalDecimal) : str :=
  (if negative self then b#"-" else []) ++ whole self ++
  (if bool_decide (fraction self = []) then [] else "."%char :: fraction self).

(** The digits a whole part may reach: [i64] magnitudes. *)
Definition limit (negative : bool) : str :=
  if negative then b#"9223372036854775808" else b#"9223372036854775807".

Definition bad_fraction (f : str) : bool :=
  bool_decide (f = []) || (19 <? Z.of_nat (length f)) || negb (all_digits f).

Definition parse_decimal (value : str) : option CanonicalDecimal :=
  let value := default value (strip_suffix b#"dec" value) in
  let '(negative, unsigned) :=
    match strip_prefix b#"-" value with
    | Some v => (true, v)
    | None => (false, default value (strip_prefix b#"+" value))
    end in
  let '(raw_whole, raw_fraction) :=
    match split_once "."%char unsigned with
    | Some (w, f) => (w, Some f)
    | None => (unsigned, None)
    end in
  if bool_decide (raw_whole = []) || negb (all_digits raw_whole)
     || match raw_fraction with Some f => bad_fraction f | None => false end
  then None
  else
    let w := trim_start "0"%char raw_whole in
    let w := if bool_decide (w = []) then b#"0" else w in
    let f := trim_end "0"%char (default [] raw_fraction) in
    let lim := limit negative in
    match then_cmp (cmp (length w) (length lim)) (cmp w lim) with
    | Gt => None
    | c =>
        if match c with Eq => negative && negb (bool_decide (f = [])) | _ => false end
        then None
        else Some (mk (negative && negb (bool_decide (w = b#"0") && bool_decide (f = []))) w f)
    end.

(** ** Specification *)

(** The exact value of a normalized decimal, scaled by 10^19. *)
Definition scale : Z := 10 ^ 19.
Definition fraction_value (f : str) : Z := dval (pad_right 19 f).
Definition magnitude (w f : str) : Z := dval w * scale + fraction_value f.
Definition value (d : CanonicalDecimal) : Z :=
  (if negative d then -1 else 1) * magnitude (whole d) (fraction d).

Definition in_decimal_range (v : Z) : Prop := i64_min * scale <= v < (i64_max + 1) * scale.

(** The grammar: optional sign, digits, optional fraction of 1 to 19 digits,
    optional driver suffix, and the value it denotes. *)
Inductive decimal_text : str -> Z -> Prop :=
| decimal_text_intro (neg : bool) (sign w fpart f suffix : str) :
    (if neg then sign = b#"-" else sign = [] \/ sign = b#"+") ->
    w <> [] -> all_digits w = true ->
    (fpart = [] /\ f = []
     \/ fpart = "."%char :: f /\ f <> [] /\ (length f <= 19)%nat /\ all_digits f = true) ->
    (suffix = [] \/ suffix = b#"dec") ->
    decimal_text (sign ++ w ++ fpart ++ suffix) ((if neg then -1 else 1) * magnitude w f).

(** Normal form: no redundant zero, at most 19 fraction digits, no negative
    zero, inside the [i64] range. *)
Definition canonical (d : CanonicalDecimal) : Prop :=
  canonical_digits (whole d) = true /\
  all_digits (fraction d) = true /\ (length (fraction d) <= 19)%nat /\
  last (fraction d) <> Some "0"%char /\
  (negative d = true -> magnitude (whole d) (fraction d) <> 0) /\
  in_decimal_range (value d).

(** ** Fractions *)

Lemma pad_right_digits n f : all_digits f = true -> all_digits (pad_right n f) = true.
Proof. intros H. unfold pad_right. by rewrite all_digits_app, H, all_digits_replicate. Qed.

Lemma length_pad_right n f : (length f <= n)%nat -> length (pad_right n f) = n.
Proof. intros H. unfold pad_right. rewrite length_app, length_replicate. lia. Qed.

Lemma fraction_value_range f :
  all_digits f = true -> (length f <= 19)%nat -> 0 <= fraction_value f < scale.
Proof.
  intros Hd Hl. unfold fraction_value. pose proof (dval_range _ (pad_right_digits 19 f Hd)) as H.
  rewrite length_pad_right in H by done. exact H.
Qed.

Lemma fraction_value_pad w f :
  (length f <= w)%nat -> (w <= 19)%nat ->
  fraction_value f = dval (pad_right w f) * 10 ^ Z.of_nat (19 - w).
Proof.
  intros Hf Hw. unfold fraction_value, pad_right.
  replace (19 - length f)%nat with ((w - length f) + (19 - w))%nat by lia.
  rewrite replicate_add, app_assoc, (dval_app _ (replicate (19 - w) _)), dval_replicate.
  rewrite length_replicate. lia.
Qed.

Lemma compare_scaled a b k : 0 < k -> (a * k ?= b * k) = (a ?= b).
Proof.
  intros Hk. destruct (Z.compare_spec a b) as [->|H|H].
  - apply Z.compare_refl.
  - apply Z.compare_lt_iff. nia.
  - apply Z.compare_gt_iff. nia.
Qed.

(** Padding two fractions to a common width compares them as numbers. *)
Lemma fraction_cmp f g :
  all_digits f = true -> all_digits g = true ->
  (length f <= 19)%nat -> (length g <= 19)%nat ->
  let width := Nat.max (length f) (length g) in
  cmp (pad_right width f) (pad_right width g) = (fraction_value f ?= fraction_value g).
Proof.
  intros Hf Hg Lf Lg width.
  rewrite (fraction_value_pad width f), (fraction_value_pad width g) by lia.
  rewrite compare_scaled by apply pow10_pos.
  apply digits_cmp; [by apply pad_right_digits..|]. by rewrite !length_pad_right by lia.
Qed.

Lemma fraction_value_trim f :
  (length f <= 19)%nat -> fraction_value (trim_end "0"%char f) = fraction_value f.
Proof.
  intros Hl. destruct (trim_end_spec "0"%char f) as (n & E & _).
  assert (length f = (length (trim_end "0"%char f) + n)%nat) as Hlen.
  { rewrite E at 1. by rewrite length_app, length_replicate. }
  unfold fraction_value, pad_right. rewrite E at 3. rewrite <- app_assoc, <- replicate_add.
  do 3 f_equal. lia.
Qed.

Lemma fraction_value_nil : fraction_value [] = 0.
Proof. reflexivity. Qed.

(** A normalized fraction is zero only when it is empty. *)
Lemma fraction_value_zero f :
  all_digits f = true -> (length f <= 19)%nat -> last f <> Some "0"%char ->
  fraction_value f = 0 -> f = [].
Proof.
  intros Hd Hl Hlast H0. destruct f as [|c f _] using rev_ind; [done|]. exfalso.
  rewrite last_snoc in Hlast. rewrite all_digits_app in Hd. cbn in Hd. simp.
  rewrite length_app in Hl. simpl in Hl.
  rewrite (fraction_value_pad (length f + 1)) in H0 by (rewrite ?length_app; simpl; lia).
  unfold pad_right in H0. rewrite length_app in H0. simpl in H0. rewrite Nat.sub_diag in H0.
  simpl in H0. rewrite app_nil_r in H0. pose proof (pow10_pos (19 - (length f + 1))).
  rewrite dval_app, dval_cons in H0. cbn [length] in H0. change (dval []) with 0 in H0.
  change (Z.of_nat 1) with 1 in H0. rewrite Z.pow_1_r, Z.pow_0_r in H0.
  pose proof (dval_range f ltac:(done)). pose proof (digit_val_range c ltac:(done)).
  assert (digit_val c = 0) as Hc by nia. apply Hlast. f_equal. apply code_inj.
  unfold digit_val in Hc. change (code "0") with 48. lia.
Qed.

(** ** Comparison is numeric comparison *)

Lemma magnitude_nonneg w f :
  all_digits w = true -> all_digits f = true -> (length f <= 19)%nat -> 0 <= magnitude w f.
Proof.
  intros Hw Hf Hl. pose proof (dval_range w Hw). pose proof (fraction_value_range f Hf Hl).
  unfold magnitude, scale in *. lia.
Qed.

Lemma magnitude_cmp w f w' f' :
  canonical_digits w = true -> canonical_digits w' = true ->
  all_digits f = true -> all_digits f' = true ->
  (length f <= 19)%nat -> (length f' <= 19)%nat ->
  let width := Nat.max (length f) (length f') in
  then_cmp (then_cmp (cmp (length w) (length w')) (cmp w w'))
           (cmp (pad_right width f) (pad_right width f')) = (magnitude w f ?= magnitude w' f').
Proof.
  intros Hw Hw' Hf Hf' Hl Hl' width. subst width.
  rewrite canonical_cmp, fraction_cmp by done.
  pose proof (fraction_value_range f Hf Hl). pose proof (fraction_value_range f' Hf' Hl').
  unfold magnitude, scale in *. destruct (Z.compare_spec (dval w) (dval w')) as [->|H1|H1]; simpl.
  - destruct (Z.compare_spec (fraction_value f) (fraction_value f')); symmetry;
      [apply Z.compare_eq_iff|apply Z.compare_lt_iff|apply Z.compare_gt_iff]; lia.
  - symmetry. apply Z.compare_lt_iff. lia.
  - symmetry. apply Z.compare_gt_iff. lia.
Qed.

Lemma value_sign d :
  canonical d -> if negative d then value d < 0 else 0 <= value d.
Proof.
  intros (Hw & Hf & Hl & _ & Hz & _). unfold value.
  pose proof (magnitude_nonneg _ _ (canonical_all_digits _ Hw) Hf Hl).
  destruct (negative d); [specialize (Hz eq_refl)|]; lia.
Qed.

(** [compare] is comparison of the exact values. *)
Lemma compare_value d e : canonical d -> canonical e -> compare d e = (value d ?= value e).
Proof.
  intros Hd He. pose proof (value_sign d Hd) as Sd. pose proof (value_sign e He) as Se.
  destruct Hd as (Hw & Hf & Hl & _), He as (Hw' & Hf' & Hl' & _).
  unfold compare. rewrite magnitude_cmp by done. unfold reverse, value in *.
  destruct (negative d) eqn:Nd, (negative e) eqn:Ne; cbn [Bool.eqb negb].
  - rewrite <- Z.compare_antisym, <- Z.compare_opp. f_equal; lia.
  - symmetry. apply Z.compare_lt_iff. lia.
  - symmetry. apply Z.compare_gt_iff. lia.
  - f_equal; lia.
Qed.

Lemma fraction_unique f g :
  all_digits f = true -> all_digits g = true ->
  (length f <= 19)%nat -> (length g <= 19)%nat ->
  last f <> Some "0"%char -> last g <> Some "0"%char ->
  fraction_value f = fraction_value g -> f = g.
Proof.
  intros Hf Hg Lf Lg Zf Zg Hv.
  assert (forall f g : str, (length f <= length g)%nat -> last g <> Some "0"%char ->
    pad_right 19 f = pad_right 19 g -> (length g <= 19)%nat -> f = g) as Haux.
  { clear. intros f g Hle Zg Hp Lg. unfold pad_right in Hp.
    replace (19 - length f)%nat with ((length g - length f) + (19 - length g))%nat in Hp by lia.
    rewrite replicate_add, app_assoc in Hp. apply app_inj_2 in Hp as [Hp _]; [|done].
    destruct (length g - length f)%nat as [|n].
    - by rewrite app_nil_r in Hp.
    - exfalso. apply Zg. rewrite <- Hp, replicate_S_end, app_assoc. apply last_snoc. }
  assert (pad_right 19 f = pad_right 19 g) as Hp.
  { apply dval_inj; [by apply pad_right_digits..| |done]. by rewrite !length_pad_right. }
  destruct (Nat.le_ge_cases (length f) (length g)).
  - by apply Haux.
  - symmetry. by apply Haux.
Qed.

(** A value has one normal form. *)
Lemma canonical_value_inj d e : canonical d -> canonical e -> value d = value e -> d = e.
Proof.
  intros Hd He Hv. pose proof (value_sign d Hd) as Sd. pose proof (value_sign e He) as Se.
  destruct d as [n w f], e as [n' w' f'].
  destruct Hd as (Hw & Hf & Hl & Hz & _), He as (Hw' & Hf' & Hl' & Hz' & _).
  cbn [negative whole fraction] in *. unfold value, magnitude in *.
  cbn [negative whole fraction] in *.
  pose proof (fraction_value_range f Hf Hl). pose proof (fraction_value_range f' Hf' Hl').
  assert (n = n') as <- by (destruct n, n'; try done; lia).
  assert (dval w = dval w' /\ fraction_value f = fraction_value f') as [Ew Ef]
    by (unfold scale in *; destruct n; lia).
  f_equal; [by apply canonical_unique|by apply fraction_unique].
Qed.

(** ** Normalization of the raw parts *)

(** The second half of [parse_decimal], on the parts the first half cut out. *)
Definition finish (negative : bool) (raw_whole raw_fraction : str) : option CanonicalDecimal :=
  let w := trim_start "0"%char raw_whole in
  let w := if bool_decide (w = []) then b#"0" else w in
  let f := trim_end "0"%char raw_fraction in
  match then_cmp (cmp (length w) (length (limit negative))) (cmp w (limit negative)) with
  | Gt => None
  | c =>
      if match c with Eq => negative && negb (bool_decide (f = [])) | _ => false end
      then None
      else Some (mk (negative && negb (bool_decide (w = b#"0") && bool_decide (f = []))) w f)
  end.

Definition raw_parts (value : str) : bool * str * option str :=
  let value := default value (strip_suffix b#"dec" value) in
  let '(negative, unsigned) :=
    match strip_prefix b#"-" value with
    | Some v => (true, v)
    | None => (false, default value (strip_prefix b#"+" value))
    end in
  match split_once "."%char unsigned with
  | Some (w, f) => (negative, w, Some f)
  | None => (negative, unsigned, None)
  end.

Definition raw_ok (w : str) (rf : option str) : bool :=
  negb (bool_decide (w = []) || negb (all_digits w)
        || match rf with Some f => bad_fraction f | None => false end).

Lemma parse_decimal_parts s :
  parse_decimal s =
  let '(neg, w, rf) := raw_parts s in
  if raw_ok w rf then finish neg w (default [] rf) else None.
Proof.
  unfold parse_decimal, raw_parts, raw_ok, finish.
  destruct (strip_prefix b#"-" _); destruct (split_once _ _) as [[]|];
    by destruct (bool_decide (_ = []) || _ || _).
Qed.

Lemma trimmed_whole w :
  all_digits w = true ->
  let w' := trim_start "0"%char w in
  let w' := if bool_decide (w' = []) then b#"0" else w' in
  canonical_digits w' = true /\ dval w' = dval w.
Proof.
  intros Hd. cbv zeta. destruct (trim_start_spec "0"%char w) as (n & E & Hh).
  rewrite E, all_digits_app in Hd. simp. destruct (trim_start "0"%char w) as [|c t] eqn:Et.
  - rewrite bool_decide_eq_true_2 by done. split; [done|]. rewrite E, app_nil_r.
    by rewrite dval_replicate.
  - rewrite bool_decide_eq_false_2 by done. split.
    + cbn in H0. simp. destruct t as [|d t]; [by cbn; rewrite H0|].
      cbn [canonical_digits]. rewrite (proj2 (oeqb_false c "0"%char)) by done.
      apply andb_true_iff; split; [|done]. by apply andb_true_iff.
    + rewrite E, dval_app, dval_replicate. lia.
Qed.

Lemma whole_limit neg w :
  canonical_digits w = true ->
  then_cmp (cmp (length w) (length (limit neg))) (cmp w (limit neg)) =
  (dval w ?= (if neg then - i64_min else i64_max)).
Proof. intros Hw. rewrite canonical_cmp by (done || by destruct neg). by destruct neg. Qed.

Lemma finish_spec neg w rf :
  all_digits w = true -> all_digits rf = true -> (length rf <= 19)%nat ->
  match finish neg w rf with
  | Some d => canonical d /\ value d = (if neg then -1 else 1) * magnitude w rf
  | None => ~ in_decimal_range ((if neg then -1 else 1) * magnitude w rf)
  end.
Proof.
  intros Hw Hf Hl. pose proof (trimmed_whole w Hw) as [Hc Hv]. cbv zeta in Hc, Hv.
  unfold finish. set (w' := if bool_decide _ then _ else _) in *.
  pose proof (fraction_value_trim rf Hl) as Hft. destruct (trim_end_spec "0"%char rf) as (k & Ek & Hk).
  set (f' := trim_end _ _) in *.
  assert (all_digits f' = true /\ (length f' <= 19)%nat) as [Hf' Hl'].
  { rewrite Ek, all_digits_app in Hf. rewrite Ek, length_app in Hl. simp. split; [done|lia]. }
  rewrite whole_limit by done. unfold magnitude. rewrite <- Hv, <- Hft.
  pose proof (fraction_value_range f' Hf' Hl') as Hfr.
  pose proof (dval_range w' (canonical_all_digits _ Hc)) as Hwr.
  assert (bool_decide (f' = []) = (fraction_value f' =? 0)) as ->.
  { apply eq_iff_eq_true. rewrite bool_decide_eq_true, Z.eqb_eq. split; [by intros ->|].
    by apply fraction_value_zero. }
  assert (bool_decide (w' = b#"0") = (dval w' =? 0)) as ->.
  { apply eq_iff_eq_true. rewrite bool_decide_eq_true, Z.eqb_eq. split; [by intros ->|].
    intros H. by apply canonical_unique. }
  destruct (Z.compare_spec (dval w') (if neg then - i64_min else i64_max)) as [E|E|E];
    destruct neg, (Z.eqb_spec (dval w') 0), (Z.eqb_spec (fraction_value f') 0); cbn [andb negb];
    unfold canonical, in_decimal_range, value, magnitude, scale, i64_min, i64_max in *;
    cbn [negative whole fraction] in *; try (split_and!; try done); lia.
Qed.

(** ** The grammar *)

Lemma bad_fraction_false f :
  bad_fraction f = false <-> f <> [] /\ (length f <= 19)%nat /\ all_digits f = true.
Proof.
  unfold bad_fraction. rewrite !orb_false_iff, negb_false_iff, bool_decide_eq_false, Z.ltb_ge.
  split; intros; split_and!; simp; done || lia.
Qed.

Lemma raw_ok_true w rf :
  raw_ok w rf = true <->
  w <> [] /\ all_digits w = true /\
  match rf with
  | None => True
  | Some f => f <> [] /\ (length f <= 19)%nat /\ all_digits f = true
  end.
Proof.
  unfold raw_ok. rewrite negb_true_iff, !orb_false_iff, negb_false_iff, bool_decide_eq_false.
  destruct rf; [rewrite bad_fraction_false|]; tauto.
Qed.

Lemma raw_parts_sound s neg w rf :
  raw_parts s = (neg, w, rf) -> raw_ok w rf = true ->
  decimal_text s ((if neg then -1 else 1) * magnitude w (default [] rf)).
Proof.
  intros Hp (Hw & Hd & Hrf)%raw_ok_true. unfold raw_parts in Hp.
  assert (exists suffix, s = default s (strip_suffix b#"dec" s) ++ suffix
                         /\ (suffix = [] \/ suffix = b#"dec")) as (suffix & Es & Hsuf).
  { destruct (strip_suffix b#"dec" s) as [t|] eqn:E; simpl.
    - apply strip_suffix_Some in E. eauto.
    - exists []. rewrite app_nil_r. auto. }
  revert Hp Es. generalize (default s (strip_suffix b#"dec" s)). intros body Hp ->.
  assert (exists sign u, body = sign ++ u /\
    (if neg then sign = b#"-" else sign = [] \/ sign = b#"+") /\
    match split_once "."%char u with Some (w', f) => (w', Some f) | None => (u, None) end = (w, rf))
    as (sign & u & -> & Hsign & Hu).
  { destruct (strip_prefix b#"-" body) as [u|] eqn:E1.
    - apply strip_prefix_Some in E1. simpl in Hp. exists b#"-", u.
      destruct (split_once _ u) as [[]|]; simp; split_and!; auto.
    - destruct (strip_prefix b#"+" body) as [u|] eqn:E2; simpl in Hp.
      + apply strip_prefix_Some in E2. exists b#"+", u.
        destruct (split_once _ u) as [[]|]; simp; split_and!; auto.
      + exists [], body. destruct (split_once _ body) as [[]|]; simp; split_and!; auto. }
  rewrite <- app_assoc. destruct (split_once "."%char u) as [[w' f]|] eqn:E; simp; simpl default.
  - apply split_once_Some in E as [-> _]. rewrite <- app_assoc.
    apply (decimal_text_intro neg sign w ("."%char :: f)); auto.
  - rewrite <- (app_nil_l suffix). apply (decimal_text_intro neg sign w [] []); auto.
Qed.

Lemma digits_not_dec (x y t : str) : all_digits y = true -> y <> [] -> x ++ y <> t ++ b#"dec".
Proof.
  intros Hd Hy. destruct y as [|c y _] using rev_ind; [done|]. rewrite all_digits_app in Hd. simp.
  rewrite app_assoc. change (b#"dec") with (b#"de" ++ ["c"%char]). rewrite app_assoc.
  intros [_ ->]%app_inj_tail. discriminate.
Qed.

Lemma digits_no_dot w : all_digits w = true -> "."%char ∉ w.
Proof.
  unfold all_digits. rewrite forallb_forall. intros H Hin%list_elem_of_In%H. discriminate.
Qed.

Lemma strip_suffix_dec (body suffix : str) :
  (forall t, body <> t ++ b#"dec") -> suffix = [] \/ suffix = b#"dec" ->
  default (body ++ suffix) (strip_suffix b#"dec" (body ++ suffix)) = body.
Proof.
  intros Hb [->| ->].
  - rewrite app_nil_r. by rewrite (proj2 (strip_suffix_None _ _) Hb).
  - by rewrite (proj2 (strip_suffix_Some b#"dec" (body ++ b#"dec") body)).
Qed.

Lemma strip_sign (neg : bool) sign (c : ascii) u :
  is_ascii_digit c = true -> (if neg then sign = b#"-" else sign = [] \/ sign = b#"+") ->
  match strip_prefix b#"-" (sign ++ c :: u) with
  | Some v => (true, v)
  | None => (false, default (sign ++ c :: u) (strip_prefix b#"+" (sign ++ c :: u)))
  end = (neg, c :: u).
Proof.
  intros Hc. destruct neg; [by intros ->|]. intros [->| ->]; [|done]. simpl.
  rewrite !(proj2 (oeqb_false _ c)); [done|intros <-; discriminate Hc..].
Qed.

Lemma raw_parts_complete (neg : bool) sign w rf suffix :
  (if neg then sign = b#"-" else sign = [] \/ sign = b#"+") ->
  raw_ok w rf = true -> suffix = [] \/ suffix = b#"dec" ->
  raw_parts (sign ++ w ++ match rf with None => [] | Some f => "."%char :: f end ++ suffix)
  = (neg, w, rf).
Proof.
  intros Hsign (Hw & Hd & Hrf)%raw_ok_true Hsuf. unfold raw_parts.
  set (fpart := match rf with None => _ | Some _ => _ end).
  rewrite (app_assoc w), (app_assoc sign), strip_suffix_dec; [|clear Hsuf|done].
  2:{ intros t. destruct rf as [f|]; simpl in fpart; subst fpart.
      - replace (sign ++ w ++ "."%char :: f) with ((sign ++ w ++ ["."%char]) ++ f)
          by (by rewrite <- !app_assoc).
        apply digits_not_dec; tauto.
      - rewrite app_nil_r. by apply digits_not_dec. }
  destruct w as [|c w]; [done|]. pose proof Hd as Hd'. cbn in Hd'. simp. simpl app at 2 4 6.
  rewrite (strip_sign neg) by done. cbv beta iota.
  change (c :: w ++ fpart) with ((c :: w) ++ fpart). subst fpart. destruct rf as [f|].
  - rewrite (proj2 (split_once_Some "."%char _ (c :: w) f)); [done|].
    split; [done|by apply digits_no_dot].
  - rewrite app_nil_r, (proj2 (split_once_None "."%char _)); [done|by apply digits_no_dot].
Qed.

Lemma decimal_text_parts s v :
  decimal_text s v <->
  exists neg w rf, raw_parts s = (neg, w, rf) /\ raw_ok w rf = true /\
                   v = (if neg then -1 else 1) * magnitude w (default [] rf).
Proof.
  split.
  - intros [neg sign w fpart f suffix Hsign Hw Hd Hf Hsuf].
    destruct Hf as [[-> ->]|(-> & Hf & Hl & Hfd)].
    + assert (raw_ok w None = true) as Hok by by apply raw_ok_true.
      exists neg, w, None. split; [|done]. exact (raw_parts_complete neg sign w None suffix Hsign Hok Hsuf).
    + assert (raw_ok w (Some f) = true) as Hok by by apply raw_ok_true.
      exists neg, w, (Some f). split; [|done].
      exact (raw_parts_complete neg sign w (Some f) suffix Hsign Hok Hsuf).
  - intros (neg & w & rf & Hp & Hok & ->). by apply raw_parts_sound.
Qed.

Lemma parse_decimal_text s v :
  decimal_text s v ->
  match parse_decimal s with
  | Some d => canonical d /\ value d = v
  | None => ~ in_decimal_range v
  end.
Proof.
  intros (neg & w & rf & Hp & Hok & ->)%decimal_text_parts.
  rewrite parse_decimal_parts, Hp, Hok. apply raw_ok_true in Hok as (_ & Hd & Hf).
  apply (finish_spec neg w (default [] rf) Hd); destruct rf; simpl; try tauto; lia.
Qed.

Lemma parse_decimal_Some s d : parse_decimal s = Some d -> canonical d /\ decimal_text s (value d).
Proof.
  intros H. pose proof H as H'. rewrite parse_decimal_parts in H'.
  destruct (raw_parts s) as [[neg w] rf] eqn:Hp. destruct (raw_ok w rf) eqn:Hok; [|done].
  pose proof (raw_parts_sound _ _ _ _ Hp Hok) as Ht.
  pose proof (parse_decimal_text _ _ Ht) as Hs. rewrite H in Hs. destruct Hs as [Hc Hv]. by rewrite Hv.
Qed.

Lemma canonical_string_text d suffix :
  canonical d -> suffix = [] \/ suffix = b#"dec" ->
  decimal_text (canonical_string d ++ suffix) (value d).
Proof.
  intros (Hw & Hf & Hl & _) Hsuf. unfold canonical_string, value. rewrite <- !app_assoc.
  apply decimal_text_intro; [| | |case_bool_decide as E|done].
  - destruct (negative d); auto.
  - by apply canonical_nonempty.
  - by apply canonical_all_digits.
  - auto.
  - right. auto.
Qed.

Lemma parse_canonical_string d suffix :
  canonical d -> suffix = [] \/ suffix = b#"dec" ->
  parse_decimal (canonical_string d ++ suffix) = Some d.
Proof.
  intros Hc Hs. pose proof (parse_decimal_text _ _ (canonical_string_text d suffix Hc Hs)) as H.
  destruct (parse_decimal _) as [e|].
  - destruct H as [He Hv]. f_equal. by apply canonical_value_inj.
  - destruct H. apply Hc.
Qed.

Lemma whole_length d : canonical d -> (length (whole d) <= 19)%nat.
Proof.
  intros Hc. pose proof (value_sign d Hc) as Hs. destruct Hc as (Hw & Hf & Hl & _ & _ & Hr).
  destruct (Nat.le_gt_cases (length (whole d)) 19) as [|Hgt]; [done|]. exfalso.
  pose proof (fraction_value_range _ Hf Hl) as Hfr.
  assert (10 ^ 19 <= dval (whole d)) as Hle.
  { destruct (whole d) as [|c [|c' t]]; [simpl in Hgt; lia..|].
    etransitivity; [|apply (canonical_lower c c' t Hw)].
    apply Z.pow_le_mono_r; [lia|]. cbn [length] in *. lia. }
  unfold in_decimal_range, value, magnitude, scale, i64_min, i64_max in *.
  destruct (negative d); lia.
Qed.

(** ** The properties of the component *)

(** C30. [parse_decimal] accepts exactly the spellings of the decimal grammar
    whose value lies in TypeDB's range, and returns the unique normal form of
    that value: no redundant zero, no negative zero. *)
Theorem parse_decimal_correct s d :
  parse_decimal s = Some d <-> canonical d /\ decimal_text s (value d).
Proof.
  split; [apply parse_decimal_Some|]. intros [Hc Ht].
  pose proof (parse_decimal_text _ _ Ht) as H. destruct (parse_decimal s) as [e|].
  - destruct H as [He Hv]. f_equal. by apply canonical_value_inj.
  - destruct H. apply Hc.
Qed.

(** [parse_decimal] refuses a text exactly when it is no decimal spelling
    of a value in range; in particular the least value -2^63 is accepted and
    every fraction below it is refused. *)
Theorem parse_decimal_refuses s :
  parse_decimal s = None <-> ~ exists v, decimal_text s v /\ in_decimal_range v.
Proof.
  split.
  - intros Hn (v & Ht & Hr). pose proof (parse_decimal_text _ _ Ht) as H.
    rewrite Hn in H. contradiction.
  - intros Hn. destruct (parse_decimal s) as [d|] eqn:E; [|done]. exfalso. apply Hn.
    apply parse_decimal_Some in E as [Hc Ht]. exists (value d). split; [done|]. apply Hc.
Qed.

(** For any two accepted spellings, [compare] of the parsed decimals is the
    numeric comparison of the values the spellings denote. *)
Theorem compare_numeric s t d e v w :
  parse_decimal s = Some d -> parse_decimal t = Some e ->
  decimal_text s v -> decimal_text t w -> compare d e = (v ?= w).
Proof.
  intros Hd He Hv Hw. pose proof (parse_decimal_text _ _ Hv) as H1.
  pose proof (parse_decimal_text _ _ Hw) as H2. rewrite Hd in H1. rewrite He in H2.
  destruct H1 as [Cd <-], H2 as [Ce <-]. by apply compare_value.
Qed.

Lemma compare_numeric_witness :
  compare (mk true b#"1" b#"5") (mk true b#"1" b#"25") = Lt.
Proof.
  apply (compare_numeric b#"-01.50dec" b#"-1.25" _ _ (-15 * 10 ^ 18) (-125 * 10 ^ 17)).
  - reflexivity.
  - reflexivity.
  - apply (decimal_text_intro true b#"-" b#"01" b#".50" b#"50" b#"dec"); try done; auto.
    right. split_and!; [done..| |done]. simpl. lia.
  - apply (decimal_text_intro true b#"-" b#"1" b#".25" b#"25" []); try done; auto.
    right. split_and!; [done..| |done]. simpl. lia.
Defined.

(** The canonical spelling of a parsed decimal parses back to the same
    decimal, with and without the driver suffix, and needs at most 40 bytes. *)
Theorem canonical_string_roundtrip s d :
  parse_decimal s = Some d ->
  parse_decimal (canonical_string d) = Some d /\
  parse_decimal (canonical_string d ++ b#"dec") = Some d /\
  (length (canonical_string d) <= 40)%nat.
Proof.
  intros [Hc _]%parse_decimal_Some. split_and!.
  - rewrite <- (app_nil_r (canonical_string d)). apply parse_canonical_string; auto.
  - apply parse_canonical_string; auto.
  - pose proof (whole_length d Hc). destruct Hc as (_ & _ & Hl & _). unfold canonical_string.
    rewrite !length_app. destruct (negative d); case_bool_decide; simpl; lia.
Qed.

Lemma canonical_string_roundtrip_witness :
  parse_decimal (canonical_string (mk false b#"1234" b#"56")) = Some (mk false b#"1234" b#"56").
Proof. apply (canonical_string_roundtrip b#"001234.5600dec"). reflexivity. Defined.

End Decimal.
