(* ===== verification/Split.v ===== *)
(** * The batch split rule (contract/src/split.rs)

    [split] cuts a batch of indivisible units into contiguous ranges under a
    row and a byte ceiling. The accumulators are [usize]: the additions of the
    loop are written with their wrap-around. The specification is the greedy
    partition, shown to be the one [split] returns and to use the fewest ranges
    of all partitions that respect the ceilings. *)

From S2P Require Import Prelude BTree Text.
#[local] Open Scope Z_scope.

Module Split.

Record SplitLimits : Set := new { max_rows : Z; max_bytes : Z }.

Definition MAX_INPUT_ROWS : Z := 4096.
Definition MAX_REMOTE_ENVELOPE_BYTES : Z := 32 * 1024 * 1024.
Definition CANONICAL : SplitLimits := new MAX_INPUT_ROWS MAX_REMOTE_ENVELOPE_BYTES.

Record SplitUnit : Set := unit_of { rows : Z; bytes : Z }.

Inductive SplitRefusal : Set :=
| PlanTooLarge (plan_bytes max_bytes : Z)
| UnitTooLarge (unit : nat).

(** [start..stop]. *)
Definition Range : Set := nat * nat.

Definition checked_sub (a b : Z) : option Z := if b <=? a then Some (a - b) else None.

(** The [for] loop over the enumerated units; returns the pushed ranges and the
    start of the open one. *)
Fixpoint split_loop (limits : SplitLimits) (byte_budget : Z) (units : list SplitUnit)
    (index : nat) (ranges : list Range) (start : nat) (rs bs : Z)
    : result SplitRefusal (list Range * nat) :=
  match units with
  | [] => Ok (ranges, start)
  | unit :: rest =>
      if (max_rows limits <? rows unit) || (byte_budget <? bytes unit)
      then Err (UnitTooLarge index)
      else
        let fits := (usize (rs + rows unit) <=? max_rows limits)
                    && (usize (bs + bytes unit) <=? byte_budget) in
        let '(ranges, start, rs, bs) :=
          if fits then (ranges, start, rs, bs)
          else (ranges ++ [(start, index)], index, 0, 0) in
        split_loop limits byte_budget rest (S index) ranges start
          (usize (rs + rows unit)) (usize (bs + bytes unit))
  end.

Definition split (plan_bytes : Z) (units : list SplitUnit) (limits : SplitLimits)
    : result SplitRefusal (list Range) :=
  match checked_sub (max_bytes limits) plan_bytes with
  | Some budget =>
      if 0 <? budget then
        let? (ranges, start) := split_loop limits budget units 0 [] 0 0 0 in
        Ok (if (start <? length units)%nat then ranges ++ [(start, length units)] else ranges)
      else Err (PlanTooLarge plan_bytes (max_bytes limits))
  | None => Err (PlanTooLarge plan_bytes (max_bytes limits))
  end.

(** ** Specification *)

Definition sum_rows (l : list SplitUnit) : Z := foldr (fun u z => rows u + z) 0 l.
Definition sum_bytes (l : list SplitUnit) : Z := foldr (fun u z => bytes u + z) 0 l.

Section spec.
Context (max_r budget : Z) (units : list SplitUnit).

Definition fits (l : list SplitUnit) : Prop := sum_rows l <= max_r /\ sum_bytes l <= budget.

(** The units of a range. *)
Definition slice (a b : nat) : list SplitUnit := take (b - a) (drop a units).

(** Contiguous ranges from [start] to the end of the batch, each within the
    ceilings. *)
Inductive partition : nat -> list Range -> Prop :=
| partition_nil : partition (length units) []
| partition_cons start stop rest :
    (start <= stop)%nat -> fits (slice start stop) -> partition stop rest ->
    partition start ((start, stop) :: rest).

(** The same with non-empty ranges that cannot be extended by one more unit. *)
Inductive greedy : nat -> list Range -> Prop :=
| greedy_nil : greedy (length units) []
| greedy_cons start stop rest :
    (start < stop <= length units)%nat -> fits (slice start stop) ->
    ((stop < length units)%nat -> ~ fits (slice start (S stop))) ->
    greedy stop rest -> greedy start ((start, stop) :: rest).

Definition sized (u : SplitUnit) : Prop := 0 <= rows u /\ 0 <= bytes u.

Lemma sum_rows_app l k : sum_rows (l ++ k) = sum_rows l + sum_rows k.
Proof. induction l as [|u l IH]; simpl; [done|]. rewrite IH. lia. Qed.
Lemma sum_bytes_app l k : sum_bytes (l ++ k) = sum_bytes l + sum_bytes k.
Proof. induction l as [|u l IH]; simpl; [done|]. rewrite IH. lia. Qed.

Lemma sums_nonneg l : Forall sized l -> 0 <= sum_rows l /\ 0 <= sum_bytes l.
Proof. induction 1 as [|u l [] H [IH1 IH2]]; simpl; lia. Qed.

Lemma fits_sub l a b : Forall sized (a ++ l ++ b) -> fits (a ++ l ++ b) -> fits l.
Proof.
  rewrite !Forall_app. intros (Ha & Hl & Hb) [H1 H2]. unfold fits in *.
  rewrite !sum_rows_app in H1. rewrite !sum_bytes_app in H2.
  apply sums_nonneg in Ha, Hb. lia.
Qed.

Lemma slice_snoc a b u :
  (a <= b)%nat -> units !! b = Some u -> slice a (S b) = slice a b ++ [u].
Proof.
  intros Hab Hu. unfold slice. replace (S b - a)%nat with (S (b - a)) by lia.
  apply take_S_r. rewrite lookup_drop. by replace (a + (b - a))%nat with b by lia.
Qed.

Lemma slice_nil a : slice a a = [].
Proof. unfold slice. by rewrite Nat.sub_diag. Qed.

Context (Hsized : Forall sized units).

Lemma slice_sized a b : Forall sized (slice a b).
Proof. unfold slice. by apply Forall_take, Forall_drop. Qed.

(** A sub-range of a range within the ceilings is within them. *)
Lemma fits_slice a b a' b' :
  (a' <= a)%nat -> (a <= b)%nat -> (b <= b')%nat -> fits (slice a' b') -> fits (slice a b).
Proof.
  intros Ha Hab Hb Hf. pose proof (slice_sized a' b') as Hs.
  assert (slice a' b' = slice a' a ++ slice a b ++ slice b b') as E.
  { unfold slice. replace (drop a units) with (drop (a - a') (drop a' units))
      by (rewrite drop_drop; f_equal; lia).
    replace (drop b units) with (drop (b - a') (drop a' units))
      by (rewrite drop_drop; f_equal; lia).
    generalize (drop a' units). intros l.
    replace (b' - a')%nat with ((a - a') + ((b - a) + (b' - b)))%nat by lia.
    rewrite <- take_take_drop, <- take_take_drop, drop_drop. do 3 f_equal. f_equal. lia. }
  rewrite E in *. eapply fits_sub; eauto.
Qed.

Lemma greedy_unique start rs rs' : greedy start rs -> greedy start rs' -> rs = rs'.
Proof.
  intros H. revert rs'. induction H as [|start stop rest Hr Hf Hg H IH]; intros rs' H'.
  - inversion H'; subst; [done|]. lia.
  - inversion H' as [|? stop' rest' Hr' Hf' Hg' H'']; subst; [lia|].
    assert (stop = stop') as <-.
    { destruct (Nat.lt_trichotomy stop stop') as [Hlt|[?|Hlt]]; [|done|].
      - destruct Hg; [lia|]. by apply (fits_slice start (S stop) start stop'); try lia.
      - destruct Hg'; [lia|]. by apply (fits_slice start (S stop') start stop); try lia. }
    f_equal. by apply IH.
Qed.

(** Greedy filling stays ahead of every other partition. *)
Lemma greedy_minimal start start' gs ps :
  greedy start gs -> (start' <= start)%nat -> partition start' ps ->
  (length gs <= length ps)%nat.
Proof.
  intros H. revert start' ps. induction H as [|start stop rest Hr Hf Hg H IH]; intros start' ps Hle Hp.
  - simpl. lia.
  - inversion Hp as [|? stop' ps' Hr' Hf' Hp']; subst; [lia|]. simpl.
    apply le_n_S. apply (IH stop'); [|done].
    destruct (Nat.le_gt_cases stop' stop) as [|Hlt]; [done|]. exfalso.
    assert (stop' <= length units)%nat as Hlen by (clear -Hp'; induction Hp'; lia).
    apply Hg; [lia|]. by apply (fits_slice start (S stop) start' stop'); try lia.
Qed.
End spec.

(** ** The loop computes the greedy partition *)

(** A unit that fits in a range of its own. *)
Definition alone (max_r budget : Z) (u : SplitUnit) : Prop :=
  rows u <= max_r /\ bytes u <= budget.

Lemma alone_guard limits budget u :
  (max_rows limits <? rows u) || (budget <? bytes u) = false <-> alone (max_rows limits) budget u.
Proof. unfold alone. rewrite orb_false_iff, !Z.ltb_ge. done. Qed.

Section loop.
Context (limits : SplitLimits) (budget : Z) (units : list SplitUnit).
Context (Hrows : max_rows limits < 2 ^ 63) (Hbytes : budget < 2 ^ 63).
Context (Hsized : Forall sized units).

#[local] Abbreviation max_r := (max_rows limits).
#[local] Abbreviation slice := (slice units).

Lemma usize_small z : 0 <= z < 2 ^ 64 -> usize z = z.
Proof. apply Z.mod_small. Qed.

Lemma step_sums start index u :
  (start <= index)%nat -> units !! index = Some u ->
  sum_rows (slice start (S index)) = sum_rows (slice start index) + rows u /\
  sum_bytes (slice start (S index)) = sum_bytes (slice start index) + bytes u.
Proof.
  intros Hle Hu. rewrite (slice_snoc units start index u), sum_rows_app, sum_bytes_app by done.
  simpl. lia.
Qed.

Lemma step_usize start index u :
  (start <= index)%nat -> units !! index = Some u -> fits max_r budget (slice start index) ->
  alone max_r budget u ->
  usize (sum_rows (slice start index) + rows u) = sum_rows (slice start (S index)) /\
  usize (sum_bytes (slice start index) + bytes u) = sum_bytes (slice start (S index)).
Proof.
  intros Hle Hu [Hr Hb] [Hur Hub]. destruct (step_sums start index u Hle Hu) as [-> ->].
  destruct (sums_nonneg _ (slice_sized units Hsized start index)).
  destruct (Forall_lookup_1 _ _ _ _ Hsized Hu). rewrite !usize_small by lia. done.
Qed.

Lemma fits_dec_spec l :
  (sum_rows l <=? max_r) && (sum_bytes l <=? budget) = true <-> fits max_r budget l.
Proof. unfold fits. rewrite andb_true_iff, !Z.leb_le. done. Qed.

Lemma loop_greedy rest index ranges start :
  rest = drop index units -> (start <= index <= length units)%nat ->
  Forall (alone max_r budget) rest -> fits max_r budget (slice start index) ->
  exists more start',
    split_loop limits budget rest index ranges start
      (sum_rows (slice start index)) (sum_bytes (slice start index)) = Ok (ranges ++ more, start') /\
    greedy max_r budget units start
      (more ++ if (start' <? length units)%nat then [(start', length units)] else []).
Proof.
  revert index ranges start. induction rest as [|u rest IH]; intros index ranges start Er Hi Ha Hf.
  - exists [], start. rewrite app_nil_r. split; [done|]. simpl.
    assert (index = length units) as ->.
    { symmetry in Er. apply (f_equal length) in Er. rewrite length_drop in Er. simpl in Er. lia. }
    destruct (Nat.ltb_spec start (length units)).
    + apply greedy_cons; [lia|done|lia|constructor].
    + replace start with (length units) by lia. constructor.
  - assert (units !! index = Some u) as Hu.
    { rewrite <- (Nat.add_0_r index), <- lookup_drop, <- Er. done. }
    assert (rest = drop (S index) units) as Er'.
    { rewrite <- Nat.add_1_r, <- drop_drop, <- Er. done. }
    apply lookup_lt_Some in Hu as Hlt. inversion Ha as [|?? Hua Ha']; subst x l.
    cbn [split_loop]. rewrite (proj2 (alone_guard _ _ _) Hua).
    destruct (step_usize start index u) as [Er1 Er2]; [lia|done..|]. rewrite Er1, Er2.
    destruct (_ && _) eqn:Efit.
    + apply fits_dec_spec in Efit. rewrite Er1, Er2. apply IH; [done|lia|done..].
    + assert (~ fits max_r budget (slice start (S index))) as Hnf
        by (rewrite <- fits_dec_spec; congruence).
      assert (fits max_r budget (slice index (S index))) as Hone.
      { destruct (step_sums index index u) as [E1 E2]; [done..|]. rewrite slice_nil in E1, E2.
        destruct Hua. unfold fits. simpl in E1, E2. lia. }
      assert (start < index)%nat as Hsi.
      { destruct (decide (start = index)) as [->|]; [done|lia]. }
      destruct (step_usize index index u) as [E1 E2]; [lia|done| |done|].
      { rewrite slice_nil. destruct Hf as [Hf1 Hf2].
        destruct (sums_nonneg _ (slice_sized units Hsized start index)). split; simpl; lia. }
      rewrite slice_nil in E1, E2. simpl sum_rows in E1. simpl sum_bytes in E2. rewrite E1, E2.
      destruct (IH (S index) (ranges ++ [(start, index)]) index) as (more & start' & E & Hg);
        [done|lia|done..|].
      exists ((start, index) :: more), start'. rewrite <- app_assoc in E. split; [done|].
      simpl. apply greedy_cons; auto with lia.
Qed.
End loop.

Lemma loop_refuses limits budget rest index ranges start rs bs k u :
  rest !! k = Some u -> ~ alone (max_rows limits) budget u ->
  (forall j v, (j < k)%nat -> rest !! j = Some v -> alone (max_rows limits) budget v) ->
  split_loop limits budget rest index ranges start rs bs = Err (UnitTooLarge (index + k)).
Proof.
  revert index ranges start rs bs k.
  induction rest as [|v rest IH]; intros index ranges start rs bs [|k] Hk Hu Hj; try done.
  - simpl in *. simp. destruct (_ || _) eqn:E; [by rewrite Nat.add_0_r|].
    by apply alone_guard in E.
  - simpl. rewrite (proj2 (alone_guard _ _ _) (Hj 0%nat v ltac:(lia) eq_refl)).
    assert (forall j w, (j < k)%nat -> rest !! j = Some w -> alone (max_rows limits) budget w) as Hj'.
    { intros j w Hlt Hw. apply (Hj (S j)); [lia|done]. }
    replace (index + S k)%nat with (S index + k)%nat by lia.
    destruct (_ && _); by apply IH.
Qed.

Lemma split_budget p units limits :
  p < max_bytes limits ->
  split p units limits =
  let? (ranges, start) := split_loop limits (max_bytes limits - p) units 0 [] 0 0 0 in
  Ok (if (start <? length units)%nat then ranges ++ [(start, length units)] else ranges).
Proof.
  intros H. unfold split, checked_sub. rewrite (proj2 (Z.leb_le _ _)), (proj2 (Z.ltb_lt _ _)) by lia.
  done.
Qed.

Lemma first_not_alone max_r budget us :
  Forall (alone max_r budget) us \/
  exists k u, us !! k = Some u /\ ~ alone max_r budget u /\
    forall j v, (j < k)%nat -> us !! j = Some v -> alone max_r budget v.
Proof.
  induction us as [|u us [IH|(k & v & Hk & Hv & Hj)]]; [by left|..].
  all: destruct (decide (rows u <= max_r /\ bytes u <= budget)) as [Hu|Hu].
  - left. by constructor.
  - right. exists 0%nat, u. split_and!; [done..|]. intros. lia.
  - right. exists (S k), v. split_and!; [done..|]. intros [|j] w Hlt Hw; simpl in Hw.
    + by simp.
    + by apply (Hj j w); [lia|].
  - right. exists 0%nat, u. split_and!; [done..|]. intros. lia.
Qed.

Lemma split_no_budget p units limits :
  max_bytes limits <= p -> split p units limits = Err (PlanTooLarge p (max_bytes limits)).
Proof.
  intros H. unfold split, checked_sub. destruct (Z.leb_spec p (max_bytes limits)); [|done].
  by rewrite (proj2 (Z.ltb_ge _ _)) by lia.
Qed.

(** Limits and sizes for which the [usize] additions of the loop are exact. *)
Definition exact (p : Z) (units : list SplitUnit) (limits : SplitLimits) : Prop :=
  Forall sized units /\ 0 <= p /\ 0 <= max_rows limits < 2 ^ 63 /\ max_bytes limits < 2 ^ 63.

(** What each outcome of [split] says. *)
Definition split_post (p : Z) (units : list SplitUnit) (limits : SplitLimits)
    (r : result SplitRefusal (list Range)) : Prop :=
  let budget := max_bytes limits - p in
  match r with
  | Ok ranges =>
      p < max_bytes limits /\ Forall (alone (max_rows limits) budget) units /\
      greedy (max_rows limits) budget units 0 ranges
  | Err (PlanTooLarge p' m) => max_bytes limits <= p /\ p' = p /\ m = max_bytes limits
  | Err (UnitTooLarge k) =>
      p < max_bytes limits /\
      (exists u, units !! k = Some u /\ ~ alone (max_rows limits) budget u) /\
      forall j v, (j < k)%nat -> units !! j = Some v -> alone (max_rows limits) budget v
  end.

Lemma split_meets_post p units limits :
  exact p units limits -> split_post p units limits (split p units limits).
Proof.
  intros (Hs & Hp & Hr & Hb). destruct (Z.lt_ge_cases p (max_bytes limits)) as [Hlt|Hge].
  2:{ by rewrite split_no_budget. }
  rewrite split_budget by done.
  destruct (first_not_alone (max_rows limits) (max_bytes limits - p) units)
    as [Ha|(k & u & Hk & Hu & Hj)].
  - destruct (loop_greedy limits (max_bytes limits - p) units ltac:(lia) ltac:(lia) Hs units 0 [] 0)
      as (more & start & E & Hg); [by rewrite drop_0|lia|done|split; simpl; lia|].
    rewrite slice_nil in E. simpl in E. rewrite E. simpl. split_and!; [done..|].
    destruct (start <? length units)%nat; [done|]. by rewrite app_nil_r in Hg.
  - rewrite (loop_refuses limits (max_bytes limits - p) units 0 [] 0 0 0 k u) by done.
    simpl. eauto.
Qed.

(** ** The properties of the component *)

(** Under limits below 2^63, [split] returns ranges exactly when the plan
    leaves a byte budget and every unit fits on its own, and the ranges it
    returns are the greedy partition of the batch: contiguous, in order,
    non-empty, covering every unit, each within the row and byte ceilings and
    none extendable by the next unit. *)
Theorem split_greedy p units limits ranges :
  exact p units limits ->
  split p units limits = Ok ranges <->
  p < max_bytes limits /\
  Forall (alone (max_rows limits) (max_bytes limits - p)) units /\
  greedy (max_rows limits) (max_bytes limits - p) units 0 ranges.
Proof.
  intros He. pose proof (split_meets_post p units limits He) as H. split.
  - intros E. by rewrite E in H.
  - intros (Hlt & Ha & Hg). destruct (split p units limits) as [ranges'|[p' m|k]]; simpl in H.
    + f_equal. destruct He as [Hs _]. eapply greedy_unique; [exact Hs|apply H|done].
    + lia.
    + destruct H as (_ & (u & Hk & Hu) & _). destruct Hu. by eapply Forall_lookup_1.
Qed.

Lemma split_greedy_witness :
  greedy 100 100 (replicate 11 (unit_of 1 10)) 0 [(0, 10); (10, 11)]%nat.
Proof.
  apply (split_greedy 10 (replicate 11 (unit_of 1 10)) (new 100 110)).
  - split_and!; [apply Forall_replicate; split; simpl; lia|simpl; lia..].
  - reflexivity.
Defined.

(** No partition of the batch within the ceilings uses fewer ranges than
    [split]: it sends the fewest plans, and a batch within the limits is one
    range. *)
Theorem split_minimal p units limits ranges other :
  exact p units limits -> split p units limits = Ok ranges ->
  partition (max_rows limits) (max_bytes limits - p) units 0 other ->
  (length ranges <= length other)%nat.
Proof.
  intros He E Hother. pose proof (split_meets_post p units limits He) as H. rewrite E in H.
  destruct He as [Hs _], H as (_ & _ & Hg). by eapply (greedy_minimal _ _ _ Hs).
Qed.

Lemma split_minimal_witness :
  (length [(0, 10); (10, 11)] <= length [(0, 5); (5, 8); (8, 11)])%nat.
Proof.
  apply (split_minimal 10 (replicate 11 (unit_of 1 10)) (new 100 110)).
  - split_and!; [apply Forall_replicate; split; simpl; lia|simpl; lia..].
  - reflexivity.
  - repeat (apply partition_cons; [lia|split; simpl; lia|]). apply partition_nil.
Defined.

(** [split] refuses with [PlanTooLarge] exactly when the plan leaves no
    byte budget, and otherwise with [UnitTooLarge k] exactly when [k] is the
    first unit that does not fit in a range of its own. *)
Theorem split_refusals p units limits k :
  exact p units limits ->
  (split p units limits = Err (PlanTooLarge p (max_bytes limits)) <-> max_bytes limits <= p) /\
  (split p units limits = Err (UnitTooLarge k) <->
   p < max_bytes limits /\
   (exists u, units !! k = Some u /\ ~ alone (max_rows limits) (max_bytes limits - p) u) /\
   forall j v, (j < k)%nat -> units !! j = Some v ->
     alone (max_rows limits) (max_bytes limits - p) v).
Proof.
  intros He. pose proof (split_meets_post p units limits He) as H. split; split.
  - intros E. rewrite E in H. apply H.
  - apply split_no_budget.
  - intros E. by rewrite E in H.
  - intros (Hlt & (u & Hk & Hu) & Hj). rewrite split_budget by done.
    by rewrite (loop_refuses limits _ units 0 [] 0 0 0 k u).
Qed.

Lemma split_refusals_witness :
  split 10 [unit_of 1 5; unit_of 1 5; unit_of 1 5; unit_of 1 41] (new 10 50) = Err (UnitTooLarge 3).
Proof.
  apply (split_refusals 10 [unit_of 1 5; unit_of 1 5; unit_of 1 5; unit_of 1 41] (new 10 50) 3).
  - split_and!; simpl; try lia. repeat constructor; simpl; lia.
  - split_and!; [simpl; lia|exists (unit_of 1 41); split; [done|intros [? ?]; simpl in *; lia]|].
    intros [|[|[|j]]] v Hj Hv; simpl in Hv; simp; try lia; split; simpl; lia.
Defined.

(** The limits of the canonical contract are exact: no batch of units of
    non-negative size makes a [usize] addition wrap under them, whatever its
    length, so the ranges proved above are the ranges of the running code. *)
Theorem canonical_limits_exact p units :
  Forall sized units -> 0 <= p -> split_post p units CANONICAL (split p units CANONICAL).
Proof.
  intros Hs Hp. apply split_meets_post. split_and!; [done..|]; vm_compute; congruence || done.
Qed.

Lemma canonical_limits_exact_witness :
  split_post 0 (replicate 4097 (unit_of 1 1)) CANONICAL
    (Ok [(0, 4096); (4096, 4097)]%nat).
Proof.
  assert (split 0 (replicate 4097 (unit_of 1 1)) CANONICAL = Ok [(0, 4096); (4096, 4097)]%nat) as <-
    by (vm_compute; reflexivity).
  apply (canonical_limits_exact 0 (replicate 4097 (unit_of 1 1))); [|lia].
  apply Forall_replicate. split; simpl; lia.
Defined.

(** With ceilings near [usize::MAX] the additions wrap: two units of 2^63 bytes
    are put in one range although together they exceed the byte ceiling. *)
Lemma split_wraps :
  let limits := new 10 u64_max in
  let units := [unit_of 1 (2 ^ 63); unit_of 1 (2 ^ 63)] in
  split 0 units limits = Ok [(0, 2)%nat] /\ max_bytes limits < sum_bytes units.
Proof. split; vm_compute; reflexivity. Qed.
End Split.
