(* ===== verification/Ident.v ===== *)
(** * Identifiers (contract/src/id.rs, reserved.rs, capability.rs)

    Labels, typed identities built from labels, provider instance identifiers
    and capability sets. A Rust [String] that is still to be validated is its
    sequence of Unicode scalar values; a validated label is its UTF-8 bytes. The
    Unicode tables of the [unicode_ident] crate are parameters. *)

From S2P Require Import Prelude BTree Text.
#[local] Open Scope Z_scope.

Module Ident.

Definition invalid (c : string) : Diagnostic := stable InvalidContract c.

(** ** UTF-8 *)

Definition byte_of (z : Z) : ascii := ascii_of_N (Z.to_N z).

Definition encode_utf8 (c : Z) : str :=
  if c <? 128 then [byte_of c]
  else if c <? 2048 then [byte_of (192 + c / 64); byte_of (128 + c mod 64)]
  else if c <? 65536 then
    [byte_of (224 + c / 4096); byte_of (128 + c / 64 mod 64); byte_of (128 + c mod 64)]
  else [byte_of (240 + c / 262144); byte_of (128 + c / 4096 mod 64);
        byte_of (128 + c / 64 mod 64); byte_of (128 + c mod 64)].

Definition utf8 (s : list Z) : str := s ≫= encode_utf8.

Definition scalar (c : Z) : Prop := 0 <= c < 55296 \/ 57344 <= c < 1114112.

Definition char_code (c : ascii) : Z := code c.

(** ** Provider instance identifiers *)

Definition MAX_THING_IID_HEX_DIGITS : nat := 256.

Definition is_canonical_thing_iid (value : str) : bool :=
  match strip_prefix b#"0x" value with
  | Some digits =>
      negb (bool_decide (digits = [])) && (length digits <=? MAX_THING_IID_HEX_DIGITS)%nat
      && forallb is_ascii_hexdigit digits
  | None => false
  end.

(** ** Labels *)

Definition MAX_LABEL_BYTES : nat := 255.

Definition TYPEQL_3_12_1_RESERVED_LABELS : list str :=
  [b#"with"; b#"given"; b#"match"; b#"fetch"; b#"update"; b#"define"; b#"undefine";
   b#"redefine"; b#"insert"; b#"put"; b#"delete"; b#"end"; b#"entity"; b#"relation";
   b#"attribute"; b#"role"; b#"asc"; b#"desc"; b#"struct"; b#"fun"; b#"return"; b#"alias";
   b#"sub"; b#"owns"; b#"as"; b#"plays"; b#"relates"; b#"iid"; b#"isa"; b#"links"; b#"has";
   b#"is"; b#"or"; b#"not"; b#"try"; b#"in"; b#"true"; b#"false"; b#"of"; b#"from"; b#"first";
   b#"last"].

Definition TYPEQL_3_12_BUILTIN_FUNCTION_NAMES : list str :=
  [b#"abs"; b#"ceil"; b#"floor"; b#"iid"; b#"label"; b#"len"; b#"max"; b#"min"; b#"round"].

Definition is_typeql_3_12_1_reserved_label (value : str) : bool :=
  smem value TYPEQL_3_12_1_RESERVED_LABELS.

Definition is_typeql_3_12_builtin_function_name (value : str) : bool :=
  smem value TYPEQL_3_12_BUILTIN_FUNCTION_NAMES.

Definition TYPEBRIDGE_INTERNAL_PREFIX : str := b#"typebridge-internal-v2-".

Definition is_typebridge_internal_label (label : str) : bool :=
  starts_with TYPEBRIDGE_INTERNAL_PREFIX label.

Definition Label : Set := str.

(** ** Typed identities *)

Inductive TypeKind : Set := Entity | Relation | Attribute | Struct.

Record TypeId : Set := type_id { kind : TypeKind; type_label : Label }.

Record RoleId : Set := role_id { declaring_relation : Label; role_label : Label }.

Definition AttributeId : Set := Label.
Definition FunctionId : Set := Label.
Definition StructId : Set := Label.

#[global] Instance TypeKind_eq_dec : EqDecision TypeKind.
Proof. solve_decision. Defined.

Definition kind_rank (k : TypeKind) : Z :=
  match k with Entity => 0 | Relation => 1 | Attribute => 2 | Struct => 3 end.
#[global] Instance Ord_TypeKind : Ord TypeKind := ord_by kind_rank.
#[global] Instance OrdLaws_TypeKind : OrdLaws TypeKind.
Proof. apply ord_by_laws. by intros [] []. Qed.

#[global] Instance Ord_TypeId : Ord TypeId := ord_by (fun t => (kind t, type_label t)).
#[global] Instance OrdLaws_TypeId : OrdLaws TypeId.
Proof. apply ord_by_laws. intros [] []; simpl; congruence. Qed.
#[global] Instance TypeId_eq_dec : EqDecision TypeId := ord_eq_dec.

#[global] Instance Ord_RoleId : Ord RoleId := ord_by (fun r => (declaring_relation r, role_label r)).
#[global] Instance OrdLaws_RoleId : OrdLaws RoleId.
Proof. apply ord_by_laws. intros [] []; simpl; congruence. Qed.
#[global] Instance RoleId_eq_dec : EqDecision RoleId := ord_eq_dec.

Section unicode.
(** [unicode_ident::is_xid_start] and [is_xid_continue]. *)
Context (is_xid_start is_xid_continue : Z -> bool).

Definition label_start (c : Z) : bool := (c =? char_code "_") || is_xid_start c.
Definition label_continue (c : Z) : bool := (c =? char_code "-") || is_xid_continue c.

Definition Label_new (value : list Z) : result Diagnostic Label :=
  let valid :=
    (length (utf8 value) <=? MAX_LABEL_BYTES)%nat
    && match value with
       | [] => false
       | c :: rest => label_start c && forallb label_continue rest
       end
    && negb (is_typeql_3_12_1_reserved_label (utf8 value)) in
  if valid then Ok (utf8 value) else Err (invalid "malformed_id").

Definition TypeId_new (kind : TypeKind) (label : list Z) : result Diagnostic TypeId :=
  let? label := Label_new label in Ok (type_id kind label).

Definition RoleId_new (declaring_relation label : list Z) : result Diagnostic RoleId :=
  let? declaring_relation := Label_new declaring_relation in
  let? label := Label_new label in
  Ok (role_id declaring_relation label).
End unicode.

(** ** Capabilities *)

Definition MAX_CAPABILITY_ID_BYTES : nat := 255.

Definition CapabilityId : Set := str.

Definition capability_byte (b : ascii) : bool :=
  is_ascii_lowercase b || is_ascii_digit b || oeqb b "-"%char || oeqb b "_"%char.

Definition valid_segment (segment : str) : bool :=
  match segment with
  | [] => false
  | b :: rest => is_ascii_lowercase b && forallb capability_byte rest
  end.

Definition CapabilityId_new (value : str) : result Diagnostic CapabilityId :=
  let segments := split_on "."%char value in
  if (length value <=? MAX_CAPABILITY_ID_BYTES)%nat && (2 <=? length segments)%nat
     && forallb valid_segment segments
  then Ok value
  else Err (invalid "malformed_capability_id").

Definition CapabilitySet : Set := BTreeSet CapabilityId.

Definition missing_from (self available : CapabilitySet) : CapabilitySet := sdiff self available.

Definition ensure_supported_by (self available : CapabilitySet) : result Diagnostic () :=
  match missing_from self available with
  | [] => Ok tt
  | _ => Err (stable UnsupportedCapability "unsupported_required_capability")
  end.

(** ** Encoded bytes *)

Lemma code_byte_of z : 0 <= z < 256 -> code (byte_of z) = z.
Proof.
  intros Hz. unfold code, byte_of. rewrite N_ascii_embedding by lia. lia.
Qed.

(** An ASCII byte of an encoded scalar is that scalar. *)
Lemma encode_ascii c b : scalar c -> b ∈ encode_utf8 c -> code b < 128 -> code b = c.
Proof.
  intros Hc Hb Hlt. unfold encode_utf8, scalar in *.
  pose proof (Z.mod_pos_bound c 64 ltac:(lia)).
  pose proof (Z.mod_pos_bound (c / 64) 64 ltac:(lia)).
  pose proof (Z.mod_pos_bound (c / 4096) 64 ltac:(lia)).
  repeat case_match;
    repeat match goal with
    | H : (_ <? _) = true |- _ => apply Z.ltb_lt in H
    | H : (_ <? _) = false |- _ => apply Z.ltb_ge in H
    end.
  all: repeat (apply elem_of_cons in Hb as [->|Hb];
    [rewrite code_byte_of in Hlt |- * by (Z.div_mod_to_equations; lia);
     Z.div_mod_to_equations; lia|]); by apply elem_of_nil in Hb.
Qed.

Lemma utf8_ascii s b :
  Forall scalar s -> b ∈ utf8 s -> code b < 128 -> code b ∈ s.
Proof.
  intros Hs Hb Hlt. apply list_elem_of_bind in Hb as (c & Hb & Hc).
  pose proof (proj1 (Forall_forall _ _) Hs c Hc). by rewrite (encode_ascii c b).
Qed.

(** The properties of the Unicode tables on ASCII that the crate documents. *)
Definition xid_ascii (is_xid_start is_xid_continue : Z -> bool) : Prop :=
  forall c : ascii, code c < 128 ->
    is_xid_start (code c) = is_ascii_alphanumeric c && negb (is_ascii_digit c) /\
    is_xid_continue (code c) = is_ascii_alphanumeric c || oeqb c "_"%char.

Lemma oeqb_code c d : oeqb c d = (code c =? code d).
Proof.
  apply eq_iff_eq_true. rewrite oeqb_true, Z.eqb_eq. split; [by intros ->|apply code_inj].
Qed.

(** ** The properties of the component *)

(** A label accepted by [Label::new] is never empty, has at most 255 bytes,
    is no reserved word, and its ASCII bytes are letters, digits, hyphens or
    underscores only, the first neither a digit nor a hyphen: printed into
    TypeQL it is one identifier token, whatever text it was made from. *)
Theorem label_new_safe xs xc value label :
  xid_ascii xs xc -> Forall scalar value -> Label_new xs xc value = Ok label ->
  label <> [] /\ (length label <= MAX_LABEL_BYTES)%nat /\
  is_typeql_3_12_1_reserved_label label = false /\
  (forall b, b ∈ label -> code b < 128 ->
     is_ascii_alphanumeric b || oeqb b "-"%char || oeqb b "_"%char = true) /\
  (forall b rest, label = b :: rest -> is_ascii_digit b || oeqb b "-"%char = false).
Proof.
  intros Hx Hs. unfold Label_new. destruct (_ && negb _) eqn:E; [|done]. intros [= <-].
  apply andb_true_iff in E as [[Hlen Hchars]%andb_true_iff Hres%negb_true_iff].
  destruct value as [|c rest]; [done|]. apply andb_true_iff in Hchars as [Hfirst Hrest].
  assert (forall b, code b < 128 -> label_start xs (code b) = true ->
    is_ascii_alphanumeric b || oeqb b "_"%char = true /\ is_ascii_digit b || oeqb b "-"%char = false)
    as Hstart.
  { intros b Hb Hl. unfold label_start in Hl. destruct (Hx b Hb) as [Hxs _]. rewrite Hxs in Hl.
    rewrite (oeqb_code b "_"%char). apply orb_true_iff in Hl as [Hl|Hl].
    - unfold char_code in Hl. rewrite Hl, orb_true_r. split; [done|].
      apply Z.eqb_eq, code_inj in Hl. by subst b.
    - apply andb_true_iff in Hl as [Ha Hd%negb_true_iff]. rewrite Ha, Hd. split; [done|].
      apply oeqb_false. intros ->. discriminate Ha. }
  split_and!.
  - unfold utf8. simpl. intros Hn. apply app_eq_nil in Hn as [Hn _]. revert Hn.
    unfold encode_utf8. by repeat case_match.
  - by apply Nat.leb_le.
  - done.
  - intros b Hb Hlt. pose proof (utf8_ascii _ _ Hs Hb Hlt) as Hin.
    apply elem_of_cons in Hin as [Heq|Hin].
    + destruct (Hstart b Hlt) as [Hok _]; [by rewrite Heq|].
      apply orb_true_iff in Hok as [-> | ->]; [done|]. by rewrite orb_true_r.
    + rewrite forallb_forall in Hrest. apply list_elem_of_In, Hrest in Hin.
      unfold label_continue in Hin. destruct (Hx b Hlt) as [_ Hxc]. rewrite Hxc in Hin.
      rewrite (oeqb_code b "-"%char). unfold char_code in Hin.
      destruct (is_ascii_alphanumeric b), (code b =? code "-"), (oeqb b "_"%char); done.
  - intros b r E. unfold utf8 in E. simpl in E. inversion Hs as [|?? Hc _]; subst.
    destruct (Z.lt_ge_cases c 128) as [Hc'|Hc'].
    + unfold encode_utf8 in E. rewrite (proj2 (Z.ltb_lt _ _) Hc') in E. simpl in E.
      injection E as <- _. destruct (Hstart (byte_of c)) as [_ Hno]; [| |done].
      * rewrite code_byte_of; unfold scalar in Hc; lia.
      * rewrite code_byte_of by (unfold scalar in Hc; lia). done.
    + assert (128 <= code b) as Hb.
      { destruct (Z.lt_ge_cases (code b) 128) as [Hlt|]; [|done].
        assert (b ∈ encode_utf8 c) as Hin.
        { unfold encode_utf8 in *. repeat case_match; simpl in E; injection E as -> _; set_solver. }
        pose proof (encode_ascii c b Hc Hin Hlt). lia. }
      apply orb_false_iff. split.
      * apply not_true_iff_false. rewrite digit_spec. lia.
      * rewrite oeqb_code. change (code "-") with 45. lia.
Qed.

Lemma label_new_safe_witness :
  is_typeql_3_12_1_reserved_label b#"entity-type" = false.
Proof.
  apply (label_new_safe
           (fun c => is_ascii_alphanumeric (byte_of c) && negb (is_ascii_digit (byte_of c)))
           (fun c => is_ascii_alphanumeric (byte_of c) || oeqb (byte_of c) "_"%char)
           (map code b#"entity-type")).
  - intros c Hc. unfold byte_of, code. rewrite N2Z.id, ascii_N_embedding. done.
  - apply Forall_forall. intros c Hc%list_elem_of_fmap. destruct Hc as (b & -> & Hb).
    left. pose proof (code_range b). lia.
  - reflexivity.
Defined.

Lemma missing_nil self available :
  missing_from self available = [] <-> (forall c, c ∈ self -> c ∈ available).
Proof.
  unfold missing_from. split.
  - intros H c Hc. destruct (smem c available) eqn:E; [by apply smem_true|].
    assert (c ∈ sdiff self available) as Hm by (apply elem_sdiff; by rewrite <- smem_false).
    rewrite H in Hm. by apply elem_of_nil in Hm.
  - intros H. destruct (sdiff self available) as [|c l] eqn:E; [done|].
    assert (c ∈ sdiff self available) as Hm by (rewrite E; set_solver).
    apply elem_sdiff in Hm. naive_solver.
Qed.

(** [ensure_supported_by] succeeds exactly when every required capability
    is available. *)
Theorem ensure_supported_iff self available :
  ensure_supported_by self available = Ok tt <-> (forall c, c ∈ self -> c ∈ available).
Proof.
  rewrite <- missing_nil. unfold ensure_supported_by. by destruct (missing_from self available).
Qed.

End Ident.
