(* ===== verification/Temporal.v ===== *)
(** * Temporal scalars (contract/src/temporal.rs)

    Dates, times of day, date-times, zoned date-times and durations: validating
    constructors, canonical spellings ([Display]) and parsers ([FromStr]), and
    the UTC instant that orders zoned values. Rust's truncating [/] and [%] are
    [Z.quot] and [Z.rem]; casts to [u8] are written with their wrap-around. *)

From S2P Require Import Prelude BTree Text.
#[local] Open Scope Z_scope.

Module Temporal.

Definition MIN_CANONICAL_YEAR : Z := -262143.
Definition MAX_CANONICAL_YEAR : Z := 262142.
Definition MAX_TIME_ZONE_NAME_BYTES : nat := 255.

Definition invalid_temporal : Diagnostic := stable InvalidContract "invalid_canonical_scalar".

Definition parse_digits (value : str) : option Z :=
  if negb (bool_decide (value = [])) && all_digits value then parse_uint u32_max value else None.

(** [format!("{:0w$}", z)]. *)
Definition show_pad (w : nat) (z : Z) : str := pad_left w (dshow z).

(** ** Dates *)

Record CanonicalDate : Set := mk_date { year : Z; month : Z; day : Z }.

Definition leap_year (y : Z) : bool :=
  (Z.rem y 4 =? 0) && (negb (Z.rem y 100 =? 0) || (Z.rem y 400 =? 0)).

Definition max_day (y m : Z) : Z :=
  if existsb (Z.eqb m) [1; 3; 5; 7; 8; 10; 12] then 31
  else if existsb (Z.eqb m) [4; 6; 9; 11] then 30
  else if m =? 2 then (if leap_year y then 29 else 28)
  else 0.

Definition Date_new (y m d : Z) : result Diagnostic CanonicalDate :=
  if negb ((MIN_CANONICAL_YEAR <=? y) && (y <=? MAX_CANONICAL_YEAR)) || (d =? 0) || (max_day y m <? d)
  then Err invalid_temporal
  else Ok (mk_date y m d).

Definition show_year (y : Z) : str :=
  if (0 <=? y) && (y <=? 9999) then show_pad 4 y
  else if 10000 <=? y then "+"%char :: dshow y
  else if (-9999 <=? y) && (y <=? -1) then "-"%char :: show_pad 4 (- y)
  else ishow y.

Definition Date_to_string (d : CanonicalDate) : str :=
  show_year (year d) ++ b#"-" ++ show_pad 2 (month d) ++ b#"-" ++ show_pad 2 (day d).

Definition Date_from_str (value : str) : result Diagnostic CanonicalDate :=
  let? (year_month, day) := ok_or (rsplit_once "-"%char value) invalid_temporal in
  let? (year, month) := ok_or (rsplit_once "-"%char year_month) invalid_temporal in
  let? year := ok_or (parse_int i32_min i32_max year) invalid_temporal in
  let? month := ok_or (parse_digits month) invalid_temporal in
  let? day := ok_or (parse_digits day) invalid_temporal in
  let? parsed := Date_new year (u8 month) (u8 day) in
  if str_eqb (Date_to_string parsed) value then Ok parsed else Err invalid_temporal.

(** ** Times of day *)

Record CanonicalTime : Set := mk_time { hour : Z; minute : Z; second : Z; nanosecond : Z }.

Definition Time_new (h m s n : Z) : result Diagnostic CanonicalTime :=
  if (23 <? h) || (59 <? m) || (59 <? s) || (1000000000 <=? n)
  then Err invalid_temporal
  else Ok (mk_time h m s n).

(** The fraction printed after a dot: nine digits without trailing zeros. *)
Definition show_fraction (n : Z) : str :=
  if n =? 0 then [] else "."%char :: trim_end "0"%char (show_pad 9 n).

Definition Time_to_string (t : CanonicalTime) : str :=
  show_pad 2 (hour t) ++ b#":" ++ show_pad 2 (minute t) ++ b#":" ++ show_pad 2 (second t)
  ++ show_fraction (nanosecond t).

(** [u8::try_from]. *)
Definition u8_try_from (z : Z) : option Z := if (0 <=? z) && (z <=? u8_max) then Some z else None.

(** The text from byte [a], and the text from byte [a] to byte [b]. *)
Definition from_byte (a : nat) (s : str) : str := drop a s.
Definition bytes_range (a b : nat) (s : str) : str := take (b - a) (drop a s).

Definition Time_from_str (value : str) : result Diagnostic CanonicalTime :=
  if negb (is_ascii value) || (length value <? 8)%nat
     || negb (str_eqb (bytes_range 2 3 value) b#":") || negb (str_eqb (bytes_range 5 6 value) b#":")
  then Err invalid_temporal
  else
    let? hour := ok_or (parse_digits (bytes_range 0 2 value)) invalid_temporal in
    let? minute := ok_or (parse_digits (bytes_range 3 5 value)) invalid_temporal in
    let? (seconds, nanos) :=
      match split_once "."%char (from_byte 6 value) with
      | Some (seconds, fraction) =>
          if negb (bool_decide (fraction = [])) && (length fraction <=? 9)%nat && all_digits fraction
          then let? nanos := ok_or (parse_uint u32_max (pad_right 9 fraction)) invalid_temporal in
               Ok (seconds, nanos)
          else Err invalid_temporal
      | None => Ok (from_byte 6 value, 0)
      end in
    let? seconds := ok_or (parse_digits seconds) invalid_temporal in
    let? seconds := ok_or (u8_try_from seconds) invalid_temporal in
    let? parsed := Time_new (u8 hour) (u8 minute) seconds nanos in
    if str_eqb (Time_to_string parsed) value then Ok parsed else Err invalid_temporal.

(** ** Date-times *)

Record CanonicalDateTime : Set := mk_date_time { dt_date : CanonicalDate; dt_time : CanonicalTime }.

Definition DateTime_to_string (v : CanonicalDateTime) : str :=
  Date_to_string (dt_date v) ++ b#"T" ++ Time_to_string (dt_time v).

Definition DateTime_from_str (value : str) : result Diagnostic CanonicalDateTime :=
  let? (date, time) := ok_or (split_once "T"%char value) invalid_temporal in
  if contains_byte "T"%char time then Err invalid_temporal
  else
    let? date := Date_from_str date in
    let? time := Time_from_str time in
    Ok (mk_date_time date time).

(** ** Zoned date-times *)

Inductive TimeZoneDesignator : Set :=
| Utc
| OffsetSeconds (seconds : Z)
| Named (name : str).

Record CanonicalDateTimeTz : Set :=
  date_time_tz { local : CanonicalDateTime; zone : TimeZoneDesignator; effective_offset_seconds : Z }.

Definition new_fixed (l : CanonicalDateTime) (z : TimeZoneDesignator)
    : result Diagnostic CanonicalDateTimeTz :=
  match z with
  | Utc => Ok (date_time_tz l z 0)
  | OffsetSeconds seconds =>
      if (Z.abs seconds <=? 86399) && negb (seconds =? 0)
      then Ok (date_time_tz l z seconds)
      else Err invalid_temporal
  | Named _ => Err invalid_temporal
  end.

Definition zone_name_byte (b : ascii) : bool :=
  is_ascii_alphanumeric b || smem b b#"/_-+".

Definition new_named_resolved (l : CanonicalDateTime) (name : str) (offset : Z)
    : result Diagnostic CanonicalDateTimeTz :=
  if bool_decide (name = []) || (MAX_TIME_ZONE_NAME_BYTES <? length name)%nat
     || negb (forallb zone_name_byte name) || (86399 <? Z.abs offset)
  then Err invalid_temporal
  else Ok (date_time_tz l (Named name) offset).

Definition date_order_key (d : CanonicalDate) : Z :=
  let adjusted_year := year d - (if month d <=? 2 then 1 else 0) in
  let era := Z.quot (if 0 <=? adjusted_year then adjusted_year else adjusted_year - 399) 400 in
  let year_of_era := adjusted_year - era * 400 in
  let adjusted_month := month d + (if 2 <? month d then -3 else 9) in
  let day_of_year := Z.quot (153 * adjusted_month + 2) 5 + day d - 1 in
  era * 146097 + year_of_era * 365 + Z.quot year_of_era 4 - Z.quot year_of_era 100 + day_of_year.

Definition semantic_utc_nanoseconds (v : CanonicalDateTimeTz) : Z :=
  let t := dt_time (local v) in
  let local_nanoseconds :=
    date_order_key (dt_date (local v)) * 86400000000000 + hour t * 3600000000000
    + minute t * 60000000000 + second t * 1000000000 + nanosecond t in
  local_nanoseconds - effective_offset_seconds v * 1000000000.

Definition show_zone (z : TimeZoneDesignator) : str :=
  match z with
  | Utc => b#"Z"
  | Named name => b#"[" ++ name ++ b#"]"
  | OffsetSeconds seconds =>
      let absolute := Z.abs seconds in
      let s := Z.rem absolute 60 in
      (if seconds <? 0 then "-"%char else "+"%char)
      :: show_pad 2 (Z.quot absolute 3600) ++ b#":" ++ show_pad 2 (Z.quot (Z.rem absolute 3600) 60)
      ++ (if s =? 0 then [] else b#":" ++ show_pad 2 s)
  end.

Definition DateTimeTz_to_string (v : CanonicalDateTimeTz) : str :=
  DateTime_to_string (local v) ++ show_zone (zone v).

Definition is_sign (c : ascii) : bool := oeqb c "+"%char || oeqb c "-"%char.

Definition parse_fixed_offset_seconds (value : str) : option Z :=
  let component a b := parse_int i32_min i32_max (bytes_range a b value) in
  let finish sign seconds :=
    match component 1%nat 3%nat, component 4%nat 6%nat, seconds with
    | Some hours, Some minutes, Some seconds =>
        if (23 <? hours) || (59 <? minutes) || (59 <? seconds) then None
        else
          let magnitude := hours * 3600 + minutes * 60 + seconds in
          Some (if oeqb sign "-"%char then - magnitude else magnitude)
    | _, _, _ => None
    end in
  match value with
  | [s; h1; h2; c1; m1; m2] =>
      if is_sign s && oeqb c1 ":"%char && all_digits [h1; h2; m1; m2]
      then finish s (Some 0) else None
  | [s; h1; h2; c1; m1; m2; c2; s1; s2] =>
      if is_sign s && oeqb c1 ":"%char && oeqb c2 ":"%char && all_digits [h1; h2; m1; m2; s1; s2]
      then finish s (component 7%nat 9%nat) else None
  | _ => None
  end.

(** One candidate of [find_map]: the offset text of the given width. *)
Definition offset_at (value : str) (width : nat) : option (nat * Z) :=
  if (width <=? length value)%nat then
    let split := (length value - width)%nat in
    match parse_fixed_offset_seconds (drop split value) with
    | Some seconds => Some (split, seconds)
    | None => None
    end
  else None.

Definition DateTimeTz_from_str (value : str) : result Diagnostic CanonicalDateTimeTz :=
  if negb (is_ascii value) then Err invalid_temporal
  else match strip_suffix b#"Z" value with
  | Some l =>
      let? l := DateTime_from_str l in
      let? parsed := new_fixed l Utc in
      if str_eqb (DateTimeTz_to_string parsed) value then Ok parsed else Err invalid_temporal
  | None =>
      if ends_with b#"]" value then Err invalid_temporal
      else
        let? (split, seconds) :=
          ok_or (match offset_at value 9 with Some r => Some r | None => offset_at value 6 end)
            invalid_temporal in
        let? l := DateTime_from_str (take split value) in
        let? parsed := new_fixed l (OffsetSeconds seconds) in
        if str_eqb (DateTimeTz_to_string parsed) value then Ok parsed else Err invalid_temporal
  end.

(** ** Durations *)

Record CanonicalDuration : Set :=
  mk_duration { dur_negative : bool; months : Z; days : Z; seconds : Z; dur_nanosecond : Z }.

Definition Duration_new (negative : bool) (mo d s n : Z) : result Diagnostic CanonicalDuration :=
  if 1000000000 <=? n then Err invalid_temporal
  else
    let zero := (mo =? 0) && (d =? 0) && (s =? 0) && (n =? 0) in
    Ok (mk_duration (negative && negb zero) mo d s n).

Definition Duration_to_string (v : CanonicalDuration) : str :=
  (if dur_negative v then b#"-" else []) ++ b#"P"
  ++ (if months v =? 0 then [] else dshow (months v) ++ b#"M")
  ++ (if days v =? 0 then [] else dshow (days v) ++ b#"D")
  ++ (if negb (seconds v =? 0) || negb (dur_nanosecond v =? 0)
         || ((months v =? 0) && (days v =? 0))
      then b#"T" ++ dshow (seconds v) ++ show_fraction (dur_nanosecond v) ++ b#"S"
      else []).

Definition canonical_unsigned (value : str) : option Z :=
  if bool_decide (value = []) || negb (all_digits value) then None
  else match parse_uint u64_max value with
       | Some parsed => if str_eqb (dshow parsed) value then Some parsed else None
       | None => None
       end.

(** [if let Some(index) = rest.find(c)]: the count before the unit and what follows it. *)
Definition unit_count (c : ascii) (rest : str) : result Diagnostic (Z * str) :=
  match split_once c rest with
  | Some (count, rest) =>
      let? count := ok_or (canonical_unsigned count) invalid_temporal in Ok (count, rest)
  | None => Ok (0, rest)
  end.

Definition parse_seconds (time : str) : result Diagnostic (Z * Z) :=
  let? seconds := ok_or (strip_suffix b#"S" time) invalid_temporal in
  match split_once "."%char seconds with
  | Some (whole, fraction) =>
      if negb (bool_decide (fraction = [])) && (length fraction <=? 9)%nat
         && negb (ends_with b#"0" fraction) && all_digits fraction
      then
        let? whole := ok_or (canonical_unsigned whole) invalid_temporal in
        let? nanos := ok_or (parse_uint u32_max (pad_right 9 fraction)) invalid_temporal in
        Ok (whole, nanos)
      else Err invalid_temporal
  | None => let? whole := ok_or (canonical_unsigned seconds) invalid_temporal in Ok (whole, 0)
  end.

Definition Duration_from_str (original : str) : result Diagnostic CanonicalDuration :=
  let '(negative, value) :=
    match strip_prefix b#"-" original with
    | Some value => (true, value)
    | None => (false, original)
    end in
  let? body := ok_or (strip_prefix b#"P" value) invalid_temporal in
  if str_eqb body b#"T0S" then
    let? parsed := Duration_new negative 0 0 0 0 in
    if str_eqb (Duration_to_string parsed) original then Ok parsed else Err invalid_temporal
  else
    let '(date, time) :=
      match split_once "T"%char body with
      | Some (date, time) => (date, Some time)
      | None => (body, None)
      end in
    let? (months, rest) := unit_count "M"%char date in
    let? (days, rest) := unit_count "D"%char rest in
    if negb (bool_decide (rest = [])) || (months =? 0) && contains_byte "M"%char date
       || (days =? 0) && contains_byte "D"%char date
    then Err invalid_temporal
    else
      let? (seconds, nanosecond) :=
        match time with
        | Some time => parse_seconds time
        | None => Ok (0, 0)
        end in
      if (months =? 0) && (days =? 0) && (seconds =? 0) && (nanosecond =? 0)
      then Err invalid_temporal
      else
        let? parsed := Duration_new negative months days seconds nanosecond in
        if str_eqb (Duration_to_string parsed) original then Ok parsed else Err invalid_temporal.

(** ** Fixed-width digit groups *)

Lemma show_pad_spec w z :
  0 <= z < 10 ^ Z.of_nat w ->
  all_digits (show_pad w z) = true /\ dval (show_pad w z) = z /\
  ((0 < w)%nat -> length (show_pad w z) = w).
Proof.
  intros Hz. destruct (dshow_spec z) as [Hc Hv]; [lia|]. unfold show_pad, pad_left.
  apply canonical_all_digits in Hc as Hd. split_and!.
  - by rewrite all_digits_app, all_digits_replicate.
  - rewrite dval_app, dval_replicate, Hv. lia.
  - intros Hw. rewrite length_app, length_replicate.
    assert (length (dshow z) <= w)%nat; [|lia].
    destruct (dshow z) as [|c [|d t]] eqn:E; [simpl; lia..|]. rewrite <- Hv in Hz.
    pose proof (canonical_lower c d t Hc) as Hl.
    assert (10 ^ Z.of_nat (length (d :: t)) < 10 ^ Z.of_nat w) as Hlt by lia.
    apply Z.pow_lt_mono_r_iff in Hlt; [|lia..]. simpl length in *. lia.
Qed.

Lemma two_digits z :
  0 <= z < 100 ->
  exists a b, show_pad 2 z = [a; b] /\ all_digits [a; b] = true /\ dval [a; b] = z.
Proof.
  intros Hz. destruct (show_pad_spec 2 z Hz) as (Hd & Hv & Hl). specialize (Hl ltac:(lia)).
  destruct (show_pad 2 z) as [|a [|b [|]]]; try discriminate Hl. eauto.
Qed.

Lemma parse_digits_ok s z :
  all_digits s = true -> s <> [] -> dval s = z -> z <= u32_max -> parse_digits s = Some z.
Proof.
  intros Hd Hs Hv Hz. unfold parse_digits. rewrite bool_decide_eq_false_2, Hd by done. simpl.
  rewrite parse_uint_digits; [by rewrite Hv|done..|by rewrite Hv].
Qed.

Lemma u8_small z : 0 <= z < 256 -> u8 z = z.
Proof. apply Z.mod_small. Qed.

(** Texts of digits and a few separators. *)
Definition over (extra s : str) : bool := forallb (fun c => is_ascii_digit c || smem c extra) s.

Lemma over_app e s t : over e (s ++ t) = over e s && over e t.
Proof. apply forallb_app. Qed.

Lemma over_digits e s : all_digits s = true -> over e s = true.
Proof.
  unfold all_digits, over. rewrite !forallb_forall. intros H c Hc. by rewrite (H c Hc).
Qed.

Lemma over_not_in e s c : over e s = true -> is_ascii_digit c || smem c e = false -> c ∉ s.
Proof.
  unfold over. rewrite forallb_forall. intros H Hc Hin%list_elem_of_In%H. congruence.
Qed.

Lemma over_ascii e s : over e s = true -> is_ascii e = true -> is_ascii s = true.
Proof.
  unfold over, is_ascii. rewrite !forallb_forall. intros H He c Hc. specialize (H c Hc).
  apply orb_true_iff in H as [Hd|Hs].
  - apply digit_spec in Hd. lia.
  - apply He, list_elem_of_In. by apply smem_true.
Qed.

Lemma is_ascii_app s t : is_ascii (s ++ t) = is_ascii s && is_ascii t.
Proof. apply forallb_app. Qed.

Lemma str_eqb_refl s : str_eqb s s = true.
Proof. apply oeqb_refl. Qed.

Lemma str_eqb_true s t : str_eqb s t = true <-> s = t.
Proof. apply oeqb_true. Qed.

Lemma rsplit_digits c s t :
  all_digits t = true -> is_ascii_digit c = false -> rsplit_once c (s ++ c :: t) = Some (s, t).
Proof.
  intros Ht Hc. apply rsplit_once_Some. split; [done|]. intros Hin%list_elem_of_In.
  unfold all_digits in Ht. rewrite forallb_forall in Ht. apply Ht in Hin. congruence.
Qed.

Lemma no_byte_split e c s : over e s = true -> is_ascii_digit c || smem c e = false -> split_once c s = None.
Proof. intros. apply split_once_None. by eapply over_not_in. Qed.

Lemma split_at e c s t :
  over e s = true -> is_ascii_digit c || smem c e = false -> split_once c (s ++ c :: t) = Some (s, t).
Proof. intros. apply split_once_Some. split; [done|]. by eapply over_not_in. Qed.

(** ** Dates *)

Definition valid_date (d : CanonicalDate) : Prop :=
  MIN_CANONICAL_YEAR <= year d <= MAX_CANONICAL_YEAR /\
  1 <= month d <= 12 /\ 1 <= day d <= max_day (year d) (month d).

Lemma max_day_range y m :
  0 <= max_day y m <= 31 /\ (0 < max_day y m -> 1 <= m <= 12).
Proof.
  unfold max_day. simpl. repeat (case_match; simp); try lia;
    repeat match goal with
    | H : _ || _ = true |- _ => apply orb_true_iff in H as [H|H]
    | H : (_ =? _) = true |- _ => apply Z.eqb_eq in H
    end; try discriminate; lia.
Qed.

Lemma Date_new_Ok y m d v :
  0 <= d -> Date_new y m d = Ok v <-> v = mk_date y m d /\ valid_date v.
Proof.
  intros Hd. unfold Date_new, valid_date. destruct (max_day_range y m) as [_ Hm].
  destruct (_ || _) eqn:E.
  - split; [done|]. intros [-> H]. simpl in H. exfalso.
    apply orb_true_iff in E as [[E|E]%orb_true_iff|E]; lia.
  - apply orb_false_iff in E as [[E1 E2]%orb_false_iff E3]. split.
    + intros [= <-]. simpl. split; [done|]. lia.
    + by intros [-> _].
Qed.

Lemma parse_show_year y :
  MIN_CANONICAL_YEAR <= y <= MAX_CANONICAL_YEAR ->
  parse_int i32_min i32_max (show_year y) = Some y.
Proof.
  unfold MIN_CANONICAL_YEAR, MAX_CANONICAL_YEAR. intros Hy. unfold show_year, ishow.
  assert (forall z w, 0 <= z <= 300000 -> show_pad w z <> [] /\ all_digits (show_pad w z) = true
                                    /\ dval (show_pad w z) = z) as Hp.
  { intros z w Hz. destruct (dshow_spec z) as [Hc Hv]; [lia|]. unfold show_pad, pad_left.
    split_and!.
    - intros [_ H]%app_eq_nil. by apply (canonical_nonempty _ Hc).
    - by rewrite all_digits_app, all_digits_replicate, canonical_all_digits.
    - rewrite dval_app, dval_replicate, Hv. lia. }
  assert (forall z, 0 <= z -> dshow z = show_pad 0 z) as Hsh by done.
  repeat case_match; simp;
    repeat match goal with
    | H : (_ <=? _) = true |- _ => apply Z.leb_le in H
    | H : (_ <=? _) = false |- _ => apply Z.leb_gt in H
    | H : _ && _ = false |- _ => apply andb_false_iff in H as [H|H]
    | H : (_ <? _) = true |- _ => apply Z.ltb_lt in H
    | H : (_ <? _) = false |- _ => apply Z.ltb_ge in H
    end; try lia.
  all: unfold i32_min, i32_max.
  - destruct (Hp y 4%nat) as (? & ? & E); [lia|]. rewrite parse_int_digits; rewrite ?E; done || lia.
  - destruct (Hp y 0%nat) as (Hne & Hdig & E); [lia|]. rewrite (Hsh y) by lia.
    unfold parse_int, parse_uint. rewrite bool_decide_eq_false_2 by done. rewrite E, Hdig. simpl.
    by rewrite (proj2 (Z.leb_le y _)) by lia.
  - destruct (Hp (- y) 4%nat) as (? & ? & E); [lia|].
    rewrite parse_int_minus; rewrite ?E; try done; [f_equal|]; lia.
  - destruct (Hp (- y) 0%nat) as (? & ? & E); [lia|]. rewrite (Hsh (- y)) by lia.
    rewrite parse_int_minus; rewrite ?E; try done; [f_equal|]; lia.
Qed.

Lemma Date_roundtrip d : valid_date d -> Date_from_str (Date_to_string d) = Ok d.
Proof.
  intros Hv. pose proof Hv as (Hy & Hm & Hd).
  destruct (max_day_range (year d) (month d)) as [Hr _].
  unfold Date_from_str. pose proof (str_eqb_refl (Date_to_string d)) as Hrefl.
  revert Hrefl. generalize (Date_to_string d) at 2 4. intros s Hrefl.
  unfold Date_to_string at 1.
  destruct (two_digits (month d)) as (m1 & m2 & Em & Dm & Vm); [lia|].
  destruct (two_digits (day d)) as (d1 & d2 & Ed & Dd & Vd); [lia|]. rewrite Em, Ed.
  replace (show_year (year d) ++ _) with ((show_year (year d) ++ "-"%char :: [m1; m2]) ++ "-"%char :: [d1; d2])
    by (by rewrite <- app_assoc).
  rewrite (rsplit_digits "-"%char) by done. cbn [ok_or].
  rewrite (rsplit_digits "-"%char) by done. cbn [ok_or]. rewrite parse_show_year by done. cbn [ok_or].
  rewrite (parse_digits_ok _ (month d)) by (done || unfold u32_max; lia). cbn [ok_or].
  rewrite (parse_digits_ok _ (day d)) by (done || unfold u32_max; lia). cbn [ok_or].
  rewrite !u8_small by lia.
  rewrite (proj2 (Date_new_Ok (year d) (month d) (day d) d ltac:(lia))); [by rewrite Hrefl|].
  by destruct d.
Qed.

(** What an accepted spelling says: it is the canonical one. *)
Lemma Date_from_str_Ok s d : Date_from_str s = Ok d -> valid_date d /\ Date_to_string d = s.
Proof.
  unfold Date_from_str. destruct (rsplit_once _ s) as [[ym ds]|]; [|done]. cbn [ok_or].
  destruct (rsplit_once _ ym) as [[ys ms]|]; [|done]. cbn [ok_or].
  destruct (parse_int _ _ ys) as [y|]; [|done]. cbn [ok_or].
  destruct (parse_digits ms) as [m|]; [|done]. cbn [ok_or].
  destruct (parse_digits ds) as [d'|]; [|done]. cbn [ok_or].
  destruct (Date_new y (u8 m) (u8 d')) as [v|] eqn:E; [|done].
  destruct (str_eqb _ _) eqn:Es; [|done]. intros [= <-]. apply str_eqb_true in Es.
  apply Date_new_Ok in E; [tauto|]. apply Z.mod_pos_bound. lia.
Qed.

Lemma show_year_over y : over b#"+-" (show_year y) = true.
Proof.
  assert (forall z w, 0 <= z -> over b#"+-" (show_pad w z) = true) as Hp.
  { intros z w Hz. apply over_digits. unfold show_pad, pad_left.
    by rewrite all_digits_app, all_digits_replicate, dshow_digits. }
  unfold show_year, ishow. destruct (Z.leb_spec 0 y), (Z.leb_spec y 9999), (Z.leb_spec 10000 y),
    (Z.leb_spec (-9999) y), (Z.leb_spec y (-1)), (Z.ltb_spec y 0); try lia; simpl.
  all: first [apply Hp; lia | apply (Hp _ 0%nat); lia].
Qed.

Lemma Date_over d : valid_date d -> over b#"+-" (Date_to_string d) = true.
Proof.
  intros (Hy & Hm & Hd). destruct (max_day_range (year d) (month d)) as [Hr _].
  unfold Date_to_string. rewrite !over_app, show_year_over.
  rewrite !(over_digits _ (show_pad 2 _)) by (apply show_pad_spec; change (10 ^ Z.of_nat 2) with 100; lia).
  done.
Qed.

(** ** Times of day *)

Definition valid_time (t : CanonicalTime) : Prop :=
  0 <= hour t <= 23 /\ 0 <= minute t <= 59 /\ 0 <= second t <= 59 /\
  0 <= nanosecond t < 1000000000.

Lemma Time_new_Ok h m s n v :
  0 <= h -> 0 <= m -> 0 <= s -> 0 <= n ->
  Time_new h m s n = Ok v <-> v = mk_time h m s n /\ valid_time v.
Proof.
  intros Hh Hm Hs Hn. unfold Time_new, valid_time. destruct (_ || _) eqn:E.
  - split; [done|]. intros [-> H]. simpl in H. exfalso.
    apply orb_true_iff in E as [[[E|E]%orb_true_iff|E]%orb_true_iff|E]; lia.
  - apply orb_false_iff in E as [[[E1 E2]%orb_false_iff E3]%orb_false_iff E4]. split.
    + intros [= <-]. simpl. split; [done|]. lia.
    + by intros [-> _].
Qed.

Lemma trim_pad w s : length s = w -> pad_right w (trim_end "0"%char s) = s.
Proof.
  intros Hl. destruct (trim_end_spec "0"%char s) as (n & E & _). unfold pad_right.
  assert (length s = length (trim_end "0"%char s) + n)%nat as Hn.
  { rewrite E at 1. by rewrite length_app, length_replicate. }
  rewrite E at 3. f_equal. f_equal. lia.
Qed.

(** The printed fraction of a non-zero nanosecond count, read back. *)
Lemma fraction_spec n :
  0 < n < 1000000000 ->
  let f := trim_end "0"%char (show_pad 9 n) in
  show_fraction n = "."%char :: f /\ f <> [] /\ (length f <= 9)%nat /\ all_digits f = true /\
  ends_with b#"0" f = false /\ parse_uint u32_max (pad_right 9 f) = Some n.
Proof.
  intros Hn. cbv zeta. destruct (show_pad_spec 9 n) as (Hd & Hv & Hl); [simpl; lia|].
  specialize (Hl ltac:(lia)). pose proof (trim_pad 9 (show_pad 9 n) Hl) as Hp.
  destruct (trim_end_spec "0"%char (show_pad 9 n)) as (k & E & Hlast).
  set (f := trim_end _ _) in *. split_and!.
  - unfold show_fraction. by rewrite (proj2 (Z.eqb_neq n 0)) by lia.
  - intros Hf. rewrite Hf in E. rewrite E in Hv. simpl in Hv. rewrite dval_replicate in Hv. lia.
  - rewrite E, length_app in Hl. lia.
  - rewrite E, all_digits_app in Hd. by apply andb_true_iff in Hd as [? _].
  - unfold ends_with. destruct (strip_suffix b#"0" f) as [t|] eqn:Es; [|done].
    apply strip_suffix_Some in Es. destruct Hlast. rewrite Es. apply last_snoc.
  - rewrite Hp, parse_uint_digits, Hv; try done.
    + by destruct (show_pad 9 n).
    + rewrite Hv. unfold u32_max. lia.
Qed.

Lemma show_fraction_over n : 0 <= n < 1000000000 -> over b#"." (show_fraction n) = true.
Proof.
  intros Hn. destruct (Z.eq_dec n 0) as [->|]; [done|].
  destruct (fraction_spec n) as (-> & _ & _ & Hd & _); [lia|]. simpl. by apply over_digits.
Qed.

Lemma Time_roundtrip t : valid_time t -> Time_from_str (Time_to_string t) = Ok t.
Proof.
  intros Hv. pose proof Hv as (Hh & Hm & Hs & Hn).
  destruct (two_digits (hour t)) as (h1 & h2 & Eh & Dh & Vh); [lia|].
  destruct (two_digits (minute t)) as (m1 & m2 & Em & Dm & Vm); [lia|].
  destruct (two_digits (second t)) as (s1 & s2 & Es & Ds & Vs); [lia|].
  assert (Time_to_string t = h1 :: h2 :: ":"%char :: m1 :: m2 :: ":"%char :: s1 :: s2
                             :: show_fraction (nanosecond t)) as E.
  { unfold Time_to_string. by rewrite Eh, Em, Es. }
  assert (is_ascii (Time_to_string t) = true) as Hasc.
  { apply (over_ascii b#":."); [|done]. rewrite E. unfold over. cbn [forallb].
    cbn in Dh, Dm, Ds. apply andb_true_iff in Dh as [-> [-> _]%andb_true_iff].
    apply andb_true_iff in Dm as [-> [-> _]%andb_true_iff].
    apply andb_true_iff in Ds as [-> [-> _]%andb_true_iff]. cbn [orb andb].
    pose proof (show_fraction_over _ Hn) as Ho. unfold over in Ho. rewrite forallb_forall in Ho.
    rewrite !andb_true_iff. split_and!; [done..|]. apply forallb_forall. intros c Hc%Ho.
    apply orb_true_iff in Hc as [->|Hc]; [done|]. apply smem_true in Hc.
    rewrite (proj2 (smem_true c b#":.")); [by rewrite orb_true_r|]. set_solver. }
  unfold Time_from_str. rewrite Hasc. cbn [negb orb].
  assert (bytes_range 0 2 (Time_to_string t) = [h1; h2] /\ bytes_range 3 5 (Time_to_string t) = [m1; m2]
    /\ bytes_range 2 3 (Time_to_string t) = b#":" /\ bytes_range 5 6 (Time_to_string t) = b#":"
    /\ from_byte 6 (Time_to_string t) = [s1; s2] ++ show_fraction (nanosecond t)
    /\ (length (Time_to_string t) <? 8)%nat = false) as (-> & -> & -> & -> & -> & ->)
    by (rewrite E; done).
  rewrite str_eqb_refl. cbn [negb orb].
  rewrite (parse_digits_ok [h1; h2] (hour t)) by (done || unfold u32_max; lia). cbn [ok_or].
  rewrite (parse_digits_ok [m1; m2] (minute t)) by (done || unfold u32_max; lia). cbn [ok_or].
  set (secs := match split_once _ _ with Some _ => _ | None => _ end).
  assert (secs = Ok ([s1; s2], nanosecond t)) as ->.
  { subst secs. destruct (Z.eq_dec (nanosecond t) 0) as [Z0|Zn].
    - rewrite Z0. change (show_fraction 0) with (@nil ascii). rewrite app_nil_r.
      rewrite (no_byte_split []); [done|by apply over_digits|done].
    - destruct (fraction_spec (nanosecond t)) as (-> & Hf & Hl & Hd & _ & Hp); [lia|].
      rewrite (split_at []) by (done || by apply over_digits).
      rewrite bool_decide_eq_false_2, (proj2 (Nat.leb_le _ _)), Hd by done. cbn [negb andb].
      by rewrite Hp. }
  rewrite (parse_digits_ok [s1; s2] (second t)) by (done || unfold u32_max; lia). cbn [ok_or].
  unfold u8_try_from. rewrite (proj2 (Z.leb_le 0 _)), (proj2 (Z.leb_le (second t) _)) by (unfold u8_max; lia).
  cbn [andb ok_or]. rewrite !u8_small by lia.
  rewrite (proj2 (Time_new_Ok (hour t) (minute t) (second t) (nanosecond t) t
                   ltac:(lia) ltac:(lia) ltac:(lia) ltac:(lia))); [by rewrite str_eqb_refl|].
  by destruct t.
Qed.

Lemma parse_uint_range mx s z : parse_uint mx s = Some z -> 0 <= z <= mx.
Proof.
  unfold parse_uint. set (t := match s with "+"%char :: _ => _ | _ => _ end).
  destruct (_ && _) eqn:E; [|done]. intros [= <-].
  apply andb_true_iff in E as [[_ Hd]%andb_true_iff Hle%Z.leb_le].
  pose proof (dval_range _ Hd). lia.
Qed.

Lemma Time_from_str_Ok s t : Time_from_str s = Ok t -> valid_time t /\ Time_to_string t = s.
Proof.
  unfold Time_from_str. destruct (_ || negb (str_eqb (bytes_range 5 6 s) b#":")); [done|].
  destruct (parse_digits (bytes_range 0 2 s)) as [h|] eqn:Eh; [|done]. cbn [ok_or].
  destruct (parse_digits (bytes_range 3 5 s)) as [m|] eqn:Em; [|done]. cbn [ok_or].
  set (secs := match split_once _ _ with Some _ => _ | None => _ end).
  assert (forall ss n, secs = Ok (ss, n) -> 0 <= n) as Hn.
  { subst secs. intros ss n. destruct (split_once _ _) as [[a f]|]; [|intros [= <- <-]; lia].
    destruct (_ && _); [|done]. destruct (parse_uint _ _) as [k|] eqn:Ek; [|done]. cbn [ok_or].
    intros [= <- <-]. apply parse_uint_range in Ek. lia. }
  destruct secs as [[ss n]|]; [|done]. specialize (Hn ss n eq_refl).
  destruct (parse_digits ss) as [sec|] eqn:Esec; [|done]. cbn [ok_or].
  destruct (u8_try_from sec) as [sec'|] eqn:Eu; [|done]. cbn [ok_or].
  assert (0 <= sec') as Hs.
  { unfold u8_try_from in Eu. case_in Eu. simp. lia. }
  destruct (Time_new _ _ _ _) as [v|] eqn:E; [|done].
  destruct (str_eqb _ _) eqn:Es; [|done]. intros [= <-]. apply str_eqb_true in Es.
  apply Time_new_Ok in E; try done; [tauto|..]; apply Z.mod_pos_bound; lia.
Qed.

(** ** Date-times *)

Definition valid_date_time (v : CanonicalDateTime) : Prop :=
  valid_date (dt_date v) /\ valid_time (dt_time v).

Lemma over_weaken e e' s : (forall c, c ∈ e -> c ∈ e') -> over e s = true -> over e' s = true.
Proof.
  unfold over. rewrite !forallb_forall. intros He H c Hc%H. apply orb_true_iff in Hc as [->|Hc]; [done|].
  apply smem_true, He, smem_true in Hc. by rewrite Hc, orb_true_r.
Qed.

Lemma Time_over t : valid_time t -> over b#":." (Time_to_string t) = true.
Proof.
  intros (Hh & Hm & Hs & Hn). unfold Time_to_string. rewrite !over_app.
  rewrite !(over_digits _ (show_pad 2 _)) by (apply show_pad_spec; change (10 ^ Z.of_nat 2) with 100; lia).
  rewrite (over_weaken b#"." b#":." (show_fraction (nanosecond t))); [done|set_solver|].
  by apply show_fraction_over.
Qed.

Lemma DateTime_roundtrip v : valid_date_time v -> DateTime_from_str (DateTime_to_string v) = Ok v.
Proof.
  intros [Hd Ht]. unfold DateTime_from_str, DateTime_to_string.
  change (b#"T" ++ ?x) with ("T"%char :: x).
  rewrite (split_at b#"+-") by (done || by apply Date_over). cbn [ok_or].
  assert (contains_byte "T"%char (Time_to_string (dt_time v)) = false) as ->.
  { apply smem_false. eapply (over_not_in b#":."); [by apply Time_over|done]. }
  rewrite Date_roundtrip, Time_roundtrip by done. by destruct v.
Qed.

Lemma DateTime_from_str_Ok s v :
  DateTime_from_str s = Ok v -> valid_date_time v /\ DateTime_to_string v = s.
Proof.
  unfold DateTime_from_str. destruct (split_once _ s) as [[ds ts]|] eqn:E; [|done]. cbn [ok_or].
  destruct (contains_byte _ ts); [done|].
  destruct (Date_from_str ds) as [d|] eqn:Ed; [|done].
  destruct (Time_from_str ts) as [t|] eqn:Et; [|done]. intros [= <-].
  apply Date_from_str_Ok in Ed as [Hd <-]. apply Time_from_str_Ok in Et as [Ht <-].
  apply split_once_Some in E as [-> _]. done.
Qed.

Lemma DateTime_ascii v : valid_date_time v -> is_ascii (DateTime_to_string v) = true.
Proof.
  intros [Hd Ht]. unfold DateTime_to_string. rewrite !is_ascii_app.
  rewrite (over_ascii b#"+-" (Date_to_string _)) by (done || by apply Date_over).
  by rewrite (over_ascii b#":." (Time_to_string _)) by (done || by apply Time_over).
Qed.

(** ** Zoned date-times *)

(** A value the validating constructors return. *)
Definition valid_tz (v : CanonicalDateTimeTz) : Prop :=
  valid_date_time (local v) /\
  match zone v with
  | Utc => effective_offset_seconds v = 0
  | OffsetSeconds s => effective_offset_seconds v = s /\ s <> 0 /\ Z.abs s <= 86399
  | Named name =>
      name <> [] /\ (length name <= MAX_TIME_ZONE_NAME_BYTES)%nat /\
      forallb zone_name_byte name = true /\ Z.abs (effective_offset_seconds v) <= 86399
  end.

Definition fixed_zone (v : CanonicalDateTimeTz) : bool :=
  match zone v with Named _ => false | _ => true end.

Lemma new_fixed_Ok l z v :
  valid_date_time l -> new_fixed l z = Ok v -> valid_tz v /\ fixed_zone v = true /\ local v = l /\ zone v = z.
Proof.
  intros Hl. unfold new_fixed, valid_tz, fixed_zone. destruct z as [|s|n]; [| |done].
  - by intros [= <-].
  - destruct (_ && _) eqn:E; [|done]. intros [= <-]. simpl.
    apply andb_true_iff in E as [E1%Z.leb_le E2%negb_true_iff%Z.eqb_neq]. done.
Qed.

Lemma valid_fixed v :
  valid_tz v -> fixed_zone v = true -> new_fixed (local v) (zone v) = Ok v.
Proof.
  intros [Hl Hz]. unfold fixed_zone, new_fixed. destruct v as [l z o]. simpl in *.
  destruct z as [|s|n]; [by subst| |done]. intros _. destruct Hz as (-> & Hne & Hr).
  by rewrite (proj2 (Z.leb_le _ _)), (proj2 (Z.eqb_neq _ _)) by done.
Qed.

(** The offset text has six bytes, or nine when its seconds are not zero, and is
    read back. *)
Lemma offset_text s :
  s <> 0 -> Z.abs s <= 86399 ->
  exists sg h1 h2 m1 m2 tail,
    show_zone (OffsetSeconds s) = sg :: h1 :: h2 :: ":"%char :: m1 :: m2 :: tail /\
    is_sign sg = true /\ all_digits [h1; h2; m1; m2] = true /\
    (tail = [] \/ exists s1 s2, tail = ":"%char :: [s1; s2] /\ all_digits [s1; s2] = true) /\
    parse_fixed_offset_seconds (show_zone (OffsetSeconds s)) = Some s.
Proof.
  intros Hs Hr. unfold show_zone. set (a := Z.abs s) in *.
  assert (0 <= Z.quot a 3600 < 24 /\ 0 <= Z.quot (Z.rem a 3600) 60 < 60 /\ 0 <= Z.rem a 60 < 60
    /\ Z.quot a 3600 * 3600 + Z.quot (Z.rem a 3600) 60 * 60 + Z.rem a 60 = a) as (Rh & Rm & Rs & Ra).
  { subst a. Z.quot_rem_to_equations. lia. }
  destruct (two_digits (Z.quot a 3600)) as (h1 & h2 & Eh & Dh & Vh); [lia|].
  destruct (two_digits (Z.quot (Z.rem a 3600) 60)) as (m1 & m2 & Em & Dm & Vm); [lia|].
  destruct (two_digits (Z.rem a 60)) as (s1 & s2 & Es & Ds & Vs); [lia|].
  rewrite Eh, Em, Es. change (b#":") with [":"%char]. set (sg := if s <? 0 then "-"%char else "+"%char).
  assert (is_sign sg = true) as Hsg by (subst sg; by destruct (s <? 0)).
  assert (forall x y z, dval [x; y] = z -> all_digits [x; y] = true -> z < 100 ->
    parse_int i32_min i32_max [x; y] = Some z) as Hcomp.
  { intros x y z Hv Hd Hz. rewrite parse_int_digits; [by rewrite Hv|done..|rewrite Hv; unfold i32_max; lia]. }
  assert ((if oeqb sg "-"%char then - a else a) = s) as Hsign.
  { subst sg a. destruct (Z.ltb_spec s 0); vm_compute oeqb; cbv iota; lia. }
  assert (all_digits [h1; h2; m1; m2] = true) as Dhm.
  { change [h1; h2; m1; m2] with ([h1; h2] ++ [m1; m2]). by rewrite all_digits_app, Dh. }
  exists sg, h1, h2, m1, m2, (if Z.rem a 60 =? 0 then [] else ":"%char :: [s1; s2]).
  destruct (Z.eqb_spec (Z.rem a 60) 0) as [E0|E0]; (split; [done|]).
  - split_and!; [done..|by left|]. cbn [app]. unfold parse_fixed_offset_seconds. cbv beta iota zeta.
    rewrite !(oeqb_refl ":"%char).
    rewrite Hsg, Dhm. cbn [andb]. change (bytes_range 1 3 _) with [h1; h2].
    change (bytes_range 4 6 _) with [m1; m2]. rewrite (Hcomp h1 h2 _ Vh), (Hcomp m1 m2 _ Vm) by (done || lia).
    rewrite !(proj2 (Z.ltb_ge _ _)) by lia. cbn [orb]. f_equal. rewrite <- Hsign. case_match; lia.
  - split_and!; [done..|right; eauto|]. cbn [app]. unfold parse_fixed_offset_seconds. cbv beta iota zeta.
    rewrite !(oeqb_refl ":"%char).
    assert (all_digits [h1; h2; m1; m2; s1; s2] = true) as ->.
    { change [h1; h2; m1; m2; s1; s2] with ([h1; h2; m1; m2] ++ [s1; s2]). by rewrite all_digits_app, Dhm. }
    rewrite Hsg. cbn [andb]. change (bytes_range 1 3 _) with [h1; h2].
    change (bytes_range 4 6 _) with [m1; m2]. change (bytes_range 7 9 _) with [s1; s2].
    rewrite (Hcomp h1 h2 _ Vh), (Hcomp m1 m2 _ Vm), (Hcomp s1 s2 _ Vs) by (done || lia).
    rewrite !(proj2 (Z.ltb_ge _ _)) by lia. cbn [orb]. f_equal. rewrite <- Hsign. case_match; lia.
Qed.

Lemma snoc_not_suffix (x : str) c p : c <> p -> strip_suffix [p] (x ++ [c]) = None.
Proof. intros Hne. apply strip_suffix_None. intros t [_ H]%app_inj_tail. congruence. Qed.

Lemma offset_last s :
  s <> 0 -> Z.abs s <= 86399 ->
  exists init c, show_zone (OffsetSeconds s) = init ++ [c] /\ is_ascii_digit c = true.
Proof.
  intros Hs Hr. destruct (offset_text s Hs Hr) as (sg & h1 & h2 & m1 & m2 & tail & E & _ & Hd & Ht & _).
  unfold all_digits in Hd. rewrite forallb_forall in Hd.
  destruct Ht as [->|(s1 & s2 & -> & Hd2)]; rewrite E.
  - exists [sg; h1; h2; ":"%char; m1], m2. split; [done|]. apply Hd. simpl. tauto.
  - exists [sg; h1; h2; ":"%char; m1; m2; ":"%char; s1], s2. split; [done|].
    unfold all_digits in Hd2. rewrite forallb_forall in Hd2. apply Hd2. simpl. tauto.
Qed.

Lemma parse_offset_shape s h1 h2 c1 rest :
  c1 <> ":"%char -> parse_fixed_offset_seconds (s :: h1 :: h2 :: c1 :: rest) = None.
Proof.
  intros Hc. unfold parse_fixed_offset_seconds.
  destruct rest as [|? [|? [|? [|? [|? [|]]]]]]; try done;
    rewrite (proj2 (oeqb_false c1 ":"%char) Hc), ?andb_false_r; done.
Qed.

Lemma sign_not_colon c : is_sign c = true -> c <> ":"%char.
Proof. by intros H ->. Qed.

(** The offset is found at the end of a printed value. *)
Lemma find_offset l s :
  (3 <= length l)%nat -> s <> 0 -> Z.abs s <= 86399 ->
  let value := l ++ show_zone (OffsetSeconds s) in
  match offset_at value 9 with Some r => Some r | None => offset_at value 6 end
  = Some (length l, s).
Proof.
  intros Hl Hs Hr value. subst value.
  destruct (offset_text s Hs Hr) as (sg & h1 & h2 & m1 & m2 & tail & E & Hsg & _ & Ht & Hp).
  set (z := show_zone (OffsetSeconds s)) in *.
  assert (forall w, length z = w -> offset_at (l ++ z) w = Some (length l, s)) as Hat.
  { intros w <-. unfold offset_at. rewrite length_app, (proj2 (Nat.leb_le _ _)) by lia.
    replace (length l + length z - length z)%nat with (length l) by lia.
    by rewrite drop_app_length, Hp. }
  destruct Ht as [->|(s1 & s2 & -> & _)].
  - rewrite (Hat 6%nat) by by rewrite E. unfold offset_at.
    rewrite length_app. destruct (_ <=? _)%nat; [|done].
    replace (length l + length z - 9)%nat with (length l - 3)%nat by (rewrite E; simpl; lia).
    rewrite drop_app_le by lia.
    assert (length (drop (length l - 3) l) = 3%nat) as H3 by (rewrite length_drop; lia).
    destruct (drop (length l - 3) l) as [|x1 [|x2 [|x3 [|]]]]; try discriminate H3.
    rewrite E. cbn [app]. rewrite parse_offset_shape; [done|]. by apply sign_not_colon.
  - by rewrite (Hat 9%nat) by by rewrite E.
Qed.

Lemma DateTime_length v : (3 <= length (DateTime_to_string v))%nat.
Proof. unfold DateTime_to_string, Date_to_string. rewrite !length_app. simpl. lia. Qed.

Lemma show_zone_ascii s : s <> 0 -> Z.abs s <= 86399 -> is_ascii (show_zone (OffsetSeconds s)) = true.
Proof.
  intros Hs Hr. destruct (offset_text s Hs Hr) as (sg & h1 & h2 & m1 & m2 & tail & -> & Hsg & Hd & Ht & _).
  assert (forall t, all_digits t = true -> is_ascii t = true) as Hasc.
  { intros t H. apply (over_ascii []); [by apply over_digits|done]. }
  change (sg :: h1 :: h2 :: ":"%char :: m1 :: m2 :: tail)
    with ([sg] ++ [h1; h2] ++ b#":" ++ [m1; m2] ++ tail).
  change [h1; h2; m1; m2] with ([h1; h2] ++ [m1; m2]) in Hd. rewrite all_digits_app in Hd.
  apply andb_true_iff in Hd as [Hd1 Hd2]. rewrite !is_ascii_app, (Hasc [h1; h2]), (Hasc [m1; m2]) by done.
  assert (is_ascii [sg] = true) as ->.
  { apply orb_true_iff in Hsg as [H|H]; apply (oeqb_true sg) in H; by subst sg. }
  destruct Ht as [->|(s1 & s2 & -> & Hd3)]; [done|].
  change (":"%char :: [s1; s2]) with (b#":" ++ [s1; s2]). by rewrite is_ascii_app, (Hasc [s1; s2]).
Qed.

Lemma DateTimeTz_roundtrip v :
  valid_tz v -> fixed_zone v = true -> DateTimeTz_from_str (DateTimeTz_to_string v) = Ok v.
Proof.
  intros Hv Hf. pose proof (valid_fixed v Hv Hf) as Hn. destruct Hv as [Hl Hz].
  unfold DateTimeTz_from_str. pose proof (DateTime_ascii _ Hl) as Hasc.
  destruct (zone v) as [|s|n] eqn:Ez; [| |by unfold fixed_zone in Hf; rewrite Ez in Hf].
  - assert (DateTimeTz_to_string v = DateTime_to_string (local v) ++ b#"Z") as E
      by (unfold DateTimeTz_to_string; by rewrite Ez).
    rewrite E, is_ascii_app, Hasc. cbn [negb andb].
    rewrite (proj2 (strip_suffix_Some b#"Z" _ (DateTime_to_string (local v)))) by done.
    rewrite DateTime_roundtrip, Hn by done. rewrite E, str_eqb_refl. done.
  - destruct Hz as (Ho & Hs & Hr).
    assert (DateTimeTz_to_string v = DateTime_to_string (local v) ++ show_zone (OffsetSeconds s)) as E
      by (unfold DateTimeTz_to_string; by rewrite Ez).
    rewrite E, is_ascii_app, Hasc, show_zone_ascii by done. cbn [negb andb].
    destruct (offset_last s Hs Hr) as (init & c & El & Hc).
    assert (strip_suffix b#"Z" (DateTime_to_string (local v) ++ show_zone (OffsetSeconds s)) = None) as ->.
    { rewrite El, app_assoc. apply snoc_not_suffix. by intros ->. }
    assert (ends_with b#"]" (DateTime_to_string (local v) ++ show_zone (OffsetSeconds s)) = false) as ->.
    { unfold ends_with. change (b#"]") with ["]"%char]. rewrite El, app_assoc, snoc_not_suffix; [done|]. by intros ->. }
    rewrite find_offset by (done || apply DateTime_length). cbn [ok_or].
    rewrite take_app_length, DateTime_roundtrip, Hn, E, str_eqb_refl by done. done.
Qed.

Lemma DateTimeTz_from_str_Ok s v :
  DateTimeTz_from_str s = Ok v ->
  valid_tz v /\ fixed_zone v = true /\ DateTimeTz_to_string v = s.
Proof.
  unfold DateTimeTz_from_str. destruct (negb _); [done|].
  assert (forall l z, (let? parsed := (let? l := DateTime_from_str l in new_fixed l z) in
     if str_eqb (DateTimeTz_to_string parsed) s then Ok parsed else Err invalid_temporal) = Ok v ->
     valid_tz v /\ fixed_zone v = true /\ DateTimeTz_to_string v = s) as H.
  { intros l z. destruct (DateTime_from_str l) as [l'|] eqn:El; [|done].
    apply DateTime_from_str_Ok in El as [Hl _].
    destruct (new_fixed l' z) as [w|] eqn:En; [|done]. apply new_fixed_Ok in En; [|done].
    destruct (str_eqb _ _) eqn:Es; [|done]. intros [= <-]. apply str_eqb_true in Es. tauto. }
  destruct (strip_suffix _ _) as [l|].
  - intros E. apply (H l Utc). revert E. by destruct (DateTime_from_str l).
  - destruct (ends_with _ _); [done|]. destruct (match offset_at s 9 with Some _ => _ | None => _ end)
      as [[k z]|]; [|done]. cbn [ok_or]. intros E. apply (H (take k s) (OffsetSeconds z)).
    revert E. by destruct (DateTime_from_str (take k s)).
Qed.

(** ** Durations *)

Definition is_zero (v : CanonicalDuration) : bool :=
  (months v =? 0) && (days v =? 0) && (seconds v =? 0) && (dur_nanosecond v =? 0).

Definition valid_duration (v : CanonicalDuration) : Prop :=
  0 <= months v <= u64_max /\ 0 <= days v <= u64_max /\ 0 <= seconds v <= u64_max /\
  0 <= dur_nanosecond v < 1000000000 /\ (dur_negative v = true -> is_zero v = false).

Lemma canonical_unsigned_dshow z : 0 <= z <= u64_max -> canonical_unsigned (dshow z) = Some z.
Proof.
  intros Hz. destruct (dshow_spec z) as [Hc Hv]; [lia|]. unfold canonical_unsigned.
  rewrite bool_decide_eq_false_2, canonical_all_digits by (done || by apply canonical_nonempty). cbn [orb negb].
  rewrite parse_uint_digits, Hv, str_eqb_refl; [done|by apply canonical_all_digits|by apply canonical_nonempty|lia].
Qed.

Lemma canonical_unsigned_range s z : canonical_unsigned s = Some z -> 0 <= z <= u64_max.
Proof.
  unfold canonical_unsigned. destruct (_ || _); [done|]. destruct (parse_uint _ _) as [k|] eqn:E; [|done].
  destruct (str_eqb _ _); [|done]. intros [= <-]. by apply parse_uint_range in E.
Qed.

(** One [count unit] group of a printed duration. *)
Definition group (c : ascii) (n : Z) : str := if n =? 0 then [] else dshow n ++ [c].

Lemma unit_count_group c n rest :
  0 <= n <= u64_max -> is_ascii_digit c = false -> (n = 0 -> c ∉ rest) ->
  unit_count c (group c n ++ rest) = Ok (n, rest).
Proof.
  intros Hn Hc Hrest. unfold unit_count, group. destruct (Z.eqb_spec n 0) as [->|Hne]; cbn [app].
  - by rewrite (proj2 (split_once_None c rest)) by auto.
  - rewrite <- app_assoc. cbn [app]. rewrite (split_at []).
    + by rewrite canonical_unsigned_dshow.
    + apply over_digits, dshow_digits. lia.
    + by rewrite Hc.
Qed.

Lemma group_over c n : 0 <= n -> over [c] (group c n) = true.
Proof.
  intros Hn. unfold group. destruct (_ =? _); [done|]. rewrite over_app.
  rewrite over_digits by by apply dshow_digits. unfold over. simpl. by rewrite oeqb_refl, orb_true_r.
Qed.

Lemma group_in c n d : 0 <= n -> is_ascii_digit d = false -> d <> c -> d ∉ group c n.
Proof.
  intros Hn Hd Hne. apply (over_not_in [c]); [by apply group_over|]. rewrite Hd. simpl.
  by rewrite (proj2 (oeqb_false d c)).
Qed.

Lemma date_guard mo d :
  0 <= mo -> 0 <= d ->
  (mo =? 0) && contains_byte "M"%char (group "M"%char mo ++ group "D"%char d) = false /\
  (d =? 0) && contains_byte "D"%char (group "M"%char mo ++ group "D"%char d) = false.
Proof.
  intros Hmo Hd. split.
  - destruct (Z.eqb_spec mo 0) as [->|]; [|done]. apply smem_false. by apply group_in.
  - destruct (Z.eqb_spec d 0) as [->|]; [|done]. cbn [andb]. unfold group at 2. cbn [Z.eqb].
    rewrite app_nil_r. apply smem_false. by apply group_in.
Qed.

Lemma parse_seconds_show s n :
  0 <= s <= u64_max -> 0 <= n < 1000000000 ->
  parse_seconds (dshow s ++ show_fraction n ++ b#"S") = Ok (s, n).
Proof.
  intros Hs Hn. unfold parse_seconds. rewrite app_assoc.
  rewrite (proj2 (strip_suffix_Some b#"S" _ (dshow s ++ show_fraction n))) by done. cbn [ok_or].
  assert (all_digits (dshow s) = true) as Hd by (apply dshow_digits; lia).
  destruct (Z.eq_dec n 0) as [->|Hne].
  - change (show_fraction 0) with (@nil ascii). rewrite app_nil_r.
    rewrite (no_byte_split []) by (done || by apply over_digits).
    by rewrite canonical_unsigned_dshow.
  - destruct (fraction_spec n) as (-> & Hf & Hl & Hdf & He & Hp); [lia|].
    rewrite (split_at []) by (done || by apply over_digits).
    rewrite bool_decide_eq_false_2, (proj2 (Nat.leb_le _ _)), He, Hdf by done. cbn [negb andb].
    by rewrite canonical_unsigned_dshow, Hp.
Qed.

Lemma body_not_zero mo d s n :
  0 <= mo -> 0 <= d -> 0 <= s -> 0 <= n < 1000000000 ->
  (mo =? 0) && (d =? 0) && (s =? 0) && (n =? 0) = false ->
  str_eqb (group "M"%char mo ++ group "D"%char d
           ++ (if negb (s =? 0) || negb (n =? 0) || ((mo =? 0) && (d =? 0))
               then b#"T" ++ dshow s ++ show_fraction n ++ b#"S" else [])) b#"T0S" = false.
Proof.
  intros Hmo Hd Hs Hn Hz. apply oeqb_false. intros E.
  assert (forall c k rest, 0 < k -> group c k ++ rest <> b#"T0S") as Hgroup.
  { intros c k rest Hk. unfold group. rewrite (proj2 (Z.eqb_neq k 0)) by lia.
    destruct (dshow_spec k) as [Hc _]; [lia|]. apply canonical_all_digits in Hc as Hdig.
    destruct (dshow k) as [|x t]; [done|]. cbn. intros [= -> _]. discriminate Hdig. }
  destruct (Z.eqb_spec mo 0) as [->|]; [|eapply Hgroup; [|exact E]; lia]. cbn [group Z.eqb app] in E.
  destruct (Z.eqb_spec d 0) as [->|]; [|eapply Hgroup; [|exact E]; lia]. cbn in E.
  cbn [andb] in Hz. rewrite orb_true_r in E. injection E as E.
  destruct (Z.eqb_spec n 0) as [->|Hne].
  - cbn in E. change (show_fraction 0) with (@nil ascii) in E. rewrite andb_true_r in Hz.
    apply Z.eqb_neq in Hz. change ["0"%char; "S"%char] with (["0"%char] ++ ["S"%char]) in E.
    apply app_inj_tail in E as [E _]. apply (f_equal dval) in E. rewrite dval_dshow in E by done.
    by change (dval ["0"%char]) with 0 in E.
  - destruct (fraction_spec n) as (Ef & _); [lia|]. rewrite Ef in E.
    assert ("."%char ∈ ["0"%char; "S"%char]) as Hin by (rewrite <- E; set_solver).
    set_solver.
Qed.

Lemma Duration_to_string_parts v :
  Duration_to_string v =
  (if dur_negative v then b#"-" else []) ++ "P"%char :: (group "M"%char (months v) ++ group "D"%char (days v)
  ++ (if negb (seconds v =? 0) || negb (dur_nanosecond v =? 0) || ((months v =? 0) && (days v =? 0))
      then b#"T" ++ dshow (seconds v) ++ show_fraction (dur_nanosecond v) ++ b#"S" else [])).
Proof. reflexivity. Qed.

Lemma Duration_new_valid v :
  valid_duration v ->
  Duration_new (dur_negative v) (months v) (days v) (seconds v) (dur_nanosecond v) = Ok v.
Proof.
  intros (_ & _ & _ & Hn & Hneg). unfold Duration_new, is_zero in *.
  rewrite (proj2 (Z.leb_gt _ _)) by lia. destruct v as [neg mo d s n]. simpl in *. do 2 f_equal.
  destruct neg; [by rewrite Hneg|done].
Qed.

Lemma Duration_roundtrip v : valid_duration v -> Duration_from_str (Duration_to_string v) = Ok v.
Proof.
  intros Hv. pose proof (Duration_new_valid v Hv) as Hnew. pose proof Hv as (Hmo & Hd & Hs & Hn & Hneg).
  destruct (is_zero v) eqn:Hz.
  { unfold is_zero in Hz. destruct v as [neg mo d s n]. simpl in *.
    apply andb_true_iff in Hz as [[[->%Z.eqb_eq ->%Z.eqb_eq]%andb_true_iff ->%Z.eqb_eq]%andb_true_iff ->%Z.eqb_eq].
    destruct neg; [by specialize (Hneg eq_refl)|]. reflexivity. }
  unfold Duration_from_str.
  set (body := group "M"%char (months v) ++ group "D"%char (days v) ++ (if negb (seconds v =? 0) || negb (dur_nanosecond v =? 0) || ((months v =? 0) && (days v =? 0))
     then b#"T" ++ dshow (seconds v) ++ show_fraction (dur_nanosecond v) ++ b#"S" else [])).
  assert (Duration_to_string v = (if dur_negative v then b#"-" else []) ++ "P"%char :: body) as E
    by apply Duration_to_string_parts.
  assert (match strip_prefix b#"-" (Duration_to_string v) with
          | Some value => (true, value) | None => (false, Duration_to_string v) end
          = (dur_negative v, "P"%char :: body)) as ->.
  { rewrite E. by destruct (dur_negative v). }
  rewrite (proj2 (strip_prefix_Some b#"P" ("P"%char :: body) body)) by done. cbn [ok_or].
  assert (str_eqb body b#"T0S" = false) as -> by (apply body_not_zero; tauto || lia).
  set (time := if negb (seconds v =? 0) || negb (dur_nanosecond v =? 0) || ((months v =? 0) && (days v =? 0))
               then Some (dshow (seconds v) ++ show_fraction (dur_nanosecond v) ++ b#"S") else None).
  set (date := group "M"%char (months v) ++ group "D"%char (days v)).
  assert (match split_once "T"%char body with Some (date, time) => (date, Some time) | None => (body, None) end
          = (date, time)) as ->.
  { assert ("T"%char ∉ date) as HT.
    { subst date. rewrite not_elem_of_app. split; apply group_in; done || lia. }
    subst body time. destruct (_ || _).
    - rewrite app_assoc. fold date. change (b#"T" ++ ?x) with ("T"%char :: x).
      by rewrite (proj2 (split_once_Some "T"%char _ date _)) by done.
    - rewrite app_nil_r. fold date. by rewrite (proj2 (split_once_None "T"%char date)) by done. }
  assert (unit_count "M"%char date = Ok (months v, group "D"%char (days v))) as ->.
  { apply unit_count_group; [done..|]. intros _. apply group_in; done || lia. }
  assert (unit_count "D"%char (group "D"%char (days v)) = Ok (days v, [])) as ->.
  { rewrite <- (app_nil_r (group _ _)). apply unit_count_group; [done..|]. intros _. set_solver. }
  assert (negb (bool_decide (@nil ascii = [])) || (months v =? 0) && contains_byte "M"%char date
          || (days v =? 0) && contains_byte "D"%char date = false) as ->.
  { destruct (date_guard (months v) (days v)) as [G1 G2]; [lia..|]. fold date in G1, G2.
    by rewrite G1, G2. }
  assert (match time with Some time => parse_seconds time | None => Ok (0, 0) end
          = Ok (seconds v, dur_nanosecond v)) as ->.
  { subst time. destruct (Z.eqb_spec (seconds v) 0) as [E0|], (Z.eqb_spec (dur_nanosecond v) 0) as [E1|];
      cbn [negb orb]; try (apply parse_seconds_show; lia).
    destruct (_ && _); [apply parse_seconds_show; lia|]. by rewrite E0, E1. }
  unfold is_zero in Hz. rewrite Hz, Hnew, str_eqb_refl. done.
Qed.

Lemma Duration_new_Ok neg mo d s n v :
  0 <= mo <= u64_max -> 0 <= d <= u64_max -> 0 <= s <= u64_max -> 0 <= n ->
  Duration_new neg mo d s n = Ok v -> valid_duration v.
Proof.
  intros Hmo Hd Hs Hn. unfold Duration_new. destruct (Z.leb_spec 1000000000 n) as [|Hlt]; [done|].
  intros [= <-]. unfold valid_duration, is_zero. simpl. split_and!; lia.
Qed.

Lemma unit_count_range c s n rest : unit_count c s = Ok (n, rest) -> 0 <= n <= u64_max.
Proof.
  unfold unit_count. destruct (split_once c s) as [[a r]|].
  - destruct (canonical_unsigned a) as [k|] eqn:E; [|done]. cbn [ok_or]. intros [= <- <-].
    by apply canonical_unsigned_range in E.
  - intros [= <- <-]. unfold u64_max. lia.
Qed.

Lemma parse_seconds_range t s n : parse_seconds t = Ok (s, n) -> 0 <= s <= u64_max /\ 0 <= n.
Proof.
  unfold parse_seconds. destruct (strip_suffix _ _) as [u|]; [|done]. cbn [ok_or].
  destruct (split_once _ _) as [[w f]|].
  - destruct (_ && _); [|done]. destruct (canonical_unsigned w) as [k|] eqn:E; [|done]. cbn [ok_or].
    destruct (parse_uint _ _) as [j|] eqn:Ej; [|done]. cbn [ok_or]. intros [= <- <-].
    apply canonical_unsigned_range in E. apply parse_uint_range in Ej. lia.
  - destruct (canonical_unsigned u) as [k|] eqn:E; [|done]. cbn [ok_or]. intros [= <- <-].
    apply canonical_unsigned_range in E. lia.
Qed.

Lemma Duration_from_str_Ok s v :
  Duration_from_str s = Ok v -> valid_duration v /\ Duration_to_string v = s.
Proof.
  unfold Duration_from_str. destruct (match strip_prefix b#"-" s with Some v => (true, v) | None => (false, s) end)
    as [neg value].
  destruct (strip_prefix b#"P" value) as [body|]; [|done]. cbn [ok_or].
  assert (forall mo d sec n, 0 <= mo <= u64_max -> 0 <= d <= u64_max -> 0 <= sec <= u64_max -> 0 <= n ->
    (let? parsed := Duration_new neg mo d sec n in
     if str_eqb (Duration_to_string parsed) s then Ok parsed else Err invalid_temporal) = Ok v ->
    valid_duration v /\ Duration_to_string v = s) as H.
  { intros mo d sec n Hmo Hd Hsec Hn. destruct (Duration_new _ _ _ _ _) as [w|] eqn:E; [|done].
    apply Duration_new_Ok in E; try done. destruct (str_eqb _ _) eqn:Es; [|done].
    intros [= <-]. by apply str_eqb_true in Es. }
  destruct (str_eqb body _); [apply H; unfold u64_max; lia|].
  destruct (match split_once "T"%char body with Some (d, t) => (d, Some t) | None => (body, None) end)
    as [date time].
  destruct (unit_count "M"%char date) as [[mo rest]|] eqn:Em; [|done]. apply unit_count_range in Em.
  destruct (unit_count "D"%char rest) as [[d rest']|] eqn:Ed; [|done]. apply unit_count_range in Ed.
  destruct (_ || _); [done|].
  destruct (match time with Some t => parse_seconds t | None => Ok (0, 0) end)
    as [[sec n]|] eqn:Et; [|done].
  assert (0 <= sec <= u64_max /\ 0 <= n) as [Hsec Hn].
  { destruct time; [by apply parse_seconds_range in Et|]. injection Et as <- <-. unfold u64_max. lia. }
  destruct (_ && (n =? 0)); [done|]. by apply H.
Qed.

(** ** The calendar behind [date_order_key]

    Years are counted from March, so that the leap day is the last day of its
    year: [civil_year] is the adjusted year, [civil_month] runs from 0 (March)
    to 11 (February). *)

Definition civil_year (d : CanonicalDate) : Z := year d - (if month d <=? 2 then 1 else 0).
Definition civil_month (d : CanonicalDate) : Z := month d + (if 2 <? month d then -3 else 9).

(** Days before the first of March of a civil year, and before a civil month. *)
Definition year_days (y : Z) : Z := 365 * y + y / 4 - y / 100 + y / 400.
Definition month_days (m : Z) : Z := (153 * m + 2) / 5.

Definition month_length (y m : Z) : Z :=
  if m =? 11 then year_days (y + 1) - year_days y - month_days 11
  else month_days (m + 1) - month_days m.

Lemma date_order_key_civil d :
  1 <= month d -> date_order_key d = year_days (civil_year d) + month_days (civil_month d) + day d - 1.
Proof.
  intros Hm. unfold date_order_key, year_days, month_days. fold (civil_year d). fold (civil_month d).
  set (y := civil_year d).
  assert (Z.quot (if 0 <=? y then y else y - 399) 400 = y / 400) as ->.
  { destruct (Z.leb_spec 0 y); Z.quot_rem_to_equations; Z.div_mod_to_equations; lia. }
  assert (0 <= civil_month d) as Hcm.
  { unfold civil_month. destruct (Z.ltb_spec 2 (month d)); lia. }
  rewrite !Z.quot_div_nonneg by (Z.div_mod_to_equations; lia).
  Z.div_mod_to_equations. lia.
Qed.

Lemma leap_year_spec y :
  leap_year y = ((y mod 4 =? 0) && (negb (y mod 100 =? 0) || (y mod 400 =? 0))).
Proof.
  unfold leap_year.
  assert (forall k, 0 < k -> (Z.rem y k =? 0) = (y mod k =? 0)) as H.
  { intros k Hk. apply eq_iff_eq_true. rewrite !Z.eqb_eq.
    rewrite Z.rem_divide, Z.mod_divide by lia. done. }
  by rewrite !H.
Qed.

Lemma year_length y : year_days (y + 1) - year_days y = if leap_year (y + 1) then 366 else 365.
Proof.
  rewrite leap_year_spec. unfold year_days.
  destruct (Z.eqb_spec ((y + 1) mod 4) 0), (Z.eqb_spec ((y + 1) mod 100) 0),
    (Z.eqb_spec ((y + 1) mod 400) 0); simpl; Z.div_mod_to_equations; lia.
Qed.

Lemma year_days_mono a b : a < b -> year_days (a + 1) <= year_days b.
Proof.
  intros Hab. replace b with (a + 1 + (b - (a + 1))) by lia.
  assert (0 <= b - (a + 1)) as Hk by lia. revert Hk. generalize (b - (a + 1)).
  apply natlike_ind.
  - rewrite Z.add_0_r. lia.
  - intros k Hk IH. pose proof (year_length (a + 1 + k)) as Hl.
    replace (a + 1 + Z.succ k) with (a + 1 + k + 1) by lia. destruct (leap_year _); lia.
Qed.

(** Every date lies in its civil month. *)
Lemma civil_bounds d :
  valid_date d ->
  0 <= civil_month d <= 11 /\ 1 <= day d <= month_length (civil_year d) (civil_month d).
Proof.
  intros (_ & Hm & Hd). unfold civil_month, civil_year.
  assert (month d = 1 \/ month d = 2 \/ month d = 3 \/ month d = 4 \/ month d = 5 \/ month d = 6 \/
    month d = 7 \/ month d = 8 \/ month d = 9 \/ month d = 10 \/ month d = 11 \/ month d = 12) as Hc by lia.
  pose proof (year_length (year d - 1)) as Hl. rewrite Z.sub_add in Hl.
  repeat destruct Hc as [Hc|Hc]; rewrite Hc in *; simpl in *; unfold month_length; simpl;
    unfold max_day in Hd; simpl in Hd; rewrite ?Z.sub_add, ?Z.sub_0_r, ?Hl;
    unfold month_days; simpl; try (split; [lia|]; Z.div_mod_to_equations; lia).
  split; [lia|]. change ((153 * 11 + 2) / 5) with 337. destruct (leap_year (year d)); lia.
Qed.

Lemma month_days_mono a b : a < b -> month_days (a + 1) <= month_days b.
Proof. intros H. unfold month_days. Z.div_mod_to_equations. lia. Qed.

Lemma month_fits y m : 0 <= m <= 11 -> month_days m + month_length y m <= year_days (y + 1) - year_days y.
Proof.
  intros Hm. unfold month_length. pose proof (year_length y).
  destruct (Z.eqb_spec m 11) as [->|Hne]; [lia|].
  unfold month_days. destruct (leap_year (y + 1)); Z.div_mod_to_equations; lia.
Qed.

Definition civil (d : CanonicalDate) : Z * (Z * Z) := (civil_year d, (civil_month d, day d)).

Lemma cmp_triple (a b c a' b' c' : Z) :
  cmp (a, (b, c)) (a', (b', c')) = then_cmp (a ?= a') (then_cmp (b ?= b') (c ?= c')).
Proof. reflexivity. Qed.

(** The key orders dates as their civil components do. *)
Lemma civil_key_lt d e :
  valid_date d -> valid_date e -> cmp (civil d) (civil e) = Lt -> date_order_key d < date_order_key e.
Proof.
  intros Hd He H. rewrite !date_order_key_civil by (apply Hd || apply He).
  destruct (civil_bounds d Hd) as [Bm Bd], (civil_bounds e He) as [Bm' Bd'].
  unfold civil in H. rewrite cmp_triple in H.
  destruct (Z.compare_spec (civil_year d) (civil_year e)) as [Hy|Hy|Hy]; simpl in H; try done.
  - rewrite Hy. destruct (Z.compare_spec (civil_month d) (civil_month e)) as [Hm|Hm|Hm]; simpl in H; try done.
    + rewrite Hm. rewrite Z.compare_lt_iff in H. lia.
    + pose proof (month_days_mono _ _ Hm). rewrite Hy in Bd. unfold month_length in Bd.
      rewrite (proj2 (Z.eqb_neq _ _)) in Bd by lia. lia.
  - pose proof (year_days_mono _ _ Hy). pose proof (month_fits (civil_year d) (civil_month d) Bm).
    assert (0 <= month_days (civil_month e)) by (unfold month_days; Z.div_mod_to_equations; lia). lia.
Qed.

Definition components (d : CanonicalDate) : Z * (Z * Z) := (year d, (month d, day d)).

(** The derived [Ord] of dates. *)
#[global] Instance Ord_CanonicalDate : Ord CanonicalDate := ord_by components.
#[global] Instance OrdLaws_CanonicalDate : OrdLaws CanonicalDate.
Proof. apply ord_by_laws. intros [] [] [= -> -> ->]. done. Qed.

Lemma civil_cmp d e : valid_date d -> valid_date e -> cmp d e = cmp (civil d) (civil e).
Proof.
  intros (_ & Hm & _) (_ & Hm' & _). change (cmp d e) with (cmp (components d) (components e)).
  unfold components, civil. rewrite !cmp_triple. unfold civil_year, civil_month.
  destruct (Z.leb_spec (month d) 2), (Z.leb_spec (month e) 2), (Z.ltb_spec 2 (month d)),
    (Z.ltb_spec 2 (month e)); try lia;
  destruct (Z.compare_spec (year d) (year e)) as [Hy|Hy|Hy], (Z.compare_spec (month d) (month e)) as [Hn|Hn|Hn];
  repeat match goal with |- context [?a ?= ?b] =>
    destruct (Z.compare_spec a b); try lia; simpl; try done end.
Qed.

Lemma date_order_key_cmp d e :
  valid_date d -> valid_date e -> (date_order_key d ?= date_order_key e) = cmp d e.
Proof.
  intros Hd He. rewrite (civil_cmp d e Hd He). destruct (cmp (civil d) (civil e)) eqn:E.
  - apply cmp_eq_iff in E. rewrite Z.compare_eq_iff, !date_order_key_civil by (apply Hd || apply He).
    unfold civil in E. injection E as -> -> ->. done.
  - rewrite Z.compare_lt_iff. by apply civil_key_lt.
  - rewrite Z.compare_gt_iff. apply civil_key_lt; [done..|]. by apply cmp_gt_iff.
Qed.

(** The calendar day after a date. *)
Definition next_day (d : CanonicalDate) : CanonicalDate :=
  if day d <? max_day (year d) (month d) then mk_date (year d) (month d) (day d + 1)
  else if month d <? 12 then mk_date (year d) (month d + 1) 1
  else mk_date (year d + 1) 1 1.

(** ** The properties of the component *)

(** A text is accepted as a date-time exactly when it is the canonical
    spelling of a valid calendar date and time of day: parsing and printing
    are inverse, and every value has one spelling. *)
Theorem date_time_canonical s v :
  DateTime_from_str s = Ok v <-> valid_date_time v /\ DateTime_to_string v = s.
Proof.
  split; [apply DateTime_from_str_Ok|]. intros [Hv <-]. by apply DateTime_roundtrip.
Qed.

(** C32. A text is accepted as a zoned date-time exactly when it is the
    canonical spelling of a valid value in UTC or at a fixed offset; a named
    zone is never resolved from text. *)
Theorem date_time_tz_canonical s v :
  DateTimeTz_from_str s = Ok v <->
  valid_tz v /\ fixed_zone v = true /\ DateTimeTz_to_string v = s.
Proof.
  split; [apply DateTimeTz_from_str_Ok|]. intros (Hv & Hf & <-). by apply DateTimeTz_roundtrip.
Qed.

(** A text is accepted as a duration exactly when it is the canonical
    spelling of a duration whose counts fit their machine widths and which is
    no negative zero. *)
Theorem duration_canonical s v :
  Duration_from_str s = Ok v <-> valid_duration v /\ Duration_to_string v = s.
Proof.
  split; [apply Duration_from_str_Ok|]. intros [Hv <-]. by apply Duration_roundtrip.
Qed.

(** [date_order_key] counts days: the key of the next calendar day is one
    more, across month ends, leap days and year ends, for years before and
    after zero. *)
Theorem date_order_key_next d :
  valid_date d -> date_order_key (next_day d) = date_order_key d + 1.
Proof.
  intros (Hy & Hm & Hd). unfold next_day.
  destruct (Z.ltb_spec (day d) (max_day (year d) (month d))) as [Hlt|Hge].
  - rewrite !date_order_key_civil by (simpl; lia). unfold civil_year, civil_month. simpl. lia.
  - assert (day d = max_day (year d) (month d)) as Hmax by lia. clear Hge Hd.
    pose proof (year_length (year d - 1)) as Hl. rewrite Z.sub_add in Hl.
    assert (month d = 1 \/ month d = 2 \/ month d = 3 \/ month d = 4 \/ month d = 5 \/ month d = 6 \/
      month d = 7 \/ month d = 8 \/ month d = 9 \/ month d = 10 \/ month d = 11 \/ month d = 12) as Hc by lia.
    destruct (month d <? 12) eqn:E12; rewrite !date_order_key_civil by (simpl; lia);
      unfold civil_year, civil_month; simpl year; simpl month; simpl day; rewrite Hmax;
      repeat destruct Hc as [Hc|Hc]; rewrite Hc in *; try discriminate E12;
      unfold max_day, month_days; simpl;
      rewrite ?Z.add_simpl_r, ?Z.sub_0_r; try (Z.div_mod_to_equations; lia).
    change ((153 * (2 + 1 + -3) + 2) / 5) with 0. change ((153 * (2 + 9) + 2) / 5) with 337.
    destruct (leap_year (year d)); lia.
Qed.

Lemma date_order_key_next_witness :
  date_order_key (mk_date 2024 3 1) = date_order_key (mk_date 2024 2 29) + 1.
Proof.
  apply (date_order_key_next (mk_date 2024 2 29)).
  unfold valid_date. simpl. change (max_day 2024 2) with 29.
  unfold MIN_CANONICAL_YEAR, MAX_CANONICAL_YEAR. lia.
Defined.

(** The derived [Ord] of times and date-times. *)
#[global] Instance Ord_CanonicalTime : Ord CanonicalTime :=
  ord_by (fun t => (hour t, (minute t, (second t, nanosecond t)))).
#[global] Instance Ord_CanonicalDateTime : Ord CanonicalDateTime :=
  ord_by (fun v => (dt_date v, dt_time v)).

Definition day_nanoseconds (t : CanonicalTime) : Z :=
  hour t * 3600000000000 + minute t * 60000000000 + second t * 1000000000 + nanosecond t.

Lemma day_nanoseconds_cmp t u :
  valid_time t -> valid_time u -> cmp t u = (day_nanoseconds t ?= day_nanoseconds u).
Proof.
  intros (? & ? & ? & ?) (? & ? & ? & ?). unfold day_nanoseconds.
  change (cmp t u) with (then_cmp (hour t ?= hour u) (then_cmp (minute t ?= minute u)
    (then_cmp (second t ?= second u) (nanosecond t ?= nanosecond u)))).
  destruct (Z.compare_spec (hour t) (hour u)), (Z.compare_spec (minute t) (minute u)),
    (Z.compare_spec (second t) (second u)), (Z.compare_spec (nanosecond t) (nanosecond u)); simpl;
    symmetry; rewrite ?Z.compare_eq_iff, ?Z.compare_lt_iff, ?Z.compare_gt_iff; lia.
Qed.

Lemma day_nanoseconds_range t : valid_time t -> 0 <= day_nanoseconds t < 86400000000000.
Proof. intros (? & ? & ? & ?). unfold day_nanoseconds. lia. Qed.

(** The UTC instant of a zoned value, with its effective offset added back,
    orders values exactly as their local date-times compare component by
    component; so at one offset the instants order as the local times do. *)
Theorem utc_instant_order v w :
  valid_tz v -> valid_tz w ->
  (semantic_utc_nanoseconds v + effective_offset_seconds v * 1000000000
   ?= semantic_utc_nanoseconds w + effective_offset_seconds w * 1000000000)
  = cmp (local v) (local w).
Proof.
  intros [[Hd Ht] _] [[Hd' Ht'] _]. unfold semantic_utc_nanoseconds.
  pose proof (day_nanoseconds_range _ Ht) as R. pose proof (day_nanoseconds_range _ Ht') as R'.
  change (cmp (local v) (local w)) with
    (then_cmp (cmp (dt_date (local v)) (dt_date (local w))) (cmp (dt_time (local v)) (dt_time (local w)))).
  rewrite <- date_order_key_cmp, day_nanoseconds_cmp by done.
  destruct (Z.compare_spec (date_order_key (dt_date (local v))) (date_order_key (dt_date (local w)))),
    (Z.compare_spec (day_nanoseconds (dt_time (local v))) (day_nanoseconds (dt_time (local w)))); simpl;
    rewrite ?Z.compare_eq_iff, ?Z.compare_lt_iff, ?Z.compare_gt_iff; unfold day_nanoseconds in *; lia.
Qed.

Lemma utc_instant_order_witness :
  let noon := mk_date_time (mk_date 2024 2 29) (mk_time 12 0 0 0) in
  let one := mk_date_time (mk_date 2024 3 1) (mk_time 1 0 0 0) in
  cmp noon one = Lt.
Proof.
  assert (valid_date_time (mk_date_time (mk_date 2024 2 29) (mk_time 12 0 0 0))) as H1
    by (split; [split_and!; simpl; try lia; by vm_compute|split_and!; simpl; lia]).
  assert (valid_date_time (mk_date_time (mk_date 2024 3 1) (mk_time 1 0 0 0))) as H2
    by (split; [split_and!; simpl; try lia; by vm_compute|split_and!; simpl; lia]).
  etransitivity; [symmetry|reflexivity].
  exact (utc_instant_order (date_time_tz _ Utc 0) (date_time_tz _ Utc 0) (conj H1 eq_refl) (conj H2 eq_refl)).
Defined.

(** *** Counting days *)

(** The last valid date has no next day; every other one has a valid one. *)
Lemma next_day_valid d e : valid_date d -> valid_date e -> cmp d e = Lt -> valid_date (next_day d).
Proof.
  intros (Hy & Hm & Hd) (Hy' & Hm' & Hd') H. pose proof (max_day_range (year e) (month e)) as [R _].
  assert (1 <= max_day (year d) (month d + 1) \/ month d = 12) as Hnext.
  { assert (month d + 1 = 2 \/ month d + 1 = 3 \/ month d + 1 = 4 \/ month d + 1 = 5 \/ month d + 1 = 6 \/ month d + 1 = 7 \/
      month d + 1 = 8 \/ month d + 1 = 9 \/ month d + 1 = 10 \/ month d + 1 = 11 \/ month d + 1 = 12 \/ month d = 12) as Hc by lia.
    repeat destruct Hc as [Hc|Hc]; rewrite ?Hc; unfold max_day; simpl; try (left; lia); [destruct (leap_year _); left; lia|by right]. }
  unfold next_day. destruct (Z.ltb_spec (day d) (max_day (year d) (month d))); [unfold valid_date; simpl; lia|].
  destruct (Z.ltb_spec (month d) 12); [unfold valid_date; simpl; lia|].
  assert (month d = 12) as E by lia. rewrite E in *. change (max_day (year d) 12) with 31 in *.
  change (cmp d e) with (cmp (components d) (components e)) in H. unfold components in H. rewrite cmp_triple, E in H.
  unfold valid_date. simpl year. simpl month. simpl day. change (max_day (year d + 1) 1) with 31.
  destruct (Z.compare_spec (year d) (year e)); cbn [then_cmp] in H; [|lia|discriminate].
  destruct (Z.compare_spec 12 (month e)); cbn [then_cmp] in H; [|lia|discriminate]. rewrite Z.compare_lt_iff in H. lia.
Qed.

Lemma date_order_key_inj d e : valid_date d -> valid_date e -> date_order_key d = date_order_key e -> d = e.
Proof. intros Hd He H. apply cmp_eq_iff. rewrite <- date_order_key_cmp, H by done. apply Z.compare_refl. Qed.

Lemma next_day_walk n : forall d e,
  valid_date d -> valid_date e -> date_order_key e = date_order_key d + Z.of_nat n -> Nat.iter n next_day d = e.
Proof.
  induction n as [|n IH]; intros d e Hd He H; [cbn in *; apply date_order_key_inj; [done|done|lia]|].
  rewrite Nat.iter_succ_r. assert (valid_date (next_day d)) as Hn.
  { apply (next_day_valid d e); [done..|]. rewrite <- date_order_key_cmp by done. apply Z.compare_lt_iff. lia. }
  apply IH; [done..|]. rewrite date_order_key_next by done. lia.
Qed.

(** C33. The UTC instant counts time exactly: between two valid values of which the
    first has no later date, the instants differ by 86400 seconds for every calendar
    day walked from one date to the other, leap days included, plus the difference
    of the times of day, minus that of the offsets. *)
Theorem utc_instant_counts_days v w :
  valid_tz v -> valid_tz w -> cmp (dt_date (local v)) (dt_date (local w)) <> Gt ->
  exists days, Nat.iter days next_day (dt_date (local v)) = dt_date (local w) /\
    semantic_utc_nanoseconds w - semantic_utc_nanoseconds v =
      Z.of_nat days * 86400000000000 + (day_nanoseconds (dt_time (local w)) - day_nanoseconds (dt_time (local v)))
      - (effective_offset_seconds w - effective_offset_seconds v) * 1000000000.
Proof.
  intros [[Hd _] _] [[He _] _] H. rewrite <- date_order_key_cmp, Z.compare_gt_iff in H by done.
  exists (Z.to_nat (date_order_key (dt_date (local w)) - date_order_key (dt_date (local v)))). split.
  - apply next_day_walk; [done..|]. rewrite Z2Nat.id by lia. lia.
  - rewrite Z2Nat.id by lia. unfold semantic_utc_nanoseconds, day_nanoseconds. lia.
Qed.

Lemma utc_instant_counts_days_witness :
  exists days, Nat.iter days next_day (mk_date 2024 2 28) = mk_date 2024 3 1 /\
    semantic_utc_nanoseconds (date_time_tz (mk_date_time (mk_date 2024 3 1) (mk_time 1 0 0 0)) (OffsetSeconds 3600) 3600) -
    semantic_utc_nanoseconds (date_time_tz (mk_date_time (mk_date 2024 2 28) (mk_time 0 0 0 0)) Utc 0) =
      Z.of_nat days * 86400000000000.
Proof.
  destruct (utc_instant_counts_days (date_time_tz (mk_date_time (mk_date 2024 2 28) (mk_time 0 0 0 0)) Utc 0)
    (date_time_tz (mk_date_time (mk_date 2024 3 1) (mk_time 1 0 0 0)) (OffsetSeconds 3600) 3600)) as (days & Hw & Hd).
  - split; [split; split_and!; simpl; try lia; by vm_compute|simpl; lia].
  - split; [split; split_and!; simpl; try lia; by vm_compute|simpl; lia].
  - vm_compute. discriminate.
  - exists days. split; [exact Hw|]. rewrite Hd. unfold day_nanoseconds. cbn [hour minute second nanosecond dt_time local effective_offset_seconds]. lia.
Defined.

End Temporal.
