(* ===== verification/Value.v ===== *)
(** * Canonical scalar values (contract/src/value.rs, semantic_profile.rs, and
    the value sets and ranges of contract/src/schema.rs)

    A double is its 64 bits; its exact value is an integer once scaled by 2^1074,
    which is how [f64] comparison is modelled. A call to [expect] that the code
    relies on never to fail is an outer [option] of the result, [None] standing
    for the panic. *)

From S2P Require Import Prelude BTree Text Decimal Temporal Ident.
Import Decimal Temporal Ident.
#[local] Open Scope Z_scope.

Module Value.

Definition MAX_CANONICAL_STRING_BYTES : Z := 1024 * 1024.
Definition MAX_CANONICAL_COLLECTION_LEN : Z := 65536.

Definition invalid_scalar : Diagnostic := invalid "invalid_canonical_scalar".

Definition CanonicalString_new (value : str) : result Diagnostic str :=
  if MAX_CANONICAL_STRING_BYTES <? Z.of_nat (length value)
  then Err (stable ResourceLimit "canonical_string_limit_exceeded")
  else Ok value.

(** ** Doubles by their bits *)

Definition exponent (bits : Z) : Z := bits / 2 ^ 52 mod 2 ^ 11.
Definition mantissa (bits : Z) : Z := bits mod 2 ^ 52.
Definition is_finite (bits : Z) : bool := negb (exponent bits =? 2047).

Definition from_bits (bits : Z) : result Diagnostic Z :=
  if is_finite bits then Ok bits else Err invalid_scalar.

Definition bits_hex (bits : Z) : str := hex_show 16 bits.

(** The exact value of a finite double, scaled by 2^1074. *)
Definition double_value (bits : Z) : Z :=
  (if bits <? 2 ^ 63 then 1 else -1)
  * (if exponent bits =? 0 then mantissa bits
     else (2 ^ 52 + mantissa bits) * 2 ^ (exponent bits - 1)).

(** ** Decimals *)

Definition DecimalValue_new (value : str) : result Diagnostic str :=
  match parse_decimal value with
  | Some d => Ok (canonical_string d)
  | None => Err invalid_scalar
  end.

(** ** Values *)

Inductive ValueTypeTag : Set :=
| TString | TLong | TDouble | TBoolean | TDate | TDateTime | TDateTimeTz | TDecimal | TDuration.

#[global] Instance ValueTypeTag_eq_dec : EqDecision ValueTypeTag.
Proof. solve_decision. Defined.

Inductive CanonicalValue : Set :=
| StringValue (value : str)
| LongValue (value : Z)
| DoubleValue (bits : Z)
| BooleanValue (value : bool)
| DateValue (value : CanonicalDate)
| DateTimeValue (value : CanonicalDateTime)
| DateTimeTzValue (value : CanonicalDateTimeTz)
| DecimalValue (value : str)
| DurationValue (value : CanonicalDuration).

Definition value_type (v : CanonicalValue) : ValueTypeTag :=
  match v with
  | StringValue _ => TString
  | LongValue _ => TLong
  | DoubleValue _ => TDouble
  | BooleanValue _ => TBoolean
  | DateValue _ => TDate
  | DateTimeValue _ => TDateTime
  | DateTimeTzValue _ => TDateTimeTz
  | DecimalValue _ => TDecimal
  | DurationValue _ => TDuration
  end.

(** The outer [None] is the panic of [expect] on a stored decimal. *)
Definition semantic_cmp_same_domain (self other : CanonicalValue) : option (option comparison) :=
  match self, other with
  | StringValue l, StringValue r => Some (Some (cmp l r))
  | LongValue l, LongValue r => Some (Some (l ?= r))
  | DoubleValue l, DoubleValue r => Some (Some (double_value l ?= double_value r))
  | BooleanValue l, BooleanValue r => Some (Some (cmp l r))
  | DateValue l, DateValue r => Some (Some (cmp l r))
  | DateTimeValue l, DateTimeValue r => Some (Some (cmp l r))
  | DateTimeTzValue l, DateTimeTzValue r =>
      Some (Some (semantic_utc_nanoseconds l ?= semantic_utc_nanoseconds r))
  | DecimalValue l, DecimalValue r =>
      match parse_decimal l, parse_decimal r with
      | Some l, Some r => Some (Some (compare l r))
      | _, _ => None
      end
  | _, _ => Some None
  end.

(** ** Representation order *)

#[global] Instance Ord_TimeZoneDesignator : Ord TimeZoneDesignator :=
  ord_by (fun z => match z with Utc => inl tt | OffsetSeconds s => inr (inl s) | Named n => inr (inr n) end).
#[global] Instance OrdLaws_TimeZoneDesignator : OrdLaws TimeZoneDesignator.
Proof. apply ord_by_laws. intros [] []; congruence. Qed.

#[global] Instance OrdLaws_CanonicalTime : OrdLaws CanonicalTime.
Proof. apply ord_by_laws. intros [] []; simpl; congruence. Qed.
#[global] Instance OrdLaws_CanonicalDateTime : OrdLaws CanonicalDateTime.
Proof. apply ord_by_laws. intros [] []; simpl; congruence. Qed.

#[global] Instance Ord_CanonicalDateTimeTz : Ord CanonicalDateTimeTz :=
  ord_by (fun v => (local v, (zone v, effective_offset_seconds v))).
#[global] Instance OrdLaws_CanonicalDateTimeTz : OrdLaws CanonicalDateTimeTz.
Proof. apply ord_by_laws. intros [] []; simpl; congruence. Qed.

#[global] Instance Ord_CanonicalDuration : Ord CanonicalDuration :=
  ord_by (fun v => (dur_negative v, (months v, (days v, (seconds v, dur_nanosecond v))))).
#[global] Instance OrdLaws_CanonicalDuration : OrdLaws CanonicalDuration.
Proof. apply ord_by_laws. intros [] []; simpl; congruence. Qed.

(** The derived [Ord]: constructors in order, then payloads. *)
Definition value_key (v : CanonicalValue) :
    str + (Z + (Z + (bool + (CanonicalDate + (CanonicalDateTime + (CanonicalDateTimeTz
    + (str + CanonicalDuration))))))) :=
  match v with
  | StringValue v => inl v
  | LongValue v => inr (inl v)
  | DoubleValue v => inr (inr (inl v))
  | BooleanValue v => inr (inr (inr (inl v)))
  | DateValue v => inr (inr (inr (inr (inl v))))
  | DateTimeValue v => inr (inr (inr (inr (inr (inl v)))))
  | DateTimeTzValue v => inr (inr (inr (inr (inr (inr (inl v))))))
  | DecimalValue v => inr (inr (inr (inr (inr (inr (inr (inl v)))))))
  | DurationValue v => inr (inr (inr (inr (inr (inr (inr (inr v)))))))
  end.

#[global] Instance Ord_CanonicalValue : Ord CanonicalValue := ord_by value_key.
#[global] Instance OrdLaws_CanonicalValue : OrdLaws CanonicalValue.
Proof. apply ord_by_laws. intros [] []; simpl; congruence. Qed.
#[global] Instance CanonicalValue_eq_dec : EqDecision CanonicalValue := ord_eq_dec.

(** ** Cardinalities *)

Record Cardinality : Set := cardinality { card_min : Z; card_max : option Z }.

#[global] Instance Cardinality_eq_dec : EqDecision Cardinality.
Proof. solve_decision. Defined.

Definition Cardinality_new (min : Z) (max : option Z) : result Diagnostic Cardinality :=
  if match max with Some max => (max <? min) || (max =? 0) | None => false end
  then Err (invalid "invalid_cardinality")
  else Ok (cardinality min max).

(** The wire form: decimal text, [unbounded] for no maximum. *)
Record CardinalityWire : Set := cardinality_wire { wire_min : str; wire_max : str }.

Definition Cardinality_serialize (c : Cardinality) : CardinalityWire :=
  cardinality_wire (dshow (card_min c))
    (match card_max c with Some max => dshow max | None => b#"unbounded" end).

(** [parse] followed by the check that the text is the one [to_string] prints. *)
Definition parse_canonical_u64 (s : str) : option Z :=
  match parse_uint u64_max s with
  | Some n => if str_eqb (dshow n) s then Some n else None
  | None => None
  end.

Definition Cardinality_deserialize (w : CardinalityWire) : option Cardinality :=
  match parse_canonical_u64 (wire_min w) with
  | None => None
  | Some min =>
      match (if str_eqb (wire_max w) b#"unbounded" then Some None
             else match parse_canonical_u64 (wire_max w) with
                  | Some max => Some (Some max)
                  | None => None
                  end) with
      | None => None
      | Some max => match Cardinality_new min max with Ok c => Some c | Err _ => None end
      end
  end.

(** ** Wire form of values *)

Inductive TimeZoneWire : Set :=
| WireUtc | WireOffsetSeconds (seconds : Z) | WireNamed (name : str).

Inductive ValueWire : Set :=
| WireString (value : str)
| WireLong (value : str)
| WireDouble (bits : str)
| WireBoolean (value : bool)
| WireDate (value : str)
| WireDateTime (value : str)
| WireDateTimeTz (local : str) (zone : TimeZoneWire) (effective_offset_seconds : Z)
| WireDecimal (value : str)
| WireDuration (value : str).

Definition serialize (v : CanonicalValue) : ValueWire :=
  match v with
  | StringValue v => WireString v
  | LongValue v => WireLong (ishow v)
  | DoubleValue v => WireDouble (bits_hex v)
  | BooleanValue v => WireBoolean v
  | DateValue v => WireDate (Date_to_string v)
  | DateTimeValue v => WireDateTime (DateTime_to_string v)
  | DateTimeTzValue v =>
      WireDateTimeTz (DateTime_to_string (local v))
        (match zone v with
         | Utc => WireUtc
         | OffsetSeconds s => WireOffsetSeconds s
         | Named n => WireNamed n
         end)
        (effective_offset_seconds v)
  | DecimalValue v => WireDecimal v
  | DurationValue v => WireDuration (Duration_to_string v)
  end.

Definition ok {E A} (r : result E A) : option A :=
  match r with Ok a => Some a | Err _ => None end.

Definition deserialize_tz (l : str) (z : TimeZoneWire) (offset : Z) : option CanonicalDateTimeTz :=
  match ok (DateTime_from_str l) with
  | None => None
  | Some l =>
      match z with
      | WireUtc => if offset =? 0 then ok (new_fixed l Utc) else None
      | WireOffsetSeconds s => if offset =? s then ok (new_fixed l (OffsetSeconds s)) else None
      | WireNamed name => ok (new_named_resolved l name offset)
      end
  end.

Definition deserialize (w : ValueWire) : option CanonicalValue :=
  match w with
  | WireString v => option_map StringValue (ok (CanonicalString_new v))
  | WireBoolean v => Some (BooleanValue v)
  | WireDate v => option_map DateValue (ok (Date_from_str v))
  | WireDateTime v => option_map DateTimeValue (ok (DateTime_from_str v))
  | WireDateTimeTz l z o => option_map DateTimeTzValue (deserialize_tz l z o)
  | WireDecimal v => option_map DecimalValue (ok (DecimalValue_new v))
  | WireDuration v => option_map DurationValue (ok (Duration_from_str v))
  | WireLong v =>
      match parse_int i64_min i64_max v with
      | Some parsed => if str_eqb (ishow parsed) v then Some (LongValue parsed) else None
      | None => None
      end
  | WireDouble bits =>
      if negb (length bits =? 16)%nat || existsb (fun b => negb (is_lower_hex b)) bits then None
      else option_map DoubleValue (ok (from_bits (hex_parse bits)))
  end.

(** ** Value sets and ranges *)

Inductive CanonicalValueSetViolation : Set :=
| SetEmpty
| MemberLimitExceeded (maximum : Z) (first_excess_index : nat)
| SetMixedDomain (expected actual : ValueTypeTag) (member_index : nat)
| Duplicate (first_index duplicate_index : nat).

Definition CanonicalValueSet : Set := BTreeSet CanonicalValue.

(** The [for] loop: positions by value and the domain of the first member. *)
Fixpoint value_set_loop (values : list CanonicalValue) (member_index : nat)
    (positions : BTreeMap CanonicalValue nat) (domain : option ValueTypeTag)
    : result CanonicalValueSetViolation (BTreeMap CanonicalValue nat) :=
  match values with
  | [] => Ok positions
  | value :: rest =>
      if MAX_CANONICAL_COLLECTION_LEN <=? Z.of_nat member_index
      then Err (MemberLimitExceeded MAX_CANONICAL_COLLECTION_LEN member_index)
      else
        let? domain :=
          match domain with
          | Some expected =>
              if bool_decide (expected = value_type value) then Ok domain
              else Err (SetMixedDomain expected (value_type value) member_index)
          | None => Ok (Some (value_type value))
          end in
        match mget value positions with
        | Some first_index => Err (Duplicate first_index member_index)
        | None => value_set_loop rest (S member_index) (mins value member_index positions) domain
        end
  end.

Definition CanonicalValueSet_new (values : list CanonicalValue)
    : result CanonicalValueSetViolation CanonicalValueSet :=
  let? positions := value_set_loop values 0 [] None in
  match positions with
  | [] => Err SetEmpty
  | _ => Ok (mkeys positions)
  end.

Record CanonicalValueRange : Set :=
  value_range { lower : option CanonicalValue; upper : option CanonicalValue }.

Inductive CanonicalValueRangeViolation : Set :=
| RangeEmpty
| RangeMixedDomain (lower upper : ValueTypeTag)
| UnsupportedDomain (domain : ValueTypeTag)
| InvalidBounds (ordering : comparison).

Definition CanonicalValueRange_new (lower upper : option CanonicalValue)
    : option (result CanonicalValueRangeViolation CanonicalValueRange) :=
  match lower, upper with
  | None, None => Some (Err RangeEmpty)
  | Some l, Some u =>
      if negb (bool_decide (value_type l = value_type u))
      then Some (Err (RangeMixedDomain (value_type l) (value_type u)))
      else if bool_decide (value_type l = TDuration) then Some (Err (UnsupportedDomain TDuration))
      else match semantic_cmp_same_domain l u with
           | Some (Some Lt) => Some (Ok (value_range lower upper))
           | Some (Some ordering) => Some (Err (InvalidBounds ordering))
           | _ => None
           end
  | Some v, None | None, Some v =>
      if bool_decide (value_type v = TDuration) then Some (Err (UnsupportedDomain TDuration))
      else Some (Ok (value_range lower upper))
  end.

(** ** Semantic profiles (contract/src/semantic_profile.rs) *)

Inductive InterfaceKind : Set := IOwns | IRelates | IPlays.

Record SemanticProfile : Set := semantic_profile {
  profile_id : str;
  owns_cardinality : Cardinality;
  relates_cardinality : Cardinality;
  plays_cardinality : Cardinality;
  key_owns_cardinality : Cardinality }.

Definition SemanticProfile_resolve (id : str) : result Diagnostic SemanticProfile :=
  if smem id [b#"typedb-3.11.5/v1"; b#"typedb-3.12.1/v1"; b#"typedb-3.13.6/v1"]
  then
    let? bounded_to_one := Cardinality_new 0 (Some 1) in
    let? unconstrained := Cardinality_new 0 None in
    let? exactly_one := Cardinality_new 1 (Some 1) in
    Ok (semantic_profile id bounded_to_one bounded_to_one unconstrained exactly_one)
  else Err (stable UnsupportedCapability "unsupported_semantic_profile").

Definition default_cardinality (self : SemanticProfile) (kind : InterfaceKind) : Cardinality :=
  match kind with
  | IOwns => owns_cardinality self
  | IRelates => relates_cardinality self
  | IPlays => plays_cardinality self
  end.

Definition effective_cardinality (self : SemanticProfile) (kind : InterfaceKind)
    (explicit : option Cardinality) (key : bool) : Cardinality :=
  match kind, key, explicit with
  | IOwns, true, _ => key_owns_cardinality self
  | _, _, Some explicit => explicit
  | _, _, _ => default_cardinality self kind
  end.

(** ** Validity and semantic keys *)

Definition valid_decimal (s : str) : Prop :=
  exists d, parse_decimal s = Some d /\ canonical_string d = s.

(** The values the constructors of the crate can produce. *)
Definition valid_value (v : CanonicalValue) : Prop :=
  match v with
  | StringValue s => Z.of_nat (length s) <= MAX_CANONICAL_STRING_BYTES
  | LongValue z => i64_min <= z <= i64_max
  | DoubleValue b => 0 <= b <= u64_max /\ is_finite b = true
  | BooleanValue _ => True
  | DateValue d => valid_date d
  | DateTimeValue v => valid_date_time v
  | DateTimeTzValue v => valid_tz v
  | DecimalValue s => valid_decimal s
  | DurationValue v => valid_duration v
  end.

(** A key in a totally ordered set: bytes, instants and exact numbers. *)
Definition semantic_key (v : CanonicalValue) : list Z :=
  match v with
  | StringValue s => map code s
  | LongValue z => [z]
  | DoubleValue b => [double_value b]
  | BooleanValue b => [if b then 1 else 0]
  | DateValue d => [date_order_key d]
  | DateTimeValue v => [date_order_key (dt_date v) * 86400000000000 + day_nanoseconds (dt_time v)]
  | DateTimeTzValue v => [semantic_utc_nanoseconds v]
  | DecimalValue s => match parse_decimal s with Some d => [Decimal.value d] | None => [] end
  | DurationValue _ => []
  end.

(** The domains with a provider order. *)
Definition ordered_domain (t : ValueTypeTag) : bool := negb (bool_decide (t = TDuration)).

Lemma list_cmp_codes (s t : str) : cmp (map code s) (map code t) = cmp s t.
Proof.
  revert t. induction s as [|c s IH]; intros [|d t]; try done.
  change (cmp (map code (c :: s)) (map code (d :: t)))
    with (then_cmp (code c ?= code d) (cmp (map code s) (map code t))).
  rewrite IH. done.
Qed.

Lemma cmp_single (a b : Z) : cmp [a] [b] = (a ?= b).
Proof. unfold cmp, Ord_list. simpl. unfold cmp, Ord_Z. by destruct (a ?= b). Qed.

Lemma date_time_cmp v w :
  valid_date_time v -> valid_date_time w ->
  cmp v w = (date_order_key (dt_date v) * 86400000000000 + day_nanoseconds (dt_time v)
             ?= date_order_key (dt_date w) * 86400000000000 + day_nanoseconds (dt_time w)).
Proof.
  intros [Hd Ht] [Hd' Ht']. pose proof (day_nanoseconds_range _ Ht). pose proof (day_nanoseconds_range _ Ht').
  change (cmp v w) with (then_cmp (cmp (dt_date v) (dt_date w)) (cmp (dt_time v) (dt_time w))).
  rewrite <- date_order_key_cmp, day_nanoseconds_cmp by done. symmetry.
  destruct (Z.compare_spec (date_order_key (dt_date v)) (date_order_key (dt_date w))),
    (Z.compare_spec (day_nanoseconds (dt_time v)) (day_nanoseconds (dt_time w))); simpl;
    rewrite ?Z.compare_eq_iff, ?Z.compare_lt_iff, ?Z.compare_gt_iff; lia.
Qed.

Lemma semantic_cmp_key v w :
  valid_value v -> valid_value w ->
  semantic_cmp_same_domain v w =
  Some (if bool_decide (value_type v = value_type w) && ordered_domain (value_type v)
        then Some (cmp (semantic_key v) (semantic_key w)) else None).
Proof.
  intros Hv Hw.
  destruct v as [s|z|b|b|d|d|d|s|d], w as [s'|z'|b'|b'|d'|d'|d'|s'|d']; try reflexivity;
    cbn [semantic_cmp_same_domain value_type semantic_key ordered_domain];
    rewrite bool_decide_eq_true_2 by done; cbn [andb negb ordered_domain];
    unfold ordered_domain; rewrite bool_decide_eq_false_2 by done; cbn [negb].
  - by rewrite list_cmp_codes.
  - by rewrite cmp_single.
  - by rewrite cmp_single.
  - rewrite cmp_single. by destruct b, b'.
  - by rewrite cmp_single, date_order_key_cmp.
  - by rewrite cmp_single, <- date_time_cmp.
  - by rewrite cmp_single.
  - destruct Hv as (e & E & _), Hw as (e' & E' & _). rewrite E, E', cmp_single, compare_value;
      [done|apply parse_decimal_Some in E; tauto|apply parse_decimal_Some in E'; tauto].
Qed.

(** ** Value sets *)

Definition dom_ok (dom : option ValueTypeTag) (values : list CanonicalValue) : Prop :=
  match dom with
  | Some t => forall v, v ∈ values -> value_type v = t
  | None => forall v w, v ∈ values -> w ∈ values -> value_type v = value_type w
  end.

Definition loop_ok (values : list CanonicalValue) (i : nat) (pos : BTreeMap CanonicalValue nat)
    (dom : option ValueTypeTag) : Prop :=
  (values <> [] -> Z.of_nat (i + length values) <= MAX_CANONICAL_COLLECTION_LEN) /\
  NoDup values /\ (forall v, v ∈ values -> v ∉ mkeys pos) /\ dom_ok dom values.

Lemma dom_ok_cons dom v rest :
  dom_ok dom (v :: rest) <->
  match dom with Some t => t = value_type v | None => True end /\ dom_ok (Some (value_type v)) rest.
Proof.
  unfold dom_ok. destruct dom as [t|].
  - split; [|set_solver]. intros H. assert (value_type v = t) as Hv by (apply H; set_solver).
    split; [done|]. intros w Hw. rewrite Hv. apply H. set_solver.
  - split.
    + intros H. split; [done|]. intros w Hw. apply H; set_solver.
    + intros [_ H] x y [->|Hx]%elem_of_cons [->|Hy]%elem_of_cons; [done|..].
      * symmetry. auto.
      * auto.
      * rewrite (H x Hx), (H y Hy). done.
Qed.

Lemma value_set_loop_spec values i pos dom :
  msorted pos -> (dom = None -> pos = []) ->
  match value_set_loop values i pos dom with
  | Ok pos' => loop_ok values i pos dom /\ msorted pos' /\
               forall k, k ∈ mkeys pos' <-> k ∈ mkeys pos \/ k ∈ values
  | Err _ => ~ loop_ok values i pos dom
  end.
Proof.
  revert i pos dom. induction values as [|v rest IH]; intros i pos dom Hs Hdom; simpl.
  - split_and!; [|done|set_solver]. unfold loop_ok. split_and!; [done|constructor|set_solver|].
    destruct dom; set_solver.
  - destruct (Z.leb_spec MAX_CANONICAL_COLLECTION_LEN (Z.of_nat i)) as [Hge|Hlt].
    { intros (Hl & _). specialize (Hl ltac:(done)). simpl in Hl. lia. }
    set (dom' := match dom with Some _ => _ | None => _ end).
    assert (match dom' with
            | Ok d => match dom with Some t => t = value_type v | None => True end /\ d = Some (value_type v)
            | Err _ => ~ match dom with Some t => t = value_type v | None => True end
            end) as Hd'.
    { subst dom'. destruct dom as [t|]; [|done]. case_bool_decide as E; [by subst|done]. }
    destruct dom' as [d|]; [|intros (_ & _ & _ & H%dom_ok_cons); tauto]. destruct Hd' as [Hd' ->].
    destruct (mget v pos) as [j|] eqn:Ej.
    { intros (_ & _ & Hn & _). apply (Hn v); [set_solver|]. apply mget_elem. eauto. }
    assert (v ∉ mkeys pos) as Hv by by apply mget_None.
    specialize (IH (S i) (mins v i pos) (Some (value_type v)) (mins_sorted _ _ _ Hs) ltac:(done)).
    assert (forall k, k ∈ mkeys (mins v i pos) <-> k = v \/ k ∈ mkeys pos) as Hk.
    { intros k. unfold mkeys. rewrite mkeys_mins by done. apply elem_sins. }
    assert (loop_ok rest (S i) (mins v i pos) (Some (value_type v)) <-> loop_ok (v :: rest) i pos dom) as Hiff.
    { unfold loop_ok. rewrite NoDup_cons, dom_ok_cons. setoid_rewrite Hk. simpl length. split.
      - intros (H1 & H2 & H3 & H4). split_and!; try done.
        + intros _. destruct rest; simpl in *; [lia|]. specialize (H1 ltac:(done)). lia.
        + intros Hin. apply (H3 v Hin). auto.
        + intros w [->|Hw]%elem_of_cons; [done|]. intros Hin. apply (H3 w Hw). auto.
      - intros (H1 & [H2 H2'] & H3 & _ & H4). split_and!; try done.
        + intros _. specialize (H1 ltac:(done)). lia.
        + intros w Hw [->|Hin]; [done|]. apply (H3 w); set_solver. }
    destruct (value_set_loop rest _ _ _) as [pos'|].
    + destruct IH as (H1 & H2 & H3). split_and!; [by apply Hiff|done|].
      intros k. rewrite H3, Hk, elem_of_cons. tauto.
    + by rewrite <- Hiff.
Qed.

(** ** The properties of the component *)

(** For values the crate can construct, [semantic_cmp_same_domain] never
    reaches its [expect] and compares by a key in one total order per domain:
    byte order for strings, exact numeric value for integers, doubles and
    decimals, instants for the temporal domains. It answers [None] exactly for
    different domains and for durations. *)
Theorem semantic_cmp_total v w :
  valid_value v -> valid_value w ->
  semantic_cmp_same_domain v w =
  Some (if bool_decide (value_type v = value_type w) && ordered_domain (value_type v)
        then Some (cmp (semantic_key v) (semantic_key w)) else None).
Proof. apply semantic_cmp_key. Qed.

Lemma semantic_cmp_total_witness :
  semantic_cmp_same_domain (DecimalValue b#"2") (DecimalValue b#"10") = Some (Some Lt).
Proof.
  rewrite (semantic_cmp_total (DecimalValue b#"2") (DecimalValue b#"10")).
  - reflexivity.
  - exists (mk false b#"2" []). done.
  - exists (mk false b#"10" []). done.
Defined.

(** A value set is accepted exactly when it is not empty, has at most
    65,536 members of one scalar domain and no duplicate; it then holds
    exactly its members, in canonical order. *)
Theorem value_set_new_iff values set :
  CanonicalValueSet_new values = Ok set <->
  values <> [] /\ Z.of_nat (length values) <= MAX_CANONICAL_COLLECTION_LEN /\ NoDup values /\
  (forall v w, v ∈ values -> w ∈ values -> value_type v = value_type w) /\ set = sof values.
Proof.
  unfold CanonicalValueSet_new.
  pose proof (value_set_loop_spec values 0 [] None ltac:(constructor) ltac:(done)) as H.
  destruct (value_set_loop values 0 [] None) as [pos|e]; unfold loop_ok, dom_ok in H; cbn [length Nat.add] in H.
  - destruct H as ((Hl & Hn & _ & Hd) & Hs & Hk).
    assert (mkeys pos = sof values) as <-.
    { apply ssorted_ext; [done|apply sof_sorted|]. intros k. rewrite Hk, elem_sof. set_solver. }
    destruct pos as [|[k i] pos].
    + split; [done|]. intros (Hne & _). exfalso. destruct values as [|v values]; [done|].
      assert (v ∈ @mkeys CanonicalValue nat []) as Hin by (apply Hk; set_solver). set_solver.
    + split; [|by intros (_ & _ & _ & _ & ->)]. intros [= <-].
      assert (values <> []) as Hne.
      { intros ->. assert (k ∈ mkeys ((k, i) :: pos)) as Hin by (simpl; set_solver).
        apply Hk in Hin. set_solver. }
      split_and!; [done|by apply Hl|done..].
  - split; [done|]. intros (Hne & Hl & Hn & Hd & _). exfalso. apply H.
    split_and!; [done|done|set_solver|done].
Qed.

(** For bounds the crate can construct, building a range never reaches its
    [expect]; it is accepted exactly when a bound is present, both bounds are of
    one ordered domain, and the lower bound is strictly below the upper one. *)
Theorem value_range_new_iff l u :
  (forall v, l = Some v -> valid_value v) -> (forall v, u = Some v -> valid_value v) ->
  exists r, CanonicalValueRange_new l u = Some r /\
  (r = Ok (value_range l u) <->
   (l <> None \/ u <> None) /\
   (forall v, l = Some v \/ u = Some v -> value_type v <> TDuration) /\
   (forall v w, l = Some v -> u = Some w ->
      value_type v = value_type w /\ cmp (semantic_key v) (semantic_key w) = Lt)).
Proof.
  intros Hl Hu. unfold CanonicalValueRange_new. destruct l as [v|], u as [w|].
  - specialize (Hl v eq_refl). specialize (Hu w eq_refl). rewrite semantic_cmp_key by done.
    case_bool_decide as Et; cbn [negb].
    2:{ eexists. split; [done|]. split; [done|]. intros (_ & _ & H). by destruct (H v w). }
    unfold ordered_domain. case_bool_decide as Ed; cbn [negb andb].
    { eexists. split; [done|]. split; [done|]. intros (_ & H & _). destruct (H v); auto. }
    destruct (cmp (semantic_key v) (semantic_key w)) eqn:Ec; eexists; (split; [done|]); split; try done.
    + intros (_ & _ & H). destruct (H v w); congruence.
    + intros _. split_and!; [auto|naive_solver congruence|naive_solver].
    + intros (_ & _ & H). destruct (H v w); congruence.
  - case_bool_decide as Ed; eexists; (split; [done|]); split; try done; naive_solver.
  - case_bool_decide as Ed; eexists; (split; [done|]); split; try done; naive_solver.
  - eexists. split; [done|]. split; [done|]. naive_solver.
Qed.

Lemma value_range_new_iff_witness :
  exists r, CanonicalValueRange_new (Some (LongValue (-10))) (Some (LongValue 2)) = Some r /\
  (r = Ok (value_range (Some (LongValue (-10))) (Some (LongValue 2))) <->
   (Some (LongValue (-10)) <> None \/ Some (LongValue 2) <> None) /\
   (forall v, Some (LongValue (-10)) = Some v \/ Some (LongValue 2) = Some v -> value_type v <> TDuration) /\
   (forall v w, Some (LongValue (-10)) = Some v -> Some (LongValue 2) = Some w ->
      value_type v = value_type w /\ cmp (semantic_key v) (semantic_key w) = Lt)).
Proof.
  apply (value_range_new_iff (Some (LongValue (-10))) (Some (LongValue 2))).
  - intros v [= <-]. simpl. unfold i64_min, i64_max. lia.
  - intros v [= <-]. simpl. unfold i64_min, i64_max. lia.
Defined.

(** ** Wire forms *)

Lemma parse_canonical_u64_dshow n : 0 <= n <= u64_max -> parse_canonical_u64 (dshow n) = Some n.
Proof.
  intros Hn. destruct (dshow_spec n) as [Hc Hv]; [lia|]. unfold parse_canonical_u64.
  rewrite parse_uint_digits, Hv, str_eqb_refl; [done|by apply canonical_all_digits|by apply canonical_nonempty|lia].
Qed.

Lemma parse_canonical_u64_Some s n : parse_canonical_u64 s = Some n -> 0 <= n <= u64_max /\ dshow n = s.
Proof.
  unfold parse_canonical_u64. destruct (parse_uint _ _) as [k|] eqn:E; [|done].
  destruct (str_eqb _ _) eqn:Es; [|done]. intros [= <-]. apply str_eqb_true in Es.
  by apply parse_uint_range in E.
Qed.

Definition valid_cardinality (c : Cardinality) : Prop :=
  0 <= card_min c <= u64_max /\
  match card_max c with Some max => card_min c <= max <= u64_max /\ max <> 0 | None => True end.

Lemma Cardinality_new_Ok min max c :
  Cardinality_new min max = Ok c <->
  c = cardinality min max /\ match max with Some m => min <= m /\ m <> 0 | None => True end.
Proof.
  unfold Cardinality_new. destruct max as [m|]; [|naive_solver].
  destruct (Z.ltb_spec m min), (Z.eqb_spec m 0); simpl;
    (split; [intros H'; first [discriminate H'|injection H' as <-; split; [done|lia]]
            |intros [-> ?]; (lia || done)]).
Qed.

Lemma dshow_not_unbounded n : 0 <= n -> str_eqb (dshow n) b#"unbounded" = false.
Proof.
  intros Hn. apply oeqb_false. intros E. pose proof (dshow_digits n Hn) as H. rewrite E in H. discriminate H.
Qed.

Lemma ishow_parse z : i64_min <= z <= i64_max -> parse_int i64_min i64_max (ishow z) = Some z.
Proof.
  intros Hz. unfold ishow. destruct (Z.ltb_spec z 0).
  - destruct (dshow_spec (- z)) as [Hc Hv]; [lia|].
    rewrite parse_int_minus; rewrite ?Hv; [f_equal; lia|by apply canonical_all_digits|by apply canonical_nonempty|lia].
  - destruct (dshow_spec z) as [Hc Hv]; [lia|].
    rewrite parse_int_digits; rewrite ?Hv; [done|by apply canonical_all_digits|by apply canonical_nonempty|lia].
Qed.

Lemma parse_int_range mn mx s z : mn <= 0 <= mx -> parse_int mn mx s = Some z -> mn <= z <= mx.
Proof.
  intros Hm H. unfold parse_int in H.
  assert (forall t, parse_uint mx t = Some z -> mn <= z <= mx) as Hu.
  { intros t Ht. apply parse_uint_range in Ht. lia. }
  destruct s as [|c t]; [by apply Hu in H|].
  destruct (decide (c = "-"%char)) as [->|Hne].
  - destruct (_ && _) eqn:E; [|done]. injection H as <-.
    apply andb_true_iff in E as [[_ Hd]%andb_true_iff Hle%Z.leb_le]. pose proof (dval_range _ Hd). lia.
  - apply (Hu (c :: t)). destruct c as [[] [] [] [] [] [] [] []]; try done; by destruct Hne.
Qed.

Lemma DecimalValue_new_Ok s t :
  DecimalValue_new s = Ok t -> valid_decimal t.
Proof.
  unfold DecimalValue_new. destruct (parse_decimal s) as [d|] eqn:E; [|done]. intros [= <-].
  apply parse_decimal_Some in E as [Hc _]. exists d. split; [|done].
  rewrite <- (app_nil_r (canonical_string d)). apply parse_canonical_string; auto.
Qed.

Lemma new_named_Ok l n o v :
  valid_date_time l -> new_named_resolved l n o = Ok v -> valid_tz v /\ v = date_time_tz l (Named n) o.
Proof.
  intros Hl. unfold new_named_resolved. destruct (_ || (86399 <? Z.abs o)) eqn:E; [done|]. intros [= <-].
  apply orb_false_iff in E as [[[E1 E2]%orb_false_iff E3%negb_false_iff]%orb_false_iff E4].
  apply bool_decide_eq_false in E1. apply Nat.ltb_ge in E2. apply Z.ltb_ge in E4. done.
Qed.

Lemma new_named_valid l n o :
  n <> [] -> (length n <= MAX_TIME_ZONE_NAME_BYTES)%nat -> forallb zone_name_byte n = true ->
  Z.abs o <= 86399 -> new_named_resolved l n o = Ok (date_time_tz l (Named n) o).
Proof.
  intros H1 H2 H3 H4. unfold new_named_resolved.
  by rewrite bool_decide_eq_false_2, (proj2 (Nat.ltb_ge _ _)), H3, (proj2 (Z.ltb_ge _ _)) by done.
Qed.

Lemma deserialize_tz_serialize v :
  valid_tz v ->
  deserialize_tz (DateTime_to_string (local v))
    (match zone v with Utc => WireUtc | OffsetSeconds s => WireOffsetSeconds s | Named n => WireNamed n end)
    (effective_offset_seconds v) = Some v.
Proof.
  intros Hv. pose proof Hv as [Hl Hz]. unfold deserialize_tz. rewrite DateTime_roundtrip by done. cbn [ok].
  pose proof (valid_fixed v Hv) as Hf. unfold fixed_zone in Hf. destruct v as [l z o].
  cbn [local zone effective_offset_seconds] in *. destruct z as [|s|n].
  - subst o. done.
  - destruct Hz as (-> & _). rewrite (Hf eq_refl). by rewrite Z.eqb_refl.
  - destruct Hz as (H1 & H2 & H3 & H4). by rewrite new_named_valid.
Qed.

Lemma deserialize_tz_Some l z o v :
  deserialize_tz l z o = Some v -> valid_tz v /\
  WireDateTimeTz (DateTime_to_string (local v))
    (match zone v with Utc => WireUtc | OffsetSeconds s => WireOffsetSeconds s | Named n => WireNamed n end)
    (effective_offset_seconds v) = WireDateTimeTz l z o.
Proof.
  unfold deserialize_tz. destruct (DateTime_from_str l) as [l'|] eqn:El; [|done]. cbn [ok].
  apply DateTime_from_str_Ok in El as [Hl <-]. destruct z as [|s|n].
  - destruct (Z.eqb_spec o 0) as [->|]; [|done]. by intros [= <-].
  - destruct (Z.eqb_spec o s) as [->|]; [|done].
    destruct (new_fixed l' (OffsetSeconds s)) as [w|] eqn:En; [|done]. intros [= <-].
    pose proof En as En'. apply new_fixed_Ok in En as (Hv & _ & Hloc & Hz); [|done]. split; [done|].
    destruct Hv as [_ Hz']. rewrite Hz in *. destruct Hz' as (-> & _). by rewrite Hloc.
  - destruct (new_named_resolved l' n o) as [w|] eqn:En; [|done]. intros [= <-].
    apply new_named_Ok in En as [Hv ->]; done.
Qed.

Lemma bits_hex_guard b :
  0 <= b <= u64_max ->
  negb (length (bits_hex b) =? 16)%nat || existsb (fun b => negb (is_lower_hex b)) (bits_hex b) = false
  /\ hex_parse (bits_hex b) = b.
Proof.
  intros Hb. destruct (hex_show_spec 16 b) as (Hl & Hh & Hp); [unfold u64_max in Hb; simpl; lia|].
  unfold bits_hex. rewrite Hl. split; [|done]. rewrite Nat.eqb_refl. cbn [negb orb].
  apply not_true_iff_false. rewrite existsb_exists. intros (c & Hc & Hn). rewrite forallb_forall in Hh. apply Hh in Hc.
  rewrite Hc in Hn. done.
Qed.

(** C34. Serializing any value and decoding it gives the value back. Decoding
    accepts only values the constructors can produce and, except for decimals,
    whose spelling is normalized on input, only the one canonical wire form. *)
Theorem value_wire_roundtrip v w :
  (valid_value v -> deserialize (serialize v) = Some v) /\
  (deserialize w = Some v -> valid_value v /\ (value_type v <> TDecimal -> serialize v = w)).
Proof.
  split.
  - destruct v as [s|z|b|b|d|d|d|s|d]; cbn [valid_value serialize deserialize]; intros Hv.
    + unfold CanonicalString_new. by rewrite (proj2 (Z.ltb_ge _ _)) by done.
    + by rewrite ishow_parse, str_eqb_refl.
    + destruct Hv as [Hr Hf]. destruct (bits_hex_guard b Hr) as [-> ->]. unfold from_bits. by rewrite Hf.
    + done.
    + by rewrite Date_roundtrip.
    + by rewrite DateTime_roundtrip.
    + by rewrite deserialize_tz_serialize.
    + destruct Hv as (d & E & Es). unfold DecimalValue_new. rewrite E. simpl. by rewrite Es.
    + by rewrite Duration_roundtrip.
  - destruct w as [s|s|s|b|s|s|l z o|s|s]; cbn [deserialize]; intros H.
    + unfold CanonicalString_new in H. destruct (Z.ltb_spec MAX_CANONICAL_STRING_BYTES (Z.of_nat (length s)));
        [done|]. by injection H as <-.
    + destruct (parse_int _ _ s) as [k|] eqn:E; [|done]. destruct (str_eqb _ _) eqn:Es; [|done].
      injection H as <-. apply str_eqb_true in Es. split; [|by intros; simpl; rewrite Es].
      apply parse_int_range in E; [done|]. unfold i64_min, i64_max. lia.
    + destruct (_ || _) eqn:E; [done|]. unfold from_bits in H. destruct (is_finite _) eqn:Ef; [|done].
      injection H as <-. apply orb_false_iff in E as [El%negb_false_iff Eh].
      apply Nat.eqb_eq in El.
      assert (forallb is_lower_hex s = true) as Hh.
      { apply forallb_forall. intros c Hc. destruct (is_lower_hex c) eqn:Ec; [done|]. exfalso.
        apply not_true_iff_false in Eh. apply Eh, existsb_exists. exists c. by rewrite Ec. }
      destruct (hex_parse_spec s Hh) as [Hr Hs]. rewrite El in Hr, Hs. simpl in Hr.
      split; [split; [unfold u64_max; lia|done]|]. intros _. simpl. unfold bits_hex. by rewrite Hs.
    + by injection H as <-.
    + destruct (Date_from_str s) as [d|] eqn:E; [|done]. injection H as <-.
      apply Date_from_str_Ok in E as [Hd <-]. done.
    + destruct (DateTime_from_str s) as [d|] eqn:E; [|done]. injection H as <-.
      apply DateTime_from_str_Ok in E as [Hd <-]. done.
    + destruct (deserialize_tz l z o) as [d|] eqn:E; [|done]. injection H as <-.
      apply deserialize_tz_Some in E as [Hd Hs]. done.
    + destruct (DecimalValue_new s) as [d|] eqn:E; [|done]. injection H as <-.
      apply DecimalValue_new_Ok in E. done.
    + destruct (Duration_from_str s) as [d|] eqn:E; [|done]. injection H as <-.
      apply Duration_from_str_Ok in E as [Hd <-]. done.
Qed.

Lemma value_wire_roundtrip_witness :
  deserialize (serialize (LongValue (-7))) = Some (LongValue (-7)).
Proof.
  apply (value_wire_roundtrip (LongValue (-7)) (WireLong b#"-7")).
  simpl. unfold i64_min, i64_max. lia.
Defined.

(** The wire form of a cardinality decodes exactly when it is the form of
    a cardinality whose maximum is absent, or neither zero nor below the
    minimum. *)
Theorem cardinality_wire_iff w c :
  Cardinality_deserialize w = Some c <-> valid_cardinality c /\ Cardinality_serialize c = w.
Proof.
  unfold Cardinality_deserialize, valid_cardinality. split.
  - destruct (parse_canonical_u64 (wire_min w)) as [mn|] eqn:Emin; [|done].
    apply parse_canonical_u64_Some in Emin as [Hmin Smin].
    destruct (str_eqb (wire_max w) b#"unbounded") eqn:Eu.
    + apply str_eqb_true in Eu. intros [= <-]. simpl. split; [done|]. unfold Cardinality_serialize. simpl.
      destruct w; simpl in *. by subst.
    + destruct (parse_canonical_u64 (wire_max w)) as [mx|] eqn:Emax; [|done].
      apply parse_canonical_u64_Some in Emax as [Hmax Smax].
      destruct (Cardinality_new mn (Some mx)) as [c'|] eqn:Ec; [|done]. intros [= <-].
      apply Cardinality_new_Ok in Ec as [-> [Hle Hne]]. simpl. split; [lia|].
      unfold Cardinality_serialize. simpl. destruct w; simpl in *. by subst.
  - intros [[Hmin Hmax] <-]. unfold Cardinality_serialize. simpl.
    rewrite parse_canonical_u64_dshow by done. destruct c as [mn [mx|]]; simpl in *.
    + rewrite dshow_not_unbounded, parse_canonical_u64_dshow by lia.
      by rewrite (proj2 (Cardinality_new_Ok mn (Some mx) (cardinality mn (Some mx)))) by (split; [done|lia]).
    + done.
Qed.

End Value.
