(* ===== verification/Fingerprint.v ===== *)
(** * Domain-separated fingerprints (contract/src/fingerprint.rs)

    Validated identifiers, the hexadecimal digest codec, and the byte string a
    fingerprint hashes. SHA-256 is third-party code: a function on byte strings,
    about which nothing is assumed. *)

From S2P Require Import Prelude BTree Text Ident.
Import Ident.
#[local] Open Scope Z_scope.

Module Fingerprint.

Definition MAX_FINGERPRINT_IDENTIFIER_BYTES : nat := 255.

(** [str::rsplit_once] at a text pattern. *)
Fixpoint rsplit_once_str (p s : str) : option (str * str) :=
  match s with
  | [] => None
  | c :: t =>
      match rsplit_once_str p t with
      | Some (l, r) => Some (c :: l, r)
      | None => match strip_prefix p s with Some r => Some ([], r) | None => None end
      end
  end.

Definition separator (b : ascii) : bool :=
  oeqb b "."%char || oeqb b "/"%char || oeqb b "_"%char || oeqb b "-"%char.

Definition name_byte (b : ascii) : bool := is_ascii_lowercase b || is_ascii_digit b || separator b.

Definition starts_with_separator (s : str) : bool :=
  match s with [] => false | b :: _ => separator b end.
Definition ends_with_separator (s : str) : bool := starts_with_separator (rev s).

Definition has_version (value : str) : bool :=
  match rsplit_once_str b#"/v" value with
  | Some (_, version) => negb (bool_decide (version = [])) && all_digits version
  | None => false
  end.

Definition validate_name (value : str) (require_version : bool) : result Diagnostic str :=
  let valid :=
    negb (bool_decide (value = []))
    && (length value <=? MAX_FINGERPRINT_IDENTIFIER_BYTES)%nat
    && forallb name_byte value
    && negb (starts_with_separator value)
    && negb (ends_with_separator value)
    && (negb require_version || has_version value) in
  if valid then Ok value else Err (stable Integrity "invalid_fingerprint_identifier").

Definition CanonicalizationVersion : Set := str.
Definition FingerprintDomain : Set := str.
Definition SemanticProfileId : Set := str.

Definition CanonicalizationVersion_new (value : str) : result Diagnostic CanonicalizationVersion :=
  validate_name value true.
Definition FingerprintDomain_new (value : str) : result Diagnostic FingerprintDomain :=
  validate_name value false.
Definition SemanticProfileId_new (value : str) : result Diagnostic SemanticProfileId :=
  validate_name value true.

Definition ensure_canonicalization_version (actual supported : CanonicalizationVersion)
    : result Diagnostic () :=
  if str_eqb actual supported then Ok tt
  else Err (invalid "unsupported_canonicalization_version").

(** 32 raw bytes. *)
Definition FingerprintDigest : Set := str.

Fixpoint hex_bytes (s : str) : str :=
  match s with
  | a :: b :: s => byte_of (hex_parse [a; b]) :: hex_bytes s
  | _ => []
  end.

Definition from_hex (value : str) : result Diagnostic FingerprintDigest :=
  if negb (length value =? 64)%nat || negb (forallb is_lower_hex value)
  then Err (stable Integrity "invalid_fingerprint_digest")
  else Ok (hex_bytes value).

Definition to_hex (d : FingerprintDigest) : str := d ≫= fun byte => hex_show 2 (code byte).

Record Fingerprint : Set := fingerprint {
  domain : FingerprintDomain;
  canonicalization : CanonicalizationVersion;
  semantic_profile : option SemanticProfileId;
  digest : FingerprintDigest }.

#[global] Instance Fingerprint_eq_dec : EqDecision Fingerprint.
Proof. solve_decision. Defined.

(** [u64::to_be_bytes], for [w] bytes. *)
Fixpoint be_bytes (w : nat) (z : Z) : str :=
  match w with
  | O => []
  | S w => be_bytes w (z / 256) ++ [byte_of (z mod 256)]
  end.

Definition hash_field (value : str) : str := be_bytes 8 (Z.of_nat (length value)) ++ value.

(** Everything the hasher is fed, in order. *)
Definition preimage (domain : FingerprintDomain) (canonicalization : CanonicalizationVersion)
    (semantic_profile : option SemanticProfileId) (canonical_bytes : str) : str :=
  (b#"typebridge.fingerprint/v1" ++ ["000"%char])
  ++ hash_field domain ++ hash_field canonicalization
  ++ match semantic_profile with
     | Some profile => "001"%char :: hash_field profile
     | None => ["000"%char]
     end
  ++ hash_field canonical_bytes.

Definition compute (sha256 : str -> str) (domain : FingerprintDomain)
    (canonicalization : CanonicalizationVersion) (semantic_profile : option SemanticProfileId)
    (canonical_bytes : str) : Fingerprint :=
  fingerprint domain canonicalization semantic_profile
    (sha256 (preimage domain canonicalization semantic_profile canonical_bytes)).

(** ** Digest codec *)

Lemma to_hex_cons b d : to_hex (b :: d) = hex_show 2 (code b) ++ to_hex d.
Proof. done. Qed.

Lemma byte_hex b :
  length (hex_show 2 (code b)) = 2%nat /\ forallb is_lower_hex (hex_show 2 (code b)) = true /\
  hex_parse (hex_show 2 (code b)) = code b.
Proof. pose proof (code_range b). apply hex_show_spec. simpl. lia. Qed.

Lemma to_hex_spec d : length (to_hex d) = (2 * length d)%nat /\ forallb is_lower_hex (to_hex d) = true.
Proof.
  induction d as [|b d [IHl IHh]]; [done|]. destruct (byte_hex b) as (Hl & Hx & _).
  rewrite to_hex_cons, length_app, forallb_app, Hl, Hx, IHl, IHh. simpl. split; [lia|done].
Qed.

Lemma hex_bytes_to_hex d : hex_bytes (to_hex d) = d.
Proof.
  induction d as [|b d IH]; [done|]. rewrite to_hex_cons. destruct (byte_hex b) as (Hl & _ & Hp).
  destruct (hex_show 2 (code b)) as [|x [|y [|z t]]]; try done.
  cbn [app hex_bytes]. rewrite Hp. f_equal; [|done].
  apply code_inj. apply code_byte_of. apply code_range.
Qed.

Lemma to_hex_hex_bytes n s :
  length s = (2 * n)%nat -> forallb is_lower_hex s = true ->
  to_hex (hex_bytes s) = s /\ length (hex_bytes s) = n.
Proof.
  revert s. induction n as [|n IH]; intros s Hl Hh.
  - by apply nil_length_inv in Hl as ->.
  - destruct s as [|a [|b s]]; try (simpl in Hl; lia). cbn [forallb] in Hh.
    apply andb_true_iff in Hh as [Ha [Hb Hs]%andb_true_iff].
    destruct (IH s) as [E En]; [simpl in Hl; lia|done|].
    destruct (hex_parse_spec [a; b]) as [Hr Hsh]; [simpl; by rewrite Ha, Hb|].
    cbn [hex_bytes length]. split; [|by rewrite En].
    rewrite to_hex_cons, E, code_byte_of by (simpl in Hr; lia).
    cbn [length] in Hsh. by rewrite Hsh.
Qed.

(** Digests round-trip through their text: hexadecimal text of a digest
    decodes to it, and accepted text is exactly the text of the 32 bytes it
    decodes to. *)
Theorem digest_hex_roundtrip s d :
  from_hex s = Ok d <-> length d = 32%nat /\ s = to_hex d.
Proof.
  unfold from_hex. split.
  - destruct (_ || _) eqn:E; [done|]. intros [= <-].
    apply orb_false_iff in E as [Hl%negb_false_iff Hh%negb_false_iff]. apply Nat.eqb_eq in Hl.
    destruct (to_hex_hex_bytes 32 s) as [E En]; done.
  - intros [Hl ->]. destruct (to_hex_spec d) as [Hlen Hh].
    rewrite Hlen, Hl, Hh. simpl. by rewrite hex_bytes_to_hex.
Qed.

(** ** The hashed bytes determine the fields *)

Lemma be_bytes_length w z : length (be_bytes w z) = w.
Proof. revert z. induction w as [|w IH]; intros z; simpl; [done|]. rewrite length_app, IH. simpl. lia. Qed.

Lemma be_bytes_inj w a b :
  0 <= a < 256 ^ Z.of_nat w -> 0 <= b < 256 ^ Z.of_nat w -> be_bytes w a = be_bytes w b -> a = b.
Proof.
  revert a b. induction w as [|w IH]; intros a b Ha Hb E; [simpl in *; lia|].
  rewrite Nat2Z.inj_succ, Z.pow_succ_r in Ha, Hb by lia.
  cbn [be_bytes] in E. apply app_inj_tail in E as [E1 E2].
  apply IH in E1; [|split; [apply Z.div_pos; lia|apply Z.div_lt_upper_bound; lia]..].
  apply (f_equal code) in E2. rewrite !code_byte_of in E2 by (apply Z.mod_pos_bound; lia).
  Z.div_mod_to_equations; lia.
Qed.

Definition hashable (s : str) : Prop := Z.of_nat (length s) <= u64_max.

Lemma hash_field_inj s t x y :
  hashable s -> hashable t -> hash_field s ++ x = hash_field t ++ y -> s = t /\ x = y.
Proof.
  unfold hashable, u64_max, hash_field. intros Hs Ht E. rewrite <- !app_assoc in E.
  apply app_inj_1 in E as [E1 E2]; [|by rewrite !be_bytes_length].
  apply be_bytes_inj in E1; [|simpl; lia..]. apply app_inj_1 in E2; [done|lia].
Qed.

Definition hashable_option (p : option str) : Prop :=
  match p with Some p => hashable p | None => True end.

Lemma preimage_inj d c p b d' c' p' b' :
  hashable d -> hashable c -> hashable_option p -> hashable b ->
  hashable d' -> hashable c' -> hashable_option p' -> hashable b' ->
  preimage d c p b = preimage d' c' p' b' -> d = d' /\ c = c' /\ p = p' /\ b = b'.
Proof.
  unfold preimage. intros Hd Hc Hp Hb Hd' Hc' Hp' Hb' E. apply app_inv_head in E.
  apply hash_field_inj in E as [-> E]; [|done..]. apply hash_field_inj in E as [-> E]; [|done..].
  assert (forall s t, hashable s -> hashable t -> hash_field s = hash_field t -> s = t) as Hlast.
  { intros s t Hs Ht Est. apply (hash_field_inj s t [] []); [done..|]. by rewrite !app_nil_r. }
  destruct p as [p|], p' as [p'|]; try done.
  - change (["001"%char] ++ (hash_field p ++ hash_field b) = ["001"%char] ++ (hash_field p' ++ hash_field b')) in E.
    apply app_inv_head in E. apply hash_field_inj in E as [-> E]; [|done..]. apply Hlast in E as ->; done.
  - apply app_inv_head in E. apply Hlast in E as ->; done.
Qed.

Lemma validated_hashable s v t : validate_name s v = Ok t -> t = s /\ hashable s.
Proof.
  unfold validate_name. intros H. case_in H; simp. split; [done|].
  unfold hashable, u64_max. repeat match goal with H : _ && _ = true |- _ => apply andb_true_iff in H as [H ?] end.
  match goal with H : (_ <=? _)%nat = true |- _ => apply Nat.leb_le in H; unfold MAX_FINGERPRINT_IDENTIFIER_BYTES in H end.
  lia.
Qed.

(** A fingerprint's inputs. *)
Record Input : Set := input {
  in_domain : FingerprintDomain; in_canonicalization : CanonicalizationVersion;
  in_profile : option SemanticProfileId; in_bytes : str }.

(** The inputs [compute] can be called with: the identifiers went through their
    constructors, and the bytes fit in memory. *)
Definition valid_input (i : Input) : Prop :=
  FingerprintDomain_new (in_domain i) = Ok (in_domain i) /\
  CanonicalizationVersion_new (in_canonicalization i) = Ok (in_canonicalization i) /\
  match in_profile i with Some p => SemanticProfileId_new p = Ok p | None => True end /\
  hashable (in_bytes i).

Definition hashed (i : Input) : str :=
  preimage (in_domain i) (in_canonicalization i) (in_profile i) (in_bytes i).

(** C36. Fingerprints separate their inputs: two fingerprints with the same
    digest have the same domain, canonicalization, semantic profile and
    canonical bytes, unless the two hashed byte strings are a collision of the
    hash function. *)
Theorem compute_separates sha256 i j :
  valid_input i -> valid_input j ->
  digest (compute sha256 (in_domain i) (in_canonicalization i) (in_profile i) (in_bytes i)) =
  digest (compute sha256 (in_domain j) (in_canonicalization j) (in_profile j) (in_bytes j)) ->
  i = j \/ (hashed i <> hashed j /\ sha256 (hashed i) = sha256 (hashed j)).
Proof.
  intros (Hd & Hc & Hp & Hb) (Hd' & Hc' & Hp' & Hb') E. simpl in E.
  assert (forall p, match p with Some p => SemanticProfileId_new p = Ok p | None => True end ->
          hashable_option p) as Hprof.
  { intros [p|] H; [|done]. by apply validated_hashable in H as [_ H]. }
  destruct (decide (hashed i = hashed j)) as [Heq|Hne]; [left|by right].
  apply validated_hashable in Hd as [_ Hd], Hc as [_ Hc], Hd' as [_ Hd'], Hc' as [_ Hc'].
  apply Hprof in Hp, Hp'.
  destruct (preimage_inj _ _ _ _ _ _ _ _ Hd Hc Hp Hb Hd' Hc' Hp' Hb' Heq) as (H1 & H2 & H3 & H4).
  destruct i, j. simpl in *. congruence.
Qed.

Lemma compute_separates_w :
  let i := input b#"typebridge.schema.semantic" b#"typebridge.schema-canonical-json/v1"
             (Some b#"typedb.schema/v1") b#"{}" in
  let j := input b#"typebridge.schema.semantic" b#"typebridge.schema-canonical-json/v1" None b#"{}" in
  let weak := firstn 4 in
  i = j \/ (hashed i <> hashed j /\ weak (hashed i) = weak (hashed j)).
Proof.
  intros i j weak. apply (compute_separates weak i j).
  - vm_compute. split_and!; try reflexivity; discriminate.
  - vm_compute. split_and!; try reflexivity; discriminate.
  - vm_compute. reflexivity.
Defined.

End Fingerprint.
