(* ===== verification/Limits.v ===== *)
(** * Limits (contract/src/limits.rs)

    The codec and structural ceilings, the configurable query limits with their
    named fields, overrides, negotiation and validation, and the attribution of a
    resource-limit diagnostic to the limit it was raised against. A [usize] is a
    64-bit integer. *)

From S2P Require Import Prelude BTree Text Ident Value Fingerprint.
Import Ident Value Fingerprint.
#[local] Open Scope Z_scope.

Module Limits.

(** ** Ceilings *)

Definition MAX_CANONICAL_BYTES : Z := 16 * 1024 * 1024.
Definition MAX_REMOTE_ENVELOPE_BYTES : Z := 32 * 1024 * 1024.
Definition MAX_CANONICAL_DEPTH : Z := 64.
Definition MAX_CANONICAL_STRING_BYTES : Z := 1024 * 1024.
Definition MAX_SELECTED_SLOTS : Z := 16.
Definition MAX_BINDINGS : Z := 256.
Definition MAX_PREDICATE_NODES : Z := 4096.
Definition MAX_PREDICATE_DEPTH : Z := 64.
Definition MAX_BOOLEAN_TERMS : Z := 256.
Definition MAX_ALLOWED_CROSS_JOINS : Z := 1024.
Definition MAX_ORDER_TERMS : Z := 64.
Definition MAX_COLLECTION_ORDER_TERMS : Z := 64.
Definition MAX_INPUT_ROWS : Z := 4096.
Definition MAX_INPUT_BYTES : Z := 4 * 1024 * 1024.
Definition MAX_QUERY_INVOCATION_BYTES : Z := MAX_INPUT_BYTES + 234.
Definition MAX_OUTPUT_NAME_BYTES : Z := 128.
Definition MAX_SEMANTIC_ID_BYTES : Z := 512.
Definition MAX_DIAGNOSTIC_BYTES : Z := 65536.

Record CodecLimits : Set := codec_limits {
  max_bytes : Z; max_depth : Z; max_collection_len : Z; max_string_bytes : Z }.

Definition CANONICAL_CODEC_LIMITS : CodecLimits :=
  codec_limits MAX_CANONICAL_BYTES MAX_CANONICAL_DEPTH MAX_CANONICAL_COLLECTION_LEN MAX_CANONICAL_STRING_BYTES.

Definition REMOTE_ENVELOPE_CODEC_LIMITS : CodecLimits :=
  codec_limits MAX_REMOTE_ENVELOPE_BYTES MAX_CANONICAL_DEPTH MAX_CANONICAL_COLLECTION_LEN MAX_CANONICAL_STRING_BYTES.

Definition REMOTE_REQUEST_CODEC_LIMITS : CodecLimits :=
  codec_limits MAX_REMOTE_ENVELOPE_BYTES (MAX_CANONICAL_DEPTH + 1) MAX_CANONICAL_COLLECTION_LEN
    MAX_CANONICAL_STRING_BYTES.

Record StructuralLimits : Set := structural_limits {
  selected_slots : Z;
  bindings_limit : Z;
  predicate_nodes : Z;
  predicate_depth : Z;
  boolean_terms : Z;
  allowed_cross_joins : Z;
  order_terms : Z;
  collection_order_terms : Z;
  input_rows : Z;
  input_bytes : Z;
  output_name_bytes : Z;
  semantic_id_bytes : Z;
  diagnostic_bytes : Z }.

Definition CANONICAL_STRUCTURAL_LIMITS : StructuralLimits :=
  structural_limits MAX_SELECTED_SLOTS MAX_BINDINGS MAX_PREDICATE_NODES MAX_PREDICATE_DEPTH MAX_BOOLEAN_TERMS
    MAX_ALLOWED_CROSS_JOINS MAX_ORDER_TERMS MAX_COLLECTION_ORDER_TERMS MAX_INPUT_ROWS MAX_INPUT_BYTES
    MAX_OUTPUT_NAME_BYTES MAX_SEMANTIC_ID_BYTES MAX_DIAGNOSTIC_BYTES.

Definition allows_selected_slots (l : StructuralLimits) (actual : Z) : bool := actual <=? selected_slots l.
Definition allows_bindings (l : StructuralLimits) (actual : Z) : bool := actual <=? bindings_limit l.
Definition allows_predicate_nodes (l : StructuralLimits) (actual : Z) : bool := actual <=? predicate_nodes l.
Definition allows_predicate_depth (l : StructuralLimits) (actual : Z) : bool := actual <=? predicate_depth l.

Definition MAX_SUPPORTED_CANONICAL_DEPTH : Z := 126.
Definition MAX_SUPPORTED_SELECTED_SLOTS : Z := MAX_SELECTED_SLOTS.
Definition MAX_SUPPORTED_BINDINGS : Z := 65536.

(** ** Query limits *)

Record QueryLimits : Set := query_limits {
  codec : CodecLimits; structural : StructuralLimits; remote_request_bytes : Z }.

Definition QueryLimits_CANONICAL : QueryLimits :=
  query_limits CANONICAL_CODEC_LIMITS CANONICAL_STRUCTURAL_LIMITS MAX_REMOTE_ENVELOPE_BYTES.

(** One row of the field macro: the name, how to read and replace the field, and its maximum. *)
Record LimitField : Set := limit_field {
  field_name : str;
  field_get : QueryLimits -> Z;
  field_set : Z -> QueryLimits -> QueryLimits;
  field_maximum : Z }.

Definition set_codec (f : CodecLimits -> CodecLimits) (l : QueryLimits) : QueryLimits :=
  query_limits (f (codec l)) (structural l) (remote_request_bytes l).

Definition set_structural (f : StructuralLimits -> StructuralLimits) (l : QueryLimits) : QueryLimits :=
  query_limits (codec l) (f (structural l)) (remote_request_bytes l).

Definition query_limit_fields : list LimitField :=
  [limit_field b#"canonical_bytes" (fun l => max_bytes (codec l))
     (fun v => set_codec (fun c => codec_limits v (max_depth c) (max_collection_len c) (max_string_bytes c))) usize_max;
   limit_field b#"canonical_depth" (fun l => max_depth (codec l))
     (fun v => set_codec (fun c => codec_limits (max_bytes c) v (max_collection_len c) (max_string_bytes c)))
     MAX_SUPPORTED_CANONICAL_DEPTH;
   limit_field b#"canonical_collection_len" (fun l => max_collection_len (codec l))
     (fun v => set_codec (fun c => codec_limits (max_bytes c) (max_depth c) v (max_string_bytes c))) usize_max;
   limit_field b#"canonical_string_bytes" (fun l => max_string_bytes (codec l))
     (fun v => set_codec (fun c => codec_limits (max_bytes c) (max_depth c) (max_collection_len c) v)) usize_max;
   limit_field b#"selected_slots" (fun l => selected_slots (structural l))
     (fun v => set_structural (fun s => structural_limits v (bindings_limit s) (predicate_nodes s) (predicate_depth s)
       (boolean_terms s) (allowed_cross_joins s) (order_terms s) (collection_order_terms s) (input_rows s)
       (input_bytes s) (output_name_bytes s) (semantic_id_bytes s) (diagnostic_bytes s))) MAX_SUPPORTED_SELECTED_SLOTS;
   limit_field b#"bindings" (fun l => bindings_limit (structural l))
     (fun v => set_structural (fun s => structural_limits (selected_slots s) v (predicate_nodes s) (predicate_depth s)
       (boolean_terms s) (allowed_cross_joins s) (order_terms s) (collection_order_terms s) (input_rows s)
       (input_bytes s) (output_name_bytes s) (semantic_id_bytes s) (diagnostic_bytes s))) MAX_SUPPORTED_BINDINGS;
   limit_field b#"predicate_nodes" (fun l => predicate_nodes (structural l))
     (fun v => set_structural (fun s => structural_limits (selected_slots s) (bindings_limit s) v (predicate_depth s)
       (boolean_terms s) (allowed_cross_joins s) (order_terms s) (collection_order_terms s) (input_rows s)
       (input_bytes s) (output_name_bytes s) (semantic_id_bytes s) (diagnostic_bytes s))) usize_max;
   limit_field b#"predicate_depth" (fun l => predicate_depth (structural l))
     (fun v => set_structural (fun s => structural_limits (selected_slots s) (bindings_limit s) (predicate_nodes s) v
       (boolean_terms s) (allowed_cross_joins s) (order_terms s) (collection_order_terms s) (input_rows s)
       (input_bytes s) (output_name_bytes s) (semantic_id_bytes s) (diagnostic_bytes s))) MAX_SUPPORTED_CANONICAL_DEPTH;
   limit_field b#"boolean_terms" (fun l => boolean_terms (structural l))
     (fun v => set_structural (fun s => structural_limits (selected_slots s) (bindings_limit s) (predicate_nodes s)
       (predicate_depth s) v (allowed_cross_joins s) (order_terms s) (collection_order_terms s) (input_rows s)
       (input_bytes s) (output_name_bytes s) (semantic_id_bytes s) (diagnostic_bytes s))) usize_max;
   limit_field b#"allowed_cross_joins" (fun l => allowed_cross_joins (structural l))
     (fun v => set_structural (fun s => structural_limits (selected_slots s) (bindings_limit s) (predicate_nodes s)
       (predicate_depth s) (boolean_terms s) v (order_terms s) (collection_order_terms s) (input_rows s)
       (input_bytes s) (output_name_bytes s) (semantic_id_bytes s) (diagnostic_bytes s))) usize_max;
   limit_field b#"order_terms" (fun l => order_terms (structural l))
     (fun v => set_structural (fun s => structural_limits (selected_slots s) (bindings_limit s) (predicate_nodes s)
       (predicate_depth s) (boolean_terms s) (allowed_cross_joins s) v (collection_order_terms s) (input_rows s)
       (input_bytes s) (output_name_bytes s) (semantic_id_bytes s) (diagnostic_bytes s))) usize_max;
   limit_field b#"collection_order_terms" (fun l => collection_order_terms (structural l))
     (fun v => set_structural (fun s => structural_limits (selected_slots s) (bindings_limit s) (predicate_nodes s)
       (predicate_depth s) (boolean_terms s) (allowed_cross_joins s) (order_terms s) v (input_rows s)
       (input_bytes s) (output_name_bytes s) (semantic_id_bytes s) (diagnostic_bytes s))) usize_max;
   limit_field b#"input_rows" (fun l => input_rows (structural l))
     (fun v => set_structural (fun s => structural_limits (selected_slots s) (bindings_limit s) (predicate_nodes s)
       (predicate_depth s) (boolean_terms s) (allowed_cross_joins s) (order_terms s) (collection_order_terms s) v
       (input_bytes s) (output_name_bytes s) (semantic_id_bytes s) (diagnostic_bytes s))) usize_max;
   limit_field b#"input_bytes" (fun l => input_bytes (structural l))
     (fun v => set_structural (fun s => structural_limits (selected_slots s) (bindings_limit s) (predicate_nodes s)
       (predicate_depth s) (boolean_terms s) (allowed_cross_joins s) (order_terms s) (collection_order_terms s)
       (input_rows s) v (output_name_bytes s) (semantic_id_bytes s) (diagnostic_bytes s))) usize_max;
   limit_field b#"output_name_bytes" (fun l => output_name_bytes (structural l))
     (fun v => set_structural (fun s => structural_limits (selected_slots s) (bindings_limit s) (predicate_nodes s)
       (predicate_depth s) (boolean_terms s) (allowed_cross_joins s) (order_terms s) (collection_order_terms s)
       (input_rows s) (input_bytes s) v (semantic_id_bytes s) (diagnostic_bytes s))) usize_max;
   limit_field b#"semantic_id_bytes" (fun l => semantic_id_bytes (structural l))
     (fun v => set_structural (fun s => structural_limits (selected_slots s) (bindings_limit s) (predicate_nodes s)
       (predicate_depth s) (boolean_terms s) (allowed_cross_joins s) (order_terms s) (collection_order_terms s)
       (input_rows s) (input_bytes s) (output_name_bytes s) v (diagnostic_bytes s))) usize_max;
   limit_field b#"diagnostic_bytes" (fun l => diagnostic_bytes (structural l))
     (fun v => set_structural (fun s => structural_limits (selected_slots s) (bindings_limit s) (predicate_nodes s)
       (predicate_depth s) (boolean_terms s) (allowed_cross_joins s) (order_terms s) (collection_order_terms s)
       (input_rows s) (input_bytes s) (output_name_bytes s) (semantic_id_bytes s) v)) usize_max;
   limit_field b#"remote_request_bytes" remote_request_bytes
     (fun v l => query_limits (codec l) (structural l) v) usize_max].

Definition field_named (name : str) : option LimitField :=
  List.find (fun f => str_eqb (field_name f) name) query_limit_fields.

Definition FIELDS : list str := map field_name query_limit_fields.

Definition get (l : QueryLimits) (name : str) : option Z := (fun f => field_get f l) <$> field_named name.

(** [None] for the [false] of an unknown name, which changes nothing. *)
Definition set (l : QueryLimits) (name : str) (value : Z) : option QueryLimits :=
  (fun f => field_set f value l) <$> field_named name.

Definition supported_maximum (name : str) : option Z := field_maximum <$> field_named name.

Inductive QueryLimitsError : Set :=
| Unknown (name : str)
| OutOfRange (limit : str) (value minimum maximum : Z).

(** The loop over the names; [None] is an [expect]. *)
Fixpoint validate_fields (l : QueryLimits) (names : list str) : option (result QueryLimitsError QueryLimits) :=
  match names with
  | [] => Some (Ok l)
  | name :: names =>
      match get l name, supported_maximum name with
      | Some value, Some maximum =>
          if (value =? 0) || (maximum <? value) then Some (Err (OutOfRange name value 1 maximum))
          else validate_fields l names
      | _, _ => None
      end
  end.

Definition validate (l : QueryLimits) : option (result QueryLimitsError QueryLimits) := validate_fields l FIELDS.

Fixpoint apply_overrides (l : QueryLimits) (overrides : list (str * Z))
    : option (result QueryLimitsError QueryLimits) :=
  match overrides with
  | [] => Some (Ok l)
  | (name, value) :: overrides =>
      match List.find (fun listed => str_eqb listed name) FIELDS with
      | None => Some (Err (Unknown name))
      | Some listed =>
          if usize_max <? value
          then match supported_maximum listed with
               | Some maximum => Some (Err (OutOfRange listed value 1 maximum))
               | None => None
               end
          else apply_overrides (default l (set l listed value)) overrides
      end
  end.

Definition from_overrides (overrides : list (str * Z)) : option (result QueryLimitsError QueryLimits) :=
  match apply_overrides QueryLimits_CANONICAL overrides with
  | Some (Ok l) => validate l
  | r => r
  end.

(** The stricter of two limits, field by field; [None] is an [expect]. *)
Fixpoint min_fields (l other : QueryLimits) (names : list str) : option QueryLimits :=
  match names with
  | [] => Some l
  | name :: names =>
      match get l name, get other name with
      | Some a, Some b => min_fields (default l (set l name (Z.min a b))) other names
      | _, _ => None
      end
  end.

Definition QueryLimits_min (l other : QueryLimits) : option QueryLimits := min_fields l other FIELDS.

Definition remote_request_codec (l : QueryLimits) : CodecLimits :=
  codec_limits (remote_request_bytes l) (max_depth (codec l) + 1) (max_collection_len (codec l))
    (max_string_bytes (codec l)).

Definition invocation_bytes (l : QueryLimits) : Z :=
  Z.min usize_max (input_bytes (structural l) + (MAX_QUERY_INVOCATION_BYTES - MAX_INPUT_BYTES)).

(** ** Answer limits *)

Record AnswerLimitField : Set := answer_limit {
  answer_name : str; direct_default : Z; proxy_default : Z; answer_maximum : Z }.

Definition ANSWER_LIMIT_FIELDS : list AnswerLimitField :=
  [answer_limit b#"timeout_milliseconds" 30000 30000 (24 * 60 * 60 * 1000);
   answer_limit b#"items" 100000 MAX_CANONICAL_COLLECTION_LEN u64_max;
   answer_limit b#"bytes" (64 * 1024 * 1024) MAX_REMOTE_ENVELOPE_BYTES u64_max;
   answer_limit b#"graph_nodes" 1000000 MAX_CANONICAL_COLLECTION_LEN u64_max;
   answer_limit b#"attribute_values" 4000000 MAX_CANONICAL_COLLECTION_LEN u64_max;
   answer_limit b#"collection_members" 1000000 MAX_CANONICAL_COLLECTION_LEN u64_max;
   answer_limit b#"role_players" 1000000 MAX_CANONICAL_COLLECTION_LEN u64_max;
   answer_limit b#"statements" 3 3 3].

Definition answer_limit_field (name : str) : option AnswerLimitField :=
  List.find (fun field => str_eqb (answer_name field) name) ANSWER_LIMIT_FIELDS.

(** ** Attribution of refusals *)

Inductive DiagnosticDetailValue : Set :=
| DText (value : str) | DLong (value : Z) | DBoolean (value : bool) | DTextList (value : list str).

(** A diagnostic with its detail map. *)
Record Detailed : Set := detailed {
  about : Diagnostic; details : BTreeMap str DiagnosticDetailValue }.

Definition with_detail (key : str) (value : DiagnosticDetailValue) (d : Detailed) : Detailed :=
  detailed (about d) (mins key value (details d)).

Definition LIMIT_SOURCE_DEFAULT : str := b#"default".
Definition LIMIT_SOURCE_CONFIGURED : str := b#"configured".
Definition LIMIT_SOURCE_ADVERTISED : str := b#"advertised".

Definition LIMIT_BY_DIAGNOSTIC_CODE : list (string * str) :=
  [("canonical_json_too_deep", b#"canonical_depth");
   ("canonical_json_too_large", b#"canonical_bytes");
   ("canonical_collection_too_large", b#"canonical_collection_len");
   ("canonical_string_too_large", b#"canonical_string_bytes");
   ("query_builder_authored_binding_limit", b#"bindings");
   ("query_invocation_input_byte_limit", b#"input_bytes");
   ("query_invocation_row_limit", b#"input_rows");
   ("query_plan_binding_limit", b#"bindings");
   ("query_plan_disjunction_term_limit", b#"boolean_terms");
   ("query_plan_function_argument_limit", b#"boolean_terms");
   ("query_plan_input_limit", b#"bindings");
   ("query_plan_local_function_limit", b#"bindings");
   ("query_plan_name_limit", b#"output_name_bytes");
   ("query_plan_negation_term_limit", b#"boolean_terms");
   ("query_plan_output_limit", b#"selected_slots");
   ("query_plan_pattern_depth_limit", b#"predicate_depth");
   ("query_plan_pattern_limit", b#"boolean_terms");
   ("query_plan_pattern_node_limit", b#"predicate_nodes");
   ("query_plan_reachable_depth", b#"predicate_depth");
   ("query_plan_reachable_expansion_limit", b#"predicate_nodes");
   ("query_plan_reduce_term_limit", b#"boolean_terms");
   ("query_plan_role_player_limit", b#"boolean_terms");
   ("query_plan_sort_term_limit", b#"order_terms");
   ("query_plan_try_term_limit", b#"boolean_terms");
   ("query_plan_v2_boolean_term_limit", b#"boolean_terms");
   ("query_plan_v2_compatibility_value_limit", b#"canonical_bytes");
   ("query_plan_v2_cross_join_limit", b#"allowed_cross_joins");
   ("query_plan_v2_order_limit", b#"order_terms");
   ("query_plan_v2_output_limit", b#"selected_slots");
   ("query_plan_v2_pattern_depth_limit", b#"predicate_depth");
   ("query_plan_v2_pattern_node_limit", b#"predicate_nodes");
   ("query_plan_v2_reachable_depth", b#"predicate_depth");
   ("query_plan_v2_reachable_expansion_limit", b#"predicate_nodes");
   ("query_plan_v2_reducer_limit", b#"selected_slots");
   ("query_plan_v2_reduction_group_limit", b#"selected_slots");
   ("query_remote_v2_envelope_too_large", b#"remote_request_bytes");
   ("query_v2_adapter_literal_byte_limit", b#"canonical_bytes");
   ("query_v2_lowered_typeql_byte_limit", b#"canonical_bytes");
   ("query_v2_reachable_expansion_limit", b#"predicate_nodes")]%string.

Definition limit_of_code (code : string) : option str :=
  snd <$> List.find (fun e : string * str => String.eqb e.1 code) LIMIT_BY_DIAGNOSTIC_CODE.

Definition source_of (l : QueryLimits) (name : str) : str :=
  if bool_decide (get l name = get QueryLimits_CANONICAL name) then LIMIT_SOURCE_DEFAULT
  else LIMIT_SOURCE_CONFIGURED.

Definition annotate_limit (l : QueryLimits) (d : Detailed) (limit : str) : Detailed :=
  if negb (bool_decide (d_category (about d) = ResourceLimit)) || mmem b#"limit" (details d) then d
  else match get l limit with
       | None => d
       | Some maximum =>
           with_detail b#"source" (DText (source_of l limit))
             (with_detail b#"maximum" (DLong (Z.min i64_max maximum))
               (with_detail b#"limit" (DText limit) d))
       end.

Definition annotate (l : QueryLimits) (d : Detailed) : Detailed :=
  match limit_of_code (d_code (about d)) with
  | None => d
  | Some limit => annotate_limit l d limit
  end.

Definition annotate_refusal (d : Detailed) (maximum : Z) : Detailed :=
  match limit_of_code (d_code (about d)) with
  | None => d
  | Some limit =>
      annotate_limit (default QueryLimits_CANONICAL (set QueryLimits_CANONICAL limit maximum)) d limit
  end.

(** [Option]'s order: an unknown name is below every limit. *)
Definition option_ltb (a b : option Z) : bool :=
  match a, b with
  | None, Some _ => true
  | Some a, Some b => a <? b
  | _, None => false
  end.

Definition mark_advertised (l configured : QueryLimits) (d : Detailed) : Detailed :=
  match mget b#"limit" (details d) with
  | Some (DText limit) =>
      if option_ltb (get l limit) (get configured limit)
      then with_detail b#"source" (DText LIMIT_SOURCE_ADVERTISED) d
      else d
  | _ => d
  end.

Definition annotate_negotiated (l configured : QueryLimits) (d : Detailed) : Detailed :=
  mark_advertised l configured (annotate l d).

(** ** Fields are independent *)

Lemma field_get_set f g v l :
  In f query_limit_fields -> In g query_limit_fields ->
  field_get f (field_set g v l) = if str_eqb (field_name g) (field_name f) then v else field_get f l.
Proof.
  intros Hf Hg. unfold query_limit_fields in *. cbn [In] in *.
  repeat (destruct Hf as [<-|Hf]; [repeat (destruct Hg as [<-|Hg]; [reflexivity|]); destruct Hg|]). destruct Hf.
Qed.

Lemma field_named_In name f : field_named name = Some f -> In f query_limit_fields /\ field_name f = name.
Proof. unfold field_named. intros [H1 H2]%find_some. split; [done|]. by apply oeqb_true. Qed.

Lemma fields_listed name : name ∈ FIELDS <-> is_Some (field_named name).
Proof.
  unfold FIELDS, field_named. split.
  - intros H%list_elem_of_In. apply in_map_iff in H as (f & <- & Hin).
    destruct (List.find _ query_limit_fields) as [g|] eqn:E; [by eexists|]. exfalso.
    pose proof (find_none _ _ E f Hin) as Hn. simpl in Hn. unfold str_eqb in Hn. by rewrite oeqb_refl in Hn.
  - intros [f [H1 <-]%field_named_In]. by apply list_elem_of_In, in_map.
Qed.

Lemma get_set l name v : name ∈ FIELDS ->
  exists l', set l name v = Some l' /\ forall m, get l' m = if str_eqb name m then Some v else get l m.
Proof.
  intros [g Hg]%fields_listed. unfold set, get. rewrite Hg. eexists. split; [done|]. intros m.
  apply field_named_In in Hg as [Hg <-]. destruct (field_named m) as [f|] eqn:Ef; simpl.
  - apply field_named_In in Ef as [Hf <-]. rewrite (field_get_set f g v l Hf Hg). by destruct (str_eqb _ _).
  - unfold str_eqb. destruct (oeqb_spec (field_name g) m) as [<-|]; [|done]. exfalso.
    assert (is_Some (field_named (field_name g))) as [? E]; [|congruence].
    apply fields_listed, list_elem_of_In, in_map, Hg.
Qed.

Lemma get_listed l name : name ∈ FIELDS -> exists v m, get l name = Some v /\ supported_maximum name = Some m.
Proof. intros [f Hf]%fields_listed. unfold get, supported_maximum. rewrite Hf. by eexists _, _. Qed.

(** ** Validation *)

(** Every limit is at least one and at most what is supported. *)
Definition valid (l : QueryLimits) : Prop :=
  forall name v m, get l name = Some v -> supported_maximum name = Some m -> v <> 0 /\ v <= m.

Lemma validate_fields_spec l names :
  (forall name, name ∈ names -> name ∈ FIELDS) ->
  exists r, validate_fields l names = Some r /\
  (r = Ok l /\ (forall name v m, name ∈ names -> get l name = Some v -> supported_maximum name = Some m ->
     v <> 0 /\ v <= m) \/
   exists name v m, r = Err (OutOfRange name v 1 m) /\ get l name = Some v /\ supported_maximum name = Some m /\
     ~ (v <> 0 /\ v <= m)).
Proof.
  induction names as [|name names IH]; intros Hl; cbn [validate_fields].
  { exists (Ok l). split; [done|]. left. split; [done|]. intros ? ? ? []%not_elem_of_nil. }
  destruct (get_listed l name) as (v & m & Hv & Hm); [apply Hl; by left|]. rewrite Hv, Hm.
  destruct (Z.eqb_spec v 0) as [->|Hz]; simpl.
  { eexists. split; [done|]. right. exists name, 0, m. split_and!; [done..|lia]. }
  destruct (Z.ltb_spec m v) as [Hlt|Hle].
  { eexists. split; [done|]. right. exists name, v, m. split_and!; [done..|lia]. }
  destruct IH as (r & -> & Hr); [intros n Hn; apply Hl; by right|]. exists r. split; [done|].
  destruct Hr as [[-> Hr]|Hr]; [left|by right]. split; [done|].
  intros n v' m' [->|Hn]%elem_of_cons Hv' Hm'; [|by eapply Hr]. rewrite Hv in Hv'. rewrite Hm in Hm'.
  injection Hv' as <-. injection Hm' as <-. done.
Qed.

Lemma validate_spec l :
  exists r, validate l = Some r /\
  (r = Ok l /\ valid l \/
   exists name v m, r = Err (OutOfRange name v 1 m) /\ get l name = Some v /\ supported_maximum name = Some m /\ ~ valid l).
Proof.
  destruct (validate_fields_spec l FIELDS) as (r & Hr & H); [done|]. exists r. split; [done|].
  destruct H as [[-> H]|(name & v & m & -> & Hv & Hm & Hbad)].
  - left. split; [done|]. intros name v m Hv. apply H; [|done]. apply fields_listed. unfold get in Hv.
    destruct (field_named name); [by eexists|done].
  - right. exists name, v, m. split_and!; [done..|]. intros H. apply Hbad. by eapply H.
Qed.

(** ** Overrides *)

(** The last override of a name, or its default. *)
Definition override_of (overrides : list (str * Z)) (name : str) : option Z :=
  fold_left (fun acc o => if str_eqb o.1 name then Some o.2 else acc) overrides (get QueryLimits_CANONICAL name).

Lemma find_listed name :
  List.find (fun listed => str_eqb listed name) FIELDS = if smem name FIELDS then Some name else None.
Proof.
  induction FIELDS as [|n l IH]; [done|]. simpl. unfold smem in *. simpl. rewrite IH. unfold str_eqb.
  destruct (oeqb_spec n name) as [->|Hne]; [by rewrite oeqb_refl|].
  destruct (oeqb_spec name n) as [->|]; [done|]. done.
Qed.

Lemma apply_overrides_spec overrides l :
  (exists l', apply_overrides l overrides = Some (Ok l') /\
     (forall o, o ∈ overrides -> o.1 ∈ FIELDS /\ o.2 <= usize_max) /\
     forall name, get l' name =
       fold_left (fun acc o => if str_eqb o.1 name then Some o.2 else acc) overrides (get l name)) \/
  (exists e, apply_overrides l overrides = Some (Err e) /\
     ~ forall o, o ∈ overrides -> o.1 ∈ FIELDS /\ o.2 <= usize_max).
Proof.
  revert l. induction overrides as [|[name v] overrides IH]; intros l; cbn [apply_overrides].
  { left. exists l. split_and!; [done| |done]. intros ? []%not_elem_of_nil. }
  rewrite find_listed. destruct (smem name FIELDS) eqn:En.
  2:{ right. eexists. split; [done|]. intros H. apply smem_false in En. apply En. apply (H (name, v)). by left. }
  apply smem_true in En. destruct (Z.ltb_spec usize_max v) as [Hlt|Hle].
  { right. destruct (get_listed l name En) as (_ & m & _ & ->). eexists. split; [done|]. intros H.
    destruct (H (name, v)) as [_ Hv]; [by left|]. simpl in Hv. lia. }
  destruct (get_set l name v En) as (l1 & -> & Hg). cbn [default]. simpl.
  destruct (IH l1) as [(l' & -> & Hok & Hl')|(e & -> & Hbad)].
  - left. exists l'. split_and!; [done| |].
    + intros o [->|Ho]%elem_of_cons; [done|auto].
    + intros m. rewrite Hl', Hg. cbn [fst snd]. done.
  - right. exists e. split; [done|]. intros H. apply Hbad. intros o Ho. apply H. by right.
Qed.

(** Building limits from named overrides never panics. It succeeds exactly when
    every name is a known limit and, with the last override of each name over the
    canonical defaults, every limit lies between one and its supported maximum; the
    result then has exactly those values. *)
Theorem from_overrides_exact overrides :
  Forall (fun o => 0 <= o.2 <= u64_max) overrides ->
  exists r, from_overrides overrides = Some r /\
  (is_ok r = true <->
     (forall o, o ∈ overrides -> o.1 ∈ FIELDS) /\
     (forall name v m, override_of overrides name = Some v -> supported_maximum name = Some m -> 1 <= v <= m)) /\
  (forall l, r = Ok l -> forall name, get l name = override_of overrides name).
Proof.
  intros Hu. rewrite Forall_forall in Hu. unfold from_overrides.
  assert (forall name v, override_of overrides name = Some v -> 0 <= v) as Hpos.
  { intros name. unfold override_of. assert (forall v, get QueryLimits_CANONICAL name = Some v -> 0 <= v) as H0.
    { intros v. unfold get. destruct (field_named name) as [f|] eqn:Ef; [|done].
      apply field_named_In in Ef as [Hf _]. intros [= <-]. unfold query_limit_fields in Hf. cbn [In] in Hf.
      repeat (destruct Hf as [<-|Hf]; [vm_compute; discriminate|]). destruct Hf. }
    revert H0. generalize (get QueryLimits_CANONICAL name). clear -Hu.
    induction overrides as [|o os IH]; intros acc H0; [done|]. cbn [fold_left]. apply IH.
    - intros o' Ho'. apply Hu. by right.
    - destruct (str_eqb o.1 name); [|done]. intros v [= <-]. apply Hu. by left. }
  destruct (apply_overrides_spec overrides QueryLimits_CANONICAL) as [(l & -> & Hok & Hl)|(e & -> & Hbad)].
  - destruct (validate_spec l) as (r & -> & Hr). exists r. split; [done|].
    change (forall name, get l name = override_of overrides name) in Hl. split.
    + destruct Hr as [[-> Hv]|(name & v & m & -> & _ & _ & Hbad)]; simpl.
      * split; [|done]. intros _. split; [intros o Ho; by apply Hok|]. intros name v m Ho Hm.
        pose proof (Hpos name v Ho). rewrite <- Hl in Ho. specialize (Hv name v m Ho Hm). lia.
      * split; [done|]. intros [_ H]. destruct Hbad. intros n v' m' Hn Hm'. rewrite Hl in Hn.
        specialize (H n v' m' Hn Hm'). lia.
    + intros l' ->. destruct Hr as [[[= ->] _]|(? & ? & ? & [=] & _)]. done.
  - exists (Err e). split; [done|]. split; [|done]. split; [done|]. intros [Hn _]. destruct Hbad.
    intros o Ho. split; [by apply Hn|]. by apply Hu.
Qed.

(** ** Negotiation *)

Lemma min_fields_spec names l other :
  (forall name, name ∈ names -> name ∈ FIELDS) -> NoDup names ->
  exists m, min_fields l other names = Some m /\
  forall name, get m name =
    if smem name names then match get l name, get other name with Some a, Some b => Some (Z.min a b) | _, _ => None end
    else get l name.
Proof.
  revert l. induction names as [|n names IH]; intros l Hf Hnd; cbn [min_fields].
  { exists l. by split. }
  apply NoDup_cons in Hnd as [Hn Hnd]. assert (n ∈ FIELDS) as Hin by (apply Hf; by left).
  destruct (get_listed l n Hin) as (a & _ & Ha & _). destruct (get_listed other n Hin) as (b & _ & Hb & _).
  rewrite Ha, Hb. destruct (get_set l n (Z.min a b) Hin) as (l1 & -> & Hg).
  change (default l (Some l1)) with l1.
  destruct (IH l1) as (m & -> & Hm); [intros x Hx; apply Hf; by right|done|]. exists m. split; [done|].
  intros name. rewrite Hm, Hg. unfold str_eqb.
  assert (smem name (n :: names) = oeqb n name || smem name names) as ->.
  { apply eq_true_iff_eq. rewrite orb_true_iff, oeqb_true, !smem_true, elem_of_cons. intuition congruence. }
  destruct (oeqb_spec n name) as [<-|Hne]; [|done]. cbn [orb]. apply smem_false in Hn. rewrite Hn, Ha, Hb. done.
Qed.

(** Negotiating two limit sets never panics; every limit of the result is the
    smaller of the two, so the result is valid when both sides are, admits nothing
    either side refuses, and does not depend on which side asks. *)
Theorem negotiation_exact a b :
  exists m, QueryLimits_min a b = Some m /\
  (forall name v w, get a name = Some v -> get b name = Some w -> get m name = Some (Z.min v w)) /\
  (valid a -> valid b -> valid m) /\
  (exists m', QueryLimits_min b a = Some m' /\ forall name, get m' name = get m name).
Proof.
  assert (NoDup FIELDS) as Hnd by (apply (bool_decide_eq_true_1 (NoDup FIELDS)); vm_compute; reflexivity).
  assert (forall a b, exists m, QueryLimits_min a b = Some m /\ forall name, get m name =
    match get a name, get b name with Some v, Some w => Some (Z.min v w) | _, _ => None end) as H.
  { clear a b. intros a b. destruct (min_fields_spec FIELDS a b) as (m & Hm & Hg); [done..|]. exists m. split; [done|].
    intros name. rewrite Hg. destruct (smem name FIELDS) eqn:E; [done|]. apply smem_false in E.
    rewrite fields_listed in E. unfold get. destruct (field_named name); [by destruct E|done]. }
  destruct (H a b) as (m & Hm & Hg). destruct (H b a) as (m' & Hm' & Hg'). exists m. split_and!; [done| | |].
  - intros name v w Hv Hw. by rewrite Hg, Hv, Hw.
  - intros Ha Hb name v mx Hv Hx. rewrite Hg in Hv. destruct (get a name) as [x|] eqn:Ex; [|done].
    destruct (get b name) as [y|] eqn:Ey; [|done]. injection Hv as <-.
    destruct (Ha name x mx Ex Hx), (Hb name y mx Ey Hx). lia.
  - exists m'. split; [done|]. intros name. rewrite Hg, Hg'. destruct (get a name), (get b name); [f_equal; apply Z.min_comm|reflexivity..].
Qed.

Lemma codes_named code limit l : limit_of_code code = Some limit -> is_Some (get l limit).
Proof.
  unfold limit_of_code. destruct (List.find _ _) as [e|] eqn:E; [|done]. intros [= <-].
  apply find_some in E as [Hin _].
  assert (forallb (fun e : string * str => smem e.2 FIELDS) LIMIT_BY_DIAGNOSTIC_CODE = true) as H
    by (vm_compute; reflexivity).
  rewrite forallb_forall in H. apply H, smem_true in Hin. destruct (get_listed l e.2 Hin) as (v & _ & -> & _). by eexists.
Qed.

(** A resource-limit refusal whose code the table knows and that names no limit
    yet is attributed to a limit that exists: the annotation records its name, the
    value in force (capped at the 64-bit signed maximum), and as source the
    advertisement exactly when it is stricter than the caller's own value, else
    whether the value in force is the default. *)
Theorem refusal_attributed merged configured d limit :
  d_category (about d) = ResourceLimit -> mget b#"limit" (details d) = None ->
  limit_of_code (d_code (about d)) = Some limit ->
  exists v w, get merged limit = Some v /\ get configured limit = Some w /\
  let ds := details (annotate_negotiated merged configured d) in
  mget b#"limit" ds = Some (DText limit) /\ mget b#"maximum" ds = Some (DLong (Z.min i64_max v)) /\
  mget b#"source" ds = Some (DText (if v <? w then LIMIT_SOURCE_ADVERTISED else source_of merged limit)).
Proof.
  intros Hc Hl Hcode. destruct (codes_named _ _ merged Hcode) as [v Hv].
  destruct (codes_named _ _ configured Hcode) as [w Hw]. exists v, w. split_and!; [done..|].
  unfold annotate_negotiated, annotate. rewrite Hcode. unfold annotate_limit.
  rewrite bool_decide_eq_true_2 by done. apply mmem_false in Hl. rewrite Hl. cbn [negb orb]. rewrite Hv.
  unfold mark_advertised, with_detail. cbn [details about].
  assert (b#"maximum" <> b#"limit" /\ b#"source" <> b#"limit" /\ b#"source" <> b#"maximum") as (N1 & N2 & N3) by done.
  rewrite !(mget_mins_ne b#"source"), (mget_mins_ne b#"maximum"), mget_mins_eq by done.
  rewrite Hv, Hw. cbn [option_ltb]. destruct (v <? w); cbn [details];
    rewrite ?(mget_mins_ne b#"source" b#"limit"), ?(mget_mins_ne b#"source" b#"maximum"),
      ?(mget_mins_ne b#"maximum" b#"limit"), ?mget_mins_eq by done; done.
Qed.

(** ** Examples *)

Lemma from_overrides_exact_w :
  exists r, from_overrides [(b#"bindings", 300); (b#"bindings", 12)] = Some r /\ is_ok r = true.
Proof.
  destruct (from_overrides_exact [(b#"bindings", 300); (b#"bindings", 12)]) as (r & Hr & Hok & _).
  { repeat constructor; vm_compute; discriminate. }
  exists r. split; [exact Hr|]. vm_compute in Hr. injection Hr as <-. reflexivity.
Defined.

Lemma refusal_attributed_w :
  let d := detailed (stable ResourceLimit "query_plan_binding_limit") [] in
  mget b#"source" (details (annotate_negotiated QueryLimits_CANONICAL QueryLimits_CANONICAL d))
    = Some (DText LIMIT_SOURCE_DEFAULT).
Proof.
  destruct (refusal_attributed QueryLimits_CANONICAL QueryLimits_CANONICAL
    (detailed (stable ResourceLimit "query_plan_binding_limit") []) b#"bindings") as (v & w & Hv & Hw & _ & _ & Hs).
  - reflexivity.
  - reflexivity.
  - vm_compute. reflexivity.
  - rewrite Hv in Hw. injection Hw as <-. rewrite Z.ltb_irrefl in Hs. cbv zeta. rewrite Hs. vm_compute. reflexivity.
Defined.

End Limits.
