(* ===== verification/Codec.v ===== *)
(** * The canonical codec (contract/src/codec.rs)

    Encoding a value to canonical JSON: numbers are rebuilt, object keys sorted,
    and the nesting depth, the collections, the strings and the bytes held to their
    ceilings. Printing a JSON value is serde_json's and an argument. A value is
    encoded exactly when it is within the ceilings. *)

From Stdlib Require Import Sorting.Sorted.
From S2P Require Import Prelude BTree Text Limits.
Import Limits.
#[local] Open Scope Z_scope.

Module Codec.

(** ** JSON values *)

(** [serde_json::Number]; a finite float is [mantissa * 2 ^ exponent]. *)
Inductive Number : Set := PosInt (z : Z) | NegInt (z : Z) | Float (mantissa exponent : Z).

(** [serde_json::Value], the entries of an object in iteration order. *)
Inductive Json : Set :=
| JNull | JBool (b : bool) | JNumber (n : Number) | JString (s : str) | JArray (items : list Json)
| JObject (entries : list (str * Json)).

(** Induction through the items and entries of a value. *)
Lemma Json_rect' (P : Json -> Prop) :
  P JNull -> (forall b, P (JBool b)) -> (forall n, P (JNumber n)) -> (forall s, P (JString s)) ->
  (forall items, Forall P items -> P (JArray items)) ->
  (forall entries, Forall (fun e => P e.2) entries -> P (JObject entries)) -> forall v, P v.
Proof.
  intros Hn Hb Hm Hs Ha Ho. fix IH 1. intros [| | | |items|entries]; [done|apply Hb|apply Hm|apply Hs| |].
  - apply Ha. induction items as [|v items IHi]; constructor; [apply IH|done].
  - apply Ho. induction entries as [|[k v] entries IHe]; constructor; [apply IH|done].
Qed.

(** ** Numbers *)

Definition as_i64 (n : Number) : option Z :=
  match n with
  | PosInt z => if z <=? i64_max then Some z else None
  | NegInt z => Some z
  | Float _ _ => None
  end.

Definition as_u64 (n : Number) : option Z := match n with PosInt z => Some z | _ => None end.

Definition from_i64 (z : Z) : Number := if z <? 0 then NegInt z else PosInt z.

(** A finite float goes through [as_f64] and [from_f64] unchanged. *)
Definition normalize_number (n : Number) : option Number :=
  match as_i64 n with
  | Some z => Some (from_i64 z)
  | None =>
      match as_u64 n with
      | Some z => Some (PosInt z)
      | None => match n with Float mantissa exponent => Some (Float mantissa exponent) | _ => None end
      end
  end.

Definition encode_failed : Diagnostic := stable InvalidContract "canonical_json_encode_failed".

Fixpoint normalize_numbers (value : Json) : result Diagnostic Json :=
  match value with
  | JArray values => let? values := try_map normalize_numbers values in Ok (JArray values)
  | JObject values =>
      let? values := try_map (fun e => let? v := normalize_numbers e.2 in Ok (e.1, v)) values in Ok (JObject values)
  | JNumber number => match normalize_number number with Some n => Ok (JNumber n) | None => Err encode_failed end
  | JNull | JBool _ | JString _ => Ok value
  end.

(** ** Keys *)

Fixpoint insert_entry (e : str * Json) (entries : list (str * Json)) : list (str * Json) :=
  match entries with
  | [] => [e]
  | e' :: rest => match cmp e.1 e'.1 with Gt => e' :: insert_entry e rest | _ => e :: entries end
  end.

Definition sort_entries (entries : list (str * Json)) : list (str * Json) := fold_right insert_entry [] entries.

Fixpoint sort_object_keys (value : Json) : Json :=
  match value with
  | JArray values => JArray (map sort_object_keys values)
  | JObject values => JObject (sort_entries (map (fun e => (e.1, sort_object_keys e.2)) values))
  | JNull | JBool _ | JNumber _ | JString _ => value
  end.

(** ** Ceilings *)

Definition size {A} (l : list A) : Z := Z.of_nat (length l).

Definition ensure_bytes (actual : Z) (limits : CodecLimits) : result Diagnostic () :=
  if actual <=? max_bytes limits then Ok tt else Err (stable ResourceLimit "canonical_json_too_large").

Definition ensure_collection (actual : Z) (limits : CodecLimits) : result Diagnostic () :=
  if actual <=? max_collection_len limits then Ok tt else Err (stable ResourceLimit "canonical_collection_too_large").

Definition ensure_string (actual : Z) (limits : CodecLimits) : result Diagnostic () :=
  if actual <=? max_string_bytes limits then Ok tt else Err (stable ResourceLimit "canonical_string_too_large").

Fixpoint inspect (value : Json) (depth : Z) (limits : CodecLimits) : result Diagnostic () :=
  if max_depth limits <? depth then Err (stable ResourceLimit "canonical_json_too_deep")
  else match value with
       | JString value => ensure_string (size value) limits
       | JArray values =>
           let? _ := ensure_collection (size values) limits in
           let? _ := try_map (fun v => inspect v (depth + 1) limits) values in
           Ok tt
       | JObject values =>
           let? _ := ensure_collection (size values) limits in
           let? _ := try_map (fun e => let? _ := ensure_string (size e.1) limits in inspect e.2 (depth + 1) limits) values in
           Ok tt
       | JNull | JBool _ | JNumber _ => Ok tt
       end.

(** ** Encoding *)

Section encode.
(** [serde_json::to_vec] *)
Context (to_vec : Json -> option str).

(** [to_canonical_json_with_limits], from the value serde makes of its argument. *)
Definition to_canonical_json_with_limits (value : option Json) (limits : CodecLimits) : result Diagnostic str :=
  let? value := ok_or value encode_failed in
  let? value := normalize_numbers value in
  let value := sort_object_keys value in
  let? _ := inspect value 1 limits in
  let? bytes := ok_or (to_vec value) encode_failed in
  let? _ := ensure_bytes (size bytes) limits in
  Ok bytes.

Definition to_canonical_json (value : option Json) : result Diagnostic str :=
  to_canonical_json_with_limits value CANONICAL_CODEC_LIMITS.

End encode.

(** ** What the ceilings bound *)

(** The nesting depth, the strings and keys, and the sizes of the collections of a value. *)
Fixpoint nesting (value : Json) : Z :=
  match value with
  | JArray values => 1 + fold_right (fun v n => Z.max (nesting v) n) 0 values
  | JObject values => 1 + fold_right (fun e n => Z.max (nesting e.2) n) 0 values
  | _ => 1
  end.

Fixpoint texts (value : Json) : list str :=
  match value with
  | JString s => [s]
  | JArray values => concat (map texts values)
  | JObject values => concat (map (fun e => e.1 :: texts e.2) values)
  | _ => []
  end.

Fixpoint sizes (value : Json) : list Z :=
  match value with
  | JArray values => size values :: concat (map sizes values)
  | JObject values => size values :: concat (map (fun e => sizes e.2) values)
  | _ => []
  end.

Record within (limits : CodecLimits) (depth : Z) (value : Json) : Prop := {
  within_depth : depth + nesting value <= max_depth limits;
  within_texts : Forall (fun s => size s <= max_string_bytes limits) (texts value);
  within_sizes : Forall (fun n => n <= max_collection_len limits) (sizes value) }.

(** ** Encoding is exact *)

Lemma try_map_units {A} (f : A -> result Diagnostic ()) l :
  (exists us, try_map f l = Ok us) <-> Forall (fun a => f a = Ok tt) l.
Proof.
  induction l as [|a l IH]; cbn; [split; [constructor|by eexists]|]. rewrite Forall_cons, <- IH.
  destruct (f a) as [[]|e]; cbn; [|split; [by intros [? [=]]|by intros [[=] _]]].
  destruct (try_map f l); split; try naive_solver.
Qed.

Lemma fold_max_pos {A} (f : A -> Z) l : 0 <= fold_right (fun a m => Z.max (f a) m) 0 l.
Proof. induction l as [|a l IH]; cbn; lia. Qed.

Lemma nesting_pos v : 1 <= nesting v.
Proof.
  destruct v as [| | | |items|entries]; cbn [nesting]; [lia..| |];
    [pose proof (fold_max_pos nesting items)|pose proof (fold_max_pos (fun e => nesting e.2) entries)]; lia.
Qed.

(** A collection at a depth: the next depth is allowed wherever there is something. *)
Lemma nesting_below {A} (f : A -> Z) l depth bound :
  (forall a, 1 <= f a) ->
  depth - 1 + (1 + fold_right (fun a m => Z.max (f a) m) 0 l) <= bound <->
  depth <= bound /\ Forall (fun a => depth + 1 - 1 + f a <= bound) l.
Proof.
  intros Hf. induction l as [|a l IH]; cbn; [split; [split; [lia|constructor]|lia]|].
  rewrite Forall_cons. specialize (Hf a). destruct IH as [IH1 IH2]. split.
  - intros H. destruct IH1 as [? ?]; [lia|]. split_and!; [done|lia|done].
  - intros (H1 & H2 & H3). specialize (IH2 (conj H1 H3)). lia.
Qed.

Lemma Forall_concat_map {A B} (P : B -> Prop) (f : A -> list B) l :
  Forall P (concat (map f l)) <-> Forall (fun a => Forall P (f a)) l.
Proof. induction l as [|a l IH]; cbn; [split; constructor|]. by rewrite Forall_app, Forall_cons, IH. Qed.

(** A collection of things that are inspected one by one. *)
Lemma inspect_collection {A} limits depth (l : list A) (check : A -> result Diagnostic ())
    (nest : A -> Z) (strings : A -> list str) (collections : A -> list Z) :
  (forall a, 1 <= nest a) ->
  Forall (fun a => check a = Ok tt <-> depth + 1 - 1 + nest a <= max_depth limits /\
    Forall (fun s => size s <= max_string_bytes limits) (strings a) /\
    Forall (fun n => n <= max_collection_len limits) (collections a)) l ->
  (if max_depth limits <? depth then Err (stable ResourceLimit "canonical_json_too_deep")
   else let? _ := ensure_collection (size l) limits in let? _ := try_map check l in Ok tt) = Ok tt <->
  depth - 1 + (1 + fold_right (fun a m => Z.max (nest a) m) 0 l) <= max_depth limits /\
  Forall (fun s => size s <= max_string_bytes limits) (concat (map strings l)) /\
  Forall (fun n => n <= max_collection_len limits) (size l :: concat (map collections l)).
Proof.
  intros Hn Hc. rewrite (nesting_below nest l depth _ Hn), Forall_cons, !Forall_concat_map.
  pose proof (try_map_units check l) as Hm. unfold ensure_collection.
  assert (Forall (fun a => check a = Ok tt) l <-> Forall (fun a => depth + 1 - 1 + nest a <= max_depth limits) l /\
    Forall (fun a => Forall (fun s => size s <= max_string_bytes limits) (strings a)) l /\
    Forall (fun a => Forall (fun n => n <= max_collection_len limits) (collections a)) l) as Hs.
  { rewrite !Forall_forall. rewrite Forall_forall in Hc. split; [intros H; split_and!; intros a Ha; by apply Hc; [|apply H]|].
    intros (H1 & H2 & H3) a Ha. apply Hc; [done|]. by split_and!; [apply H1|apply H2|apply H3]. }
  rewrite Hs in Hm.
  destruct (Z.ltb_spec (max_depth limits) depth); [split; [done|lia]|].
  destruct (Z.leb_spec (size l) (max_collection_len limits)); [|split; [done|lia]].
  destruct (try_map check l) as [us|e]; split; try done.
  - intros _. destruct (proj1 Hm) as (? & ? & ?); [by eexists|]. by split_and!.
  - intros ((_ & H1) & H2 & _ & H3). by destruct (proj2 Hm) as [? [=]].
Qed.

Lemma within_iff limits depth v : within limits depth v <->
  depth + nesting v <= max_depth limits /\ Forall (fun s => size s <= max_string_bytes limits) (texts v) /\
  Forall (fun n => n <= max_collection_len limits) (sizes v).
Proof. split; [by intros []|]. intros (? & ? & ?). by split. Qed.

(** [inspect] accepts exactly the values within the ceilings. *)
Lemma inspect_iff limits v : forall depth, inspect v depth limits = Ok tt <-> within limits (depth - 1) v.
Proof.
  assert (forall depth,
    (if max_depth limits <? depth then Err (stable ResourceLimit "canonical_json_too_deep") else Ok tt) = Ok tt <->
    depth - 1 + 1 <= max_depth limits) as Hdepth
    by (intros depth; destruct (Z.ltb_spec (max_depth limits) depth); split; try done; lia).
  assert (forall depth v, nesting v = 1 -> texts v = [] -> sizes v = [] -> depth - 1 + 1 <= max_depth limits <->
    within limits (depth - 1) v) as Hscalar.
  { intros depth w Hn Ht Hs. rewrite within_iff, Hn, Ht, Hs. split; [|by intros [? _]]. intros H. by split_and!. }
  induction v as [|b|n|s|items IH|entries IH] using Json_rect'; intros depth; cbn [inspect];
    try (rewrite Hdepth; by apply Hscalar).
  - rewrite within_iff. cbn [nesting texts sizes]. rewrite <- (Hdepth depth), Forall_singleton. unfold ensure_string.
    destruct (max_depth limits <? depth); [split; [done|by intros [? _]]|].
    destruct (Z.leb_spec (size s) (max_string_bytes limits)); [by split|].
    split; [done|]. intros (_ & ? & _). lia.
  - rewrite within_iff. apply (inspect_collection limits depth items _ nesting texts sizes); [apply nesting_pos|].
    eapply Forall_impl; [exact IH|]. cbn. intros v Hv. by rewrite Hv, within_iff.
  - rewrite within_iff. apply (inspect_collection limits depth entries _ (fun e => nesting e.2) (fun e => e.1 :: texts e.2) (fun e => sizes e.2));
      [intros e; apply nesting_pos|].
    eapply Forall_impl; [exact IH|]. cbn. intros [k v] Hv. cbn in *. rewrite Forall_cons. unfold ensure_string.
    destruct (Z.leb_spec (size k) (max_string_bytes limits)); cbn; [rewrite Hv, within_iff; tauto|].
    split; [done|]. intros (_ & [? _] & _). lia.
Qed.

(** *** Normalizing and sorting change none of it *)

Record same_shape (v v' : Json) : Prop := {
  same_nesting : nesting v' = nesting v;
  same_texts : texts v' ≡ₚ texts v;
  same_sizes : sizes v' ≡ₚ sizes v }.

Lemma within_shape limits depth v v' : same_shape v v' -> within limits depth v' <-> within limits depth v.
Proof. intros [H1 H2 H3]. by rewrite !within_iff, H1, H2, H3. Qed.

Lemma same_shape_trans v v' v'' : same_shape v v' -> same_shape v' v'' -> same_shape v v''.
Proof. intros [H1 H2 H3] [K1 K2 K3]. split; [by rewrite K1|by rewrite K2|by rewrite K3]. Qed.

Lemma normalize_number_total n : exists n', normalize_number n = Some n'.
Proof. destruct n as [z|z|m e]; unfold normalize_number; cbn; [destruct (z <=? i64_max)|..]; by eexists. Qed.

Lemma concat_map_perm {A B} (f : A -> list B) l l' : l ≡ₚ l' -> concat (map f l) ≡ₚ concat (map f l').
Proof.
  induction 1 as [|a l l' H IH|a b l|l l' l'' H1 IH1 H2 IH2]; cbn; [done|by rewrite IH| |by rewrite IH1].
  by rewrite !app_assoc, (Permutation_app_comm (f b)).
Qed.

Lemma fold_max_perm {A} (f : A -> Z) l l' :
  l ≡ₚ l' -> fold_right (fun a m => Z.max (f a) m) 0 l = fold_right (fun a m => Z.max (f a) m) 0 l'.
Proof. induction 1; cbn; lia. Qed.

(** An array and an object have the shape their parts have, in whatever order. *)
Lemma same_shape_array items items' : Forall2 same_shape items items' -> same_shape (JArray items) (JArray items').
Proof.
  intros H. split; cbn [nesting texts sizes].
  - f_equal. induction H as [|v v' items items' [Hv _ _] H IH]; cbn; [done|]. by rewrite Hv, IH.
  - induction H as [|v v' items items' [_ Hv _] H IH]; cbn; [done|]. by rewrite Hv, IH.
  - unfold size. rewrite <- (Forall2_length _ _ _ H). f_equiv.
    induction H as [|v v' items items' [_ _ Hv] H IH]; cbn; [done|]. by rewrite Hv, IH.
Qed.

Lemma same_shape_object entries entries' :
  Forall2 (fun e e' => e'.1 = e.1 /\ same_shape e.2 e'.2) entries entries' ->
  same_shape (JObject entries) (JObject entries').
Proof.
  intros H. split; cbn [nesting texts sizes].
  - f_equal. induction H as [|e e' entries entries' [_ [Hv _ _]] H IH]; cbn; [done|]. by rewrite Hv, IH.
  - induction H as [|e e' entries entries' [Hk [_ Hv _]] H IH]; cbn; [done|]. by rewrite Hk, Hv, IH.
  - unfold size. rewrite <- (Forall2_length _ _ _ H). f_equiv.
    induction H as [|e e' entries entries' [_ [_ _ Hv]] H IH]; cbn; [done|]. by rewrite Hv, IH.
Qed.

Lemma same_shape_permuted entries entries' : entries ≡ₚ entries' -> same_shape (JObject entries) (JObject entries').
Proof.
  intros H. split; cbn [nesting texts sizes].
  - f_equal. by apply fold_max_perm.
  - by apply concat_map_perm.
  - unfold size. by rewrite H.
Qed.

Lemma same_shape_refl v : same_shape v v.
Proof. done. Qed.

Lemma try_map_related {A B} (f : A -> result Diagnostic B) (R : A -> B -> Prop) l :
  Forall (fun a => exists b, f a = Ok b /\ R a b) l -> exists l', try_map f l = Ok l' /\ Forall2 R l l'.
Proof.
  induction 1 as [|a l (b & Hb & Hr) Hl (l' & Hl' & Hrs)]; cbn; [by exists []|].
  rewrite Hb. cbn. rewrite Hl'. exists (b :: l'). by split; [|constructor].
Qed.

(** Every number of a JSON value can be rebuilt. *)
Lemma normalize_numbers_total v : exists v', normalize_numbers v = Ok v' /\ same_shape v v'.
Proof.
  induction v as [|b|n|s|items IH|entries IH] using Json_rect'; cbn [normalize_numbers];
    try (eexists; split; [done|apply same_shape_refl]).
  - destruct (normalize_number_total n) as [n' ->]. by exists (JNumber n').
  - destruct (try_map_related _ _ _ IH) as (items' & -> & H). exists (JArray items').
    split; [done|by apply same_shape_array].
  - destruct (try_map_related (fun e => let? v := normalize_numbers e.2 in Ok (e.1, v))
      (fun e e' => e'.1 = e.1 /\ same_shape e.2 e'.2) entries) as (entries' & -> & H).
    { eapply Forall_impl; [exact IH|]. cbn. intros e (v & -> & Hv). by exists (e.1, v). }
    exists (JObject entries'). split; [done|by apply same_shape_object].
Qed.

Lemma insert_entry_perm e entries : insert_entry e entries ≡ₚ e :: entries.
Proof. induction entries as [|e' rest IH]; cbn; [done|]. case_match; [done..|]. rewrite IH. constructor. Qed.

Lemma sort_entries_perm entries : sort_entries entries ≡ₚ entries.
Proof. induction entries as [|e rest IH]; cbn; [done|]. by rewrite insert_entry_perm, IH. Qed.

Lemma sort_object_keys_shape v : same_shape v (sort_object_keys v).
Proof.
  induction v as [|b|n|s|items IH|entries IH] using Json_rect'; cbn [sort_object_keys]; try apply same_shape_refl.
  - apply same_shape_array. induction IH; constructor; done.
  - eapply same_shape_trans; [|apply same_shape_permuted; symmetry; apply sort_entries_perm].
    apply same_shape_object. induction IH; constructor; done.
Qed.

(** ** Canonical values *)

(** The keys of every object of the value are in order. *)
Fixpoint ordered (value : Json) : Prop :=
  match value with
  | JArray values => fold_right (fun v p => ordered v /\ p) True values
  | JObject values =>
      Sorted (fun e e' => cmp e.1 e'.1 <> Gt) values /\ fold_right (fun e p => ordered e.2 /\ p) True values
  | _ => True
  end.

Lemma insert_entry_sorted e entries :
  Sorted (fun e e' => cmp e.1 e'.1 <> Gt) entries -> Sorted (fun e e' => cmp e.1 e'.1 <> Gt) (insert_entry e entries).
Proof.
  induction 1 as [|e' rest Hs IH Hd]; cbn; [by repeat constructor|].
  destruct (cmp e.1 e'.1) eqn:Hc; [by repeat (constructor; try congruence)..|]. constructor; [done|].
  assert (cmp e'.1 e.1 <> Gt) as Hle by (rewrite (cmp_opp e.1 e'.1), Hc; done).
  destruct rest as [|e'' rest]; cbn; [by constructor|]. inversion Hd; subst.
  destruct (cmp e.1 e''.1); by constructor.
Qed.

Lemma sort_object_keys_ordered v : ordered (sort_object_keys v).
Proof.
  induction v as [|b|n|s|items IH|entries IH] using Json_rect'; cbn [sort_object_keys ordered]; try done.
  - by induction IH.
  - split.
    + clear IH. unfold sort_entries. induction entries; cbn; [constructor|by apply insert_entry_sorted].
    + assert (Forall (fun e => ordered e.2) (sort_entries (map (fun e => (e.1, sort_object_keys e.2)) entries))) as H.
      { rewrite sort_entries_perm. by apply Forall_fmap. }
      by induction H.
Qed.

(** What is printed of a value: its numbers rebuilt and its keys sorted. *)
Definition canonical (value : Json) : option Json :=
  match normalize_numbers value with Ok value => Some (sort_object_keys value) | Err _ => None end.

Section encoding.
Context (to_vec : Json -> option str) (limits : CodecLimits).

(** A value is encoded exactly when it is within the ceilings, serde_json prints its
    canonical form, and the bytes are within theirs. *)
Lemma encode_iff v bytes :
  to_canonical_json_with_limits to_vec (Some v) limits = Ok bytes <->
  within limits 0 v /\ canonical v ≫= to_vec = Some bytes /\ size bytes <= max_bytes limits.
Proof.
  destruct (normalize_numbers_total v) as (w & Hw & Hs).
  unfold to_canonical_json_with_limits, canonical. cbn [ok_or]. rewrite Hw. cbn [mbind option_bind].
  pose proof (inspect_iff limits (sort_object_keys w) 1) as Hi.
  rewrite (within_shape limits _ v) in Hi by (eapply same_shape_trans; [done|apply sort_object_keys_shape]).
  change (1 - 1) with 0 in Hi. rewrite <- Hi. destruct (inspect _ _ _) as [[]|e]; [|split; [done|by intros [[=] _]]].
  destruct (to_vec _) as [printed|]; cbn [ok_or]; [|split; [done|by intros (_ & [=] & _)]]. unfold ensure_bytes.
  destruct (Z.leb_spec (size printed) (max_bytes limits)); split; try naive_solver lia.
Qed.

End encoding.

(** Every value has a canonical form, whose objects have their keys in order. *)
Lemma canonical_ordered v : exists w, canonical v = Some w /\ ordered w /\ same_shape v w.
Proof.
  destruct (normalize_numbers_total v) as (w & Hw & Hs). exists (sort_object_keys w). unfold canonical. rewrite Hw.
  split_and!; [done|apply sort_object_keys_ordered|]. eapply same_shape_trans; [done|apply sort_object_keys_shape].
Qed.

(** *** Values within the ceilings, constructor by constructor *)

Lemma within_array limits depth items : within limits depth (JArray items) <->
  depth + 1 <= max_depth limits /\ size items <= max_collection_len limits /\ Forall (within limits (depth + 1)) items.
Proof.
  rewrite within_iff. cbn [nesting texts sizes]. rewrite Forall_cons, !Forall_concat_map.
  pose proof (nesting_below nesting items (depth + 1) (max_depth limits) nesting_pos) as Hn.
  rewrite Z.add_simpl_r in Hn. setoid_rewrite Z.add_simpl_r in Hn.
  rewrite Hn, !Forall_forall. setoid_rewrite within_iff. naive_solver.
Qed.

Lemma within_object limits depth entries : within limits depth (JObject entries) <->
  depth + 1 <= max_depth limits /\ size entries <= max_collection_len limits /\
  Forall (fun e => size e.1 <= max_string_bytes limits /\ within limits (depth + 1) e.2) entries.
Proof.
  rewrite within_iff. cbn [nesting texts sizes]. rewrite Forall_cons, !Forall_concat_map.
  pose proof (nesting_below (fun e : str * Json => nesting e.2) entries (depth + 1) (max_depth limits)
    (fun e => nesting_pos e.2)) as Hn.
  rewrite Z.add_simpl_r in Hn. setoid_rewrite Z.add_simpl_r in Hn.
  rewrite Hn, !Forall_forall. setoid_rewrite within_iff. setoid_rewrite Forall_cons. naive_solver.
Qed.

Lemma within_string limits depth s : within limits depth (JString s) <->
  depth + 1 <= max_depth limits /\ size s <= max_string_bytes limits.
Proof. rewrite within_iff. cbn [nesting texts sizes]. rewrite Forall_singleton. naive_solver. Qed.

Lemma within_number limits depth n : within limits depth (JNumber n) <-> depth + 1 <= max_depth limits.
Proof. rewrite within_iff. cbn [nesting texts sizes]. split; [by intros [? _]|]. intros H. by split_and!. Qed.

(** *** Key order *)

(** The same value up to the order of the entries of its objects, whose keys are
    distinct. *)
Inductive reordered : Json -> Json -> Prop :=
| reordered_same v : reordered v v
| reordered_array items items' : Forall2 reordered items items' -> reordered (JArray items) (JArray items')
| reordered_object entries middle entries' :
    NoDup (map fst entries) -> Forall2 (fun e e' => e'.1 = e.1 /\ reordered e.2 e'.2) entries middle ->
    middle ≡ₚ entries' -> reordered (JObject entries) (JObject entries').

Definition canonical_form (v : Json) : Json := default v (canonical v).

Lemma canonical_total v : canonical v = Some (canonical_form v).
Proof. unfold canonical_form. by destruct (canonical_ordered v) as (w & -> & _). Qed.

Lemma canonical_array items : canonical_form (JArray items) = JArray (map canonical_form items).
Proof.
  pose proof (canonical_total (JArray items)) as H. unfold canonical in H. cbn [normalize_numbers] in H.
  destruct (try_map normalize_numbers items) as [ws|] eqn:E; [|done]. injection H as <-. cbn [sort_object_keys]. f_equal.
  revert ws E. induction items as [|v items IH]; intros ws; cbn; [by intros [= <-]|].
  pose proof (canonical_total v) as Hv. unfold canonical in Hv. destruct (normalize_numbers v) as [w|]; [|done].
  destruct (try_map normalize_numbers items) as [rest|]; [|done]. intros [= <-]. cbn. injection Hv as <-. f_equal. by apply IH.
Qed.

Lemma canonical_object entries :
  canonical_form (JObject entries) = JObject (sort_entries (map (fun e => (e.1, canonical_form e.2)) entries)).
Proof.
  pose proof (canonical_total (JObject entries)) as H. unfold canonical in H. cbn [normalize_numbers] in H.
  destruct (try_map (fun e => let? v := normalize_numbers e.2 in Ok (e.1, v)) entries) as [ws|] eqn:E; [|done]. injection H as <-.
  cbn [sort_object_keys]. do 2 f_equal.
  revert ws E. induction entries as [|[k v] entries IH]; intros ws; cbn; [by intros [= <-]|].
  pose proof (canonical_total v) as Hv. unfold canonical in Hv. destruct (normalize_numbers v) as [w|]; [|done].
  destruct (try_map _ entries) as [rest|]; [|done]. intros [= <-]. cbn. injection Hv as <-. f_equal. by apply IH.
Qed.

Lemma insert_entry_fresh e entries : e.1 ∉ map fst entries -> insert_entry e entries = mins e.1 e.2 entries.
Proof.
  destruct e as [k v]. cbn. induction entries as [|[k' v'] rest IH]; cbn; [done|].
  intros [Hne Hk]%not_elem_of_cons. destruct (cmp k k') eqn:E; [by apply cmp_eq_iff in E|done|by rewrite IH].
Qed.

Lemma sort_entries_sorted entries : NoDup (map fst entries) -> msorted (sort_entries entries).
Proof.
  induction entries as [|[k v] rest IH]; cbn; [constructor|]. intros [Hk Hn]%NoDup_cons.
  rewrite insert_entry_fresh by (cbn; by rewrite sort_entries_perm). by apply mins_sorted, IH.
Qed.

Lemma sort_entries_unique entries entries' :
  NoDup (map fst entries) -> entries ≡ₚ entries' -> sort_entries entries = sort_entries entries'.
Proof.
  intros Hn Hp. assert (NoDup (map fst entries')) as Hn' by (by rewrite <- Hp).
  apply msorted_ext; [by apply sort_entries_sorted..|]. intros k. apply option_eq. intros v.
  rewrite <- !elem_mget by (by apply sort_entries_sorted). by rewrite !sort_entries_perm, Hp.
Qed.

Lemma canonical_reordered v : forall v', reordered v v' -> canonical_form v = canonical_form v'.
Proof.
  induction v as [| | | |items IH|entries IH] using Json_rect'; intros v' H; inversion H as [|? items' Hi|? middle entries' Hn Hm Hp]; subst; try done.
  - rewrite !canonical_array. f_equal. clear H. induction Hi as [|v v' items items' Hv Hi IHi]; [done|]. cbn.
    apply Forall_cons in IH as [IHv IH]. by rewrite (IHv _ Hv), IHi.
  - rewrite !canonical_object. f_equal.
    assert (map (fun e => (e.1, canonical_form e.2)) entries = map (fun e => (e.1, canonical_form e.2)) middle) as ->.
    { clear H Hn Hp. induction Hm as [|e e' entries middle [Hk Hv] Hm IHm]; [done|]. cbn.
      apply Forall_cons in IH as [IHv IH]. by rewrite Hk, (IHv _ Hv), IHm. }
    apply sort_entries_unique; [|by rewrite Hp].
    assert (map fst entries = map fst middle) as E by (clear H Hn Hp IH; induction Hm as [|e e' ? ? [Hk _]]; cbn; by f_equal).
    rewrite map_map. change (NoDup (map fst middle)). by rewrite <- E.
Qed.

(** C37. The canonical encoding does not depend on the order in which the entries of
    objects come: values that differ only in it have the same bytes, or the same error. *)
Theorem encoding_ignores_key_order to_vec limits v v' :
  reordered v v' ->
  to_canonical_json_with_limits to_vec (Some v) limits = to_canonical_json_with_limits to_vec (Some v') limits.
Proof.
  intros H%canonical_reordered. pose proof (canonical_total v) as E. pose proof (canonical_total v') as E'.
  rewrite <- H in E'. unfold canonical in E, E'. unfold to_canonical_json_with_limits. cbn [ok_or].
  destruct (normalize_numbers v) as [w|]; [|done]. destruct (normalize_numbers v') as [w'|]; [|done].
  injection E as E. injection E' as E'. by rewrite E, E'.
Qed.

Lemma encoding_ignores_key_order_witness :
  let a := (b#"a", JNumber (PosInt 1)) in
  let b := (b#"b", JNull) in
  to_canonical_json (fun v => Some (concat (texts v))) (Some (JObject [b; a])) = Ok b#"ab" /\
  to_canonical_json (fun v => Some (concat (texts v))) (Some (JObject [a; b])) = Ok b#"ab".
Proof.
  cbn zeta. split; [|vm_compute; reflexivity]. unfold to_canonical_json.
  rewrite (encoding_ignores_key_order _ _ (JObject [(b#"b", JNull); (b#"a", JNumber (PosInt 1))])
    (JObject [(b#"a", JNumber (PosInt 1)); (b#"b", JNull)])); [vm_compute; reflexivity|].
  apply (reordered_object _ [(b#"b", JNull); (b#"a", JNumber (PosInt 1))]).
  - apply (bool_decide_unpack (NoDup _)). vm_compute. exact I.
  - repeat constructor.
  - apply Permutation_swap.
Defined.

End Codec.
