(* ===== verification/Schema.v ===== *)
(** * Declared schemas (contract/src/schema.rs)

    Schema facts with their stable identities, the validating constructors, and
    [DeclaredSchema::from_facts], which checks fact ownership, references and
    annotations, and fingerprints the canonical bytes of the schema's identity. A
    source span is carried as data; the messages and secondary labels of
    diagnostics are not. The JSON value serde derives for one fact, serde_json's
    printer and SHA-256 are arguments. *)

From S2P Require Import Prelude BTree Text Ident Temporal Value Fingerprint Limits Codec.
Import Ident Value.
#[local] Open Scope Z_scope.

Module Schema.

(** ** Documents and spans *)

Definition MAX_DOCUMENT_ID_BYTES : nat := 4096.

Definition DocumentId : Set := str.

Definition DocumentId_new (value : str) : result Diagnostic DocumentId :=
  let valid_segments :=
    forallb (fun segment => negb (bool_decide (segment = [])) && negb (str_eqb segment b#".")
                            && negb (str_eqb segment b#"..")) (split_on "/"%char value) in
  if bool_decide (value = []) || (MAX_DOCUMENT_ID_BYTES <? length value)%nat
     || starts_with b#"/" value || contains_byte "092"%char value || contains_byte "000"%char value
     || negb valid_segments
  then Err (invalid "invalid_schema_document_id")
  else Ok value.

Record SourceSpan : Set := source_span {
  document : DocumentId; byte_start : Z; byte_end : Z;
  line : Z; column : Z; end_line : Z; end_column : Z }.

Definition SourceSpan_new (d : DocumentId) (bs be l c el ec : Z) : result Diagnostic SourceSpan :=
  if (be <? bs) || (l =? 0) || (c =? 0) || (el =? 0) || (ec =? 0) || oltb (el, ec) (l, c)
  then Err (invalid "invalid_schema_source_span")
  else Ok (source_span d bs be l c el ec).

(** ** Fact identities *)

Record SubFactId : Set := sub_id { subtype : TypeId; supertype : TypeId }.

Definition SubFactId_new (subtype supertype : TypeId) : result Diagnostic SubFactId :=
  if bool_decide (kind subtype = Struct) || bool_decide (kind supertype = Struct)
     || negb (bool_decide (kind subtype = kind supertype)) || bool_decide (subtype = supertype)
  then Err (invalid "invalid_sub_fact")
  else Ok (sub_id subtype supertype).

Definition ValueFactId : Set := AttributeId.

Record OwnsFactId : Set := owns_id { owner : TypeId; owns_attribute : AttributeId }.

Definition owner_kind (k : TypeKind) : bool :=
  match k with Entity | Relation => true | _ => false end.

Definition OwnsFactId_new (owner : TypeId) (attribute : AttributeId) : result Diagnostic OwnsFactId :=
  if negb (owner_kind (kind owner)) then Err (invalid "invalid_owns_owner")
  else Ok (owns_id owner attribute).

Record RelatesFactId : Set := relates_id { relation : TypeId; relates_role : RoleId }.

Definition RelatesFactId_new (relation : TypeId) (role : RoleId) : result Diagnostic RelatesFactId :=
  if negb (bool_decide (kind relation = Relation))
     || negb (str_eqb (type_label relation) (declaring_relation role))
  then Err (invalid "invalid_relates_identity")
  else Ok (relates_id relation role).

Record PlaysFactId : Set := plays_id { player : TypeId; plays_role : RoleId }.

Definition PlaysFactId_new (player : TypeId) (role : RoleId) : result Diagnostic PlaysFactId :=
  if negb (owner_kind (kind player)) then Err (invalid "invalid_plays_player")
  else Ok (plays_id player role).

Inductive AnnotationSubjectId : Set :=
| SubjectType (id : TypeId)
| SubjectSub (id : SubFactId)
| SubjectValue (id : ValueFactId)
| SubjectOwns (id : OwnsFactId)
| SubjectRelates (id : RelatesFactId)
| SubjectPlays (id : PlaysFactId)
| SubjectFunction (id : FunctionId).

Inductive AnnotationKindId : Set :=
| Abstract | Independent | Key | Unique | Distinct | Card | Regex | Range | Values | Doc
| Meta (key : Label).

Record AnnotationFactId : Set :=
  annotation_id { subject : AnnotationSubjectId; annotation_kind : AnnotationKindId }.

Inductive SchemaFactId : Set :=
| IdType (id : TypeId)
| IdSub (id : SubFactId)
| IdValue (id : ValueFactId)
| IdOwns (id : OwnsFactId)
| IdRelates (id : RelatesFactId)
| IdPlays (id : PlaysFactId)
| IdAnnotation (id : AnnotationFactId)
| IdFunction (id : FunctionId)
| IdStruct (id : StructId).

(** *** The derived orders *)

#[global] Instance Ord_SubFactId : Ord SubFactId := ord_by (fun i => (subtype i, supertype i)).
#[global] Instance OrdLaws_SubFactId : OrdLaws SubFactId.
Proof. apply ord_by_laws. intros [] []; simpl; congruence. Qed.
#[global] Instance Ord_OwnsFactId : Ord OwnsFactId := ord_by (fun i => (owner i, owns_attribute i)).
#[global] Instance OrdLaws_OwnsFactId : OrdLaws OwnsFactId.
Proof. apply ord_by_laws. intros [] []; simpl; congruence. Qed.
#[global] Instance Ord_RelatesFactId : Ord RelatesFactId := ord_by (fun i => (relation i, relates_role i)).
#[global] Instance OrdLaws_RelatesFactId : OrdLaws RelatesFactId.
Proof. apply ord_by_laws. intros [] []; simpl; congruence. Qed.
#[global] Instance Ord_PlaysFactId : Ord PlaysFactId := ord_by (fun i => (player i, plays_role i)).
#[global] Instance OrdLaws_PlaysFactId : OrdLaws PlaysFactId.
Proof. apply ord_by_laws. intros [] []; simpl; congruence. Qed.

Definition subject_key (s : AnnotationSubjectId) :
    TypeId + (SubFactId + (str + (OwnsFactId + (RelatesFactId + (PlaysFactId + str))))) :=
  match s with
  | SubjectType i => inl i
  | SubjectSub i => inr (inl i)
  | SubjectValue i => inr (inr (inl i))
  | SubjectOwns i => inr (inr (inr (inl i)))
  | SubjectRelates i => inr (inr (inr (inr (inl i))))
  | SubjectPlays i => inr (inr (inr (inr (inr (inl i)))))
  | SubjectFunction i => inr (inr (inr (inr (inr (inr i)))))
  end.
#[global] Instance Ord_AnnotationSubjectId : Ord AnnotationSubjectId := ord_by subject_key.
#[global] Instance OrdLaws_AnnotationSubjectId : OrdLaws AnnotationSubjectId.
Proof. apply ord_by_laws. intros [] []; simpl; congruence. Qed.

Definition annotation_kind_key (k : AnnotationKindId) : Z * str :=
  match k with
  | Abstract => (0, []) | Independent => (1, []) | Key => (2, []) | Unique => (3, [])
  | Distinct => (4, []) | Card => (5, []) | Regex => (6, []) | Range => (7, [])
  | Values => (8, []) | Doc => (9, []) | Meta key => (10, key)
  end.
#[global] Instance Ord_AnnotationKindId : Ord AnnotationKindId := ord_by annotation_kind_key.
#[global] Instance OrdLaws_AnnotationKindId : OrdLaws AnnotationKindId.
Proof. apply ord_by_laws. intros [] []; simpl; congruence. Qed.

#[global] Instance Ord_AnnotationFactId : Ord AnnotationFactId :=
  ord_by (fun i => (subject i, annotation_kind i)).
#[global] Instance OrdLaws_AnnotationFactId : OrdLaws AnnotationFactId.
Proof. apply ord_by_laws. intros [] []; simpl; congruence. Qed.

Definition fact_id_key (i : SchemaFactId) :
    TypeId + (SubFactId + (str + (OwnsFactId + (RelatesFactId + (PlaysFactId
    + (AnnotationFactId + (str + str))))))) :=
  match i with
  | IdType i => inl i
  | IdSub i => inr (inl i)
  | IdValue i => inr (inr (inl i))
  | IdOwns i => inr (inr (inr (inl i)))
  | IdRelates i => inr (inr (inr (inr (inl i))))
  | IdPlays i => inr (inr (inr (inr (inr (inl i)))))
  | IdAnnotation i => inr (inr (inr (inr (inr (inr (inl i))))))
  | IdFunction i => inr (inr (inr (inr (inr (inr (inr (inl i)))))))
  | IdStruct i => inr (inr (inr (inr (inr (inr (inr (inr i)))))))
  end.
#[global] Instance Ord_SchemaFactId : Ord SchemaFactId := ord_by fact_id_key.
#[global] Instance OrdLaws_SchemaFactId : OrdLaws SchemaFactId.
Proof. apply ord_by_laws. intros [] []; simpl; congruence. Qed.
#[global] Instance SchemaFactId_eq_dec : EqDecision SchemaFactId := ord_eq_dec.

(** ** Annotation payloads *)

Definition bounded_text (code : string) (value : str) : result Diagnostic str :=
  if bool_decide (value = []) || (MAX_CANONICAL_STRING_BYTES <? Z.of_nat (length value))
  then Err (invalid code) else Ok value.

Definition RegexPattern_new : str -> result Diagnostic str := bounded_text "invalid_regex_annotation".
Definition DocText_new : str -> result Diagnostic str := bounded_text "invalid_doc_annotation".
Definition FunctionBody_new : str -> result Diagnostic str := bounded_text "invalid_function_body".

Inductive SchemaAnnotationValue : Set :=
| Presence
| CardinalityAnnotation (c : Cardinality)
| RegexAnnotation (pattern : str)
| RangeAnnotation (r : CanonicalValueRange)
| ValuesAnnotation (s : CanonicalValueSet)
| DocAnnotation (text : str)
| MetaAnnotation (v : CanonicalValue).

(** ** Facts *)

Inductive CollectionMode : Set := Unordered | OrderedList.

Inductive TypeReference : Set := RefValue (t : ValueTypeTag) | RefSchema (label : Label).

Record FunctionParameter : Set := function_parameter { parameter_name : Label; parameter_type : TypeReference }.
Record FunctionReturnElement : Set := return_element { element_type : TypeReference; element_optional : bool }.

Inductive FunctionReturnMode : Set :=
| ScalarReturn (e : FunctionReturnElement)
| TupleReturn (es : list FunctionReturnElement)
| StreamReturn (es : list FunctionReturnElement).

Record FunctionSignature : Set :=
  function_signature { parameters : list FunctionParameter; returns : FunctionReturnMode }.

Record FunctionFact : Set :=
  function_fact { function_id : FunctionId; signature : FunctionSignature; body : str }.

Record StructField : Set :=
  struct_field { field_name : Label; field_type : ValueTypeTag; field_optional : bool }.

Record StructFact : Set := struct_fact { struct_id : StructId; fields : list StructField }.

Inductive SchemaFact : Set :=
| FactType (id : TypeId)
| FactSub (id : SubFactId)
| FactValue (id : ValueFactId) (domain : ValueTypeTag)
| FactOwns (id : OwnsFactId) (mode : CollectionMode)
| FactRelates (id : RelatesFactId) (specializes : option RoleId) (mode : CollectionMode)
| FactPlays (id : PlaysFactId)
| FactAnnotation (id : AnnotationFactId) (value : SchemaAnnotationValue)
| FactFunction (f : FunctionFact)
| FactStruct (s : StructFact).

#[global] Instance SchemaFact_eq_dec : EqDecision SchemaFact.
Proof.
  assert (EqDecision AnnotationFactId) by apply ord_eq_dec.
  assert (EqDecision SubFactId) by apply ord_eq_dec.
  assert (EqDecision OwnsFactId) by apply ord_eq_dec.
  assert (EqDecision RelatesFactId) by apply ord_eq_dec.
  assert (EqDecision PlaysFactId) by apply ord_eq_dec.
  assert (EqDecision CanonicalValueRange) by solve_decision.
  assert (EqDecision SchemaAnnotationValue) by solve_decision.
  assert (EqDecision CollectionMode) by solve_decision.
  assert (EqDecision TypeReference) by solve_decision.
  assert (EqDecision FunctionParameter) by solve_decision.
  assert (EqDecision FunctionReturnElement) by solve_decision.
  assert (EqDecision FunctionReturnMode) by solve_decision.
  assert (EqDecision FunctionSignature) by solve_decision.
  assert (EqDecision FunctionFact) by solve_decision.
  assert (EqDecision StructField) by solve_decision.
  assert (EqDecision StructFact) by solve_decision.
  solve_decision.
Defined.

Definition fact_id (fact : SchemaFact) : SchemaFactId :=
  match fact with
  | FactType i => IdType i
  | FactSub i => IdSub i
  | FactValue i _ => IdValue i
  | FactOwns i _ => IdOwns i
  | FactRelates i _ _ => IdRelates i
  | FactPlays i => IdPlays i
  | FactAnnotation i _ => IdAnnotation i
  | FactFunction f => IdFunction (function_id f)
  | FactStruct s => IdStruct (struct_id s)
  end.

Definition value_type_tag (value : str) : option ValueTypeTag :=
  if str_eqb value b#"string" then Some TString
  else if str_eqb value b#"integer" then Some TLong
  else if str_eqb value b#"double" then Some TDouble
  else if str_eqb value b#"boolean" then Some TBoolean
  else if str_eqb value b#"date" then Some TDate
  else if str_eqb value b#"datetime" then Some TDateTime
  else if str_eqb value b#"datetime-tz" then Some TDateTimeTz
  else if str_eqb value b#"decimal" then Some TDecimal
  else if str_eqb value b#"duration" then Some TDuration
  else None.

Definition TypeFact_new (i : TypeId) : result Diagnostic SchemaFact :=
  if bool_decide (kind i = Struct) then Err (invalid "invalid_type_fact_kind")
  else match value_type_tag (type_label i) with
       | Some _ => Err (invalid "reserved_schema_type_label")
       | None => Ok (FactType i)
       end.

Definition RelatesFact_new (i : RelatesFactId) (specializes : option RoleId) (mode : CollectionMode)
    : result Diagnostic SchemaFact :=
  if match specializes with Some role => oeqb role (relates_role i) | None => false end
  then Err (invalid "self_specializing_role")
  else Ok (FactRelates i specializes mode).

Definition schema_label (r : TypeReference) : option Label :=
  match r with RefValue _ => None | RefSchema label => Some label end.

Definition elements (m : FunctionReturnMode) : list FunctionReturnElement :=
  match m with ScalarReturn e => [e] | TupleReturn es | StreamReturn es => es end.

Definition tuple_return (es : list FunctionReturnElement) : result Diagnostic FunctionReturnMode :=
  if negb ((2 <=? length es)%nat && (Z.of_nat (length es) <=? MAX_CANONICAL_COLLECTION_LEN))
  then Err (invalid "invalid_function_tuple_return") else Ok (TupleReturn es).

Definition stream_return (es : list FunctionReturnElement) : result Diagnostic FunctionReturnMode :=
  match es with
  | [] => Err (invalid "invalid_function_stream_return")
  | _ => if MAX_CANONICAL_COLLECTION_LEN <? Z.of_nat (length es)
         then Err (invalid "invalid_function_stream_return") else Ok (StreamReturn es)
  end.

(** [iter().any(|x| !names.insert(x))]: whether some name occurs twice. *)
Fixpoint repeats (names : BTreeSet Label) (l : list Label) : bool :=
  match l with
  | [] => false
  | n :: l => smem n names || repeats (sins n names) l
  end.

Definition FunctionSignature_new (ps : list FunctionParameter) (r : FunctionReturnMode)
    : result Diagnostic FunctionSignature :=
  if MAX_CANONICAL_COLLECTION_LEN <? Z.of_nat (length ps)
  then Err (stable ResourceLimit "too_many_function_parameters")
  else if repeats [] (map parameter_name ps) then Err (invalid "duplicate_function_parameter")
  else Ok (function_signature ps r).

(** [FunctionFact::schema_references]. *)
Definition schema_references (f : FunctionFact) : list Label :=
  omap (fun p => schema_label (parameter_type p)) (parameters (signature f))
  ++ omap (fun e => schema_label (element_type e)) (elements (returns (signature f))).

Definition StructFact_new (i : StructId) (fs : list StructField) : result Diagnostic StructFact :=
  match value_type_tag i with
  | Some _ => Err (invalid "reserved_schema_type_label")
  | None =>
      if bool_decide (fs = []) then Err (invalid "empty_struct_fields")
      else if MAX_CANONICAL_COLLECTION_LEN <? Z.of_nat (length fs)
      then Err (stable ResourceLimit "too_many_struct_fields")
      else if repeats [] (map field_name fs) then Err (invalid "duplicate_struct_field")
      else Ok (struct_fact i fs)
  end.

(** ** Annotations *)

Definition payload_matches (k : AnnotationKindId) (v : SchemaAnnotationValue) : bool :=
  match k, v with
  | (Abstract | Independent | Key | Unique | Distinct), Presence => true
  | Card, CardinalityAnnotation _ => true
  | Regex, RegexAnnotation _ => true
  | Range, RangeAnnotation _ => true
  | Values, ValuesAnnotation _ => true
  | Doc, DocAnnotation _ => true
  | Meta _, MetaAnnotation (StringValue _) => true
  | _, _ => false
  end.

Definition subject_matches (k : AnnotationKindId) (s : AnnotationSubjectId) : bool :=
  match k with
  | Abstract =>
      match s with
      | SubjectType i => match kind i with Entity | Relation | Attribute => true | Struct => false end
      | SubjectRelates _ => true
      | _ => false
      end
  | Independent => match s with SubjectType i => bool_decide (kind i = Attribute) | _ => false end
  | Key | Unique => match s with SubjectOwns _ => true | _ => false end
  | Distinct => match s with SubjectOwns _ | SubjectRelates _ => true | _ => false end
  | Card => match s with SubjectOwns _ | SubjectRelates _ | SubjectPlays _ => true | _ => false end
  | Regex | Range | Values => match s with SubjectValue _ | SubjectOwns _ => true | _ => false end
  | Doc | Meta _ => match s with SubjectValue _ => false | _ => true end
  end.

Definition validate_annotation (s : AnnotationSubjectId) (k : AnnotationKindId) (v : SchemaAnnotationValue)
    : result Diagnostic () :=
  if negb (payload_matches k v) then Err (invalid "invalid_annotation_payload")
  else if negb (subject_matches k s) then Err (invalid "invalid_annotation_subject")
  else Ok tt.

Definition AnnotationFact_new (i : AnnotationFactId) (v : SchemaAnnotationValue) : result Diagnostic SchemaFact :=
  let? _ := validate_annotation (subject i) (annotation_kind i) v in Ok (FactAnnotation i v).

Definition attribute_type_id (a : AttributeId) : TypeId := type_id Attribute a.

Definition subject_fact_id (s : AnnotationSubjectId) : SchemaFactId :=
  match s with
  | SubjectType i => IdType i
  | SubjectSub i => IdSub i
  | SubjectValue i => IdValue i
  | SubjectOwns i => IdOwns i
  | SubjectRelates i => IdRelates i
  | SubjectPlays i => IdPlays i
  | SubjectFunction i => IdFunction i
  end.

(** ** Declared schemas *)

Definition Facts : Set := BTreeMap SchemaFactId SchemaFact.

Section validators.
Context (facts : Facts).

(** The identities a fact may refer to. *)
Definition type_ids : BTreeSet TypeId :=
  sof (omap (fun i => match i with IdType i => Some i | _ => None end) (mkeys facts)).
Definition role_ids : BTreeSet RoleId :=
  sof (omap (fun i => match i with IdRelates i => Some (relates_role i) | _ => None end) (mkeys facts)).
Definition struct_labels : BTreeSet Label :=
  sof (omap (fun i => match i with IdStruct i => Some i | _ => None end) (mkeys facts)).

Definition reference_valid (fact : SchemaFact) : bool :=
  match fact with
  | FactType _ | FactStruct _ => true
  | FactFunction f =>
      forallb (fun label => existsb (fun i => str_eqb (type_label i) label) type_ids
                            || smem label struct_labels) (schema_references f)
  | FactSub i => smem (subtype i) type_ids && smem (supertype i) type_ids
  | FactValue i _ => smem (attribute_type_id i) type_ids
  | FactOwns i _ => smem (owner i) type_ids && smem (attribute_type_id (owns_attribute i)) type_ids
  | FactRelates i specializes _ =>
      smem (relation i) type_ids
      && match specializes with None => true | Some role => smem role role_ids end
  | FactPlays i => smem (player i) type_ids && smem (plays_role i) role_ids
  | FactAnnotation i _ => mmem (subject_fact_id (subject i)) facts
  end.

Definition validate_references : list Diagnostic :=
  omap (fun fact => if reference_valid fact then None else Some (invalid "unknown_schema_fact_reference"))
    (mvals facts).

(** The annotation kinds of each annotated subject. *)
Definition by_subject : BTreeMap AnnotationSubjectId (BTreeSet AnnotationKindId) :=
  fold_left (fun m fact => match fact with
                           | FactAnnotation i _ => mentry (subject i) [] (sins (annotation_kind i)) m
                           | _ => m
                           end) (mvals facts) [].

Definition is_ordered (s : AnnotationSubjectId) : bool :=
  match mget (subject_fact_id s) facts with
  | Some (FactOwns _ mode) | Some (FactRelates _ _ mode) =>
      match mode with OrderedList => true | Unordered => false end
  | _ => true
  end.

Definition combination_diagnostics (entry : AnnotationSubjectId * BTreeSet AnnotationKindId)
    : list Diagnostic :=
  let '(s, kinds) := entry in
  (if smem Distinct kinds && negb (is_ordered s)
   then [invalid "distinct_requires_ordered_collection"] else [])
  ++ (if smem Key kinds && (smem Unique kinds || smem Card kinds)
      then [invalid "key_annotation_conflict"] else []).

Definition validate_annotation_combinations : list Diagnostic :=
  by_subject ≫= combination_diagnostics.

(** [find_map] over the direct attribute supertypes of an attribute type. *)
Definition attribute_supertype (t : TypeId) : option TypeId :=
  head (omap (fun fact => match fact with
                          | FactSub i => if oeqb (subtype i) t && bool_decide (kind (supertype i) = Attribute)
                                         then Some (supertype i) else None
                          | _ => None
                          end) (mvals facts)).

(** One turn of the [loop]; the outer [None] is exhausted fuel. *)
Fixpoint value_type_loop (fuel : nat) (attribute : AttributeId) (visited : BTreeSet TypeId)
    : option (option (ValueTypeTag * SchemaFactId)) :=
  match fuel with
  | O => None
  | S fuel =>
      let attribute_type := attribute_type_id attribute in
      if smem attribute_type visited then Some None
      else match mget (IdValue attribute) facts with
           | Some (FactValue _ domain) => Some (Some (domain, IdValue attribute))
           | _ => match attribute_supertype attribute_type with
                  | None => Some None
                  | Some t => value_type_loop fuel (type_label t) (sins attribute_type visited)
                  end
           end
  end.

(** Every turn but the last adds an attribute that is the supertype of a
    declared edge, so one turn per fact and two more are enough. *)
Definition value_type_fuel : nat := S (S (length facts)).

Definition annotation_subject_value_type (s : AnnotationSubjectId) : option (ValueTypeTag * SchemaFactId) :=
  match s with
  | SubjectValue a => default None (value_type_loop value_type_fuel a [])
  | SubjectOwns i => default None (value_type_loop value_type_fuel (owns_attribute i) [])
  | _ => None
  end.

Definition domain_valid (k : AnnotationKindId) (v : SchemaAnnotationValue) (t : ValueTypeTag) : bool :=
  match k, v with
  | (Key | Unique), _ => negb (bool_decide (t = TDouble))
  | Regex, RegexAnnotation _ => bool_decide (t = TString)
  | Range, RangeAnnotation r =>
      negb (bool_decide (t = TDuration))
      && forallb (fun bound => bool_decide (value_type bound = t))
           (option_list (lower r) ++ option_list (upper r))
  | Values, ValuesAnnotation s => forallb (fun value => bool_decide (value_type value = t)) s
  | _, _ => false
  end.

Definition domain_diagnostic (fact : SchemaFact) : option Diagnostic :=
  match fact with
  | FactAnnotation i v =>
      match annotation_kind i with
      | Key | Unique | Regex | Range | Values =>
          match annotation_subject_value_type (subject i) with
          | None => Some (invalid "unknown_annotation_value_domain")
          | Some (t, _) => if domain_valid (annotation_kind i) v t then None
                           else Some (invalid "invalid_annotation_value_domain")
          end
      | _ => None
      end
  | _ => None
  end.

Definition validate_annotation_value_domains : list Diagnostic := omap domain_diagnostic (mvals facts).
End validators.

(** [FormatVersion::V1] and [ensure_format_version]. *)
Definition FormatVersion : Set := Z.
Definition V1 : FormatVersion := 1.

Definition ensure_format_version (actual supported : FormatVersion) : result Diagnostic () :=
  if actual =? supported then Ok tt else Err (invalid "unsupported_format_version").

Record SourcedSchemaFact : Set := sourced { sourced_fact : SchemaFact; source : SourceSpan }.

(** [DeclaredIdentityFingerprint], a wrapper of a fingerprint. *)
Definition DeclaredIdentityFingerprint : Set := Fingerprint.Fingerprint.

Record DeclaredSchema : Set := declared_schema {
  format : FormatVersion;
  required_capabilities : CapabilitySet;
  facts : Facts;
  provenance : BTreeMap SchemaFactId SourceSpan;
  schema_fingerprint : DeclaredIdentityFingerprint }.

(** The [for] loop of [from_facts]: facts, provenance and the duplicates found. *)
Definition collect_facts (sourced_facts : list SourcedSchemaFact)
    : Facts * BTreeMap SchemaFactId SourceSpan * list Diagnostic :=
  fold_left (fun '(facts, provenance, diagnostics) s =>
               let i := fact_id (sourced_fact s) in
               if mmem i provenance
               then (facts, provenance, diagnostics ++ [invalid "duplicate_schema_fact"])
               else (mins i (sourced_fact s) facts, mins i (source s) provenance, diagnostics))
    sourced_facts ([], [], []).

Section from_facts.
Context (sha256 : str -> str) (serialize_fact : SchemaFact -> option Codec.Json) (to_vec : Codec.Json -> option str).

Definition DeclaredIdentityFingerprint_compute (canonical_bytes : str)
    : result Diagnostic DeclaredIdentityFingerprint :=
  let? domain := Fingerprint.FingerprintDomain_new b#"typebridge.schema.declared-identity" in
  let? canonicalization := Fingerprint.CanonicalizationVersion_new b#"typebridge.schema-canonical-json/v1" in
  Ok (Fingerprint.compute sha256 domain canonicalization None canonical_bytes).

(** The value serde makes of a [DeclaredIdentityView]. *)
Definition DeclaredIdentityView (format_version : FormatVersion) (required_capabilities : CapabilitySet)
    (facts : list SchemaFact) : option Codec.Json :=
  facts ← mapM serialize_fact facts;
  Some (Codec.JObject
    [(b#"format_version", Codec.JNumber (Codec.PosInt format_version));
     (b#"required_capabilities", Codec.JArray (map Codec.JString required_capabilities));
     (b#"facts", Codec.JArray facts)]).

Definition canonical_declared_identity_bytes (format : FormatVersion) (required_capabilities : CapabilitySet)
    (facts : Facts) : result Diagnostic str :=
  Codec.to_canonical_json to_vec (DeclaredIdentityView format required_capabilities (mvals facts)).

Definition from_facts (format : FormatVersion) (required_capabilities : CapabilitySet)
    (sourced_facts : list SourcedSchemaFact) : result (list Diagnostic) DeclaredSchema :=
  let? _ := map_err (fun e => [e]) (ensure_format_version format V1) in
  let '(facts, provenance, diagnostics) := collect_facts sourced_facts in
  let diagnostics :=
    match diagnostics with
    | [] => validate_references facts ++ validate_annotation_combinations facts
            ++ validate_annotation_value_domains facts
    | _ => diagnostics
    end in
  match diagnostics with
  | [] =>
      let? canonical :=
        map_err (fun e => [e]) (canonical_declared_identity_bytes format required_capabilities facts) in
      let? fingerprint := map_err (fun e => [e]) (DeclaredIdentityFingerprint_compute canonical) in
      Ok (declared_schema format required_capabilities facts provenance fingerprint)
  | _ => Err diagnostics
  end.

(** [DeclaredSchema::canonical_identity_bytes] *)
Definition canonical_identity_bytes (s : DeclaredSchema) : result Diagnostic str :=
  canonical_declared_identity_bytes (format s) (required_capabilities s) (facts s).

End from_facts.

(** ** What [from_facts] guarantees *)

Definition sourced_id (s : SourcedSchemaFact) : SchemaFactId := fact_id (sourced_fact s).

(** A fact map is keyed by the identities of its facts. *)
Definition keyed (m : Facts) : Prop := msorted m /\ forall k f, mget k m = Some f -> k = fact_id f.

Definition has_type (m : Facts) (t : TypeId) : Prop := is_Some (mget (IdType t) m).
Definition has_role (m : Facts) (r : RoleId) : Prop :=
  exists i, relates_role i = r /\ is_Some (mget (IdRelates i) m).

(** Every declaration a fact refers to is declared. *)
Definition refers_to_declared (m : Facts) (fact : SchemaFact) : Prop :=
  match fact with
  | FactType _ | FactStruct _ => True
  | FactFunction f =>
      forall label, label ∈ schema_references f ->
        (exists k, has_type m (type_id k label)) \/ is_Some (mget (IdStruct label) m)
  | FactSub i => has_type m (subtype i) /\ has_type m (supertype i)
  | FactValue i _ => has_type m (attribute_type_id i)
  | FactOwns i _ => has_type m (owner i) /\ has_type m (attribute_type_id (owns_attribute i))
  | FactRelates i specializes _ =>
      has_type m (relation i) /\ forall role, specializes = Some role -> has_role m role
  | FactPlays i => has_type m (player i) /\ has_role m (plays_role i)
  | FactAnnotation i _ => is_Some (mget (subject_fact_id (subject i)) m)
  end.

Definition annotated (m : Facts) (s : AnnotationSubjectId) (k : AnnotationKindId) : Prop :=
  is_Some (mget (IdAnnotation (annotation_id s k)) m).

Definition combinations_ok (m : Facts) : Prop :=
  forall s, (annotated m s Distinct -> is_ordered m s = true) /\
            (annotated m s Key -> ~ annotated m s Unique /\ ~ annotated m s Card).

Definition domains_ok (m : Facts) : Prop :=
  forall i v, mget (IdAnnotation i) m = Some (FactAnnotation i v) ->
    match annotation_kind i with
    | Key | Unique | Regex | Range | Values =>
        exists t src, annotation_subject_value_type m (subject i) = Some (t, src) /\
                      domain_valid (annotation_kind i) v t = true
    | _ => True
    end.

Definition schema_ok (m : Facts) : Prop :=
  (forall k f, mget k m = Some f -> refers_to_declared m f) /\ combinations_ok m /\ domains_ok m.

(** *** The collected maps *)

Lemma mget_mkeys {V} k (m : BTreeMap SchemaFactId V) : is_Some (mget k m) <-> k ∈ mkeys m.
Proof. apply mget_elem. Qed.

Lemma omap_nil {A B} (f : A -> option B) (l : list A) : omap f l = [] <-> forall a, a ∈ l -> f a = None.
Proof.
  induction l as [|a l IH]; simpl; [set_solver|]. destruct (f a) eqn:E.
  - split; [done|]. intros H. specialize (H a ltac:(set_solver)). congruence.
  - rewrite IH. split.
    + intros H b [->|Hb]%elem_of_cons; auto.
    + intros H b Hb. apply H. set_solver.
Qed.

Lemma bind_nil {A B} (f : A -> list B) (l : list A) : l ≫= f = [] <-> forall a, a ∈ l -> f a = [].
Proof.
  induction l as [|a l IH]; simpl; [set_solver|]. split.
  - intros [H1 H2]%app_eq_nil b [->|Hb]%elem_of_cons; [done|]. by apply IH.
  - intros H. rewrite (H a) by set_solver. simpl. apply IH. intros b Hb. apply H. set_solver.
Qed.

Lemma elem_omap {A B} (f : A -> option B) (l : list A) b : b ∈ omap f l <-> exists a, a ∈ l /\ f a = Some b.
Proof. apply list_elem_of_omap. Qed.

Lemma mvals_elem (m : Facts) f : msorted m -> f ∈ mvals m <-> exists k, mget k m = Some f.
Proof.
  intros Hs. unfold mvals. rewrite (list_elem_of_fmap snd). split.
  - intros ([k f'] & -> & Hin). exists k. by apply elem_mget.
  - intros (k & Hk). exists (k, f). split; [done|]. by apply mget_In.
Qed.

Lemma keyed_mins m f : keyed m -> keyed (mins (fact_id f) f m).
Proof.
  intros [Hs Hk]. split; [by apply mins_sorted|]. intros k g. rewrite mget_mins.
  destruct (oeqb_spec (fact_id f) k) as [<-|]; [by intros [= <-]|apply Hk].
Qed.

Definition collect_step '(m, p, d) (s : SourcedSchemaFact)
    : Facts * BTreeMap SchemaFactId SourceSpan * list Diagnostic :=
  let i := sourced_id s in
  if mmem i p then (m, p, d ++ [invalid "duplicate_schema_fact"])
  else (mins i (sourced_fact s) m, mins i (source s) p, d).

Lemma collect_dups l m p d :
  exists more, (fold_left collect_step l (m, p, d)).2 = d ++ more.
Proof.
  revert m p d. induction l as [|s l IH]; intros m p d; simpl.
  - exists []. by rewrite app_nil_r.
  - destruct (mmem _ p).
    + destruct (IH m p (d ++ [invalid "duplicate_schema_fact"])) as [more E]. rewrite E, <- app_assoc. eauto.
    + apply IH.
Qed.

(** Inserting the first of some facts under a fresh identity. *)
Lemma extend_iff {V} (g : SourcedSchemaFact -> V) s l (m m' : BTreeMap SchemaFactId V) :
  mget (sourced_id s) m = None ->
  (forall k v, mget k m' = Some v <->
     mget k (mins (sourced_id s) (g s) m) = Some v \/ exists s', s' ∈ l /\ sourced_id s' = k /\ g s' = v) ->
  forall k v, mget k m' = Some v <->
     mget k m = Some v \/ exists s', s' ∈ s :: l /\ sourced_id s' = k /\ g s' = v.
Proof.
  intros Hn H k v. rewrite H, mget_mins. setoid_rewrite elem_of_cons.
  destruct (oeqb_spec (sourced_id s) k) as [<-|Hne]; [rewrite Hn|]; naive_solver.
Qed.

(** Without duplicates the maps hold exactly the given facts. *)
Lemma collect_spec l m p m' p' d' :
  msorted m -> msorted p -> (forall k, is_Some (mget k m) <-> is_Some (mget k p)) ->
  fold_left collect_step l (m, p, []) = (m', p', d') ->
  (d' = [] <-> NoDup (map sourced_id l) /\ forall s, s ∈ l -> mget (sourced_id s) p = None) /\
  (d' = [] -> msorted m' /\ msorted p' /\
     (forall k f, mget k m' = Some f <->
        mget k m = Some f \/ exists s, s ∈ l /\ sourced_id s = k /\ sourced_fact s = f) /\
     (forall k sp, mget k p' = Some sp <->
        mget k p = Some sp \/ exists s, s ∈ l /\ sourced_id s = k /\ source s = sp)).
Proof.
  revert m p. induction l as [|s l IH]; intros m p Hm Hp Hdom E; simpl in E.
  - injection E as <- <- <-. split; [split; [split; [constructor|set_solver]|done]|].
    intros _. split_and!; [done..|set_solver|set_solver].
  - destruct (mmem (sourced_id s) p) eqn:Ed.
    + assert (d' <> []) as Hne.
      { destruct (collect_dups l m p [invalid "duplicate_schema_fact"]) as [more Hd].
        simpl in E. rewrite E in Hd. simpl in Hd. by subst. }
      split; [|done]. split; [done|]. intros [_ H]. apply mmem_true, mget_elem in Ed as [sp Hsp].
      rewrite (H s) in Hsp by set_solver. done.
    + apply mmem_false in Ed.
      assert (mget (sourced_id s) m = None) as Edm.
      { apply eq_None_not_Some. rewrite Hdom, Ed. by intros [? ?]. }
      specialize (IH _ _ (mins_sorted (sourced_id s) (sourced_fact s) m Hm)
        (mins_sorted (sourced_id s) (source s) p Hp)).
      destruct (IH ltac:(intros k; rewrite !mget_mins; destruct (oeqb _ k); [by split|apply Hdom]) E)
        as [IH1 IH2]. clear IH.
      assert (d' = [] <-> NoDup (map sourced_id (s :: l)) /\
                          (forall s', s' ∈ s :: l -> mget (sourced_id s') p = None)) as Hiff.
      { rewrite IH1. simpl. rewrite NoDup_cons. setoid_rewrite mget_mins. split.
        - intros [Hn H]. split_and!; [|done|].
          + rewrite (list_elem_of_fmap sourced_id). intros (s' & Es & Hs'). specialize (H s' Hs').
            rewrite Es, oeqb_refl in H. done.
          + intros s' [->|Hs']%elem_of_cons; [done|]. specialize (H s' Hs').
            by destruct (oeqb (sourced_id s) (sourced_id s')).
        - intros [[Hn1 Hn2] H]. split; [done|]. intros s' Hs'.
          destruct (oeqb_spec (sourced_id s) (sourced_id s')) as [Es|]; [|apply H; set_solver].
          destruct Hn1. rewrite Es. by apply (list_elem_of_fmap_2 sourced_id). }
      split; [done|]. intros Hd. destruct (IH2 Hd) as (H1 & H2 & H3 & H4).
      split_and!; [done..|by apply (extend_iff sourced_fact)|by apply (extend_iff source)].
Qed.

(** *** The validators decide the declarative conditions *)

Lemma elem_type_ids m t : t ∈ type_ids m <-> has_type m t.
Proof.
  unfold type_ids, has_type. rewrite elem_sof, elem_omap, mget_mkeys. split.
  - intros (i & Hi & E). destruct i; try done. by injection E as <-.
  - intros H. by exists (IdType t).
Qed.

Lemma elem_role_ids m r : r ∈ role_ids m <-> has_role m r.
Proof.
  unfold role_ids, has_role. rewrite elem_sof, elem_omap. split.
  - intros (i & Hi & E). destruct i as [| | | |i| | | |]; try done. injection E as <-.
    exists i. by rewrite mget_mkeys.
  - intros (i & <- & H%mget_mkeys). by exists (IdRelates i).
Qed.

Lemma elem_struct_labels m l : l ∈ struct_labels m <-> is_Some (mget (IdStruct l) m).
Proof.
  unfold struct_labels. rewrite elem_sof, elem_omap, mget_mkeys. split.
  - intros (i & Hi & E). destruct i; try done. by injection E as <-.
  - intros H. by exists (IdStruct l).
Qed.

Lemma reference_valid_iff m f : reference_valid m f = true <-> refers_to_declared m f.
Proof.
  destruct f as [i|i|i t|i c|i sp c|i|i v|g|g]; simpl;
    rewrite ?andb_true_iff, ?smem_true, ?elem_type_ids, ?elem_role_ids; try done.
  - destruct sp as [r|]; [rewrite smem_true, elem_role_ids|]; naive_solver.
  - unfold mmem. split; [|by intros [? ->]]. destruct (mget _ m); [eauto|done].
  - rewrite forallb_forall. setoid_rewrite <- list_elem_of_In.
    apply forall_proper. intros l.
    split; intros H Hin; specialize (H Hin).
    + apply orb_true_iff in H as [H|H]; [left|right].
      * apply existsb_exists in H as ([k l'] & Hk & El). apply list_elem_of_In, elem_type_ids in Hk.
        apply (oeqb_true l') in El. simpl in El. subst l'. eauto.
      * by apply smem_true, elem_struct_labels in H.
    + apply orb_true_iff. destruct H as [[k Hk]|H]; [left|right].
      * apply existsb_exists. exists (type_id k l). split; [|by apply oeqb_refl].
        by apply list_elem_of_In, elem_type_ids.
      * by apply smem_true, elem_struct_labels.
Qed.

Lemma validate_references_nil m :
  msorted m ->
  validate_references m = [] <-> forall k f, mget k m = Some f -> refers_to_declared m f.
Proof.
  intros Hs. unfold validate_references. rewrite omap_nil. split.
  - intros H k f Hk. apply reference_valid_iff.
    specialize (H f ltac:(apply mvals_elem; eauto)). by destruct (reference_valid m f).
  - intros H f (k & Hk)%mvals_elem; [|done]. apply H, reference_valid_iff in Hk. by rewrite Hk.
Qed.

(** The subject index lists the annotation kinds of each subject. *)
Lemma by_subject_fold l acc :
  msorted acc ->
  let r := fold_left (fun m fact => match fact with
                           | FactAnnotation i _ => mentry (subject i) [] (sins (annotation_kind i)) m
                           | _ => m
                           end) l acc in
  msorted r /\ forall s k, k ∈ default [] (mget s r) <->
    k ∈ default [] (mget s acc) \/ exists v, FactAnnotation (annotation_id s k) v ∈ l.
Proof.
  cbv zeta. revert acc. induction l as [|f l IH]; intros acc Hs; simpl; [set_solver|].
  destruct f as [| | | | | |[sf kf] vf| |];
    try (destruct (IH acc Hs) as [IH1 IH2]; split; [done|]; intros s0 k0; rewrite IH2;
         setoid_rewrite elem_of_cons; naive_solver).
  destruct (IH (mentry sf [] (sins kf) acc)) as [IH1 IH2]; [by apply mins_sorted|].
  split; [done|]. intros s k. simpl. rewrite IH2. unfold mentry. rewrite mget_mins.
  setoid_rewrite elem_of_cons. destruct (oeqb_spec sf s) as [->|Hne]; simpl.
  - rewrite elem_sins. destruct (mget s acc); naive_solver.
  - naive_solver.
Qed.

Lemma by_subject_spec m s k :
  keyed m -> k ∈ default [] (mget s (by_subject m)) <-> annotated m s k.
Proof.
  intros [Hs Hk]. unfold by_subject. destruct (by_subject_fold (mvals m) []) as [_ H]; [constructor|].
  rewrite H. simpl. split.
  - intros [Hn|(v & Hv)]; [set_solver|]. apply mvals_elem in Hv as (i & Hi); [|done].
    pose proof (Hk _ _ Hi) as ->. unfold annotated. eauto.
  - intros (f & Hf). right. pose proof (Hk _ _ Hf) as E. destruct f as [| | | | | |i v| |]; try done.
    injection E as <-. exists v. apply mvals_elem; eauto.
Qed.

Lemma by_subject_sorted m : msorted (by_subject m).
Proof. unfold by_subject. apply by_subject_fold. constructor. Qed.

Lemma validate_combinations_nil m :
  keyed m -> validate_annotation_combinations m = [] <-> combinations_ok m.
Proof.
  intros Hk. unfold validate_annotation_combinations, combinations_ok. rewrite bind_nil.
  assert (forall s kinds, (s, kinds) ∈ by_subject m <-> mget s (by_subject m) = Some kinds) as Hin.
  { intros s kinds. apply elem_mget, by_subject_sorted. }
  assert (forall s kinds, mget s (by_subject m) = Some kinds ->
    combination_diagnostics m (s, kinds) = [] <->
    (annotated m s Distinct -> is_ordered m s = true) /\
    (annotated m s Key -> ~ annotated m s Unique /\ ~ annotated m s Card)) as Hone.
  { intros s kinds E. assert (forall k, smem k kinds = true <-> annotated m s k) as Hmem.
    { intros k. rewrite smem_true, <- by_subject_spec by done. by rewrite E. }
    unfold combination_diagnostics. rewrite app_nil, <- !Hmem.
    destruct (smem Distinct kinds), (smem Key kinds), (smem Unique kinds), (smem Card kinds),
      (is_ordered m s); simpl; intuition congruence. }
  split.
  - intros H s. destruct (mget s (by_subject m)) as [kinds|] eqn:E.
    + apply (Hone s kinds E). apply H. by apply Hin.
    + split; intros Ha; apply by_subject_spec in Ha; try done; rewrite E in Ha; simpl in Ha; set_solver.
  - intros H [s kinds] E%Hin. by apply Hone.
Qed.

Lemma validate_domains_nil m : keyed m -> validate_annotation_value_domains m = [] <-> domains_ok m.
Proof.
  intros [Hs Hk]. unfold validate_annotation_value_domains, domains_ok. rewrite omap_nil. split.
  - intros H i v Hi. specialize (H (FactAnnotation i v) ltac:(apply mvals_elem; eauto)). simpl in H.
    destruct (annotation_kind i); try done;
      destruct (annotation_subject_value_type m (subject i)) as [[t src]|]; try done;
      exists t, src; (split; [done|]); by destruct (domain_valid _ v t).
  - intros H f (k & Hf)%mvals_elem; [|done]. destruct f as [| | | | | |i v| |]; try done. simpl.
    pose proof (Hk _ _ Hf) as ->. specialize (H i v Hf).
    destruct (annotation_kind i); try done; destruct H as (t & src & -> & ->); done.
Qed.

(** *** The maps of a duplicate-free input *)

Definition fact_map (l : list SourcedSchemaFact) : Facts :=
  mof (map (fun s => (sourced_id s, sourced_fact s)) l).
Definition span_map (l : list SourcedSchemaFact) : BTreeMap SchemaFactId SourceSpan :=
  mof (map (fun s => (sourced_id s, source s)) l).

Lemma map_fst_pair {V} (g : SourcedSchemaFact -> V) l :
  map fst (map (fun s => (sourced_id s, g s)) l) = map sourced_id l.
Proof. rewrite map_map. done. Qed.

Lemma mget_mof_sourced {V} (g : SourcedSchemaFact -> V) l k v :
  NoDup (map sourced_id l) ->
  mget k (mof (map (fun s => (sourced_id s, g s)) l)) = Some v <->
  exists s, s ∈ l /\ sourced_id s = k /\ g s = v.
Proof.
  intros Hn. rewrite mget_mof by (by rewrite map_fst_pair).
  rewrite (list_elem_of_fmap (fun s => (sourced_id s, g s))). naive_solver.
Qed.

Lemma fact_map_keyed l : NoDup (map sourced_id l) -> keyed (fact_map l).
Proof.
  intros Hn. split; [apply mof_sorted|]. intros k f (s & _ & <- & <-)%mget_mof_sourced; done.
Qed.

Lemma mget_Some_ext {V} (m n : BTreeMap SchemaFactId V) :
  msorted m -> msorted n -> (forall k v, mget k m = Some v <-> mget k n = Some v) -> m = n.
Proof.
  intros Hm Hn H. apply msorted_ext; [done..|]. intros k. destruct (mget k m) as [v|] eqn:E.
  - symmetry. by apply H.
  - destruct (mget k n) as [v|] eqn:E'; [|done]. apply H in E'. congruence.
Qed.

Lemma collect_facts_spec l m p d :
  collect_facts l = (m, p, d) ->
  (d = [] <-> NoDup (map sourced_id l)) /\ (d = [] -> m = fact_map l /\ p = span_map l).
Proof.
  intros E. destruct (collect_spec l [] [] m p d) as [H1 H2].
  - constructor.
  - constructor.
  - intros k. simpl. split; by intros [? ?].
  - rewrite <- E. unfold collect_facts. done.
  - assert (d = [] <-> NoDup (map sourced_id l)) as Hd by (rewrite H1; naive_solver).
    split; [done|]. intros Hnil. destruct (H2 Hnil) as (Hm & Hp & Hmk & Hpk).
    apply Hd in Hnil. split; (apply mget_Some_ext; [done|apply mof_sorted|]); intros k v;
      [rewrite Hmk|rewrite Hpk]; unfold fact_map, span_map;
      [rewrite (mget_mof_sourced sourced_fact) by done|rewrite (mget_mof_sourced source) by done];
      simpl; naive_solver.
Qed.

(** *** The canonical identity of a schema *)

(** The fingerprint of a schema with the canonical identity bytes [bytes]. *)
Definition identity_of (sha256 : str -> str) (bytes : str) : DeclaredIdentityFingerprint :=
  Fingerprint.compute sha256 b#"typebridge.schema.declared-identity" b#"typebridge.schema-canonical-json/v1" None bytes.

Lemma identity_computes sha256 bytes :
  DeclaredIdentityFingerprint_compute sha256 bytes = Ok (identity_of sha256 bytes).
Proof. done. Qed.

(** What the canonical identity encoding needs of a schema, and the bytes it gives. *)
Record identity_encodes (serialize_fact : SchemaFact -> option Codec.Json) (to_vec : Codec.Json -> option str)
    (fmt : FormatVersion) (caps : CapabilitySet) (fs : list SchemaFact) (bytes : str) : Prop := {
  ie_facts : Codec.size fs <= MAX_CANONICAL_COLLECTION_LEN;
  ie_capabilities : Codec.size caps <= MAX_CANONICAL_COLLECTION_LEN;
  ie_names : Forall (fun c => Codec.size c <= Limits.MAX_CANONICAL_STRING_BYTES) caps;
  ie_values : Forall (fun f => exists v, serialize_fact f = Some v /\
    Codec.within Limits.CANONICAL_CODEC_LIMITS 2 v) fs;
  ie_printed : (DeclaredIdentityView serialize_fact fmt caps fs ≫= Codec.canonical) ≫= to_vec = Some bytes;
  ie_bytes : Codec.size bytes <= Limits.MAX_CANONICAL_BYTES }.

Lemma mapM_facts (serialize_fact : SchemaFact -> option Codec.Json) (P : Codec.Json -> Prop) fs values :
  mapM serialize_fact fs = Some values ->
  Codec.size values = Codec.size fs /\
  (Forall P values <-> Forall (fun f => exists v, serialize_fact f = Some v /\ P v) fs).
Proof.
  intros H%mapM_Some. unfold Codec.size. rewrite (Forall2_length _ _ _ H). split; [done|].
  induction H as [|f v fs values Hf H IH]; [split; constructor|]. rewrite !Forall_cons, IH. naive_solver.
Qed.

Lemma canonical_bytes_iff serialize_fact to_vec fmt caps m bytes :
  canonical_declared_identity_bytes serialize_fact to_vec fmt caps m = Ok bytes <->
  identity_encodes serialize_fact to_vec fmt caps (mvals m) bytes.
Proof.
  unfold canonical_declared_identity_bytes, Codec.to_canonical_json.
  destruct (DeclaredIdentityView serialize_fact fmt caps (mvals m)) as [view|] eqn:Ev.
  2:{ split; [done|]. intros [_ _ _ _ H _]. rewrite Ev in H. done. }
  pose proof Ev as Ev'. unfold DeclaredIdentityView in Ev'. destruct (mapM _ _) as [values|] eqn:Em; [|done].
  destruct (mapM_facts _ (Codec.within Limits.CANONICAL_CODEC_LIMITS 2) _ _ Em) as [Hs Hv].
  rewrite Codec.encode_iff. injection Ev' as <-.
  rewrite Codec.within_object, !Forall_cons. cbn [fst snd]. rewrite !Codec.within_array, Codec.within_number.
  assert (Forall (Codec.within Limits.CANONICAL_CODEC_LIMITS 2) (map Codec.JString caps) <->
    Forall (fun c => Codec.size c <= Limits.MAX_CANONICAL_STRING_BYTES) caps) as Hc.
  { rewrite Forall_fmap. apply Forall_iff. intros c. cbn. rewrite Codec.within_string. split; [by intros [_ ?]|by split]. }
  change (0 + 1 + 1) with 2. rewrite Hc, Hv, Hs. unfold Codec.size at 2 4. rewrite length_map.
  split.
  - intros ((_ & _ & _ & [_ (_ & ? & ?)] & [_ (_ & ? & ?)] & _) & ? & ?). split; try done. by rewrite Ev.
  - intros [? ? ? ? H ?]. rewrite Ev in H. by split_and!.
Qed.

Section from_facts_facts.
Context (sha256 : str -> str) (serialize_fact : SchemaFact -> option Codec.Json) (to_vec : Codec.Json -> option str).

Lemma from_facts_ok fmt caps l s :
  from_facts sha256 serialize_fact to_vec fmt caps l = Ok s <->
  fmt = V1 /\ NoDup (map sourced_id l) /\ schema_ok (fact_map l) /\
  exists bytes, identity_encodes serialize_fact to_vec fmt caps (mvals (fact_map l)) bytes /\
    s = declared_schema fmt caps (fact_map l) (span_map l) (identity_of sha256 bytes).
Proof.
  unfold from_facts, ensure_format_version. destruct (Z.eqb_spec fmt V1) as [->|Hne]; cbn [map_err].
  2:{ split; [done|]. by intros [? _]. }
  destruct (collect_facts l) as [[m p] d] eqn:E. apply collect_facts_spec in E as [Hd Hmp].
  destruct d as [|x d].
  2:{ split; [done|]. intros (_ & Hn & _). by apply Hd in Hn. }
  destruct (Hmp eq_refl) as [-> ->]. assert (NoDup (map sourced_id l)) as Hn by by apply Hd.
  pose proof (fact_map_keyed l Hn) as Hk.
  assert (validate_references (fact_map l) ++ validate_annotation_combinations (fact_map l)
          ++ validate_annotation_value_domains (fact_map l) = [] <-> schema_ok (fact_map l)) as Hok.
  { unfold schema_ok. rewrite !app_nil, validate_references_nil, validate_combinations_nil, validate_domains_nil;
      [tauto|done|done|apply Hk]. }
  destruct (_ ++ _) as [|y d].
  2:{ split; [done|]. intros (_ & _ & H & _). by apply Hok in H. }
  setoid_rewrite <- canonical_bytes_iff. destruct (canonical_declared_identity_bytes _ _ _ _ _) as [bytes|e]; cbn [map_err].
  - rewrite identity_computes. cbn [map_err]. split; [|by intros (_ & _ & _ & ? & [= <-] & ->)].
    intros [= <-]. split_and!; [done..|by apply Hok|by exists bytes].
  - split; [done|]. by intros (_ & _ & _ & ? & [=] & _).
Qed.

End from_facts_facts.

(** *** The supertype walk ends *)

Lemma sins_length {A} {o : Ord A} {ol : OrdLaws A} (x : A) (s : list A) :
  ssorted s -> x ∉ s -> length (sins x s) = S (length s).
Proof.
  intros Hs Hx. change (S (length s)) with (length (x :: s)). apply Permutation_length, NoDup_Permutation.
  - by apply ssorted_NoDup, sins_sorted.
  - constructor; [done|]. by apply ssorted_NoDup.
  - intros y. rewrite elem_sins, elem_of_cons. done.
Qed.

Definition supertypes (m : Facts) : list TypeId :=
  omap (fun fact => match fact with FactSub i => Some (supertype i) | _ => None end) (mvals m).

Lemma omap_length {A B} (f : A -> option B) (l : list A) : (length (omap f l) <= length l)%nat.
Proof. induction l as [|a l IH]; csimpl; [lia|]. destruct (f a); csimpl; lia. Qed.

Lemma supertypes_length m : (length (supertypes m) <= length m)%nat.
Proof. unfold supertypes. etransitivity; [apply omap_length|]. unfold mvals. by rewrite length_map. Qed.

Lemma attribute_supertype_Some m t st :
  attribute_supertype m t = Some st -> st ∈ supertypes m /\ attribute_type_id (type_label st) = st.
Proof.
  unfold attribute_supertype. intros H. apply head_Some_elem_of, elem_omap in H as (f & Hf & E).
  destruct f as [|i| | | | | | |]; try done. destruct (_ && _) eqn:Ec; [|done]. injection E as <-.
  apply andb_true_iff in Ec as [_ Hk%bool_decide_eq_true]. split.
  - apply elem_omap. by exists (FactSub i).
  - destruct (supertype i) as [k l]. simpl in Hk. by subst.
Qed.

Lemma value_type_loop_total m fuel a visited L :
  ssorted visited -> (forall t, t ∈ visited -> t ∈ L) -> attribute_type_id a ∈ L ->
  (forall t, t ∈ supertypes m -> t ∈ L) -> (length L < fuel + length visited)%nat ->
  value_type_loop m fuel a visited <> None.
Proof.
  revert a visited. induction fuel as [|fuel IH]; intros a visited Hs HL Ha Hsup Hlen; simpl.
  - assert (length visited <= length L)%nat; [|lia].
    apply submseteq_length, NoDup_submseteq; [by apply ssorted_NoDup|done].
  - destruct (smem (attribute_type_id a) visited) eqn:E; [done|]. apply smem_false in E.
    destruct (match mget (IdValue a) m with Some (FactValue _ d) => Some d | _ => None end) as [d|] eqn:Ed.
    { destruct (mget (IdValue a) m) as [[]|]; done. }
    destruct (attribute_supertype m (attribute_type_id a)) as [st|] eqn:Est.
    2:{ by destruct (mget (IdValue a) m) as [[]|]. }
    apply attribute_supertype_Some in Est as [Hst Eid].
    assert (value_type_loop m fuel (type_label st) (sins (attribute_type_id a) visited) <> None) as Hrec.
    { apply IH; [by apply sins_sorted| |rewrite Eid; auto|done|].
      - intros t [->|Ht]%elem_sins; auto.
      - rewrite sins_length by done. lia. }
    by destruct (mget (IdValue a) m) as [[]|].
Qed.

(** ** The properties of the component *)

(** C28. [DeclaredSchema::from_facts] accepts exactly the inputs in the
    supported format in which no fact is declared twice, every referenced
    type, role, struct and annotated declaration is declared, keys are not
    combined with unique or cardinality, distinct is only on ordered
    collections, every value annotation fits its attribute's domain, and whose
    canonical identity can be encoded: at most 65536 facts and capabilities, each
    within the string, collection and depth ceilings where it stands, in at most
    16 MiB. The schema then holds exactly the given facts, their spans, and the
    fingerprint of those bytes. *)
Theorem from_facts_iff sha256 serialize_fact to_vec fmt caps l s :
  from_facts sha256 serialize_fact to_vec fmt caps l = Ok s <->
  fmt = V1 /\ NoDup (map sourced_id l) /\ schema_ok (fact_map l) /\
  exists bytes, identity_encodes serialize_fact to_vec fmt caps (mvals (fact_map l)) bytes /\
    s = declared_schema fmt caps (fact_map l) (span_map l) (identity_of sha256 bytes).
Proof. apply from_facts_ok. Qed.

(** The declared schema does not depend on the order in which its facts
    are given: an accepted input is accepted in any order, with the same
    schema. *)
Theorem from_facts_order sha256 serialize_fact to_vec fmt caps l l' s :
  l ≡ₚ l' -> from_facts sha256 serialize_fact to_vec fmt caps l = Ok s ->
  from_facts sha256 serialize_fact to_vec fmt caps l' = Ok s.
Proof.
  intros Hp (-> & Hn & Hok & bytes & Hb & ->)%from_facts_ok.
  assert (NoDup (map sourced_id l')) as Hn' by (by rewrite <- Hp).
  assert (fact_map l' = fact_map l) as Ef.
  { apply mget_Some_ext; [apply mof_sorted..|]. intros k v. unfold fact_map.
    rewrite !mget_mof_sourced by done. by setoid_rewrite Hp. }
  assert (span_map l' = span_map l) as Es.
  { apply mget_Some_ext; [apply mof_sorted..|]. intros k v. unfold span_map.
    rewrite !mget_mof_sourced by done. by setoid_rewrite Hp. }
  apply from_facts_ok. rewrite Ef, Es. eauto 6.
Qed.

Definition example_span : SourceSpan := source_span b#"schema.tql" 0 1 1 1 1 2.
Definition example_person : TypeId := type_id Entity b#"person".
Definition example_facts : list SourcedSchemaFact :=
  [sourced (FactType example_person) example_span;
   sourced (FactType (type_id Attribute b#"name")) example_span;
   sourced (FactValue b#"name" TString) example_span;
   sourced (FactOwns (owns_id example_person b#"name") Unordered) example_span;
   sourced (FactAnnotation (annotation_id (SubjectOwns (owns_id example_person b#"name")) Key) Presence)
     example_span].

(** A serializer, a printer and a digest to run the examples with. *)
Definition example_serialize (fact : SchemaFact) : option Codec.Json :=
  Some (Codec.JString match fact_id fact with IdType i => type_label i | IdValue i => i | _ => b#"fact" end).
Definition example_to_vec (value : Codec.Json) : option str := Some (concat (Codec.texts value)).
Definition example_sha256 (bytes : str) : str := repeat "0"%char 32.
Definition example_identity : DeclaredIdentityFingerprint := identity_of example_sha256 [].

Lemma from_facts_order_witness :
  from_facts example_sha256 example_serialize example_to_vec V1 [] (rev example_facts)
  = Ok (declared_schema V1 [] (fact_map example_facts) (span_map example_facts) example_identity).
Proof.
  apply (from_facts_order example_sha256 example_serialize example_to_vec V1 [] example_facts).
  - apply Permutation_rev.
  - vm_compute. reflexivity.
Defined.

(** C35. The walk along attribute supertypes that finds the value domain of an
    annotated subject always ends, also on cyclic declarations. *)
Theorem annotation_walk_terminates m a : value_type_loop m (value_type_fuel m) a [] <> None.
Proof.
  apply (value_type_loop_total m _ a [] (attribute_type_id a :: supertypes m)).
  - constructor.
  - set_solver.
  - set_solver.
  - set_solver.
  - pose proof (supertypes_length m). unfold value_type_fuel. simpl. lia.
Qed.

End Schema.
