(* ===== verification/Components.v ===== *)
(** * Strongly connected components (schema/src/delta_dependencies.rs,
    [strongly_connected_components])

    Tarjan's algorithm as the code runs it: a recursive visit threading the
    index counter, the stack, the on-stack set, the index and lowlink maps and
    the finished components. The recursion takes fuel; [None] is exhausted fuel,
    a missing map entry behind an indexing expression, or the [expect] on an
    empty stack. The theorem of the file says that none of these happens and
    that the components are exactly what the algorithm promises. *)

From S2P Require Import Prelude BTree.
From Stdlib Require Import Sorted Relation_Operators Operators_Properties.

Module Components.

(** [Vec::sort]. *)
Section sort.
Context {A : Type} {o : Ord A}.

Fixpoint sort_insert (x : A) (l : list A) : list A :=
  match l with
  | [] => [x]
  | y :: l => match cmp x y with Gt => y :: sort_insert x l | _ => x :: y :: l end
  end.

Definition vec_sort (l : list A) : list A := foldr sort_insert [] l.

Lemma sort_insert_perm x l : sort_insert x l ≡ₚ x :: l.
Proof.
  induction l as [|y l IH]; simpl; [done|]. destruct (cmp x y); try done. rewrite IH. apply Permutation_swap.
Qed.

Lemma vec_sort_perm l : vec_sort l ≡ₚ l.
Proof. induction l as [|x l IH]; simpl; [done|]. by rewrite sort_insert_perm, IH. Qed.

Context {ol : OrdLaws A}.

Lemma sort_insert_fresh x l : x ∉ l -> sort_insert x l = sins x l.
Proof.
  induction l as [|y l IH]; simpl; [done|]. intros Hx. destruct (cmp x y) eqn:E; [|done|].
  - apply cmp_eq_iff in E. set_solver.
  - f_equal. apply IH. set_solver.
Qed.

(** Sorting distinct elements is collecting them in a [BTreeSet]. *)
Lemma vec_sort_sorted l : NoDup l -> ssorted (vec_sort l).
Proof.
  induction 1 as [|x l Hx _ IH]; simpl; [constructor|].
  rewrite sort_insert_fresh by (by rewrite vec_sort_perm). by apply sins_sorted.
Qed.
End sort.

(** Sorting by a key sorts the keys. *)
Lemma vec_sort_by_keys {A B} {o : Ord A} (key : B -> A) (l : list B) :
  map key (@vec_sort B (ord_by key) l) = vec_sort (map key l).
Proof.
  induction l as [|f l IH]; simpl; [done|]. rewrite <- IH.
  generalize (@vec_sort _ (ord_by key) l). intros k. induction k as [|g k IHk]; simpl; [done|].
  change (@cmp _ (ord_by key) f g) with (cmp (key f) (key g)).
  destruct (cmp (key f) (key g)); simpl; try done. by rewrite IHk.
Qed.

(** Folding an optional step over a list. *)
Fixpoint opt_fold {S A} (f : S -> A -> option S) (s : S) (l : list A) : option S :=
  match l with
  | [] => Some s
  | a :: l => match f s a with Some s' => opt_fold f s' l | None => None end
  end.

Section tarjan.
Context {A : Type} {o : Ord A}.

Record Tarjan : Type := tarjan {
  next_index : nat;
  stack : list A;  (** top first *)
  on_stack : BTreeSet A;
  indices : BTreeMap A nat;
  lowlinks : BTreeMap A nat;
  components : list (list A) }.

(** [graph.dependencies(node).into_iter().flatten()], and the nodes to visit. *)
Context (dependencies : A -> BTreeSet A) (nodes : BTreeSet A).

Definition neighbors (node : A) : list A :=
  base.filter (fun neighbor => smem neighbor nodes = true) (dependencies node).

(** The [loop] that pops one component. *)
Fixpoint pop_component (node : A) (stack : list A) (on_stack : BTreeSet A) (component : list A)
    : option (list A * BTreeSet A * list A) :=
  match stack with
  | [] => None
  | member :: stack =>
      let on_stack := sdel member on_stack in
      let component := component ++ [member] in
      if oeqb member node then Some (stack, on_stack, component)
      else pop_component node stack on_stack component
  end.

(** [*lowlink = ( *lowlink).min(bound)] on an entry that must exist. *)
Definition lower_link (node : A) (bound : nat) (st : Tarjan) : option Tarjan :=
  match mget node (lowlinks st) with
  | Some low =>
      Some (tarjan (next_index st) (stack st) (on_stack st) (indices st)
              (mins node (Nat.min low bound) (lowlinks st)) (components st))
  | None => None
  end.

(** The node enters with the next index. *)
Definition enter (node : A) (st : Tarjan) : Tarjan :=
  let index := next_index st in
  tarjan (S index) (node :: stack st) (sins node (on_stack st))
    (mins node index (indices st)) (mins node index (lowlinks st)) (components st).

(** The end of a visit: a root pops its component. *)
Definition leave (node : A) (st : Tarjan) : option Tarjan :=
  match mget node (lowlinks st), mget node (indices st) with
  | Some low, Some index =>
      if (low =? index)%nat then
        match pop_component node (stack st) (on_stack st) [] with
        | Some (stack, on_stack, component) =>
            Some (tarjan (next_index st) stack on_stack (indices st) (lowlinks st)
                    (components st ++ [vec_sort component]))
        | None => None
        end
      else Some st
  | _, _ => None
  end.

(** One neighbor of [node], given the recursive visit. *)
Definition follow (visit : A -> Tarjan -> option Tarjan) (node : A) (st : Tarjan) (neighbor : A)
    : option Tarjan :=
  if negb (mmem neighbor (indices st)) then
    match visit neighbor st with
    | Some st =>
        match mget neighbor (lowlinks st) with
        | Some neighbor_lowlink => lower_link node neighbor_lowlink st
        | None => None
        end
    | None => None
    end
  else if smem neighbor (on_stack st) then
    match mget neighbor (indices st) with
    | Some neighbor_index => lower_link node neighbor_index st
    | None => None
    end
  else Some st.

Fixpoint visit (fuel : nat) (node : A) (st : Tarjan) : option Tarjan :=
  match fuel with
  | O => None
  | S fuel =>
      match opt_fold (follow (visit fuel) node) (enter node st) (neighbors node) with
      | Some st => leave node st
      | None => None
      end
  end.

Definition initial : Tarjan := tarjan 0 [] [] [] [] [].

Definition visit_root (st : Tarjan) (node : A) : option Tarjan :=
  if negb (mmem node (indices st)) then visit (length nodes) node st else Some st.

Definition strongly_connected_components : option (list (list A)) :=
  match opt_fold visit_root initial nodes with
  | Some st => Some (components st)
  | None => None
  end.

(** ** Invariants *)

Context {ol : OrdLaws A}.

Definition idx (st : Tarjan) (x : A) : option nat := mget x (indices st).
Definition low (st : Tarjan) (x : A) : option nat := mget x (lowlinks st).
Definition finished (st : Tarjan) (x : A) : Prop := x ∈ concat (components st).

Definition edge (x y : A) : Prop := y ∈ neighbors x.
Definition reach : A -> A -> Prop := clos_refl_trans A edge.
Definition reach1 : A -> A -> Prop := clos_trans A edge.

(** [x] was entered after [y]. *)
Definition later (st : Tarjan) (x y : A) : Prop :=
  exists i j, idx st x = Some i /\ idx st y = Some j /\ (j < i)%nat.

(** Every edge out of a component stays in it or goes to an earlier one. *)
Definition closed (cs : list (list A)) : Prop :=
  forall pre c post, cs = pre ++ c :: post ->
  forall x w, x ∈ c -> edge x w -> w ∈ concat pre \/ w ∈ c.

Definition connected (cs : list (list A)) : Prop :=
  forall c x y, c ∈ cs -> x ∈ c -> y ∈ c -> reach x y.

Record Inv (st : Tarjan) : Prop := {
  inv_range : forall x i, idx st x = Some i -> (i < next_index st)%nat /\ x ∈ nodes;
  inv_inj : forall x y i, idx st x = Some i -> idx st y = Some i -> x = y;
  inv_order : StronglySorted (later st) (stack st);
  inv_on_stack : forall x, x ∈ on_stack st <-> x ∈ stack st;
  inv_visited : forall x, is_Some (idx st x) <-> x ∈ stack st \/ finished st x;
  inv_nodup : NoDup (stack st ++ concat (components st));
  inv_low : forall x, is_Some (low st x) <-> is_Some (idx st x);
  inv_closed : closed (components st);
  inv_connected : connected (components st);
  inv_sorted : forall c, c ∈ components st -> c <> [] /\ ssorted c }.

(** What a visit keeps of the state it started from. *)
Definition frame (st st' : Tarjan) : Prop :=
  (forall x i, idx st x = Some i -> idx st' x = Some i /\ low st' x = low st x) /\
  (forall x, finished st x -> finished st' x).

(** An edge target seen from the segment [seg] above [base], with link [l]. *)
Definition settled (st : Tarjan) (seg base : list A) (l : nat) (w : A) : Prop :=
  finished st w \/ w ∈ seg \/ (w ∈ base /\ exists j, idx st w = Some j /\ (l <= j)%nat).

(** A stack node reaches an earlier stack node at or above [l]. *)
Definition sinks (st : Tarjan) (l : nat) (x : A) : Prop :=
  exists y i j, y ∈ stack st /\ reach1 x y /\ idx st x = Some i /\ idx st y = Some j /\
                (j < i)%nat /\ (l <= j)%nat.

Record visit_post (v : A) (st st' : Tarjan) : Prop := {
  post_inv : Inv st';
  post_frame : frame st st';
  post_idx : idx st' v = Some (next_index st);
  post_new : forall x, is_Some (idx st' x) -> idx st x = None -> reach v x;
  post_seg : exists seg l,
    stack st' = seg ++ stack st /\ low st' v = Some l /\
    (forall x w, x ∈ seg -> edge x w -> settled st' seg (stack st) l w) /\
    (forall x, x ∈ seg -> sinks st' l x) /\
    ((seg = [] /\ l = next_index st) \/
     (v ∈ seg /\ exists y, y ∈ stack st /\ reach1 v y /\ idx st' y = Some l)) }.

(** The state inside the visit of [v], after the neighbors [done]. *)
Record Loop (v : A) (st0 : Tarjan) (done : list A) (cur : Tarjan) : Prop := {
  loop_inv : Inv cur;
  loop_frame : frame st0 cur;
  loop_idx : idx cur v = Some (next_index st0);
  loop_new : forall x, is_Some (idx cur x) -> idx st0 x = None -> reach v x;
  loop_seg : exists seg l,
    stack cur = seg ++ v :: stack st0 /\ low cur v = Some l /\ (l <= next_index st0)%nat /\
    (l = next_index st0 \/ exists y, y ∈ stack st0 /\ reach1 v y /\ idx cur y = Some l) /\
    (forall x w, x ∈ seg -> edge x w -> settled cur (seg ++ [v]) (stack st0) l w) /\
    (forall w, w ∈ done -> settled cur (seg ++ [v]) (stack st0) l w) /\
    (forall x, x ∈ seg -> sinks cur l x) }.

Lemma edge_node x w : edge x w -> w ∈ nodes.
Proof. unfold edge, neighbors. rewrite list_elem_of_filter, smem_true. tauto. Qed.

Lemma frame_refl st : frame st st.
Proof. split; auto. Qed.

Lemma frame_trans s t u : frame s t -> frame t u -> frame s u.
Proof.
  intros [H1 H2] [H3 H4]. split; [|auto]. intros x i Hi.
  destruct (H1 x i Hi) as [Hi' Hl]. destruct (H3 x i Hi') as [Hi'' Hl']. split; [done|congruence].
Qed.

Lemma reach1_reach x y : reach1 x y -> reach x y.
Proof. induction 1; [by constructor|by eapply rt_trans]. Qed.

Lemma reach_edge x y z : reach x y -> edge y z -> reach1 x z.
Proof.
  intros H He. apply clos_rt_t with y; [done|]. by constructor.
Qed.

(** *** The stack *)

Lemma stack_idx st x : Inv st -> x ∈ stack st -> exists i, idx st x = Some i /\ (i < next_index st)%nat.
Proof.
  intros HI Hx. destruct (proj2 (inv_visited st HI x) (or_introl Hx)) as [i Hi]. exists i.
  split; [done|]. by eapply inv_range.
Qed.

Lemma stack_app_later st seg base x y :
  Inv st -> stack st = seg ++ base -> x ∈ seg -> y ∈ base -> later st x y.
Proof.
  intros HI E Hx Hy. pose proof (inv_order st HI) as Ho. rewrite E in Ho. clear E HI.
  induction seg as [|z seg IH]; [set_solver|]. inversion Ho as [|? ? Ho' Hz]; subst.
  apply elem_of_cons in Hx as [->|Hx]; [|auto].
  apply (proj1 (Forall_forall _ _) Hz). set_solver.
Qed.

Lemma later_mono st st' x y : frame st st' -> later st x y -> later st' x y.
Proof. intros [Hf _] (i & j & Hi & Hj & Hlt). exists i, j. split_and!; [by apply Hf..|done]. Qed.

Lemma settled_mono st st' seg seg' base l l' w :
  frame st st' -> (forall x, x ∈ seg -> x ∈ seg') -> (l' <= l)%nat ->
  settled st seg base l w -> settled st' seg' base l' w.
Proof.
  intros [Hf Hc] Hs Hl [H|[H|(H & j & Hj & Hlj)]]; [left|right; left|right; right]; auto.
  split; [done|]. exists j. split; [by apply Hf|lia].
Qed.

Lemma sinks_mono st st' l l' x :
  frame st st' -> (forall y, y ∈ stack st -> y ∈ stack st') -> (l' <= l)%nat ->
  sinks st l x -> sinks st' l' x.
Proof.
  intros [Hf _] Hs Hl (y & i & j & Hy & Hr & Hi & Hj & Hlt & Hle). exists y, i, j.
  split_and!; [auto|done|by apply Hf|by apply Hf|done|lia].
Qed.

(** *** Changing only lowlinks *)

Definition with_low (st : Tarjan) (ls : BTreeMap A nat) : Tarjan :=
  tarjan (next_index st) (stack st) (on_stack st) (indices st) ls (components st).

Lemma inv_with_low st node b :
  Inv st -> is_Some (low st node) -> Inv (with_low st (mins node b (lowlinks st))).
Proof.
  intros [H1 H2 H3 H4 H5 H6 H7 H8 H9 H10] Hn. split; try done.
  intros x. unfold low, idx in *. simpl. rewrite mget_mins.
  destruct (oeqb_spec node x) as [<-|]; [|apply H7]. rewrite <- H7. split; eauto.
Qed.

(** Lowering the link of [v] closes the treatment of one more neighbor. *)
Lemma loop_lower v st0 done cur seg l b :
  Inv cur -> frame st0 cur -> idx st0 v = None -> idx cur v = Some (next_index st0) ->
  (forall x, is_Some (idx cur x) -> idx st0 x = None -> reach v x) ->
  stack cur = seg ++ v :: stack st0 -> low cur v = Some l -> (l <= next_index st0)%nat ->
  (l = next_index st0 \/ exists y, y ∈ stack st0 /\ reach1 v y /\ idx cur y = Some l) ->
  ((l <= b)%nat \/ exists y, y ∈ stack st0 /\ reach1 v y /\ idx cur y = Some b) ->
  (forall x w, x ∈ seg -> edge x w -> settled cur (seg ++ [v]) (stack st0) (Nat.min l b) w) ->
  (forall w, w ∈ done -> settled cur (seg ++ [v]) (stack st0) (Nat.min l b) w) ->
  (forall x, x ∈ seg -> sinks cur (Nat.min l b) x) ->
  exists cur', lower_link v b cur = Some cur' /\ Loop v st0 done cur' /\ indices cur' = indices cur.
Proof.
  intros HI Hf Hv0 Hv Hnew Hst Hlow Hle Hl Hb Hed Hdone Hsink.
  exists (with_low cur (mins v (Nat.min l b) (lowlinks cur))). split_and!; [|split|done].
  - unfold lower_link. unfold low in Hlow. by rewrite Hlow.
  - apply inv_with_low; [done|]. rewrite Hlow. eauto.
  - destruct Hf as [Hf Hc]. split; [|done]. intros x i Hi. destruct (Hf x i Hi) as [Hi' Hl'].
    split; [done|]. rewrite <- Hl'. unfold low. simpl. rewrite mget_mins.
    destruct (oeqb_spec v x) as [->|]; [congruence|done].
  - done.
  - done.
  - exists seg, (Nat.min l b). split_and!; [done| |lia| |done..].
    + unfold low. simpl. by rewrite mget_mins_eq.
    + destruct Hb as [Hb|Hb].
      * rewrite Nat.min_l by done. done.
      * destruct (Nat.min_spec l b) as [[? ->]|[? ->]]; [done|by right].
Qed.

(** A neighbor that is already on the stack. *)
Lemma loop_on_stack v st0 done cur w :
  Inv st0 -> idx st0 v = None -> Loop v st0 done cur -> edge v w -> w ∈ stack cur ->
  exists j cur', idx cur w = Some j /\ lower_link v j cur = Some cur' /\
    Loop v st0 (done ++ [w]) cur' /\ indices cur' = indices cur.
Proof.
  intros HI0 Hv0 [HI Hf Hv Hnew (seg & l & Hst & Hlow & Hle & Hl & Hed & Hdone & Hsink)] Hw Hws.
  destruct (stack_idx cur w HI Hws) as (j & Hj & _).
  assert (w ∈ seg ++ [v] \/ w ∈ stack st0) as Hcase by (rewrite Hst in Hws; set_solver).
  assert ((l <= j)%nat \/ exists y, y ∈ stack st0 /\ reach1 v y /\ idx cur y = Some j) as Hb.
  { destruct Hcase as [Hs|Hs].
    - left. apply elem_of_app in Hs as [Hs|Hs].
      + destruct (stack_app_later cur seg (v :: stack st0) w v HI Hst Hs ltac:(set_solver))
          as (i & k & Hi & Hk & Hlt). rewrite Hv in Hk. simp. rewrite Hi in Hj. simp. lia.
      + apply list_elem_of_singleton in Hs as ->. rewrite Hv in Hj. simp. lia.
    - right. exists w. split_and!; [done| |done]. by constructor. }
  destruct (loop_lower v st0 (done ++ [w]) cur seg l j) as (cur' & E & HL & Hi); try done.
  - intros x w' Hx Hw'. eapply settled_mono; [apply frame_refl|done| |by apply (Hed x w')]. lia.
  - intros w' [Hw'|Hw'%list_elem_of_singleton]%elem_of_app.
    + eapply settled_mono; [apply frame_refl|done| |by apply Hdone]. lia.
    + subst w'. destruct Hcase as [Hs|Hs]; [by right; left|]. right. right. split; [done|].
      exists j. split; [done|lia].
  - intros x Hx. eapply sinks_mono; [apply frame_refl|done| |by apply Hsink]. lia.
  - exists j, cur'. done.
Qed.

(** A neighbor that is already in a finished component. *)
Lemma loop_finished v st0 done cur w :
  Loop v st0 done cur -> finished cur w -> Loop v st0 (done ++ [w]) cur.
Proof.
  intros [HI Hf Hv Hnew (seg & l & Hst & Hlow & Hle & Hl & Hed & Hdone & Hsink)] Hw.
  split; try done. exists seg, l. split_and!; try done.
  intros w' [Hw'| ->%list_elem_of_singleton]%elem_of_app; [by apply Hdone|by left].
Qed.

(** A neighbor that had to be visited. *)
Lemma loop_visited v st0 done cur w cur2 :
  Inv st0 -> idx st0 v = None -> Loop v st0 done cur -> edge v w -> idx cur w = None ->
  visit_post w cur cur2 ->
  exists b cur', low cur2 w = Some b /\ lower_link v b cur2 = Some cur' /\
    Loop v st0 (done ++ [w]) cur' /\ indices cur' = indices cur2.
Proof.
  intros HI0 Hv0 [HI Hf Hv Hnew (seg & l & Hst & Hlow & Hle & Hl & Hed & Hdone & Hsink)] Hw Hwn
    [HI2 Hf2 Hw2 Hnew2 (seg2 & b & Hst2 & Hlow2 & Hed2 & Hsink2 & Hroot)].
  assert (next_index st0 < next_index cur)%nat as Hnext by (by eapply inv_range).
  assert (idx cur2 v = Some (next_index st0)) as Hv2 by (by apply Hf2).
  assert (forall y, y ∈ stack cur -> y ∈ seg ++ [v] \/ y ∈ stack st0) as Hsplit.
  { intros y Hy. rewrite Hst in Hy. set_solver. }
  destruct (loop_lower v st0 (done ++ [w]) cur2 (seg2 ++ seg) l b) as (cur' & E & HL & Hi); try done.
  - by eapply frame_trans.
  - intros x Hx Hx0. destruct (idx cur x) as [i|] eqn:Ex; [apply Hnew; eauto|].
    eapply rt_trans; [|by apply Hnew2]. by constructor.
  - by rewrite Hst2, Hst, app_assoc.
  - destruct Hf2 as [Hf2 _]. destruct (Hf2 v _ Hv) as [_ ->]. done.
  - destruct Hl as [Hl|(y & Hy & Hr & Hyi)]; [by left|right]. exists y. split_and!; [done..|by apply Hf2].
  - destruct Hroot as [[-> ->]|(Hws & y & Hy & Hr & Hyi)]; [left; lia|].
    destruct (Hsplit y Hy) as [Hs|Hs].
    + left. apply elem_of_app in Hs as [Hs| ->%list_elem_of_singleton].
      * destruct (stack_app_later cur seg (v :: stack st0) y v HI Hst Hs ltac:(set_solver))
          as (i & k & Hyc & Hk & Hlt). rewrite Hv in Hk. simp.
        apply Hf2 in Hyc as [Hyc _]. rewrite Hyi in Hyc. simp. lia.
      * rewrite Hv2 in Hyi. simp. lia.
    + right. exists y. split_and!; [done| |done]. eapply t_trans; [by constructor|done].
  - intros x w' [Hx|Hx]%elem_of_app He.
    + destruct (Hed2 x w' Hx He) as [H|[H|(H & j & Hj & Hlj)]]; [by left|right; left; set_solver|].
      destruct (Hsplit w' H) as [Hs|Hs]; [right; left; set_solver|right; right].
      split; [done|]. exists j. split; [done|lia].
    + eapply settled_mono; [exact Hf2| | |by apply (Hed x w')]; [set_solver|lia].
  - intros w' [Hw'| ->%list_elem_of_singleton]%elem_of_app.
    + eapply settled_mono; [exact Hf2| | |by apply Hdone]; [set_solver|lia].
    + destruct (proj1 (inv_visited cur2 HI2 w)) as [H|H]; [eauto| |by left].
      right. left. rewrite Hst2 in H. apply elem_of_app in H as [H|H]; [set_solver|].
      destruct (stack_idx cur w HI H) as (i & Hi' & _). congruence.
  - intros x [Hx|Hx]%elem_of_app.
    + eapply sinks_mono; [apply frame_refl|done| |by apply Hsink2]. lia.
    + eapply sinks_mono; [exact Hf2| | |by apply Hsink]; [|lia].
      intros y Hy. rewrite Hst2. set_solver.
  - exists b, cur'. done.
Qed.

(** *** Entering and leaving a visit *)

Lemma idx_enter v st x : idx (enter v st) x = if oeqb v x then Some (next_index st) else idx st x.
Proof. unfold idx. simpl. apply mget_mins. Qed.

Lemma low_enter v st x : low (enter v st) x = if oeqb v x then Some (next_index st) else low st x.
Proof. unfold low. simpl. apply mget_mins. Qed.

Lemma unvisited_fresh st v : Inv st -> idx st v = None -> v ∉ stack st /\ ~ finished st v.
Proof.
  intros HI Hv. split; intros H; destruct (proj2 (inv_visited st HI v)) as [i Hi]; auto; congruence.
Qed.

Lemma frame_enter v st : idx st v = None -> frame st (enter v st).
Proof.
  intros Hv. split; [|done]. intros x i Hi. rewrite idx_enter, low_enter.
  rewrite (proj2 (oeqb_false v x)) by congruence. done.
Qed.

Lemma later_sorted st st' l :
  frame st st' -> StronglySorted (later st) l -> StronglySorted (later st') l.
Proof.
  intros Hf. induction 1 as [|x l Hl IH Hx]; constructor; [done|].
  eapply Forall_impl; [exact Hx|]. intros y. by apply later_mono.
Qed.

Lemma inv_enter v st : Inv st -> v ∈ nodes -> idx st v = None -> Inv (enter v st).
Proof.
  intros HI Hvn Hv. destruct (unvisited_fresh st v HI Hv) as [Hs Hfin]. destruct HI as [H1 H2 H3 H4 H5 H6 H7 H8 H9 H10].
  assert (forall x i, idx st x = Some i -> v <> x) as Hne by (intros x i Hi ->; congruence).
  split; try done.
  - intros x i. rewrite idx_enter. destruct (oeqb_spec v x) as [<-|].
    + intros [= <-]. simpl. split; [lia|done].
    + intros Hi%H1. simpl. split; [lia|tauto].
  - intros x y i. rewrite !idx_enter.
    destruct (oeqb_spec v x) as [<-|], (oeqb_spec v y) as [<-|]; intros Hx Hy; simp; try done.
    + apply H1 in Hy. lia.
    + apply H1 in Hx. lia.
    + eauto.
  - simpl. constructor.
    + eapply later_sorted; [by apply frame_enter|done].
    + apply Forall_forall. intros y Hy. destruct (proj2 (H5 y) (or_introl Hy)) as [j Hj].
      exists (next_index st), j. rewrite !idx_enter, oeqb_refl, (proj2 (oeqb_false v y)) by eauto.
      split_and!; [done..|]. apply H1 in Hj. tauto.
  - intros x. simpl. rewrite elem_sins, H4, elem_of_cons. done.
  - intros x. rewrite idx_enter. simpl. rewrite elem_of_cons. destruct (oeqb_spec v x) as [<-|Hx].
    + split; [auto|eauto].
    + rewrite H5. unfold finished. simpl. naive_solver.
  - simpl. constructor; [|done]. rewrite elem_of_app. tauto.
  - intros x. rewrite low_enter, idx_enter. destruct (oeqb v x); [split; eauto|apply H7].
Qed.

Lemma loop_enter v st : Inv st -> v ∈ nodes -> idx st v = None -> Loop v st [] (enter v st).
Proof.
  intros HI Hvn Hv. split.
  - by apply inv_enter.
  - by apply frame_enter.
  - by rewrite idx_enter, oeqb_refl.
  - intros x Hx Hx0. rewrite idx_enter in Hx. destruct (oeqb_spec v x) as [->|]; [apply rt_refl|].
    rewrite Hx0 in Hx. by destruct Hx.
  - exists [], (next_index st). rewrite low_enter, oeqb_refl.
    split_and!; try done; try (intros; set_solver); auto.
Qed.

Lemma pop_component_spec v seg rest on comp :
  v ∉ seg ->
  exists on', pop_component v (seg ++ v :: rest) on comp = Some (rest, on', comp ++ seg ++ [v]) /\
  forall x, x ∈ on' <-> x ∈ on /\ x ∉ seg ++ [v].
Proof.
  revert on comp. induction seg as [|m seg IH]; intros on comp Hv; simpl.
  - rewrite oeqb_refl. exists (sdel v on). split; [done|]. intros x. rewrite elem_sdel. set_solver.
  - rewrite (proj2 (oeqb_false m v)) by set_solver.
    destruct (IH (sdel m on) (comp ++ [m])) as (on' & -> & Hon); [set_solver|].
    exists on'. split; [by rewrite <- app_assoc|]. intros x. rewrite Hon, elem_sdel. set_solver.
Qed.

Lemma StronglySorted_app_r {B} (R : B -> B -> Prop) l k : StronglySorted R (l ++ k) -> StronglySorted R k.
Proof. induction l as [|x l IH]; simpl; [done|]. inversion 1; auto. Qed.

(** Every member of a root's segment reaches the root. *)
Lemma seg_reaches_root v st0 cur seg :
  Inv cur -> idx cur v = Some (next_index st0) -> stack cur = seg ++ v :: stack st0 ->
  (forall y, y ∈ stack st0 -> exists j, idx cur y = Some j /\ (j < next_index st0)%nat) ->
  (forall x, x ∈ seg -> sinks cur (next_index st0) x) ->
  forall n x, x ∈ seg ++ [v] -> idx cur x = Some n -> reach x v.
Proof.
  intros HI Hv Hst Hbase Hsink n. induction n as [n IH] using lt_wf_ind. intros x Hx Hn.
  apply elem_of_app in Hx as [Hx| ->%list_elem_of_singleton]; [|apply rt_refl].
  destruct (Hsink x Hx) as (y & i & j & Hy & Hr & Hi & Hj & Hlt & Hle).
  rewrite Hi in Hn. simp. apply rt_trans with y; [by apply reach1_reach|].
  apply (IH j Hlt y); [|done]. rewrite Hst in Hy.
  assert (y ∉ stack st0) as Hn0.
  { intros H. destruct (Hbase y H) as (k & Hk & Hkl). rewrite Hj in Hk. simp. lia. }
  set_solver.
Qed.

Lemma closed_snoc cs c :
  closed cs -> (forall x w, x ∈ c -> edge x w -> w ∈ concat cs \/ w ∈ c) -> closed (cs ++ [c]).
Proof.
  intros Hc Hlast pre c' post E x w Hx He. destruct post as [|p post _] using rev_ind.
  - apply app_inj_tail in E as [<- <-]. by apply (Hlast x).
  - rewrite app_comm_cons, app_assoc in E. apply app_inj_tail in E as [-> _]. by eapply Hc.
Qed.

(** The state after a root popped its component. *)
Lemma inv_pop v st0 (done : list A) cur seg on' :
  Inv st0 -> Inv cur -> frame st0 cur -> idx st0 v = None -> idx cur v = Some (next_index st0) ->
  (forall x, is_Some (idx cur x) -> idx st0 x = None -> reach v x) ->
  stack cur = seg ++ v :: stack st0 ->
  (forall w, edge v w -> w ∈ done) ->
  (forall x w, x ∈ seg -> edge x w -> settled cur (seg ++ [v]) (stack st0) (next_index st0) w) ->
  (forall w, w ∈ done -> settled cur (seg ++ [v]) (stack st0) (next_index st0) w) ->
  (forall x, x ∈ seg -> sinks cur (next_index st0) x) ->
  (forall x, x ∈ on' <-> x ∈ on_stack cur /\ x ∉ seg ++ [v]) ->
  Inv (tarjan (next_index cur) (stack st0) on' (indices cur) (lowlinks cur)
         (components cur ++ [vec_sort (seg ++ [v])])).
Proof.
  intros HI0 HI Hf Hv0 Hv Hnew Hst Hall Hed Hdone Hsink Hon.
  assert (forall y, y ∈ stack st0 -> exists j, idx cur y = Some j /\ (j < next_index st0)%nat) as Hbase.
  { intros y Hy. destruct (stack_idx st0 y HI0 Hy) as (j & Hj & Hlt). exists j. split; [by apply Hf|done]. }
  assert (forall w, settled cur (seg ++ [v]) (stack st0) (next_index st0) w -> finished cur w \/ w ∈ seg ++ [v])
    as Hset.
  { intros w [H|[H|(H & j & Hj & Hle)]]; [auto..|]. exfalso. destruct (Hbase w H) as (k & Hk & Hlt).
    rewrite Hj in Hk. simp. lia. }
  pose proof (inv_nodup cur HI) as Hnd. rewrite Hst in Hnd.
  assert (seg ++ v :: stack st0 = (seg ++ [v]) ++ stack st0) as Happ by (by rewrite <- app_assoc).
  assert (forall x, x ∈ seg ++ [v] -> idx st0 x = None) as Hfresh.
  { intros x Hx. destruct (idx st0 x) as [i|] eqn:Ei; [|done]. exfalso.
    rewrite Happ, <- app_assoc in Hnd. apply NoDup_app in Hnd as (_ & Hdis & _).
    destruct (proj1 (inv_visited st0 HI0 x)) as [H|H]; [eauto|..]; apply (Hdis x Hx); [set_solver|].
    apply elem_of_app. right. by apply Hf. }
  assert (forall x, x ∈ concat (components cur ++ [vec_sort (seg ++ [v])]) <->
                    finished cur x \/ x ∈ seg ++ [v]) as Hfin.
  { intros x. rewrite concat_app, elem_of_app. simpl. rewrite app_nil_r, vec_sort_perm. done. }
  assert (forall x, x ∈ seg ++ [v] -> is_Some (idx cur x)) as Hvis.
  { intros x Hx. apply inv_visited; [done|]. left. rewrite Hst. set_solver. }
  destruct (HI) as [H1 H2 H3 H4 H5 H6 H7 H8 H9 H10]. split; try done.
  - simpl. rewrite Hst, Happ in H3. by apply StronglySorted_app_r in H3.
  - intros x. simpl. rewrite Hon, H4, Hst, Happ. split; [set_solver|]. intros Hx. split; [set_solver|].
    intros Hs. apply Hfresh in Hs. destruct (proj2 (inv_visited st0 HI0 x) (or_introl Hx)). congruence.
  - intros x. unfold finished. simpl. rewrite Hfin. change (idx (tarjan _ _ _ _ _ _) x) with (idx cur x).
    rewrite H5, Hst. set_solver.
  - simpl. rewrite concat_app. simpl. rewrite app_nil_r, vec_sort_perm.
    rewrite (Permutation_app_comm (concat _)), app_assoc, (Permutation_app_comm (stack st0)), <- Happ. done.
  - simpl. apply closed_snoc; [done|]. intros x w Hx He. rewrite vec_sort_perm in Hx |- *. apply Hset.
    apply elem_of_app in Hx as [Hx| ->%list_elem_of_singleton]; [by eapply Hed|by apply Hdone, Hall].
  - simpl. intros c x y [Hc| ->%list_elem_of_singleton]%elem_of_app Hx Hy; [by eapply H9|].
    rewrite vec_sort_perm in Hx, Hy. apply rt_trans with v.
    + destruct (Hvis x Hx) as [n Hn]. by eapply (seg_reaches_root v st0 cur seg).
    + apply Hnew; auto.
  - simpl. intros c [Hc| ->%list_elem_of_singleton]%elem_of_app; [by apply H10|]. split.
    + intros E. apply (f_equal length) in E. rewrite vec_sort_perm, length_app in E. simpl in E. lia.
    + apply vec_sort_sorted. rewrite Happ, <- app_assoc in Hnd. apply NoDup_app in Hnd. tauto.
Qed.

(** The end of the visit, root or not. *)
Lemma leave_spec v st0 done cur :
  Inv st0 -> idx st0 v = None -> Loop v st0 done cur -> (forall w, edge v w -> w ∈ done) ->
  exists st', leave v cur = Some st' /\ visit_post v st0 st'.
Proof.
  intros HI0 Hv0 [HI Hf Hv Hnew (seg & l & Hst & Hlow & Hle & Hl & Hed & Hdone & Hsink)] Hall.
  unfold leave. unfold low, idx in *. rewrite Hlow, Hv. fold (idx cur) in *.
  destruct (Nat.eqb_spec l (next_index st0)) as [->|Hne].
  - assert (v ∉ seg) as Hvs.
    { pose proof (inv_nodup cur HI) as Hnd. rewrite Hst in Hnd. apply NoDup_app in Hnd as (Hnd & _ & _).
      apply NoDup_app in Hnd. set_solver. }
    rewrite Hst. destruct (pop_component_spec v seg (stack st0) (on_stack cur) [] Hvs) as (on' & -> & Hon).
    eexists. split; [reflexivity|]. split; try done.
    + by apply (inv_pop v st0 done cur seg on').
    + destruct Hf as [Hf Hc]. split; [done|]. intros x Hx%Hc. unfold finished. simpl.
      rewrite concat_app, elem_of_app. by left.
    + exists [], (next_index st0). split_and!; try done; [set_solver..|auto].
  - destruct Hl as [?|(y & Hy & Hr & Hyl)]; [done|].
    eexists. split; [reflexivity|]. split; try done.
    exists (seg ++ [v]), l. split_and!; try done.
    + by rewrite Hst, <- app_assoc.
    + intros x w [Hx| ->%list_elem_of_singleton]%elem_of_app He; [by eapply Hed|auto].
    + intros x [Hx| ->%list_elem_of_singleton]%elem_of_app; [by apply Hsink|].
      exists y, (next_index st0), l. split_and!; try done; [|lia]. rewrite Hst. set_solver.
    + right. split; [set_solver|]. by exists y.
Qed.

(** *** Termination measure: the nodes not yet entered *)

Definition unvisited (st : Tarjan) : list A := base.filter (fun x => idx st x = None) nodes.

Lemma elem_unvisited st x : x ∈ unvisited st <-> idx st x = None /\ x ∈ nodes.
Proof. unfold unvisited. by rewrite list_elem_of_filter. Qed.

Context (nodes_sorted : ssorted nodes).

Lemma unvisited_nodup st : NoDup (unvisited st).
Proof. apply NoDup_filter. by apply ssorted_NoDup. Qed.

Lemma unvisited_frame st st' : frame st st' -> (length (unvisited st') <= length (unvisited st))%nat.
Proof.
  intros [Hf _]. apply submseteq_length, NoDup_submseteq; [apply unvisited_nodup|].
  intros x. rewrite !elem_unvisited. intros [Hx Hn]. split; [|done].
  destruct (idx st x) as [i|] eqn:E; [|done]. apply Hf in E as [E _]. congruence.
Qed.

Lemma unvisited_enter v st :
  v ∈ nodes -> idx st v = None -> (length (unvisited (enter v st)) < length (unvisited st))%nat.
Proof.
  intros Hn Hv. cut (length (v :: unvisited (enter v st)) <= length (unvisited st))%nat; [done|].
  apply submseteq_length, NoDup_submseteq.
  - constructor; [|apply unvisited_nodup]. rewrite elem_unvisited, idx_enter, oeqb_refl. by intros [? _].
  - intros x [->|Hx]%elem_of_cons; [by rewrite elem_unvisited|].
    rewrite elem_unvisited, idx_enter in *. destruct (oeqb v x); [by destruct Hx|done].
Qed.

(** *** The visit *)

Definition visits (fuel : nat) : Prop :=
  forall v st, Inv st -> v ∈ nodes -> idx st v = None -> (length (unvisited st) <= fuel)%nat ->
  exists st', visit fuel v st = Some st' /\ visit_post v st st'.

Lemma follow_spec fuel v st0 done cur w :
  visits fuel -> Inv st0 -> idx st0 v = None -> Loop v st0 done cur ->
  (length (unvisited cur) <= fuel)%nat -> edge v w ->
  exists cur', follow (visit fuel) v cur w = Some cur' /\ Loop v st0 (done ++ [w]) cur' /\
               (length (unvisited cur') <= fuel)%nat.
Proof.
  intros IH HI0 Hv0 HL Hfuel He. unfold follow.
  assert (forall a b, indices a = indices b -> unvisited a = unvisited b) as Hun.
  { intros a b E. unfold unvisited, idx. by rewrite E. }
  destruct (mmem w (indices cur)) eqn:Em; simpl.
  - destruct (smem w (on_stack cur)) eqn:Es.
    + apply smem_true, inv_on_stack in Es; [|by destruct HL].
      destruct (loop_on_stack v st0 done cur w HI0 Hv0 HL He Es) as (j & cur' & Hj & E & HL' & Hi).
      unfold idx in Hj. rewrite Hj, E. exists cur'. rewrite (Hun _ _ Hi). done.
    + exists cur. split_and!; [done| |done]. apply loop_finished; [done|].
      apply smem_false in Es. pose proof (loop_inv _ _ _ _ HL) as HI.
      rewrite inv_on_stack in Es by done.
      destruct (proj1 (inv_visited cur HI w)) as [?|?]; [|done..].
      apply mget_elem. by apply mmem_true.
  - apply mmem_false in Em.
    destruct (IH w cur) as (cur2 & E2 & Hpost); [by destruct HL|by eapply edge_node|done..|].
    rewrite E2. destruct (loop_visited v st0 done cur w cur2 HI0 Hv0 HL He Em Hpost)
      as (b & cur' & Hb & E & HL' & Hi).
    unfold low in Hb. rewrite Hb, E. exists cur'. split_and!; [done..|]. rewrite (Hun _ _ Hi).
    etrans; [by apply unvisited_frame, Hpost|done].
Qed.

Lemma follow_all fuel v st0 ws done cur :
  visits fuel -> Inv st0 -> idx st0 v = None -> Loop v st0 done cur ->
  (length (unvisited cur) <= fuel)%nat -> (forall w, w ∈ ws -> edge v w) ->
  exists cur', opt_fold (follow (visit fuel) v) cur ws = Some cur' /\ Loop v st0 (done ++ ws) cur'.
Proof.
  intros IH HI0 Hv0. revert done cur. induction ws as [|w ws IHw]; intros done cur HL Hfuel Hws; simpl.
  - exists cur. by rewrite app_nil_r.
  - destruct (follow_spec fuel v st0 done cur w) as (cur' & -> & HL' & Hfuel'); try done; [set_solver|].
    destruct (IHw (done ++ [w]) cur') as (cur'' & E & HL''); try done; [set_solver|].
    exists cur''. by rewrite <- app_assoc in HL''.
Qed.

Lemma visit_spec fuel : visits fuel.
Proof.
  induction fuel as [|fuel IH]; intros v st HI Hn Hv Hfuel; simpl.
  - apply Nat.le_0_r, nil_length_inv in Hfuel. exfalso.
    assert (v ∈ unvisited st) as H by (by rewrite elem_unvisited). rewrite Hfuel in H. set_solver.
  - destruct (follow_all fuel v st (neighbors v) [] (enter v st)) as (cur & -> & HL); try done.
    + by apply loop_enter.
    + pose proof (unvisited_enter v st Hn Hv). lia.
    + by apply (leave_spec v st (neighbors v)).
Qed.

(** *** The roots *)

Lemma inv_initial : Inv initial.
Proof.
  split; simpl; try done; try (intros; set_solver).
  - constructor.
  - intros x. unfold finished. simpl. split; [by intros [? ?]|set_solver].
  - constructor.
  - intros [|? ?]; done.
  - intros c x y Hc. set_solver.
Qed.

Lemma visit_root_spec st v :
  Inv st -> stack st = [] -> v ∈ nodes ->
  exists st', visit_root st v = Some st' /\ Inv st' /\ stack st' = [] /\ frame st st' /\
              is_Some (idx st' v).
Proof.
  intros HI Hs Hn. unfold visit_root. destruct (mmem v (indices st)) eqn:Em; simpl.
  - exists st. split_and!; try done. apply mget_elem. by apply mmem_true.
  - apply mmem_false in Em. destruct (visit_spec (length nodes) v st) as (st' & E & Hp); try done.
    + unfold unvisited. apply length_filter.
    + exists st'. destruct Hp as [HI' Hf Hi _ (seg & l & Hst & _ & _ & _ & Hr)].
      split_and!; try done. rewrite Hst, Hs, app_nil_r.
      destruct Hr as [[-> _]|(_ & y & Hy & _)]; [done|]. rewrite Hs in Hy. set_solver.
Qed.

Lemma visit_roots vs st :
  Inv st -> stack st = [] -> (forall v, v ∈ vs -> v ∈ nodes) ->
  exists st', opt_fold visit_root st vs = Some st' /\ Inv st' /\ stack st' = [] /\ frame st st' /\
              forall v, v ∈ vs -> is_Some (idx st' v).
Proof.
  revert st. induction vs as [|v vs IH]; intros st HI Hs Hvs; simpl.
  - exists st. split_and!; try done. set_solver.
  - destruct (visit_root_spec st v) as (st1 & -> & HI1 & Hs1 & Hf1 & Hv); try done; [set_solver|].
    destruct (IH st1) as (st2 & E & HI2 & Hs2 & Hf2 & Hall); try done; [set_solver|].
    exists st2. split_and!; try done; [by eapply frame_trans|].
    intros x [->|Hx]%elem_of_cons; [|auto]. destruct Hv as [i Hi]. exists i. by apply Hf2.
Qed.

Lemma elem_concat {B} (l : list (list B)) x : x ∈ concat l <-> exists c, x ∈ c /\ c ∈ l.
Proof. rewrite list_elem_of_In, in_concat. setoid_rewrite list_elem_of_In. naive_solver. Qed.

(** Reachability never goes to a later component. *)
Lemma closed_reach pre c post x y :
  closed (pre ++ c :: post) -> x ∈ c -> reach x y -> y ∈ concat pre \/ y ∈ c.
Proof.
  intros Hc Hx Hr. apply clos_rt_rt1n in Hr. revert pre c post Hc Hx.
  induction Hr as [x|x w y He _ IH]; intros pre c post Hc Hx; [auto|].
  destruct (Hc pre c post eq_refl x w Hx He) as [Hw|Hw]; [|by apply (IH pre c post)].
  apply elem_concat in Hw as (d & Hwd & Hd). apply list_elem_of_split in Hd as (p & q & ->).
  left. rewrite concat_app. simpl. rewrite <- app_assoc in Hc. simpl in Hc.
  destruct (IH p d (q ++ c :: post) Hc Hwd) as [H|H]; set_solver.
Qed.

Definition together (cs : list (list A)) (x y : A) : Prop := exists c, c ∈ cs /\ x ∈ c /\ y ∈ c.

Lemma together_iff cs x y :
  closed cs -> connected cs -> NoDup (concat cs) -> x ∈ concat cs ->
  together cs x y <-> reach x y /\ reach y x.
Proof.
  intros Hc Hn Hnd Hx. split.
  - intros (c & Hcs & Hxc & Hyc). split; by eapply Hn.
  - intros [Hxy Hyx]. apply elem_concat in Hx as (c & Hxc & Hcs). exists c. split_and!; [done..|].
    apply list_elem_of_split in Hcs as (pre & post & ->).
    destruct (closed_reach pre c post x y Hc Hxc Hxy) as [Hy|Hy]; [|done]. exfalso.
    apply elem_concat in Hy as (d & Hyd & Hd). apply list_elem_of_split in Hd as (p & q & ->).
    rewrite <- app_assoc in Hc. simpl in Hc.
    destruct (closed_reach p d (q ++ c :: post) y x Hc Hyd Hyx) as [H|H];
      rewrite !concat_app in Hnd; apply NoDup_app in Hnd as (_ & Hdis & _);
      apply (Hdis x); simpl; rewrite ?elem_of_app; auto.
Qed.

Theorem strongly_connected_components_spec :
  exists cs, strongly_connected_components = Some cs /\ concat cs ≡ₚ nodes /\
    (forall c, c ∈ cs -> c <> [] /\ ssorted c) /\ closed cs /\ connected cs.
Proof.
  destruct (visit_roots nodes initial) as (st & E & HI & Hs & _ & Hall);
    [apply inv_initial|done|done|].
  exists (components st). unfold strongly_connected_components. rewrite E.
  destruct (HI) as [H1 _ _ _ H5 H6 _ H8 H9 H10]. split_and!; try done.
  rewrite Hs in H6. simpl in H6. apply NoDup_Permutation; [done|by apply ssorted_NoDup|].
  intros x. split.
  - intros Hx. destruct (proj2 (H5 x) (or_intror Hx)) as [i Hi]. by eapply H1.
  - intros Hx%Hall%H5. rewrite Hs in Hx. destruct Hx as [Hx|Hx]; [set_solver|done].
Qed.

(** C26. Tarjan's algorithm as the planner runs it never fails on a graph and
    never panics: its components partition the selected nodes, each is sorted
    and nonempty, two nodes share a component exactly when each depends on the
    other transitively, and every dependency of a component's member is in the
    same or an earlier component. *)
Theorem strongly_connected_components_correct :
  exists cs, strongly_connected_components = Some cs /\
    concat cs ≡ₚ nodes /\
    (forall c, c ∈ cs -> c <> [] /\ ssorted c) /\
    (forall x y, x ∈ nodes -> y ∈ nodes -> together cs x y <-> reach x y /\ reach y x) /\
    (forall pre c post, cs = pre ++ c :: post ->
     forall x w, x ∈ c -> w ∈ dependencies x -> w ∈ nodes -> w ∈ concat pre \/ w ∈ c).
Proof.
  destruct strongly_connected_components_spec as (cs & E & Hp & Hs & Hc & Hn).
  exists cs. split_and!; try done.
  - intros x y Hx _. apply together_iff; [done..| |by rewrite Hp].
    rewrite Hp. by apply ssorted_NoDup.
  - intros pre c post Ecs x w Hx Hw Hwn. apply (Hc pre c post Ecs x w Hx).
    unfold edge, neighbors. rewrite list_elem_of_filter, smem_true. done.
Qed.
End tarjan.

(** A graph with the cycles 1-2-3 and 4-5, the second feeding the first, and 6
    outside the selection. *)
Definition example_dependencies (n : nat) : BTreeSet nat :=
  match n with 1 => [2] | 2 => [3] | 3 => [1; 4] | 4 => [5; 6] | 5 => [4] | _ => [] end%nat.

Lemma example_components :
  strongly_connected_components example_dependencies [1; 2; 3; 4; 5; 7]%nat =
  Some [[4; 5]; [1; 2; 3]; [7]]%nat.
Proof. vm_compute. reflexivity. Qed.

Lemma strongly_connected_components_correct_w :
  exists cs, strongly_connected_components example_dependencies [1; 2; 3; 4; 5; 7]%nat = Some cs /\
             concat cs ≡ₚ [1; 2; 3; 4; 5; 7]%nat.
Proof.
  destruct (strongly_connected_components_correct example_dependencies [1; 2; 3; 4; 5; 7]%nat)
    as (cs & E & Hp & _); [repeat constructor|eauto].
Defined.

End Components.
