(* ===== verification/Ordering.v ===== *)
(** * Deterministic dependency order (schema/src/delta_dependencies.rs,
    [ordered_components])

    The component graph of the selected nodes and the loop that emits
    components by smallest first member. [None] stands for an index out of
    range, an empty component, an underflow of the [remaining] counters or
    exhausted fuel; the theorem of the file says that none of them happens. *)

From S2P Require Import Prelude BTree Components.
From Stdlib Require Import Sorted.
Import Components.

Module Ordering.

Definition enumerate {A} (l : list A) : list (nat * A) := imap pair l.

(** [v[i]] replaced by [f v[i]]. *)
Definition vec_update {A} (i : nat) (f : A -> A) (v : list A) : option (list A) :=
  match v !! i with Some a => Some (<[i := f a]> v) | None => None end.

Section ordering.
Context {A : Type} {o : Ord A}.
Context (dependencies : A -> BTreeSet A).

Definition component_of (components : list (list A)) : BTreeMap A nat :=
  mof (enumerate components ≫= fun '(index, component) => map (fun node => (node, index)) component).

(** The pairs (index, dependency index) in the order the loops meet them. *)
Definition component_links (components : list (list A)) : list (nat * nat) :=
  enumerate components ≫= fun '(index, component) =>
  component ≫= fun node =>
  omap (fun dependency =>
    match mget dependency (component_of components) with
    | Some dependency_index =>
        if negb (dependency_index =? index)%nat then Some (index, dependency_index) else None
    | None => None
    end) (dependencies node).

Definition link (acc : list (BTreeSet nat) * list (BTreeSet nat)) (e : nat * nat)
    : option (list (BTreeSet nat) * list (BTreeSet nat)) :=
  match vec_update e.1 (sins e.2) acc.1, vec_update e.2 (sins e.1) acc.2 with
  | Some prerequisites, Some dependents => Some (prerequisites, dependents)
  | _, _ => None
  end.

(** One dependent of the emitted component. *)
Definition release (keys : list A) (acc : list nat * BTreeSet (A * nat)) (dependent : nat)
    : option (list nat * BTreeSet (A * nat)) :=
  match acc.1 !! dependent, keys !! dependent with
  | Some (S count), Some key =>
      Some (<[dependent := count]> acc.1,
            if (count =? 0)%nat then sins (key, dependent) acc.2 else acc.2)
  | _, _ => None
  end.

(** The [while] loop, returning the emitted indices. *)
Fixpoint drain (fuel : nat) (dependents : list (BTreeSet nat)) (keys : list A)
    (remaining : list nat) (ready : BTreeSet (A * nat)) (ordered : list nat) : option (list nat) :=
  match fuel with
  | O => None
  | S fuel =>
      match ready with
      | [] => Some ordered
      | entry :: _ =>
          let ready := sdel entry ready in
          let index := entry.2 in
          match dependents !! index with
          | Some ds =>
              match opt_fold (release keys) (remaining, ready) ds with
              | Some (remaining, ready) =>
                  drain fuel dependents keys remaining ready (ordered ++ [index])
              | None => None
              end
          | None => None
          end
      end
  end.

Definition initially_ready (keys : list A) (remaining : list nat) : option (BTreeSet (A * nat)) :=
  opt_fold (fun ready '(index, count) =>
    if (count =? 0)%nat then
      match keys !! index with Some key => Some (sins (key, index) ready) | None => None end
    else Some ready) [] (enumerate remaining).

(** The order of the component indices. *)
Definition component_order (components : list (list A)) : option (list nat) :=
  let empty := replicate (length components) [] in
  match opt_fold link (empty, empty) (component_links components), mapM head components with
  | Some (prerequisites, dependents), Some keys =>
      let remaining := map length prerequisites in
      match initially_ready keys remaining with
      | Some ready => drain (S (length components)) dependents keys remaining ready []
      | None => None
      end
  | _, _ => None
  end.

Definition ordered_components (nodes : BTreeSet A) : option (list (list A)) :=
  if bool_decide (nodes = []) then Some []
  else match strongly_connected_components dependencies nodes with
       | Some components =>
           match component_order components with
           | Some order => mapM (fun index => components !! index) order
           | None => None
           end
       | None => None
       end.

(** ** The emission loop *)

Context {ol : OrdLaws A}.

Section kahn.
Context (prerequisites dependents : list (BTreeSet nat)) (keys : list A).
Context (plen : length prerequisites = length keys) (dlen : length dependents = length keys).

(** [i] waits for [j]. *)
Definition needs (i j : nat) : Prop := exists P, prerequisites !! i = Some P /\ j ∈ P.

Context (prereq_sorted : forall i P, prerequisites !! i = Some P -> ssorted P).
Context (dep_sorted : forall i D, dependents !! i = Some D -> ssorted D).
Context (dep_iff : forall i j D, dependents !! j = Some D -> i ∈ D <-> needs i j).
Context (needs_lt : forall i j, needs i j -> (j < i)%nat).

Definition open_count (E : list nat) (P : BTreeSet nat) : nat :=
  length (base.filter (fun j => j ∉ E) P).

Definition unlocked (E : list nat) (i : nat) : Prop := forall j, needs i j -> j ∈ E.

Lemma open_count_zero E P : open_count E P = 0%nat <-> forall j, j ∈ P -> j ∈ E.
Proof.
  unfold open_count. split.
  - intros H%nil_length_inv j Hj. destruct (decide (j ∈ E)) as [|Hn]; [done|].
    assert (j ∈ base.filter (fun j => j ∉ E) P) as Hf by (by apply list_elem_of_filter).
    rewrite H in Hf. set_solver.
  - intros H. destruct (base.filter _ _) as [|j l] eqn:Ef; [done|].
    assert (j ∈ base.filter (fun j => j ∉ E) P) as Hj by (rewrite Ef; set_solver).
    apply list_elem_of_filter in Hj. naive_solver.
Qed.

Lemma open_count_snoc E P i :
  NoDup P -> i ∉ E -> open_count E P = (open_count (E ++ [i]) P + if decide (i ∈ P) then 1 else 0)%nat.
Proof.
  unfold open_count. intros Hnd Hi. induction Hnd as [|p P Hp Hnd IH]; simpl.
  - destruct (decide (i ∈ [])); set_solver.
  - rewrite !filter_cons. repeat case_decide; simpl; try lia; set_solver.
Qed.

(** What releasing a list of dependents does. *)
Lemma release_all ds remaining ready :
  NoDup ds -> ssorted ready ->
  (forall d, d ∈ ds -> (exists c, remaining !! d = Some (S c)) /\ is_Some (keys !! d)) ->
  exists remaining' ready', opt_fold (release keys) (remaining, ready) ds = Some (remaining', ready') /\
    ssorted ready' /\
    (forall d, remaining' !! d = if decide (d ∈ ds) then pred <$> remaining !! d else remaining !! d) /\
    (forall k d, (k, d) ∈ ready' <->
       (k, d) ∈ ready \/ (d ∈ ds /\ keys !! d = Some k /\ remaining !! d = Some 1%nat)).
Proof.
  intros Hnd. revert remaining ready. induction Hnd as [|d ds Hd Hnd IH]; intros remaining ready Hs Hall.
  - exists remaining, ready. split_and!; [done..|set_solver].
  - destruct (Hall d ltac:(set_solver)) as [[c Hc] [k Hk]]. cbn [opt_fold].
    assert (release keys (remaining, ready) d =
      Some (<[d:=c]> remaining, if (c =? 0)%nat then sins (k, d) ready else ready)) as ->
      by (unfold release; simpl; by rewrite Hc, Hk).
    destruct (IH (<[d:=c]> remaining) (if (c =? 0)%nat then sins (k, d) ready else ready))
      as (remaining' & ready' & -> & Hs' & Hrem & Hready).
    + destruct (c =? 0)%nat; [by apply sins_sorted|done].
    + intros e He. rewrite list_lookup_insert_ne by set_solver. apply Hall. set_solver.
    + exists remaining', ready'. split_and!; [done..| |].
      * intros e. rewrite Hrem. destruct (decide (e = d)) as [->|Hne].
        -- rewrite decide_False, decide_True by set_solver.
           rewrite list_lookup_insert_eq by (by eapply lookup_lt_Some). by rewrite Hc.
        -- rewrite list_lookup_insert_ne by done. destruct (decide (e ∈ ds)).
           ++ by rewrite decide_True by set_solver.
           ++ by rewrite decide_False by set_solver.
      * intros k' e. rewrite Hready. destruct (decide (e = d)) as [->|Hne].
        -- rewrite Hc. destruct (Nat.eqb_spec c 0) as [->|Hc0]; [rewrite elem_sins|];
             rewrite ?Hk; naive_solver set_solver.
        -- rewrite list_lookup_insert_ne by done.
           destruct (c =? 0)%nat; [rewrite elem_sins|]; set_solver.
Qed.

(** Every index is emitted after what it waits for, and before every index
    with a larger key that could have been emitted instead. *)
Definition emission (E : list nat) : Prop :=
  forall pre i post, E = pre ++ i :: post ->
  unlocked pre i /\
  forall ki d kd, keys !! i = Some ki -> keys !! d = Some kd -> d ∉ pre -> d <> i -> unlocked pre d ->
  olt (ki, i) (kd, d).

Record KInv (E remaining : list nat) (ready : BTreeSet (A * nat)) : Prop := {
  k_nodup : NoDup E;
  k_range : forall i, i ∈ E -> (i < length keys)%nat;
  k_count : forall i P, prerequisites !! i = Some P -> remaining !! i = Some (open_count E P);
  k_sorted : ssorted ready;
  k_ready : forall k i, (k, i) ∈ ready <-> keys !! i = Some k /\ i ∉ E /\ unlocked E i;
  k_emission : emission E }.

Lemma emission_snoc E i :
  emission E -> unlocked E i ->
  (forall ki d kd, keys !! i = Some ki -> keys !! d = Some kd -> d ∉ E -> d <> i -> unlocked E d ->
   olt (ki, i) (kd, d)) -> emission (E ++ [i]).
Proof.
  intros HE Hu Hm pre j post Ej. destruct post as [|p post _] using rev_ind.
  - apply app_inj_tail in Ej as [-> ->]. done.
  - rewrite app_comm_cons, app_assoc in Ej. apply app_inj_tail in Ej as [-> _]. by eapply HE.
Qed.

Lemma keys_prereq i : is_Some (keys !! i) -> is_Some (prerequisites !! i).
Proof. rewrite !lookup_lt_is_Some. by rewrite plen. Qed.

Lemma needs_range i j : needs i j -> is_Some (keys !! i).
Proof. intros (P & HP & _). rewrite lookup_lt_is_Some, <- plen. by eapply lookup_lt_Some. Qed.

(** An emitted index waits only for emitted indices. *)
Lemma emitted_unlocked E i : emission E -> i ∈ E -> unlocked E i.
Proof.
  intros HE Hi j Hj. apply list_elem_of_split in Hi as (pre & post & ->).
  destruct (HE pre i post eq_refl) as [Hu _]. apply elem_of_app. left. by apply Hu.
Qed.

Lemma unlocked_count E P i :
  prerequisites !! i = Some P -> unlocked E i <-> open_count E P = 0%nat.
Proof.
  intros HP. rewrite open_count_zero. unfold unlocked, needs. split.
  - intros H j Hj. apply H. eauto.
  - intros H j (P' & HP' & Hj). simplify_eq. auto.
Qed.

Lemma waiting_count E remaining ready i d :
  KInv E remaining ready -> i ∉ E -> needs d i -> exists c, remaining !! d = Some (S c).
Proof.
  intros HK Hi (P & HP & Hd). rewrite (k_count _ _ _ HK d P HP).
  destruct (open_count E P) eqn:E0; [|eauto]. exfalso. apply Hi. by eapply open_count_zero.
Qed.

(** The ready set after [i] is emitted. *)
Lemma ready_step E i k k' d :
  emission E -> i ∉ E -> keys !! i = Some k ->
  ((k', d) <> (k, i) /\ keys !! d = Some k' /\ d ∉ E /\ unlocked E d) \/
  (exists P, keys !! d = Some k' /\ prerequisites !! d = Some P /\ i ∈ P /\ open_count E P = 1%nat) <->
  keys !! d = Some k' /\ d ∉ E ++ [i] /\ unlocked (E ++ [i]) d.
Proof.
  intros Hem HiE Hki. split.
  - intros [(Hne & Hk & Hd & Hu)|(P & Hk & HP & HiP & Hc)].
    + split_and!; [done| |].
      * assert (d <> i) by (intros ->; naive_solver). set_solver.
      * intros j Hj%Hu. set_solver.
    + rewrite (open_count_snoc E P i), decide_True in Hc by (try done; by eapply ssorted_NoDup, prereq_sorted).
      assert (needs d i) as Hdi by (by exists P). split_and!; [done| |].
      * rewrite elem_of_app, list_elem_of_singleton. intros [Hd| ->].
        -- by apply HiE, (emitted_unlocked E d Hem Hd).
        -- apply needs_lt in Hdi. lia.
      * apply (unlocked_count _ P d HP). lia.
  - intros (Hk & Hd & Hu). destruct (keys_prereq d ltac:(eauto)) as [P HP].
    pose proof Hu as Hc. rewrite (unlocked_count _ P d HP) in Hc.
    pose proof (open_count_snoc E P i ltac:(by eapply ssorted_NoDup, prereq_sorted) HiE) as Ho.
    destruct (decide (i ∈ P)) as [HiP|HiP].
    + right. exists P. split_and!; [done..|lia].
    + left. split_and!; [set_solver|done|set_solver|]. apply (unlocked_count _ P d HP). lia.
Qed.

Lemma drain_step E remaining k i rest :
  KInv E remaining ((k, i) :: rest) ->
  exists ds remaining' ready', dependents !! i = Some ds /\
    opt_fold (release keys) (remaining, sdel (k, i) ((k, i) :: rest)) ds = Some (remaining', ready') /\
    KInv (E ++ [i]) remaining' ready'.
Proof.
  intros HK. destruct (HK) as [Hnd Hrange Hcount Hsort Hready Hem].
  destruct (proj1 (Hready k i)) as (Hki & HiE & Hui); [set_solver|].
  assert (i < length keys)%nat as Hlt by (by eapply lookup_lt_Some).
  destruct (dependents !! i) as [ds|] eqn:Hds; [|apply lookup_ge_None in Hds; lia].
  assert (NoDup ds) as Hdsn by (by eapply ssorted_NoDup, dep_sorted).
  destruct (release_all ds remaining (sdel (k, i) ((k, i) :: rest))) as (rem' & ready' & Ef & Hs' & Hrem & Hrdy).
  - done.
  - by apply sdel_sorted.
  - intros d Hd. apply (dep_iff d i ds Hds) in Hd. split; [by eapply waiting_count|by eapply needs_range].
  - exists ds, rem', ready'. split_and!; [done..|].
    assert (forall d P, prerequisites !! d = Some P -> d ∈ ds <-> i ∈ P) as Hdep.
    { intros d P HP. rewrite (dep_iff d i ds Hds). unfold needs. naive_solver. }
    split.
    + apply NoDup_app. split_and!; [done| |apply NoDup_singleton]. set_solver.
    + intros j [Hj| ->%list_elem_of_singleton]%elem_of_app; auto.
    + intros d P HP. rewrite Hrem, (Hcount d P HP).
      rewrite (open_count_snoc E P i) by (try done; by eapply ssorted_NoDup, prereq_sorted).
      destruct (decide (d ∈ ds)) as [Hd|Hd]; rewrite (Hdep d P HP) in Hd.
      * rewrite decide_True by done. simpl. f_equal. lia.
      * rewrite decide_False by done. f_equal. lia.
    + done.
    + intros k' d. rewrite Hrdy, elem_sdel, Hready, <- (ready_step E i k k' d Hem HiE Hki).
      split; (intros [?|(Hd & Hk & Hr)]; [by left|right]).
      * destruct (keys_prereq d ltac:(eauto)) as [P HP]. rewrite (Hcount d P HP) in Hr.
        exists P. rewrite <- (Hdep d P HP). naive_solver.
      * destruct Hr as (HP & Hi & Hc). rewrite (Hdep d Hd HP), (Hcount d Hd HP), Hc. done.
    + apply emission_snoc; [done..|]. intros ki d kd Hki' Hkd HdE Hdi Hud. simplify_eq.
      assert ((kd, d) ∈ (k, i) :: rest) as Hin by (by apply Hready).
      apply elem_of_cons in Hin as [?|Hin]; [naive_solver|].
      inversion Hsort as [|? ? _ Hall]; subst. by apply (proj1 (Forall_forall _ _) Hall).
Qed.

Lemma emitted_length E remaining ready : KInv E remaining ready -> (length E <= length keys)%nat.
Proof.
  intros HK. rewrite <- (length_seq (length keys) 0).
  apply submseteq_length, NoDup_submseteq; [by apply HK|].
  intros i Hi%(k_range _ _ _ HK). apply elem_of_seq. lia.
Qed.

(** With nothing ready, everything was emitted. *)
Lemma drained E remaining : KInv E remaining [] -> E ≡ₚ seq 0 (length keys).
Proof.
  intros HK. apply NoDup_Permutation; [by apply HK|apply NoDup_seq|].
  intros i. rewrite elem_of_seq. split; [intros Hi%(k_range _ _ _ HK); lia|].
  intros [_ Hi]. simpl in Hi. revert Hi. induction i as [i IH] using lt_wf_ind. intros Hi.
  destruct (decide (i ∈ E)) as [|Hn]; [done|]. exfalso.
  destruct (lookup_lt_is_Some_2 keys i Hi) as [k Hk].
  assert ((k, i) ∈ []) as Hin; [|set_solver].
  apply (k_ready _ _ _ HK). split_and!; [done..|]. intros j Hj%needs_lt. apply IH; lia.
Qed.

Lemma drain_spec fuel E remaining ready :
  KInv E remaining ready -> (length keys - length E < fuel)%nat ->
  exists E', drain fuel dependents keys remaining ready E = Some E' /\
             emission E' /\ E' ≡ₚ seq 0 (length keys).
Proof.
  revert E remaining ready. induction fuel as [|fuel IH]; intros E remaining ready HK Hf; [lia|].
  destruct ready as [|[k i] rest].
  - exists E. split_and!; [done|by apply HK|by eapply drained].
  - destruct (drain_step E remaining k i rest HK) as (ds & rem' & ready' & Hds & Ef & HK').
    cbn [drain snd]. rewrite Hds, Ef. apply IH; [done|].
    pose proof (emitted_length _ _ _ HK') as Hl. rewrite length_app in Hl |- *. simpl in *. lia.
Qed.

(** *** The initial ready set *)

Lemma elem_enumerate {B} (l : list B) i x : (i, x) ∈ enumerate l <-> l !! i = Some x.
Proof.
  unfold enumerate. rewrite elem_of_lookup_imap. split.
  - intros (j & y & [= -> ->] & H). done.
  - intros H. by exists i, x.
Qed.

Lemma ready_fold l (acc : BTreeSet (A * nat)) :
  ssorted acc -> (forall i c, (i, c) ∈ l -> is_Some (keys !! i)) ->
  exists ready, opt_fold (fun ready '(index, count) =>
      if (count =? 0)%nat then
        match keys !! index with Some key => Some (sins (key, index) ready) | None => None end
      else Some ready) acc l = Some ready /\ ssorted ready /\
    forall k i, (k, i) ∈ ready <-> (k, i) ∈ acc \/ (keys !! i = Some k /\ (i, 0%nat) ∈ l).
Proof.
  revert acc. induction l as [|[i c] l IH]; intros acc Hs Hall; simpl.
  - exists acc. set_solver.
  - destruct (Hall i c ltac:(set_solver)) as [k Hk]. destruct (Nat.eqb_spec c 0) as [->|Hc].
    + rewrite Hk. destruct (IH (sins (k, i) acc)) as (ready & E & Hr & Hi);
        [by apply sins_sorted|set_solver|].
      exists ready. split_and!; [done..|]. intros k' j. rewrite Hi, elem_sins, elem_of_cons. naive_solver.
    + destruct (IH acc) as (ready & E & Hr & Hi); [done|set_solver|].
      exists ready. split_and!; [done..|]. intros k' j. rewrite Hi, elem_of_cons. naive_solver.
Qed.

Lemma kahn_initial :
  exists ready, initially_ready keys (map length prerequisites) = Some ready /\
                KInv [] (map length prerequisites) ready.
Proof.
  destruct (ready_fold (enumerate (map length prerequisites)) []) as (ready & E & Hs & Hr).
  { constructor. }
  { intros i c Hi%elem_enumerate. apply lookup_lt_is_Some. rewrite <- plen.
    apply lookup_lt_Some in Hi. by rewrite length_map in Hi. }
  exists ready. split; [done|].
  assert (forall P : list nat, open_count [] P = length P) as Hopen.
  { intros P. unfold open_count. induction P as [|p P IH]; [done|].
    rewrite filter_cons. destruct (decide _); [|set_solver]. cbn [length]. by f_equal. }
  assert (forall i, is_Some (keys !! i) -> (i, 0%nat) ∈ enumerate (map length prerequisites) <-> unlocked [] i)
    as Hzero.
  { intros i Hi. rewrite elem_enumerate. destruct (keys_prereq i Hi) as [P HP].
    rewrite (unlocked_count [] P i HP), Hopen.
    rewrite list_lookup_fmap, HP. simpl. split; [by intros [= ->]|by intros ->]. }
  split.
  - constructor.
  - set_solver.
  - intros i P HP. by rewrite list_lookup_fmap, HP, Hopen.
  - done.
  - intros k i. rewrite Hr. split.
    + intros [?|(Hk & Hz)]; [set_solver|]. apply Hzero in Hz; [|eauto]. set_solver.
    + intros (Hk & _ & Hu). right. split; [done|]. apply Hzero; eauto.
  - intros [|? ?]; done.
Qed.
End kahn.

(** ** The component graph *)

Lemma enumerate_snoc {B} (l : list B) x : enumerate (l ++ [x]) = enumerate l ++ [(length l, x)].
Proof. unfold enumerate. rewrite imap_app. simpl. by rewrite Nat.add_0_r. Qed.

Lemma component_pairs_fst (cs : list (list A)) :
  map fst (enumerate cs ≫= fun '(index, component) => map (fun node => (node, index)) component) = concat cs.
Proof.
  induction cs as [|c cs IH] using rev_ind; [done|].
  rewrite enumerate_snoc, bind_app, map_app, IH, concat_app. simpl. rewrite !app_nil_r, map_map. simpl.
  by rewrite map_id.
Qed.

Lemma component_of_spec cs x i :
  NoDup (concat cs) ->
  mget x (component_of cs) = Some i <-> exists c, cs !! i = Some c /\ x ∈ c.
Proof.
  intros Hnd. unfold component_of. rewrite mget_mof by (by rewrite component_pairs_fst).
  rewrite list_elem_of_bind. split.
  - intros ([j c] & Hx & Hj%elem_enumerate). exists c.
    apply (list_elem_of_fmap (fun node => (node, j))) in Hx as (y & [= -> ->] & Hy). done.
  - intros (c & Hc & Hx). exists (i, c). split; [|by apply elem_enumerate].
    apply (list_elem_of_fmap (fun node => (node, i))). by exists x.
Qed.

(** Component [i] depends on component [j]. *)
Definition depends (cs : list (list A)) (i j : nat) : Prop :=
  i <> j /\ exists c d x y, cs !! i = Some c /\ cs !! j = Some d /\ x ∈ c /\ y ∈ dependencies x /\ y ∈ d.

Lemma component_links_spec cs i j :
  NoDup (concat cs) -> (i, j) ∈ component_links cs <-> depends cs i j.
Proof.
  intros Hnd. unfold component_links, depends. rewrite list_elem_of_bind. split.
  - intros ([k c] & Hl & Hc%elem_enumerate). apply list_elem_of_bind in Hl as (x & Hl & Hx).
    apply list_elem_of_omap in Hl as (y & Hy & Hm).
    destruct (mget y (component_of cs)) as [d|] eqn:Hd; [|done].
    destruct (Nat.eqb_spec d k) as [|Hne]; simplify_eq/=.
    apply component_of_spec in Hd as (c' & Hc' & Hyc); [|done]. split; [done|]. eauto 10.
  - intros (Hne & c & d & x & y & Hc & Hd & Hx & Hy & Hyd). exists (i, c).
    split; [|by apply elem_enumerate]. apply list_elem_of_bind. exists x. split; [|done].
    apply list_elem_of_omap. exists y. split; [done|].
    rewrite (proj2 (component_of_spec cs y j Hnd)) by eauto.
    destruct (Nat.eqb_spec j i) as [->|]; done.
Qed.

Lemma link_all links (p d : list (BTreeSet nat)) :
  (forall i j, (i, j) ∈ links -> (i < length p)%nat /\ (j < length d)%nat) ->
  (forall i P, p !! i = Some P -> ssorted P) -> (forall i D, d !! i = Some D -> ssorted D) ->
  exists p' d', opt_fold link (p, d) links = Some (p', d') /\
    length p' = length p /\ length d' = length d /\
    (forall i P, p' !! i = Some P -> ssorted P) /\ (forall i D, d' !! i = Some D -> ssorted D) /\
    (forall i P' , p' !! i = Some P' -> exists P, p !! i = Some P /\
       forall j, j ∈ P' <-> j ∈ P \/ (i, j) ∈ links) /\
    (forall j D' , d' !! j = Some D' -> exists D, d !! j = Some D /\
       forall i, i ∈ D' <-> i ∈ D \/ (i, j) ∈ links).
Proof.
  revert p d. induction links as [|[i j] links IH]; intros p d Hr Hp Hd.
  - exists p, d. split_and!; try done; [intros i P H; exists P|intros i D H; exists D]; set_solver.
  - destruct (Hr i j ltac:(set_solver)) as [Hi Hj].
    destruct (lookup_lt_is_Some_2 p i Hi) as [P HP], (lookup_lt_is_Some_2 d j Hj) as [D HD].
    cbn [opt_fold]. unfold link at 1, vec_update. simpl. rewrite HP, HD.
    destruct (IH (<[i:=sins j P]> p) (<[j:=sins i D]> d)) as (p' & d' & -> & Hlp & Hld & Hsp & Hsd & HP' & HD').
    + intros i' j' H. rewrite !length_insert. apply Hr. set_solver.
    + intros k Q. rewrite list_lookup_insert. case_decide; [|apply Hp]. intros [= <-]. apply sins_sorted. eauto.
    + intros k Q. rewrite list_lookup_insert. case_decide; [|apply Hd]. intros [= <-]. apply sins_sorted. eauto.
    + rewrite length_insert in Hlp, Hld. exists p', d'. split_and!; try done.
      * intros k Q HQ. destruct (HP' k Q HQ) as (Q0 & HQ0 & Hiff). rewrite list_lookup_insert in HQ0.
        case_decide as Hk; [destruct Hk as [<- _]; exists P|exists Q0]; (split; [done|]); intros x;
          rewrite Hiff, elem_of_cons; simplify_eq; [rewrite elem_sins|]; naive_solver.
      * intros k Q HQ. destruct (HD' k Q HQ) as (Q0 & HQ0 & Hiff). rewrite list_lookup_insert in HQ0.
        case_decide as Hk; [destruct Hk as [<- _]; exists D|exists Q0]; (split; [done|]); intros x;
          rewrite Hiff, elem_of_cons; simplify_eq; [rewrite elem_sins|]; naive_solver.
Qed.

Lemma component_unique (cs : list (list A)) i j c d (x : A) :
  NoDup (concat cs) -> cs !! i = Some c -> cs !! j = Some d -> x ∈ c -> x ∈ d -> i = j.
Proof.
  intros Hnd Hc Hd Hxc Hxd.
  assert (mget x (component_of cs) = Some i) as H1 by (apply component_of_spec; eauto).
  assert (mget x (component_of cs) = Some j) as H2 by (apply component_of_spec; eauto). congruence.
Qed.

Section components.
Context (nodes : BTreeSet A) (cs : list (list A)).
Context (cs_nodup : NoDup (concat cs)) (cs_nodes : forall x, x ∈ concat cs -> x ∈ nodes).
Context (cs_closed : closed dependencies nodes cs) (cs_nonempty : forall c, c ∈ cs -> c <> []).

Lemma depends_lt i j : depends cs i j -> (j < i)%nat.
Proof.
  intros (Hne & c & d & x & y & Hc & Hd & Hx & Hy & Hyd).
  pose proof (take_drop_middle cs i c Hc) as Ecs.
  destruct (cs_closed _ _ _ (eq_sym Ecs) x y Hx) as [Hp|Hp].
  - unfold edge, neighbors. rewrite list_elem_of_filter, smem_true. split; [|done].
    apply cs_nodes, elem_concat. exists d. split; [done|]. by eapply list_elem_of_lookup_2.
  - apply elem_concat in Hp as (e & Hye & He). apply list_elem_of_lookup in He as [k Hk].
    assert (k < i)%nat.
    { apply lookup_lt_Some in Hk as Hlt. rewrite length_take in Hlt. lia. }
    rewrite lookup_take_lt in Hk by done. by rewrite (component_unique cs j k d e y).
  - by destruct Hne; eapply component_unique.
Qed.

Lemma heads : exists keys, mapM head cs = Some keys /\ length keys = length cs /\
  forall i c, cs !! i = Some c -> keys !! i = head c.
Proof.
  clear cs_nodup cs_nodes cs_closed. induction cs as [|c l IH].
  - exists []. done.
  - destruct IH as (keys & E & Hl & Hk); [set_solver|].
    destruct c as [|x c]; [by destruct (cs_nonempty []); [set_solver|]|].
    exists (x :: keys). simpl. rewrite E. split_and!; [done|by rewrite <- Hl|].
    intros [|i] d; simpl; [by intros [= <-]|apply Hk].
Qed.

(** The index vectors the loops build. *)
Lemma component_graph :
  let empty := replicate (length cs) [] in
  exists p d, opt_fold link (empty, empty) (component_links cs) = Some (p, d) /\
    length p = length cs /\ length d = length cs /\
    (forall i P, p !! i = Some P -> ssorted P) /\ (forall i D, d !! i = Some D -> ssorted D) /\
    (forall i j, needs p i j <-> depends cs i j) /\
    (forall i j D, d !! j = Some D -> i ∈ D <-> needs p i j).
Proof.
  intros empty. assert (forall i P, empty !! i = Some P -> P = []) as Hempty.
  { intros i P HP. by apply lookup_replicate in HP as [-> _]. }
  destruct (link_all (component_links cs) empty empty) as (p & d & E & Hlp & Hld & Hsp & Hsd & HP & HD).
  { intros i j (_ & c & c' & x & y & Hc & Hc' & _)%component_links_spec; [|done]. unfold empty.
    rewrite length_replicate. split; by eapply lookup_lt_Some. }
  { intros i P ->%Hempty. constructor. }
  { intros i P ->%Hempty. constructor. }
  unfold empty in Hlp, Hld. rewrite length_replicate in Hlp, Hld.
  assert (forall i j, needs p i j <-> depends cs i j) as Hneeds.
  { intros i j. rewrite <- component_links_spec by done. unfold needs. split.
    - intros (P & Hi & Hj). destruct (HP i P Hi) as (P0 & ->%Hempty & Hiff). apply Hiff in Hj. set_solver.
    - intros Hl. assert (i < length p)%nat as Hi.
      { apply component_links_spec in Hl as (_ & c & _ & _ & _ & Hc & _); [|done]. rewrite Hlp. by eapply lookup_lt_Some. }
      apply lookup_lt_is_Some_2 in Hi as [P Hi]. exists P. split; [done|].
      destruct (HP i P Hi) as (P0 & _ & Hiff). apply Hiff. by right. }
  exists p, d. split_and!; try done. intros i j D Hj. destruct (HD j D Hj) as (D0 & ->%Hempty & Hiff).
  rewrite Hiff, Hneeds, component_links_spec by done. set_solver.
Qed.

Lemma head_member i c : cs !! i = Some c -> exists x, head c = Some x /\ x ∈ c.
Proof.
  intros Hc. destruct c as [|x c]; [|exists x; set_solver].
  by destruct (cs_nonempty []); [eapply list_elem_of_lookup_2|].
Qed.

(** The indices in emission order. *)
Lemma component_order_spec :
  exists order, component_order cs = Some order /\ order ≡ₚ seq 0 (length cs) /\
  forall pre i post c, order = pre ++ i :: post -> cs !! i = Some c ->
    (forall j, depends cs i j -> j ∈ pre) /\
    (forall j d, j ∈ post -> cs !! j = Some d -> (forall k, depends cs j k -> k ∈ pre) ->
       exists x y, head c = Some x /\ head d = Some y /\ olt x y).
Proof.
  destruct heads as (keys & Ek & Hlk & Hkeys).
  destruct component_graph as (p & d & E & Hlp & Hld & Hsp & Hsd & Hneeds & Hdep).
  assert (forall i j, needs p i j -> (j < i)%nat) as Hlt by (intros i j Hn%Hneeds; by apply depends_lt).
  destruct (kahn_initial p d keys) as (ready & Er & HK); try done; try congruence.
  destruct (drain_spec p d keys) with (S (length cs)) (@nil nat) (map length p) ready as (order & Eo & Hem & Hperm);
    try done; try congruence; [simpl; lia|].
  exists order. unfold component_order. rewrite E, Ek, Er. split_and!; [done|by rewrite <- Hlk|].
  intros pre i post c -> Hc. destruct (Hem pre i post eq_refl) as [Hu Hg].
  split; [intros j Hj; by apply Hu, Hneeds|]. intros j c' Hj Hc' Hd.
  destruct (head_member i c Hc) as (x & Hx & Hxc), (head_member j c' Hc') as (y & Hy & Hyc).
  exists x, y. split_and!; [done..|].
  assert (NoDup (pre ++ i :: post)) as Hndo by (rewrite Hperm; apply NoDup_seq).
  assert (j <> i /\ j ∉ pre) as [Hji Hjp].
  { apply NoDup_app in Hndo as (_ & Hdis & Hndo). apply NoDup_cons in Hndo as [Hi _]. set_solver. }
  specialize (Hg x j y). rewrite (Hkeys i c Hc), (Hkeys j c' Hc') in Hg.
  assert (unlocked p pre j) as Huj by (intros k Hk%Hneeds; auto).
  specialize (Hg Hx Hy Hjp Hji Huj). unfold olt in *. change (then_cmp (cmp x y) (cmp i j) = Lt) in Hg.
  destruct (cmp x y) eqn:Exy; try done. apply cmp_eq_iff in Exy as ->.
  by destruct Hji; eapply component_unique.
Qed.
End components.

Lemma mapM_lookup_perm {B} (l : list B) order out :
  order ≡ₚ seq 0 (length l) -> mapM (fun i => l !! i) order = Some out -> out ≡ₚ l.
Proof.
  intros Hp Hm%mapM_Some_1. destruct l as [|b l'] eqn:El.
  - apply Permutation_nil_r in Hp as ->. inversion Hm. done.
  - rewrite <- El in *. clear El l'.
    assert (out = (fun i => default b (l !! i)) <$> order) as ->.
    { clear Hp. induction Hm as [|i y order out Hi _ IH]; [done|]. cbn. rewrite Hi. by f_equal. }
    rewrite Hp. apply reflexive_eq. clear. apply list_eq. intros i. rewrite list_lookup_fmap.
    destruct (decide (i < length l)%nat) as [Hi|Hi].
    + rewrite lookup_seq_lt by done. simpl. by destruct (lookup_lt_is_Some_2 l i Hi) as [x ->].
    + rewrite lookup_seq_ge, (proj2 (lookup_ge_None l i)) by lia. done.
Qed.

Lemma mapM_lookup_total {B} (l : list B) order :
  order ≡ₚ seq 0 (length l) -> is_Some (mapM (fun i => l !! i) order).
Proof.
  intros Hp. apply mapM_is_Some_2, Forall_forall. intros i Hi. apply lookup_lt_is_Some.
  rewrite Hp, elem_of_seq in Hi. lia.
Qed.

(** [d] could be emitted once the members of [pre] were. *)
Definition emittable (nodes : BTreeSet A) (pre : list (list A)) (d : list A) : Prop :=
  forall x w, x ∈ d -> w ∈ dependencies x -> w ∈ nodes -> w ∈ concat pre \/ w ∈ d.

(** Each component is emittable at its position and precedes, by its first
    member, every later component that was emittable there. *)
Definition greedy (nodes : BTreeSet A) (out : list (list A)) : Prop :=
  forall pre c post, out = pre ++ c :: post ->
  emittable nodes pre c /\
  forall d, d ∈ post -> emittable nodes pre d ->
  exists x y, head c = Some x /\ head d = Some y /\ olt x y.

Lemma emittable_iff nodes cs idxs pre j d :
  concat cs ≡ₚ nodes -> ssorted nodes -> mapM (fun i => cs !! i) idxs = Some pre -> cs !! j = Some d ->
  emittable nodes pre d <-> forall k, depends cs j k -> k ∈ idxs.
Proof.
  intros Hp Hn Hm%mapM_Some_1 Hd.
  assert (NoDup (concat cs)) as Hnd by (rewrite Hp; by apply ssorted_NoDup).
  assert (forall w, w ∈ concat pre <-> exists k e, k ∈ idxs /\ cs !! k = Some e /\ w ∈ e) as Hpre.
  { intros w. rewrite elem_concat. split.
    - intros (e & Hw & He). apply list_elem_of_lookup in He as [n He].
      destruct (Forall2_lookup_r _ _ _ n e Hm He) as (k & Hk & Hke). exists k, e.
      split_and!; [by eapply list_elem_of_lookup_2|done..].
    - intros (k & e & Hk & Hke & Hw). exists e. split; [done|]. apply list_elem_of_lookup in Hk as [n Hk].
      destruct (Forall2_lookup_l _ _ _ n k Hm Hk) as (e' & He' & Hke'). simplify_eq.
      by eapply list_elem_of_lookup_2. }
  split.
  - intros He k (Hne & d' & e & x & w & Hd' & Hke & Hx & Hw & Hwe). simplify_eq.
    destruct (He x w Hx Hw) as [Hc|Hc].
    + rewrite <- Hp, elem_concat. exists e. split; [done|by eapply list_elem_of_lookup_2].
    + apply Hpre in Hc as (k' & e' & Hk' & Hke' & Hw'). by rewrite (component_unique cs k k' e e' w).
    + by destruct Hne; eapply component_unique.
  - intros Hk x w Hx Hw Hwn. rewrite <- Hp, elem_concat in Hwn. destruct Hwn as (e & Hwe & He).
    apply list_elem_of_lookup in He as [k He]. destruct (decide (j = k)) as [<-|Hne].
    + simplify_eq. by right.
    + left. apply Hpre. exists k, e. split_and!; try done. apply Hk. split; [done|]. eauto 10.
Qed.

Lemma ordered_components_spec nodes :
  ssorted nodes ->
  exists out, ordered_components nodes = Some out /\ concat out ≡ₚ nodes /\
    (forall c, c ∈ out -> c <> [] /\ ssorted c) /\ connected dependencies nodes out /\ greedy nodes out.
Proof.
  intros Hn. unfold ordered_components. destruct (decide (nodes = [])) as [->|Hne].
  { exists []. split_and!; try done; [set_solver|..]; [intros ? ? ? ?|intros [|? ?]]; set_solver. }
  rewrite bool_decide_eq_false_2 by done.
  destruct (strongly_connected_components_spec dependencies nodes Hn) as (cs & -> & Hp & Hs & Hc & Hk).
  assert (NoDup (concat cs)) as Hnd by (rewrite Hp; by apply ssorted_NoDup).
  destruct (component_order_spec nodes cs) as (order & -> & Hord & Hg); try done.
  { intros x. by rewrite Hp. }
  { intros c Hcs. by apply Hs. }
  destruct (mapM_lookup_total cs order Hord) as [out Hout]. rewrite Hout.
  pose proof (mapM_lookup_perm cs order out Hord Hout) as Hperm.
  exists out. split_and!; [done|by rewrite Hperm|intros c; rewrite Hperm; apply Hs| |].
  { intros c x y Hcs. apply Hk. by rewrite <- Hperm. }
  intros pre c post ->. apply mapM_Some_1 in Hout.
  apply Forall2_app_inv_r in Hout as (pre' & rest & Hpre & Hrest & ->).
  apply Forall2_cons_inv_r in Hrest as (i & post' & Hi & Hpost & ->).
  assert (mapM (fun i => cs !! i) pre' = Some pre) as Hm by (by apply mapM_Some_2).
  destruct (Hg pre' i post' c eq_refl Hi) as [Hu Hmin]. split.
  - by eapply emittable_iff.
  - intros d Hd He. apply list_elem_of_lookup in Hd as [n Hd].
    destruct (Forall2_lookup_r _ _ _ n d Hpost Hd) as (j & Hj & Hjd).
    apply (Hmin j d); [by eapply list_elem_of_lookup_2|done|]. by eapply emittable_iff.
Qed.

(** The greedy order of given components is unique. *)
Lemma greedy_order_unique nodes out out' :
  out ≡ₚ out' -> greedy nodes out -> greedy nodes out' -> out = out'.
Proof.
  enough (forall pre s s', s ≡ₚ s' -> greedy nodes (pre ++ s) -> greedy nodes (pre ++ s') -> s = s') as H
    by apply (H []).
  intros pre s. revert pre. induction s as [|c s IH]; intros pre s' Hp Hg Hg'.
  - by apply Permutation_nil_l.
  - destruct s' as [|c' s']; [by apply Permutation_nil_r in Hp|].
    destruct (Hg pre c s eq_refl) as [Hc Hmin], (Hg' pre c' s' eq_refl) as [Hc' Hmin'].
    assert (c = c') as <-.
    { assert (c' = c \/ c' ∈ s) as [?|Hin] by (rewrite <- elem_of_cons, Hp; set_solver); [done|].
      assert (c = c' \/ c ∈ s') as [?|Hin'] by (rewrite <- elem_of_cons, <- Hp; set_solver); [done|].
      destruct (Hmin c' Hin Hc') as (x & y & Hx & Hy & Hlt), (Hmin' c Hin' Hc) as (y' & x' & Hy' & Hx' & Hlt').
      simplify_eq. unfold olt in Hlt, Hlt'. apply cmp_gt_iff in Hlt'. congruence. }
    f_equal. apply (IH (pre ++ [c])); [by apply Permutation_cons_inv in Hp|by rewrite <- app_assoc..].
Qed.

(** C6. The planner's order is total and deterministic: every selected node
    appears once, the groups are the strongly connected components, a group is
    emitted only after the groups its members depend on, always the ready group
    with the smallest first member, and no other arrangement of these groups
    has that property. *)
Theorem ordered_components_correct nodes :
  ssorted nodes ->
  exists out, ordered_components nodes = Some out /\ concat out ≡ₚ nodes /\
    (forall c, c ∈ out -> c <> [] /\ ssorted c) /\ connected dependencies nodes out /\
    greedy nodes out /\
    forall out', out' ≡ₚ out -> greedy nodes out' -> out' = out.
Proof.
  intros Hn. destruct (ordered_components_spec nodes Hn) as (out & E & Hp & Hs & Hc & Hg).
  exists out. split_and!; try done. intros out' Hp' Hg'. by apply (greedy_order_unique nodes).
Qed.
End ordering.

Lemma ordered_components_correct_w :
  ordered_components example_dependencies [1; 2; 3; 4; 5; 7]%nat = Some [[4; 5]; [1; 2; 3]; [7]]%nat /\
  exists out, ordered_components example_dependencies [1; 2; 3; 4; 5; 7]%nat = Some out /\
              greedy example_dependencies [1; 2; 3; 4; 5; 7]%nat out.
Proof.
  split; [vm_compute; reflexivity|].
  destruct (ordered_components_correct example_dependencies [1; 2; 3; 4; 5; 7]%nat)
    as (out & E & _ & _ & _ & Hg & _); [repeat constructor|eauto].
Defined.

End Ordering.
