(* ===== verification/SchemaDelta.v ===== *)
(** * Schema deltas (contract/src/schema_delta.rs)

    Schema operations with their validating constructors and inverses, managed
    schema states, and [SchemaDelta::new], which accepts a transition only when
    its operations lead from the source selection to the target selection.
    Fingerprints are carried as data. *)

From S2P Require Import Prelude BTree Text Ident Value Fingerprint Schema Components.
From Stdlib Require Import Sorted.
Import Ident Value Fingerprint Schema Components.
#[local] Open Scope Z_scope.

Module SchemaDelta.

Definition SCHEMA_REDEFINE_CAPABILITY : CapabilityId := b#"schema.redefine".

Definition PatchFormatVersion : Set := Z.
Definition Patch_V1 : PatchFormatVersion := 1.

Definition PatchFormatVersion_from_wire (value : Z) : result Diagnostic PatchFormatVersion :=
  if value =? Patch_V1 then Ok Patch_V1 else Err (invalid "unsupported_patch_format_version").

(** ** Managed selections and states *)

Definition ManagedFactSelection : Set := BTreeSet SchemaFactId.

Fixpoint select (selection : BTreeSet SchemaFactId) (fact_ids : list SchemaFactId)
    : result Diagnostic ManagedFactSelection :=
  match fact_ids with
  | [] => Ok selection
  | i :: fact_ids =>
      if smem i selection then Err (invalid "duplicate_managed_fact_id")
      else let selection := sins i selection in
           if MAX_CANONICAL_COLLECTION_LEN <? Z.of_nat (length selection)
           then Err (stable ResourceLimit "too_many_managed_fact_ids")
           else select selection fact_ids
  end.

Definition ManagedFactSelection_new (fact_ids : list SchemaFactId)
    : result Diagnostic ManagedFactSelection := select [] fact_ids.

Record ManagedScopeProfileBinding : Set := scope_profile_binding {
  profile_fingerprint : Fingerprint.Fingerprint; profile_id : str }.
Record ManagedScopeBinding : Set := scope_binding {
  scope_id : str; scope_profile : ManagedScopeProfileBinding }.

Record ManagedSchemaState : Set := managed_state {
  declared_identity : Fingerprint.Fingerprint;
  state_format : FormatVersion;
  managed_declared_identity : Fingerprint.Fingerprint;
  managed_semantic_schema : Fingerprint.Fingerprint;
  state_capabilities : CapabilitySet;
  scope : ManagedScopeBinding;
  selection : ManagedFactSelection }.

#[global] Instance ManagedScopeBinding_eq_dec : EqDecision ManagedScopeBinding.
Proof. assert (EqDecision ManagedScopeProfileBinding) by solve_decision. solve_decision. Defined.
#[global] Instance ManagedSchemaState_eq_dec : EqDecision ManagedSchemaState.
Proof. solve_decision. Defined.

Definition ManagedSchemaState_new (format : FormatVersion) (capabilities : CapabilitySet)
    (scope : ManagedScopeBinding) (selection : ManagedFactSelection)
    (declared_identity managed_declared_identity managed_semantic_schema : Fingerprint.Fingerprint)
    : result Diagnostic ManagedSchemaState :=
  let? _ := ensure_format_version format V1 in
  Ok (managed_state declared_identity format managed_declared_identity managed_semantic_schema
        capabilities scope selection).

(** ** Operations *)

Inductive SchemaOperationKind : Set := KDefine | KRedefine | KUndefine.

Inductive SchemaOperation : Set :=
| Define (facts : list SchemaFact)
| Redefine (expected replacement : SchemaFact)
| Undefine (fact : SchemaFact).

(** [facts.windows(2).any(..)]: two neighbors with one identity. *)
Fixpoint adjacent_ids (facts : list SchemaFact) : bool :=
  match facts with
  | f :: ((g :: _) as rest) => bool_decide (fact_id f = fact_id g) || adjacent_ids rest
  | _ => false
  end.

(** [facts.sort_by_key(SchemaFact::id)], a stable sort. *)
Definition sort_by_id (facts : list SchemaFact) : list SchemaFact :=
  @vec_sort SchemaFact (ord_by fact_id) facts.

Definition define (facts : list SchemaFact) : result Diagnostic SchemaOperation :=
  if bool_decide (facts = []) then Err (invalid "empty_schema_define")
  else if MAX_CANONICAL_COLLECTION_LEN <? Z.of_nat (length facts)
  then Err (stable ResourceLimit "too_many_schema_define_facts")
  else let facts := sort_by_id facts in
       if adjacent_ids facts then Err (invalid "duplicate_schema_operation_fact_id")
       else Ok (Define facts).

Definition redefine (expected replacement : SchemaFact) : result Diagnostic SchemaOperation :=
  if negb (bool_decide (fact_id expected = fact_id replacement))
  then Err (invalid "schema_redefine_identity_mismatch")
  else if bool_decide (expected = replacement) then Err (invalid "schema_redefine_noop")
  else Ok (Redefine expected replacement).

Definition undefine (fact : SchemaFact) : SchemaOperation := Undefine fact.

Definition operation_kind (op : SchemaOperation) : SchemaOperationKind :=
  match op with Define _ => KDefine | Redefine _ _ => KRedefine | Undefine _ => KUndefine end.

Definition affected_ids (op : SchemaOperation) : list SchemaFactId :=
  match op with
  | Define facts => map fact_id facts
  | Redefine expected _ => [fact_id expected]
  | Undefine fact => [fact_id fact]
  end.

(** [None] where an [expect] fails. *)
Definition inverse (op : SchemaOperation) : option (list SchemaOperation) :=
  match op with
  | Define facts => Some (map undefine (rev facts))
  | Redefine expected replacement =>
      match redefine replacement expected with Ok op => Some [op] | Err _ => None end
  | Undefine fact => match define [fact] with Ok op => Some [op] | Err _ => None end
  end.

(** ** Deltas *)

Record SchemaDelta : Set := schema_delta {
  delta_format : PatchFormatVersion;
  operations : list SchemaOperation;
  delta_capabilities : CapabilitySet;
  delta_source : ManagedSchemaState;
  delta_target : ManagedSchemaState }.

(** The set [affected] grown by the identities of one operation. *)
Fixpoint affect (affected : BTreeSet SchemaFactId) (ids : list SchemaFactId)
    : result Diagnostic (BTreeSet SchemaFactId) :=
  match ids with
  | [] => Ok affected
  | i :: ids =>
      if smem i affected then Err (invalid "duplicate_schema_delta_fact_id")
      else affect (sins i affected) ids
  end.

Fixpoint define_all (transitioned : BTreeSet SchemaFactId) (facts : list SchemaFact)
    : result Diagnostic (BTreeSet SchemaFactId) :=
  match facts with
  | [] => Ok transitioned
  | f :: facts =>
      if smem (fact_id f) transitioned then Err (invalid "schema_delta_define_existing_fact")
      else define_all (sins (fact_id f) transitioned) facts
  end.

Definition transition_one (transitioned : BTreeSet SchemaFactId) (op : SchemaOperation)
    : result Diagnostic (BTreeSet SchemaFactId) :=
  match op with
  | Define facts => define_all transitioned facts
  | Redefine expected _ =>
      if smem (fact_id expected) transitioned then Ok transitioned
      else Err (invalid "schema_delta_redefine_missing_fact")
  | Undefine fact =>
      if smem (fact_id fact) transitioned then Ok (sdel (fact_id fact) transitioned)
      else Err (invalid "schema_delta_undefine_missing_fact")
  end.

Fixpoint transition (affected transitioned : BTreeSet SchemaFactId) (ops : list SchemaOperation)
    : result Diagnostic (BTreeSet SchemaFactId) :=
  match ops with
  | [] => Ok transitioned
  | op :: ops =>
      let? affected := affect affected (affected_ids op) in
      let? transitioned := transition_one transitioned op in
      transition affected transitioned ops
  end.

Definition state_profile (s : ManagedSchemaState) : option SemanticProfileId :=
  semantic_profile (managed_semantic_schema s).

(** What an operation-free delta may not be. *)
Definition bad_capability_transition (source target : ManagedSchemaState) : bool :=
  negb (bool_decide (selection source = selection target))
  || bool_decide (state_capabilities source = state_capabilities target)
  || bool_decide (managed_declared_identity source = managed_declared_identity target)
  || bool_decide (managed_semantic_schema source = managed_semantic_schema target).

Definition is_redefine (op : SchemaOperation) : bool :=
  match operation_kind op with KRedefine => true | _ => false end.

Definition derived_capabilities (source target : ManagedSchemaState) (ops : list SchemaOperation)
    : CapabilitySet :=
  let both := sof (state_capabilities source ++ state_capabilities target) in
  if existsb is_redefine ops then sins SCHEMA_REDEFINE_CAPABILITY both else both.

Definition SchemaDelta_new (format : PatchFormatVersion) (source target : ManagedSchemaState)
    (operations : list SchemaOperation) : result Diagnostic SchemaDelta :=
  let? _ := PatchFormatVersion_from_wire format in
  if negb (state_format source =? state_format target)
  then Err (invalid "schema_delta_format_transition")
  else if negb (bool_decide (scope source = scope target))
  then Err (invalid "schema_delta_scope_transition")
  else if negb (bool_decide (state_profile source = state_profile target))
  then Err (invalid "schema_delta_semantic_profile_transition")
  else if bool_decide (source = target) then Err (invalid "schema_delta_noop")
  else if bool_decide (operations = []) && bad_capability_transition source target
  then Err (invalid "invalid_schema_delta_capability_transition")
  else if MAX_CANONICAL_COLLECTION_LEN <? Z.of_nat (length operations)
  then Err (stable ResourceLimit "too_many_schema_operations")
  else
    let? transitioned := transition [] (selection source) operations in
    if negb (bool_decide (transitioned = selection target))
    then Err (invalid "schema_delta_selection_mismatch")
    else Ok (schema_delta format operations (derived_capabilities source target operations) source target).

(** ** Sorted fact groups *)

Section groups.
Context {A : Type} {o : Ord A} {ol : OrdLaws A}.

Definition ole (x y : A) : Prop := cmp x y <> Gt.

Lemma ole_cases x y : ole x y <-> olt x y \/ x = y.
Proof.
  unfold ole, olt. destruct (cmp x y) eqn:E; try (by intuition congruence).
  - apply cmp_eq_iff in E. naive_solver.
  - split; [done|]. intros [?|Heq]; [done|]. apply cmp_eq_iff in Heq. congruence.
Qed.

Lemma ole_trans x y z : ole x y -> ole y z -> ole x z.
Proof.
  rewrite !ole_cases. intros [Hxy|<-] [Hyz|<-]; auto. left. by eapply cmp_lt_trans.
Qed.

Lemma sort_insert_ole x l : StronglySorted ole l -> StronglySorted ole (sort_insert x l).
Proof.
  induction 1 as [|y l Hl IH Hy]; simpl; [repeat constructor|].
  destruct (cmp x y) eqn:E; [| |constructor; [done|]].
  - constructor; [by constructor|]. constructor; [unfold ole; congruence|].
    eapply Forall_impl; [exact Hy|]. intros z. apply ole_trans. unfold ole. congruence.
  - constructor; [by constructor|]. constructor; [unfold ole; congruence|].
    eapply Forall_impl; [exact Hy|]. intros z. apply ole_trans. unfold ole. congruence.
  - rewrite sort_insert_perm. constructor; [|done].
    apply ole_cases. left. by apply cmp_gt_iff.
Qed.

Lemma vec_sort_ole l : StronglySorted ole (vec_sort l).
Proof. induction l; simpl; [constructor|by apply sort_insert_ole]. Qed.

Fixpoint adjacent (l : list A) : bool :=
  match l with
  | x :: ((y :: _) as rest) => oeqb x y || adjacent rest
  | _ => false
  end.

Lemma adjacent_ssorted l : StronglySorted ole l -> adjacent l = false <-> ssorted l.
Proof.
  induction 1 as [|x l Hl IH Hx]; [split; [constructor|done]|]. destruct l as [|y l].
  - split; [repeat constructor|done].
  - cbn [adjacent]. rewrite orb_false_iff, IH, oeqb_false. split.
    + intros [Hne Hs]. constructor; [done|].
      assert (olt x y) as Hlt.
      { apply Forall_cons in Hx as [Hxy _]. apply ole_cases in Hxy as [?|?]; done. }
      inversion Hs as [|? ? _ Hall]; subst. constructor; [done|].
      eapply Forall_impl; [exact Hall|]. intros z. by apply cmp_lt_trans.
    + intros Hs. inversion Hs as [|? ? Hs' Hall]; subst. split; [|done].
      apply Forall_cons in Hall as [Hlt _]. by apply cmp_lt_ne.
Qed.

Lemma adjacent_sort l : adjacent (vec_sort l) = false <-> NoDup l.
Proof.
  rewrite adjacent_ssorted by apply vec_sort_ole. split.
  - intros H%ssorted_NoDup. by rewrite vec_sort_perm in H.
  - apply vec_sort_sorted.
Qed.
End groups.

Lemma sort_by_id_ids fs : map fact_id (sort_by_id fs) = vec_sort (map fact_id fs).
Proof. apply vec_sort_by_keys. Qed.

Lemma adjacent_ids_eq fs : adjacent_ids fs = adjacent (map fact_id fs).
Proof.
  induction fs as [|f [|g fs] IH]; try done. cbn [map adjacent adjacent_ids].
  cbn [map adjacent adjacent_ids] in IH. rewrite IH. f_equal.
  destruct (oeqb_spec (fact_id f) (fact_id g)); [by apply bool_decide_eq_true|by apply bool_decide_eq_false].
Qed.

(** The operations the constructors build. *)
Definition valid_operation (op : SchemaOperation) : Prop :=
  match op with
  | Define fs => fs <> [] /\ Z.of_nat (length fs) <= MAX_CANONICAL_COLLECTION_LEN /\ ssorted (map fact_id fs)
  | Redefine e r => fact_id e = fact_id r /\ e <> r
  | Undefine _ => True
  end.

Lemma define_ok fs op :
  define fs = Ok op <->
  fs <> [] /\ Z.of_nat (length fs) <= MAX_CANONICAL_COLLECTION_LEN /\ NoDup (map fact_id fs) /\
  op = Define (sort_by_id fs).
Proof.
  unfold define. case_bool_decide as Hn; [naive_solver|].
  destruct (Z.ltb_spec MAX_CANONICAL_COLLECTION_LEN (Z.of_nat (length fs))) as [Hl|Hl]; [naive_solver lia|].
  rewrite adjacent_ids_eq, sort_by_id_ids. rewrite <- (adjacent_sort (map fact_id fs)).
  destruct (adjacent _); naive_solver.
Qed.

Lemma define_valid fs op : define fs = Ok op -> valid_operation op.
Proof.
  rewrite define_ok. intros (Hn & Hl & Hd & ->). simpl. unfold sort_by_id. split_and!.
  - intros E. apply Hn, Permutation_nil_r. by rewrite <- E, vec_sort_perm.
  - by rewrite vec_sort_perm.
  - fold (sort_by_id fs). rewrite sort_by_id_ids. by apply vec_sort_sorted.
Qed.

Lemma redefine_ok e r op :
  redefine e r = Ok op <-> fact_id e = fact_id r /\ e <> r /\ op = Redefine e r.
Proof. unfold redefine. repeat case_bool_decide; naive_solver. Qed.

Lemma define_one f : define [f] = Ok (Define [f]).
Proof. apply define_ok. split_and!; try done. apply NoDup_singleton. Qed.

(** Valid operations have an inverse, and [expect] never fails on them. *)
Lemma inverse_valid op :
  valid_operation op -> exists ops, inverse op = Some ops /\ Forall valid_operation ops /\
  ops <> [] /\ (ops ≫= affected_ids) ≡ₚ affected_ids op.
Proof.
  destruct op as [fs|e r|f]; cbn [inverse valid_operation affected_ids].
  - intros (Hn & _). exists (map undefine (rev fs)). split_and!; [done| | |].
    + apply Forall_forall. intros x Hx. apply (list_elem_of_fmap undefine) in Hx as (? & -> & _). done.
    + intros E%map_eq_nil. apply Hn. by rewrite <- (rev_involutive fs), E.
    + assert (forall l, map undefine l ≫= affected_ids = map fact_id l) as ->.
      { induction l as [|x l IH]; [done|]. cbn. by f_equal. }
      by rewrite <- Permutation_rev.
  - intros [Hi Hne]. exists [Redefine r e]. rewrite (proj2 (redefine_ok r e _)) by done.
    split_and!; try done; [|by simpl; rewrite Hi].
    repeat constructor; [done|]. naive_solver.
  - intros _. exists [Define [f]]. rewrite define_one. split_and!; try done.
    repeat constructor; try done.
Qed.

(** ** Selections *)

Lemma select_ok sel ids sel' :
  ssorted sel -> Z.of_nat (length sel) <= MAX_CANONICAL_COLLECTION_LEN ->
  select sel ids = Ok sel' <->
  NoDup ids /\ (forall i, i ∈ ids -> i ∉ sel) /\
  Z.of_nat (length sel + length ids) <= MAX_CANONICAL_COLLECTION_LEN /\ sel' = sunion sel ids.
Proof.
  revert sel. induction ids as [|i ids IH]; intros sel Hs Hl; simpl.
  - rewrite Nat.add_0_r. split; [intros [= <-]|intros (_ & _ & _ & ->); done].
    split_and!; [constructor|set_solver|done..].
  - destruct (smem i sel) eqn:Ei.
    { apply smem_true in Ei. split; [done|]. intros (_ & Hd & _). exfalso. apply (Hd i); set_solver. }
    apply smem_false in Ei. rewrite sins_length by done.
    destruct (Z.ltb_spec MAX_CANONICAL_COLLECTION_LEN (Z.of_nat (S (length sel)))) as [Hlt|Hge].
    { split; [done|]. intros (_ & _ & Hc & _). lia. }
    rewrite IH; [|by apply sins_sorted|rewrite sins_length by done; lia].
    rewrite sins_length, NoDup_cons by done. setoid_rewrite elem_sins.
    replace (S (length sel) + length ids)%nat with (length sel + S (length ids))%nat by lia.
    set_solver.
Qed.

(** A managed selection is built exactly from lists without repetition that
    respect the collection limit, and then holds exactly the listed identities
    in order. *)
Theorem selection_new_iff ids sel :
  ManagedFactSelection_new ids = Ok sel <->
  NoDup ids /\ Z.of_nat (length ids) <= MAX_CANONICAL_COLLECTION_LEN /\
  ssorted sel /\ (forall i, i ∈ sel <-> i ∈ ids).
Proof.
  unfold ManagedFactSelection_new. rewrite select_ok; [|constructor|done]. simpl. split.
  - intros (Hn & _ & Hl & ->). split_and!; [done..|apply sunion_sorted; constructor|].
    intros i. rewrite elem_sunion. set_solver.
  - intros (Hn & Hl & Hs & Hi). split_and!; [done|set_solver|done|].
    apply ssorted_ext; [done|apply sunion_sorted; constructor|]. intros i. rewrite elem_sunion, Hi. set_solver.
Qed.

(** ** What a sequence of operations does to a selection *)

Definition defined_ids (ops : list SchemaOperation) : list SchemaFactId :=
  ops ≫= fun op => match op with Define fs => map fact_id fs | _ => [] end.
Definition removed_ids (ops : list SchemaOperation) : list SchemaFactId :=
  ops ≫= fun op => match op with Undefine f => [fact_id f] | _ => [] end.
Definition redefined_ids (ops : list SchemaOperation) : list SchemaFactId :=
  ops ≫= fun op => match op with Redefine e _ => [fact_id e] | _ => [] end.

Lemma affect_ok aff ids aff' :
  affect aff ids = Ok aff' <-> NoDup ids /\ (forall i, i ∈ ids -> i ∉ aff) /\ aff' = sunion aff ids.
Proof.
  revert aff. induction ids as [|i ids IH]; intros aff; simpl.
  - split; [intros [= <-]|by intros (_ & _ & ->)]. split_and!; [constructor|set_solver|done].
  - destruct (smem i aff) eqn:Ei.
    { apply smem_true in Ei. split; [done|]. intros (_ & Hd & _). exfalso. apply (Hd i); set_solver. }
    apply smem_false in Ei. rewrite IH, NoDup_cons. setoid_rewrite elem_sins.
    set_solver.
Qed.

Lemma define_all_affect tr fs :
  define_all tr fs =
  match affect tr (map fact_id fs) with
  | Ok tr => Ok tr | Err _ => Err (invalid "schema_delta_define_existing_fact") end.
Proof. revert tr. induction fs as [|f fs IH]; intros tr; simpl; [done|]. destruct (smem _ _); [done|apply IH]. Qed.

Definition transitions (tr : BTreeSet SchemaFactId) (ops : list SchemaOperation) : Prop :=
  NoDup (ops ≫= affected_ids) /\
  (forall i, i ∈ defined_ids ops -> i ∉ tr) /\
  (forall i, i ∈ redefined_ids ops -> i ∈ tr) /\
  (forall i, i ∈ removed_ids ops -> i ∈ tr).

Lemma affected_split ops i :
  i ∈ ops ≫= affected_ids <-> i ∈ defined_ids ops \/ i ∈ redefined_ids ops \/ i ∈ removed_ids ops.
Proof.
  unfold defined_ids, redefined_ids, removed_ids. induction ops as [|op ops IH]; [set_solver|].
  rewrite !bind_cons, !elem_of_app, IH. destruct op; cbn [affected_ids]; set_solver.
Qed.

Definition leads (tr : BTreeSet SchemaFactId) (ops : list SchemaOperation) (tr' : BTreeSet SchemaFactId) : Prop :=
  transitions tr ops /\ ssorted tr' /\
  forall i, i ∈ tr' <-> (i ∈ tr \/ i ∈ defined_ids ops) /\ i ∉ removed_ids ops.

Lemma transition_one_ok tr op tr' :
  ssorted tr -> NoDup (affected_ids op) ->
  transition_one tr op = Ok tr' <-> leads tr [op] tr'.
Proof.
  intros Hs Hn. unfold leads, transitions, defined_ids, redefined_ids, removed_ids.
  destruct op as [fs|e r|f]; cbn [mbind list_bind app transition_one affected_ids] in *; rewrite ?app_nil_r.
  - rewrite define_all_affect. destruct (affect tr (map fact_id fs)) as [tr1|] eqn:E.
    + apply affect_ok in E as (_ & Hd & ->). split.
      * intros [= <-]. split_and!; [done..|set_solver|set_solver|by apply sunion_sorted|].
        intros i. rewrite elem_sunion. set_solver.
      * intros (_ & Hs' & Hi). f_equal. apply ssorted_ext; [by apply sunion_sorted|done|].
        intros i. rewrite elem_sunion, Hi. set_solver.
    + split; [done|]. intros ((_ & Hd & _) & _). exfalso.
      assert (affect tr (map fact_id fs) = Ok (sunion tr (map fact_id fs))) as E' by (by apply affect_ok).
      congruence.
  - destruct (smem (fact_id e) tr) eqn:Ei.
    + apply smem_true in Ei. split.
      * intros [= <-]. split_and!; try done; set_solver.
      * intros (_ & Hs' & Hi). f_equal. apply ssorted_ext; [done..|]. intros i. rewrite Hi. set_solver.
    + apply smem_false in Ei. split; [done|]. intros ((_ & _ & Hr & _) & _). exfalso. apply Ei, Hr. set_solver.
  - destruct (smem (fact_id f) tr) eqn:Ei.
    + apply smem_true in Ei. split.
      * intros [= <-]. split_and!; try done; try set_solver; [by apply sdel_sorted|].
        intros i. rewrite elem_sdel. set_solver.
      * intros (_ & Hs' & Hi). f_equal. apply ssorted_ext; [by apply sdel_sorted|done|].
        intros i. rewrite elem_sdel, Hi. set_solver.
    + apply smem_false in Ei. split; [done|]. intros ((_ & _ & _ & Hr) & _). exfalso. apply Ei, Hr. set_solver.
Qed.

Lemma leads_cons tr op ops tr' :
  ssorted tr -> leads tr (op :: ops) tr' <->
  (forall i, i ∈ affected_ids op -> i ∉ ops ≫= affected_ids) /\
  exists tr1, leads tr [op] tr1 /\ leads tr1 ops tr'.
Proof.
  intros Hs. pose proof (affected_split [op]) as H1. pose proof (affected_split ops) as H2.
  unfold leads, transitions in *. rewrite bind_cons, NoDup_app.
  assert (forall i, i ∈ defined_ids (op :: ops) <-> i ∈ defined_ids [op] \/ i ∈ defined_ids ops) as Hd.
  { intros i. unfold defined_ids. rewrite !bind_cons, elem_of_app. set_solver. }
  assert (forall i, i ∈ redefined_ids (op :: ops) <-> i ∈ redefined_ids [op] \/ i ∈ redefined_ids ops) as Hr.
  { intros i. unfold redefined_ids. rewrite !bind_cons, elem_of_app. set_solver. }
  assert (forall i, i ∈ removed_ids (op :: ops) <-> i ∈ removed_ids [op] \/ i ∈ removed_ids ops) as Hm.
  { intros i. unfold removed_ids. rewrite !bind_cons, elem_of_app. set_solver. }
  cbn [mbind list_bind app] in H1 |- *. rewrite app_nil_r in *.
  setoid_rewrite Hd. setoid_rewrite Hr. setoid_rewrite Hm. split.
  - intros (((Hn1 & Hdis & Hn2) & HD & HR & HM) & Hs' & Hi). split; [done|].
    exists (sdiff (sunion tr (defined_ids [op])) (removed_ids [op])).
    assert (forall i, i ∈ sdiff (sunion tr (defined_ids [op])) (removed_ids [op]) <->
              (i ∈ tr \/ i ∈ defined_ids [op]) /\ i ∉ removed_ids [op]) as H3.
    { intros i. by rewrite elem_sdiff, elem_sunion. }
    assert (forall i, i ∈ defined_ids ops \/ i ∈ redefined_ids ops \/ i ∈ removed_ids ops ->
      i ∉ defined_ids [op] /\ i ∉ redefined_ids [op] /\ i ∉ removed_ids [op]) as Hapart.
    { intros i Hx. rewrite <- H2 in Hx. pose proof (Hdis i) as Hdi. rewrite H1 in Hdi. tauto. }
    split_and!; try done; try (by apply sdiff_sorted, sunion_sorted);
      intros i; try (intros Hx); try rewrite H3;
      pose proof (HD i); pose proof (HR i); pose proof (HM i); pose proof (Hapart i);
      try rewrite Hi; tauto.
  - intros (Hdis & tr1 & ((Hn1 & HD1 & HR1 & HM1) & Hs1 & H3) & (Hn2 & HD2 & HR2 & HM2) & Hs' & Hi).
    assert (forall i, i ∈ defined_ids ops \/ i ∈ redefined_ids ops \/ i ∈ removed_ids ops ->
      i ∉ defined_ids [op] /\ i ∉ redefined_ids [op] /\ i ∉ removed_ids [op]) as Hapart.
    { intros i Hx. rewrite <- H2 in Hx. pose proof (Hdis i) as Hdi. rewrite H1 in Hdi. tauto. }
    split_and!; try done; intros i; try rewrite Hi; pose proof (Hapart i);
      pose proof (HD1 i); pose proof (HR1 i); pose proof (HM1 i);
      pose proof (HD2 i) as Hx1; pose proof (HR2 i) as Hx2; pose proof (HM2 i) as Hx3;
      rewrite H3 in *; tauto.
Qed.

Lemma transition_ok aff tr ops tr' :
  ssorted tr ->
  transition aff tr ops = Ok tr' <->
  leads tr ops tr' /\ (forall i, i ∈ ops ≫= affected_ids -> i ∉ aff).
Proof.
  revert aff tr. induction ops as [|op ops IH]; intros aff tr Hs.
  - cbn [transition]. unfold leads, transitions, defined_ids, removed_ids, redefined_ids. simpl. split.
    + intros [= <-]. split_and!; try done; try set_solver. constructor.
    + intros [(_ & Hs' & Hi) _]. f_equal. apply ssorted_ext; [done..|]. intros i. rewrite Hi. set_solver.
  - cbn [transition]. rewrite leads_cons by done. rewrite bind_cons. setoid_rewrite elem_of_app.
    destruct (affect aff (affected_ids op)) as [aff1|e] eqn:Ea; cycle 1.
    { split; [done|]. intros [(_ & tr1 & ((Hn & _) & _) & _) Ha]. exfalso.
      rewrite bind_cons in Hn. simpl in Hn. rewrite app_nil_r in Hn.
      assert (affect aff (affected_ids op) = Ok (sunion aff (affected_ids op))) as E'.
      { apply affect_ok. split_and!; [done| |done]. auto. }
      congruence. }
    apply affect_ok in Ea as (Hn & Ha & ->).
    destruct (transition_one tr op) as [tr1|e] eqn:Et; cycle 1.
    { split; [done|]. intros [(_ & tr1 & H & _) _]. apply transition_one_ok in H; [congruence|done..]. }
    assert (leads tr [op] tr1) as Hl by (by apply transition_one_ok).
    rewrite IH by apply Hl. setoid_rewrite elem_sunion. split.
    + intros [Hr Hd]. split; [split; [|by exists tr1]|]; intros i Hi; [|destruct Hi as [Hi|Hi]; [auto|]].
      * intros Hx. by apply (Hd i Hx); right.
      * intros Hx. by apply (Hd i Hi); left.
    + intros [(Hdis & tr2 & Hl2 & Hr) Hd].
      assert (tr2 = tr1) as ->.
      { apply transition_one_ok in Hl2; [congruence|done..]. }
      split; [done|]. intros i Hi [Hx|Hx]; [apply (Hd i); auto|by apply (Hdis i Hx)].
Qed.

(** The acceptance conditions of [SchemaDelta::new]. *)
Record acceptable (source target : ManagedSchemaState) (ops : list SchemaOperation) : Prop := {
  acc_format : state_format source = state_format target;
  acc_scope : scope source = scope target;
  acc_profile : state_profile source = state_profile target;
  acc_differ : source <> target;
  acc_empty : ops = [] ->
    selection source = selection target /\ state_capabilities source <> state_capabilities target /\
    managed_declared_identity source <> managed_declared_identity target /\
    managed_semantic_schema source <> managed_semantic_schema target;
  acc_length : Z.of_nat (length ops) <= MAX_CANONICAL_COLLECTION_LEN;
  acc_leads : leads (selection source) ops (selection target) }.

Lemma bad_capability_false s t :
  bad_capability_transition s t = false <->
  selection s = selection t /\ state_capabilities s <> state_capabilities t /\
  managed_declared_identity s <> managed_declared_identity t /\
  managed_semantic_schema s <> managed_semantic_schema t.
Proof.
  unfold bad_capability_transition. rewrite !orb_false_iff, negb_false_iff, bool_decide_eq_true.
  rewrite !bool_decide_eq_false. tauto.
Qed.

Lemma schema_delta_new_ok fmt s t ops d :
  ssorted (selection s) ->
  SchemaDelta_new fmt s t ops = Ok d <->
  fmt = Patch_V1 /\ acceptable s t ops /\
  d = schema_delta Patch_V1 ops (derived_capabilities s t ops) s t.
Proof.
  intros Hs. unfold SchemaDelta_new, PatchFormatVersion_from_wire.
  destruct (Z.eqb_spec fmt Patch_V1) as [->|Hf]; [|naive_solver].
  destruct (Z.eqb_spec (state_format s) (state_format t)) as [H1|H1];
    [|split; [done|]; intros (_ & [] & _); done]. cbn [negb].
  case_bool_decide as H2; [|split; [done|]; intros (_ & [] & _); done]. cbn [negb].
  case_bool_decide as H3; [|split; [done|]; intros (_ & [] & _); done]. cbn [negb].
  case_bool_decide as H4; [split; [done|]; intros (_ & [] & _); done|].
  destruct (bool_decide (ops = []) && bad_capability_transition s t) eqn:H5.
  { split; [done|]. intros (_ & [_ _ _ _ He _ _] & _).
    apply andb_true_iff in H5 as [Ho%bool_decide_eq_true Hb].
    apply bad_capability_false in He; [congruence|done]. }
  destruct (Z.ltb_spec MAX_CANONICAL_COLLECTION_LEN (Z.of_nat (length ops))) as [H6|H6];
    [split; [done|]; intros (_ & [] & _); lia|].
  assert (forall tr, transition [] (selection s) ops = Ok tr <-> leads (selection s) ops tr) as Ht.
  { intros tr. rewrite transition_ok by done. set_solver. }
  destruct (transition [] (selection s) ops) as [tr|e] eqn:Et; cycle 1.
  { split; [done|]. intros (_ & [_ _ _ _ _ _ Hl] & _). apply Ht in Hl. done. }
  destruct (decide (tr = selection t)) as [H7|H7];
    [rewrite (bool_decide_eq_true_2 _ H7)|rewrite (bool_decide_eq_false_2 _ H7)]; cbn [negb].
  - split; [|intros (_ & _ & ->); reflexivity]. intros [= <-]. split_and!; [done| |done]. split; try done.
    + intros ->. rewrite bool_decide_eq_true_2 in H5 by done. by apply bad_capability_false.
    + rewrite <- H7. by apply Ht.
  - split; [done|]. intros (_ & [_ _ _ _ _ _ Hl] & _). apply Ht in Hl. congruence.
Qed.

(** [SchemaDelta::new] accepts exactly the transitions between two distinct
    states of one scope, format and profile whose operations touch every
    identity at most once, define only absent and redefine or undefine only
    present identities, and turn the source selection into exactly the target
    selection; its capabilities are those of both states, plus the redefine
    capability exactly when some operation redefines. *)
Theorem schema_delta_new_iff fmt s t ops d :
  ssorted (selection s) ->
  SchemaDelta_new fmt s t ops = Ok d <->
  fmt = Patch_V1 /\ acceptable s t ops /\
  d = schema_delta Patch_V1 ops (delta_capabilities d) s t /\ ssorted (delta_capabilities d) /\
  (forall c, c ∈ delta_capabilities d <->
     c ∈ state_capabilities s \/ c ∈ state_capabilities t \/
     (c = SCHEMA_REDEFINE_CAPABILITY /\ exists e r, Redefine e r ∈ ops)).
Proof.
  intros Hs. rewrite schema_delta_new_ok by done.
  assert (existsb is_redefine ops = true <-> exists e r, Redefine e r ∈ ops) as Hex.
  { rewrite existsb_exists. setoid_rewrite <- list_elem_of_In. split.
    - intros ([|e r|] & Hx & Hr); try done. eauto.
    - intros (e & r & Hx). by exists (Redefine e r). }
  assert (ssorted (derived_capabilities s t ops) /\ forall c, c ∈ derived_capabilities s t ops <->
     c ∈ state_capabilities s \/ c ∈ state_capabilities t \/
     (c = SCHEMA_REDEFINE_CAPABILITY /\ exists e r, Redefine e r ∈ ops)) as [Hsort Hc].
  { unfold derived_capabilities. destruct (existsb is_redefine ops).
    - split; [apply sins_sorted, sof_sorted|]. intros c. rewrite elem_sins, elem_sof, elem_of_app. intuition auto.
    - split; [apply sof_sorted|]. intros c. rewrite elem_sof, elem_of_app. split; [tauto|].
      intros [?|[?|[_ H]]]; [tauto..|]. by apply Hex in H. }
  split.
  - intros (-> & Ha & ->). simpl. done.
  - intros (-> & Ha & Hd & Hds & Hdc). split_and!; [done..|]. rewrite Hd. f_equal.
    apply ssorted_ext; [done..|]. intros c. by rewrite Hdc, Hc.
Qed.

Lemma affected_disjoint ops i :
  NoDup (ops ≫= affected_ids) ->
  (i ∈ defined_ids ops -> i ∉ redefined_ids ops /\ i ∉ removed_ids ops) /\
  (i ∈ redefined_ids ops -> i ∉ removed_ids ops).
Proof.
  induction ops as [|op ops IH]; [set_solver|]. rewrite bind_cons, NoDup_app. intros (_ & Hdis & Hn).
  specialize (IH Hn). pose proof (affected_split ops i) as Hs. specialize (Hdis i). rewrite Hs in Hdis.
  unfold defined_ids, redefined_ids, removed_ids in *. rewrite !bind_cons, !elem_of_app.
  destruct op; cbn [affected_ids] in *; rewrite ?elem_of_nil; tauto.
Qed.

(** ** Example: one entity type added to a managed scope *)

Definition example_fingerprint (d : string) : Fingerprint.Fingerprint :=
  fingerprint b#"typebridge.schema.managed-semantic" b#"typebridge.managed-semantic/v1"
    (Some b#"typedb-3.12.1/v1") (list_ascii_of_string d).

Definition example_state (d : string) (sel : ManagedFactSelection) : ManagedSchemaState :=
  managed_state (example_fingerprint d) V1 (example_fingerprint d) (example_fingerprint d) []
    (scope_binding b#"app" (scope_profile_binding (example_fingerprint "profile")
       b#"typebridge.managed-scope/exclusive/v1")) sel.

Definition example_source : ManagedSchemaState := example_state "one" [IdType example_person].
Definition example_target : ManagedSchemaState :=
  example_state "two" [IdType example_person; IdType (type_id Attribute b#"name")].
Definition example_operations : list SchemaOperation := [Define [FactType (type_id Attribute b#"name")]].

Lemma schema_delta_new_iff_w : acceptable example_source example_target example_operations.
Proof.
  destruct (schema_delta_new_iff Patch_V1 example_source example_target example_operations
    (schema_delta Patch_V1 example_operations [] example_source example_target)) as [H _];
    [repeat constructor|].
  destruct H as (_ & Ha & _); [vm_compute; reflexivity|exact Ha].
Defined.

End SchemaDelta.
