(* ===== verification/Dependencies.v ===== *)
(** * Fact dependencies and operation planning (schema/src/delta_dependencies.rs)

    The dependency graph of a fact inventory, the subtype-path search behind
    role specializations, and [plan_schema_operations]. A [Label] is only built
    by [Label::new], so rebuilding a [TypeId] from its text cannot fail and is
    modelled as the identifier itself. *)

From S2P Require Import Prelude BTree Text Ident Value Schema Components Ordering SchemaDelta.
Import Ident Value Schema Components Ordering SchemaDelta.

Module Dependencies.

Definition failure (code : string) : Diagnostic := stable Integrity code.

Record FactDependencyGraph : Set := dependency_graph {
  graph_dependencies : BTreeMap SchemaFactId (BTreeSet SchemaFactId);
  graph_dependents : BTreeMap SchemaFactId (BTreeSet SchemaFactId) }.

(** The identities that declare each label, and the edges out of each subtype. *)
Definition Labels : Set := BTreeMap Label (list SchemaFactId).
Definition Subs : Set := BTreeMap TypeId (list SubFactId).

Definition label_entry (fact : SchemaFact) : option (Label * SchemaFactId) :=
  match fact with
  | FactType i => Some (type_label i, IdType i)
  | FactStruct s => Some (struct_id s, IdStruct (struct_id s))
  | _ => None
  end.

Definition sub_entry (fact : SchemaFact) : option (TypeId * SubFactId) :=
  match fact with FactSub i => Some (subtype i, i) | _ => None end.

(** [map.entry(k).or_default().push(v)] over pairs, then every value sorted. *)
Definition group {K V} `{Ord K, Ord V} (entries : list (K * V)) : BTreeMap K (list V) :=
  map (fun e => (e.1, vec_sort e.2))
    (fold_left (fun m e => mentry e.1 [] (fun vs => vs ++ [e.2]) m) entries []).

Definition labels_of (inventory : Facts) : Labels := group (omap label_entry (mvals inventory)).
Definition subs_of (inventory : Facts) : Subs := group (omap sub_entry (mvals inventory)).

Definition attribute_type (attribute : AttributeId) : TypeId := type_id Attribute attribute.

Definition declaring_relation_type (role : RoleId) : TypeId :=
  type_id Relation (declaring_relation role).

Definition relates_id_of (role : RoleId) : result Diagnostic RelatesFactId :=
  RelatesFactId_new (declaring_relation_type role) role.

(** ** The subtype path search *)

Section path.
Context (sub_by_child : Subs) (target : TypeId).

Definition edges_of (current : TypeId) : list SubFactId :=
  match mget current sub_by_child with Some es => es | None => [] end.

(** The [for] loop over the edges of one type, given the recursive search. *)
Fixpoint first_path (search : TypeId -> BTreeSet TypeId -> option (option (list SubFactId) * BTreeSet TypeId))
    (es : list SubFactId) (visited : BTreeSet TypeId) : option (option (list SubFactId) * BTreeSet TypeId) :=
  match es with
  | [] => Some (None, visited)
  | e :: es =>
      match search (supertype e) visited with
      | Some (Some tail, visited) => Some (Some (e :: tail), visited)
      | Some (None, visited) => first_path search es visited
      | None => None
      end
  end.

(** [None] is exhausted fuel; the visited set is threaded through the calls. *)
Fixpoint search (fuel : nat) (current : TypeId) (visited : BTreeSet TypeId)
    : option (option (list SubFactId) * BTreeSet TypeId) :=
  match fuel with
  | O => None
  | S fuel =>
      if oeqb current target then Some (Some [], visited)
      else if smem current visited then Some (None, visited)
      else first_path (search fuel) (edges_of current) (sins current visited)
  end.

(** A call descends only along types with edges that were not visited. *)
Definition path_fuel : nat := S (length sub_by_child).

Definition find_sub_path (current : TypeId) : option (list SubFactId) :=
  match search path_fuel current [] with
  | Some (path, _) => path
  | None => None
  end.
End path.

(** ** The dependencies of one fact *)

(** The references of a function, each to exactly one declaration. *)
Fixpoint function_dependencies (labels : Labels) (references : list Label) (acc : BTreeSet SchemaFactId)
    : result Diagnostic (BTreeSet SchemaFactId) :=
  match references with
  | [] => Ok acc
  | label :: references =>
      match mget label labels with
      | None => Err (failure "schema_delta_missing_function_reference")
      | Some [candidate] => function_dependencies labels references (sins candidate acc)
      | Some _ => Err (failure "schema_delta_ambiguous_function_reference")
      end
  end.

Definition dependencies_for (fact : SchemaFact) (labels : Labels) (sub_by_child : Subs)
    : result Diagnostic (BTreeSet SchemaFactId) :=
  match fact with
  | FactType _ | FactStruct _ => Ok []
  | FactSub i => Ok (sof [IdType (subtype i); IdType (supertype i)])
  | FactValue i _ => Ok (sof [IdType (attribute_type i)])
  | FactOwns i _ =>
      Ok (sof [IdType (owner i); IdType (attribute_type (owns_attribute i)); IdValue (owns_attribute i)])
  | FactRelates i specializes _ =>
      let dependencies := sof [IdType (relation i)] in
      match specializes with
      | None => Ok dependencies
      | Some parent_role =>
          let? parent := relates_id_of parent_role in
          let dependencies := sins (IdRelates parent) dependencies in
          match find_sub_path sub_by_child (declaring_relation_type parent_role) (relation i) with
          | None => Err (failure "schema_delta_missing_specialization_path")
          | Some path => Ok (sunion dependencies (map IdSub path))
          end
      end
  | FactPlays i =>
      let? role := relates_id_of (plays_role i) in
      Ok (sof [IdType (player i); IdRelates role])
  | FactAnnotation i _ => Ok (sof [subject_fact_id (subject i)])
  | FactFunction f => function_dependencies labels (schema_references f) []
  end.

(** ** The graph *)

Definition collect_inventory (facts : list SchemaFact) : result Diagnostic Facts :=
  try_fold (fun inventory fact =>
              if mmem (fact_id fact) inventory then Err (failure "schema_delta_duplicate_fact")
              else Ok (mins (fact_id fact) fact inventory)) [] facts.

Definition insert_dependents (dependents : BTreeMap SchemaFactId (BTreeSet SchemaFactId))
    (entry : SchemaFactId * BTreeSet SchemaFactId) : BTreeMap SchemaFactId (BTreeSet SchemaFactId) :=
  fold_left (fun m prerequisite => mentry prerequisite [] (sins entry.1) m) entry.2 dependents.

Definition graph_from_facts (facts : list SchemaFact) : result Diagnostic FactDependencyGraph :=
  let? inventory := collect_inventory facts in
  let labels := labels_of inventory in
  let sub_by_child := subs_of inventory in
  let? dependencies :=
    try_fold (fun m fact => let? ds := dependencies_for fact labels sub_by_child in
                            Ok (mins (fact_id fact) ds m)) [] (mvals inventory) in
  let dependents := fold_left (fun m id => mentry id [] (fun s => s) m) (mkeys dependencies) [] in
  let dependents := fold_left insert_dependents dependencies dependents in
  Ok (dependency_graph dependencies dependents).

(** [graph.dependencies(id).into_iter().flatten()]. *)
Definition dependencies (g : FactDependencyGraph) (id : SchemaFactId) : BTreeSet SchemaFactId :=
  match mget id (graph_dependencies g) with Some ds => ds | None => [] end.

Definition dependents (g : FactDependencyGraph) (id : SchemaFactId) : option (BTreeSet SchemaFactId) :=
  mget id (graph_dependents g).

Definition validate_complete (g : FactDependencyGraph) : result Diagnostic () :=
  if forallb (fun entry => forallb (fun p => mmem p (graph_dependencies g)) entry.2) (graph_dependencies g)
  then Ok tt else Err (failure "schema_delta_missing_dependency").

(** ** Planning *)

Definition declared_fact_map (d : DeclaredSchema) : Facts :=
  mof (map (fun fact => (fact_id fact, fact)) (mvals (facts d))).

Definition is_function (fact : option SchemaFact) : bool :=
  match fact with Some (FactFunction _) => true | _ => false end.

(** [target_facts[&id]], a panic when absent. *)
Definition facts_at (m : Facts) (ids : list SchemaFactId) : option (list SchemaFact) :=
  mapM (fun i => mget i m) ids.

Definition define_operations (target_facts : Facts) (components : list (list SchemaFactId))
    : option (result Diagnostic (list SchemaOperation)) :=
  match mapM (facts_at target_facts) components with
  | Some groups => Some (try_map define groups)
  | None => None
  end.

Definition redefine_operations (source_facts target_facts : Facts) (components : list (list SchemaFactId))
    : option (result Diagnostic (list SchemaOperation)) :=
  match facts_at source_facts (concat components), facts_at target_facts (concat components) with
  | Some expected, Some replacement =>
      Some (try_map (fun p => redefine p.1 p.2) (combine expected replacement))
  | _, _ => None
  end.

Definition undefine_operations (source_facts : Facts) (components : list (list SchemaFactId))
    : option (list SchemaOperation) :=
  match facts_at source_facts (concat (map (@rev _) (rev components))) with
  | Some fs => Some (map undefine fs)
  | None => None
  end.

(** [None] where the code would panic. *)
Definition plan_schema_operations (source target : DeclaredSchema)
    : option (result Diagnostic (list SchemaOperation)) :=
  let source_facts := declared_fact_map source in
  let target_facts := declared_fact_map target in
  match graph_from_facts (mvals (facts source)) with
  | Err e => Some (Err e)
  | Ok source_graph =>
  match graph_from_facts (mvals (facts target)) with
  | Err e => Some (Err e)
  | Ok target_graph =>
  match validate_complete source_graph with
  | Err e => Some (Err e)
  | Ok _ =>
  match validate_complete target_graph with
  | Err e => Some (Err e)
  | Ok _ =>
      let added := sdiff (mkeys target_facts) (mkeys source_facts) in
      let removed := sdiff (mkeys source_facts) (mkeys target_facts) in
      let redefined :=
        base.filter (fun i => mget i source_facts <> mget i target_facts)
          (sinter (mkeys source_facts) (mkeys target_facts)) in
      if existsb (fun i => is_function (match mget i source_facts with
                                        | Some f => Some f | None => mget i target_facts end))
           (added ++ removed ++ redefined)
      then Some (Err (failure "unsupported_function_migration"))
      else
        match ordered_components (dependencies target_graph) added,
              ordered_components (dependencies target_graph) redefined,
              ordered_components (dependencies source_graph) removed with
        | Some added, Some redefined, Some removed =>
            match define_operations target_facts added,
                  redefine_operations source_facts target_facts redefined,
                  undefine_operations source_facts removed with
            | Some defines, Some redefines, Some undefines =>
                Some (let? ds := defines in let? rs := redefines in Ok (ds ++ rs ++ undefines))
            | _, _, _ => None
            end
        | _, _, _ => None
        end
  end end end end.

(** ** The graph holds exactly the dependencies of its facts *)

Lemma keyed_ids m : keyed m -> map fact_id (mvals m) = mkeys m.
Proof.
  intros [Hs Hk]. unfold mvals, mkeys. rewrite map_map. apply map_ext_in. intros [k f] Hin.
  apply list_elem_of_In, elem_mget in Hin; [|done]. simpl. symmetry. by apply Hk.
Qed.

Lemma mkeys_sorted m : keyed m -> ssorted (mkeys m).
Proof. by intros [Hs _]. Qed.

Lemma keyed_nodup m : keyed m -> NoDup (map fact_id (mvals m)).
Proof. intros Hk. rewrite keyed_ids by done. by apply ssorted_NoDup, mkeys_sorted. Qed.

(** Members of a keyed map are found under their identity. *)
Lemma keyed_elem m f : keyed m -> f ∈ mvals m <-> mget (fact_id f) m = Some f.
Proof.
  intros Hk. rewrite mvals_elem by apply Hk. split; [|eauto].
  intros [k Hf]. by rewrite <- (proj2 Hk k f Hf).
Qed.

Lemma keyed_get m k f : keyed m -> mget k m = Some f -> k = fact_id f /\ f ∈ mvals m.
Proof.
  intros Hk Hf. pose proof (proj2 Hk k f Hf) as ->. split; [done|]. by apply keyed_elem.
Qed.

Lemma collect_fold fs acc :
  NoDup (map fact_id fs) -> (forall f, f ∈ fs -> mget (fact_id f) acc = None) ->
  try_fold (fun inventory fact =>
              if mmem (fact_id fact) inventory then Err (failure "schema_delta_duplicate_fact")
              else Ok (mins (fact_id fact) fact inventory)) acc fs
  = Ok (fold_left (fun m p => mins p.1 p.2 m) (map (fun f => (fact_id f, f)) fs) acc).
Proof.
  revert acc. induction fs as [|f fs IH]; intros acc Hn Ha; [done|].
  cbn [map] in Hn. apply NoDup_cons in Hn as [Hf Hn]. cbn [try_fold map fold_left].
  rewrite (proj2 (mmem_false (fact_id f) acc)) by (apply Ha; set_solver).
  apply IH; [done|]. intros g Hg. simpl. rewrite mget_mins_ne; [apply Ha; set_solver|].
  intros E. apply Hf. rewrite E. by apply (list_elem_of_fmap_2 fact_id).
Qed.

Lemma mof_keyed m : keyed m -> mof (map (fun f => (fact_id f, f)) (mvals m)) = m.
Proof.
  intros Hk. apply mget_Some_ext; [apply mof_sorted|apply Hk|]. intros k v.
  rewrite mget_mof by (rewrite map_map; by apply keyed_nodup).
  rewrite (list_elem_of_fmap (fun f => (fact_id f, f))). split.
  - intros (f & [= -> ->] & Hf). by apply keyed_elem.
  - intros Hv. destruct (keyed_get m k v Hk Hv) as [-> Hin]. by exists v.
Qed.

Lemma collect_inventory_keyed m : keyed m -> collect_inventory (mvals m) = Ok m.
Proof.
  intros Hk. unfold collect_inventory. rewrite collect_fold; [|by apply keyed_nodup|done].
  f_equal. by apply mof_keyed.
Qed.

Lemma declared_fact_map_keyed d : keyed (facts d) -> declared_fact_map d = facts d.
Proof. apply mof_keyed. Qed.

(** The dependencies of [f] within the inventory [m]. *)
Definition deps (m : Facts) (f : SchemaFact) : result Diagnostic (BTreeSet SchemaFactId) :=
  dependencies_for f (labels_of m) (subs_of m).

Lemma dependency_fold L S fs acc :
  NoDup (map fact_id fs) -> (forall f, f ∈ fs -> exists ds, dependencies_for f L S = Ok ds) ->
  exists m, try_fold (fun m fact => let? ds := dependencies_for fact L S in
                                    Ok (mins (fact_id fact) ds m)) acc fs = Ok m /\
    (msorted acc -> msorted m) /\
    (forall f, f ∈ fs -> exists ds, dependencies_for f L S = Ok ds /\ mget (fact_id f) m = Some ds) /\
    (forall k, k ∉ map fact_id fs -> mget k m = mget k acc).
Proof.
  revert acc. induction fs as [|f fs IH]; intros acc Hn Ha.
  - exists acc. split_and!; try done; set_solver.
  - cbn [map] in Hn. apply NoDup_cons in Hn as [Hf Hn]. cbn [try_fold].
    destruct (Ha f ltac:(set_solver)) as [ds Hds]. rewrite Hds.
    destruct (IH (mins (fact_id f) ds acc) Hn) as (m & -> & Hs & Hin & Hout); [set_solver|].
    exists m. split_and!; [done|by intros H; apply Hs, mins_sorted| |].
    + intros g [->|Hg]%elem_of_cons; [|auto]. exists ds. split; [done|].
      rewrite Hout by done. by rewrite mget_mins_eq.
    + intros k Hk. cbn [map] in Hk. rewrite Hout by set_solver. rewrite mget_mins_ne; set_solver.
Qed.

Lemma dependency_fold_err L S fs acc f e :
  f ∈ fs -> dependencies_for f L S = Err e ->
  exists e', try_fold (fun m fact => let? ds := dependencies_for fact L S in
                                     Ok (mins (fact_id fact) ds m)) acc fs = Err e'.
Proof.
  revert acc. induction fs as [|g fs IH]; intros acc Hf He; [set_solver|]. cbn [try_fold].
  destruct (dependencies_for g L S) as [ds|e'] eqn:Eg; [|eauto].
  apply elem_of_cons in Hf as [<-|Hf]; [congruence|]. by apply IH.
Qed.

(** [x] is listed under [k]. *)
Definition listed (m : BTreeMap SchemaFactId (BTreeSet SchemaFactId)) (k x : SchemaFactId) : Prop :=
  exists s, mget k m = Some s /\ x ∈ s.

Lemma listed_mentry m k f k' x :
  listed (mentry k [] f m) k' x <->
  if oeqb k k' then x ∈ f (match mget k m with Some s => s | None => [] end) else listed m k' x.
Proof.
  unfold listed, mentry. rewrite mget_mins. destruct (oeqb k k'); [naive_solver|done].
Qed.

Lemma listed_default m k x : x ∈ (match mget k m with Some s => s | None => [] end) <-> listed m k x.
Proof. unfold listed. destruct (mget k m); set_solver. Qed.

Lemma listed_insert m e k x :
  listed (insert_dependents m e) k x <-> listed m k x \/ (k ∈ e.2 /\ x = e.1).
Proof.
  unfold insert_dependents. destruct e as [d ps]. simpl. revert m.
  induction ps as [|p ps IH]; intros m; simpl; [set_solver|].
  rewrite IH, listed_mentry, elem_of_cons. destruct (oeqb_spec p k) as [->|Hne].
  - rewrite elem_sins, listed_default. naive_solver.
  - naive_solver.
Qed.

Lemma listed_insert_all es m k x :
  listed (fold_left insert_dependents es m) k x <->
  listed m k x \/ exists ps, (x, ps) ∈ es /\ k ∈ ps.
Proof.
  revert m. induction es as [|[d ps] es IH]; intros m; simpl; [set_solver|].
  rewrite IH, listed_insert. simpl. setoid_rewrite elem_of_cons. naive_solver.
Qed.

Lemma listed_defaults ids m k x :
  listed (fold_left (fun m id => mentry id [] (fun s => s) m) ids m) k x <-> listed m k x.
Proof.
  revert m. induction ids as [|i ids IH]; intros m; simpl; [done|].
  rewrite IH, listed_mentry. destruct (oeqb_spec i k) as [->|]; [apply listed_default|done].
Qed.

(** The graph of the inventory [m]: its edges are the dependencies of its facts,
    in both directions. *)
Record graph_of (m : Facts) (g : FactDependencyGraph) : Prop := {
  go_sorted : msorted (graph_dependencies g);
  go_deps : forall k ds, mget k (graph_dependencies g) = Some ds <->
              exists f, mget k m = Some f /\ deps m f = Ok ds;
  go_dependents : forall k x, listed (graph_dependents g) k x <->
              exists f ds, mget x m = Some f /\ deps m f = Ok ds /\ k ∈ ds }.

Definition all_resolve (m : Facts) : Prop := forall k f, mget k m = Some f -> exists ds, deps m f = Ok ds.

Lemma graph_from_facts_ok m :
  keyed m -> all_resolve m -> exists g, graph_from_facts (mvals m) = Ok g /\ graph_of m g.
Proof.
  intros Hk Hall. unfold graph_from_facts. rewrite collect_inventory_keyed by done.
  destruct (dependency_fold (labels_of m) (subs_of m) (mvals m) []) as (d & -> & Hs & Hin & Hout).
  { by apply keyed_nodup. }
  { intros f Hf. apply (Hall (fact_id f)). by apply keyed_elem. }
  assert (forall k ds, mget k d = Some ds <-> exists f, mget k m = Some f /\ deps m f = Ok ds) as Hd.
  { intros k ds. split.
    - intros Hkd. destruct (decide (k ∈ map fact_id (mvals m))) as [Hm|Hm].
      + apply list_elem_of_fmap in Hm as (f & -> & Hf). destruct (Hin f Hf) as (ds' & Hds & Hget).
        exists f. split; [by apply keyed_elem|]. unfold deps. congruence.
      + rewrite Hout in Hkd by done. done.
    - intros (f & Hf & Hds). destruct (keyed_get m k f Hk Hf) as [-> Hfm].
      destruct (Hin f Hfm) as (ds' & Hds' & Hget). unfold deps in Hds. congruence. }
  eexists. split; [reflexivity|]. split; simpl.
  - apply Hs. constructor.
  - done.
  - intros k x. rewrite listed_insert_all, listed_defaults. split.
    + intros [(s & Hs' & _)|(ps & Hps & Hkp)]; [done|].
      apply elem_mget in Hps; [|apply Hs; constructor]. apply Hd in Hps as (f & Hf & Hds). eauto.
    + intros (f & ds & Hf & Hds & Hkd). right. exists ds. split; [|done].
      apply elem_mget; [apply Hs; constructor|]. apply Hd. eauto.
Qed.

Lemma graph_from_facts_err m k f e :
  keyed m -> mget k m = Some f -> deps m f = Err e -> exists e', graph_from_facts (mvals m) = Err e'.
Proof.
  intros Hk Hf He. destruct (keyed_get m k f Hk Hf) as [_ Hin].
  unfold graph_from_facts. rewrite collect_inventory_keyed by done.
  destruct (dependency_fold_err (labels_of m) (subs_of m) (mvals m) [] f e Hin He) as [e' ->]. eauto.
Qed.

Lemma graph_of_from m g : keyed m -> graph_from_facts (mvals m) = Ok g -> all_resolve m /\ graph_of m g.
Proof.
  intros Hk Hg. assert (all_resolve m) as Hall.
  { intros k f Hf. destruct (deps m f) as [ds|e] eqn:E; [eauto|].
    destruct (graph_from_facts_err m k f e Hk Hf E). congruence. }
  split; [done|]. destruct (graph_from_facts_ok m Hk Hall) as (g' & Hg' & Ho). congruence.
Qed.

(** Every dependency of every fact is in the inventory. *)
Definition complete (m : Facts) : Prop :=
  forall k f, mget k m = Some f -> exists ds, deps m f = Ok ds /\ forall p, p ∈ ds -> is_Some (mget p m).

Lemma complete_resolves m : complete m -> all_resolve m.
Proof. intros Hc k f Hf. destruct (Hc k f Hf) as (ds & Hds & _). eauto. Qed.

Lemma graph_keys m g : all_resolve m -> graph_of m g ->
  forall p, mmem p (graph_dependencies g) = true <-> is_Some (mget p m).
Proof.
  intros Hall Hg p. rewrite mmem_true, <- mget_elem. split.
  - intros [ds Hds]. apply (go_deps m g Hg) in Hds as (f & Hf & _). eauto.
  - intros [f Hf]. destruct (Hall p f Hf) as [ds Hds]. exists ds. apply (go_deps m g Hg). eauto.
Qed.

Lemma validate_complete_iff m g :
  all_resolve m -> graph_of m g -> validate_complete g = Ok tt <-> complete m.
Proof.
  intros Hall Hg. unfold validate_complete.
  assert (forallb (fun entry => forallb (fun p => mmem p (graph_dependencies g)) entry.2)
            (graph_dependencies g) = true <-> complete m) as H.
  { rewrite forallb_forall. setoid_rewrite forallb_forall. setoid_rewrite <- list_elem_of_In.
    setoid_rewrite (graph_keys m g Hall Hg). split.
    - intros H k f Hf. destruct (Hall k f Hf) as [ds Hds]. exists ds. split; [done|].
      apply (H (k, ds)). apply elem_mget; [apply Hg|]. apply (go_deps m g Hg). eauto.
    - intros H [k ds] Hin p Hp. apply elem_mget in Hin; [|apply Hg].
      apply (go_deps m g Hg) in Hin as (f & Hf & Hds). destruct (H k f Hf) as (ds' & Hds' & Hall').
      apply Hall'. simpl in Hp. congruence. }
  destruct (forallb _ _); naive_solver.
Qed.

(** C27. The dependency graph of an inventory is built exactly when every
    function label and role specialization of it resolves; its two adjacency
    maps then hold exactly the dependencies of the facts, one the transpose of
    the other, and the completeness check accepts it exactly when every
    dependency is itself a fact of the inventory. *)
Theorem graph_from_facts_correct m :
  keyed m ->
  ((exists g, graph_from_facts (mvals m) = Ok g) <-> all_resolve m) /\
  forall g, graph_from_facts (mvals m) = Ok g ->
    graph_of m g /\ (validate_complete g = Ok tt <-> complete m).
Proof.
  intros Hk. split.
  - split; [intros [g Hg]; by apply (graph_of_from m g)|].
    intros Hall. destruct (graph_from_facts_ok m Hk Hall) as (g & Hg & _). eauto.
  - intros g Hg. destruct (graph_of_from m g Hk Hg) as [Hall Ho]. split; [done|].
    by apply validate_complete_iff.
Qed.

Lemma graph_from_facts_correct_w :
  exists g, graph_from_facts (mvals (Schema.fact_map example_facts)) = Ok g /\
            graph_of (Schema.fact_map example_facts) g /\ complete (Schema.fact_map example_facts).
Proof.
  assert (keyed (Schema.fact_map example_facts)) as Hk.
  { apply fact_map_keyed. apply (bool_decide_unpack _). vm_compute. exact I. }
  destruct (graph_from_facts (mvals (Schema.fact_map example_facts))) as [g|e] eqn:E;
    [|vm_compute in E; discriminate].
  destruct (graph_from_facts_correct (Schema.fact_map example_facts) Hk) as [_ H].
  destruct (H g E) as [Hg Hc]. exists g. split; [reflexivity|]. split; [exact Hg|]. apply Hc.
  vm_compute in E. injection E as <-. vm_compute. reflexivity.
Defined.

(** ** The subtype path search *)

Section search.
Context (subs : Subs) (target : TypeId).

(** A chain of declared edges from [x] to the target. *)
Fixpoint is_path (x : TypeId) (p : list SubFactId) : Prop :=
  match p with
  | [] => x = target
  | e :: p => e ∈ edges_of subs x /\ is_path (supertype e) p
  end.

Definition expanded (visited visited' : BTreeSet TypeId) : Prop :=
  forall x, x ∈ visited' -> x ∉ visited -> x <> target /\ forall e, e ∈ edges_of subs x -> supertype e ∈ visited'.

(** What a search returns: a path, or a set of types closed under the edges
    that misses the target. *)
Definition search_post (starts : list TypeId) (visited : BTreeSet TypeId)
    (r : option (list SubFactId)) (visited' : BTreeSet TypeId) : Prop :=
  (forall x, x ∈ visited -> x ∈ visited') /\
  (r = None -> (forall x, x ∈ starts -> x ∈ visited' /\ x <> target) /\ expanded visited visited').

Definition open_types (visited : BTreeSet TypeId) : nat :=
  length (base.filter (fun t => t ∉ visited) (map fst subs)).

Lemma open_types_mono v v' : (forall x, x ∈ v -> x ∈ v') -> (open_types v' <= open_types v)%nat.
Proof.
  intros Hsub. unfold open_types. induction (map fst subs) as [|k ks IH]; [done|].
  rewrite !filter_cons. repeat case_decide; simpl; try lia. naive_solver.
Qed.

Lemma open_types_visit v x :
  x ∈ map fst subs -> x ∉ v -> (open_types (sins x v) < open_types v)%nat.
Proof.
  intros Hx Hv. unfold open_types. induction (map fst subs) as [|k ks IH]; [set_solver|].
  assert (length (base.filter (fun t => t ∉ sins x v) ks) <= length (base.filter (fun t => t ∉ v) ks))%nat as Hle.
  { clear. induction ks as [|k ks IH]; [done|]. rewrite !filter_cons.
    repeat case_decide; simpl; try lia. rewrite elem_sins in *. naive_solver. }
  rewrite !filter_cons. destruct (decide (x = k)) as [<-|Hne].
  - rewrite decide_False, decide_True; [|done|rewrite elem_sins; naive_solver]. simpl. lia.
  - apply elem_of_cons in Hx as [?|Hx]; [done|]. specialize (IH Hx).
    repeat case_decide; simpl; try lia; rewrite elem_sins in *; naive_solver.
Qed.

Lemma edges_of_open x : edges_of subs x <> [] -> x ∈ map fst subs.
Proof.
  unfold edges_of. destruct (mget x subs) eqn:E; [|done]. intros _. apply mget_elem. eauto.
Qed.

Definition searches (fuel : nat) : Prop :=
  forall current visited, (open_types visited < fuel)%nat ->
  exists r visited', search subs target fuel current visited = Some (r, visited') /\
    search_post [current] visited r visited' /\ (forall p, r = Some p -> is_path current p).

Lemma first_path_spec fuel es visited :
  searches fuel -> (open_types visited < fuel)%nat ->
  exists r visited', first_path (search subs target fuel) es visited = Some (r, visited') /\
    search_post (map supertype es) visited r visited' /\
    (forall p, r = Some p -> exists e q, p = e :: q /\ e ∈ es /\ is_path (supertype e) q).
Proof.
  intros IH. revert visited. induction es as [|e es IHe]; intros visited Hf; cbn [first_path].
  - exists None, visited. split_and!; [done| |done]. split; [done|]. intros _. split; [set_solver|].
    intros x Hx Hn. done.
  - destruct (IH (supertype e) visited Hf) as (r & v & -> & [Hsub Hnone] & Hp).
    destruct r as [q|].
    + exists (Some (e :: q)), v. split_and!; [done|by split|]. intros p [= <-]. exists e, q.
      split_and!; [done|set_solver|by apply Hp].
    + destruct (Hnone eq_refl) as [Hst Hex].
      destruct (IHe v) as (r & v' & -> & [Hsub' Hnone'] & Hp').
      { eapply Nat.le_lt_trans; [by apply open_types_mono|done]. }
      exists r, v'. split_and!; [done| |].
      * split; [auto|]. intros Hr. destruct (Hnone' Hr) as [Hst' Hex']. split.
        -- intros x [->|Hx]%elem_of_cons; [|auto].
           destruct (Hst (supertype e)) as [? ?]; [set_solver|]. auto.
        -- intros x Hx Hn. destruct (decide (x ∈ v)) as [Hv|Hv]; [|by apply Hex'].
           destruct (Hex x Hv Hn) as [? He]. split; [done|]. auto.
      * intros p Ep. destruct (Hp' p Ep) as (e' & q & -> & He' & Hq). exists e', q. set_solver.
Qed.

Lemma search_spec fuel : searches fuel.
Proof.
  induction fuel as [|fuel IH]; intros current visited Hf; [lia|]. cbn [search].
  destruct (oeqb_spec current target) as [->|Hct].
  { exists (Some []), visited. split_and!; [done|by split|]. by intros p [= <-]. }
  destruct (smem current visited) eqn:Es.
  { apply smem_true in Es. exists None, visited. split_and!; [done| |done]. split; [done|]. intros _.
    split; [|intros x Hx Hn; done]. intros x ->%list_elem_of_singleton. done. }
  apply smem_false in Es. destruct (edges_of subs current) as [|e es] eqn:Ee.
  { exists None, (sins current visited). split_and!; [done| |done]. split.
    - intros x Hx. rewrite elem_sins. auto.
    - intros _. split; [intros x ->%list_elem_of_singleton; rewrite elem_sins; auto|].
      intros x Hx Hn. rewrite elem_sins in Hx. destruct Hx as [->|]; [|done]. rewrite Ee. set_solver. }
  destruct (first_path_spec fuel (e :: es) (sins current visited) IH) as (r & v & E & [Hsub Hnone] & Hp).
  { assert (open_types (sins current visited) < open_types visited)%nat; [|lia].
    apply open_types_visit; [|done]. apply edges_of_open. by rewrite Ee. }
  exists r, v. split_and!; [done| |].
  - split; [intros x Hx; apply Hsub; rewrite elem_sins; auto|]. intros Hr.
    destruct (Hnone Hr) as [Hst Hex]. split.
    + intros x ->%list_elem_of_singleton. split; [|done]. apply Hsub. rewrite elem_sins. auto.
    + intros x Hx Hn. destruct (decide (x = current)) as [->|Hne].
      * split; [done|]. intros e' He'. rewrite Ee in He'. apply Hst. by apply (list_elem_of_fmap_2 supertype).
      * apply Hex; [done|]. rewrite elem_sins. naive_solver.
  - intros p Ep. destruct (Hp p Ep) as (e' & q & -> & He' & Hq). simpl. by rewrite Ee.
Qed.

(** A closed set that misses the target has no path to it. *)
Lemma no_path visited x p : expanded [] visited -> x ∈ visited -> is_path x p -> False.
Proof.
  intros Hex. revert x. induction p as [|e p IH]; intros x Hx; simpl.
  - intros ->. by destruct (Hex target Hx); [set_solver|].
  - intros [He Hp]. apply (IH (supertype e)); [|done]. by apply (Hex x Hx); [set_solver|].
Qed.

Lemma find_sub_path_spec x :
  match find_sub_path subs target x with
  | Some p => is_path x p
  | None => forall p, ~ is_path x p
  end.
Proof.
  unfold find_sub_path. destruct (search_spec (path_fuel subs) x []) as (r & v & -> & [_ Hnone] & Hp).
  { unfold path_fuel, open_types. apply Nat.lt_succ_r.
    etrans; [apply length_filter|by rewrite length_map]. }
  destruct r as [p|]; [by apply Hp|]. intros p Hpath. destruct (Hnone eq_refl) as [Hst Hex].
  eapply no_path; [done| |done]. apply (Hst x). set_solver.
Qed.
End search.

Section group.
Context {K V : Type} {ok : Ord K} {okl : OrdLaws K} {ov : Ord V}.

Definition values_at (k : K) (m : BTreeMap K (list V)) : list V :=
  match mget k m with Some vs => vs | None => [] end.

Lemma values_at_sorted k (m : BTreeMap K (list V)) :
  values_at k (map (fun e => (e.1, vec_sort e.2)) m) = vec_sort (values_at k m).
Proof.
  unfold values_at. induction m as [|[k' vs] m IH]; [done|]. simpl. destruct (oeqb k k'); done.
Qed.

Lemma values_at_fold es (acc : BTreeMap K (list V)) k :
  values_at k (fold_left (fun m e => mentry e.1 [] (fun vs => vs ++ [e.2]) m) es acc)
  = values_at k acc ++ map snd (base.filter (fun e => oeqb e.1 k = true) es).
Proof.
  revert acc. induction es as [|[k' v] es IH]; intros acc; simpl; [by rewrite app_nil_r|].
  rewrite IH, filter_cons. unfold values_at, mentry. simpl. rewrite mget_mins.
  destruct (oeqb_spec k' k) as [->|Hne].
  - rewrite decide_True by done. simpl. by rewrite <- app_assoc.
  - rewrite decide_False by done. done.
Qed.

Lemma group_elem (es : list (K * V)) k v : v ∈ values_at k (group es) <-> (k, v) ∈ es.
Proof.
  unfold group. rewrite values_at_sorted, vec_sort_perm, values_at_fold. simpl.
  rewrite (list_elem_of_fmap snd). setoid_rewrite list_elem_of_filter. split.
  - intros ([k' v'] & -> & Hk & Hin). simpl in *. apply (oeqb_true k') in Hk as ->. done.
  - intros Hin. exists (k, v). split_and!; [done| |done]. apply oeqb_refl.
Qed.
End group.

Lemma edges_of_declared m x e :
  keyed m -> e ∈ edges_of (subs_of m) x <-> subtype e = x /\ is_Some (mget (IdSub e) m).
Proof.
  intros Hk. unfold subs_of. change (edges_of ?s x) with (values_at x s). rewrite group_elem, elem_omap. split.
  - intros (f & Hf & Hs). destruct f; simpl in Hs; simplify_eq. split; [done|].
    apply keyed_elem in Hf; [|done]. eauto.
  - intros [<- [f Hf]]. destruct (keyed_get m _ f Hk Hf) as [Hid Hin].
    destruct f; simpl in Hid; simplify_eq. exists (FactSub id). done.
Qed.

(** A chain of subtype facts of the inventory from [x] to [t]. *)
Fixpoint sub_chain (m : Facts) (x : TypeId) (p : list SubFactId) (t : TypeId) : Prop :=
  match p with
  | [] => x = t
  | e :: p => subtype e = x /\ is_Some (mget (IdSub e) m) /\ sub_chain m (supertype e) p t
  end.

Lemma is_path_chain m x p t : keyed m -> is_path (subs_of m) t x p <-> sub_chain m x p t.
Proof.
  intros Hk. revert x. induction p as [|e p IH]; intros x; simpl; [done|].
  rewrite edges_of_declared, IH by done. tauto.
Qed.

(** The search behind a role specialization returns a chain of declared
    subtype facts whenever there is one, and fails only when there is none; it
    always ends, also on cyclic subtype declarations. *)
Theorem find_sub_path_correct m x t :
  keyed m ->
  (forall p, find_sub_path (subs_of m) t x = Some p -> sub_chain m x p t) /\
  (find_sub_path (subs_of m) t x = None <-> forall p, ~ sub_chain m x p t).
Proof.
  intros Hk. pose proof (find_sub_path_spec (subs_of m) t x) as H.
  destruct (find_sub_path (subs_of m) t x) as [q|]; split.
  - intros p [= <-]. by apply is_path_chain.
  - split; [done|]. intros Hn. exfalso. apply (Hn q). by apply is_path_chain.
  - done.
  - split; [|done]. intros _ p Hp. apply (H p). by apply is_path_chain.
Qed.

(** A cyclic hierarchy: [a < b < c < a]. *)
Definition example_cycle : Facts :=
  let t l := type_id Relation l in
  let sub x y := (IdSub (sub_id x y), FactSub (sub_id x y)) in
  mof [sub (t b#"a") (t b#"b"); sub (t b#"b") (t b#"c"); sub (t b#"c") (t b#"a")].

Lemma example_cycle_keyed : keyed example_cycle.
Proof.
  split; [apply mof_sorted|]. intros k f. unfold example_cycle. rewrite mget_mof.
  - rewrite !elem_of_cons, elem_of_nil. naive_solver.
  - apply (bool_decide_unpack _). vm_compute. exact I.
Qed.

Lemma find_sub_path_correct_w :
  sub_chain example_cycle (type_id Relation b#"a")
    [sub_id (type_id Relation b#"a") (type_id Relation b#"b");
     sub_id (type_id Relation b#"b") (type_id Relation b#"c")] (type_id Relation b#"c") /\
  forall p, ~ sub_chain example_cycle (type_id Relation b#"a") p (type_id Relation b#"d").
Proof.
  split.
  - apply (find_sub_path_correct example_cycle); [exact example_cycle_keyed|]. vm_compute. reflexivity.
  - apply (find_sub_path_correct example_cycle); [exact example_cycle_keyed|]. vm_compute. reflexivity.
Defined.

(** ** Inventories between two declarations *)

(** The identities a function label can refer to. *)
Definition id_label (i : SchemaFactId) : option (Label * SchemaFactId) :=
  match i with
  | IdType t => Some (type_label t, IdType t)
  | IdStruct l => Some (l, IdStruct l)
  | _ => None
  end.
Definition id_sub (i : SchemaFactId) : option (TypeId * SubFactId) :=
  match i with IdSub e => Some (subtype e, e) | _ => None end.

Lemma omap_map {A B C} (g : A -> B) (h : B -> option C) (l : list A) :
  omap h (map g l) = omap (fun x => h (g x)) l.
Proof.
  induction l as [|x l IH]; [done|]. cbn [map omap list_omap]. destruct (h (g x)); [by f_equal|done].
Qed.

Lemma omap_filter_ext {A B} (h : A -> option B) (l k : list A) :
  base.filter (fun x => is_Some (h x)) l = base.filter (fun x => is_Some (h x)) k -> omap h l = omap h k.
Proof.
  assert (forall l : list A, omap h l = omap h (base.filter (fun x => is_Some (h x)) l)) as H.
  { clear. induction l as [|x l IH]; [done|]. rewrite filter_cons. cbn [omap list_omap].
    destruct (h x) as [b|] eqn:E.
    - rewrite decide_True by eauto. cbn [omap list_omap]. rewrite E. by f_equal.
    - rewrite decide_False by (intros [? ?]; done). done. }
  intros E. by rewrite (H l), (H k), E.
Qed.

Lemma omap_keys_ext {B} (h : SchemaFactId -> option B) (m m' : Facts) :
  keyed m -> keyed m' ->
  (forall i, is_Some (h i) -> is_Some (mget i m) <-> is_Some (mget i m')) ->
  omap h (mkeys m) = omap h (mkeys m').
Proof.
  intros Hm Hm' Heq. apply omap_filter_ext.
  apply ssorted_ext; [by apply filter_sorted, mkeys_sorted..|].
  intros i. rewrite !list_elem_of_filter, <- !mget_mkeys. naive_solver.
Qed.

Lemma labels_of_ext m m' :
  keyed m -> keyed m' -> (forall i, is_Some (id_label i) -> is_Some (mget i m) <-> is_Some (mget i m')) ->
  labels_of m = labels_of m'.
Proof.
  intros Hm Hm' Heq. unfold labels_of. f_equal.
  assert (forall n, keyed n -> omap label_entry (mvals n) = omap id_label (mkeys n)) as H.
  { intros n Hn. rewrite <- keyed_ids, omap_map by done. apply list_omap_ext, Forall_Forall2_diag, Forall_forall.
    by intros [] _. }
  rewrite !H by done. by apply omap_keys_ext.
Qed.

Lemma subs_of_ext m m' :
  keyed m -> keyed m' -> (forall i, is_Some (id_sub i) -> is_Some (mget i m) <-> is_Some (mget i m')) ->
  subs_of m = subs_of m'.
Proof.
  intros Hm Hm' Heq. unfold subs_of. f_equal.
  assert (forall n, keyed n -> omap sub_entry (mvals n) = omap id_sub (mkeys n)) as H.
  { intros n Hn. rewrite <- keyed_ids, omap_map by done. apply list_omap_ext, Forall_Forall2_diag, Forall_forall.
    by intros [] _. }
  rewrite !H by done. by apply omap_keys_ext.
Qed.

Definition specialized (f : SchemaFact) : Prop := exists i r c, f = FactRelates i (Some r) c.
Definition is_function_fact (f : SchemaFact) : Prop := exists g, f = FactFunction g.

(** Role specializations only next to an unchanged subtype hierarchy, and
    functions only next to unchanged types and structs: then no dependency
    changes between the two inventories. *)
Definition stable_pair (s t : Facts) : Prop :=
  ((forall i, is_Some (id_sub i) -> is_Some (mget i s) <-> is_Some (mget i t)) \/
   (forall k f, mget k s = Some f \/ mget k t = Some f -> ~ specialized f)) /\
  ((forall i, is_Some (id_label i) -> is_Some (mget i s) <-> is_Some (mget i t)) \/
   (forall k f, mget k s = Some f \/ mget k t = Some f -> ~ is_function_fact f)).

Record between (s t m : Facts) : Prop := {
  bt_keyed : keyed m;
  bt_from : forall k f, mget k m = Some f -> mget k s = Some f \/ mget k t = Some f;
  bt_keeps : forall k, is_Some (mget k s) -> is_Some (mget k t) -> is_Some (mget k m) }.

Lemma dependencies_for_env f L S L' S' :
  (specialized f -> S = S') -> (is_function_fact f -> L = L') ->
  dependencies_for f L S = dependencies_for f L' S'.
Proof.
  intros HS HL. destruct f as [| | | |i [r|] c| | |g|]; try done.
  - rewrite HS; [done|]. by exists i, r, c.
  - rewrite HL; [done|]. by exists g.
Qed.

(** Within the inventories between [s] and [t] a fact's dependencies are fixed. *)
Lemma deps_between s t m k f :
  keyed s -> keyed t -> stable_pair s t -> between s t m ->
  mget k s = Some f \/ mget k t = Some f -> deps m f = deps s f.
Proof.
  intros Hs Ht [Hsub Hlab] [Hm Hfrom Hkeep] Hf.
  assert (forall P : SchemaFactId -> Prop, (forall i, P i -> is_Some (mget i s) <-> is_Some (mget i t)) ->
          forall i, P i -> is_Some (mget i m) <-> is_Some (mget i s)) as Hmid.
  { intros P HP i Hi. split.
    - intros [g Hg]. destruct (Hfrom i g Hg) as [H|H]; [eauto|]. apply HP; eauto.
    - intros His. apply Hkeep; [done|]. by apply HP. }
  apply dependencies_for_env; intros Hx.
  - destruct Hsub as [Hsub|Hno]; [|by destruct (Hno k f Hf)].
    apply subs_of_ext; [done..|]. by apply (Hmid (fun i => is_Some (id_sub i))).
  - destruct Hlab as [Hlab|Hno]; [|by destruct (Hno k f Hf)].
    apply labels_of_ext; [done..|]. by apply (Hmid (fun i => is_Some (id_label i))).
Qed.

Lemma between_source s t : keyed s -> between s t s.
Proof. intros Hs. split; eauto. Qed.

Lemma between_target s t : keyed t -> between s t t.
Proof. intros Ht. split; eauto. Qed.

End Dependencies.
