(* ===== verification/Delta.v ===== *)
(** * Replaying and inverting schema deltas (schema/src/delta.rs)

    [replay], which applies operations to a declared inventory one by one and
    checks every intermediate inventory, the synthetic spans it gives new facts,
    and [inverse_delta]. The fingerprint checks around replay in [apply_delta]
    need schema resolution and are not part of this file. *)

From S2P Require Import Prelude BTree Text Ident Value Fingerprint Schema Components Ordering SchemaDelta Dependencies.
From Stdlib Require Import Sorted Relation_Operators Operators_Properties.
Import Ident Value Schema Components Ordering SchemaDelta Dependencies.
#[local] Open Scope Z_scope.

Module Delta.

Inductive DeltaError : Set :=
| Contract (d : Diagnostic)
| SchemaErrors (ds : list Diagnostic).

Definition Spans : Set := BTreeMap SchemaFactId SourceSpan.

Definition fail (code : string) : DeltaError := Contract (failure code).

(** [self?] into a [DeltaError]. *)
Definition contract {A} (r : result Diagnostic A) : result DeltaError A := map_err Contract r.

Definition validate_inventory (facts : Facts) : result DeltaError () :=
  let? graph := contract (graph_from_facts (mvals facts)) in
  contract (validate_complete graph).

Definition operation_facts (op : SchemaOperation) : list SchemaFact :=
  match op with
  | Define facts => facts
  | Redefine expected replacement => [expected; replacement]
  | Undefine fact => [fact]
  end.

Definition reject_opaque_function (op : SchemaOperation) : result DeltaError () :=
  if existsb (fun fact => is_function (Some fact)) (operation_facts op)
  then Err (fail "unsupported_function_migration") else Ok tt.


Definition synthetic_span (operation_index fact_index : Z) : result Diagnostic SourceSpan :=
  let ordinal := operation_index * 1000 + fact_index in
  if usize_max <? operation_index * 1000 then Err (failure "schema_delta_span_overflow")
  else if usize_max <? ordinal then Err (failure "schema_delta_span_overflow")
  else
    let line := usize (ordinal + 1) in
    if u32_max <? line then Err (failure "schema_delta_span_overflow")
    else
      let? document := DocumentId_new b#"typebridge.schema-delta.synthetic" in
      SourceSpan_new document ordinal (usize (ordinal + 1)) line 1 line 2.

Fixpoint define_facts (operation_index : Z) (fact_index : Z) (definitions : list SchemaFact)
    (st : Facts * Spans) : result DeltaError (Facts * Spans) :=
  match definitions with
  | [] => Ok st
  | fact :: definitions =>
      let? span := contract (synthetic_span operation_index fact_index) in
      define_facts operation_index (fact_index + 1) definitions
        (mins (fact_id fact) fact st.1, mins (fact_id fact) span st.2)
  end.

Definition replay_operation (operation_index : Z) (st : Facts * Spans) (op : SchemaOperation)
    : result DeltaError (Facts * Spans) :=
  let? _ := reject_opaque_function op in
  match op with
  | Define definitions =>
      if existsb (fun fact => mmem (fact_id fact) st.1) definitions
      then Err (fail "schema_delta_define_collision")
      else
        let? st := define_facts operation_index 0 definitions st in
        let? _ := validate_inventory st.1 in
        Ok st
  | Redefine expected replacement =>
      let id := fact_id expected in
      if negb (bool_decide (mget id st.1 = Some expected))
      then Err (fail "schema_delta_expected_fact_mismatch")
      else
        let facts := mins id replacement st.1 in
        let? span := contract (synthetic_span operation_index 0) in
        let? _ := validate_inventory facts in
        Ok (facts, mins id span st.2)
  | Undefine expected =>
      let id := fact_id expected in
      if negb (bool_decide (mget id st.1 = Some expected))
      then Err (fail "schema_delta_expected_fact_mismatch")
      else
        let? graph := contract (graph_from_facts (mvals st.1)) in
        match dependents graph id with
        | Some ds =>
            if existsb (fun d => mmem d st.1) ds
            then Err (fail "schema_delta_survivor_dependency")
            else Ok (mdel id st.1, mdel id st.2)
        | None => Ok (mdel id st.1, mdel id st.2)
        end
  end.

Fixpoint replay_operations (operation_index : Z) (st : Facts * Spans) (ops : list SchemaOperation)
    : result DeltaError (Facts * Spans) :=
  match ops with
  | [] => Ok st
  | op :: ops =>
      let? st := replay_operation operation_index st op in
      replay_operations (operation_index + 1) st ops
  end.

(** The facts and spans of the source declaration. *)
Definition source_state (source : DeclaredSchema) : result DeltaError (Facts * Spans) :=
  try_fold (fun st fact =>
              match mget (fact_id fact) (provenance source) with
              | Some span => Ok (mins (fact_id fact) fact st.1, mins (fact_id fact) span st.2)
              | None => Err (fail "schema_delta_missing_source_span")
              end) ([], []) (mvals (facts source)).

Definition replay (source : DeclaredSchema) (operations : list SchemaOperation)
    : result DeltaError (Facts * Spans) :=
  let? st := source_state source in
  let? st := replay_operations 0 st operations in
  let? _ := validate_inventory st.1 in
  Ok st.

(** The operations of the inverse delta. [None] where an [expect] fails. *)
Definition inverse_operations (ops : list SchemaOperation) : option (list SchemaOperation) :=
  match mapM inverse (rev ops) with
  | Some inverses => Some (concat inverses)
  | None => None
  end.

Definition inverse_delta (delta : SchemaDelta) : option (result DeltaError SchemaDelta) :=
  match inverse_operations (operations delta) with
  | Some ops => Some (contract (SchemaDelta_new (delta_format delta) (delta_target delta)
                                  (delta_source delta) ops))
  | None => None
  end.

(** ** Spans *)

Lemma synthetic_span_ok i j :
  0 <= i -> 0 <= j -> i * 1000 + j + 1 <= u32_max -> exists span, synthetic_span i j = Ok span.
Proof.
  unfold u32_max. intros Hi Hj Hb. unfold synthetic_span, usize_max, u64_max, u32_max.
  rewrite (proj2 (Z.ltb_ge _ _)) by lia. rewrite (proj2 (Z.ltb_ge _ (i * 1000 + j))) by lia.
  unfold usize. rewrite Z.mod_small by lia. rewrite (proj2 (Z.ltb_ge _ (i * 1000 + j + 1))) by lia.
  change (DocumentId_new b#"typebridge.schema-delta.synthetic")
    with (Ok (E := Diagnostic) b#"typebridge.schema-delta.synthetic").
  cbv beta iota. unfold SourceSpan_new.
  rewrite (proj2 (Z.ltb_ge (i * 1000 + j + 1) (i * 1000 + j))) by lia.
  rewrite (proj2 (Z.eqb_neq (i * 1000 + j + 1) 0)) by lia.
  unfold oltb, cmp, Ord_prod. simpl. unfold cmp, Ord_Z at 1. rewrite Z.compare_refl. simpl. eauto.
Qed.

(** ** Validity of an inventory *)

Lemma validate_inventory_iff m : keyed m -> validate_inventory m = Ok tt <-> complete m.
Proof.
  intros Hk. unfold validate_inventory. destruct (graph_from_facts (mvals m)) as [g|e] eqn:E; simpl.
  - destruct (graph_of_from m g Hk E) as [Hall Hg]. rewrite <- (validate_complete_iff m g Hall Hg).
    destruct (validate_complete g) as [[]|]; naive_solver.
  - split; [done|]. intros Hc%complete_resolves. destruct (graph_from_facts_ok m Hk Hc) as (g & Hg & _). congruence.
Qed.

(** No fact of [m] depends on [id]. *)
Definition unused (m : Facts) (id : SchemaFactId) : Prop :=
  forall k f ds, mget k m = Some f -> deps m f = Ok ds -> id ∉ ds.

(** ** Replay as a step relation on inventories *)

Definition inserted (fs : list SchemaFact) (m : Facts) : Facts :=
  fold_left (fun m f => mins (fact_id f) f m) fs m.

Definition opaque_free (op : SchemaOperation) : Prop :=
  forall f, f ∈ operation_facts op -> ~ is_function_fact f.

Inductive step (m : Facts) : SchemaOperation -> Facts -> Prop :=
| step_define fs :
    opaque_free (Define fs) -> (forall f, f ∈ fs -> mget (fact_id f) m = None) ->
    complete (inserted fs m) -> step m (Define fs) (inserted fs m)
| step_redefine e r :
    opaque_free (Redefine e r) -> mget (fact_id e) m = Some e ->
    complete (mins (fact_id e) r m) -> step m (Redefine e r) (mins (fact_id e) r m)
| step_undefine f :
    opaque_free (Undefine f) -> mget (fact_id f) m = Some f ->
    all_resolve m -> unused m (fact_id f) -> step m (Undefine f) (mdel (fact_id f) m).

Inductive steps : Facts -> list SchemaOperation -> Facts -> Prop :=
| steps_nil m : steps m [] m
| steps_cons m op m1 ops m' : step m op m1 -> steps m1 ops m' -> steps m (op :: ops) m'.

Lemma steps_app m ops m1 ops' m' : steps m ops m1 -> steps m1 ops' m' -> steps m (ops ++ ops') m'.
Proof. induction 1 as [|m op m2 ops m3 Hs _ IH]; intros H; [done|]. econstructor; eauto. Qed.

Lemma reject_iff op : reject_opaque_function op = Ok tt <-> opaque_free op.
Proof.
  unfold reject_opaque_function, opaque_free.
  destruct (existsb _ _) eqn:E.
  - split; [done|]. intros H. apply existsb_exists in E as (f & Hin%list_elem_of_In & Hf).
    destruct (H f Hin). destruct f; try done. by eexists.
  - split; [|done]. intros _ f Hin [g ->].
    assert (existsb (fun fact => is_function (Some fact)) (operation_facts op) = true) as Ht; [|congruence].
    apply existsb_exists. exists (FactFunction g). split; [by apply list_elem_of_In|done].
Qed.

Lemma mget_inserted fs m k :
  (forall f, f ∈ fs -> k <> fact_id f) -> mget k (inserted fs m) = mget k m.
Proof.
  unfold inserted. revert m. induction fs as [|f fs IH]; intros m Hk; simpl; [done|].
  rewrite IH by set_solver. rewrite mget_mins_ne; [done|]. intros E. apply (Hk f); [set_solver|done].
Qed.

Lemma mget_inserted_in fs m f :
  NoDup (map fact_id fs) -> f ∈ fs -> mget (fact_id f) (inserted fs m) = Some f.
Proof.
  unfold inserted. revert m. induction fs as [|g fs IH]; intros m Hn Hf; [set_solver|].
  cbn [map] in Hn. apply NoDup_cons in Hn as [Hg Hn]. simpl.
  apply elem_of_cons in Hf as [->|Hf]; [|by apply IH].
  fold (inserted fs (mins (fact_id g) g m)). rewrite mget_inserted; [by rewrite mget_mins_eq|].
  intros f Hf E. apply Hg. rewrite E. by apply (list_elem_of_fmap_2 fact_id).
Qed.

Lemma inserted_keyed fs m : keyed m -> keyed (inserted fs m).
Proof. unfold inserted. revert m. induction fs as [|f fs IH]; intros m Hm; simpl; [done|]. by apply IH, keyed_mins. Qed.

Lemma mdel_keyed k m : keyed m -> keyed (mdel k m).
Proof.
  intros [Hs Hk]. split; [by apply mdel_sorted|]. intros k' f. rewrite mget_mdel.
  destruct (oeqb k k'); [done|apply Hk].
Qed.

Lemma keyed_replace e r m : fact_id e = fact_id r -> keyed m -> keyed (mins (fact_id e) r m).
Proof. intros ->. by apply keyed_mins. Qed.

Lemma step_keyed m op m' : valid_operation op -> keyed m -> step m op m' -> keyed m'.
Proof.
  intros Hv Hk Hs. destruct Hs as [fs| e r |f].
  - by apply inserted_keyed.
  - apply keyed_replace; [apply Hv|done].
  - by apply mdel_keyed.
Qed.

(** Facts and spans have the same identities. *)
Definition synced (st : Facts * Spans) : Prop := forall k, is_Some (mget k st.1) <-> is_Some (mget k st.2).

Lemma synced_mins st k f sp : synced st -> synced (mins k f st.1, mins k sp st.2).
Proof. intros Hs k'. simpl. rewrite !mget_mins. destruct (oeqb k k'); [split; eauto|apply Hs]. Qed.

Lemma synced_mdel st k : synced st -> synced (mdel k st.1, mdel k st.2).
Proof. intros Hs k'. simpl. rewrite !mget_mdel. destruct (oeqb k k'); [split; by intros [? ?]|apply Hs]. Qed.

Lemma define_facts_sound i j fs st st' :
  define_facts i j fs st = Ok st' -> st'.1 = inserted fs st.1 /\ (synced st -> synced st').
Proof.
  revert j st. induction fs as [|f fs IH]; intros j st; simpl; [by intros [= <-]|].
  destruct (synthetic_span i j) as [sp|]; simpl; [|done]. intros [H1 H2]%IH. split; [done|].
  intros Hs. by apply H2, synced_mins.
Qed.

Lemma define_facts_total i j fs st :
  0 <= i -> 0 <= j -> i * 1000 + j + Z.of_nat (length fs) <= u32_max ->
  exists st', define_facts i j fs st = Ok st'.
Proof.
  intros Hi. revert j st. induction fs as [|f fs IH]; intros j st Hj Hb; simpl; [eauto|].
  cbn [length] in Hb. destruct (synthetic_span_ok i j) as [sp ->]; [lia..|]. simpl. apply IH; lia.
Qed.

Lemma graph_unused m g id :
  graph_of m g ->
  match dependents g id with Some ds => existsb (fun d => mmem d m) ds = false | None => True end <->
  unused m id.
Proof.
  intros Hg. pose proof (go_dependents m g Hg id) as Hl. unfold unused, dependents, listed in *.
  assert (forall k f ds, mget k m = Some f -> deps m f = Ok ds -> id ∈ ds ->
    exists s, mget id (graph_dependents g) = Some s /\ k ∈ s) as Hin by (intros; apply Hl; eauto).
  destruct (mget id (graph_dependents g)) as [s|].
  - split.
    + intros He k f ds Hf Hds Hid. destruct (Hin k f ds Hf Hds Hid) as (s' & [= <-] & Hk).
      assert (existsb (fun d => mmem d m) s = true) as Ht; [|congruence]. apply existsb_exists. exists k.
      split; [by apply list_elem_of_In|]. apply mmem_true, mget_elem. eauto.
    + intros Hu. destruct (existsb _ s) eqn:E; [|done]. exfalso.
      apply existsb_exists in E as (k & Hk%list_elem_of_In & _).
      destruct (proj1 (Hl k)) as (f & ds & Hf & Hds & Hid); [eauto|]. by apply (Hu k f ds).
  - split; [|done]. intros _ k f ds Hf Hds Hid. by destruct (Hin k f ds Hf Hds Hid) as (s' & ? & _).
Qed.

Lemma replay_operation_sound i st op st' :
  keyed st.1 -> valid_operation op -> replay_operation i st op = Ok st' ->
  step st.1 op st'.1 /\ (synced st -> synced st').
Proof.
  intros Hk Hv. unfold replay_operation. destruct (reject_opaque_function op) as [[]|] eqn:Er; [|done].
  apply reject_iff in Er. destruct op as [fs|e r|f].
  - destruct (existsb _ fs) eqn:Ec; [done|].
    destruct (define_facts i 0 fs st) as [st1|] eqn:Ed; [|done].
    apply define_facts_sound in Ed as [E1 Hsync].
    destruct (validate_inventory st1.1) as [[]|] eqn:Ev; [|done]. intros [= <-].
    apply validate_inventory_iff in Ev; [|rewrite E1; by apply inserted_keyed]. rewrite E1 in *.
    split; [|done]. constructor; [done| |done]. intros f Hf. apply mmem_false.
    destruct (mmem (fact_id f) st.1) eqn:Em; [|done].
    assert (existsb (fun fact => mmem (fact_id fact) st.1) fs = true); [|congruence].
    apply existsb_exists. exists f. split; [by apply list_elem_of_In|done].
  - destruct (decide (mget (fact_id e) st.1 = Some e)) as [He|He];
      [rewrite bool_decide_eq_true_2 by done|by rewrite bool_decide_eq_false_2 by done]. simpl.
    destruct (synthetic_span i 0) as [sp|]; [|done]. simpl.
    destruct (validate_inventory _) as [[]|] eqn:Ev; [|done]. intros [= <-]. simpl.
    apply validate_inventory_iff in Ev; [|apply keyed_replace; [apply Hv|done]].
    split; [by constructor|apply synced_mins].
  - destruct (decide (mget (fact_id f) st.1 = Some f)) as [He|He];
      [rewrite bool_decide_eq_true_2 by done|by rewrite bool_decide_eq_false_2 by done]. simpl.
    destruct (graph_from_facts (mvals st.1)) as [g|] eqn:Eg; [|done]. simpl.
    destruct (graph_of_from _ _ Hk Eg) as [Hall Hg]. pose proof (graph_unused st.1 g (fact_id f) Hg) as Hu.
    destruct (dependents g (fact_id f)) as [ds|]; [destruct (existsb _ ds); [done|]|];
      intros [= <-]; (split; [constructor; try done; by apply Hu|apply synced_mdel]).
Qed.

Definition operation_size (op : SchemaOperation) : Z := Z.of_nat (length (affected_ids op)).

Lemma replay_operation_complete i st op m' :
  keyed st.1 -> valid_operation op -> step st.1 op m' ->
  0 <= i -> i * 1000 + operation_size op <= u32_max ->
  exists spans, replay_operation i st op = Ok (m', spans).
Proof.
  intros Hk Hv Hs Hi Hb. unfold replay_operation, operation_size in *.
  destruct Hs as [fs Ho Hf Hc|e r Ho He Hc|f Ho He Hall Hu];
    rewrite (proj2 (reject_iff _) Ho); cbn [affected_ids] in Hb.
  - destruct (existsb _ fs) eqn:Ec.
    { apply existsb_exists in Ec as (f & Hin%list_elem_of_In & Hm). apply mmem_true, mget_elem in Hm as [g Hg].
      rewrite Hf in Hg by done. done. }
    rewrite length_map in Hb. destruct (define_facts_total i 0 fs st) as [st1 E]; [lia..|]. rewrite E.
    apply define_facts_sound in E as [E1 _].
    rewrite (proj2 (validate_inventory_iff st1.1 ltac:(rewrite E1; by apply inserted_keyed)))
      by (by rewrite E1).
    exists st1.2. rewrite <- E1. by destruct st1.
  - rewrite bool_decide_eq_true_2 by done. simpl in Hb |- *.
    destruct (synthetic_span_ok i 0) as [sp ->]; [lia..|]. simpl.
    rewrite (proj2 (validate_inventory_iff _ (keyed_replace _ _ _ (proj1 Hv) Hk))) by done. eauto.
  - rewrite bool_decide_eq_true_2 by done. simpl.
    destruct (graph_from_facts_ok st.1 Hk Hall) as (g & -> & Hg). simpl.
    apply (graph_unused st.1 g _ Hg) in Hu.
    destruct (dependents g (fact_id f)) as [ds|]; [rewrite Hu|]; eauto.
Qed.

Lemma replay_operations_sound ops i st st' :
  keyed st.1 -> Forall valid_operation ops -> replay_operations i st ops = Ok st' ->
  steps st.1 ops st'.1 /\ keyed st'.1 /\ (synced st -> synced st').
Proof.
  revert i st. induction ops as [|op ops IH]; intros i st Hk Hv; simpl.
  - intros [= <-]. split_and!; [constructor|done..].
  - apply Forall_cons in Hv as [Hv Hvs].
    destruct (replay_operation i st op) as [st1|] eqn:E; [|done].
    apply replay_operation_sound in E as [Hs Hy]; [|done..].
    assert (keyed st1.1) as Hk1 by (by eapply step_keyed).
    intros (H1 & H2 & H3)%IH; [|done..]. split_and!; [by econstructor|done|auto].
Qed.

(** Enough room for the synthetic spans of [ops] from operation [i] on. *)
Fixpoint span_room (i : Z) (ops : list SchemaOperation) : Prop :=
  match ops with
  | [] => True
  | op :: ops => i * 1000 + operation_size op <= u32_max /\ span_room (i + 1) ops
  end.

Lemma replay_operations_complete ops i st m' :
  keyed st.1 -> Forall valid_operation ops -> steps st.1 ops m' -> 0 <= i -> span_room i ops ->
  exists spans, replay_operations i st ops = Ok (m', spans).
Proof.
  revert i st. induction ops as [|op ops IH]; intros i st Hk Hv Hs Hi Hroom; simpl.
  - inversion Hs; subst. exists st.2. by destruct st.
  - apply Forall_cons in Hv as [Hv Hvs]. destruct Hroom as [Hb Hroom].
    inversion Hs as [|? ? m1 ? ? Hone Hrest]; subst.
    destruct (replay_operation_complete i st op m1) as [sp ->]; [done..|]. simpl.
    apply IH; [by eapply step_keyed|done|done|lia|done].
Qed.

(** ** Whole replays *)

(** Every fact has a span, as [DeclaredSchema::from_facts] ensures. *)
Definition spanned (d : DeclaredSchema) : Prop :=
  keyed (facts d) /\ forall k, is_Some (mget k (facts d)) -> is_Some (mget k (provenance d)).

Lemma source_fold (pr : Spans) fs st :
  NoDup (map fact_id fs) -> (forall f, f ∈ fs -> is_Some (mget (fact_id f) pr)) -> synced st ->
  exists st', try_fold (fun st fact =>
      match mget (fact_id fact) pr with
      | Some span => Ok (mins (fact_id fact) fact st.1, mins (fact_id fact) span st.2)
      | None => Err (fail "schema_delta_missing_source_span")
      end) st fs = Ok st' /\ st'.1 = inserted fs st.1 /\ synced st'.
Proof.
  revert st. induction fs as [|f fs IH]; intros st Hn Hp Hs; simpl; [eauto|].
  cbn [map] in Hn. apply NoDup_cons in Hn as [_ Hn]. destruct (Hp f ltac:(set_solver)) as [sp ->].
  destruct (IH (mins (fact_id f) f st.1, mins (fact_id f) sp st.2) Hn) as (st' & E & E1 & Hs');
    [set_solver|by apply synced_mins|]. exists st'. done.
Qed.

Lemma inserted_all m : keyed m -> inserted (mvals m) [] = m.
Proof.
  intros Hk. rewrite <- (mof_keyed m Hk) at 2. unfold inserted, mof.
  generalize (@nil (SchemaFactId * SchemaFact)). generalize (mvals m).
  induction l as [|f l IH]; intros acc; [done|]. simpl. apply IH.
Qed.

Lemma source_state_ok d : spanned d -> exists spans, source_state d = Ok (facts d, spans) /\ synced (facts d, spans).
Proof.
  intros [Hk Hp]. unfold source_state.
  destruct (source_fold (provenance d) (mvals (facts d)) ([], [])) as (st & E & E1 & Hs).
  - by apply keyed_nodup.
  - intros f Hf. apply Hp. apply keyed_elem in Hf; eauto.
  - intros k. split; by intros [? ?].
  - simpl in E1. rewrite inserted_all in E1 by done. exists st.2. rewrite E, <- E1. by destruct st.
Qed.

Lemma replay_spans source ops m spans :
  spanned source -> Forall valid_operation ops -> replay source ops = Ok (m, spans) -> synced (m, spans).
Proof.
  intros Hd Hv. unfold replay. destruct (source_state_ok source Hd) as (sp & -> & Hs). destruct Hd as [Hk _].
  destruct (replay_operations 0 (facts source, sp) ops) as [st|] eqn:E; [|done].
  apply replay_operations_sound in E as (_ & _ & H3); [|done..].
  destruct (validate_inventory st.1) as [[]|]; [|done]. intros [= ->]. by apply H3.
Qed.

Lemma replay_sound source ops m spans :
  spanned source -> Forall valid_operation ops -> replay source ops = Ok (m, spans) ->
  steps (facts source) ops m /\ complete m.
Proof.
  intros Hd Hv. unfold replay. destruct (source_state_ok source Hd) as (sp & -> & Hs). destruct Hd as [Hk _].
  destruct (replay_operations 0 (facts source, sp) ops) as [st|] eqn:E; [|done].
  apply replay_operations_sound in E as (H1 & H2 & _); [|done..].
  destruct (validate_inventory st.1) as [[]|] eqn:Ev; [|done]. apply validate_inventory_iff in Ev; [|done].
  intros [= ->]. done.
Qed.

Lemma replay_complete source ops m :
  spanned source -> Forall valid_operation ops -> span_room 0 ops -> steps (facts source) ops m -> complete m ->
  exists spans, replay source ops = Ok (m, spans).
Proof.
  intros Hd Hv Hroom Hst Hc. unfold replay. destruct (source_state_ok source Hd) as (sp & -> & Hs).
  destruct Hd as [Hk _].
  destruct (replay_operations_complete ops 0 (facts source, sp) m) as [sp' E]; [done..|].
  rewrite E. apply replay_operations_sound in E as (_ & H2 & _); [|done..].
  exists sp'. simpl. by rewrite (proj2 (validate_inventory_iff m H2)).
Qed.

(** C17. Replay is exactly the step relation: on a valid declaration it succeeds
    with an inventory precisely when the operations are steps from the declared
    facts to that complete inventory (definitions fresh, replacements and
    removals matching, every intermediate inventory complete, nothing removed
    that is still used), and every replayed fact then has a source span. *)
Theorem replay_refines_steps source ops m :
  spanned source -> Forall valid_operation ops -> span_room 0 ops ->
  ((exists spans, replay source ops = Ok (m, spans)) <-> (steps (facts source) ops m /\ complete m)) /\
  (forall spans, replay source ops = Ok (m, spans) ->
   forall k, is_Some (mget k m) <-> is_Some (mget k spans)).
Proof.
  intros Hd Hv Hroom. split; [|intros spans H; by apply (replay_spans source ops m spans)]. split.
  - intros [spans H]. by eapply replay_sound.
  - intros [Hst Hc]. by apply replay_complete.
Qed.

Definition declared (l : list SourcedSchemaFact) : DeclaredSchema :=
  declared_schema V1 [] (Schema.fact_map l) (span_map l) example_identity.

Lemma declared_spanned l : NoDup (map sourced_id l) -> spanned (declared l).
Proof.
  intros Hn. split; [by apply fact_map_keyed|]. intros k [f Hf]. simpl in *.
  apply (mget_mof_sourced sourced_fact) in Hf as (s & Hs & <- & _); [|done].
  exists (source s). apply (mget_mof_sourced source); eauto.
Qed.

Definition example_company : TypeId := type_id Entity b#"company".

Lemma replay_refines_steps_w :
  exists m, steps (Schema.fact_map example_facts) [Define [FactType example_company]] m /\ complete m.
Proof.
  destruct (replay (declared example_facts) [Define [FactType example_company]]) as [[m sp]|e] eqn:E;
    [|vm_compute in E; discriminate].
  exists m. apply (replay_refines_steps (declared example_facts)).
  - apply declared_spanned. apply (bool_decide_unpack _). vm_compute. exact I.
  - constructor; [|constructor]. split_and!; [discriminate|vm_compute; discriminate|repeat constructor].
  - split; [vm_compute; discriminate|exact I].
  - exists sp. exact E.
Defined.

End Delta.
