(* ===== verification/PlanReplay.v ===== *)
(** * Planned deltas replay to their target (schema/src/delta.rs and
    schema/src/delta_dependencies.rs)

    The three phases of a plan (definitions in dependency order, replacements,
    removals dependents first) as steps of replay, and the theorem that a
    planned delta replayed on its source gives exactly its target. *)

From S2P Require Import Prelude BTree Text Ident Value Schema Components Ordering SchemaDelta Dependencies Delta.
From Stdlib Require Import Sorted Relation_Operators Operators_Properties.
Import Ident Value Schema Components Ordering SchemaDelta Dependencies Delta.
#[local] Open Scope Z_scope.

Module PlanReplay.

Lemma is_Some_inserted fs m k : is_Some (mget k (inserted fs m)) <-> is_Some (mget k m) \/ k ∈ map fact_id fs.
Proof.
  unfold inserted. revert m. induction fs as [|f fs IH]; intros m; simpl; [set_solver|].
  rewrite IH, mget_mins, elem_of_cons. destruct (oeqb_spec (fact_id f) k) as [->|Hne]; [|naive_solver].
  split; eauto.
Qed.

Lemma inserted_app fs gs m : inserted (fs ++ gs) m = inserted gs (inserted fs m).
Proof. apply fold_left_app. Qed.

Definition deleted (fs : list SchemaFact) (m : Facts) : Facts :=
  fold_left (fun m f => mdel (fact_id f) m) fs m.

Lemma mget_deleted fs m k :
  mget k (deleted fs m) = if decide (k ∈ map fact_id fs) then None else mget k m.
Proof.
  unfold deleted. revert m. induction fs as [|f fs IH]; intros m; simpl.
  - destruct (decide (k ∈ [])); [set_solver|done].
  - rewrite IH, mget_mdel. destruct (oeqb_spec (fact_id f) k) as [->|Hne].
    + rewrite (decide_True (P := k ∈ k :: _)) by set_solver. by destruct (decide _).
    + destruct (decide (k ∈ map fact_id fs)).
      * by rewrite decide_True by set_solver.
      * by rewrite decide_False by set_solver.
Qed.

(** ** From a plan to steps *)

Section between.
Context (s t : Facts) (s_keyed : keyed s) (t_keyed : keyed t).
Context (s_complete : complete s) (t_complete : complete t) (st_stable : stable_pair s t).

(** [f] directly depends on [p], in any inventory between [s] and [t]. *)
Definition needs_fact (f : SchemaFact) (p : SchemaFactId) : Prop := exists ds, deps s f = Ok ds /\ p ∈ ds.

Lemma deps_target f k : mget k t = Some f -> deps t f = deps s f.
Proof. intros Hf. eapply (deps_between s t t); [done..|by apply between_target|eauto]. Qed.

Lemma known_deps k f : mget k s = Some f \/ mget k t = Some f -> exists ds, deps s f = Ok ds.
Proof.
  intros [Hf|Hf].
  - destruct (s_complete k f Hf) as (ds & Hds & _). eauto.
  - destruct (t_complete k f Hf) as (ds & Hds & _). rewrite (deps_target f k Hf) in Hds. eauto.
Qed.

Lemma needs_source k f p : mget k s = Some f -> needs_fact f p -> is_Some (mget p s).
Proof.
  intros Hf (ds & Hds & Hp). destruct (s_complete k f Hf) as (ds' & Hds' & Hall). assert (ds' = ds) as -> by congruence. by apply Hall.
Qed.

Lemma needs_target k f p : mget k t = Some f -> needs_fact f p -> is_Some (mget p t).
Proof.
  intros Hf (ds & Hds & Hp). destruct (t_complete k f Hf) as (ds' & Hds' & Hall).
  rewrite (deps_target f k Hf) in Hds'. assert (ds' = ds) as -> by congruence. by apply Hall.
Qed.

Lemma between_complete m :
  between s t m ->
  complete m <-> forall k f p, mget k m = Some f -> needs_fact f p -> is_Some (mget p m).
Proof.
  intros Hb. split.
  - intros Hc k f p Hf (ds & Hds & Hp). destruct (Hc k f Hf) as (ds' & Hds' & Hall).
    rewrite (deps_between s t m k f) in Hds'; [|done..|by apply Hb]. assert (ds' = ds) as -> by congruence. by apply Hall.
  - intros H k f Hf. pose proof (bt_from s t m Hb k f Hf) as Hst.
    destruct (known_deps k f Hst) as [ds Hds]. exists ds.
    split; [by rewrite (deps_between s t m k f)|]. intros p Hp. apply (H k f p Hf). by exists ds.
Qed.

Lemma between_resolves m : between s t m -> all_resolve m.
Proof.
  intros Hb k f Hf. pose proof (bt_from s t m Hb k f Hf) as Hst.
  destruct (known_deps k f Hst) as [ds Hds]. exists ds. by rewrite (deps_between s t m k f).
Qed.

Lemma between_unused m i :
  between s t m -> unused m i <-> forall k f, mget k m = Some f -> ~ needs_fact f i.
Proof.
  intros Hb. unfold unused. split.
  - intros Hu k f Hf (ds & Hds & Hi). apply (Hu k f ds Hf); [|done].
    by rewrite (deps_between s t m k f); [..|by apply Hb].
  - intros Hu k f ds Hf Hds Hi. apply (Hu k f Hf). exists ds. split; [|done].
    rewrite <- Hds. symmetry. eapply deps_between; [done..|by apply Hb].
Qed.

Lemma between_inserted m fs :
  between s t m -> NoDup (map fact_id fs) -> (forall f, f ∈ fs -> mget (fact_id f) t = Some f) ->
  between s t (inserted fs m).
Proof.
  intros [Hk Hfrom Hkeep] Hn Hfs. split.
  - by apply inserted_keyed.
  - intros k f Hf. destruct (decide (k ∈ map fact_id fs)) as [Hin|Hin].
    + apply list_elem_of_fmap in Hin as (g & -> & Hg). rewrite mget_inserted_in in Hf by done. simplify_eq. auto.
    + rewrite mget_inserted in Hf; [auto|]. intros g Hg ->. apply Hin. by apply (list_elem_of_fmap_2 fact_id).
  - intros k Hs Ht. destruct (decide (k ∈ map fact_id fs)) as [Hin|Hin].
    + apply list_elem_of_fmap in Hin as (g & -> & Hg). rewrite mget_inserted_in by done. eauto.
    + rewrite mget_inserted; [auto|]. intros g Hg ->. apply Hin. by apply (list_elem_of_fmap_2 fact_id).
Qed.

Lemma complete_inserted m fs :
  between s t m -> complete m -> NoDup (map fact_id fs) ->
  (forall f, f ∈ fs -> mget (fact_id f) t = Some f) ->
  (forall f p, f ∈ fs -> needs_fact f p -> is_Some (mget p m) \/ p ∈ map fact_id fs) ->
  complete (inserted fs m).
Proof.
  intros Hb Hc Hn Hfs Hneed. apply between_complete; [by apply between_inserted|].
  intros k f p Hf Hp. rewrite is_Some_inserted. destruct (decide (k ∈ map fact_id fs)) as [Hin|Hin].
  - apply list_elem_of_fmap in Hin as (g & -> & Hg). rewrite mget_inserted_in in Hf by done. simplify_eq. eauto.
  - rewrite mget_inserted in Hf; [|intros g Hg ->; apply Hin; by apply (list_elem_of_fmap_2 fact_id)].
    left. eapply between_complete; eauto.
Qed.

(** Phase one: new facts in dependency order. *)
Lemma define_steps groups :
  NoDup (map fact_id (concat groups)) ->
  (forall f, f ∈ concat groups ->
     mget (fact_id f) t = Some f /\ mget (fact_id f) s = None /\ ~ is_function_fact f) ->
  (forall pre g post, groups = pre ++ g :: post -> forall f p, f ∈ g -> needs_fact f p ->
     is_Some (mget p s) \/ p ∈ map fact_id (concat pre) \/ p ∈ map fact_id g) ->
  steps s (map Define groups) (inserted (concat groups) s) /\
  between s t (inserted (concat groups) s) /\ complete (inserted (concat groups) s).
Proof.
  induction groups as [|g groups IH] using rev_ind; intros Hn Hfs Hord.
  - simpl. split_and!; [constructor|by apply between_source|done].
  - rewrite concat_app in *. simpl in *. rewrite app_nil_r in *. rewrite map_app in Hn.
    apply NoDup_app in Hn as (Hn & Hdis & Hg).
    destruct IH as (Hst & Hb & Hc); [done|intros f Hf; apply Hfs; set_solver| |].
    { intros pre g' post ->. apply (Hord pre g' (post ++ [g])). by rewrite <- app_assoc. }
    rewrite inserted_app.
    assert (between s t (inserted g (inserted (concat groups) s))) as Hb'.
    { apply between_inserted; [done..|]. intros f Hf. apply Hfs. set_solver. }
    assert (complete (inserted g (inserted (concat groups) s))) as Hc'.
    { apply complete_inserted; [done..| |].
      - intros f Hf. apply Hfs. set_solver.
      - intros f p Hf Hp. rewrite is_Some_inserted.
        destruct (Hord groups g [] eq_refl f p Hf Hp) as [?|[?|?]]; auto. }
    split_and!; [|done..]. rewrite map_app. simpl. eapply steps_app; [done|].
    econstructor; [|constructor]. constructor; [|..|done].
    + intros f Hf. apply Hfs. set_solver.
    + intros f Hf. destruct (mget (fact_id f) (inserted (concat groups) s)) eqn:E; [|done]. exfalso.
      destruct (proj1 (is_Some_inserted (concat groups) s (fact_id f))) as [Hin|Hin]; [by rewrite E|..].
      * destruct (Hfs f) as (_ & Hnone & _); [set_solver|]. rewrite Hnone in Hin. by destruct Hin.
      * apply (Hdis (fact_id f) Hin). by apply (list_elem_of_fmap_2 fact_id).
Qed.

(** Phase two: replacements, once every identity of [t] is present. *)
Lemma redefine_steps m pairs :
  between s t m -> complete m -> (forall k, is_Some (mget k t) -> is_Some (mget k m)) ->
  NoDup (map (fun p => fact_id p.1) pairs) ->
  (forall e r, (e, r) ∈ pairs -> fact_id e = fact_id r /\ mget (fact_id e) m = Some e /\
     mget (fact_id r) t = Some r /\ ~ is_function_fact e /\ ~ is_function_fact r) ->
  steps m (map (fun p => Redefine p.1 p.2) pairs) (inserted (map snd pairs) m) /\
  between s t (inserted (map snd pairs) m) /\ complete (inserted (map snd pairs) m).
Proof.
  intros Hb Hc Hall Hn Hp. revert m Hb Hc Hall Hp. induction pairs as [|[e r] pairs IH]; intros m Hb Hc Hall Hp.
  - simpl. split_and!; [constructor|done..].
  - cbn [map fst snd] in *. apply NoDup_cons in Hn as [He Hn].
    destruct (Hp e r) as (Hid & Hme & Htr & Hfe & Hfr); [set_solver|].
    assert (between s t (inserted [r] m)) as Hb1.
    { apply between_inserted; [done|apply NoDup_singleton|]. intros f ->%list_elem_of_singleton. done. }
    assert (complete (inserted [r] m)) as Hc1.
    { apply complete_inserted; [done..|apply NoDup_singleton| |].
      - intros f ->%list_elem_of_singleton. done.
      - intros f p ->%list_elem_of_singleton Hpn. left. apply Hall. by eapply needs_target. }
    destruct (IH Hn (inserted [r] m) Hb1 Hc1) as (Hst & Hb2 & Hc2).
    + intros k Hk. rewrite is_Some_inserted. auto.
    + intros e' r' Hin. destruct (Hp e' r') as (Hid' & Hme' & Hrest); [set_solver|]. split_and!; [done| |apply Hrest..].
      rewrite mget_inserted; [done|]. intros f ->%list_elem_of_singleton Heq. apply He.
      rewrite Hid, <- Heq. by apply (list_elem_of_fmap_2 (fun p => fact_id p.1) _ (e', r')).
    + split_and!; [|done..]. econstructor; [|exact Hst].
      change (inserted [r] m) with (mins (fact_id r) r m) in *. rewrite <- Hid in *. constructor; [|done..].
      intros f [->| ->%list_elem_of_singleton]%elem_of_cons; done.
Qed.

(** Phase three: removals, dependents first. *)
Lemma undefine_steps m fs :
  between s t m -> NoDup (map fact_id fs) ->
  (forall f, f ∈ fs -> mget (fact_id f) m = Some f /\ mget (fact_id f) t = None /\ ~ is_function_fact f) ->
  (forall k f, mget k m = Some f -> mget k t = Some f \/ f ∈ fs) ->
  (forall pre f post, fs = pre ++ f :: post -> forall g, g ∈ f :: post -> ~ needs_fact g (fact_id f)) ->
  steps m (map Undefine fs) (deleted fs m).
Proof.
  intros Hb Hn. revert m Hb. induction fs as [|f fs IH]; intros m Hb Hfs Hrest Hord; [constructor|].
  cbn [map] in *. apply NoDup_cons in Hn as [Hf Hn].
  destruct (Hfs f) as (Hm & Ht & Hfun); [set_solver|]. econstructor.
  - constructor; [|done|by apply between_resolves|].
    + intros g ->%list_elem_of_singleton. done.
    + apply between_unused; [done|]. intros k g Hg Hneed. destruct (Hrest k g Hg) as [Hgt|Hgf].
      * destruct (needs_target k g (fact_id f) Hgt Hneed) as [? ?]. congruence.
      * by apply (Hord [] f fs eq_refl g).
  - apply IH; [done| | | |].
    + destruct Hb as [Hk Hfrom Hkeep]. split; [by apply mdel_keyed| |].
      * intros k g. rewrite mget_mdel. destruct (oeqb _ _); [done|apply Hfrom].
      * intros k Hks Hkt. rewrite mget_mdel. destruct (oeqb_spec (fact_id f) k) as [<-|]; [|auto].
        rewrite Ht in Hkt. by destruct Hkt.
    + intros g Hg. destruct (Hfs g) as (? & ? & ?); [set_solver|]. split_and!; [|done..].
      rewrite mget_mdel. destruct (oeqb_spec (fact_id f) (fact_id g)) as [E|]; [|done].
      exfalso. apply Hf. rewrite E. by apply (list_elem_of_fmap_2 fact_id).
    + intros k g. rewrite mget_mdel. destruct (oeqb_spec (fact_id f) k) as [|Hne]; [done|]. intros Hg.
      destruct (Hrest k g Hg) as [?|[->|?]%elem_of_cons]; [by left| |by right].
      destruct (keyed_get m k f (bt_keyed _ _ _ Hb) Hg). congruence.
    + intros pre g post -> . apply (Hord (f :: pre) g post). done.
Qed.

(** The three phases together reach [t]. *)
Lemma phases_reach groups pairs fs :
  NoDup (map fact_id (concat groups)) ->
  (forall f, f ∈ concat groups -> mget (fact_id f) t = Some f) ->
  (forall k, k ∈ map fact_id (concat groups) <-> mget k s = None /\ is_Some (mget k t)) ->
  NoDup (map (fun p => fact_id p.1) pairs) ->
  (forall e r, (e, r) ∈ pairs -> fact_id e = fact_id r /\ mget (fact_id r) t = Some r) ->
  (forall k, k ∈ map (fun p => fact_id p.1) pairs <->
     is_Some (mget k s) /\ is_Some (mget k t) /\ mget k s <> mget k t) ->
  (forall k, k ∈ map fact_id fs <-> is_Some (mget k s) /\ mget k t = None) ->
  deleted fs (inserted (map snd pairs) (inserted (concat groups) s)) = t.
Proof.
  intros Hgn Hg Hgk Hpn Hp Hpk Hfk.
  assert (map fact_id (map snd pairs) = map (fun p => fact_id p.1) pairs) as Hids.
  { rewrite map_map. apply map_ext_in. intros [e r] Hin%list_elem_of_In. simpl. symmetry. by apply Hp. }
  apply msorted_ext.
  - assert (forall l m, msorted m -> msorted (deleted l m)) as Hd.
    { induction l as [|f l IH]; intros m Hm; simpl; [done|]. by apply IH, mdel_sorted. }
    apply Hd. by apply inserted_keyed, inserted_keyed.
  - apply t_keyed.
  - intros k. rewrite mget_deleted. destruct (decide (k ∈ map fact_id fs)) as [Hkf|Hkf].
    { rewrite Hfk in Hkf. by destruct Hkf as [_ ->]. }
    destruct (decide (k ∈ map fact_id (map snd pairs))) as [Hkp|Hkp].
    { apply list_elem_of_fmap in Hkp as (r & -> & Hr). rewrite mget_inserted_in by (by rewrite ?Hids).
      apply (list_elem_of_fmap snd) in Hr as ([e r'] & -> & Hin). symmetry. by apply (Hp e r'). }
    rewrite (mget_inserted (map snd pairs))
      by (intros f Hf ->; apply Hkp; by apply (list_elem_of_fmap_2 fact_id)).
    destruct (decide (k ∈ map fact_id (concat groups))) as [Hkg|Hkg].
    { apply list_elem_of_fmap in Hkg as (f & -> & Hf). rewrite mget_inserted_in by done. symmetry. auto. }
    rewrite mget_inserted by (intros f Hf ->; apply Hkg; by apply (list_elem_of_fmap_2 fact_id)).
    rewrite Hids in Hkp. rewrite Hpk in Hkp. rewrite Hfk in Hkf. rewrite Hgk in Hkg.
    destruct (mget k s) as [f|] eqn:Es, (mget k t) as [g|] eqn:Et; try done.
    + destruct (decide (f = g)) as [->|Hne]; [done|]. destruct Hkp. split_and!; [eauto..|congruence].
    + destruct Hkf. eauto.
    + destruct Hkg. eauto.
Qed.
End between.

(** ** The plan *)

Lemma sort_by_id_sorted fs : ssorted (map fact_id fs) -> sort_by_id fs = fs.
Proof.
  unfold sort_by_id. induction fs as [|f fs IH]; intros Hs; [done|]. cbn [map] in Hs.
  inversion Hs as [|? ? Hs' Hall]; subst. simpl. rewrite IH by done.
  destruct fs as [|g fs]; [done|]. simpl. apply Forall_cons in Hall as [Hlt _].
  change (@cmp _ (ord_by fact_id) f g) with (cmp (fact_id f) (fact_id g)). by rewrite Hlt.
Qed.

Lemma define_sorted fs :
  fs <> [] -> ssorted (map fact_id fs) -> Z.of_nat (length fs) <= MAX_CANONICAL_COLLECTION_LEN ->
  define fs = Ok (Define fs).
Proof.
  intros Hn Hs Hl. apply define_ok. split_and!; [done..|by apply ssorted_NoDup|].
  by rewrite sort_by_id_sorted.
Qed.

Lemma facts_at_ok m ids :
  keyed m -> (forall i, i ∈ ids -> is_Some (mget i m)) ->
  exists fs, facts_at m ids = Some fs /\ map fact_id fs = ids /\ forall f, f ∈ fs -> mget (fact_id f) m = Some f.
Proof.
  intros Hk. unfold facts_at. induction ids as [|i ids IH]; intros Hall.
  - exists []. split_and!; [done..|set_solver].
  - destruct IH as (fs & E & Hids & Hfs); [set_solver|]. destruct (Hall i ltac:(set_solver)) as [f Hf].
    exists (f :: fs). cbn [mapM]. rewrite Hf, E. simpl. destruct (keyed_get m i f Hk Hf) as [-> _].
    split_and!; [done|by rewrite Hids|]. intros g [->|Hg]%elem_of_cons; auto.
Qed.

Lemma facts_at_groups m comps :
  keyed m -> (forall i, i ∈ concat comps -> is_Some (mget i m)) ->
  exists groups, mapM (facts_at m) comps = Some groups /\ map (map fact_id) groups = comps /\
    forall f, f ∈ concat groups -> mget (fact_id f) m = Some f.
Proof.
  intros Hk. induction comps as [|c comps IH]; intros Hall.
  - exists []. split_and!; [done..|set_solver].
  - destruct IH as (groups & E & Hids & Hgs); [set_solver|].
    destruct (facts_at_ok m c Hk) as (fs & Ec & Hc & Hfs); [set_solver|].
    exists (fs :: groups). cbn [mapM]. rewrite Ec, E. simpl. split_and!; [done|by rewrite Hc, Hids|].
    intros f [Hf|Hf]%elem_of_app; auto.
Qed.

Lemma try_map_all {A B} (h : A -> result Diagnostic B) (g : A -> B) l :
  (forall a, a ∈ l -> h a = Ok (g a)) -> try_map h l = Ok (map g l).
Proof.
  induction l as [|a l IH]; intros H; [done|]. cbn [try_map map]. rewrite H by set_solver.
  rewrite IH by set_solver. done.
Qed.

Lemma concat_map_ids (groups : list (list SchemaFact)) :
  map fact_id (concat groups) = concat (map (map fact_id) groups).
Proof. by rewrite concat_map. Qed.

(** [i] directly depends on [j] in [m]. *)
Definition requires (m : Facts) (i j : SchemaFactId) : Prop :=
  exists f ds, mget i m = Some f /\ deps m f = Ok ds /\ j ∈ ds.

Definition acyclic (m : Facts) : Prop := forall i, ~ clos_trans _ (requires m) i i.

Lemma dependencies_requires m g i w : graph_of m g -> w ∈ dependencies g i <-> requires m i w.
Proof.
  intros Hg. unfold dependencies, requires. destruct (mget i (graph_dependencies g)) as [ds|] eqn:E.
  - apply (go_deps m g Hg) in E as (f & Hf & Hds). split; [eauto|].
    intros (f' & ds' & Hf' & Hds' & Hw). assert (ds' = ds) as -> by congruence. done.
  - split; [set_solver|]. intros (f & ds & Hf & Hds & Hw).
    assert (mget i (graph_dependencies g) = Some ds) by (apply (go_deps m g Hg); eauto). congruence.
Qed.

Lemma reach_requires m g nodes x y :
  graph_of m g -> reach (dependencies g) nodes x y -> x = y \/ clos_trans _ (requires m) x y.
Proof.
  intros Hg. induction 1 as [x y He|x|x y z _ [->|IH1] _ [->|IH2]]; auto.
  - right. constructor. apply (dependencies_requires m g _ _ Hg).
    unfold edge, neighbors in He. by apply list_elem_of_filter in He as [_ He].
  - right. by eapply t_trans.
Qed.

Lemma acyclic_singletons m g nodes comps :
  graph_of m g -> acyclic m -> connected (dependencies g) nodes comps ->
  (forall c, c ∈ comps -> c <> [] /\ ssorted c) -> comps = map (fun x => [x]) (concat comps).
Proof.
  intros Hg Ha Hc Hs. induction comps as [|c comps IH]; [done|].
  destruct (Hs c) as [Hne Hsort]; [set_solver|]. destruct c as [|x [|y c]]; [done| |exfalso].
  { simpl. f_equal. apply IH; [intros c' x' y Hc'; apply Hc; set_solver|intros c' Hc'; apply Hs; set_solver]. }
  assert (x <> y) as Hxy.
  { inversion Hsort as [|? ? _ Hall]; subst. apply Forall_cons in Hall as [Hlt _]. by apply cmp_lt_ne. }
  destruct (reach_requires m g nodes x y Hg) as [?|H1]; [apply (Hc (x :: y :: c)); set_solver|done|].
  destruct (reach_requires m g nodes y x Hg) as [?|H2]; [apply (Hc (x :: y :: c)); set_solver|done|].
  apply (Ha x). by eapply t_trans.
Qed.

(** In the reverse of a dependency order nothing is removed before what needs it. *)
Lemma removal_order m g nodes comps pre x post y :
  graph_of m g -> acyclic m -> greedy (dependencies g) nodes comps ->
  comps = map (fun x => [x]) (concat comps) -> concat comps ≡ₚ nodes -> NoDup nodes ->
  rev (concat comps) = pre ++ x :: post -> y ∈ x :: post -> ~ requires m y x.
Proof.
  intros Hg Ha Hgr Hone Hp Hnd E Hy Hreq. apply elem_of_cons in Hy as [->|Hy].
  { apply (Ha x). by constructor. }
  assert (concat comps = rev post ++ x :: rev pre) as El.
  { rewrite <- (rev_involutive (concat comps)), E, rev_app_distr. simpl. by rewrite <- app_assoc. }
  assert (y ∈ rev post) as Hy' by (rewrite elem_of_rev; done).
  apply list_elem_of_split in Hy' as (a & b & Eab). rewrite Eab in El.
  assert (NoDup (concat comps)) as Hndc by (by rewrite Hp).
  rewrite El in Hone. rewrite <- app_assoc, map_app in Hone. cbn [map app] in Hone.
  destruct (Hgr _ _ _ Hone) as [Hem _].
  destruct (Hem y x) as [Hx|Hx]; [set_solver|by apply (dependencies_requires m g)| | |].
  - rewrite <- Hp, El. set_solver.
  - rewrite El, <- app_assoc in Hndc. apply NoDup_app in Hndc as (_ & Hdis & _). apply (Hdis x); [|set_solver].
    clear -Hx. induction a as [|z a IH]; set_solver.
  - apply list_elem_of_singleton in Hx as ->. apply (Ha y). by constructor.
Qed.

Lemma rev_concat {A} (l : list (list A)) : concat (map (@rev A) (rev l)) = rev (concat l).
Proof.
  induction l as [|c l IH]; [done|]. simpl. rewrite map_app, concat_app, IH, rev_app_distr. simpl.
  by rewrite app_nil_r.
Qed.

Lemma span_room_bound i ops :
  0 <= i -> i + Z.of_nat (length ops) <= 4000000 ->
  (forall op, op ∈ ops -> operation_size op <= MAX_CANONICAL_COLLECTION_LEN) -> span_room i ops.
Proof.
  unfold MAX_CANONICAL_COLLECTION_LEN. revert i.
  induction ops as [|op ops IH]; intros i Hi Hl Hop; [done|]. cbn [length] in Hl. split.
  - specialize (Hop op ltac:(set_solver)). unfold u32_max. lia.
  - apply IH; [lia..|]. intros op' Hin. apply Hop. set_solver.
Qed.

Lemma concat_length_le {A} (l : list (list A)) :
  (forall c, c ∈ l -> c <> []) -> (length l <= length (concat l))%nat.
Proof.
  induction l as [|c l IH]; intros Hn; [done|]. simpl. rewrite length_app.
  assert (length c <> 0)%nat by (intros E%nil_length_inv; by apply (Hn c); [set_solver|]).
  specialize (IH ltac:(set_solver)). lia.
Qed.

Lemma subset_length (l : list SchemaFactId) (m : Facts) :
  NoDup l -> (forall k, k ∈ l -> is_Some (mget k m)) -> (length l <= length m)%nat.
Proof.
  intros Hn Hin. rewrite <- (length_map fst m). apply submseteq_length, NoDup_submseteq; [done|].
  intros k Hk. apply mget_elem. auto.
Qed.

Lemma combine_ids (es rs : list SchemaFact) e r :
  map fact_id es = map fact_id rs -> (e, r) ∈ combine es rs -> fact_id e = fact_id r /\ e ∈ es /\ r ∈ rs.
Proof.
  revert rs. induction es as [|e' es IH]; intros [|r' rs] Hei Hin; cbn [map combine] in *; try set_solver.
Qed.

Lemma combine_fst_ids (es rs : list SchemaFact) :
  length es = length rs -> map (fun p => fact_id p.1) (combine es rs) = map fact_id es.
Proof. revert rs. induction es as [|e es IH]; intros [|r rs] Hlen; try done. simpl. f_equal. apply IH. by injection Hlen. Qed.

(** ** Planning and replaying *)

Section plan.
Context (source target : DeclaredSchema).

(** What planning and replay need of the two declarations. The first
    three conditions are what [from_facts] and the completeness check give; the
    collection limit is that of a managed selection. *)
Record plannable : Prop := {
  pl_source : spanned source;
  pl_target : keyed (facts target);
  pl_source_complete : complete (facts source);
  pl_target_complete : complete (facts target);
  pl_stable : stable_pair (facts source) (facts target);
  pl_acyclic : acyclic (facts source);
  pl_functions : forall k f, mget k (facts source) = Some f \/ mget k (facts target) = Some f ->
    is_function_fact f -> mget k (facts source) = mget k (facts target);
  pl_source_size : Z.of_nat (length (facts source)) <= MAX_CANONICAL_COLLECTION_LEN;
  pl_target_size : Z.of_nat (length (facts target)) <= MAX_CANONICAL_COLLECTION_LEN }.

Context (H : plannable).
#[local] Abbreviation s := (facts source).
#[local] Abbreviation t := (facts target).

Lemma s_keyed : keyed s. Proof. apply H. Qed.
Lemma t_keyed : keyed t. Proof. apply H. Qed.

Definition added_ids : BTreeSet SchemaFactId := sdiff (mkeys t) (mkeys s).
Definition dropped_ids : BTreeSet SchemaFactId := sdiff (mkeys s) (mkeys t).
Definition changed_ids : BTreeSet SchemaFactId :=
  base.filter (fun i => mget i s <> mget i t) (sinter (mkeys s) (mkeys t)).

Lemma elem_added k : k ∈ added_ids <-> mget k s = None /\ is_Some (mget k t).
Proof. unfold added_ids. rewrite elem_sdiff, <- mget_mkeys. unfold mkeys. rewrite <- mget_None. tauto. Qed.

Lemma elem_dropped k : k ∈ dropped_ids <-> is_Some (mget k s) /\ mget k t = None.
Proof. unfold dropped_ids. rewrite elem_sdiff, <- mget_mkeys. unfold mkeys. rewrite <- mget_None. tauto. Qed.

Lemma elem_changed k :
  k ∈ changed_ids <-> is_Some (mget k s) /\ is_Some (mget k t) /\ mget k s <> mget k t.
Proof. unfold changed_ids. rewrite list_elem_of_filter, elem_sinter, <- !mget_mkeys. tauto. Qed.

Lemma no_function k f :
  mget k s = Some f \/ mget k t = Some f -> mget k s <> mget k t -> ~ is_function_fact f.
Proof. intros Hf Hne Hfun. apply Hne. by eapply pl_functions. Qed.

Lemma added_plan gt :
  graph_of t gt ->
  exists comps groups, ordered_components (dependencies gt) added_ids = Some comps /\
    define_operations t comps = Some (Ok (map Define groups)) /\
    map fact_id (concat groups) ≡ₚ added_ids /\
    (forall g, g ∈ groups -> valid_operation (Define g)) /\
    (forall f, f ∈ concat groups -> mget (fact_id f) t = Some f) /\
    (forall pre g post, groups = pre ++ g :: post -> forall f p, f ∈ g -> requires t (fact_id f) p ->
       mget p s = None -> p ∈ map fact_id (concat pre) \/ p ∈ map fact_id g) /\
    (acyclic t -> forall g, g ∈ groups -> exists f, g = [f]).
Proof.
  intros Hg. assert (ssorted added_ids) as Hsort by (apply sdiff_sorted, mkeys_sorted, t_keyed).
  destruct (ordered_components_spec (dependencies gt) added_ids Hsort) as (comps & E & Hp & Hs & Hcon & Hgr).
  destruct (facts_at_groups t comps t_keyed) as (groups & Eg & Hids & Hfs).
  { intros i. rewrite Hp. intros Hi%elem_added. apply Hi. }
  assert (forall g, g ∈ groups -> valid_operation (Define g)) as Hvalid.
  { intros g Hgin. assert (map fact_id g ∈ comps) as Hc by (rewrite <- Hids; by apply (list_elem_of_fmap_2 (map fact_id))).
    destruct (Hs _ Hc) as [Hne Hgs]. split_and!; [by intros ->| |done].
    etrans; [|apply (pl_target_size H)]. apply inj_le. rewrite <- (length_map fact_id).
    apply subset_length; [by apply ssorted_NoDup|]. intros k Hk.
    assert (k ∈ added_ids) as Ha; [|apply elem_added in Ha; tauto].
    rewrite <- Hp, elem_concat. eauto. }
  exists comps, groups. split_and!; [done| | |done|done| |].
  - unfold define_operations. rewrite Eg. f_equal. apply try_map_all. intros g Hgin.
    destruct (Hvalid g Hgin) as (? & ? & ?). by apply define_sorted.
  - by rewrite concat_map_ids, Hids.
  - intros pre g post -> f p Hf Hreq Hps. rewrite map_app in Hids. cbn [map] in Hids. symmetry in Hids.
    destruct (Hgr _ _ _ Hids) as [Hem _]. rewrite concat_map_ids. apply (Hem (fact_id f)).
    + by apply (list_elem_of_fmap_2 fact_id).
    + by apply (dependencies_requires t gt).
    + apply elem_added. split; [done|]. destruct Hreq as (f' & ds & Hf' & Hds & Hpd).
      destruct (pl_target_complete H _ _ Hf') as (ds' & Hds' & Hall).
      assert (ds' = ds) as -> by congruence. by apply Hall.
  - intros Ha g Hgin. pose proof (acyclic_singletons t gt added_ids comps Hg Ha Hcon Hs) as Hone.
    assert (map fact_id g ∈ comps) as Hc by (rewrite <- Hids; by apply (list_elem_of_fmap_2 (map fact_id))).
    rewrite Hone in Hc. apply (list_elem_of_fmap (fun x => [x])) in Hc as (x & Ex & _).
    destruct g as [|f [|? ?]]; try done. eauto.
Qed.

Lemma changed_plan gt :
  graph_of t gt ->
  exists comps pairs, ordered_components (dependencies gt) changed_ids = Some comps /\
    redefine_operations s t comps = Some (Ok (map (fun p => Redefine p.1 p.2) pairs)) /\
    map (fun p => fact_id p.1) pairs ≡ₚ changed_ids /\
    (forall e r, (e, r) ∈ pairs -> fact_id e = fact_id r /\ e <> r /\
       mget (fact_id e) s = Some e /\ mget (fact_id r) t = Some r).
Proof.
  intros Hg. assert (ssorted changed_ids) as Hsort
    by (apply filter_sorted, sinter_sorted, mkeys_sorted, s_keyed).
  destruct (ordered_components_spec (dependencies gt) changed_ids Hsort) as (comps & E & Hp & _).
  destruct (facts_at_ok s (concat comps) s_keyed) as (es & Ee & Hei & Hes).
  { intros i. rewrite Hp. intros Hi%elem_changed. apply Hi. }
  destruct (facts_at_ok t (concat comps) t_keyed) as (rs & Er & Hri & Hrs).
  { intros i. rewrite Hp. intros Hi%elem_changed. apply Hi. }
  assert (length es = length rs) as Hlen by (rewrite <- (length_map fact_id es), Hei, <- Hri; apply length_map).
  assert (forall e r, (e, r) ∈ combine es rs -> fact_id e = fact_id r /\ e <> r /\
       mget (fact_id e) s = Some e /\ mget (fact_id r) t = Some r) as Hpairs.
  { intros e r Hin. destruct (combine_ids es rs e r) as (Hid & He & Hr); [congruence|done|].
    split_and!; [done| |auto..]. intros ->.
    assert (fact_id r ∈ changed_ids) as Hc.
    { rewrite <- Hp, <- Hri. by apply (list_elem_of_fmap_2 fact_id). }
    apply elem_changed in Hc as (_ & _ & Hne). rewrite (Hes r He), (Hrs r Hr) in Hne. done. }
  exists comps, (combine es rs). split_and!; [done| | |done].
  - unfold redefine_operations. rewrite Ee, Er. f_equal. apply try_map_all. intros [e r] Hin.
    destruct (Hpairs e r Hin) as (? & ? & _). by apply redefine_ok.
  - by rewrite <- Hp, <- Hei, combine_fst_ids.
Qed.

Lemma dropped_plan gs :
  graph_of s gs ->
  exists comps fs, ordered_components (dependencies gs) dropped_ids = Some comps /\
    undefine_operations s comps = Some (map Undefine fs) /\
    map fact_id fs ≡ₚ dropped_ids /\
    (forall f, f ∈ fs -> mget (fact_id f) s = Some f) /\
    (forall pre f post, fs = pre ++ f :: post -> forall g, g ∈ f :: post -> ~ requires s (fact_id g) (fact_id f)).
Proof.
  intros Hg. assert (ssorted dropped_ids) as Hsort by (apply sdiff_sorted, mkeys_sorted, s_keyed).
  destruct (ordered_components_spec (dependencies gs) dropped_ids Hsort) as (comps & E & Hp & Hs & Hc & Hgr).
  assert (comps = map (fun x => [x]) (concat comps)) as Hone.
  { eapply (acyclic_singletons s gs); [done|apply H|done|done]. }
  destruct (facts_at_ok s (rev (concat comps)) s_keyed) as (fs & Ef & Hids & Hfs).
  { intros i. rewrite elem_of_rev, Hp. intros Hi%elem_dropped. apply Hi. }
  exists comps, fs. split_and!; [done| | |done|].
  - unfold undefine_operations. by rewrite rev_concat, Ef.
  - by rewrite Hids, <- Permutation_rev.
  - intros pre f post -> g Hgin. rewrite map_app in Hids. cbn [map] in Hids. symmetry in Hids.
    eapply (removal_order s gs dropped_ids comps); [done|apply H|done|done|done|by apply ssorted_NoDup|done|].
    change (fact_id f :: map fact_id post) with (map fact_id (f :: post)). by apply (list_elem_of_fmap_2 fact_id).
Qed.

Lemma changed_no_function i :
  i ∈ added_ids ++ dropped_ids ++ changed_ids ->
  is_function (match mget i s with Some f => Some f | None => mget i t end) = false.
Proof.
  intros Hi. assert (mget i s <> mget i t) as Hne.
  { rewrite !elem_of_app, elem_added, elem_dropped, elem_changed in Hi.
    destruct Hi as [[-> [? ->]]|[[[? ->] ->]|(_ & _ & ?)]]; done. }
  assert (forall f, mget i s = Some f \/ mget i t = Some f -> is_function (Some f) = false) as Hf.
  { intros f Hf. destruct (is_function (Some f)) eqn:E; [|done]. destruct (no_function i f Hf Hne).
    destruct f; try done. by eexists. }
  destruct (mget i s) as [f|] eqn:Es; [by apply Hf; left|].
  destruct (mget i t) as [f|] eqn:Et; [by apply Hf; right|done].
Qed.

Lemma plan_equation gs gt ac rc dc defs reds unds :
  graph_from_facts (mvals s) = Ok gs -> graph_from_facts (mvals t) = Ok gt ->
  ordered_components (dependencies gt) added_ids = Some ac -> define_operations t ac = Some (Ok defs) ->
  ordered_components (dependencies gt) changed_ids = Some rc -> redefine_operations s t rc = Some (Ok reds) ->
  ordered_components (dependencies gs) dropped_ids = Some dc -> undefine_operations s dc = Some unds ->
  plan_schema_operations source target = Some (Ok (defs ++ reds ++ unds)).
Proof.
  intros Egs Egt Eac Edef Erc Ered Edc Eund.
  destruct (graph_of_from s gs s_keyed Egs) as [Hsa Hgs], (graph_of_from t gt t_keyed Egt) as [Hta Hgt].
  unfold plan_schema_operations. rewrite !declared_fact_map_keyed by (apply s_keyed || apply t_keyed).
  rewrite Egs, Egt, (proj2 (validate_complete_iff s gs Hsa Hgs) (pl_source_complete H)).
  rewrite (proj2 (validate_complete_iff t gt Hta Hgt) (pl_target_complete H)).
  fold added_ids dropped_ids changed_ids.
  rewrite (proj1 (not_true_iff_false (existsb _ _))).
  - by rewrite Eac, Erc, Edc, Edef, Ered, Eund.
  - intros (i & Hi%list_elem_of_In & Hf)%existsb_exists. by rewrite changed_no_function in Hf.
Qed.

(** *** The planned phases as steps of replay *)

Section phases.
Context (groups : list (list SchemaFact)) (pairs : list (SchemaFact * SchemaFact)) (fs : list SchemaFact).
Context (Hgp : map fact_id (concat groups) ≡ₚ added_ids).
Context (Hgf : forall f, f ∈ concat groups -> mget (fact_id f) t = Some f).
Context (Hgo : forall pre g post, groups = pre ++ g :: post -> forall f p, f ∈ g ->
  requires t (fact_id f) p -> mget p s = None -> p ∈ map fact_id (concat pre) \/ p ∈ map fact_id g).
Context (Hpp : map (fun p => fact_id p.1) pairs ≡ₚ changed_ids).
Context (Hpf : forall e r, (e, r) ∈ pairs -> fact_id e = fact_id r /\ e <> r /\
  mget (fact_id e) s = Some e /\ mget (fact_id r) t = Some r).
Context (Hfp : map fact_id fs ≡ₚ dropped_ids).
Context (Hff : forall f, f ∈ fs -> mget (fact_id f) s = Some f).
Context (Hfo : forall pre f post, fs = pre ++ f :: post -> forall g, g ∈ f :: post ->
  ~ requires s (fact_id g) (fact_id f)).

Lemma groups_nodup : NoDup (map fact_id (concat groups)).
Proof. rewrite Hgp. apply ssorted_NoDup, sdiff_sorted, mkeys_sorted, t_keyed. Qed.

Lemma pairs_nodup : NoDup (map (fun p => fact_id p.1) pairs).
Proof. rewrite Hpp. apply ssorted_NoDup, filter_sorted, sinter_sorted, mkeys_sorted, s_keyed. Qed.

Lemma fs_nodup : NoDup (map fact_id fs).
Proof. rewrite Hfp. apply ssorted_NoDup, sdiff_sorted, mkeys_sorted, s_keyed. Qed.

Lemma group_fresh f : f ∈ concat groups -> mget (fact_id f) s = None.
Proof.
  intros Hf. apply elem_added. rewrite <- Hgp. by apply (list_elem_of_fmap_2 fact_id).
Qed.

Lemma dropped_absent f : f ∈ fs -> mget (fact_id f) t = None.
Proof.
  intros Hf. apply elem_dropped. rewrite <- Hfp. by apply (list_elem_of_fmap_2 fact_id).
Qed.

Lemma phase_one :
  steps s (map Define groups) (inserted (concat groups) s) /\
  between s t (inserted (concat groups) s) /\ complete (inserted (concat groups) s).
Proof.
  apply define_steps; [apply s_keyed|apply t_keyed|apply H|apply H|apply H|apply groups_nodup|..].
  - intros f Hf. split_and!; [auto|by apply group_fresh|]. apply (no_function (fact_id f)); [auto|].
    by rewrite (group_fresh f Hf), (Hgf f Hf).
  - intros pre g post Eg f p Hf Hneed. destruct (mget p s) eqn:Ep; [eauto|right].
    assert (mget (fact_id f) t = Some f) as Hft by (apply Hgf; rewrite Eg, concat_app; set_solver).
    apply (Hgo pre g post Eg f p Hf); [|done]. destruct Hneed as (ds & Hds & Hp). exists f, ds.
    by rewrite (deps_target s t s_keyed t_keyed (pl_stable H) f (fact_id f) Hft).
Qed.

Lemma phase_two :
  let m1 := inserted (concat groups) s in
  steps m1 (map (fun p => Redefine p.1 p.2) pairs) (inserted (map snd pairs) m1) /\
  between s t (inserted (map snd pairs) m1).
Proof.
  intros m1. destruct phase_one as (_ & Hb1 & Hc1).
  destruct (redefine_steps s t s_keyed t_keyed (pl_source_complete H) (pl_target_complete H) (pl_stable H)
    m1 pairs Hb1 Hc1) as (Hs2 & Hb2 & _); [|apply pairs_nodup| |done].
  - intros k Hk. unfold m1. rewrite is_Some_inserted. destruct (mget k s) eqn:Ek; [eauto|right].
    rewrite Hgp. by apply elem_added.
  - intros e r Hin. destruct (Hpf e r Hin) as (Hid & Hne & Hes & Hrt). split_and!; try done.
    + unfold m1. rewrite mget_inserted; [done|]. intros f Hf E. rewrite E, (group_fresh f Hf) in Hes. done.
    + apply (no_function (fact_id e)); [auto|]. rewrite Hes, Hid, Hrt. congruence.
    + apply (no_function (fact_id e)); [rewrite Hid; auto|]. rewrite Hes, Hid, Hrt. congruence.
Qed.

Lemma phases_end : deleted fs (inserted (map snd pairs) (inserted (concat groups) s)) = t.
Proof.
  apply phases_reach; [apply s_keyed|apply t_keyed|apply groups_nodup|done| |apply pairs_nodup|..].
  - intros k. by rewrite Hgp, elem_added.
  - intros e r Hin. by destruct (Hpf e r Hin) as (? & _ & _ & ?).
  - intros k. by rewrite Hpp, elem_changed.
  - intros k. by rewrite Hfp, elem_dropped.
Qed.

Lemma dropped_present f :
  f ∈ fs -> mget (fact_id f) (inserted (map snd pairs) (inserted (concat groups) s)) = Some f.
Proof.
  intros Hf. rewrite !mget_inserted; [by apply Hff|..].
  - intros g Hg E. apply Hgf in Hg. rewrite <- E, (dropped_absent f Hf) in Hg. done.
  - intros g Hg E. apply (list_elem_of_fmap snd) in Hg as ([e r] & -> & Hin).
    destruct (Hpf e r Hin) as (_ & _ & _ & Hrt). simpl in E. rewrite <- E, (dropped_absent f Hf) in Hrt. done.
Qed.

Lemma plan_phases :
  steps s (map Define groups ++ map (fun p => Redefine p.1 p.2) pairs ++ map Undefine fs) t.
Proof.
  destruct phase_one as (Hs1 & _ & _), phase_two as (Hs2 & Hb2).
  eapply steps_app; [exact Hs1|]. eapply steps_app; [exact Hs2|]. rewrite <- phases_end.
  apply (undefine_steps s t); [apply s_keyed|apply t_keyed|apply H|apply H|apply H|done|apply fs_nodup|..].
  - intros f Hf. split_and!; [by apply dropped_present|by apply dropped_absent|].
    apply (no_function (fact_id f)); [auto|]. by rewrite (Hff f Hf), (dropped_absent f Hf).
  - intros k f Hk. rewrite <- phases_end, mget_deleted.
    destruct (decide (k ∈ map fact_id fs)) as [Hin|Hin]; [right|by left].
    apply list_elem_of_fmap in Hin as (g & -> & Hg). rewrite (dropped_present g Hg) in Hk. by simplify_eq.
  - intros pre f post Efs g Hg (ds & Hds & Hin). apply (Hfo pre f post Efs g Hg). exists g, ds.
    split_and!; try done. apply Hff. rewrite Efs. set_solver.
Qed.
End phases.

Lemma plan_length groups pairs fs :
  map fact_id (concat groups) ≡ₚ added_ids -> (forall g, g ∈ groups -> valid_operation (Define g)) ->
  map (fun p => fact_id p.1) pairs ≡ₚ changed_ids -> map fact_id fs ≡ₚ dropped_ids ->
  let ops := map Define groups ++ map (fun p => Redefine p.1 p.2) pairs ++ map Undefine fs in
  (length ops <= length s + length t + length t)%nat /\ 0 + Z.of_nat (length ops) <= 4000000.
Proof.
  intros Hgp Hgv Hpp Hfp ops.
  pose proof (pl_source_size H) as Hss. pose proof (pl_target_size H) as Hts.
  unfold MAX_CANONICAL_COLLECTION_LEN in *.
  pose proof (subset_length (map fact_id (concat groups)) t
    (groups_nodup groups Hgp) ltac:(intros k; rewrite Hgp, elem_added; tauto)) as L1.
  pose proof (subset_length (map (fun p => fact_id p.1) pairs) t
    (pairs_nodup pairs Hpp) ltac:(intros k; rewrite Hpp, elem_changed; tauto)) as L2.
  pose proof (subset_length (map fact_id fs) s
    (fs_nodup fs Hfp) ltac:(intros k; rewrite Hfp, elem_dropped; tauto)) as L3.
  pose proof (concat_length_le groups) as L4. specialize (L4 ltac:(intros c Hc; by destruct (Hgv c Hc))).
  rewrite !length_map in L1, L2, L3. unfold ops. rewrite !length_app, !length_map. lia.
Qed.

(** No identity is affected by two planned operations. *)
Lemma plan_affected groups pairs fs :
  map fact_id (concat groups) ≡ₚ added_ids -> map (fun p => fact_id p.1) pairs ≡ₚ changed_ids ->
  map fact_id fs ≡ₚ dropped_ids ->
  NoDup ((map Define groups ++ map (fun p => Redefine p.1 p.2) pairs ++ map Undefine fs) ≫= affected_ids).
Proof.
  intros Hgp Hpp Hfp. rewrite !bind_app.
  assert (map Define groups ≫= affected_ids = map fact_id (concat groups)) as ->.
  { clear. induction groups as [|g groups IH]; [done|]. cbn [map concat]. rewrite bind_cons, map_app, IH. done. }
  assert (map (fun p => Redefine p.1 p.2) pairs ≫= affected_ids = map (fun p => fact_id p.1) pairs) as ->.
  { clear. induction pairs as [|p pairs IH]; [done|]. cbn [map]. rewrite bind_cons, IH. done. }
  assert (map Undefine fs ≫= affected_ids = map fact_id fs) as ->.
  { clear. induction fs as [|f fs IH]; [done|]. cbn [map]. rewrite bind_cons, IH. done. }
  rewrite !NoDup_app. split_and!; [by apply groups_nodup| |by apply pairs_nodup| |by apply fs_nodup].
  - intros k. rewrite elem_of_app, Hgp, Hpp, Hfp, elem_added, elem_changed, elem_dropped.
    intros [Hk _] [[[? ?] _]|[[? ?] _]]; congruence.
  - intros k. rewrite Hpp, Hfp, elem_changed, elem_dropped. intros (_ & [? ?] & _) [_ ?]. congruence.
Qed.

(** The planned operations are valid, leave room for their spans, and are
    steps from the source to the target. *)
Lemma plan_steps :
  exists ops, plan_schema_operations source target = Some (Ok ops) /\
    Forall valid_operation ops /\ span_room 0 ops /\ steps s ops t /\
    NoDup (ops ≫= affected_ids) /\ (length ops <= length s + length t + length t)%nat /\
    (acyclic t -> forall g, Define g ∈ ops -> exists f, g = [f]).
Proof.
  destruct (graph_from_facts_ok s s_keyed (complete_resolves s (pl_source_complete H))) as (gs & Egs & Hgs).
  destruct (graph_from_facts_ok t t_keyed (complete_resolves t (pl_target_complete H))) as (gt & Egt & Hgt).
  destruct (added_plan gt Hgt) as (ac & groups & Eac & Edef & Hgp & Hgv & Hgf & Hgo & Hone).
  destruct (changed_plan gt Hgt) as (rc & pairs & Erc & Ered & Hpp & Hpf).
  destruct (dropped_plan gs Hgs) as (dc & fs & Edc & Eund & Hfp & Hff & Hfo).
  eexists. split; [by eapply plan_equation|].
  assert (Forall valid_operation
    (map Define groups ++ map (fun p => Redefine p.1 p.2) pairs ++ map Undefine fs)) as Hv.
  { rewrite !Forall_app, !Forall_fmap, !Forall_forall. split_and!; [done| |done].
    intros [e r] Hin. by destruct (Hpf e r Hin) as (? & ? & _). }
  assert (forall op, op ∈ map Define groups ++ map (fun p => Redefine p.1 p.2) pairs ++ map Undefine fs ->
    operation_size op <= MAX_CANONICAL_COLLECTION_LEN) as Hsize.
  { rewrite Forall_forall in Hv. intros op Hop. specialize (Hv op Hop).
    unfold operation_size, MAX_CANONICAL_COLLECTION_LEN. destruct op as [g|e r|f]; simpl; [|lia..].
    rewrite length_map. apply Hv. }
  destruct (plan_length groups pairs fs Hgp Hgv Hpp Hfp) as [Hlen Hbound].
  split_and!; [done| |by apply plan_phases|by apply plan_affected|done|].
  - apply span_room_bound; [lia| |done]. lia.
  - intros Ha g Hin. apply (Hone Ha). rewrite !elem_of_app in Hin.
    rewrite (list_elem_of_fmap Define), (list_elem_of_fmap (fun p => Redefine p.1 p.2)),
      (list_elem_of_fmap Undefine) in Hin. naive_solver.
Qed.
End plan.


(** ** Acyclic inventories *)

(** Without role specializations every fact depends on facts of a lower rank. *)
Definition id_rank (i : SchemaFactId) : nat :=
  match i with
  | IdType _ | IdStruct _ => 0
  | IdSub _ | IdValue _ | IdRelates _ | IdFunction _ => 1
  | IdOwns _ | IdPlays _ => 2
  | IdAnnotation _ => 3
  end.

Lemma function_dependencies_elem m refs acc ds j :
  function_dependencies (labels_of m) refs acc = Ok ds -> j ∈ ds -> j ∈ acc \/ id_rank j = 0%nat.
Proof.
  revert acc. induction refs as [|l refs IH]; intros acc; simpl; [intros [= ->]; auto|].
  destruct (mget l (labels_of m)) as [[|c [|? ?]]|] eqn:El; try done. intros E Hj.
  destruct (IH _ E Hj) as [Hin|?]; [|auto]. rewrite elem_sins in Hin. destruct Hin as [->|?]; [right|auto].
  assert (c ∈ values_at l (labels_of m)) as Hc by (unfold values_at; rewrite El; set_solver).
  apply group_elem, elem_omap in Hc as (f & _ & Hf). destruct f; simpl in Hf; by simplify_eq.
Qed.

Lemma deps_rank m f ds j :
  ~ specialized f -> deps m f = Ok ds -> j ∈ ds -> (id_rank j < id_rank (fact_id f))%nat.
Proof.
  unfold deps. intros Hs Hd Hj.
  destruct f as [i|i|i d|i c|i [r|] c|i|i v|g|st]; cbn [dependencies_for fact_id id_rank] in *.
  all: try (by destruct Hs; repeat eexists).
  all: try (by injection Hd as <-; rewrite ?elem_sof in Hj; set_unfold; naive_solver).
  - unfold relates_id_of in Hd. destruct (RelatesFactId_new _ _) as [r|]; simpl in Hd; [|done].
    injection Hd as <-. rewrite elem_sof in Hj. set_unfold. destruct Hj as [->|[->|[]]]; simpl; lia.
  - injection Hd as <-. rewrite elem_sof, list_elem_of_singleton in Hj. subst j.
    destruct i as [subj k]. destruct subj; simpl; lia.
  - destruct (function_dependencies_elem m _ [] ds j Hd Hj) as [?| ->]; [set_solver|lia].
Qed.

Lemma acyclic_unspecialized m : (forall k f, mget k m = Some f -> ~ specialized f) -> keyed m -> acyclic m.
Proof.
  intros Hs Hk i Hc.
  assert (forall a b, clos_trans _ (requires m) a b -> (id_rank b < id_rank a)%nat) as Hr; [|apply Hr in Hc; lia].
  induction 1 as [a b (f & ds & Hf & Hds & Hb)|]; [|lia].
  destruct (keyed_get m a f Hk Hf) as [-> _]. by eapply deps_rank; eauto.
Qed.

(** ** Example: a new type, a changed ownership and a removed annotation *)

Definition example_target_facts : list SourcedSchemaFact :=
  [sourced (FactType example_person) example_span;
   sourced (FactType example_company) example_span;
   sourced (FactType (type_id Attribute b#"name")) example_span;
   sourced (FactValue b#"name" TString) example_span;
   sourced (FactOwns (owns_id example_company b#"name") Unordered) example_span;
   sourced (FactOwns (owns_id example_person b#"name") OrderedList) example_span].

Definition no_specialization (m : Facts) : bool :=
  forallb (fun f => match f with FactRelates _ (Some _) _ | FactFunction _ => false | _ => true end) (mvals m).

Lemma no_specialization_spec m k f :
  keyed m -> no_specialization m = true -> mget k m = Some f -> ~ specialized f /\ ~ is_function_fact f.
Proof.
  intros Hk Hn Hf. destruct (keyed_get m k f Hk Hf) as [_ Hin%list_elem_of_In].
  unfold no_specialization in Hn. rewrite forallb_forall in Hn. specialize (Hn f Hin).
  split; [intros (i & r & c & ->)|intros [g ->]]; done.
Qed.

(** Checkable sufficient conditions for [plannable]. *)
Lemma plannable_check l l' :
  bool_decide (NoDup (map sourced_id l)) = true -> bool_decide (NoDup (map sourced_id l')) = true ->
  no_specialization (Schema.fact_map l) = true -> no_specialization (Schema.fact_map l') = true ->
  validate_inventory (Schema.fact_map l) = Ok tt -> validate_inventory (Schema.fact_map l') = Ok tt ->
  (Z.of_nat (length (Schema.fact_map l)) <=? MAX_CANONICAL_COLLECTION_LEN) = true ->
  (Z.of_nat (length (Schema.fact_map l')) <=? MAX_CANONICAL_COLLECTION_LEN) = true ->
  plannable (declared l) (declared l').
Proof.
  intros N1%bool_decide_eq_true N2%bool_decide_eq_true S1 S2 V1 V2 L1%Z.leb_le L2%Z.leb_le.
  assert (keyed (Schema.fact_map l)) as K1 by (by apply fact_map_keyed).
  assert (keyed (Schema.fact_map l')) as K2 by (by apply fact_map_keyed).
  assert (forall k f, mget k (Schema.fact_map l) = Some f \/ mget k (Schema.fact_map l') = Some f ->
    ~ specialized f /\ ~ is_function_fact f) as Hno.
  { intros k f [Hf|Hf]; by eapply no_specialization_spec; [..|exact Hf]. }
  split; try done.
  - by apply declared_spanned.
  - by apply validate_inventory_iff.
  - by apply validate_inventory_iff.
  - split; right; intros k f Hf; by apply (Hno k f).
  - apply acyclic_unspecialized; [|done]. intros k f Hf. apply (Hno k f). by left.
  - intros k f Hf Hfun. by destruct (Hno k f Hf).
Qed.


(** ** Reparenting a relation whose role specializes an inherited one

    [child] moves from [early] to [late], both subtypes of [root]; its role [kid]
    specializes [root:part]. *)

Definition reparent_facts (parent : str) : list SourcedSchemaFact :=
  let t l := type_id Relation l in
  let r x l := relates_id (t x) (role_id x l) in
  map (fun f => sourced f example_span)
    [FactType (t b#"root"); FactType (t b#"early"); FactType (t b#"late"); FactType (t b#"child");
     FactSub (sub_id (t b#"early") (t b#"root")); FactSub (sub_id (t b#"late") (t b#"root"));
     FactSub (sub_id (t b#"child") (t parent));
     FactRelates (r b#"root" b#"part") None Unordered;
     FactRelates (r b#"child" b#"kid") (Some (role_id b#"root" b#"part")) Unordered].

Definition reparent_result (from to : str) : option (result DeltaError bool) :=
  match plan_schema_operations (declared (reparent_facts from)) (declared (reparent_facts to)) with
  | Some (Ok ops) =>
      Some (match replay (declared (reparent_facts from)) ops with
            | Ok (m, _) => Ok (bool_decide (m = Schema.fact_map (reparent_facts to)))
            | Err e => Err e
            end)
  | _ => None
  end.

(** Replay refuses the planned delta of this example: when the relation
    changes its supertype to one that sorts later, the plan defines the new subtype
    edge and then removes the old one, but the path search of the intermediate
    inventory still takes the old edge, so the removal is refused as used; in the
    opposite direction the plan replays to its target. *)
Lemma reparent_refused :
  reparent_result b#"early" b#"late" = Some (Err (fail "schema_delta_survivor_dependency")) /\
  reparent_result b#"late" b#"early" = Some (Ok true).
Proof. split; vm_compute; reflexivity. Qed.

End PlanReplay.
