(* ===== verification/Inverse.v ===== *)
(** * Inverse deltas (schema/src/delta.rs [inverse_delta] and
    contract/src/schema_delta.rs [SchemaOperation::inverse])

    A successful replay can be undone: the inverse operations replayed on the
    target give back the source. And the inverse of an accepted delta is again
    an accepted delta. *)

From S2P Require Import Prelude BTree Text Ident Value Schema Components Ordering SchemaDelta Dependencies Delta PlanReplay.
Import Ident Value Schema Components Ordering SchemaDelta Dependencies Delta PlanReplay.
#[local] Open Scope Z_scope.

Module Inverse.

(** ** Affected identities *)

Lemma step_frame m op m' k : step m op m' -> k ∉ affected_ids op -> mget k m' = mget k m.
Proof.
  destruct 1 as [fs|e r|f]; cbn [affected_ids]; intros Hk.
  - apply mget_inserted. intros f Hf ->. apply Hk. by apply (list_elem_of_fmap_2 fact_id).
  - rewrite mget_mins_ne; [done|]. set_solver.
  - rewrite mget_mdel. destruct (oeqb_spec (fact_id f) k) as [<-|]; [set_solver|done].
Qed.

Lemma steps_frame m ops m' k : steps m ops m' -> k ∉ ops ≫= affected_ids -> mget k m' = mget k m.
Proof.
  induction 1 as [|m op m1 ops m' Hs _ IH]; [done|]. rewrite bind_cons. intros Hk.
  rewrite IH by set_solver. eapply step_frame; [done|set_solver].
Qed.

(** When no identity is affected twice, every intermediate inventory lies
    between the first and the last one. *)
Lemma steps_between s ops1 m ops2 t :
  keyed s -> Forall valid_operation ops1 -> NoDup ((ops1 ++ ops2) ≫= affected_ids) ->
  steps s ops1 m -> steps m ops2 t -> between s t m.
Proof.
  intros Hk Hv Hn H1 H2. rewrite bind_app in Hn. apply NoDup_app in Hn as (_ & Hdis & _).
  assert (forall k, mget k m = mget k s \/ mget k m = mget k t) as Hor.
  { intros k. destruct (decide (k ∈ ops1 ≫= affected_ids)) as [Hin|Hin].
    - right. symmetry. by eapply steps_frame; [|apply Hdis].
    - left. by eapply steps_frame. }
  split.
  - clear -Hk Hv H1. induction H1 as [|m op m1 ops m' Hs _ IH]; [done|].
    apply Forall_cons in Hv as [Hv Hvs]. apply IH; [by eapply step_keyed|done].
  - intros k f Hf. destruct (Hor k) as [E|E]; rewrite <- E; auto.
  - intros k Hs Ht. destruct (Hor k) as [->| ->]; done.
Qed.

(** ** Undoing one step *)

Section undo.
Context (s t : Facts) (s_keyed : keyed s) (t_keyed : keyed t).
Context (s_complete : complete s) (t_complete : complete t) (st_stable : stable_pair s t).

(** The members of a definition group can be removed from the last to the first. *)
Definition removable (op : SchemaOperation) : Prop :=
  match op with
  | Define fs => forall pre f post, fs = pre ++ f :: post ->
      forall g, g ∈ pre ++ [f] -> ~ needs_fact s g (fact_id f)
  | _ => True
  end.

Lemma between_ext m m' :
  keyed m' -> between s t m -> (forall k f, mget k m' = Some f -> mget k m = Some f) ->
  (forall k, is_Some (mget k s) -> is_Some (mget k t) -> is_Some (mget k m')) -> between s t m'.
Proof. intros Hk [_ Hfrom _] Hsub Hkeep. split; eauto. Qed.

Lemma mdel_inserted_last fs f m :
  keyed m -> mget (fact_id f) m = None -> fact_id f ∉ map fact_id fs ->
  mdel (fact_id f) (inserted (fs ++ [f]) m) = inserted fs m.
Proof.
  intros Hk Hn Hf. apply msorted_ext; [by apply mdel_keyed, inserted_keyed|by apply inserted_keyed|].
  intros k. rewrite mget_mdel, inserted_app. unfold inserted at 1. simpl. rewrite mget_mins.
  destruct (oeqb_spec (fact_id f) k) as [<-|]; [|done]. rewrite mget_inserted; [done|].
  intros g Hg E. apply Hf. rewrite E. by apply (list_elem_of_fmap_2 fact_id).
Qed.

Lemma inserted_sub fs gs m k f :
  NoDup (map fact_id (fs ++ gs)) -> (forall f, f ∈ fs ++ gs -> mget (fact_id f) m = None) ->
  mget k (inserted fs m) = Some f -> mget k (inserted (fs ++ gs) m) = Some f.
Proof.
  intros Hn Hfresh Hk. rewrite inserted_app, mget_inserted; [done|]. intros g Hg ->.
  rewrite map_app, NoDup_app in Hn. destruct Hn as (_ & Hdis & _).
  assert (is_Some (mget (fact_id g) (inserted fs m))) as [Hm|Hm]%is_Some_inserted by eauto.
  - rewrite Hfresh in Hm by set_solver. by destruct Hm.
  - apply (Hdis _ Hm). by apply (list_elem_of_fmap_2 fact_id).
Qed.

Lemma undo_define fs m :
  between s t m -> between s t (inserted fs m) -> complete m -> opaque_free (Define fs) ->
  NoDup (map fact_id fs) -> (forall f, f ∈ fs -> mget (fact_id f) m = None) -> removable (Define fs) ->
  steps (inserted fs m) (map Undefine (rev fs)) m.
Proof.
  intros Hb. induction fs as [|f fs IH] using rev_ind; intros Hb1 Hc Ho Hn Hfresh Hrem; [constructor|].
  rewrite rev_app_distr. simpl.
  assert (fact_id f ∉ map fact_id fs) as Hf.
  { rewrite map_app, NoDup_app in Hn. destruct Hn as (_ & Hdis & _). intros Hin. apply (Hdis _ Hin). set_solver. }
  assert (mget (fact_id f) (inserted (fs ++ [f]) m) = Some f) as Hget by (apply mget_inserted_in; [done|set_solver]).
  econstructor.
  - constructor; [|done|apply (between_resolves s t); done|].
    + intros g ->%list_elem_of_singleton. apply Ho. simpl. set_solver.
    + rewrite (between_unused s t) by done. intros k g Hg Hneed.
      destruct (decide (k ∈ map fact_id (fs ++ [f]))) as [Hin|Hin].
      * apply list_elem_of_fmap in Hin as (g' & -> & Hg'). rewrite mget_inserted_in in Hg by done. simplify_eq.
        by apply (Hrem fs f [] eq_refl g).
      * rewrite mget_inserted in Hg; [|intros g' Hg' ->; apply Hin; by apply (list_elem_of_fmap_2 fact_id)].
        rewrite (between_complete s t) in Hc by done.
        destruct (Hc k g (fact_id f) Hg Hneed) as [? Hx]. rewrite Hfresh in Hx by set_solver. done.
  - rewrite mdel_inserted_last by first [done|apply Hb|apply Hfresh; set_solver]. apply IH; try done.
    + eapply (between_ext (inserted (fs ++ [f]) m)); [by apply inserted_keyed, Hb|done|..].
      * intros k g. by apply inserted_sub.
      * intros k Hs Ht. apply is_Some_inserted. left. by apply Hb.
    + intros g Hg. apply Ho. simpl. set_solver.
    + rewrite map_app, NoDup_app in Hn. apply Hn.
    + intros g Hg. apply Hfresh. set_solver.
    + intros pre g post -> g' Hg'. apply (Hrem pre g (post ++ [f])); [by rewrite <- app_assoc|done].
Qed.

Lemma undo_step m op m' inv :
  valid_operation op -> removable op -> between s t m -> between s t m' -> complete m ->
  step m op m' -> inverse op = Some inv -> steps m' inv m.
Proof.
  intros Hv Hrem Hb Hb' Hc Hs Hinv. destruct Hs as [fs Ho Hf Hc'|e r Ho He Hc'|f Ho He Hall Hu].
  - injection Hinv as <-. apply undo_define; try done. by apply ssorted_NoDup, Hv.
  - destruct Hv as [Hid Hne]. cbn [inverse] in Hinv.
    rewrite (proj2 (redefine_ok r e (Redefine r e))) in Hinv by (split_and!; congruence || done).
    injection Hinv as <-.
    assert (mins (fact_id r) e (mins (fact_id e) r m) = m) as Hback.
    { apply msorted_ext; [by apply mins_sorted, mins_sorted, Hb|apply Hb|]. intros k.
      rewrite !mget_mins, Hid. destruct (oeqb_spec (fact_id r) k) as [<-|]; [|done]. by rewrite <- Hid. }
    econstructor; [|constructor]. rewrite <- Hback at 2. constructor.
    + intros f Hf. apply Ho. simpl in *. set_solver.
    + by rewrite Hid, mget_mins_eq.
    + by rewrite Hback.
  - cbn [inverse] in Hinv. rewrite define_one in Hinv. injection Hinv as <-.
    assert (inserted [f] (mdel (fact_id f) m) = m) as Hback.
    { apply msorted_ext; [by apply inserted_keyed, mdel_keyed, Hb|apply Hb|]. intros k.
      unfold inserted. simpl. rewrite mget_mins, mget_mdel. by destruct (oeqb_spec (fact_id f) k) as [<-|]. }
    econstructor; [|constructor]. rewrite <- Hback at 2. constructor; [done| |by rewrite Hback].
    intros g ->%list_elem_of_singleton. rewrite mget_mdel. by rewrite oeqb_refl.
Qed.

(** Completeness is an invariant of the steps. *)
Lemma step_complete m op m' :
  between s t m -> between s t m' -> complete m -> step m op m' -> complete m'.
Proof.
  intros Hb Hb' Hc Hs. destruct Hs as [|e r|f Ho He Hall Hu]; [done..|].
  rewrite (between_complete s t) in Hc |- * by done. intros k g p Hg Hneed. rewrite mget_mdel in *.
  destruct (oeqb_spec (fact_id f) k) as [|Hne]; [done|].
  destruct (oeqb_spec (fact_id f) p) as [<-|].
  - exfalso. rewrite (between_unused s t) in Hu by done. by apply (Hu k g).
  - by apply (Hc k g).
Qed.
End undo.

(** ** Undoing a sequence *)

Lemma mapM_snoc {A B} (h : A -> option B) l a :
  mapM h (l ++ [a]) = match mapM h l, h a with Some bs, Some b => Some (bs ++ [b]) | _, _ => None end.
Proof.
  induction l as [|x l IH]; simpl.
  - by destruct (h a).
  - destruct (h x); simpl; [|done]. rewrite IH. destruct (mapM h l); simpl; [|done]. by destruct (h a).
Qed.

Lemma inverse_operations_cons op ops :
  inverse_operations (op :: ops) =
  match inverse_operations ops, inverse op with Some a, Some b => Some (a ++ b) | _, _ => None end.
Proof.
  unfold inverse_operations. cbn [rev]. rewrite mapM_snoc. destruct (mapM inverse (rev ops)); [|done].
  destruct (inverse op); [|done]. by rewrite concat_app; simpl; rewrite app_nil_r.
Qed.

(** Valid operations have inverses: no [expect] fails. *)
Lemma inverse_operations_valid ops :
  Forall valid_operation ops ->
  exists inv, inverse_operations ops = Some inv /\ Forall valid_operation inv /\
    (inv ≫= affected_ids) ≡ₚ (ops ≫= affected_ids) /\ (inv = [] -> ops = []).
Proof.
  induction 1 as [|op ops Hv _ IH]; [by exists []|]. destruct IH as (inv & E & Hi & Hp & _).
  destruct (inverse_valid op Hv) as (b & Eb & Hb & Hne & Hpb). exists (inv ++ b).
  rewrite inverse_operations_cons, E, Eb. split_and!; [done|by apply Forall_app| |].
  - rewrite bind_app, bind_cons, Hp, Hpb. apply Permutation_app_comm.
  - intros [_ ?]%app_nil. done.
Qed.

Lemma undo_steps s t pre ops m :
  keyed s -> keyed t -> complete s -> complete t -> stable_pair s t ->
  Forall valid_operation (pre ++ ops) -> NoDup ((pre ++ ops) ≫= affected_ids) ->
  Forall (removable s) ops -> steps s pre m -> steps m ops t -> complete m ->
  exists inv, inverse_operations ops = Some inv /\ steps t inv m.
Proof.
  intros Hs Ht Hsc Htc Hst. revert pre m. induction ops as [|op ops IH]; intros pre m Hv Hn Hr H1 H2 Hc.
  - inversion H2; subst. exists []. split; [done|constructor].
  - apply Forall_cons in Hr as [Hro Hr]. inversion H2 as [|? ? m1 ? ? Hop Hrest]; subst.
    assert (steps s (pre ++ [op]) m1) as H1' by (eapply steps_app; [done|by econstructor; [|constructor]]).
    assert (pre ++ op :: ops = (pre ++ [op]) ++ ops) as Eapp by (by rewrite <- app_assoc).
    assert (between s t m) as Hb by (eapply steps_between; [done| |exact Hn|done..]; apply Forall_app in Hv; tauto).
    rewrite Eapp in Hv, Hn.
    assert (between s t m1) as Hb1 by (eapply steps_between; [done| |exact Hn|done..]; apply Forall_app in Hv; tauto).
    assert (complete m1) as Hc1 by (by apply (step_complete s t Hs Ht Hsc Htc Hst m op)).
    destruct (IH (pre ++ [op]) m1) as (inv & E & Hinv); [done..|].
    assert (valid_operation op) as Hvo.
    { apply Forall_app in Hv as [Hv _]. apply Forall_app in Hv as [_ Hv]. by inversion Hv. }
    destruct (inverse_valid op Hvo) as (b & Eb & _). exists (inv ++ b).
    rewrite inverse_operations_cons, E, Eb. split; [done|]. eapply steps_app; [done|].
    by apply (undo_step s t Hs Ht Hsc Htc Hst m op).
Qed.

(** A definition of one fact is removable when the fact does not need itself. *)
Lemma removable_singleton s op :
  (forall g, op = Define g -> exists f, g = [f] /\ ~ needs_fact s f (fact_id f)) -> removable s op.
Proof.
  intros H. destruct op as [g|e r|f]; [|done..]. destruct (H g eq_refl) as (f & -> & Hf).
  intros pre f' post E g' Hg'. destruct pre as [|? [|? ?]]; simplify_eq/=.
  apply list_elem_of_singleton in Hg' as ->. done.
Qed.

Lemma inverse_size op inv :
  valid_operation op -> (forall g, op = Define g -> exists f, g = [f]) -> inverse op = Some inv ->
  exists op', inv = [op'] /\ operation_size op' = 1.
Proof.
  intros Hv Hone. destruct op as [g|e r|f]; cbn [inverse].
  - destruct (Hone g eq_refl) as [f ->]. simpl. intros [= <-]. by eexists.
  - destruct (redefine r e) as [op|] eqn:E; [|done]. intros [= <-].
    apply redefine_ok in E as (_ & _ & ->). by eexists.
  - rewrite define_one. intros [= <-]. by eexists.
Qed.

Lemma inverse_sizes ops inv :
  Forall valid_operation ops -> (forall g, Define g ∈ ops -> exists f, g = [f]) ->
  inverse_operations ops = Some inv ->
  length inv = length ops /\ forall op, op ∈ inv -> operation_size op = 1.
Proof.
  intros Hv. revert inv. induction Hv as [|op ops Hvo _ IH]; intros inv Hone.
  - intros [= <-]. split; [done|set_solver].
  - rewrite inverse_operations_cons. destruct (inverse_operations ops) as [a|]; [|done].
    destruct (inverse op) as [b|] eqn:Eb; [|done]. intros [= <-].
    destruct (IH a) as [Hl Hs]; [intros g Hg; apply Hone; set_solver|done|].
    destruct (inverse_size op b Hvo) as (op' & -> & Hop); [|done|].
    { intros g ->. apply Hone. set_solver. }
    rewrite length_app, Hl. cbn [length]. split; [lia|].
    intros o [Ho| ->%list_elem_of_singleton]%elem_of_app; auto.
Qed.

Lemma steps_defined s ops t g f :
  steps s ops t -> NoDup (ops ≫= affected_ids) -> Define g ∈ ops -> NoDup (map fact_id g) -> f ∈ g ->
  mget (fact_id f) t = Some f.
Proof.
  induction 1 as [|m op m1 ops m' Hs Hrest IH]; [set_solver|]. rewrite bind_cons, NoDup_app.
  intros (Hno & Hdis & Hn) [<-|Hin]%elem_of_cons Hg Hf; [|by apply IH].
  inversion Hs as [fs _ _ _ E1 E2| |]; subst. rewrite (steps_frame _ ops m' _ Hrest).
  - by apply mget_inserted_in.
  - apply Hdis. cbn [affected_ids]. by apply (list_elem_of_fmap_2 fact_id).
Qed.

(** C16. A planned delta can be undone: for plannable declarations whose target
    has a span for every fact and acyclic requirements, the plan replays to the
    target, its inverse operations exist, and replayed on the target they pass every
    check and give back exactly the source facts. *)
Theorem plan_inverse_roundtrip source target :
  plannable source target -> spanned target -> acyclic (facts target) ->
  exists ops inv spans spans', plan_schema_operations source target = Some (Ok ops) /\
    replay source ops = Ok (facts target, spans) /\
    inverse_operations ops = Some inv /\ replay target inv = Ok (facts source, spans').
Proof.
  intros H Ht Ha. destruct (plan_steps source target H) as (ops & Ep & Hv & Hroom & Hst & Hn & Hlen & Hone).
  specialize (Hone Ha). destruct H as [H1 H2 H3 H4 H5 H6 H7 H8 H9].
  assert (Forall (removable (facts source)) ops) as Hrem.
  { apply Forall_forall. intros op Hop. apply removable_singleton. intros g ->.
    destruct (Hone g Hop) as [f ->]. exists f. split; [done|]. intros (ds & Hds & Hf).
    assert (mget (fact_id f) (facts target) = Some f) as Hft.
    { eapply steps_defined; [done..|apply NoDup_singleton|set_solver]. }
    apply (Ha (fact_id f)). constructor. exists f, ds. split_and!; [done| |done].
    rewrite <- Hds. apply (deps_target (facts source) (facts target) (proj1 H1) H2 H5 f (fact_id f) Hft). }
  destruct (replay_complete source ops (facts target)) as [spans E]; [done..|].
  destruct (undo_steps (facts source) (facts target) [] ops (facts source)) as (inv & Ei & Hinv);
    try done; [apply H1|constructor|].
  destruct (inverse_operations_valid ops Hv) as (inv' & Ei' & Hvi & _). rewrite Ei in Ei'. injection Ei' as <-.
  destruct (inverse_sizes ops inv Hv Hone Ei) as [Hl Hs].
  destruct (replay_complete target inv (facts source)) as [spans' E']; try done.
  { unfold MAX_CANONICAL_COLLECTION_LEN in *. apply span_room_bound; [lia|lia|].
    intros op Hop. rewrite (Hs op Hop). unfold MAX_CANONICAL_COLLECTION_LEN. lia. }
  exists ops, inv, spans, spans'. done.
Qed.

Lemma plan_inverse_roundtrip_w :
  exists ops inv spans spans',
    plan_schema_operations (declared example_facts) (declared example_target_facts) = Some (Ok ops) /\
    replay (declared example_facts) ops = Ok (Schema.fact_map example_target_facts, spans) /\
    inverse_operations ops = Some inv /\
    replay (declared example_target_facts) inv = Ok (Schema.fact_map example_facts, spans').
Proof.
  apply (plan_inverse_roundtrip (declared example_facts) (declared example_target_facts)).
  - apply plannable_check; vm_compute; reflexivity.
  - apply declared_spanned. apply (bool_decide_unpack _). vm_compute. exact I.
  - assert (plannable (declared example_target_facts) (declared example_facts)) as [_ _ _ _ _ H _ _ _];
      [apply plannable_check; vm_compute; reflexivity|exact H].
Defined.

(** ** Inverses of accepted deltas *)

Lemma ids_app (h : list SchemaOperation -> list SchemaFactId) :
  h = defined_ids \/ h = redefined_ids \/ h = removed_ids ->
  forall ops ops', h (ops ++ ops') = h ops ++ h ops'.
Proof. intros [->|[->| ->]] ops ops'; apply bind_app. Qed.

Lemma inverse_ids op b i :
  valid_operation op -> inverse op = Some b ->
  (i ∈ defined_ids b <-> i ∈ removed_ids [op]) /\ (i ∈ removed_ids b <-> i ∈ defined_ids [op]) /\
  (i ∈ redefined_ids b <-> i ∈ redefined_ids [op]).
Proof.
  intros Hv. destruct op as [g|e r|f]; cbn [inverse].
  - intros [= <-]. unfold defined_ids, removed_ids, redefined_ids.
    assert (forall l, map undefine l ≫= (fun op => match op with Undefine f => [fact_id f] | _ => [] end)
                      = map fact_id l) as E1.
    { induction l as [|x l IH]; [done|]. cbn [map]. rewrite bind_cons, IH. done. }
    assert (forall l, map undefine l ≫= (fun op => match op with Define fs => map fact_id fs | _ => [] end) = [])
      as E2 by (induction l as [|x l IH]; [done|]; cbn [map]; by rewrite bind_cons, IH).
    assert (forall l, map undefine l ≫= (fun op => match op with Redefine e _ => [fact_id e] | _ => [] end) = [])
      as E3 by (induction l as [|x l IH]; [done|]; cbn [map]; by rewrite bind_cons, IH).
    rewrite E1, E2, E3, map_rev, elem_of_rev. cbn [mbind list_bind]. rewrite app_nil_r. split_and!; set_solver.
  - destruct Hv as [Hid Hne]. rewrite (proj2 (redefine_ok r e (Redefine r e))) by (split_and!; congruence || done).
    intros [= <-]. unfold defined_ids, removed_ids, redefined_ids. simpl. rewrite Hid. tauto.
  - rewrite define_one. intros [= <-]. unfold defined_ids, removed_ids, redefined_ids. simpl. tauto.
Qed.

Lemma inverse_operations_ids ops inv i :
  Forall valid_operation ops -> inverse_operations ops = Some inv ->
  (i ∈ defined_ids inv <-> i ∈ removed_ids ops) /\ (i ∈ removed_ids inv <-> i ∈ defined_ids ops) /\
  (i ∈ redefined_ids inv <-> i ∈ redefined_ids ops).
Proof.
  intros Hv. revert inv. induction Hv as [|op ops Hvo _ IH]; intros inv; [intros [= <-]; tauto|].
  rewrite inverse_operations_cons. destruct (inverse_operations ops) as [a|]; [|done].
  destruct (inverse op) as [b|] eqn:Eb; [|done]. intros [= <-].
  destruct (IH a eq_refl) as (I1 & I2 & I3), (inverse_ids op b i Hvo Eb) as (J1 & J2 & J3).
  change (op :: ops) with ([op] ++ ops).
  rewrite !(ids_app defined_ids), !(ids_app removed_ids), !(ids_app redefined_ids), !elem_of_app by auto.
  rewrite I1, I2, I3, J1, J2, J3. tauto.
Qed.

Lemma leads_inverse ops inv s t :
  Forall valid_operation ops -> inverse_operations ops = Some inv -> ssorted s ->
  leads s ops t -> leads t inv s.
Proof.
  intros Hv Ei Hs ((Hn & HD & HR & HM) & _ & Hi).
  destruct (inverse_operations_valid ops Hv) as (inv' & Ei' & _ & Hp & _). rewrite Ei in Ei'. injection Ei' as <-.
  pose proof (fun i => affected_disjoint ops i Hn) as Hdis.
  pose proof (fun i => inverse_operations_ids ops inv i Hv Ei) as Hids.
  split; [split_and!|split; [done|]].
  - by rewrite Hp.
  - intros i. destruct (Hids i) as (-> & _ & _). rewrite Hi. tauto.
  - intros i. destruct (Hids i) as (_ & _ & ->). rewrite Hi. specialize (Hdis i). specialize (HR i). tauto.
  - intros i. destruct (Hids i) as (_ & -> & _). rewrite Hi. specialize (Hdis i). tauto.
  - intros i. destruct (Hids i) as (-> & -> & _). rewrite Hi.
    specialize (Hdis i). specialize (HD i). specialize (HM i). destruct (decide (i ∈ removed_ids ops)); tauto.
Qed.

Lemma redefines_iff ops : existsb is_redefine ops = true <-> exists i, i ∈ redefined_ids ops.
Proof.
  unfold redefined_ids. induction ops as [|op ops IH]; [set_solver|].
  rewrite bind_cons. cbn [existsb]. rewrite orb_true_iff, IH. setoid_rewrite elem_of_app.
  destruct op; cbn; set_solver.
Qed.

Lemma derived_inverse s t ops inv :
  Forall valid_operation ops -> inverse_operations ops = Some inv ->
  derived_capabilities t s inv = derived_capabilities s t ops.
Proof.
  intros Hv Ei. unfold derived_capabilities.
  assert (sof (state_capabilities t ++ state_capabilities s) = sof (state_capabilities s ++ state_capabilities t)) as ->.
  { apply ssorted_ext; [apply sof_sorted..|]. intros c. rewrite !elem_sof, !elem_of_app. tauto. }
  replace (existsb is_redefine inv) with (existsb is_redefine ops); [done|].
  apply eq_true_iff_eq. rewrite !redefines_iff.
  setoid_rewrite (fun i => proj2 (proj2 (inverse_operations_ids ops inv i Hv Ei))). done.
Qed.

(** The inverse of an accepted delta is accepted, with source and target
    swapped and the same required capabilities, whenever its operations, one
    per removed member of a definition group, stay within the operation
    limit. *)
Theorem inverse_delta_accepted fmt s t ops d inv :
  ssorted (selection s) -> ssorted (selection t) -> Forall valid_operation ops ->
  SchemaDelta_new fmt s t ops = Ok d -> inverse_operations ops = Some inv ->
  Z.of_nat (length inv) <= MAX_CANONICAL_COLLECTION_LEN ->
  inverse_delta d = Some (Ok (schema_delta (delta_format d) inv (delta_capabilities d) t s)).
Proof.
  intros Hs Ht Hv Hd Ei Hl. apply schema_delta_new_ok in Hd as (-> & Ha & ->); [|done].
  unfold inverse_delta. simpl. rewrite Ei. f_equal. unfold contract.
  rewrite (proj2 (schema_delta_new_ok Patch_V1 t s inv (schema_delta Patch_V1 inv (derived_capabilities s t ops) t s) Ht));
    [done|].
  split_and!; [done| |by rewrite (derived_inverse s t ops inv)].
  destruct Ha as [H1 H2 H3 H4 H5 H6 H7]. split; try done.
  - intros ->. destruct (inverse_operations_valid ops Hv) as (inv' & Ei' & _ & _ & Hnil).
    rewrite Ei in Ei'. injection Ei' as <-. destruct (H5 (Hnil eq_refl)) as (? & ? & ? & ?). naive_solver.
  - by eapply leads_inverse.
Qed.

Lemma inverse_delta_accepted_w :
  inverse_delta (schema_delta Patch_V1 example_operations [] example_source example_target) =
  Some (Ok (schema_delta Patch_V1 [Undefine (FactType (type_id Attribute b#"name"))] []
              example_target example_source)).
Proof.
  apply (inverse_delta_accepted Patch_V1 example_source example_target example_operations
    (schema_delta Patch_V1 example_operations [] example_source example_target)).
  - repeat constructor.
  - repeat constructor.
  - repeat constructor. all: discriminate.
  - vm_compute. reflexivity.
  - vm_compute. reflexivity.
  - vm_compute. discriminate.
Defined.

End Inverse.
