(* ===== verification/Safety.v ===== *)
(** * Migration safety classification (schema/src/delta_safety.rs)

    The eight safety classes, the classifier of one operation and the report of
    a delta. [None] stands for the [unreachable!] arms; the theorems say that
    operations the constructors build never reach them and never fail, and what
    a class says about the cardinalities a delta admits before and after. *)

From S2P Require Import Prelude BTree Ident Value Schema SchemaDelta Dependencies Delta.
Import Ident Value Schema SchemaDelta Dependencies Delta.
#[local] Open Scope Z_scope.

Module Safety.

Inductive SafetyClass : Set :=
| FormalOnly | SchemaMetadata | Additive | Conditional | BackfillRequired | Destructive | Opaque
| Unsupported.

Definition SafetyClass_ALL : list SafetyClass :=
  [FormalOnly; SchemaMetadata; Additive; Conditional; BackfillRequired; Destructive; Opaque; Unsupported].

(** The derived order: declaration order. *)
Definition safety_rank (c : SafetyClass) : Z :=
  match c with
  | FormalOnly => 0 | SchemaMetadata => 1 | Additive => 2 | Conditional => 3
  | BackfillRequired => 4 | Destructive => 5 | Opaque => 6 | Unsupported => 7
  end.

#[global] Instance SafetyClass_eq_dec : EqDecision SafetyClass.
Proof. solve_decision. Defined.
#[global] Instance Ord_SafetyClass : Ord SafetyClass := ord_by safety_rank.
#[global] Instance OrdLaws_SafetyClass : OrdLaws SafetyClass.
Proof. apply ord_by_laws. by intros [] []. Qed.

(** [Ord::max]. *)
Definition safety_max (a b : SafetyClass) : SafetyClass :=
  if safety_rank b <? safety_rank a then a else b.

Inductive SafetyClassificationError : Set :=
| UnchangedRelatesSpecialization
| RedefinitionCategoryChanged.

Inductive FactTransition : Set := TDefine | TUndefine | TRedefine.
Inductive AnnotationTransition : Set := TAdd | TChange | TRemove.

Definition classify_fact (fact : SchemaFact) (transition : FactTransition) : option SafetyClass :=
  match fact, transition with
  | FactType _, TDefine => Some Additive
  | FactType _, TUndefine => Some Destructive
  | FactType _, TRedefine => Some Unsupported
  | FactSub _, (TDefine | TRedefine) => Some Conditional
  | FactSub _, TUndefine => Some Destructive
  | FactValue _ _, TDefine => Some Additive
  | FactValue _ _, (TUndefine | TRedefine) => Some Destructive
  | (FactOwns _ _ | FactRelates _ _ _ | FactPlays _), TDefine => Some Additive
  | (FactOwns _ _ | FactRelates _ _ _ | FactPlays _), TUndefine => Some Destructive
  | (FactOwns _ _ | FactRelates _ _ _ | FactPlays _), TRedefine => Some Unsupported
  | FactFunction _, TDefine => Some Additive
  | FactFunction _, TUndefine => Some Destructive
  | FactFunction _, TRedefine => Some Opaque
  | FactStruct _, _ => Some Unsupported
  | FactAnnotation _ _, _ => None
  end.

Definition annotation_supported (subject : AnnotationSubjectId) (kind : AnnotationKindId) : bool :=
  match subject with
  | SubjectType _ => match kind with Abstract | Independent | Doc | Meta _ => true | _ => false end
  | SubjectSub _ => match kind with Doc | Meta _ => true | _ => false end
  | SubjectValue _ => match kind with Regex | Range | Values | Doc | Meta _ => true | _ => false end
  | SubjectOwns _ =>
      match kind with
      | Key | Unique | Distinct | Card | Regex | Range | Values | Doc | Meta _ => true
      | _ => false
      end
  | SubjectRelates _ => match kind with Abstract | Distinct | Card | Doc | Meta _ => true | _ => false end
  | SubjectPlays _ => match kind with Card | Doc | Meta _ => true | _ => false end
  | SubjectFunction _ => false
  end.

Definition interval : Set := (Z * option Z)%type.

Definition annotation_cardinality (value : SchemaAnnotationValue) : option interval :=
  match value with
  | CardinalityAnnotation c => Some (card_min c, card_max c)
  | _ => None
  end.

Definition default_cardinality (subject : AnnotationSubjectId) : option interval :=
  match subject with
  | SubjectOwns _ | SubjectRelates _ => Some (0, Some 1)
  | SubjectPlays _ => Some (0, None)
  | _ => None
  end.

Definition interval_contains (outer inner : interval) : bool :=
  (outer.1 <=? inner.1) &&
  match outer.2, inner.2 with
  | None, _ => true
  | Some _, None => false
  | Some outer, Some inner => inner <=? outer
  end.

Definition cardinality_transition_safety (from to : interval) : SafetyClass :=
  if bool_decide (from = to) then FormalOnly
  else if interval_contains to from then Additive
  else if interval_contains from to then BackfillRequired
  else Conditional.

(** The class of the kind alone; [None] for the metadata kinds. *)
Definition kind_safety (kind : AnnotationKindId) (transition : AnnotationTransition) : option SafetyClass :=
  match kind with
  | Abstract => Some match transition with TAdd => Conditional | TRemove => Additive | TChange => Unsupported end
  | Independent => Some match transition with TAdd => Additive | TRemove => Destructive | TChange => Unsupported end
  | Key | Unique =>
      Some match transition with TAdd => BackfillRequired | TRemove => Additive | TChange => Unsupported end
  | Distinct => Some Unsupported
  | Card => Some Conditional
  | Regex | Range | Values =>
      Some match transition with TAdd | TChange => Conditional | TRemove => Additive end
  | Doc | Meta _ => None
  end.

Definition is_metadata (kind : AnnotationKindId) : bool :=
  match kind with Doc | Meta _ => true | _ => false end.

Definition is_sub (subject : AnnotationSubjectId) : bool :=
  match subject with SubjectSub _ => true | _ => false end.

Definition classify_annotation (id : AnnotationFactId) (value : SchemaAnnotationValue)
    (transition : AnnotationTransition) (expected : option SchemaAnnotationValue) : option SafetyClass :=
  let subject := subject id in
  let kind := annotation_kind id in
  if negb (annotation_supported subject kind) then Some Unsupported
  else if is_sub subject || is_metadata kind then Some SchemaMetadata
  else match kind_safety kind transition with
       | None => None
       | Some safety =>
           match kind, annotation_cardinality value, default_cardinality subject with
           | Card, Some target, Some default =>
               match transition with
               | TAdd => Some (cardinality_transition_safety default target)
               | TChange =>
                   match expected ≫= annotation_cardinality with
                   | None => Some safety
                   | Some source => Some (cardinality_transition_safety source target)
                   end
               | TRemove => Some (cardinality_transition_safety target default)
               end
           | _, _, _ => Some safety
           end
       end.

Definition classify_defined_fact (fact : SchemaFact) (functions : BTreeSet FunctionId) : option SafetyClass :=
  match fact with
  | FactRelates _ (Some _) _ => Some Conditional
  | FactAnnotation id value =>
      if match subject id with SubjectFunction function => smem function functions | _ => false end
         && is_metadata (annotation_kind id)
      then Some SchemaMetadata
      else classify_annotation id value TAdd None
  | _ => classify_fact fact TDefine
  end.

Definition classify_undefined_fact (fact : SchemaFact) : option SafetyClass :=
  match fact with
  | FactAnnotation id value => classify_annotation id value TRemove None
  | FactRelates _ (Some _) _ => Some Conditional
  | _ => classify_fact fact TUndefine
  end.

(** [std::mem::discriminant]. *)
Definition discriminant (fact : SchemaFact) : Z :=
  match fact with
  | FactType _ => 0 | FactSub _ => 1 | FactValue _ _ => 2 | FactOwns _ _ => 3 | FactRelates _ _ _ => 4
  | FactPlays _ => 5 | FactAnnotation _ _ => 6 | FactFunction _ => 7 | FactStruct _ => 8
  end.

#[global] Instance CollectionMode_eq_dec : EqDecision CollectionMode.
Proof. solve_decision. Defined.

Definition classify_redefinition (expected replacement : SchemaFact)
    : option (result SafetyClassificationError SafetyClass) :=
  match expected, replacement with
  | FactRelates _ old_specializes old_mode, FactRelates _ new_specializes new_mode =>
      Some (if negb (bool_decide (old_mode = new_mode)) then Ok Unsupported
            else if negb (bool_decide (old_specializes = new_specializes)) then Ok Conditional
            else Err UnchangedRelatesSpecialization)
  | FactAnnotation _ old, FactAnnotation id new => Ok <$> classify_annotation id new TChange (Some old)
  | lhs, rhs =>
      if discriminant lhs =? discriminant rhs then Ok <$> classify_fact rhs TRedefine
      else Some (Err RedefinitionCategoryChanged)
  end.

Definition defined_functions (facts : list SchemaFact) : BTreeSet FunctionId :=
  sof (omap (fun fact => match fact with FactFunction f => Some (function_id f) | _ => None end) facts).

(** The loop over the defined facts. *)
Fixpoint classify_defined (functions : BTreeSet FunctionId) (safety : SafetyClass) (facts : list SchemaFact)
    : option SafetyClass :=
  match facts with
  | [] => Some safety
  | fact :: facts =>
      match classify_defined_fact fact functions with
      | Some class => classify_defined functions (safety_max safety class) facts
      | None => None
      end
  end.

Definition classify_operation_safety (op : SchemaOperation)
    : option (result SafetyClassificationError SafetyClass) :=
  match op with
  | Define facts => Ok <$> classify_defined (defined_functions facts) FormalOnly facts
  | Redefine expected replacement => classify_redefinition expected replacement
  | Undefine fact => Ok <$> classify_undefined_fact fact
  end.

Definition classify_schema_operation_safety (op : SchemaOperation) : option SafetyClass :=
  match classify_operation_safety op with
  | Some (Ok class) => Some class
  | Some (Err _) => Some Unsupported
  | None => None
  end.

Record DeltaSafetyReason : Set :=
  safety_reason { operation_index : nat; reason_fact_id : SchemaFactId; reason_class : SafetyClass }.

Record DeltaSafetyReport : Set :=
  safety_report { report_class : SafetyClass; reasons : list DeltaSafetyReason }.

Fixpoint delta_reasons (index : nat) (ops : list SchemaOperation) : option (list DeltaSafetyReason) :=
  match ops with
  | [] => Some []
  | op :: ops =>
      match classify_schema_operation_safety op, delta_reasons (S index) ops with
      | Some class, Some rest =>
          Some (map (fun fact_id => safety_reason index fact_id class) (affected_ids op) ++ rest)
      | _, _ => None
      end
  end.

(** [Iterator::max]: the last of the greatest. *)
Definition max_class (l : list SafetyClass) : option SafetyClass :=
  match l with
  | [] => None
  | c :: l => Some (fold_left (fun m d => if safety_rank d <? safety_rank m then m else d) l c)
  end.

Definition classify_delta_safety (delta : SchemaDelta) : option DeltaSafetyReport :=
  match delta_reasons 0 (operations delta) with
  | Some reasons => Some (safety_report (default FormalOnly (max_class (map reason_class reasons))) reasons)
  | None => None
  end.

(** ** Totality on constructed operations *)

Definition at_most (a b : SafetyClass) : Prop := safety_rank a <= safety_rank b.

#[global] Instance at_most_refl : Reflexive at_most.
Proof. intros a. unfold at_most. lia. Qed.
#[global] Instance at_most_trans : Transitive at_most.
Proof. intros a b c. unfold at_most. lia. Qed.

Lemma safety_max_at_most a b c : at_most (safety_max a b) c <-> at_most a c /\ at_most b c.
Proof. unfold safety_max, at_most. destruct (Z.ltb_spec (safety_rank b) (safety_rank a)); lia. Qed.

Lemma classify_annotation_total id v t e : is_Some (classify_annotation id v t e).
Proof.
  unfold classify_annotation. destruct (annotation_supported _ _); [|by eexists]. simpl.
  destruct (is_sub (subject id)); [by eexists|].
  destruct (annotation_kind id); cbn [is_metadata orb kind_safety]; repeat case_match; by eexists.
Qed.

Lemma classify_defined_fact_total f fns : is_Some (classify_defined_fact f fns).
Proof.
  destruct f as [| | | |? [] ?| | | |]; cbn [classify_defined_fact classify_fact]; try by eexists.
  case_match; [by eexists|apply classify_annotation_total].
Qed.

Lemma classify_undefined_fact_total f : is_Some (classify_undefined_fact f).
Proof.
  destruct f as [| | | |? [] ?| | | |]; cbn [classify_undefined_fact classify_fact]; try by eexists.
  apply classify_annotation_total.
Qed.

Lemma classify_defined_spec fns s fs :
  exists class, classify_defined fns s fs = Some class /\
  forall c, at_most class c <->
    at_most s c /\ forall f d, f ∈ fs -> classify_defined_fact f fns = Some d -> at_most d c.
Proof.
  revert s. induction fs as [|f fs IH]; intros s; cbn [classify_defined].
  - exists s. split; [done|]. intros c. split; [|tauto]. intros H. split; [done|]. intros f d Hf. by apply not_elem_of_nil in Hf.
  - destruct (classify_defined_fact_total f fns) as [d Hd]. rewrite Hd.
    destruct (IH (safety_max s d)) as (class & Hc & Hs). exists class. split; [done|].
    intros c. rewrite (Hs c), safety_max_at_most. split.
    + intros [[H1 H2] H3]. split; [done|]. intros g d' [->|Hg]%elem_of_cons Hg'; [congruence|eauto].
    + intros [H1 H2]. split_and!; [done|by apply (H2 f d); [left|]|].
      intros g d' Hg. apply H2. by right.
Qed.

Lemma classify_redefinition_total e r :
  fact_id e = fact_id r -> e <> r -> exists class, classify_redefinition e r = Some (Ok class).
Proof.
  intros Hi Hn. unfold classify_redefinition.
  destruct e as [| | | |ie se me| | ie ve| |], r as [| | | |ir sr mr| | ir vr| |]; try discriminate;
    cbn [discriminant classify_fact]; try by eexists.
  - destruct (bool_decide (me = mr)) eqn:Em; [|by eexists].
    destruct (bool_decide (se = sr)) eqn:Es; [|by eexists].
    apply bool_decide_eq_true in Em, Es. destruct Hn. by injection Hi as [= ->]; subst.
  - destruct (classify_annotation_total ir vr TChange (Some ve)) as [c ->]. by eexists.
Qed.

Lemma classify_total op : valid_operation op -> exists class, classify_operation_safety op = Some (Ok class).
Proof.
  destruct op as [fs|e r|f]; intros Hv; cbn [classify_operation_safety].
  - destruct (classify_defined_spec (defined_functions fs) FormalOnly fs) as (c & -> & _). by eexists.
  - by apply classify_redefinition_total; apply Hv.
  - destruct (classify_undefined_fact_total f) as [c ->]. by eexists.
Qed.

(** ** Reports *)

Lemma max_class_spec l class : max_class l = Some class ->
  class ∈ l /\ forall c, c ∈ l -> at_most c class.
Proof.
  destruct l as [|d l]; [done|]. cbn [max_class]. intros [= <-]. revert d.
  induction l as [|e l IH]; intros d; cbn [fold_left].
  - split; [by left|]. intros c [->|Hc]%elem_of_cons; [done|by apply not_elem_of_nil in Hc].
  - destruct (Z.ltb_spec (safety_rank e) (safety_rank d)) as [Hlt|Hge].
    + destruct (IH d) as [H1 H2]. split.
      * apply elem_of_cons in H1 as [->|H1]; [by left|by right; right].
      * intros c [->|[->|Hc]%elem_of_cons]%elem_of_cons; [apply H2; by left| |by apply H2; right].
        trans d; [unfold at_most; lia|]. apply H2. by left.
    + destruct (IH e) as [H1 H2]. split; [by right|].
      intros c [->|Hc]%elem_of_cons; [|by apply H2].
      trans e; [unfold at_most; lia|]. apply H2. by left.
Qed.

(** The operation at [i] has the class [c] and the identity [id] among its affected ones. *)
Definition reason_for (start : nat) (ops : list SchemaOperation) (r : DeltaSafetyReason) : Prop :=
  exists i op, ops !! i = Some op /\ operation_index r = (start + i)%nat /\
    reason_fact_id r ∈ affected_ids op /\ classify_operation_safety op = Some (Ok (reason_class r)).

Lemma delta_reasons_spec ops k :
  Forall valid_operation ops ->
  exists rs, delta_reasons k ops = Some rs /\ map reason_fact_id rs = ops ≫= affected_ids /\
  forall r, r ∈ rs <-> reason_for k ops r.
Proof.
  intros Hv. revert k. induction Hv as [|op ops Ho Hv IH]; intros k; cbn [delta_reasons].
  - exists []. split_and!; [done..|]. intros r. split; [by intros ?%not_elem_of_nil|].
    by intros (i & op & Hi & _).
  - destruct (classify_total op Ho) as [class Hc]. destruct (IH (S k)) as (rs & -> & Hids & Hrs).
    unfold classify_schema_operation_safety. rewrite Hc. eexists. split; [done|]. split.
    + rewrite map_app, map_map, map_id, bind_cons. by f_equal.
    + intros r. rewrite elem_of_app, Hrs. split.
      * intros [(id & -> & Hid)%list_elem_of_fmap|(i & op' & Hi & Hx & Ha)]; [by exists 0%nat, op; rewrite Nat.add_0_r|].
        exists (S i), op'. split; [done|]. split; [lia|done].
      * intros ([|i] & op' & Hi & Hx & Hid & Ha); simpl in Hi.
        -- left. injection Hi as <-. rewrite Nat.add_0_r in Hx. apply list_elem_of_fmap.
           exists (reason_fact_id r). split; [|done]. destruct r; simpl in *. congruence.
        -- right. exists i, op'. split; [done|]. split; [lia|done].
Qed.

(** Every constructed operation affects some fact. *)
Lemma affected_nonempty op : valid_operation op -> exists id, id ∈ affected_ids op.
Proof.
  destruct op as [[|f fs]|e r|f]; intros Hv; [by destruct Hv as [? _]|..];
    eexists; apply elem_of_cons; by left.
Qed.

Lemma classify_delta_spec delta :
  Forall valid_operation (operations delta) ->
  exists report, classify_delta_safety delta = Some report /\
  map reason_fact_id (reasons report) = operations delta ≫= affected_ids /\
  (forall r, r ∈ reasons report <-> reason_for 0 (operations delta) r) /\
  (forall c, at_most (report_class report) c <->
     forall op class, op ∈ operations delta -> classify_operation_safety op = Some (Ok class) -> at_most class c) /\
  (operations delta <> [] -> exists op, op ∈ operations delta /\
     classify_operation_safety op = Some (Ok (report_class report))).
Proof.
  intros Hv. unfold classify_delta_safety.
  destruct (delta_reasons_spec (operations delta) 0 Hv) as (rs & -> & Hids & Hrs).
  eexists. split; [done|]. cbn [reasons report_class]. split; [done|]. split; [done|].
  destruct (max_class (map reason_class rs)) as [class|] eqn:Em; cbn [default].
  - apply max_class_spec in Em as [Hin Hmax]. apply list_elem_of_fmap in Hin as (r & -> & Hr).
    apply Hrs in Hr as (i & op & Hi & _ & _ & Hc). apply list_elem_of_lookup_2 in Hi. split.
    + intros c. split; [|intros H; by apply (H op)]. intros Hle op' class Ho Hop.
      trans (reason_class r); [|done]. apply Hmax.
      apply list_elem_of_lookup in Ho as [j Hj].
      destruct (affected_nonempty op') as [id Hid]; [by eapply Forall_lookup|].
      apply list_elem_of_fmap. exists (safety_reason j id class). split; [done|]. apply Hrs.
      by exists j, op'.
    + intros _. by exists op.
  - assert (operations delta = []) as Ho.
    { destruct (operations delta) as [|op ops] eqn:E; [done|]. apply Forall_cons in Hv as [Ho _].
      destruct (affected_nonempty op Ho) as [id Hid]. destruct (classify_total op Ho) as [class Hc].
      assert (safety_reason 0 id class ∈ rs) as Hr by (apply Hrs; by exists 0%nat, op).
      destruct rs; [by apply not_elem_of_nil in Hr|done]. }
    rewrite Ho. split; [|done]. intros c. split; [|destruct c; unfold at_most; simpl; lia].
    intros _ op class Hop. by apply not_elem_of_nil in Hop.
Qed.

(** ** What the class of a delta says about its effect *)

Definition is_annotation (f : SchemaFact) : bool :=
  match f with FactAnnotation _ _ => true | _ => false end.

(** Facts whose definition restricts nothing that existed. *)
Definition plain (f : SchemaFact) : bool :=
  match f with
  | FactSub _ | FactRelates _ (Some _) _ | FactStruct _ => false
  | _ => true
  end.

Definition constraining (k : AnnotationKindId) : bool :=
  match k with Abstract | Key | Unique | Distinct | Regex | Range | Values => true | _ => false end.

(** Numbers of instances an interval admits. *)
Definition admits (i : interval) (n : Z) : Prop :=
  i.1 <= n /\ match i.2 with Some m => n <= m | None => True end.

(** The cardinality in force for a subject. *)
Definition effective (m : Facts) (s : AnnotationSubjectId) : interval :=
  match mget (IdAnnotation (annotation_id s Card)) m with
  | Some (FactAnnotation _ v) => default (0, None) (annotation_cardinality v)
  | _ => default (0, None) (default_cardinality s)
  end.

(** Whatever satisfied [m] satisfies [m']: no fact is lost or replaced, no
    subtype edge, specialization or struct is new, no constraint is new or
    changed, independence is kept and cardinalities only widen. *)
Record weakened (m m' : Facts) : Prop := {
  weak_kept : forall k f, mget k m = Some f -> is_annotation f = false -> mget k m' = Some f;
  weak_plain : forall k f, mget k m' = Some f -> plain f = false -> mget k m = Some f;
  weak_constraints : forall i f, constraining (annotation_kind i) = true ->
    mget (IdAnnotation i) m' = Some f -> mget (IdAnnotation i) m = Some f;
  weak_independent : forall s f, mget (IdAnnotation (annotation_id s Independent)) m = Some f ->
    mget (IdAnnotation (annotation_id s Independent)) m' = Some f;
  weak_cardinality : forall s n, is_Some (default_cardinality s) ->
    admits (effective m s) n -> admits (effective m' s) n }.

#[global] Instance weakened_refl : Reflexive weakened.
Proof. by intros m. Qed.

#[global] Instance weakened_trans : Transitive weakened.
Proof. intros m1 m2 m3 [a1 a2 a3 a4 a5] [b1 b2 b3 b4 b5]. split; eauto. Qed.

(** The change of one entry under an operation of class at most [Additive]. *)
Definition allowed (old new : option SchemaFact) : Prop :=
  match old, new with
  | None, None => True
  | None, Some f => exists fns d, classify_defined_fact f fns = Some d /\ at_most d Additive
  | Some e, Some r => e = r \/ exists d, classify_redefinition e r = Some (Ok d) /\ at_most d Additive
  | Some f, None => exists d, classify_undefined_fact f = Some d /\ at_most d Additive
  end.

Lemma allowed_refl o : allowed o o.
Proof. destruct o; simpl; auto. Qed.

Lemma step_allowed m op m' class k :
  valid_operation op -> step m op m' ->
  classify_operation_safety op = Some (Ok class) -> at_most class Additive ->
  allowed (mget k m) (mget k m').
Proof.
  intros Hv Hs Hc Ha. destruct Hs as [fs _ Hfresh _|e r _ He _|f _ Hf _ _]; cbn [classify_operation_safety] in Hc.
  - destruct (decide (k ∈ map fact_id fs)) as [Hk|Hk].
    + apply list_elem_of_fmap in Hk as (f & -> & Hf). rewrite (Hfresh f Hf).
      rewrite mget_inserted_in by (done || apply ssorted_NoDup, Hv). simpl.
      destruct (classify_defined_spec (defined_functions fs) FormalOnly fs) as (c & Hcc & Hcs).
      rewrite Hcc in Hc. injection Hc as ->. apply Hcs in Ha as [_ Ha].
      destruct (classify_defined_fact_total f (defined_functions fs)) as [d Hd]. eauto.
    + rewrite mget_inserted; [apply allowed_refl|]. intros f Hf ->. by apply Hk, (list_elem_of_fmap_2 fact_id).
  - rewrite mget_mins. destruct (oeqb_spec (fact_id e) k) as [<-|_]; [|apply allowed_refl].
    rewrite He. right. eauto.
  - rewrite mget_mdel. destruct (oeqb_spec (fact_id f) k) as [<-|_]; [|apply allowed_refl].
    rewrite Hf. destruct (classify_undefined_fact f) as [d|] eqn:E; [|done].
    injection Hc as ->. simpl. eauto.
Qed.

Ltac refuse := unfold at_most in *; simp; simpl in *; lia.

Lemma allowed_kept f o : allowed (Some f) o -> is_annotation f = false -> o = Some f.
Proof.
  destruct o as [r|]; simpl.
  - intros [->|(d & Hd & Ha)] Hf; [done|]. exfalso.
    destruct f as [| | | |? sf mf| | | |], r as [| | | |? sr mr| | | |]; cbn in Hd; simp; try refuse.
    repeat case_match; simp; refuse.
  - intros (d & Hd & Ha) Hf. exfalso. destruct f as [| | | |? [] ?| | | |]; cbn in Hd; simp; refuse.
Qed.

Lemma allowed_plain o f : allowed o (Some f) -> plain f = false -> o = Some f.
Proof.
  destruct o as [e|]; simpl.
  - intros [->|(d & Hd & Ha)] Hf; [done|]. exfalso.
    destruct e as [| | | |? se me| | | |], f as [| | | |? sf mf| | | |]; cbn in Hd; simp; try refuse.
    repeat case_match; simp; refuse.
  - intros (fns & d & Hd & Ha) Hf. exfalso. destruct f as [| | | |? [] ?| | | |]; cbn in Hd; simp; refuse.
Qed.

Lemma additive_not_constraining i v t e d :
  constraining (annotation_kind i) = true -> t <> TRemove ->
  classify_annotation i v t e = Some d -> ~ at_most d Additive.
Proof.
  unfold classify_annotation. intros Hk Ht Hd Ha. destruct (annotation_supported _ _) eqn:Es; cbn [negb] in Hd; [|refuse].
  destruct (is_sub (subject i)) eqn:Eb.
  { destruct (subject i); try done. by destruct (annotation_kind i). }
  destruct (annotation_kind i), t; try done; cbn in Hd; simp; refuse.
Qed.

Lemma additive_keeps_independent s v t e d :
  t <> TAdd -> classify_annotation (annotation_id s Independent) v t e = Some d -> ~ at_most d Additive.
Proof.
  unfold classify_annotation. cbn [subject annotation_kind]. intros Ht Hd Ha. destruct s, t; try done; cbn in Hd; simp; refuse.
Qed.

Definition widens (from to : interval) : Prop := forall n, admits from n -> admits to n.

Lemma interval_contains_admits outer inner : interval_contains outer inner = true -> widens inner outer.
Proof.
  unfold interval_contains, widens, admits. intros [H1%Z.leb_le H2]%andb_true_iff n [H3 H4].
  split; [lia|]. destruct outer as [? [o|]], inner as [? [j|]]; simpl in *; try done. apply Z.leb_le in H2. lia.
Qed.

Lemma transition_widens from to : at_most (cardinality_transition_safety from to) Additive -> widens from to.
Proof.
  unfold cardinality_transition_safety. case_bool_decide as E; [subst; by intros _ n|].
  destruct (interval_contains to from) eqn:E1; [intros _; by apply interval_contains_admits|].
  destruct (interval_contains from to); unfold at_most; simpl; lia.
Qed.

(** The interval of a cardinality annotation, and the change it makes. *)
Lemma additive_cardinality s v t e d dflt :
  default_cardinality s = Some dflt ->
  classify_annotation (annotation_id s Card) v t e = Some d -> at_most d Additive ->
  exists target, annotation_cardinality v = Some target /\
  match t with
  | TAdd => widens dflt target
  | TRemove => widens target dflt
  | TChange => exists source, e ≫= annotation_cardinality = Some source /\ widens source target
  end.
Proof.
  intros Hs Hd Ha. unfold classify_annotation in Hd. cbn [subject annotation_kind] in Hd.
  assert (annotation_supported s Card = true) as Hsup by (by destruct s).
  assert (is_sub s = false) as Hsub by (by destruct s).
  rewrite Hsup, Hsub in Hd. cbn [negb orb is_metadata kind_safety] in Hd. rewrite Hs in Hd.
  destruct (annotation_cardinality v) as [target|]; [|exfalso; refuse].
  exists target. split; [done|]. destruct t.
  - injection Hd as <-. by apply transition_widens.
  - destruct (e ≫= annotation_cardinality) as [source|]; [|exfalso; refuse].
    injection Hd as <-. exists source. split; [done|]. by apply transition_widens.
  - injection Hd as <-. by apply transition_widens.
Qed.

Lemma allowed_constraints i o v :
  constraining (annotation_kind i) = true ->
  allowed o (Some (FactAnnotation i v)) -> o = Some (FactAnnotation i v).
Proof.
  intros Hk. destruct o as [e|]; simpl.
  - intros [->|(d & Hd & Ha)]; [done|]. exfalso.
    destruct e as [| | | | | |ie ve| |]; cbn in Hd; simp; try refuse.
    destruct (classify_annotation i v TChange (Some ve)) eqn:E; [|discriminate Hd]. injection Hd as ->.
    exact (additive_not_constraining _ _ TChange _ _ Hk ltac:(done) E Ha).
  - intros (fns & d & Hd & Ha). exfalso. cbn in Hd.
    assert (is_metadata (annotation_kind i) = false) as Hm by (by destruct (annotation_kind i)).
    rewrite Hm, andb_false_r in Hd. exact (additive_not_constraining _ _ TAdd _ _ Hk ltac:(done) Hd Ha).
Qed.

Lemma allowed_independent s v o :
  allowed (Some (FactAnnotation (annotation_id s Independent) v)) o ->
  (forall r, o = Some r -> fact_id r = IdAnnotation (annotation_id s Independent)) ->
  o = Some (FactAnnotation (annotation_id s Independent) v).
Proof.
  intros Hal Hkey. destruct o as [r|]; simpl in Hal.
  - destruct Hal as [->|(d & Hd & Ha)]; [done|]. exfalso. specialize (Hkey r eq_refl).
    destruct r as [| | | | | |ir vr| |]; try done. injection Hkey as ->. cbn in Hd.
    destruct (classify_annotation _ vr TChange _) eqn:E; [|discriminate Hd]. injection Hd as ->. exact (additive_keeps_independent _ _ TChange _ _ ltac:(done) E Ha).
  - destruct Hal as (d & Hd & Ha). exfalso. exact (additive_keeps_independent _ _ TRemove _ _ ltac:(done) Hd Ha).
Qed.

Lemma allowed_cardinality m m' s :
  keyed m -> keyed m' -> is_Some (default_cardinality s) ->
  allowed (mget (IdAnnotation (annotation_id s Card)) m) (mget (IdAnnotation (annotation_id s Card)) m') ->
  widens (effective m s) (effective m' s).
Proof.
  intros [_ Hk] [_ Hk'] [dflt Hs]. unfold effective. rewrite Hs.
  destruct (mget _ m) as [f|] eqn:E; destruct (mget _ m') as [f'|] eqn:E'; simpl; [| | |by intros _ n].
  - apply Hk in E. apply Hk' in E'. destruct f as [| | | | | |i v| |]; try done.
    destruct f' as [| | | | | |i' v'| |]; try done. injection E as <-. injection E' as <-.
    intros [[= ->]|(d & Hd & Ha)]; [by intros n|]. cbn in Hd.
    destruct (classify_annotation _ v' TChange _) eqn:Ec; [|discriminate Hd]. injection Hd as ->.
    eapply additive_cardinality in Ec as (target & -> & source & Hsrc & Hw); [|done..]. simpl in Hsrc. by rewrite Hsrc.
  - apply Hk in E. destruct f as [| | | | | |i v| |]; try done. injection E as <-.
    intros (d & Hd & Ha). cbn in Hd. eapply additive_cardinality in Hd as (target & -> & Hw); done.
  - apply Hk' in E'. destruct f' as [| | | | | |i' v'| |]; try done. injection E' as <-.
    intros (fns & d & Hd & Ha). cbn [classify_defined_fact annotation_kind is_metadata] in Hd.
    rewrite andb_false_r in Hd. eapply additive_cardinality in Hd as (target & -> & Hw); done.
Qed.

Lemma step_weakened m op m' class :
  valid_operation op -> keyed m -> step m op m' ->
  classify_operation_safety op = Some (Ok class) -> at_most class Additive -> weakened m m'.
Proof.
  intros Hv Hk Hs Hc Ha. pose proof (step_keyed m op m' Hv Hk Hs) as Hk'.
  assert (forall k, allowed (mget k m) (mget k m')) as Hal by (intros k; by eapply step_allowed).
  split.
  - intros k f Hf. specialize (Hal k). rewrite Hf in Hal. by apply allowed_kept.
  - intros k f Hf. specialize (Hal k). rewrite Hf in Hal. by apply allowed_plain.
  - intros i f Hi Hf. specialize (Hal (IdAnnotation i)). rewrite Hf in Hal.
    assert (IdAnnotation i = fact_id f) as E by (by apply Hk'). destruct f as [| | | | | |j v| |]; try done.
    injection E as <-. by apply allowed_constraints.
  - intros s f Hf. specialize (Hal (IdAnnotation (annotation_id s Independent))). rewrite Hf in Hal.
    assert (IdAnnotation (annotation_id s Independent) = fact_id f) as E by (by apply Hk).
    destruct f as [| | | | | |j v| |]; try done. injection E as <-. apply allowed_independent; [done|].
    intros r Hr. symmetry. by apply Hk'.
  - intros s n Hd. by apply allowed_cardinality.
Qed.

Lemma steps_weakened m ops m' :
  steps m ops m' -> keyed m -> Forall valid_operation ops ->
  (forall op class, op ∈ ops -> classify_operation_safety op = Some (Ok class) -> at_most class Additive) ->
  weakened m m'.
Proof.
  induction 1 as [|m op m1 ops m' Hs _ IH]; intros Hk Hv Ha; [done|].
  apply Forall_cons in Hv as [Ho Hv]. destruct (classify_total op Ho) as [class Hc].
  trans m1.
  - eapply step_weakened; [done..|]. apply (Ha op); [by left|done].
  - apply IH; [by eapply step_keyed|done|]. intros op' class' Hin. apply Ha. by right.
Qed.

(** C18. A delta whose safety report is at most [Additive] restricts nothing:
    when its operations replay on a valid source declaration, every type,
    subtype, value, ownership, role, player, function and struct fact of the
    source is still there unchanged, no subtype edge, role specialization or
    struct is new, every constraint annotation of the result was there before
    with the same value, independence is kept, and every cardinality in force
    (explicit or by default) admits all counts it admitted before. *)
Theorem additive_report_weakens source delta report m spans :
  spanned source -> Forall valid_operation (operations delta) ->
  classify_delta_safety delta = Some report -> at_most (report_class report) Additive ->
  replay source (operations delta) = Ok (m, spans) ->
  weakened (facts source) m.
Proof.
  intros Hd Hv Hr Ha Hrep. destruct (replay_sound _ _ _ _ Hd Hv Hrep) as [Hst _].
  destruct (classify_delta_spec delta Hv) as (report' & Hr' & _ & _ & Hc & _).
  rewrite Hr in Hr'. injection Hr' as <-. rewrite (Hc Additive) in Ha.
  apply (steps_weakened _ _ _ Hst); [apply Hd|done|done].
Qed.

(** The report of a delta that [SchemaDelta::new] accepted: it always
    exists (no operation reaches an unreachable arm or is malformed), lists
    exactly one reason per changed fact, with the index and the class of its
    operation, and its class is the greatest class of the operations, or
    [FormalOnly] when there are none. *)
Theorem delta_report_exact source target ops delta :
  ssorted (selection source) -> Forall valid_operation ops ->
  SchemaDelta_new Patch_V1 source target ops = Ok delta ->
  exists report, classify_delta_safety delta = Some report /\
  map reason_fact_id (reasons report) = ops ≫= affected_ids /\
  NoDup (map reason_fact_id (reasons report)) /\
  (forall r, r ∈ reasons report <-> reason_for 0 ops r) /\
  (forall op class, op ∈ ops -> classify_operation_safety op = Some (Ok class) ->
     at_most class (report_class report)) /\
  (report_class report = FormalOnly \/
   exists op, op ∈ ops /\ classify_operation_safety op = Some (Ok (report_class report))).
Proof.
  intros Hs Hv Hd. apply schema_delta_new_ok in Hd as (_ & Ha & ->); [|done].
  destruct (classify_delta_spec (schema_delta Patch_V1 ops (derived_capabilities source target ops) source target))
    as (report & Hr & Hids & Hrs & Hmax & Hatt); [done|]. cbn [operations] in *.
  exists report. split; [done|]. split; [done|]. split; [rewrite Hids; apply Ha|]. split; [done|].
  split; [by apply Hmax|].
  destruct ops; [left|right; by apply Hatt].
  unfold classify_delta_safety in Hr. cbn in Hr. by injection Hr as <-.
Qed.

(** ** Examples *)

Definition example_delta : SchemaDelta :=
  schema_delta Patch_V1 [Define [FactType example_company]] [] example_source example_target.

Lemma additive_report_weakens_w :
  exists m, weakened (facts (declared example_facts)) m /\ is_Some (mget (IdType example_company) m).
Proof.
  destruct (replay (declared example_facts) (operations example_delta)) as [[m sp]|e] eqn:E;
    [|vm_compute in E; discriminate].
  exists m. split.
  - apply (additive_report_weakens (declared example_facts) example_delta
             (safety_report Additive [safety_reason 0 (IdType example_company) Additive]) m sp).
    + apply declared_spanned. apply (bool_decide_unpack _). vm_compute. exact I.
    + constructor; [|constructor]. split_and!; [discriminate|vm_compute; discriminate|repeat constructor].
    + vm_compute. reflexivity.
    + vm_compute. discriminate.
    + exact E.
  - vm_compute in E. injection E as <- _. by eexists.
Defined.

Lemma delta_report_exact_w :
  exists report, classify_delta_safety (schema_delta Patch_V1 example_operations [] example_source example_target)
    = Some report /\ NoDup (map reason_fact_id (reasons report)).
Proof.
  destruct (delta_report_exact example_source example_target example_operations
    (schema_delta Patch_V1 example_operations [] example_source example_target)) as (r & H1 & _ & H2 & _).
  - repeat constructor.
  - constructor; [|constructor]. split_and!; [discriminate|vm_compute; discriminate|repeat constructor].
  - vm_compute. reflexivity.
  - exists r. split; [exact H1|exact H2].
Defined.

End Safety.
