(* ===== verification/Assertion.v ===== *)
(** * Migration assertions (contract/src/migration_assertion.rs)

    The typed pattern algebra of migration assertions and the validating plan
    constructor: dense bindings, canonical output and witness sets, the walk of
    the pattern trees under the structural limits, and the capabilities derived
    from the syntax. *)

From S2P Require Import Prelude BTree Text Ident Value Fingerprint Schema Components SchemaDelta Limits.
Import Ident Value Fingerprint Schema Components SchemaDelta Limits.
#[local] Open Scope nat_scope.

Module Assertion.

(** ** Syntax *)

Definition BindingId : Set := nat.

Definition BindingId_new (value : nat) : result Diagnostic BindingId :=
  if (Z.of_nat value <? MAX_BINDINGS)%Z then Ok value
  else Err (stable ResourceLimit "migration_assertion_binding_id_out_of_range").

Definition QueryVariable : Set := str.

Definition variable_byte (b : ascii) : bool := is_ascii_lowercase b || is_ascii_digit b || oeqb b "_"%char.

Definition QueryVariable_new (value : str) : result Diagnostic QueryVariable :=
  if negb (bool_decide (value = [])) && (Z.of_nat (length value) <=? MAX_OUTPUT_NAME_BYTES)%Z
     && match value with
        | [] => false
        | b :: rest => is_ascii_lowercase b && forallb variable_byte rest
        end
  then Ok value
  else Err (invalid "migration_assertion_invalid_variable").

Record AssertionBinding : Set := assertion_binding { binding_id : BindingId; variable : QueryVariable }.

Record AssertionRolePlayer : Set := role_player { player_binding : BindingId; player_role : RoleId }.

Inductive ValueComparator : Set := Equal | NotEqual | Less | LessOrEqual | Greater | GreaterOrEqual.

Inductive ValueOperand : Set :=
| OperandBinding (binding : BindingId)
| OperandLiteral (value : CanonicalValue).

#[warnings="-register-all"]
Inductive AssertionPattern : Set :=
| Isa (binding : BindingId) (include_subtypes : bool) (type_id : TypeId)
| Has (attribute : BindingId) (attribute_id : AttributeId) (owner : BindingId)
| Links (players : list AssertionRolePlayer) (relation : BindingId) (relation_id : TypeId)
| ValuePattern (comparator : ValueComparator) (lhs rhs : ValueOperand)
| Not (patterns : list AssertionPattern).

Inductive AssertionExpectation : Set := NoRows.

Record MigrationAssertionPlan : Set := assertion_plan {
  plan_bindings : list AssertionBinding;
  expectation : AssertionExpectation;
  plan_format : FormatVersion;
  managed_semantics : Fingerprint.Fingerprint;
  outputs : list BindingId;
  patterns : list AssertionPattern;
  plan_capabilities : CapabilitySet;
  witnesses : list BindingId }.

(** ** Validation *)

Definition check_binding (binding : BindingId) (binding_count : nat) : result Diagnostic () :=
  if binding <? binding_count then Ok tt else Err (invalid "migration_assertion_unknown_binding").

Definition check_operand (operand : ValueOperand) (binding_count : nat) : result Diagnostic () :=
  match operand with
  | OperandBinding binding => check_binding binding binding_count
  | OperandLiteral _ => Ok tt
  end.

(** The dense-ordinal and unique-variable loop. *)
Fixpoint check_bindings (index : nat) (variables : BTreeSet QueryVariable) (l : list AssertionBinding)
    : result Diagnostic () :=
  match l with
  | [] => Ok tt
  | b :: l =>
      if negb (binding_id b =? index) then Err (invalid "migration_assertion_bindings_not_dense")
      else if smem (variable b) variables then Err (invalid "migration_assertion_duplicate_variable")
      else check_bindings (S index) (sins (variable b) variables) l
  end.

(** [bindings.sort()] in place, then the checks; the sorted set is returned. *)
Definition canonical_binding_set (bindings : list BindingId) (binding_count : nat)
    : result Diagnostic (list BindingId) :=
  let bindings := vec_sort bindings in
  if adjacent bindings then Err (invalid "migration_assertion_duplicate_binding_set_member")
  else
    let? _ := try_map (fun binding => check_binding binding binding_count) bindings in
    Ok bindings.

(** [stats.nodes] is threaded through the walk. *)
Fixpoint inspect_pattern (pattern : AssertionPattern) (depth binding_count : nat) (limits : StructuralLimits)
    (nodes : nat) : result Diagnostic nat :=
  let nodes := S nodes in
  if negb (allows_predicate_nodes limits (Z.of_nat nodes))
  then Err (stable ResourceLimit "migration_assertion_pattern_node_limit")
  else if negb (allows_predicate_depth limits (Z.of_nat depth))
  then Err (stable ResourceLimit "migration_assertion_pattern_depth_limit")
  else match pattern with
  | Isa binding _ _ => let? _ := check_binding binding binding_count in Ok nodes
  | Has attribute _ owner =>
      let? _ := check_binding owner binding_count in
      let? _ := check_binding attribute binding_count in
      Ok nodes
  | Links players relation _ =>
      let? _ := check_binding relation binding_count in
      if bool_decide (length players = 0) || (boolean_terms limits <? Z.of_nat (length players))%Z
      then Err (stable ResourceLimit "migration_assertion_role_player_limit")
      else
        let? _ := try_map (fun p => check_binding (player_binding p) binding_count) players in
        Ok nodes
  | ValuePattern _ lhs rhs =>
      let? _ := check_operand lhs binding_count in
      let? _ := check_operand rhs binding_count in
      Ok nodes
  | Not patterns =>
      if bool_decide (length patterns = 0) || (boolean_terms limits <? Z.of_nat (length patterns))%Z
      then Err (stable ResourceLimit "migration_assertion_negation_term_limit")
      else try_fold (fun nodes child => inspect_pattern child (S depth) binding_count limits nodes) nodes patterns
  end.

Definition CAP_ASSERTION : CapabilityId := b#"query.migration-assertion".
Definition CAP_ISA : CapabilityId := b#"query.pattern.isa".
Definition CAP_ISA_SUBTYPES : CapabilityId := b#"query.pattern.isa-subtypes".
Definition CAP_HAS : CapabilityId := b#"query.pattern.has".
Definition CAP_LINKS : CapabilityId := b#"query.pattern.links".
Definition CAP_VALUE : CapabilityId := b#"query.pattern.value".
Definition CAP_NEGATION : CapabilityId := b#"query.pattern.negation".

Definition insert_capability (capabilities : CapabilitySet) (value : str) : result Diagnostic CapabilitySet :=
  let? c := CapabilityId_new value in Ok (sins c capabilities).

Fixpoint collect_capabilities (capabilities : CapabilitySet) (pattern : AssertionPattern)
    : result Diagnostic CapabilitySet :=
  match pattern with
  | Isa _ include_subtypes _ =>
      let? capabilities := insert_capability capabilities CAP_ISA in
      if include_subtypes then insert_capability capabilities CAP_ISA_SUBTYPES else Ok capabilities
  | Has _ _ _ => insert_capability capabilities CAP_HAS
  | Links _ _ _ => insert_capability capabilities CAP_LINKS
  | ValuePattern _ _ _ => insert_capability capabilities CAP_VALUE
  | Not patterns =>
      let? capabilities := insert_capability capabilities CAP_NEGATION in
      try_fold collect_capabilities capabilities patterns
  end.

Definition derive_capabilities (patterns : list AssertionPattern) : result Diagnostic CapabilitySet :=
  let? capabilities := insert_capability [] CAP_ASSERTION in
  try_fold collect_capabilities capabilities patterns.

Definition MigrationAssertionPlan_new_with_limits (bindings : list AssertionBinding)
    (patterns : list AssertionPattern) (outputs witnesses : list BindingId)
    (managed_semantics : Fingerprint.Fingerprint) (expectation : AssertionExpectation)
    (limits : StructuralLimits) : result Diagnostic MigrationAssertionPlan :=
  if bool_decide (length bindings = 0) || negb (allows_bindings limits (Z.of_nat (length bindings)))
  then Err (stable ResourceLimit "migration_assertion_binding_limit")
  else
  let? _ := check_bindings 0 [] bindings in
  let? outputs := canonical_binding_set outputs (length bindings) in
  let? witnesses := canonical_binding_set witnesses (length bindings) in
  if negb (allows_selected_slots limits (Z.of_nat (length outputs)))
  then Err (stable ResourceLimit "migration_assertion_output_limit")
  else if existsb (fun id => smem id witnesses) outputs
  then Err (invalid "migration_assertion_witness_is_output")
  else if bool_decide (length patterns = 0) || (boolean_terms limits <? Z.of_nat (length patterns))%Z
  then Err (stable ResourceLimit "migration_assertion_pattern_limit")
  else
  let? _ := try_fold (fun nodes pattern => inspect_pattern pattern 1 (length bindings) limits nodes) 0 patterns in
  let? required_capabilities := derive_capabilities patterns in
  Ok (assertion_plan bindings expectation V1 managed_semantics outputs patterns required_capabilities witnesses).

Definition MigrationAssertionPlan_new (bindings : list AssertionBinding)
    (patterns : list AssertionPattern) (outputs witnesses : list BindingId)
    (managed_semantics : Fingerprint.Fingerprint) (expectation : AssertionExpectation)
    : result Diagnostic MigrationAssertionPlan :=
  MigrationAssertionPlan_new_with_limits bindings patterns outputs witnesses managed_semantics expectation CANONICAL_STRUCTURAL_LIMITS.

(** ** Specification *)

Fixpoint nodes_of (p : AssertionPattern) : nat :=
  match p with Not ps => S (sum_list_with nodes_of ps) | _ => 1 end.

Fixpoint height_of (p : AssertionPattern) : nat :=
  match p with Not ps => S (max_list_with height_of ps) | _ => 1 end.

(** The capabilities the syntax of a pattern uses. *)
Fixpoint features (p : AssertionPattern) : list CapabilityId :=
  match p with
  | Isa _ include_subtypes _ => CAP_ISA :: if include_subtypes then [CAP_ISA_SUBTYPES] else []
  | Has _ _ _ => [CAP_HAS]
  | Links _ _ _ => [CAP_LINKS]
  | ValuePattern _ _ _ => [CAP_VALUE]
  | Not ps => CAP_NEGATION :: concat (map features ps)
  end.

Definition operand_ok (n : nat) (o : ValueOperand) : Prop :=
  match o with OperandBinding b => b < n | OperandLiteral _ => True end.

(** Every binding is declared and every conjunction is non-empty and bounded. *)
#[warnings="-register-all"]
Inductive pattern_ok (n : nat) (terms : Z) : AssertionPattern -> Prop :=
| ok_isa b i t : b < n -> pattern_ok n terms (Isa b i t)
| ok_has a i w : w < n -> a < n -> pattern_ok n terms (Has a i w)
| ok_links ps r t : r < n -> 1 <= length ps -> (Z.of_nat (length ps) <= terms)%Z ->
    Forall (fun p => player_binding p < n) ps -> pattern_ok n terms (Links ps r t)
| ok_value c l r : operand_ok n l -> operand_ok n r -> pattern_ok n terms (ValuePattern c l r)
| ok_not ps : 1 <= length ps -> (Z.of_nat (length ps) <= terms)%Z -> Forall (pattern_ok n terms) ps -> pattern_ok n terms (Not ps).

Record plan_ok (limits : StructuralLimits) (bindings : list AssertionBinding)
    (patterns : list AssertionPattern) (outputs witnesses : list BindingId) : Prop := {
  pok_bindings : 1 <= length bindings /\ (Z.of_nat (length bindings) <= bindings_limit limits)%Z;
  pok_dense : map binding_id bindings = seq 0 (length bindings);
  pok_variables : NoDup (map variable bindings);
  pok_outputs : NoDup outputs /\ Forall (fun b => b < length bindings) outputs;
  pok_witnesses : NoDup witnesses /\ Forall (fun b => b < length bindings) witnesses;
  pok_slots : (Z.of_nat (length outputs) <= selected_slots limits)%Z;
  pok_disjoint : forall b, b ∈ outputs -> b ∉ witnesses;
  pok_terms : 1 <= length patterns /\ (Z.of_nat (length patterns) <= boolean_terms limits)%Z;
  pok_patterns : Forall (pattern_ok (length bindings) (boolean_terms limits)) patterns;
  pok_nodes : (Z.of_nat (sum_list_with nodes_of patterns) <= predicate_nodes limits)%Z;
  pok_depth : Forall (fun p => (Z.of_nat (height_of p) <= predicate_depth limits)%Z) patterns }.

(** Induction on patterns through the nested lists. *)
Lemma pattern_ind (P : AssertionPattern -> Prop) :
  (forall b i t, P (Isa b i t)) -> (forall a i w, P (Has a i w)) -> (forall ps r t, P (Links ps r t)) ->
  (forall c l r, P (ValuePattern c l r)) -> (forall ps, Forall P ps -> P (Not ps)) -> forall p, P p.
Proof.
  intros H1 H2 H3 H4 H5. fix IH 1. intros [b i t|a i w|ps r t|c l r|ps]; [apply H1|apply H2|apply H3|apply H4|].
  apply H5. induction ps as [|p ps IHps]; constructor; [apply IH|exact IHps].
Qed.

(** ** The walk *)

Lemma check_binding_ok b n : check_binding b n = Ok tt <-> b < n.
Proof. unfold check_binding. destruct (Nat.ltb_spec b n); split; try done; lia. Qed.

Lemma check_operand_ok o n : check_operand o n = Ok tt <-> operand_ok n o.
Proof. destruct o; simpl; [apply check_binding_ok|done]. Qed.

Lemma try_map_check {A} (f : A -> nat) n l :
  is_ok (try_map (fun a => check_binding (f a) n) l) = true <-> Forall (fun a => f a < n) l.
Proof.
  induction l as [|a l IH]; simpl; [split; [constructor|done]|].
  rewrite Forall_cons, <- IH, <- check_binding_ok.
  destruct (check_binding (f a) n) as [[]|]; [|split; [done|by intros [? _]]].
  destruct (try_map _ l); simpl; split; (done || by intros [_ ?]).
Qed.

(** What one walk of a pattern at [depth] from [nodes] visited nodes says. *)
Definition walk_ok (limits : StructuralLimits) (n depth nodes nodes' : nat) (p : AssertionPattern) : Prop :=
  nodes' = nodes + nodes_of p /\ (Z.of_nat nodes' <= predicate_nodes limits)%Z /\
  (Z.of_nat (depth + height_of p) <= predicate_depth limits + 1)%Z /\ pattern_ok n (boolean_terms limits) p.

Lemma walk_children limits n depth ps nodes nodes' :
  Forall (fun p => forall nodes nodes',
    inspect_pattern p depth n limits nodes = Ok nodes' <-> walk_ok limits n depth nodes nodes' p) ps ->
  ps <> [] ->
  try_fold (fun nodes p => inspect_pattern p depth n limits nodes) nodes ps = Ok nodes' <->
  nodes' = nodes + sum_list_with nodes_of ps /\ (Z.of_nat nodes' <= predicate_nodes limits)%Z /\
  (Z.of_nat (depth + max_list_with height_of ps) <= predicate_depth limits + 1)%Z /\
  Forall (pattern_ok n (boolean_terms limits)) ps.
Proof.
  intros Hps Hne. revert nodes. induction Hps as [|p ps Hp Hps IH]; intros nodes; [done|].
  cbn [try_fold sum_list_with max_list_with]. rewrite Forall_cons.
  destruct ps as [|q ps].
  - cbn [try_fold sum_list_with max_list_with]. rewrite Nat.add_0_r, Nat.max_0_r.
    specialize (Hp nodes nodes'). unfold walk_ok in Hp. rewrite Forall_nil.
    destruct (inspect_pattern p depth n limits nodes) as [x|]; rewrite Hp; tauto.
  - destruct (inspect_pattern p depth n limits nodes) as [x|] eqn:E.
    + apply Hp in E as (-> & H2 & H3 & H4). rewrite (IH ltac:(done)). intuition lia.
    + split; [done|]. intros (-> & H2 & H3 & H4 & _).
      assert (inspect_pattern p depth n limits nodes = Ok (nodes + nodes_of p)) as E'; [|congruence].
      apply Hp. split_and!; [done|lia|lia|done].
Qed.

(** The two guards in front of every pattern. *)
Lemma guards_ok limits depth nodes nodes' (body : result Diagnostic nat) :
  (if negb (allows_predicate_nodes limits (Z.of_nat (S nodes)))
   then Err (stable ResourceLimit "migration_assertion_pattern_node_limit")
   else if negb (allows_predicate_depth limits (Z.of_nat depth))
   then Err (stable ResourceLimit "migration_assertion_pattern_depth_limit") else body) = Ok nodes' <->
  (Z.of_nat (S nodes) <= predicate_nodes limits)%Z /\ (Z.of_nat depth <= predicate_depth limits)%Z /\ body = Ok nodes'.
Proof.
  unfold allows_predicate_nodes, allows_predicate_depth.
  destruct (Z.leb_spec (Z.of_nat (S nodes)) (predicate_nodes limits)); cbn [negb]; [|split; [done|lia]].
  destruct (Z.leb_spec (Z.of_nat depth) (predicate_depth limits)); cbn [negb]; [tauto|split; [done|lia]].
Qed.

Lemma bounded_terms {A} (l : list A) (m : Z) (r : result Diagnostic nat) (e : Diagnostic) nodes' :
  (if bool_decide (length l = 0) || (m <? Z.of_nat (length l))%Z then Err e else r) = Ok nodes' <->
  (1 <= length l /\ (Z.of_nat (length l) <= m)%Z) /\ r = Ok nodes'.
Proof.
  case_bool_decide as H; cbn [orb]; [split; [done|lia]|].
  destruct (Z.ltb_spec m (Z.of_nat (length l))); [split; [done|lia]|]. split; [|tauto]. intros ->. split; [lia|done].
Qed.

(** A pattern without children. *)
Lemma leaf_ok limits n depth nodes nodes' p (checks : Prop) :
  nodes_of p = 1 -> height_of p = 1 -> (checks <-> pattern_ok n (boolean_terms limits) p) ->
  (Z.of_nat (S nodes) <= predicate_nodes limits)%Z /\ (Z.of_nat depth <= predicate_depth limits)%Z /\ (nodes' = S nodes /\ checks) <->
  walk_ok limits n depth nodes nodes' p.
Proof. unfold walk_ok. intros -> -> <-. split; intros; split_and!; (lia || tauto). Qed.

Lemma inspect_pattern_ok limits n p depth nodes nodes' :
  inspect_pattern p depth n limits nodes = Ok nodes' <-> walk_ok limits n depth nodes nodes' p.
Proof.
  revert depth nodes nodes'.
  induction p as [b i t|a i w|ps r t|c l r|ps IH] using pattern_ind; intros depth nodes nodes';
    cbn [inspect_pattern]; rewrite guards_ok.
  - rewrite <- (leaf_ok _ _ _ _ _ _ (check_binding b n = Ok tt)) by
      (first [done|rewrite check_binding_ok; split; [by constructor|by inversion 1]]).
    destruct (check_binding b n) as [[]|]; intuition congruence.
  - rewrite <- (leaf_ok _ _ _ _ _ _ (check_binding w n = Ok tt /\ check_binding a n = Ok tt)) by
      (first [done|rewrite !check_binding_ok; split; [intros []; by constructor|by inversion 1]]).
    destruct (check_binding w n) as [[]|]; [|intuition congruence].
    destruct (check_binding a n) as [[]|]; intuition congruence.
  - rewrite <- (leaf_ok _ _ _ _ _ _ (check_binding r n = Ok tt /\ (1 <= length ps /\ (Z.of_nat (length ps) <= boolean_terms limits)%Z) /\
      is_ok (try_map (fun p => check_binding (player_binding p) n) ps) = true)) by
      (first [done|rewrite check_binding_ok, try_map_check; split; [intros (? & [? ?] & ?); by constructor|by inversion 1]]).
    destruct (check_binding r n) as [[]|]; [|intuition congruence]. rewrite bounded_terms.
    destruct (try_map _ ps); simpl; intuition congruence.
  - rewrite <- (leaf_ok _ _ _ _ _ _ (check_operand l n = Ok tt /\ check_operand r n = Ok tt)) by
      (first [done|rewrite !check_operand_ok; split; [intros []; by constructor|by inversion 1]]).
    destruct (check_operand l n) as [[]|]; [|intuition congruence].
    destruct (check_operand r n) as [[]|]; intuition congruence.
  - rewrite bounded_terms. unfold walk_ok. cbn [nodes_of height_of].
    assert (pattern_ok n (boolean_terms limits) (Not ps) <->
      (1 <= length ps /\ (Z.of_nat (length ps) <= boolean_terms limits)%Z) /\ Forall (pattern_ok n (boolean_terms limits)) ps) as ->
      by (split; [by inversion 1|intros [[] ?]; by constructor]).
    destruct (decide (ps = [])) as [->|Hne]; [simpl; lia|].
    rewrite walk_children; [|eapply Forall_impl; [exact IH|]; intros p Hp; apply Hp|done].
    assert (1 <= sum_list_with nodes_of ps) by (destruct ps as [|[] ?]; simpl; done || lia).
    intuition lia.
Qed.

Lemma inspect_patterns_ok limits n ps :
  ps <> [] ->
  is_ok (try_fold (fun nodes p => inspect_pattern p 1 n limits nodes) 0 ps) = true <->
  (Z.of_nat (sum_list_with nodes_of ps) <= predicate_nodes limits)%Z /\
  Forall (fun p => (Z.of_nat (height_of p) <= predicate_depth limits)%Z) ps /\
  Forall (pattern_ok n (boolean_terms limits)) ps.
Proof.
  intros Hne. pose proof (walk_children limits n 1 ps 0) as Hw.
  assert (forall ps, ps <> [] -> (Z.of_nat (1 + max_list_with height_of ps) <= predicate_depth limits + 1)%Z <->
    Forall (fun p => (Z.of_nat (height_of p) <= predicate_depth limits)%Z) ps) as Hmax.
  { clear. induction ps as [|p ps IH]; intros Hne; [done|]. rewrite Forall_cons. destruct ps as [|q ps].
    - rewrite Forall_nil. cbn [max_list_with]. lia.
    - rewrite <- (IH ltac:(done)). cbn [max_list_with]. lia. }
  destruct (try_fold _ 0 ps) as [x|] eqn:E; simpl.
  - destruct (proj1 (Hw x ltac:(apply Forall_forall; intros; apply inspect_pattern_ok) Hne) eq_refl) as (-> & H1 & H2 & H3).
    apply (Hmax ps Hne) in H2. tauto.
  - split; [done|]. intros (H1 & H2%(Hmax ps Hne) & H3). exfalso.
    destruct (Hw (sum_list_with nodes_of ps)) as [_ Hb];
      [apply Forall_forall; intros; apply inspect_pattern_ok|done|].
    by specialize (Hb (conj eq_refl (conj H1 (conj H2 H3)))).
Qed.

(** ** Capabilities *)

(** The capability names of the syntax are canonical. *)
Definition canonical_caps : list CapabilityId :=
  [CAP_ASSERTION; CAP_ISA; CAP_ISA_SUBTYPES; CAP_HAS; CAP_LINKS; CAP_VALUE; CAP_NEGATION].

Lemma insert_capability_ok caps c : c ∈ canonical_caps -> insert_capability caps c = Ok (sins c caps).
Proof.
  intros Hc. unfold insert_capability.
  assert (CapabilityId_new c = Ok c) as ->; [|done].
  revert c Hc. apply Forall_forall. by repeat constructor.
Qed.

Ltac cap := rewrite insert_capability_ok by (unfold canonical_caps; set_solver).

Lemma collect_children ps caps :
  Forall (fun p => forall caps, collect_capabilities caps p = Ok (fold_left (fun s c => sins c s) (features p) caps)) ps ->
  try_fold collect_capabilities caps ps = Ok (fold_left (fun s c => sins c s) (concat (map features ps)) caps).
Proof.
  intros Hps. revert caps. induction Hps as [|p ps Hp _ IH]; intros caps; [done|].
  cbn [try_fold map concat]. rewrite Hp, IH, fold_left_app. done.
Qed.

Lemma collect_capabilities_ok p caps :
  collect_capabilities caps p = Ok (fold_left (fun s c => sins c s) (features p) caps).
Proof.
  revert caps. induction p as [b i t|a i w|ps r t|c l r|ps IH] using pattern_ind; intros caps;
    cbn [collect_capabilities features]; cap; try done.
  - destruct i; [by cap|done].
  - by rewrite collect_children.
Qed.

Lemma derive_capabilities_ok ps :
  derive_capabilities ps = Ok (sof (CAP_ASSERTION :: concat (map features ps))).
Proof.
  unfold derive_capabilities. cap. rewrite collect_children; [done|].
  apply Forall_forall. intros p _ caps. apply collect_capabilities_ok.
Qed.

(** ** Bindings *)

Lemma check_bindings_ok l index vars :
  check_bindings index vars l = Ok tt <->
  map binding_id l = seq index (length l) /\ NoDup (map variable l) /\
  (forall v, v ∈ map variable l -> v ∉ vars).
Proof.
  revert index vars. induction l as [|b l IH]; intros index vars; cbn [check_bindings map length seq].
  { split; [|done]. intros _. split_and!; [done|constructor|]. intros v Hv. by apply not_elem_of_nil in Hv. }
  destruct (Nat.eqb_spec (binding_id b) index) as [Hb|Hb]; cbn [negb]; [|split; [done|]; intros ([=] & _); done].
  rewrite NoDup_cons. destruct (smem (variable b) vars) eqn:Es.
  { apply smem_true in Es. split; [done|]. intros (_ & _ & H). destruct (H (variable b)); [by left|done]. }
  apply smem_false in Es. rewrite IH. split.
  - intros (H1 & H2 & H3). rewrite H1, Hb. split_and!; [done| |done|].
    + intros Hin. apply (H3 _ Hin). apply elem_sins. by left.
    + intros v [->|Hv]%elem_of_cons; [done|]. intros Hv'. apply (H3 v Hv). apply elem_sins. by right.
  - intros ([=] & [H2 H3] & H4). split_and!; [done..|].
    intros v Hv [->|Hv']%elem_sins; [done|]. apply (H4 v); [by right|done].
Qed.

Lemma vec_sort_sof {A} `{OrdLaws A} (l : list A) : NoDup l -> vec_sort l = sof l.
Proof.
  intros Hl. apply ssorted_ext; [by apply vec_sort_sorted|apply sof_sorted|].
  intros x. by rewrite elem_sof, vec_sort_perm.
Qed.

Lemma canonical_binding_set_ok l n s :
  canonical_binding_set l n = Ok s <-> (NoDup l /\ Forall (fun b => b < n) l) /\ s = sof l.
Proof.
  unfold canonical_binding_set. destruct (adjacent (vec_sort l)) eqn:Ea.
  { split; [done|]. intros [[Hn _] _]. apply adjacent_sort in Hn. congruence. }
  apply adjacent_sort in Ea. pose proof (try_map_check (fun b => b) n (vec_sort l)) as Hc.
  assert (Forall (fun b => b < n) (vec_sort l) <-> Forall (fun b => b < n) l) as Hp by (by rewrite vec_sort_perm).
  rewrite Hp in Hc. rewrite <- vec_sort_sof by done.
  destruct (try_map _ _) as [x|] eqn:E; simpl in Hc.
  - split; [intros [= <-]; tauto|]. intros [_ ->]. done.
  - split; [done|]. intros [[_ H] _]. by apply Hc in H.
Qed.

Lemma length_sof {A} `{OrdLaws A} (l : list A) : NoDup l -> length (sof l) = length l.
Proof. intros Hl. rewrite <- vec_sort_sof by done. by rewrite vec_sort_perm. Qed.

Lemma check_bindings_all l :
  check_bindings 0 [] l = Ok tt <-> map binding_id l = seq 0 (length l) /\ NoDup (map variable l).
Proof.
  rewrite check_bindings_ok. split; [tauto|]. intros [H1 H2]. split_and!; [done..|].
  intros v _. apply not_elem_of_nil.
Qed.

Lemma outputs_disjoint (os ws : list BindingId) :
  existsb (fun id => smem id (sof ws)) (sof os) = false <-> forall b, b ∈ os -> b ∉ ws.
Proof.
  destruct (existsb _ _) eqn:E.
  - apply existsb_exists in E as (b & Hb%list_elem_of_In & Hw%smem_true). rewrite elem_sof in Hb, Hw.
    split; [done|]. intros H. by destruct (H b).
  - split; [|done]. intros _ b Hb Hw.
    assert (existsb (fun id => smem id (sof ws)) (sof os) = true) as E'; [|congruence].
    apply existsb_exists. exists b. rewrite <- list_elem_of_In, elem_sof, smem_true, elem_sof. done.
Qed.

Lemma size_guard n m : bool_decide (n = 0) || negb (Z.of_nat n <=? m)%Z = false <-> 1 <= n /\ (Z.of_nat n <= m)%Z.
Proof. rewrite orb_false_iff, bool_decide_eq_false, negb_false_iff, Z.leb_le. lia. Qed.

Lemma terms_guard n m : bool_decide (n = 0) || (m <? Z.of_nat n)%Z = false <-> 1 <= n /\ (Z.of_nat n <= m)%Z.
Proof. rewrite orb_false_iff, bool_decide_eq_false, Z.ltb_ge. lia. Qed.

(** The plan constructor accepts exactly the well-formed plans: between one
    and the limit many bindings with dense ordinals and distinct variables,
    duplicate-free output and witness sets of declared bindings that do not
    overlap, a bounded root conjunction, only declared bindings and non-empty
    bounded conjunctions in every pattern, and node count and nesting depth
    within the limits. The plan then holds its sets in canonical order and
    requires exactly the capabilities its syntax uses. *)
Theorem assertion_plan_new_iff limits bindings patterns outputs witnesses semantics expected plan :
  MigrationAssertionPlan_new_with_limits bindings patterns outputs witnesses semantics expected limits = Ok plan <->
  plan_ok limits bindings patterns outputs witnesses /\
  plan = assertion_plan bindings expected V1 semantics (sof outputs) patterns
           (sof (CAP_ASSERTION :: concat (map features patterns))) (sof witnesses).
Proof.
  unfold MigrationAssertionPlan_new_with_limits, allows_bindings, allows_selected_slots. split.
  - intros [H1%size_guard H]%guard_ok_iff. apply bind_ok_iff in H as ([] & H2%check_bindings_all & H).
    apply bind_ok_iff in H as (os & [H3 ->]%canonical_binding_set_ok & H).
    apply bind_ok_iff in H as (ws & [H4 ->]%canonical_binding_set_ok & H).
    apply guard_ok_iff in H as [H5%negb_false_iff%Z.leb_le H]. rewrite length_sof in H5 by apply H3.
    apply guard_ok_iff in H as [H6 H]. rewrite outputs_disjoint in H6.
    apply guard_ok_iff in H as [H7%terms_guard H].
    apply bind_ok_iff in H as (x & H8 & H). rewrite derive_capabilities_ok in H. injection H as <-.
    split; [|done].
    destruct (inspect_patterns_ok limits (length bindings) patterns) as [Hi _]; [by destruct patterns; simpl in H7; [lia|]|].
    rewrite H8 in Hi. destruct (Hi eq_refl) as (? & ? & ?). destruct H2. by split.
  - intros [[H1 H2 H2' H3 H4 H5 H6 H7 H8 H9 H10] ->]. apply guard_ok_iff. split; [by apply size_guard|].
    apply bind_ok_iff. exists tt. split; [by apply check_bindings_all|].
    apply bind_ok_iff. exists (sof outputs). split; [by apply canonical_binding_set_ok|].
    apply bind_ok_iff. exists (sof witnesses). split; [by apply canonical_binding_set_ok|].
    apply guard_ok_iff. split; [apply negb_false_iff, Z.leb_le; by rewrite length_sof by apply H3|].
    apply guard_ok_iff. split; [by rewrite outputs_disjoint|]. apply guard_ok_iff. split; [by apply terms_guard|].
    destruct (inspect_patterns_ok limits (length bindings) patterns) as [_ Hi]; [by destruct patterns; simpl in H7; [lia|]|].
    specialize (Hi (conj H9 (conj H10 H8))).
    destruct (try_fold _ 0 patterns) as [x|]; [|done]. by rewrite derive_capabilities_ok.
Qed.

End Assertion.
