(* ===== verification/Migration.v ===== *)
(** * Migration identities and steps (contract/src/migration.rs, contract/src/migration_backfill.rs)

    Portable migration identities, closed backfill plans, and the migration
    steps whose contracts the constructors derive. SHA-256 and the canonical
    JSON encodings of deltas, assertions and backfills are parameters. *)

From S2P Require Import Prelude BTree Text Ident Value Fingerprint Schema Components SchemaDelta Dependencies Delta Assertion.
Import Ident Value Fingerprint Schema SchemaDelta Dependencies Delta Assertion.
#[local] Open Scope Z_scope.

Module Migration.

(** ** Identities *)

Definition MAX_MIGRATION_COMPONENT_BYTES : nat := 255.

Definition component_byte (b : ascii) : bool :=
  is_ascii_lowercase b || is_ascii_digit b || oeqb b "_"%char || oeqb b "-"%char.

Definition validate_component (value : str) (allow_leading_digit : bool) : result Diagnostic str :=
  let valid_first :=
    match value with
    | [] => false
    | byte :: _ => is_ascii_lowercase byte || (allow_leading_digit && is_ascii_digit byte)
    end in
  let valid_rest := forallb component_byte (tail value) in
  if (length value <=? MAX_MIGRATION_COMPONENT_BYTES)%nat && valid_first && valid_rest then Ok value
  else Err (invalid "invalid_migration_identity_component").

Definition MigrationAppLabel_new (value : str) : result Diagnostic str := validate_component value false.
Definition MigrationName_new (value : str) : result Diagnostic str := validate_component value true.
Definition MigrationStepId : Set := str.
Definition MigrationStepId_new (value : str) : result Diagnostic MigrationStepId := validate_component value false.

Record MigrationId : Set := migration_id { app_label : str; migration_name : str }.

Definition MigrationId_new (app_label name : str) : result Diagnostic MigrationId :=
  let? app_label := MigrationAppLabel_new app_label in
  let? name := MigrationName_new name in
  Ok (migration_id app_label name).

#[global] Instance Ord_MigrationId : Ord MigrationId := ord_by (fun i => (app_label i, migration_name i)).
#[global] Instance OrdLaws_MigrationId : OrdLaws MigrationId.
Proof. apply ord_by_laws. intros [] []; simpl. congruence. Qed.
#[global] Instance MigrationId_eq_dec : EqDecision MigrationId := ord_eq_dec.

Definition MIGRATION_FORMAT_V1 : str := b#"typebridge.migration/v1".

Inductive MigrationFormat : Set := MigrationV1.

Definition MigrationFormat_new (value : str) : result Diagnostic MigrationFormat :=
  if str_eqb value MIGRATION_FORMAT_V1 then Ok MigrationV1 else Err (invalid "unsupported_migration_format").

Inductive RetryPolicy : Set := Never.
Inductive RecoveryPolicy : Set := OperatorRequired.
Inductive MigrationStepKind : Set := SchemaDeltaKind | AssertionKind | BackfillKind.

(** ** Backfill plans *)

Definition COPY_ATTRIBUTE_BACKFILL_CAPABILITY : CapabilityId := b#"migration.backfill.copy-attribute".
Definition MAX_BACKFILL_BATCH_ROWS : Z := 10000.

Inductive BackfillValueTransform : Set := Identity.
Inductive BackfillConflictPolicy : Set := SkipEqualRejectDifferent.
Inductive BackfillPostcondition : Set := SourceValueCopiedExactly.
Inductive BackfillReverseProgram : Set := RemoveEqualCopiedDestination.

Record BackfillPartition : Set := backfill_partition { batch_rows : Z; stable_attribute : AttributeId }.

Definition BackfillPartition_new (batch_rows : Z) (stable_attribute : AttributeId)
    : result Diagnostic BackfillPartition :=
  if (batch_rows =? 0) || (MAX_BACKFILL_BATCH_ROWS <? batch_rows)
  then Err (stable ResourceLimit "migration_backfill_batch_rows_out_of_range")
  else Ok (backfill_partition batch_rows stable_attribute).

Record AttributeBackfillPlan : Set := backfill_plan {
  conflict : BackfillConflictPolicy;
  destination : AttributeId;
  backfill_format : FormatVersion;
  backfill_semantics : Fingerprint.Fingerprint;
  backfill_owner : TypeId;
  partition : BackfillPartition;
  postcondition : BackfillPostcondition;
  backfill_capabilities : CapabilitySet;
  backfill_reverse : option BackfillReverseProgram;
  backfill_source : AttributeId;
  transform : BackfillValueTransform }.

(** [None] where the [expect] on the fixed capability fails. *)
Definition AttributeBackfillPlan_new (owner : TypeId) (source destination : AttributeId)
    (partition : BackfillPartition) (managed_semantics : Fingerprint.Fingerprint)
    (reverse : option BackfillReverseProgram) : option (result Diagnostic AttributeBackfillPlan) :=
  if negb match kind owner with Entity | Relation => true | _ => false end
  then Some (Err (invalid "migration_backfill_owner_kind_invalid"))
  else if oeqb source destination then Some (Err (invalid "migration_backfill_same_attribute"))
  else match CapabilityId_new COPY_ATTRIBUTE_BACKFILL_CAPABILITY with
       | Ok capability =>
           Some (Ok (backfill_plan SkipEqualRejectDifferent destination V1 managed_semantics owner partition
                       SourceValueCopiedExactly (sins capability []) reverse source Identity))
       | Err _ => None
       end.

(** ** Steps *)

Record BackfillStepContract : Set := backfill_contract {
  bc_id : MigrationStepId;
  bc_plan_fingerprint : Fingerprint.Fingerprint;
  bc_recovery : RecoveryPolicy;
  bc_capabilities : CapabilitySet;
  bc_retry : RetryPolicy;
  bc_reverse : option BackfillReverseProgram;
  bc_source : Fingerprint.Fingerprint;
  bc_target : Fingerprint.Fingerprint }.

Record SchemaDeltaStepContract : Set := delta_contract {
  dc_fingerprint : Fingerprint.Fingerprint;
  dc_id : MigrationStepId;
  dc_recovery : RecoveryPolicy;
  dc_capabilities : CapabilitySet;
  dc_retry : RetryPolicy;
  dc_reverse : option SchemaDelta;
  dc_source : Fingerprint.Fingerprint;
  dc_target : Fingerprint.Fingerprint }.

Record SchemaDeltaStep : Set := delta_step {
  step_contract : SchemaDeltaStepContract;
  step_delta : SchemaDelta;
  step_kind : MigrationStepKind }.

Record AssertionStepContract : Set := assertion_contract {
  ac_id : MigrationStepId;
  ac_plan_fingerprint : Fingerprint.Fingerprint;
  ac_recovery : RecoveryPolicy;
  ac_capabilities : CapabilitySet;
  ac_retry : RetryPolicy;
  ac_source : Fingerprint.Fingerprint;
  ac_target : Fingerprint.Fingerprint }.

Inductive MigrationStep : Set :=
| SchemaDeltaMigration (step : SchemaDeltaStep)
| AssertionMigration (contract : AssertionStepContract) (plan : MigrationAssertionPlan)
    (expected : AssertionExpectation)
| BackfillMigration (contract : BackfillStepContract) (plan : AttributeBackfillPlan).

Definition MigrationStep_kind (s : MigrationStep) : MigrationStepKind :=
  match s with
  | SchemaDeltaMigration _ => SchemaDeltaKind
  | AssertionMigration _ _ _ => AssertionKind
  | BackfillMigration _ _ => BackfillKind
  end.

Definition MigrationStep_id (s : MigrationStep) : MigrationStepId :=
  match s with
  | SchemaDeltaMigration step => dc_id (step_contract step)
  | AssertionMigration contract _ _ => ac_id contract
  | BackfillMigration contract _ => bc_id contract
  end.

Definition MigrationStep_capabilities (s : MigrationStep) : CapabilitySet :=
  match s with
  | SchemaDeltaMigration step => dc_capabilities (step_contract step)
  | AssertionMigration contract _ _ => ac_capabilities contract
  | BackfillMigration contract _ => bc_capabilities contract
  end.

Definition as_schema_delta (s : MigrationStep) : option SchemaDeltaStep :=
  match s with SchemaDeltaMigration step => Some step | _ => None end.

Definition as_assertion (s : MigrationStep)
    : option (AssertionStepContract * MigrationAssertionPlan * AssertionExpectation) :=
  match s with AssertionMigration contract plan expected => Some (contract, plan, expected) | _ => None end.

Definition as_backfill (s : MigrationStep) : option (BackfillStepContract * AttributeBackfillPlan) :=
  match s with BackfillMigration contract plan => Some (contract, plan) | _ => None end.

Definition CONDITIONAL_RESOLUTION_CAPABILITY : CapabilityId := b#"migration.conditional-resolution".

(** ** Decidable equality of steps *)

#[global] Instance AssertionPattern_eq_dec : EqDecision AssertionPattern.
Proof.
  assert (EqDecision AssertionRolePlayer) by solve_decision.
  assert (EqDecision ValueComparator) by solve_decision.
  assert (EqDecision ValueOperand) by solve_decision.
  refine (fix go p q {struct p} : Decision (p = q) :=
    match p, q with
    | Isa b i t, Isa b' i' t' => cast_if_and3 (decide (b = b')) (decide (i = i')) (decide (t = t'))
    | Has a i w, Has a' i' w' => cast_if_and3 (decide (a = a')) (decide (i = i')) (decide (w = w'))
    | Links ps r t, Links ps' r' t' => cast_if_and3 (decide (ps = ps')) (decide (r = r')) (decide (t = t'))
    | ValuePattern c l r, ValuePattern c' l' r' =>
        cast_if_and3 (decide (c = c')) (decide (l = l')) (decide (r = r'))
    | Not ps, Not qs => cast_if ((fix gos ps qs : Decision (ps = qs) :=
        match ps, qs with
        | [], [] => left eq_refl
        | p :: ps, q :: qs => cast_if_and (go p q) (gos ps qs)
        | _, _ => right _
        end) ps qs)
    | _, _ => right _
    end); try discriminate; try congruence.
Defined.

#[global] Instance MigrationAssertionPlan_eq_dec : EqDecision MigrationAssertionPlan.
Proof.
  assert (EqDecision AssertionBinding) by solve_decision.
  assert (EqDecision AssertionExpectation) by solve_decision.
  solve_decision.
Defined.

#[global] Instance SchemaDelta_eq_dec : EqDecision SchemaDelta.
Proof. assert (EqDecision SchemaOperation) by solve_decision. solve_decision. Defined.

#[global] Instance AttributeBackfillPlan_eq_dec : EqDecision AttributeBackfillPlan.
Proof.
  assert (EqDecision BackfillConflictPolicy) by solve_decision.
  assert (EqDecision BackfillPartition) by solve_decision.
  assert (EqDecision BackfillPostcondition) by solve_decision.
  assert (EqDecision BackfillReverseProgram) by solve_decision.
  assert (EqDecision BackfillValueTransform) by solve_decision.
  solve_decision.
Defined.

#[global] Instance MigrationStep_eq_dec : EqDecision MigrationStep.
Proof.
  assert (EqDecision RetryPolicy) by solve_decision.
  assert (EqDecision RecoveryPolicy) by solve_decision.
  assert (EqDecision BackfillReverseProgram) by solve_decision.
  assert (EqDecision MigrationStepKind) by solve_decision.
  assert (EqDecision AssertionExpectation) by solve_decision.
  assert (EqDecision BackfillStepContract) by solve_decision.
  assert (EqDecision SchemaDeltaStepContract) by solve_decision.
  assert (EqDecision AssertionStepContract) by solve_decision.
  assert (EqDecision SchemaDeltaStep) by solve_decision.
  solve_decision.
Defined.

#[global] Instance AssertionExpectation_eq_dec : EqDecision AssertionExpectation.
Proof. solve_decision. Defined.

(** ** Constructors *)

Section encodings.
(** SHA-256 and the canonical JSON encodings of the hashed values. *)
Context (sha256 : str -> str).
Context (delta_bytes : SchemaDelta -> result Diagnostic str).
Context (assertion_bytes : MigrationAssertionPlan -> result Diagnostic str).
Context (backfill_bytes : AttributeBackfillPlan -> result Diagnostic str).
Context (plan_bytes : list MigrationStep -> result Diagnostic str).
Context (id_bytes : MigrationId -> result Diagnostic str).

(** [Fingerprint::compute] on validated names and encoded bytes. *)
Definition fingerprint_of (domain canonicalization : string) (profile : option SemanticProfileId)
    (bytes : result Diagnostic str) : result Diagnostic Fingerprint.Fingerprint :=
  let? domain := FingerprintDomain_new (lit domain) in
  let? canonicalization := CanonicalizationVersion_new (lit canonicalization) in
  let? bytes := bytes in
  Ok (compute sha256 domain canonicalization profile bytes).

Definition MigrationLedgerKey_compute (id : MigrationId) : result Diagnostic Fingerprint.Fingerprint :=
  fingerprint_of "typebridge.migration.id" "typebridge.migration-id/v1" None (id_bytes id).

Definition SchemaDeltaFingerprint_compute (delta : SchemaDelta) : result Diagnostic Fingerprint.Fingerprint :=
  fingerprint_of "typebridge.migration.schema-delta" "typebridge.schema-delta/v1" None (delta_bytes delta).

Definition MigrationPlanFingerprint_compute (steps : list MigrationStep)
    : result Diagnostic Fingerprint.Fingerprint :=
  fingerprint_of "typebridge.migration.plan" "typebridge.migration-plan/v1" None (plan_bytes steps).

Definition assertion_fingerprint (plan : MigrationAssertionPlan) : result Diagnostic Fingerprint.Fingerprint :=
  fingerprint_of "typebridge.query.migration-assertion" "typebridge.migration-assertion/v1" None
    (assertion_bytes plan).

Definition backfill_fingerprint (plan : AttributeBackfillPlan) : result Diagnostic Fingerprint.Fingerprint :=
  fingerprint_of "typebridge.migration.backfill" "typebridge.migration-backfill/v1"
    (semantic_profile (backfill_semantics plan)) (backfill_bytes plan).

(** The digest is printed and parsed back; [None] where the [expect] fails. *)
Definition MigrationManifestDigest_compute (canonical_manifest_bytes : str) : option FingerprintDigest :=
  match from_hex (to_hex (sha256 canonical_manifest_bytes)) with Ok d => Some d | Err _ => None end.

Definition BackfillStepContract_derive (id : MigrationStepId) (plan : AttributeBackfillPlan)
    : result Diagnostic BackfillStepContract :=
  let? plan_fingerprint := backfill_fingerprint plan in
  Ok (backfill_contract id plan_fingerprint OperatorRequired (backfill_capabilities plan) Never
        (backfill_reverse plan) (backfill_semantics plan) (backfill_semantics plan)).

(** [None] where an [expect] of an operation inverse fails. *)
Definition SchemaDeltaStepContract_new (id : MigrationStepId) (delta : SchemaDelta) (reverse : option SchemaDelta)
    : option (result Diagnostic SchemaDeltaStepContract) :=
  let contract :=
    let? delta_fingerprint := SchemaDeltaFingerprint_compute delta in
    Ok (delta_contract delta_fingerprint id OperatorRequired (delta_capabilities delta) Never reverse
          (managed_semantic_schema (delta_source delta)) (managed_semantic_schema (delta_target delta))) in
  match reverse with
  | None => Some contract
  | Some candidate =>
      match inverse_operations (operations delta) with
      | None => None
      | Some inverse_operations =>
          Some (let? expected := SchemaDelta_new (delta_format delta) (delta_target delta) (delta_source delta)
                                   inverse_operations in
                if negb (bool_decide (candidate = expected))
                then Err (invalid "schema_delta_step_inverse_mismatch")
                else contract)
      end
  end.

Definition SchemaDeltaStep_new (id : MigrationStepId) (delta : SchemaDelta) (reverse : option SchemaDelta)
    : option (result Diagnostic SchemaDeltaStep) :=
  match SchemaDeltaStepContract_new id delta reverse with
  | Some r => Some (let? contract := r in Ok (delta_step contract delta SchemaDeltaKind))
  | None => None
  end.

(** [None] where the [expect] on the fixed capability fails. *)
Definition AssertionStepContract_derive (id : MigrationStepId) (plan : MigrationAssertionPlan)
    (expected : AssertionExpectation) : option (result Diagnostic AssertionStepContract) :=
  if negb (bool_decide (expected = NoRows)) || negb (bool_decide (expectation plan = NoRows))
  then Some (Err (invalid "migration_assertion_step_expectation_mismatch"))
  else match CapabilityId_new CONDITIONAL_RESOLUTION_CAPABILITY with
       | Err _ => None
       | Ok capability =>
           Some (let? plan_fingerprint := assertion_fingerprint plan in
                 Ok (assertion_contract id plan_fingerprint OperatorRequired
                       (sins capability (plan_capabilities plan)) Never
                       (managed_semantics plan) (managed_semantics plan)))
       end.

Definition MigrationStep_backfill (id : MigrationStepId) (plan : AttributeBackfillPlan)
    : result Diagnostic MigrationStep :=
  let? contract := BackfillStepContract_derive id plan in Ok (BackfillMigration contract plan).

Definition MigrationStep_assertion (id : MigrationStepId) (plan : MigrationAssertionPlan)
    (expected : AssertionExpectation) : option (result Diagnostic MigrationStep) :=
  match AssertionStepContract_derive id plan expected with
  | Some r => Some (let? contract := r in Ok (AssertionMigration contract plan expected))
  | None => None
  end.

Definition rebuild (s : MigrationStep) : option (result Diagnostic MigrationStep) :=
  match s with
  | SchemaDeltaMigration step =>
      match SchemaDeltaStep_new (dc_id (step_contract step)) (step_delta step) (dc_reverse (step_contract step)) with
      | Some r => Some (let? step := r in Ok (SchemaDeltaMigration step))
      | None => None
      end
  | AssertionMigration contract plan expected => MigrationStep_assertion (ac_id contract) plan expected
  | BackfillMigration contract plan => Some (MigrationStep_backfill (bc_id contract) plan)
  end.

Definition MigrationStep_validate (s : MigrationStep) : option (result Diagnostic ()) :=
  match rebuild s with
  | None => None
  | Some r =>
      Some (let? rebuilt := r in
            if negb (bool_decide (rebuilt = s)) then Err (stable Integrity "migration_step_contract_mismatch")
            else Ok tt)
  end.

(** ** Validated steps *)

(** The claims of a step are the ones its payload determines. *)
Definition claims_hold (s : MigrationStep) : Prop :=
  match s with
  | SchemaDeltaMigration st =>
      let c := step_contract st in
      let d := step_delta st in
      step_kind st = SchemaDeltaKind /\ SchemaDeltaFingerprint_compute d = Ok (dc_fingerprint c) /\
      dc_capabilities c = delta_capabilities d /\
      dc_source c = managed_semantic_schema (delta_source d) /\
      dc_target c = managed_semantic_schema (delta_target d) /\
      forall r, dc_reverse c = Some r -> inverse_delta d = Some (Ok r)
  | AssertionMigration c plan _ =>
      assertion_fingerprint plan = Ok (ac_plan_fingerprint c) /\
      ac_capabilities c = sins CONDITIONAL_RESOLUTION_CAPABILITY (plan_capabilities plan) /\
      ac_source c = managed_semantics plan /\ ac_target c = managed_semantics plan
  | BackfillMigration c plan =>
      backfill_fingerprint plan = Ok (bc_plan_fingerprint c) /\
      bc_capabilities c = backfill_capabilities plan /\ bc_reverse c = backfill_reverse plan /\
      bc_source c = backfill_semantics plan /\ bc_target c = backfill_semantics plan
  end.

Lemma validate_rebuild s : MigrationStep_validate s = Some (Ok tt) <-> rebuild s = Some (Ok s).
Proof.
  unfold MigrationStep_validate. destruct (rebuild s) as [[r|]|]; [|intuition congruence..].
  case_bool_decide as E; [subst; done|]. cbn [negb]. split; congruence.
Qed.

Lemma inverse_delta_contract d inv r :
  inverse_operations (operations d) = Some inv ->
  inverse_delta d = Some (Ok r) <->
  SchemaDelta_new (delta_format d) (delta_target d) (delta_source d) inv = Ok r.
Proof.
  intros Hi. unfold inverse_delta, Delta.contract, map_err. rewrite Hi.
  destruct (SchemaDelta_new _ _ _ _); intuition congruence.
Qed.

Lemma delta_contract_ok id d reverse c :
  SchemaDeltaStepContract_new id d reverse = Some (Ok c) <->
  (exists fp, SchemaDeltaFingerprint_compute d = Ok fp /\
    c = delta_contract fp id OperatorRequired (delta_capabilities d) Never reverse
          (managed_semantic_schema (delta_source d)) (managed_semantic_schema (delta_target d))) /\
  forall r, reverse = Some r -> inverse_delta d = Some (Ok r).
Proof.
  unfold SchemaDeltaStepContract_new.
  assert (forall x, Some (let? fp := SchemaDeltaFingerprint_compute d in Ok (x fp)) = Some (Ok c) <->
    exists fp, SchemaDeltaFingerprint_compute d = Ok fp /\ c = x fp) as Hc.
  { intros x. destruct (SchemaDeltaFingerprint_compute d); [|naive_solver]. split; [intros [= <-]; eauto|].
    by intros (fp & [= <-] & ->). }
  destruct reverse as [r|]; [|rewrite Hc; naive_solver].
  destruct (inverse_operations (operations d)) as [inv|] eqn:Ei.
  - pose proof (fun r => inverse_delta_contract d inv r Ei) as Hi.
    destruct (SchemaDelta_new _ _ _ inv) as [e|].
    + case_bool_decide as E; cbn [negb].
      * subst e. rewrite Hc. split; [intros H; split; [done|]; intros r' [= <-]; by apply Hi|tauto].
      * split; [done|]. intros [_ H]. specialize (H r eq_refl). apply Hi in H. congruence.
    + split; [done|]. intros [_ H]. specialize (H r eq_refl). by apply Hi in H.
  - split; [done|]. intros [_ H]. specialize (H r eq_refl). unfold inverse_delta in H. by rewrite Ei in H.
Qed.

(** C29. [MigrationStep::validate] accepts a step exactly when every claim of its
    contract is the one its payload determines: the fingerprint of the payload,
    its required capabilities (with the conditional-resolution capability for
    assertions), the source and target semantics, and a reverse delta only when
    it is the accepted operation-wise inverse. A step assembled with other
    claims is refused. *)
Theorem step_validate_iff s : MigrationStep_validate s = Some (Ok tt) <-> claims_hold s.
Proof.
  rewrite validate_rebuild. destruct s as [[c d k]|c plan e|c plan]; cbn [rebuild claims_hold step_contract step_delta step_kind].
  - unfold SchemaDeltaStep_new. pose proof (delta_contract_ok (dc_id c) d (dc_reverse c) c) as Hc.
    transitivity (k = SchemaDeltaKind /\ SchemaDeltaStepContract_new (dc_id c) d (dc_reverse c) = Some (Ok c)).
    + destruct (SchemaDeltaStepContract_new _ _ _) as [[c'|]|]; intuition congruence.
    + rewrite Hc. destruct c as [fp id [] caps [] rev src tgt]; simpl. split.
      * intros (-> & (fp' & H1 & [= -> -> -> ->]) & H2). done.
      * intros (-> & H1 & -> & -> & -> & H2). split; [done|]. split; [eauto|done].
  - unfold MigrationStep_assertion, AssertionStepContract_derive. destruct e. 
    destruct (expectation plan); rewrite !bool_decide_eq_true_2 by done; cbn [negb orb].
    change (CapabilityId_new CONDITIONAL_RESOLUTION_CAPABILITY)
      with (Ok (E := Diagnostic) CONDITIONAL_RESOLUTION_CAPABILITY). cbv beta iota.
    destruct c as [id fp [] caps [] src tgt]; simpl.
    destruct (assertion_fingerprint plan) as [fp'|]; [|intuition congruence]. split.
    + intros [= -> -> -> ->]. done.
    + intros ([= ->] & -> & -> & ->). done.
  - unfold MigrationStep_backfill, BackfillStepContract_derive.
    destruct c as [id fp [] caps [] rev src tgt]; simpl.
    destruct (backfill_fingerprint plan) as [fp'|]; [|intuition congruence]. split.
    + intros [= -> -> -> -> ->]. done.
    + intros ([= ->] & -> & -> & -> & ->). done.
Qed.
End encodings.

(** ** Identities *)

(** A migration identity is accepted exactly when both components are
    bounded portable spellings: at most 255 bytes, first a lowercase letter (or
    a digit in the name), then lowercase letters, digits, underscores and
    hyphens; and it keeps the spellings. *)
Theorem migration_id_new_iff label name i :
  MigrationId_new label name = Ok i <->
  i = migration_id label name /\
  (length label <= 255 /\ length name <= 255)%nat /\
  (exists b rest, label = b :: rest /\ is_ascii_lowercase b = true /\ forallb component_byte rest = true) /\
  (exists b rest, name = b :: rest /\ is_ascii_lowercase b || is_ascii_digit b = true /\
     forallb component_byte rest = true).
Proof.
  assert (forall v d x, validate_component v d = Ok x <-> x = v /\ (length v <= 255)%nat /\
    exists b rest, v = b :: rest /\ is_ascii_lowercase b || (d && is_ascii_digit b) = true /\
      forallb component_byte rest = true) as Hv.
  { intros v d x. unfold validate_component, MAX_MIGRATION_COMPONENT_BYTES.
    destruct (Nat.leb_spec (length v) 255); cbn [andb]; [|split; [done|]; lia].
    destruct v as [|b rest]; [split; [done|]; by intros (_ & _ & ? & ? & [=] & _)|]. cbn [tail].
    destruct (is_ascii_lowercase b || _) eqn:E1; cbn [andb];
      [destruct (forallb component_byte rest) eqn:E2|].
    - split; [intros [= <-]; split_and!; [done..|]; by exists b, rest|]. by intros (-> & _).
    - split; [done|]. intros (_ & _ & b' & rest' & [= <- <-] & _ & ?). congruence.
    - split; [done|]. intros (_ & _ & b' & rest' & [= <- <-] & ? & _). congruence. }
  unfold MigrationId_new, MigrationAppLabel_new, MigrationName_new.
  rewrite bind_ok_iff. setoid_rewrite bind_ok_iff. setoid_rewrite Hv. split.
  - intros (a & (-> & H1 & b & rest & -> & H2 & H3) & n & (-> & H4 & b' & rest' & -> & H5 & H6) & [= <-]).
    rewrite orb_false_r in H2. split_and!; eauto 6.
  - intros (-> & [H1 H2] & (b & rest & -> & H3 & H4) & (b' & rest' & -> & H5 & H6)).
    eexists. split; [split_and!; [done..|]; exists b, rest; rewrite orb_false_r; done|].
    eexists. split; [split_and!; [done..|]; by exists b', rest'|done].
Qed.

End Migration.
