(* ===== verification/Manifest.v ===== *)
(** * Migration drafts and manifests (schema-migration/src/manifest.rs, legacy.rs, profile.rs)

    Migration drafts with their canonical parents, released (legacy) references
    and the digest of a released applied set, the TypeDB profiles a history can
    be on, and the verified manifest record. SHA-256 and the canonical encodings
    are parameters, as in the files below. *)

From S2P Require Import Prelude BTree Text Ident Value Fingerprint Schema Components SchemaDelta Dependencies Delta Safety Limits Assertion Migration.
From Stdlib Require Import Sorted.
Import Ident Value Fingerprint Schema Components SchemaDelta Delta Safety Assertion Migration.
#[local] Open Scope Z_scope.

Module Manifest.

#[local] Abbreviation MAX_CANONICAL_BYTES := Limits.MAX_CANONICAL_BYTES.

(** ** Released references *)

Definition validate_legacy_component (value : str) : result Diagnostic str :=
  if negb (bool_decide (value = [])) && (Z.of_nat (length value) <=? MAX_CANONICAL_STRING_BYTES)
  then Ok value else Err (invalid "migration_legacy_identity_component_invalid").

Record LegacyMigrationId : Set := legacy_id { legacy_app_label : str; legacy_name : str }.

Definition LegacyMigrationId_new (app_label name : str) : result Diagnostic LegacyMigrationId :=
  let? app_label := validate_legacy_component app_label in
  let? name := validate_legacy_component name in
  Ok (legacy_id app_label name).

(** [From<MigrationId>]. *)
Definition LegacyMigrationId_from (id : MigrationId) : LegacyMigrationId :=
  legacy_id (app_label id) (migration_name id).

Definition LEGACY_CHECKSUM_LEN : nat := 16.

Definition LegacyMigrationChecksum_new (value : str) : result Diagnostic str :=
  if negb (length value =? LEGACY_CHECKSUM_LEN)%nat || negb (forallb is_lower_hex value)
  then Err (invalid "migration_legacy_checksum_invalid") else Ok value.

Record LegacyMigrationReference : Set := legacy_reference { reference_id : LegacyMigrationId; checksum : str }.

#[global] Instance Ord_LegacyMigrationId : Ord LegacyMigrationId :=
  ord_by (fun i => (legacy_app_label i, legacy_name i)).
#[global] Instance OrdLaws_LegacyMigrationId : OrdLaws LegacyMigrationId.
Proof. apply ord_by_laws. intros [] []; simpl. congruence. Qed.
#[global] Instance Ord_LegacyMigrationReference : Ord LegacyMigrationReference :=
  ord_by (fun r => (reference_id r, checksum r)).
#[global] Instance OrdLaws_LegacyMigrationReference : OrdLaws LegacyMigrationReference.
Proof. apply ord_by_laws. intros [] []; simpl. congruence. Qed.

Definition LegacyAppliedSetDigest_new (value : str) : result Diagnostic str :=
  if negb (length value =? 64)%nat || negb (forallb is_lower_hex value)
  then Err (invalid "migration_legacy_applied_set_digest_invalid") else Ok value.

Definition LEGACY_APPLIED_SET_CANONICALIZATION : str := b#"typebridge.legacy-applied-set/v1".

Definition reference_fields (r : LegacyMigrationReference) : list str :=
  [legacy_app_label (reference_id r); legacy_name (reference_id r); checksum r].

(** [usize::checked_add]. *)
Definition checked_add (a b : Z) : option Z := if usize_max <? a + b then None else Some (a + b).

Definition applied_set_too_large : Diagnostic := invalid "migration_legacy_applied_set_too_large".

(** One field added to the running size of the preimage. *)
Definition add_field (preimage_bytes : Z) (field : str) : result Diagnostic Z :=
  ok_or (checked_add preimage_bytes 8 ≫= fun bytes => checked_add bytes (Z.of_nat (length field)))
    applied_set_too_large.

(** The loop that counts rows and preimage bytes. *)
Fixpoint collect_references (collected preimage_bytes : Z) (references : list LegacyMigrationReference)
    : result Diagnostic () :=
  match references with
  | [] => Ok tt
  | reference :: references =>
      if collected =? MAX_CANONICAL_COLLECTION_LEN
      then Err (invalid "migration_legacy_applied_set_too_many_rows")
      else
        let? preimage_bytes := try_fold add_field preimage_bytes (reference_fields reference) in
        if MAX_CANONICAL_BYTES <? preimage_bytes then Err applied_set_too_large
        else collect_references (collected + 1) preimage_bytes references
  end.

(** Everything the hasher is fed for sorted references. *)
Definition applied_set_preimage (references : list LegacyMigrationReference) : str :=
  LEGACY_APPLIED_SET_CANONICALIZATION ++ ["000"%char] ++ be_bytes 8 (Z.of_nat (length references))
  ++ (references ≫= fun reference => reference_fields reference ≫= hash_field).

Definition LegacyAppliedSetDigest_compute (sha256 : str -> str) (references : list LegacyMigrationReference)
    : result Diagnostic str :=
  let? start := ok_or (checked_add (Z.of_nat (length LEGACY_APPLIED_SET_CANONICALIZATION)) 9)
                  applied_set_too_large in
  let? _ := collect_references 0 start references in
  let references := vec_sort references in
  if bool_decide (length references = 0%nat) then Err (invalid "migration_legacy_applied_set_empty")
  else if adjacent (map reference_id references) then Err (invalid "migration_legacy_applied_set_duplicate")
  else Ok (to_hex (sha256 (applied_set_preimage references))).

(** ** TypeDB profiles *)

Definition TYPEDB_3_12_1_SCHEMA_LOWERING_PROFILE_ID : str := b#"typedb-3.12.1-schema-lowering/v1".
Definition TYPEDB_3_13_6_SCHEMA_LOWERING_PROFILE_ID : str := b#"typedb-3.13.6-schema-lowering/v1".

Definition SCHEMA_LOWERING_PROFILES : list (str * str) :=
  [(b#"typedb-3.11.5/v1", TYPEDB_3_12_1_SCHEMA_LOWERING_PROFILE_ID);
   (b#"typedb-3.12.1/v1", TYPEDB_3_12_1_SCHEMA_LOWERING_PROFILE_ID);
   (b#"typedb-3.13.6/v1", TYPEDB_3_13_6_SCHEMA_LOWERING_PROFILE_ID)].

Definition SchemaLoweringProfileId : Set := str.

(** [SchemaLoweringProfileId::for_semantic_profile]. *)
Definition lowering_for_semantic_profile (semantic_profile : SemanticProfileId) : option SchemaLoweringProfileId :=
  snd <$> List.find (fun e => str_eqb e.1 semantic_profile) SCHEMA_LOWERING_PROFILES.

Inductive MigrationProfile : Set := Typedb3_12_1 | Typedb3_13_6.

Definition MigrationProfile_ALL : list MigrationProfile := [Typedb3_12_1; Typedb3_13_6].

Definition profile_rank (p : MigrationProfile) : Z := match p with Typedb3_12_1 => 0 | Typedb3_13_6 => 1 end.

#[global] Instance MigrationProfile_eq_dec : EqDecision MigrationProfile.
Proof. solve_decision. Defined.
#[global] Instance Ord_MigrationProfile : Ord MigrationProfile := ord_by profile_rank.
#[global] Instance OrdLaws_MigrationProfile : OrdLaws MigrationProfile.
Proof. apply ord_by_laws. by intros [] []. Qed.

Definition semantic_profile_id (p : MigrationProfile) : SemanticProfileId :=
  match p with Typedb3_12_1 => b#"typedb-3.12.1/v1" | Typedb3_13_6 => b#"typedb-3.13.6/v1" end.

(** [None] where the [expect] on the closed table fails. *)
Definition lowering_profile_id (p : MigrationProfile) : option SchemaLoweringProfileId :=
  lowering_for_semantic_profile (semantic_profile_id p).

Definition for_lowering_profile_id (profile_id : SchemaLoweringProfileId) : option MigrationProfile :=
  List.find (fun profile => bool_decide (lowering_profile_id profile = Some profile_id)) MigrationProfile_ALL.

Definition for_semantic_profile (semantic_profile : SemanticProfileId) : option MigrationProfile :=
  lowering_for_semantic_profile semantic_profile ≫= for_lowering_profile_id.

(** ** Drafts *)

Record SchemaMigrationDraft : Set := draft {
  draft_id : MigrationId;
  draft_parents : list MigrationId;
  draft_steps : list MigrationStep;
  draft_legacy_parents : list LegacyMigrationReference;
  draft_legacy_applied_set : option str;
  draft_profile_bridge : option MigrationProfile }.

Section drafts.
Context (sha256 : str -> str).
Context (delta_bytes : SchemaDelta -> result Diagnostic str).
Context (assertion_bytes : MigrationAssertionPlan -> result Diagnostic str).
Context (backfill_bytes : AttributeBackfillPlan -> result Diagnostic str).

(** The loop over the steps; [None] where validation panics. *)
Fixpoint check_steps (step_ids : BTreeSet MigrationStepId) (steps : list MigrationStep)
    : option (result Diagnostic ()) :=
  match steps with
  | [] => Some (Ok tt)
  | step :: steps =>
      match MigrationStep_validate sha256 delta_bytes assertion_bytes backfill_bytes step with
      | None => None
      | Some (Err e) => Some (Err e)
      | Some (Ok _) =>
          if smem (MigrationStep_id step) step_ids
          then Some (Err (invalid "migration_manifest_duplicate_step_id"))
          else check_steps (sins (MigrationStep_id step) step_ids) steps
      end
  end.

Definition SchemaMigrationDraft_new (id : MigrationId) (parents : list MigrationId) (steps : list MigrationStep)
    : option (result Diagnostic SchemaMigrationDraft) :=
  if MAX_CANONICAL_COLLECTION_LEN <? Z.of_nat (length steps)
  then Some (Err (stable ResourceLimit "migration_manifest_step_limit"))
  else
    let parents := vec_sort parents in
    if adjacent parents then Some (Err (invalid "migration_manifest_duplicate_parent"))
    else if existsb (fun parent => oeqb parent id) parents
    then Some (Err (invalid "migration_manifest_self_parent"))
    else match check_steps [] steps with
         | None => None
         | Some r => Some (let? _ := r in Ok (draft id parents steps [] None None))
         end.
End drafts.

Definition SchemaMigrationDraft_profile_bridge (id parent : MigrationId) (from : MigrationProfile)
    : result Diagnostic SchemaMigrationDraft :=
  if oeqb parent id then Err (invalid "migration_manifest_self_parent")
  else Ok (draft id [parent] [] [] None (Some from)).

Definition SchemaMigrationDraft_legacy_bridge (id : MigrationId) (legacy_parents : list LegacyMigrationReference)
    (legacy_applied_set : str) : result Diagnostic SchemaMigrationDraft :=
  if bool_decide (length legacy_parents = 0%nat) then Err (invalid "migration_manifest_empty_legacy_frontier")
  else if MAX_CANONICAL_COLLECTION_LEN <? Z.of_nat (length legacy_parents)
  then Err (invalid "migration_manifest_legacy_frontier_too_large")
  else
    let legacy_parents := vec_sort legacy_parents in
    if adjacent (map reference_id legacy_parents)
    then Err (invalid "migration_manifest_duplicate_legacy_parent")
    else Ok (draft id [] [] legacy_parents (Some legacy_applied_set) None).

(** ** Verified manifests *)

Record SemanticProfileBinding : Set := semantic_binding {
  semantic_fingerprint : Fingerprint.Fingerprint; semantic_id : SemanticProfileId }.

Record SchemaLoweringProfileBinding : Set := lowering_binding {
  lowering_fingerprint : Fingerprint.Fingerprint; lowering_id : SchemaLoweringProfileId }.

Record MigrationProfileBridge : Set := profile_bridge_from {
  bridge_from : MigrationProfile;
  from_lowering_profile : SchemaLoweringProfileBinding;
  from_semantic_profile : SemanticProfileBinding }.

#[global] Instance SemanticProfileBinding_eq_dec : EqDecision SemanticProfileBinding.
Proof. solve_decision. Defined.
#[global] Instance SchemaLoweringProfileBinding_eq_dec : EqDecision SchemaLoweringProfileBinding.
Proof. solve_decision. Defined.

Record VerifiedSchemaMigrationManifest : Set := verified_manifest {
  manifest_format : MigrationFormat;
  manifest_id : MigrationId;
  legacy_parents : list LegacyMigrationReference;
  legacy_applied_set : option str;
  lowering_profile : SchemaLoweringProfileBinding;
  managed_scope : ManagedScopeBinding;
  parents : list MigrationId;
  plan_fingerprint : Fingerprint.Fingerprint;
  profile_bridge : option MigrationProfileBridge;
  manifest_capabilities : CapabilitySet;
  reversible : bool;
  safety : SafetyClass;
  manifest_profile : SemanticProfileBinding;
  source_schema : DeclaredSchema;
  manifest_source : ManagedSchemaState;
  manifest_steps : list MigrationStep;
  target_schema : DeclaredSchema;
  manifest_target : ManagedSchemaState }.

Definition is_legacy_bridge (m : VerifiedSchemaMigrationManifest) : bool :=
  negb (bool_decide (length (legacy_parents m) = 0%nat)).

Definition is_profile_bridge (m : VerifiedSchemaMigrationManifest) : bool :=
  bool_decide (is_Some (profile_bridge m)).

(** [verified_manifest_digest]: the digest of the canonical manifest bytes. *)
Definition verified_manifest_digest (sha256 : str -> str)
    (encode : VerifiedSchemaMigrationManifest -> result Diagnostic str) (m : VerifiedSchemaMigrationManifest)
    : option (result Diagnostic FingerprintDigest) :=
  match encode m with
  | Ok bytes => match MigrationManifestDigest_compute sha256 bytes with Some d => Some (Ok d) | None => None end
  | Err e => Some (Err e)
  end.

Definition verified_forward_safety (safety : SafetyClass) (verifier_resolved : bool)
    : result Diagnostic SafetyClass :=
  if verifier_resolved
  then match safety with
       | Conditional => Ok Conditional
       | BackfillRequired => Ok Conditional
       | _ => Err (stable Integrity "migration_manifest_invalid_resolved_safety")
       end
  else match safety with
       | FormalOnly | SchemaMetadata | Additive | Conditional | Destructive => Ok safety
       | BackfillRequired | Opaque | Unsupported => Err (invalid "migration_manifest_unresolved_safety")
       end.

(** ** Drafts accept canonical parents and distinct valid steps *)

Section draft_theory.
Context (sha256 : str -> str).
Context (delta_bytes : SchemaDelta -> result Diagnostic str).
Context (assertion_bytes : MigrationAssertionPlan -> result Diagnostic str).
Context (backfill_bytes : AttributeBackfillPlan -> result Diagnostic str).

#[local] Abbreviation valid_step := (fun s => MigrationStep_validate sha256 delta_bytes assertion_bytes backfill_bytes s = Some (Ok tt)).

Lemma check_steps_ok seen steps :
  check_steps sha256 delta_bytes assertion_bytes backfill_bytes seen steps = Some (Ok tt) <->
  Forall valid_step steps /\ NoDup (map MigrationStep_id steps) /\
  (forall i, i ∈ map MigrationStep_id steps -> i ∉ seen).
Proof.
  revert seen. induction steps as [|s steps IH]; intros seen; cbn [check_steps map].
  { split; [|done]. intros _. split_and!; [constructor..|]. intros i Hi. by apply not_elem_of_nil in Hi. }
  rewrite Forall_cons, NoDup_cons.
  destruct (MigrationStep_validate _ _ _ _ s) as [[[]|]|]; [|split; [done|]; by intros [[? _] _]..].
  destruct (smem (MigrationStep_id s) seen) eqn:Es.
  { apply smem_true in Es. split; [done|]. intros (_ & _ & H). destruct (H (MigrationStep_id s)); [by left|done]. }
  apply smem_false in Es. rewrite IH. split.
  - intros (H1 & H2 & H3). split_and!; [done..| |done|].
    + intros Hin. apply (H3 _ Hin). apply elem_sins. by left.
    + intros i [->|Hi]%elem_of_cons; [done|]. intros Hi'. apply (H3 i Hi). apply elem_sins. by right.
  - intros ([_ H1] & [H2 H3] & H4). split_and!; [done..|].
    intros i Hi [->|Hi']%elem_sins; [done|]. apply (H4 i); [by right|done].
Qed.

(** A migration draft is accepted exactly when it has a bounded number of
    steps with distinct identities, each valid, and duplicate-free parents that
    do not name the migration itself; its parents are then in canonical order,
    whatever order they were given in. *)
Theorem draft_new_iff id parents steps d :
  SchemaMigrationDraft_new sha256 delta_bytes assertion_bytes backfill_bytes id parents steps = Some (Ok d) <->
  Z.of_nat (length steps) <= MAX_CANONICAL_COLLECTION_LEN /\
  NoDup parents /\ id ∉ parents /\
  Forall valid_step steps /\ NoDup (map MigrationStep_id steps) /\
  d = draft id (sof parents) steps [] None None.
Proof.
  unfold SchemaMigrationDraft_new.
  destruct (Z.ltb_spec MAX_CANONICAL_COLLECTION_LEN (Z.of_nat (length steps))); [split; [done|lia]|].
  destruct (adjacent (vec_sort parents)) eqn:Ea.
  { split; [done|]. intros (_ & Hn & _). apply adjacent_sort in Hn. congruence. }
  apply adjacent_sort in Ea. rewrite vec_sort_sof by done.
  destruct (existsb _ (sof parents)) eqn:Ee.
  { split; [done|]. apply existsb_exists in Ee as (p & Hp%list_elem_of_In & Hq).
    rewrite oeqb_true in Hq. subst p. rewrite elem_sof in Hp. intros (_ & _ & Hi & _). destruct (Hi Hp). }
  assert (id ∉ parents) as Hid.
  { intros Hin. assert (existsb (fun parent => oeqb parent id) (sof parents) = true) as E; [|congruence].
    apply existsb_exists. exists id. rewrite <- list_elem_of_In, elem_sof. split; [done|]. by apply oeqb_true. }
  pose proof (check_steps_ok [] steps) as Hc.
  destruct (check_steps _ _ _ _ [] steps) as [[[]|]|].
  - destruct (proj1 Hc eq_refl) as (H1 & H2 & _). split; [intros [= <-]; by split_and!|]. by intros (_ & _ & _ & _ & _ & ->).
  - split; [done|]. intros (_ & _ & _ & H1 & H2 & _). exfalso.
    assert (Some (Err e) = Some (Ok (E := Diagnostic) tt)) as E; [|done].
    apply Hc. split_and!; [done..|]. intros i _. apply not_elem_of_nil.
  - split; [done|]. intros (_ & _ & _ & H1 & H2 & _). exfalso.
    assert (None = Some (Ok (E := Diagnostic) tt)) as E; [|done].
    apply Hc. split_and!; [done..|]. intros i _. apply not_elem_of_nil.
Qed.
End draft_theory.

(** ** The digest of an applied set *)

Lemma sorted_map_ids l : StronglySorted ole l -> StronglySorted ole (map reference_id l).
Proof.
  induction 1 as [|r l Hl IH Hr]; [constructor|]. constructor; [done|].
  apply Forall_fmap. eapply Forall_impl; [exact Hr|]. intros x. unfold ole, compose, cmp, Ord_LegacyMigrationReference, ord_by.
  unfold cmp at 1, Ord_prod. cbn [fst snd]. fold (cmp (reference_id r) (reference_id x)).
  destruct (cmp (reference_id r) (reference_id x)); done.
Qed.

Lemma ole_NoDup_sorted {A} {o : Ord A} {ol : OrdLaws A} (l : list A) :
  StronglySorted ole l -> NoDup l -> ssorted l.
Proof.
  induction 1 as [|x l Hl IH Hx]; [constructor|]. intros [Hn Hd]%NoDup_cons. constructor; [by apply IH|].
  apply Forall_forall. intros y Hy. rewrite Forall_forall in Hx.
  destruct (proj1 (ole_cases x y) (Hx y Hy)) as [?| ->]; done.
Qed.

Lemma adjacent_references l : adjacent (map reference_id (vec_sort l)) = false <-> NoDup (map reference_id l).
Proof.
  assert (map reference_id (vec_sort l) ≡ₚ map reference_id l) as Hp
    by (apply (fmap_Permutation reference_id), vec_sort_perm).
  rewrite adjacent_ssorted by apply sorted_map_ids, vec_sort_ole. split.
  - intros H%ssorted_NoDup. by rewrite Hp in H.
  - intros Hn. apply ole_NoDup_sorted; [apply sorted_map_ids, vec_sort_ole|]. by rewrite Hp.
Qed.

(** Bytes one reference adds to the preimage. *)
Definition reference_size (r : LegacyMigrationReference) : Z :=
  foldr (fun f n => 8 + Z.of_nat (length f) + n) 0 (reference_fields r).

Lemma add_fields_ok fs n m :
  0 <= n -> try_fold add_field n fs = Ok m <->
  m = n + foldr (fun f n => 8 + Z.of_nat (length f) + n) 0 fs /\ (fs <> [] -> m <= usize_max).
Proof.
  revert n. induction fs as [|f fs IH]; intros n Hn; cbn [try_fold foldr].
  { split; [intros [= <-]; split; [lia|done]|]. intros [-> _]. f_equal. lia. }
  unfold add_field at 1, ok_or, checked_add.
  destruct (Z.ltb_spec usize_max (n + 8)) as [H1|H1]; simpl.
  { split; [done|]. intros [-> H]. specialize (H ltac:(done)).
    assert (0 <= foldr (fun f n => 8 + Z.of_nat (length f) + n) 0 fs) by (clear; induction fs; simpl; lia). lia. }
  destruct (Z.ltb_spec usize_max (n + 8 + Z.of_nat (length f))) as [H2|H2]; simpl.
  { split; [done|]. intros [-> H]. specialize (H ltac:(done)).
    assert (0 <= foldr (fun f n => 8 + Z.of_nat (length f) + n) 0 fs) by (clear; induction fs; simpl; lia). lia. }
  rewrite IH by lia. split.
  - intros [-> H]. split; [lia|]. intros _. destruct fs; [simpl; lia|by apply H].
  - intros [-> H]. split; [lia|]. intros _. specialize (H ltac:(done)). lia.
Qed.

Definition references_size (l : list LegacyMigrationReference) : Z :=
  foldr (fun r n => reference_size r + n) 0 l.

Lemma reference_size_pos r : 24 <= reference_size r.
Proof. unfold reference_size. cbn [reference_fields foldr]. lia. Qed.

Lemma collect_ok l n b :
  0 <= n <= MAX_CANONICAL_COLLECTION_LEN -> 0 <= b ->
  collect_references n b l = Ok tt <->
  n + Z.of_nat (length l) <= MAX_CANONICAL_COLLECTION_LEN /\
  (l <> [] -> b + references_size l <= MAX_CANONICAL_BYTES).
Proof.
  revert n b. induction l as [|r l IH]; intros n b Hn Hb; cbn [collect_references length references_size foldr].
  { split; [intros _|done]. split; [lia|done]. }
  destruct (Z.eqb_spec n MAX_CANONICAL_COLLECTION_LEN) as [->|Hne]; [split; [done|lia]|].
  pose proof (reference_size_pos r) as Hr. fold (references_size l).
  assert (0 <= references_size l) as Hs.
  { clear. induction l as [|r l IH]; simpl; [lia|]. pose proof (reference_size_pos r). lia. }
  pose proof (add_fields_ok (reference_fields r) b) as Hf. fold (reference_size r) in Hf.
  destruct (try_fold add_field b (reference_fields r)) as [b'|].
  - destruct (proj1 (Hf b' Hb) eq_refl) as [-> Hu].
    destruct (Z.ltb_spec MAX_CANONICAL_BYTES (b + reference_size r)).
    { split; [done|]. intros [_ H']. specialize (H' ltac:(done)). lia. }
    rewrite IH by lia. split.
    + intros [H1 H2]. split; [lia|]. intros _. destruct l; [simpl; lia|]. specialize (H2 ltac:(done)). lia.
    + intros [H1 H2]. split; [lia|]. intros _. specialize (H2 ltac:(done)). lia.
  - split; [done|]. intros [_ H]. specialize (H ltac:(done)).
    assert (Err e = Ok (E := Diagnostic) (b + reference_size r)) as E; [|done].
    apply Hf; [done|]. split; [done|]. intros _. unfold usize_max, u64_max, MAX_CANONICAL_BYTES in *. lia.
Qed.

(** What makes an applied set digestible. *)
Record digestible (l : list LegacyMigrationReference) : Prop := {
  dg_nonempty : l <> [];
  dg_rows : Z.of_nat (length l) <= MAX_CANONICAL_COLLECTION_LEN;
  dg_bytes : 41 + references_size l <= MAX_CANONICAL_BYTES;
  dg_ids : NoDup (map reference_id l) }.

Lemma digest_compute_ok sha256 l d :
  LegacyAppliedSetDigest_compute sha256 l = Ok d <->
  digestible l /\ d = to_hex (sha256 (applied_set_preimage (vec_sort l))).
Proof.
  unfold LegacyAppliedSetDigest_compute. change (checked_add _ 9) with (Some 41). cbn [ok_or].
  pose proof (collect_ok l 0 41 ltac:(unfold MAX_CANONICAL_COLLECTION_LEN; lia) ltac:(lia)) as Hc.
  assert (length (vec_sort l) = length l) as Hl by (by rewrite vec_sort_perm). rewrite Hl.
  destruct (collect_references 0 41 l) as [[]|].
  - destruct (proj1 Hc eq_refl) as [H1 H2]. case_bool_decide as E0.
    { split; [done|]. intros [[Hne _ _ _] _]. by destruct l. }
    destruct (adjacent _) eqn:Ea.
    { split; [done|]. intros [[_ _ _ Hn] _]. apply adjacent_references in Hn. congruence. }
    apply adjacent_references in Ea. split; [intros [= <-]|intros [_ ->]; done].
    split; [|done]. split; [by destruct l|lia|apply H2; by destruct l|done].
  - split; [done|]. intros [[H1 H2 H3 H4] _]. assert (Err e = Ok (E := Diagnostic) tt) as E; [|done].
    apply Hc. split; [lia|done].
Qed.

Lemma fields_inj fs gs x y :
  length fs = length gs -> Forall hashable fs -> Forall hashable gs ->
  (fs ≫= hash_field) ++ x = (gs ≫= hash_field) ++ y -> fs = gs /\ x = y.
Proof.
  revert gs. induction fs as [|f fs IH]; intros [|g gs] Hl Hf Hg E; try done.
  apply Forall_cons in Hf as [Hf Hfs], Hg as [Hg Hgs]. rewrite !bind_cons, <- !app_assoc in E.
  apply hash_field_inj in E as [-> E]; [|done..]. injection Hl as Hl.
  apply IH in E as [-> ->]; done.
Qed.

Lemma references_inj l k :
  length l = length k -> Forall (fun r => Forall hashable (reference_fields r)) l ->
  Forall (fun r => Forall hashable (reference_fields r)) k ->
  (l ≫= fun r => reference_fields r ≫= hash_field) = (k ≫= fun r => reference_fields r ≫= hash_field) -> l = k.
Proof.
  revert k. induction l as [|r l IH]; intros [|s k] Hl Hr Hs E; try done.
  apply Forall_cons in Hr as [Hr Hrs], Hs as [Hs Hss]. rewrite !bind_cons in E.
  apply fields_inj in E as [E1 E2]; [|done..]. injection Hl as Hl.
  rewrite (IH k) by done. f_equal. destruct r as [[a n] c], s as [[a' n'] c']. by injection E1 as -> -> ->.
Qed.

Lemma digestible_hashable l : digestible l -> Forall (fun r => Forall hashable (reference_fields r)) l.
Proof.
  intros [_ _ Hb _]. apply Forall_forall. intros r Hr.
  assert (reference_size r <= references_size l) as Hle.
  { clear Hb. induction l as [|s l IH]; [by apply not_elem_of_nil in Hr|]. simpl.
    pose proof (reference_size_pos s). assert (0 <= references_size l) as Hp.
    { clear. induction l as [|q l IHl]; simpl; [lia|]. pose proof (reference_size_pos q). lia. }
    apply elem_of_cons in Hr as [->|Hr]; [lia|]. specialize (IH Hr). lia. }
  unfold reference_size in Hle. cbn [reference_fields foldr] in Hle.
  unfold MAX_CANONICAL_BYTES in Hb. repeat constructor; unfold hashable, u64_max; lia.
Qed.

Lemma applied_set_preimage_inj l k :
  digestible l -> digestible k ->
  applied_set_preimage (vec_sort l) = applied_set_preimage (vec_sort k) -> vec_sort l = vec_sort k.
Proof.
  intros Hl Hk E. unfold applied_set_preimage in E. apply app_inv_head in E. apply app_inv_head in E.
  apply app_inj_1 in E as [E1 E2]; [|by rewrite !be_bytes_length].
  assert (forall l, digestible l -> 0 <= Z.of_nat (length (vec_sort l)) < 256 ^ Z.of_nat 8) as Hlen.
  { intros j Hj. destruct Hj as [_ Hr _ _]. rewrite vec_sort_perm.
    unfold MAX_CANONICAL_COLLECTION_LEN in Hr. simpl. lia. }
  apply be_bytes_inj in E1; [|by apply Hlen..].
  apply references_inj; [lia|by rewrite vec_sort_perm; apply digestible_hashable..|done].
Qed.

Lemma references_size_perm l k : l ≡ₚ k -> references_size l = references_size k.
Proof. unfold references_size. induction 1; simpl; lia. Qed.

Lemma digestible_perm l k : l ≡ₚ k -> digestible l -> digestible k.
Proof.
  intros Hp [H1 H2 H3 H4]. split.
  - intros ->. by apply Permutation_nil_r in Hp.
  - by rewrite <- Hp.
  - by rewrite <- (references_size_perm l k).
  - assert (map reference_id l ≡ₚ map reference_id k) as Hm by (by apply (fmap_Permutation reference_id)).
    by rewrite <- Hm.
Qed.

(** The digest of a released applied set identifies the set: the order in
    which the rows are given does not matter, and two sets with the same digest
    have the same rows (identities and checksums), unless their preimages are a
    collision of the hash function. Component boundaries cannot be confused. *)
Theorem applied_set_digest_exact sha256 l k d :
  LegacyAppliedSetDigest_compute sha256 l = Ok d ->
  (l ≡ₚ k -> LegacyAppliedSetDigest_compute sha256 k = Ok d) /\
  (LegacyAppliedSetDigest_compute sha256 k = Ok d ->
   l ≡ₚ k \/ exists x y, x <> y /\ sha256 x = sha256 y).
Proof.
  intros [Hl ->]%digest_compute_ok.
  assert (forall j, digestible j -> NoDup j) as Hnd by (intros j Hj; by eapply NoDup_fmap_1, dg_ids).
  split.
  - intros Hp. assert (digestible k) as Hk by (by eapply digestible_perm). apply digest_compute_ok.
    split; [done|]. f_equal. f_equal. f_equal. rewrite !vec_sort_sof by (by apply Hnd).
    apply ssorted_ext; [apply sof_sorted..|]. intros r. by rewrite !elem_sof, Hp.
  - intros [Hk E]%digest_compute_ok. apply (f_equal hex_bytes) in E. rewrite !hex_bytes_to_hex in E.
    destruct (decide (applied_set_preimage (vec_sort l) = applied_set_preimage (vec_sort k))) as [Hq|Hq].
    + left. apply applied_set_preimage_inj in Hq; [|done..].
      by rewrite <- (vec_sort_perm l), Hq, vec_sort_perm.
    + right. eauto.
Qed.

Definition example_rows : list LegacyMigrationReference :=
  [legacy_reference (legacy_id b#"app" b#"0002_next") b#"fedcba9876543210";
   legacy_reference (legacy_id b#"app" b#"0001_initial") b#"0123456789abcdef"].

Lemma applied_set_digest_exact_w :
  let weak := firstn 32 in
  LegacyAppliedSetDigest_compute weak example_rows = LegacyAppliedSetDigest_compute weak (rev example_rows).
Proof.
  intros weak. destruct (LegacyAppliedSetDigest_compute weak example_rows) as [d|e] eqn:E;
    [|vm_compute in E; discriminate].
  destruct (applied_set_digest_exact weak example_rows (rev example_rows) d E) as [H _].
  symmetry. apply H. apply Permutation_rev.
Defined.

End Manifest.
