(* ===== verification/Policy.v ===== *)
(** * Apply policy and approvals (schema-migration/src/policy.rs, and the gates of apply_plan.rs and rollback_plan.rs)

    The per-class decisions, whose floor can only be tightened, the approvals
    bound to one exact transition, and the gate that admits a manifest for
    execution or rollback. SHA-256 and the manifest encoding are parameters. *)

From S2P Require Import Prelude BTree Text Ident Fingerprint Schema SchemaDelta Delta Safety Migration Manifest.
Import Ident Fingerprint Schema SchemaDelta Safety Migration Manifest.
#[local] Open Scope Z_scope.

Module Policy.

Inductive SafetyPolicyDecision : Set := Allow | RequireApproval | Reject.

#[global] Instance SafetyPolicyDecision_eq_dec : EqDecision SafetyPolicyDecision.
Proof. solve_decision. Defined.

Definition MigrationSafetyPolicy : Set := BTreeMap SafetyClass SafetyPolicyDecision.

Definition default_policy : MigrationSafetyPolicy :=
  mof [(FormalOnly, Allow); (SchemaMetadata, Allow); (Additive, Allow); (Conditional, Allow);
       (Destructive, RequireApproval); (Opaque, RequireApproval); (BackfillRequired, RequireApproval);
       (Unsupported, Reject)].

Definition with_decision (self : MigrationSafetyPolicy) (class : SafetyClass) (decision : SafetyPolicyDecision)
    : result Diagnostic MigrationSafetyPolicy :=
  match class, decision with
  | (Destructive | Opaque), Allow => Err (invalid "migration_policy_forbidden_allow")
  | BackfillRequired, Allow => Err (invalid "migration_policy_forbidden_allow")
  | Unsupported, (Allow | RequireApproval) => Err (invalid "migration_policy_unresolvable_class")
  | _, _ => Ok (mins class decision self)
  end.

Definition decision (self : MigrationSafetyPolicy) (class : SafetyClass) : SafetyPolicyDecision :=
  default Reject (mget class self).

(** ** Approvals *)

Record MigrationApplyApproval : Set := approval {
  approval_id : MigrationId;
  approval_lowering : SchemaLoweringProfileBinding;
  approval_digest : FingerprintDigest;
  approval_plan : Fingerprint.Fingerprint;
  approval_safety : SafetyClass;
  approval_profile : SemanticProfileBinding;
  approval_source : ManagedSchemaState;
  approval_target : ManagedSchemaState }.

Section approvals.
Context (sha256 : str -> str).
Context (encode : VerifiedSchemaMigrationManifest -> result Diagnostic str).

(** The outer [None] is the panic of the digest parser. *)
Definition for_transition (m : VerifiedSchemaMigrationManifest) (safety : SafetyClass) (rollback : bool)
    : option (result Diagnostic MigrationApplyApproval) :=
  let '(source_state, target_state) :=
    if rollback then (manifest_target m, manifest_source m) else (manifest_source m, manifest_target m) in
  match verified_manifest_digest sha256 encode m with
  | None => None
  | Some r =>
      Some (let? digest := r in
            Ok (approval (manifest_id m) (lowering_profile m) digest (plan_fingerprint m) safety
                  (manifest_profile m) source_state target_state))
  end.

Definition for_manifest (m : VerifiedSchemaMigrationManifest) : option (result Diagnostic MigrationApplyApproval) :=
  for_transition m (safety m) false.

Definition for_rollback (m : VerifiedSchemaMigrationManifest) (rollback_safety : SafetyClass)
    : option (result Diagnostic MigrationApplyApproval) :=
  for_transition m rollback_safety true.

(** [Ok(guard && rest?)]: the rest is evaluated only when the guard holds. *)
Definition and_then (guard : bool) (rest : option (result Diagnostic bool)) : option (result Diagnostic bool) :=
  if guard then rest else Some (Ok false).

Definition binds_identity (self : MigrationApplyApproval) (m : VerifiedSchemaMigrationManifest)
    : option (result Diagnostic bool) :=
  and_then (bool_decide (approval_id self = manifest_id m)
            && bool_decide (approval_plan self = plan_fingerprint m)
            && bool_decide (approval_profile self = manifest_profile m)
            && bool_decide (approval_lowering self = lowering_profile m))
    match verified_manifest_digest sha256 encode m with
    | None => None
    | Some r => Some (let? digest := r in Ok (bool_decide (approval_digest self = digest)))
    end.

Definition binds (self : MigrationApplyApproval) (m : VerifiedSchemaMigrationManifest)
    : option (result Diagnostic bool) :=
  and_then (bool_decide (approval_safety self = safety m)
            && bool_decide (approval_source self = manifest_source m)
            && bool_decide (approval_target self = manifest_target m)) (binds_identity self m).

Definition binds_rollback (self : MigrationApplyApproval) (m : VerifiedSchemaMigrationManifest)
    (rollback_safety : SafetyClass) : option (result Diagnostic bool) :=
  and_then (bool_decide (approval_safety self = rollback_safety)
            && bool_decide (approval_source self = manifest_target m)
            && bool_decide (approval_target self = manifest_source m)) (binds_identity self m).

(** The loop over the approvals, which stops at the first that binds. *)
Fixpoint any_binds (test : MigrationApplyApproval -> option (result Diagnostic bool))
    (approvals : list MigrationApplyApproval) : option (result Diagnostic bool) :=
  match approvals with
  | [] => Some (Ok false)
  | a :: approvals =>
      match test a with
      | Some (Ok false) => any_binds test approvals
      | r => r
      end
  end.

(** The gate of both planners: whether the manifest is approved, or refused.
    [refuse] and [require] are the two diagnostics of the planner. *)
Definition gate (refuse require : Diagnostic) (test : MigrationApplyApproval -> option (result Diagnostic bool))
    (execution_authorized : bool) (policy : MigrationSafetyPolicy) (approvals : list MigrationApplyApproval)
    (class : SafetyClass) : option (result Diagnostic bool) :=
  if negb execution_authorized then Some (Ok true)
  else match decision policy class with
       | Allow => Some (Ok false)
       | Reject => Some (Err refuse)
       | RequireApproval =>
           match any_binds test approvals with
           | None => None
           | Some r => Some (let? bound := r in if negb bound then Err require else Ok true)
           end
       end.

(** The gate of [build_verified_migration_apply_plan_inner]. *)
Definition apply_gate (execution_authorized : bool) (policy : MigrationSafetyPolicy)
    (approvals : list MigrationApplyApproval) (m : VerifiedSchemaMigrationManifest) : option (result Diagnostic bool) :=
  gate (invalid "migration_apply_safety_policy_rejected") (invalid "migration_apply_approval_required")
    (fun a => binds a m) execution_authorized policy approvals (safety m).

(** The gate of [build_verified_migration_rollback_plan_inner]. *)
Definition rollback_gate (execution_authorized : bool) (policy : MigrationSafetyPolicy)
    (approvals : list MigrationApplyApproval) (m : VerifiedSchemaMigrationManifest)
    (rollback_safety : SafetyClass) : option (result Diagnostic bool) :=
  gate (invalid "migration_rollback_safety_policy_rejected") (invalid "migration_rollback_approval_required")
    (fun a => binds_rollback a m rollback_safety) execution_authorized policy approvals rollback_safety.
End approvals.

(** ** The floor of every policy *)

(** The policies a caller can build: the default one, tightened step by step. *)
Inductive constructible : MigrationSafetyPolicy -> Prop :=
| constructible_default : constructible default_policy
| constructible_with p c d p' : constructible p -> with_decision p c d = Ok p' -> constructible p'.

(** The decisions the floor admits for a class. *)
Definition floor_admits (class : SafetyClass) (d : SafetyPolicyDecision) : Prop :=
  match class with
  | Destructive | Opaque | BackfillRequired => d <> Allow
  | Unsupported => d = Reject
  | _ => True
  end.

Lemma with_decision_ok p c d p' : with_decision p c d = Ok p' <-> floor_admits c d /\ p' = mins c d p.
Proof.
  split.
  - destruct c, d; cbn; intros H; simp; split; done.
  - intros [Hf ->]. destruct c, d; cbn in *; done.
Qed.

Lemma decision_mins p c d e : decision (mins c d p) e = if oeqb c e then d else decision p e.
Proof. unfold decision. rewrite mget_mins. by destruct (oeqb c e). Qed.

Lemma constructible_floor p c : constructible p -> floor_admits c (decision p c).
Proof.
  induction 1 as [|p d x p' _ IH H]; [by destruct c|].
  apply with_decision_ok in H as [Hf ->]. rewrite decision_mins.
  destruct (oeqb_spec d c) as [->|]; done.
Qed.

Lemma constructible_all (f : SafetyClass -> SafetyPolicyDecision) (l : list SafetyClass) :
  (forall c, floor_admits c (f c)) ->
  exists p, constructible p /\ forall c, decision p c = if decide (c ∈ l) then f c else decision default_policy c.
Proof.
  intros Hf. induction l as [|c l (p & Hp & IH)].
  - exists default_policy. split; [constructor|]. intros c. by destruct (decide (c ∈ [])) as [H%not_elem_of_nil|].
  - exists (mins c (f c) p). split; [by eapply constructible_with, with_decision_ok|].
    intros e. rewrite decision_mins. destruct (oeqb_spec c e) as [->|Hne].
    + destruct (decide (e ∈ e :: l)) as [|n]; [done|]. destruct n. by left.
    + rewrite IH. destruct (decide (e ∈ l)) as [Hin|Hin], (decide (e ∈ c :: l)) as [Hin'|Hin']; try done.
      * destruct Hin'. by right.
      * apply elem_of_cons in Hin' as [->|?]; done.
Qed.

(** The floor of the policy is exact: a decision table is the table of a
    policy some caller can build, starting from the default and overriding
    decisions one by one in any order, exactly when it never allows
    destructive, opaque or backfill work outright and always rejects
    unsupported work. *)
Theorem policy_floor_exact (f : SafetyClass -> SafetyPolicyDecision) :
  (exists p, constructible p /\ forall c, decision p c = f c) <-> forall c, floor_admits c (f c).
Proof.
  split.
  - intros (p & Hp & Hd) c. rewrite <- Hd. by apply constructible_floor.
  - intros Hf. destruct (constructible_all f SafetyClass_ALL Hf) as (p & Hp & Hd). exists p. split; [done|].
    intros c. rewrite Hd. destruct (decide (c ∈ SafetyClass_ALL)) as [|n]; [done|].
    destruct n. destruct c; unfold SafetyClass_ALL; set_solver.
Qed.

(** ** What an approval binds *)

Section approval_theory.
Context (sha256 : str -> str).
Context (encode : VerifiedSchemaMigrationManifest -> result Diagnostic str).

(** The manifest's canonical bytes hash to [d]. *)
Definition has_digest (m : VerifiedSchemaMigrationManifest) (d : FingerprintDigest) : Prop :=
  verified_manifest_digest sha256 encode m = Some (Ok d).

(** The part of a manifest that identifies its program. *)
Record same_program (m m' : VerifiedSchemaMigrationManifest) : Prop := {
  sp_id : manifest_id m = manifest_id m';
  sp_plan : plan_fingerprint m = plan_fingerprint m';
  sp_profile : manifest_profile m = manifest_profile m';
  sp_lowering : lowering_profile m = lowering_profile m';
  sp_digest : exists d, has_digest m d /\ has_digest m' d }.

Lemma has_digest_iff m d :
  has_digest m d <-> exists bytes, encode m = Ok bytes /\ d = sha256 bytes /\ length d = 32%nat.
Proof.
  unfold has_digest, verified_manifest_digest, MigrationManifestDigest_compute, from_hex.
  destruct (encode m) as [bytes|e]; [|split; [done|by intros (? & ? & _)]].
  destruct (to_hex_spec (sha256 bytes)) as [Hl Hh]. rewrite Hl, Hh, orb_false_r, hex_bytes_to_hex.
  destruct (Nat.eqb_spec (2 * length (sha256 bytes)) 64); simpl.
  - split; [intros [= <-]; exists bytes; split_and!; [done..|lia]|]. by intros (b & [= ->] & -> & _).
  - split; [done|]. intros (b & [= ->] & -> & Hx). lia.
Qed.

Lemma for_transition_ok m c rb a :
  for_transition sha256 encode m c rb = Some (Ok a) <->
  exists d, has_digest m d /\
  a = approval (manifest_id m) (lowering_profile m) d (plan_fingerprint m) c (manifest_profile m)
        (if rb then manifest_target m else manifest_source m) (if rb then manifest_source m else manifest_target m).
Proof.
  unfold for_transition, has_digest.
  destruct rb, (verified_manifest_digest sha256 encode m) as [[d|]|]; split;
    try (by intros ?); try (by intros (? & ? & _)); try (intros [= <-]; eauto); by intros (d' & [= ->] & ->).
Qed.

Lemma and_then_true g r : and_then g r = Some (Ok true) <-> g = true /\ r = Some (Ok true).
Proof. destruct g; simpl; intuition congruence. Qed.

(** An approval binds a transition exactly when it was recorded for one that
    agrees in class, states, program and digest. *)
Lemma binds_transition m c rb a m' c' :
  for_transition sha256 encode m c rb = Some (Ok a) ->
  forall rb' : bool,
  (if rb' then binds_rollback sha256 encode a m' c' = Some (Ok true)
   else binds sha256 encode a m' = Some (Ok true)) <->
  c = (if rb' then c' else safety m') /\
  (if rb then manifest_target m else manifest_source m) = (if rb' then manifest_target m' else manifest_source m') /\
  (if rb then manifest_source m else manifest_target m) = (if rb' then manifest_source m' else manifest_target m') /\
  same_program m m'.
Proof.
  intros (d & Hd & ->)%for_transition_ok rb'.
  assert (binds_identity sha256 encode
    (approval (manifest_id m) (lowering_profile m) d (plan_fingerprint m) c (manifest_profile m)
       (if rb then manifest_target m else manifest_source m) (if rb then manifest_source m else manifest_target m)) m'
    = Some (Ok true) <-> same_program m m') as Hi.
  { unfold binds_identity. rewrite and_then_true. simpl. rewrite !andb_true_iff, !bool_decide_eq_true.
    split.
    - intros [[[[H1 H2] H3] H4] H5]. split; [done..|]. exists d. split; [done|]. unfold has_digest.
      destruct (verified_manifest_digest sha256 encode m') as [[d'|]|]; try done.
      injection H5 as H5%bool_decide_eq_true. by subst.
    - intros [H1 H2 H3 H4 (d' & H5 & H6)]. split; [done|]. unfold has_digest in *. rewrite H6.
      rewrite Hd in H5. injection H5 as ->. by rewrite bool_decide_eq_true_2. }
  destruct rb'; unfold binds, binds_rollback; rewrite and_then_true, Hi; simpl;
    rewrite !andb_true_iff, !bool_decide_eq_true; tauto.
Qed.

(** Approvals bind exact transitions. A forward approval recorded for a
    manifest binds another one exactly when they agree in safety class, source
    and target state, identity, plan fingerprint, profiles and digest of the
    canonical bytes; a rollback approval does so with the states swapped and
    the class of the rollback. Across the two directions, a forward approval
    binds the rollback of its own manifest exactly when the rollback has the
    same class and the migration ends in the state it started in. *)
Theorem approval_binds_exact m a c b :
  for_manifest sha256 encode m = Some (Ok a) -> for_rollback sha256 encode m c = Some (Ok b) ->
  (forall m', binds sha256 encode a m' = Some (Ok true) <->
     safety m = safety m' /\ manifest_source m = manifest_source m' /\ manifest_target m = manifest_target m' /\
     same_program m m') /\
  (forall m' c', binds_rollback sha256 encode b m' c' = Some (Ok true) <->
     c = c' /\ manifest_target m = manifest_target m' /\ manifest_source m = manifest_source m' /\
     same_program m m') /\
  (forall c', binds_rollback sha256 encode a m c' = Some (Ok true) <->
     c' = safety m /\ manifest_source m = manifest_target m).
Proof.
  intros Ha Hb. split_and!.
  - intros m'. exact (binds_transition m (safety m) false a m' c Ha false).
  - intros m' c'. exact (binds_transition m c true b m' c' Hb true).
  - intros c'. rewrite (binds_transition m (safety m) false a m c' Ha true).
    assert (same_program m m) as Hs.
    { unfold for_manifest in Ha. apply for_transition_ok in Ha as (d & Hd & _). split; [done..|]. by exists d. }
    split; [intros (-> & -> & _ & _); done|]. intros [-> E]. by split_and!.
Qed.

Lemma any_binds_true test l :
  any_binds test l = Some (Ok true) <->
  exists pre a post, l = pre ++ a :: post /\ test a = Some (Ok true) /\
    Forall (fun a => test a = Some (Ok false)) pre.
Proof.
  induction l as [|x l IH]; cbn [any_binds].
  - split; [done|]. by intros ([] & ? & ? & [=] & _).
  - destruct (test x) as [[[]|]|] eqn:E.
    + split; [intros _; exists [], x, l; by split_and!|done].
    + rewrite IH. split.
      * intros (pre & a & post & -> & Ha & Hp). exists (x :: pre), a, post. split_and!; [done..|by constructor].
      * intros ([|y pre] & a & post & [= <- El] & Ha & Hp); [congruence|].
        apply Forall_cons in Hp as [_ Hp]. by exists pre, a, post.
    + split; [done|]. intros ([|y pre] & a & post & [= <- El] & Ha & Hp); [congruence|].
      apply Forall_cons in Hp as [Hp _]. congruence.
    + split; [done|]. intros ([|y pre] & a & post & [= <- El] & Ha & Hp); [congruence|].
      apply Forall_cons in Hp as [Hp _]. congruence.
Qed.

Lemma gate_ok refuse require test policy approvals class b :
  gate refuse require test true policy approvals class = Some (Ok b) ->
  (decision policy class = Allow /\ b = false) \/
  (decision policy class = RequireApproval /\ b = true /\ exists a, a ∈ approvals /\ test a = Some (Ok true)).
Proof.
  unfold gate. cbn [negb]. destruct (decision policy class); [intros [= <-]; by left| |done].
  destruct (any_binds test approvals) as [[[]|]|] eqn:E; try done. intros [= <-]. right. split_and!; [done..|].
  apply any_binds_true in E as (pre & a & post & -> & Ha & _). exists a. split; [set_solver|done].
Qed.

(** C19. Risky work never executes unapproved: under every policy a caller can
    build, a manifest that passes the apply gate is of a class at most
    [Conditional], or an approval given to the gate binds this very manifest
    and the class is not [Unsupported]; the same holds for the rollback gate
    and the class of the rollback. *)
Theorem gates_require_approval policy approvals m b :
  constructible policy ->
  (apply_gate sha256 encode true policy approvals m = Some (Ok b) ->
   at_most (safety m) Conditional \/
   (safety m <> Unsupported /\ exists a, a ∈ approvals /\ binds sha256 encode a m = Some (Ok true))) /\
  (forall c, rollback_gate sha256 encode true policy approvals m c = Some (Ok b) ->
   at_most c Conditional \/
   (c <> Unsupported /\ exists a, a ∈ approvals /\ binds_rollback sha256 encode a m c = Some (Ok true))).
Proof.
  intros Hp.
  assert (forall refuse require test c, gate refuse require test true policy approvals c = Some (Ok b) ->
    at_most c Conditional \/ (c <> Unsupported /\ exists a, a ∈ approvals /\ test a = Some (Ok true))) as Hg.
  { intros refuse require test c H. pose proof (constructible_floor policy c Hp) as Hf.
    apply gate_ok in H as [[Hd _]|(Hd & _ & Ha)]; rewrite Hd in Hf.
    - left. by destruct c.
    - right. split; [by intros ->|done]. }
  split; [apply Hg|intros c; apply Hg].
Qed.
End approval_theory.

(** ** Examples *)

Definition example_bytes (m : VerifiedSchemaMigrationManifest) : result Diagnostic str :=
  Ok (migration_name (manifest_id m) ++ replicate 32 "."%char).

Definition example_manifest (name : string) (class : SafetyClass) (src tgt : ManagedSchemaState)
    : VerifiedSchemaMigrationManifest :=
  verified_manifest MigrationV1 (migration_id b#"app" (lit name)) [] None
    (lowering_binding (example_fingerprint "lowering") TYPEDB_3_12_1_SCHEMA_LOWERING_PROFILE_ID)
    (scope src) [] (example_fingerprint "plan") None [] true class
    (semantic_binding (example_fingerprint "semantic") b#"typedb-3.12.1/v1")
    (Delta.Delta.declared example_facts) src [] (Delta.Delta.declared example_facts) tgt.

Lemma approval_binds_exact_w :
  exists a, for_manifest (firstn 32) example_bytes (example_manifest "0001" Destructive example_source example_target)
    = Some (Ok a) /\
  binds (firstn 32) example_bytes a (example_manifest "0001" Destructive example_source example_target) = Some (Ok true).
Proof.
  set (m := example_manifest "0001" Destructive example_source example_target).
  destruct (for_manifest (firstn 32) example_bytes m) as [[a|]|] eqn:Ea; [|vm_compute in Ea; discriminate..].
  destruct (for_rollback (firstn 32) example_bytes m Destructive) as [[b|]|] eqn:Eb; [|vm_compute in Eb; discriminate..].
  exists a. split; [reflexivity|].
  apply (approval_binds_exact (firstn 32) example_bytes m a Destructive b Ea Eb).
  split; [reflexivity|]. split; [reflexivity|]. split; [reflexivity|]. split; [reflexivity..|].
  eexists. split; vm_compute; reflexivity.
Defined.

Lemma gates_require_approval_w :
  exists a, let m := example_manifest "0001" Destructive example_source example_target in
  apply_gate (firstn 32) example_bytes true default_policy [a] m = Some (Ok true) /\
  (at_most (safety m) Conditional \/
   (safety m <> Unsupported /\ exists b, b ∈ [a] /\ binds (firstn 32) example_bytes b m = Some (Ok true))).
Proof.
  set (m := example_manifest "0001" Destructive example_source example_target).
  destruct (for_manifest (firstn 32) example_bytes m) as [[a|]|] eqn:Ea; [|vm_compute in Ea; discriminate..].
  exists a. cbv zeta.
  assert (apply_gate (firstn 32) example_bytes true default_policy [a] m = Some (Ok true)) as Hg
    by (vm_compute in Ea; injection Ea as <-; vm_compute; reflexivity).
  split; [exact Hg|].
  exact (proj1 (gates_require_approval (firstn 32) example_bytes default_policy [a] m true constructible_default) Hg).
Defined.

End Policy.
