(* ===== verification/ApplyPlan.v ===== *)
(** * Verified apply plans (schema-migration/src/apply_plan.rs)

    The execution evidence of a planned manifest: its verified steps, the
    partition of the steps into transaction groups that end in one schema delta,
    and the positions of the backfills between them. [schedule] is the order in
    which the executor visits groups and backfills; the theorem of this file is
    that it visits every step of the manifest once and in order. *)

From S2P Require Import Prelude BTree Text Ident Fingerprint Schema SchemaDelta Safety Limits Assertion Migration Manifest.
From Stdlib Require Import Sorted.
Import Ident Fingerprint Schema SchemaDelta Safety Assertion Migration Manifest.
#[local] Open Scope nat_scope.

Module ApplyPlan.

(** ** Evidence *)

Inductive TypeQlVerb : Set := VDefine | VUndefine | VRedefine.
Record TypeQlStatement : Set := typeql_statement { verb : TypeQlVerb; query : str }.

Record StatementUnit : Set := statement_unit {
  operation_index : nat;
  unit_kind : SchemaOperationKind;
  unit_safety : SafetyClass;
  atomic : bool;
  unit_affected_ids : list SchemaFactId;
  unit_capabilities : CapabilitySet;
  statements : list TypeQlStatement }.

Record SchemaLoweringPlan : Set := lowering_plan {
  lowered_delta : SchemaDelta;
  lowered_profile_id : SchemaLoweringProfileId;
  lowered_profile_fingerprint : Fingerprint.Fingerprint;
  units : list StatementUnit }.

(** The fields of a validated assertion that planning and execution read. *)
Record ValidatedMigrationAssertionPlan : Set := validated_plan {
  validated : MigrationAssertionPlan; validated_source : ManagedSchemaState }.

Inductive VerifiedMigrationApplyStep : Set :=
| ApplyAssertion (step : MigrationStep) (validated : ValidatedMigrationAssertionPlan)
| ApplySchemaDelta (step : MigrationStep) (lowering : SchemaLoweringPlan)
| ApplyBackfill (step : MigrationStep).

Definition step (s : VerifiedMigrationApplyStep) : MigrationStep :=
  match s with ApplyAssertion step _ | ApplySchemaDelta step _ | ApplyBackfill step => step end.

Definition validated_assertion (s : VerifiedMigrationApplyStep) : option ValidatedMigrationAssertionPlan :=
  match s with ApplyAssertion _ validated => Some validated | _ => None end.

Definition lowering (s : VerifiedMigrationApplyStep) : option SchemaLoweringPlan :=
  match s with ApplySchemaDelta _ lowering => Some lowering | _ => None end.

(** ** Transaction groups *)

Record VerifiedMigrationTransactionGroup : Set := transaction_group {
  ordinal : nat; first_step_index : nat; schema_delta_step_index : nat }.

#[global] Instance VerifiedMigrationTransactionGroup_eq_dec : EqDecision VerifiedMigrationTransactionGroup.
Proof. solve_decision. Defined.

Definition assertion_count (g : VerifiedMigrationTransactionGroup) : nat :=
  schema_delta_step_index g - first_step_index g.

Definition end_step_index (g : VerifiedMigrationTransactionGroup) : nat := S (schema_delta_step_index g).

(** [&steps[from..to]] for [from <= to <= steps.len()]. *)
Definition slice {A} (from to : nat) (l : list A) : list A := firstn (to - from) (skipn from l).

Section partition.
Context (sha256 : str -> str).
Context (assertion_bytes : MigrationAssertionPlan -> result Diagnostic str).

(** The evidence of one assertion before the delta of its group. *)
Definition check_assertion (schema_step : SchemaDeltaStep) (assertion : VerifiedMigrationApplyStep)
    : result Diagnostic () :=
  match validated_assertion assertion with
  | None => Err (stable Integrity "migration_apply_group_step_kind_mismatch")
  | Some v =>
      let? evidence :=
        ok_or (as_assertion (step assertion)) (stable Integrity "migration_apply_group_step_kind_mismatch") in
      let '(contract, persisted, expectation) := evidence in
      let mismatch := stable Integrity "migration_apply_group_assertion_mismatch" in
      if negb (bool_decide (expectation = NoRows)) then Err mismatch else
      let? actual := assertion_bytes (validated v) in
      let? expected := assertion_bytes persisted in
      if negb (bool_decide (actual = expected)) then Err mismatch else
      let? actual_fingerprint := assertion_fingerprint sha256 assertion_bytes (validated v) in
      if negb (bool_decide (actual_fingerprint = ac_plan_fingerprint contract)) then Err mismatch else
      if negb (bool_decide (validated_source v = delta_source (step_delta schema_step)))
      then Err (stable Integrity "migration_apply_group_source_state_mismatch")
      else Ok tt
  end.

(** The loop of [partition_transaction_groups], at [step_index] of [steps]. *)
Fixpoint partition_from (steps : list VerifiedMigrationApplyStep)
    (groups : list VerifiedMigrationTransactionGroup) (first_step_index step_index : nat)
    (rest : list VerifiedMigrationApplyStep) : result Diagnostic (list VerifiedMigrationTransactionGroup) :=
  match rest with
  | [] =>
      if first_step_index =? step_index then Ok groups
      else Err (invalid "migration_apply_group_orphan_assertion")
  | ApplyAssertion _ _ :: rest => partition_from steps groups first_step_index (S step_index) rest
  | ApplyBackfill _ :: rest =>
      if first_step_index =? step_index then partition_from steps groups (S step_index) (S step_index) rest
      else Err (invalid "migration_apply_assertion_before_backfill")
  | ApplySchemaDelta s _ :: rest =>
      let? schema_step :=
        ok_or (as_schema_delta s) (stable Integrity "migration_apply_group_step_kind_mismatch") in
      let? _ := try_map (check_assertion schema_step) (slice first_step_index step_index steps) in
      partition_from steps (groups ++ [transaction_group (length groups) first_step_index step_index])
        (S step_index) (S step_index) rest
  end.

Definition partition_transaction_groups (steps : list VerifiedMigrationApplyStep)
    : result Diagnostic (list VerifiedMigrationTransactionGroup) := partition_from steps [] 0 0 steps.
End partition.

(** The [backfill_step_indices] of a planned manifest, from position [index]. *)
Fixpoint backfill_positions (index : nat) (steps : list VerifiedMigrationApplyStep) : list nat :=
  match steps with
  | [] => []
  | ApplyBackfill _ :: rest => index :: backfill_positions (S index) rest
  | _ :: rest => backfill_positions (S index) rest
  end.

(** ** Plans *)

Record VerifiedMigrationApplyManifest : Set := apply_manifest {
  manifest_digest : FingerprintDigest;
  manifest : VerifiedSchemaMigrationManifest;
  steps : list VerifiedMigrationApplyStep;
  transaction_groups : list VerifiedMigrationTransactionGroup;
  backfill_step_indices : list nat }.

Record VerifiedMigrationApplyPlan : Set := apply_plan {
  applied_migrations : list MigrationId;
  applied_frontier : list MigrationId;
  migrations : list VerifiedMigrationApplyManifest;
  required_capabilities : CapabilitySet;
  plan_source_schema : option DeclaredSchema;
  source_state : option ManagedSchemaState;
  target_frontier : list MigrationId;
  plan_target_schema : option DeclaredSchema;
  target_state : option ManagedSchemaState;
  execution_authorized : bool }.

(** ** The order of operations

    The executor visits the groups in order, and before each group the backfills
    positioned before it. *)

Inductive Operation : Set :=
| OGroup (g : VerifiedMigrationTransactionGroup)
| OBackfill (index : nat).

Fixpoint take_while {A} (p : A -> bool) (l : list A) : list A * list A :=
  match l with
  | [] => ([], [])
  | x :: l => if p x then let '(taken, rest) := take_while p l in (x :: taken, rest) else ([], x :: l)
  end.

Fixpoint schedule (groups : list VerifiedMigrationTransactionGroup) (backfills : list nat) : list Operation :=
  match groups with
  | [] => map OBackfill backfills
  | g :: groups =>
      let '(before, after) := take_while (fun i => i <? first_step_index g) backfills in
      map OBackfill before ++ OGroup g :: schedule groups after
  end.

(** The steps an operation executes. *)
Definition operation_steps {A} (steps : list A) (o : Operation) : list A :=
  match o with
  | OGroup g => slice (first_step_index g) (end_step_index g) steps
  | OBackfill i => slice i (S i) steps
  end.

Definition operation_position (o : Operation) : nat :=
  match o with OGroup g => first_step_index g | OBackfill i => i end.

(** ** Theory *)

Definition groups_of (l : list Operation) : list VerifiedMigrationTransactionGroup :=
  omap (fun o => match o with OGroup g => Some g | OBackfill _ => None end) l.
Definition backfills_of (l : list Operation) : list nat :=
  omap (fun o => match o with OBackfill i => Some i | OGroup _ => None end) l.

Definition before (o p : Operation) : Prop := operation_position o < operation_position p.

Lemma take_while_none {A} (p : A -> bool) l : Forall (fun x => p x = false) l -> take_while p l = ([], l).
Proof. intros H. destruct H as [|x l Hx _]; [done|]. cbn. by rewrite Hx. Qed.

(** Merging the groups and the backfills of a list of operations by position
    gives the list back. *)
Lemma schedule_merge l : StronglySorted before l -> schedule (groups_of l) (backfills_of l) = l.
Proof.
  induction 1 as [|o l Hs IH Hf]; [done|]. rewrite Forall_forall in Hf. destruct o as [g|i].
  - change (schedule (g :: groups_of l) (backfills_of l) = OGroup g :: l). cbn [schedule].
    rewrite take_while_none; [by rewrite IH|].
    rewrite Forall_forall. intros j Hj. apply list_elem_of_omap in Hj as ([|k] & Hk & [= ->]).
    apply Hf in Hk. apply Nat.ltb_ge. unfold before in Hk. cbn in Hk. lia.
  - change (schedule (groups_of l) (i :: backfills_of l) = OBackfill i :: l).
    destruct (groups_of l) as [|g gs] eqn:Eg.
    { cbn in IH |- *. by rewrite IH. }
    assert (OGroup g ∈ l) as Hg.
    { assert (g ∈ groups_of l) as H by (rewrite Eg; apply list_elem_of_here).
      apply list_elem_of_omap in H as ([h|] & Hh & [= ->]). done. }
    apply Hf in Hg. unfold before in Hg. cbn in Hg. cbn [schedule take_while] in IH |- *.
    destruct (Nat.ltb_spec i (first_step_index g)); [|lia].
    destruct (take_while _ (backfills_of l)) as [b a]. cbn. by rewrite IH.
Qed.

Lemma slice_tile {A} (from mid to : nat) (l : list A) :
  from <= mid <= to -> slice from mid l ++ slice mid to l = slice from to l.
Proof.
  intros H. unfold slice. replace (drop mid l) with (drop (mid - from) (drop from l))
    by (rewrite drop_drop; f_equal; lia).
  replace (to - from) with ((mid - from) + (to - mid)) by lia. by rewrite take_take_drop.
Qed.

Lemma slice_extend {A} (from to : nat) (l : list A) x :
  from <= to -> l !! to = Some x -> slice from (S to) l = slice from to l ++ [x].
Proof.
  intros H Hx. rewrite <- (slice_tile from to (S to)) by lia. f_equal. unfold slice.
  replace (S to - to) with 1 by lia. rewrite (drop_S l x to Hx). done.
Qed.

Lemma slice_rest {A} (from to : nat) (l : list A) : from <= to -> slice from to l ++ skipn to l = skipn from l.
Proof.
  intros H. unfold slice. replace (drop to l) with (drop (to - from) (drop from l))
    by (rewrite drop_drop; f_equal; lia). apply take_drop.
Qed.

Definition is_assertion (s : VerifiedMigrationApplyStep) : Prop :=
  match s with ApplyAssertion _ _ => True | _ => False end.

(** The shape of the steps an operation executes: a group is a run of assertions
    closed by one schema delta, a backfill is one backfill step. *)
Definition well_placed (steps : list VerifiedMigrationApplyStep) (o : Operation) : Prop :=
  match o with
  | OGroup g => exists assertions s d lowering,
      operation_steps steps o = assertions ++ [ApplySchemaDelta s lowering] /\
      as_schema_delta s = Some d /\ Forall is_assertion assertions /\ length assertions = assertion_count g
  | OBackfill _ => exists s, operation_steps steps o = [ApplyBackfill s]
  end.

Record laid_out (all : list VerifiedMigrationApplyStep) (first : nat) (l : list Operation) : Prop := {
  lo_sorted : StronglySorted before l;
  lo_from : Forall (fun o => first <= operation_position o) l;
  lo_shape : Forall (well_placed all) l;
  lo_tiles : concat (map (operation_steps all) l) = skipn first all }.

Lemma laid_out_nil all first : length all <= first -> laid_out all first [].
Proof. intros H. split; try constructor. cbn. by rewrite drop_ge. Qed.

Lemma laid_out_cons all first next o l :
  operation_position o = first -> first < next -> operation_steps all o = slice first next all ->
  well_placed all o -> laid_out all next l -> laid_out all first (o :: l).
Proof.
  intros Hp Hlt Hsl Hw [Hs Hf Hsh Ht]. split.
  - constructor; [done|]. eapply Forall_impl; [exact Hf|]. unfold before. cbn. lia.
  - constructor; [lia|]. eapply Forall_impl; [exact Hf|]. cbn. lia.
  - by constructor.
  - cbn. rewrite Ht, Hsl. apply slice_rest. lia.
Qed.

Section partition_theory.
Context (sha256 : str -> str) (assertion_bytes : MigrationAssertionPlan -> result Diagnostic str).

Lemma partition_from_layout all rest groups first idx gs :
  skipn idx all = rest -> first <= idx -> idx <= length all -> Forall is_assertion (slice first idx all) ->
  map ordinal groups = seq 0 (length groups) ->
  partition_from sha256 assertion_bytes all groups first idx rest = Ok gs ->
  exists l, laid_out all first l /\ gs = groups ++ groups_of l /\ backfill_positions idx rest = backfills_of l /\
    map ordinal gs = seq 0 (length gs).
Proof.
  revert groups first idx. induction rest as [|s rest IH]; intros groups first idx Hr Hle Hlen Ha Ho H.
  { cbn in H. destruct (Nat.eqb_spec first idx) as [->|]; [|done]. injection H as <-. exists [].
    rewrite app_nil_r. split_and!; try done. apply laid_out_nil.
    apply (f_equal length) in Hr. rewrite length_drop in Hr. cbn in Hr. lia. }
  assert (all !! idx = Some s) as Hs by (rewrite <- (Nat.add_0_r idx), <- lookup_drop, Hr; done).
  assert (skipn (S idx) all = rest) as Hr'
    by (rewrite <- Nat.add_1_r, <- drop_drop, Hr; done).
  apply lookup_lt_Some in Hs as Hlt.
  destruct s as [st v|st lw|st]; cbn [partition_from backfill_positions] in H |- *.
  - apply IH in H as (l & ? & ? & ? & ?); [by exists l|done|lia|lia| |done].
    rewrite (slice_extend _ _ _ _ Hle Hs). apply Forall_app. by repeat constructor.
  - apply bind_ok_iff in H as (d & Hd & H). apply bind_ok_iff in H as (u & _ & H).
    apply IH in H as (l & Hl & -> & Hb & Hn); [|done|lia|lia|by unfold slice; rewrite Nat.sub_diag|].
    2: { rewrite map_app, length_app, seq_app, Ho. done. }
    exists (OGroup (transaction_group (length groups) first idx) :: l).
    rewrite <- app_assoc in Hn |- *. split_and!; try done.
    apply laid_out_cons with (S idx); try done; [lia|].
    exists (slice first idx all), st, d, lw. unfold ok_or in Hd. destruct (as_schema_delta st) eqn:Es; [|done].
    injection Hd as ->. split_and!; [by apply slice_extend|done..|].
    unfold slice, assertion_count. rewrite length_take, length_drop. cbn. lia.
  - destruct (Nat.eqb_spec first idx) as [->|]; [|done].
    apply IH in H as (l & Hl & -> & Hb & Hn); [|done|lia|lia|by unfold slice; rewrite Nat.sub_diag|done].
    exists (OBackfill idx :: l). split_and!; [|done|by rewrite Hb|done].
    apply laid_out_cons with (S idx); try done; [lia|]. exists st. cbn.
    rewrite (slice_extend idx idx all _ ltac:(done) Hs). unfold slice. by rewrite Nat.sub_diag.
Qed.

(** C22. [partition_transaction_groups] lays the manifest out. The executor's
    order of groups and backfills executes every step of the manifest once and
    in manifest order, every group is a run of assertions closed by exactly one
    schema delta, every backfill stands alone between groups, and the group
    ordinals count from zero. *)
Theorem partition_executes_every_step steps groups :
  partition_transaction_groups sha256 assertion_bytes steps = Ok groups ->
  let operations := schedule groups (backfill_positions 0 steps) in
  concat (map (operation_steps steps) operations) = steps /\
  Forall (well_placed steps) operations /\ StronglySorted before operations /\
  map ordinal groups = seq 0 (length groups).
Proof.
  intros H. apply partition_from_layout in H as (l & [Hs _ Hsh Ht] & -> & Hb & Ho); try done; [|lia].
  cbn zeta. rewrite Hb. cbn [app]. rewrite schedule_merge by done. by rewrite Ht.
Qed.
End partition_theory.
End ApplyPlan.
