(* ===== verification/RollbackPlan.v ===== *)
(** * Verified rollback plans (schema-migration/src/rollback_plan.rs)

    The plan a rollback executes: for each manifest, last applied first, the
    lowered reverse programs of its schema steps, its reverse backfills, and the
    order of both. The reverse delta of a step is always read back from the
    manifest. *)

From S2P Require Import Prelude BTree Text Ident Fingerprint Schema Components SchemaDelta Safety Limits Assertion Migration Manifest ApplyPlan.
Import Ident Fingerprint Schema Components SchemaDelta Safety Assertion Migration Manifest ApplyPlan.

Module RollbackPlan.

Record VerifiedMigrationRollbackStep : Set := rollback_step {
  forward_step_id : MigrationStepId; rollback_lowering : SchemaLoweringPlan }.

Inductive VerifiedMigrationRollbackOperation : Set :=
| RollbackSchemaDelta (index : nat)
| RollbackBackfill (index : nat).

Record VerifiedMigrationRollbackBackfillStep : Set := rollback_backfill_step { forward_step : MigrationStep }.

Record VerifiedMigrationRollbackManifest : Set := rollback_manifest {
  rollback_digest : FingerprintDigest;
  rolled_manifest : VerifiedSchemaMigrationManifest;
  rollback_safety : SafetyClass;
  rollback_steps : list VerifiedMigrationRollbackStep;
  rollback_backfills : list VerifiedMigrationRollbackBackfillStep;
  rollback_operations : list VerifiedMigrationRollbackOperation }.

(** The reverse program of the forward step a rollback step names. *)
Definition reverse_delta (r : VerifiedMigrationRollbackManifest) (s : VerifiedMigrationRollbackStep)
    : result Diagnostic SchemaDelta :=
  ok_or (find (fun c => bool_decide (dc_id (step_contract c) = forward_step_id s))
           (omap as_schema_delta (manifest_steps (rolled_manifest r))) ≫= fun c => dc_reverse (step_contract c))
    (stable Integrity "migration_rollback_missing_reverse_step").

Record VerifiedMigrationRollbackPlan : Set := rollback_plan {
  rollbacks : list VerifiedMigrationRollbackManifest;
  remaining_applied : list MigrationId;
  rollback_source : ManagedSchemaState;
  rollback_target_schema : DeclaredSchema;
  rollback_target : ManagedSchemaState;
  rollback_authorized : bool }.

(** The identities rolled back and those that survive, in canonical order. *)
Definition applied_basis (plan : VerifiedMigrationRollbackPlan) : BTreeSet MigrationId :=
  sof (map (fun r => manifest_id (rolled_manifest r)) (rollbacks plan) ++ remaining_applied plan).

End RollbackPlan.
