(* ===== verification/Execution.v ===== *)
(** * The migration journal (schema-migration/src/execution.rs)

    Fences and leases, the recovery decisions for transaction groups and
    backfills, and the identity-only journal records: plans, group events,
    backfill events, applied and retired migrations, with the checks that rebuild
    an open plan and the active ledger from stored entries. SHA-256 and the
    manifest encoding are parameters. A [usize] position is a [nat], the [u32]
    positions of records are integers in range, and fences, sequences and counts
    are [u64] integers. *)

From S2P Require Import Prelude BTree Text Ident Fingerprint Schema Components SchemaDelta Safety Limits Assertion Migration Manifest ApplyPlan.
From stdpp Require Import sorting.
From Stdlib Require Import Sorted.
Import Ident Fingerprint Schema Components SchemaDelta Safety Assertion Migration Manifest ApplyPlan.
#[local] Open Scope Z_scope.

Module Execution.

(** ** Limits, fences and leases *)

Definition MAX_MIGRATION_EXECUTION_GROUPS : Z := 65536.
Definition MAX_MIGRATION_BACKFILL_OBSERVATIONS : Z := 65536.

Record MigrationExecutionResourceLimits : Set := resource_limits {
  limit_transaction_groups : Z; limit_backfill_observations : Z }.

Definition tightened (transaction_groups backfill_observations : Z) : MigrationExecutionResourceLimits :=
  resource_limits
    (if transaction_groups <? MAX_MIGRATION_EXECUTION_GROUPS then transaction_groups
     else MAX_MIGRATION_EXECUTION_GROUPS)
    (if backfill_observations <? MAX_MIGRATION_BACKFILL_OBSERVATIONS then backfill_observations
     else MAX_MIGRATION_BACKFILL_OBSERVATIONS).

Definition ExecutionFence : Set := Z.

Definition ExecutionFence_new (value : Z) : result Diagnostic ExecutionFence :=
  if value =? 0 then Err (invalid "migration_execution_zero_fence") else Ok value.

Definition checked_successor (fence : ExecutionFence) : result Diagnostic ExecutionFence :=
  if u64_max <? fence + 1 then Err (stable ResourceLimit "migration_execution_fence_exhausted")
  else ExecutionFence_new (fence + 1).

Definition ExecutionScope : Set := str.

Definition LeaseHolderId_new (value : str) : result Diagnostic str :=
  if bool_decide (value = []) || (128 <? Z.of_nat (length value)) ||
     negb (forallb (fun b => is_ascii_alphanumeric b || oeqb b "."%char || oeqb b "_"%char || oeqb b "-"%char) value)
  then Err (invalid "migration_execution_invalid_holder")
  else Ok value.

(** A process-local binding token is compared by pointer: an abstract address. *)
Record MigrationLease : Set := lease {
  lease_scope : ExecutionScope; lease_holder : str; lease_fence : ExecutionFence; local_binding : option N }.

#[global] Instance MigrationLease_eq_dec : EqDecision MigrationLease.
Proof. solve_decision. Defined.

Definition MigrationLease_new (scope : ExecutionScope) (holder : str) (fence : ExecutionFence) : MigrationLease :=
  lease scope holder fence None.

(** ** Recovery decisions *)

Inductive GroupJournalEventKind : Set :=
| BeforeCommit | Committed | CommitOutcomeUnknown | EventDefinitelyAborted | FormalOnlyAdvanced.

#[global] Instance GroupJournalEventKind_eq_dec : EqDecision GroupJournalEventKind.
Proof. solve_decision. Defined.

Inductive GroupCommitCertainty : Set := DefinitelyAborted | Unknown.

#[global] Instance GroupCommitCertainty_eq_dec : EqDecision GroupCommitCertainty.
Proof. solve_decision. Defined.

Definition journal_event (c : GroupCommitCertainty) : GroupJournalEventKind :=
  match c with DefinitelyAborted => EventDefinitelyAborted | Unknown => CommitOutcomeUnknown end.

Inductive GroupRecoveryObservation : Set :=
| ObservationUnavailable
| ManagedSemantics (semantics : Fingerprint.Fingerprint).

Inductive GroupRecoveryDecision : Set := ExecuteNormally | RepairCheckpoint | RequiresExplicitRecovery.

#[global] Instance GroupRecoveryDecision_eq_dec : EqDecision GroupRecoveryDecision.
Proof. solve_decision. Defined.

Inductive ObservedRelation : Set := AtSource | AtTarget | AtBoth | AtNeither | AtUnavailable.

Definition decide_group_recovery (last_event : option GroupJournalEventKind)
    (observation : GroupRecoveryObservation) (source target : Fingerprint.Fingerprint) : GroupRecoveryDecision :=
  let distinct := negb (bool_decide (source = target)) in
  let observed :=
    match observation with
    | ObservationUnavailable => AtUnavailable
    | ManagedSemantics value =>
        if bool_decide (value = source) && bool_decide (value = target) then AtBoth
        else if bool_decide (value = source) then AtSource
        else if bool_decide (value = target) then AtTarget
        else AtNeither
    end in
  match last_event, distinct, observed with
  | None, true, AtSource | Some EventDefinitelyAborted, true, AtSource
  | None, false, AtBoth | Some EventDefinitelyAborted, false, AtBoth => ExecuteNormally
  | Some BeforeCommit, true, AtSource | Some CommitOutcomeUnknown, true, AtSource => ExecuteNormally
  | Some BeforeCommit, true, AtTarget | Some CommitOutcomeUnknown, true, AtTarget
  | Some Committed, true, AtTarget
  | Some Committed, false, AtBoth | Some FormalOnlyAdvanced, false, AtBoth => RepairCheckpoint
  | _, _, _ => RequiresExplicitRecovery
  end.

Inductive BackfillExecutionDirection : Set := Forward | Reverse.

#[global] Instance BackfillExecutionDirection_eq_dec : EqDecision BackfillExecutionDirection.
Proof. solve_decision. Defined.

Record BackfillExecutionCounts : Set := execution_counts {
  matched : Z; changed : Z; skipped : Z; count_transaction_groups : Z }.

Definition BackfillExecutionCounts_new (matched changed skipped transaction_groups : Z)
    : result Diagnostic BackfillExecutionCounts :=
  if transaction_groups =? 0 then Err (invalid "migration_backfill_zero_transaction_groups")
  else if (u64_max <? changed + skipped) || negb (changed + skipped =? matched)
  then Err (invalid "migration_backfill_count_mismatch")
  else Ok (execution_counts matched changed skipped transaction_groups).

Record BackfillCompletionEvidence : Set := completion_evidence {
  completion_plan : Fingerprint.Fingerprint;
  completion_direction : BackfillExecutionDirection;
  completion_counts : BackfillExecutionCounts }.

#[global] Instance BackfillCompletionEvidence_eq_dec : EqDecision BackfillCompletionEvidence.
Proof. assert (EqDecision BackfillExecutionCounts) by solve_decision. solve_decision. Defined.

Inductive BackfillRecoveryObservation : Set :=
| BackfillUnavailable
| Incomplete
| Complete (evidence : BackfillCompletionEvidence).

Definition decide_backfill_recovery (last_event : option GroupJournalEventKind)
    (observation : BackfillRecoveryObservation) (expected_plan : Fingerprint.Fingerprint)
    (expected_direction : BackfillExecutionDirection) : GroupRecoveryDecision :=
  let complete :=
    match observation with
    | Complete evidence =>
        bool_decide (completion_plan evidence = expected_plan) &&
        bool_decide (completion_direction evidence = expected_direction)
    | _ => false
    end in
  match last_event, observation with
  | None, Incomplete | None, Complete _ => ExecuteNormally
  | Some EventDefinitelyAborted, Incomplete => ExecuteNormally
  | Some BeforeCommit, _ | Some CommitOutcomeUnknown, _ | Some Committed, _ =>
      if complete then RepairCheckpoint else RequiresExplicitRecovery
  | _, _ => RequiresExplicitRecovery
  end.

(** ** Journal entries *)

Definition JournalSequence : Set := Z.

Definition JournalSequence_new (value : Z) : result Diagnostic JournalSequence :=
  if value =? 0 then Err (invalid "migration_execution_zero_sequence") else Ok value.

Record JournalEntry (T : Set) : Set := journal_entry { entry_sequence : JournalSequence; entry_record : T }.
Arguments journal_entry {T} _ _.
Arguments entry_sequence {T} _.
Arguments entry_record {T} _.

(** [position]: a [usize] that fits the [u32] of a record. *)
Definition position (value : nat) : result Diagnostic Z :=
  if Z.of_nat value <=? u32_max then Ok (Z.of_nat value)
  else Err (stable ResourceLimit "migration_execution_position_limit").

(** [Iterator::position]. *)
Fixpoint find_position {A} (p : A -> bool) (l : list A) : option nat :=
  match l with
  | [] => None
  | x :: l => if p x then Some O else S <$> find_position p l
  end.

Record PlanRecord : Set := plan_record {
  plan_scope : ExecutionScope;
  plan_fence : ExecutionFence;
  source_applied : list MigrationId;
  source_frontier : list MigrationId;
  record_target_frontier : list MigrationId;
  migration_ids : list MigrationId;
  manifest_digests : list FingerprintDigest;
  manifest_plan_fingerprints : list Fingerprint.Fingerprint;
  source_declared : Fingerprint.Fingerprint;
  target_declared : Fingerprint.Fingerprint;
  source_semantics : Fingerprint.Fingerprint;
  target_semantics : Fingerprint.Fingerprint;
  record_semantic_profile : Fingerprint.Fingerprint;
  record_lowering_profile : Fingerprint.Fingerprint;
  observed_live_source : Fingerprint.Fingerprint }.

(** The loop of [PlanRecord::from_verified_plan]: the profile in force changes
    only at a bridge that leaves exactly it. *)
Fixpoint check_profiles (scope : ExecutionScope) (current : Fingerprint.Fingerprint * Fingerprint.Fingerprint)
    (ms : list VerifiedMigrationApplyManifest) : result Diagnostic () :=
  match ms with
  | [] => Ok tt
  | m :: ms =>
      let own := (semantic_fingerprint (manifest_profile (manifest m)),
                  lowering_fingerprint (lowering_profile (manifest m))) in
      let current :=
        match profile_bridge (manifest m) with
        | Some bridge =>
            if bool_decide (semantic_fingerprint (from_semantic_profile bridge) = current.1) &&
               bool_decide (lowering_fingerprint (from_lowering_profile bridge) = current.2)
            then own else current
        | None => current
        end in
      if negb (bool_decide (scope_id (managed_scope (manifest m)) = scope)) || negb (bool_decide (own = current))
      then Err (stable Integrity "migration_execution_plan_binding_mismatch")
      else check_profiles scope current ms
  end.

Definition PlanRecord_from_verified_plan (l : MigrationLease) (plan : VerifiedMigrationApplyPlan)
    (observed_applied_migrations : list MigrationId) (observed_live_source : ManagedSchemaState)
    : result Diagnostic PlanRecord :=
  let? source := ok_or (source_state plan) (invalid "migration_execution_empty_plan") in
  let? target := ok_or (target_state plan) (invalid "migration_execution_empty_plan") in
  let? first := ok_or (head (migrations plan)) (invalid "migration_execution_empty_plan") in
  if negb (bool_decide (observed_applied_migrations = applied_migrations plan))
  then Err (stable Integrity "migration_execution_stale_applied_set")
  else if negb (bool_decide (observed_live_source = source))
  then Err (stable Integrity "migration_execution_stale_source_state")
  else
    let plan_scope := scope_id (scope source) in
    if negb (bool_decide (lease_scope l = plan_scope)) || negb (bool_decide (scope target = scope source))
    then Err (stable Integrity "migration_execution_scope_mismatch")
    else
      let semantic_profile := semantic_fingerprint (manifest_profile (manifest first)) in
      let lowering_profile := lowering_fingerprint (lowering_profile (manifest first)) in
      let? _ := check_profiles plan_scope (semantic_profile, lowering_profile) (migrations plan) in
      Ok (plan_record plan_scope (lease_fence l) (applied_migrations plan) (applied_frontier plan)
            (target_frontier plan)
            (map (fun m => manifest_id (manifest m)) (migrations plan))
            (map manifest_digest (migrations plan))
            (map (fun m => plan_fingerprint (manifest m)) (migrations plan))
            (managed_declared_identity source) (managed_declared_identity target)
            (managed_semantic_schema source) (managed_semantic_schema target)
            semantic_profile lowering_profile (managed_semantic_schema observed_live_source)).

(** ** Group events *)

Record GroupEventRecord : Set := group_event {
  ge_scope : ExecutionScope;
  ge_fence : ExecutionFence;
  ge_digest : FingerprintDigest;
  ge_migration : MigrationId;
  ge_ordinal : Z;
  ge_first_step : Z;
  ge_delta_step : Z;
  ge_end_step : Z;
  ge_kind : GroupJournalEventKind;
  ge_observed_target : option Fingerprint.Fingerprint }.

#[global] Instance GroupEventRecord_eq_dec : EqDecision GroupEventRecord.
Proof. solve_decision. Defined.

(** The evidence a group event of one kind must carry. *)
Definition check_group_kind (g : VerifiedMigrationTransactionGroup) (delta : SchemaDelta)
    (lowering : SchemaLoweringPlan) (kind : GroupJournalEventKind)
    (observed_target : option Fingerprint.Fingerprint) : result Diagnostic () :=
  match kind with
  | Committed =>
      if bool_decide (observed_target = Some (managed_semantic_schema (delta_target delta))) then Ok tt
      else Err (stable Integrity "migration_execution_commit_evidence_mismatch")
  | FormalOnlyAdvanced =>
      if bool_decide (observed_target = None) && (assertion_count g =? 0)%nat &&
         bool_decide (units lowering = []) &&
         bool_decide (managed_semantic_schema (delta_source delta) = managed_semantic_schema (delta_target delta))
      then Ok tt
      else Err (invalid "migration_execution_invalid_formal_advance")
  | _ =>
      if bool_decide (observed_target = None) then Ok tt
      else Err (invalid "migration_execution_unexpected_observation")
  end.

Definition GroupEventRecord_new (l : MigrationLease) (m : VerifiedMigrationApplyManifest)
    (g : VerifiedMigrationTransactionGroup) (kind : GroupJournalEventKind)
    (observed_target : option Fingerprint.Fingerprint) : result Diagnostic GroupEventRecord :=
  if negb (bool_decide (transaction_groups m !! ordinal g = Some g))
  then Err (stable Integrity "migration_execution_foreign_group") else
  let? s := ok_or (steps m !! schema_delta_step_index g)
              (stable Integrity "migration_execution_group_position_mismatch") in
  let? schema_step := ok_or (as_schema_delta (step s))
              (stable Integrity "migration_execution_group_position_mismatch") in
  let? low := ok_or (lowering s) (stable Integrity "migration_execution_group_lowering_missing") in
  let scope := scope_id (managed_scope (manifest m)) in
  if negb (bool_decide (lease_scope l = scope))
  then Err (stable Integrity "migration_execution_scope_mismatch") else
  let? _ := check_group_kind g (step_delta schema_step) low kind observed_target in
  let? group_ordinal := position (ordinal g) in
  let? first_step := position (first_step_index g) in
  let? delta_position := position (schema_delta_step_index g) in
  let? end_step := position (end_step_index g) in
  Ok (group_event scope (lease_fence l) (manifest_digest m) (manifest_id (manifest m))
        group_ordinal first_step delta_position end_step kind observed_target).

(** ** Backfill events *)

Record BackfillEventRecord : Set := backfill_event {
  be_scope : ExecutionScope;
  be_fence : ExecutionFence;
  be_digest : FingerprintDigest;
  be_migration : MigrationId;
  be_operation_ordinal : Z;
  be_manifest_step : Z;
  be_plan : Fingerprint.Fingerprint;
  be_direction : BackfillExecutionDirection;
  be_kind : GroupJournalEventKind;
  be_completion : option BackfillCompletionEvidence }.

#[global] Instance BackfillEventRecord_eq_dec : EqDecision BackfillEventRecord.
Proof. solve_decision. Defined.

Definition new_checked (l : MigrationLease) (digest : FingerprintDigest) (id : MigrationId)
    (operation_ordinal manifest_step_index : nat) (plan : Fingerprint.Fingerprint)
    (direction : BackfillExecutionDirection) (kind : GroupJournalEventKind)
    (completion : option BackfillCompletionEvidence) : result Diagnostic BackfillEventRecord :=
  let? _ :=
    match kind with
    | Committed =>
        match completion with
        | Some evidence =>
            if bool_decide (completion_plan evidence = plan) &&
               bool_decide (completion_direction evidence = direction) then Ok tt
            else Err (stable Integrity "migration_execution_backfill_completion_mismatch")
        | None => Err (stable Integrity "migration_execution_backfill_completion_mismatch")
        end
    | FormalOnlyAdvanced => Err (invalid "migration_execution_backfill_formal_advance")
    | _ =>
        if bool_decide (completion = None) then Ok tt
        else Err (invalid "migration_execution_unexpected_backfill_completion")
    end in
  let? operation_ordinal := position operation_ordinal in
  let? manifest_step := position manifest_step_index in
  Ok (backfill_event (lease_scope l) (lease_fence l) digest id operation_ordinal manifest_step plan direction
        kind completion).

Definition new_apply (l : MigrationLease) (m : VerifiedMigrationApplyManifest) (step_index : nat)
    (kind : GroupJournalEventKind) (completion : option BackfillCompletionEvidence)
    : result Diagnostic BackfillEventRecord :=
  if negb (bool_decide (lease_scope l = scope_id (managed_scope (manifest m))))
  then Err (stable Integrity "migration_execution_scope_mismatch") else
  if negb (bool_decide (step_index ∈ backfill_step_indices m))
  then Err (stable Integrity "migration_execution_backfill_step_position") else
  let? s := ok_or (steps m !! step_index) (stable Integrity "migration_execution_backfill_step_position") in
  let? backfill := ok_or (as_backfill (step s)) (stable Integrity "migration_execution_backfill_step_position") in
  new_checked l (manifest_digest m) (manifest_id (manifest m)) step_index step_index
    (bc_plan_fingerprint backfill.1) Forward kind completion.

(** ** The ledger *)

Record AppliedRecord : Set := applied_record {
  ar_scope : ExecutionScope;
  ar_fence : ExecutionFence;
  ar_migration : MigrationId;
  ar_digest : FingerprintDigest;
  ar_source_declared : Fingerprint.Fingerprint;
  ar_target_declared : Fingerprint.Fingerprint;
  ar_source_semantics : Fingerprint.Fingerprint;
  ar_target_semantics : Fingerprint.Fingerprint }.

#[global] Instance AppliedRecord_eq_dec : EqDecision AppliedRecord.
Proof. solve_decision. Defined.

(** A retirement has the fields of the applied record it retires, endpoints swapped. *)
Record RolledBackRecord : Set := rolled_back_record { retirement : AppliedRecord }.

#[global] Instance RolledBackRecord_eq_dec : EqDecision RolledBackRecord.
Proof. solve_decision. Defined.

Section records.
Context (sha256 : str -> str).
Context (encode : VerifiedSchemaMigrationManifest -> result Diagnostic str).

Definition record_of (l : MigrationLease) (m : VerifiedSchemaMigrationManifest) (source target : ManagedSchemaState)
    : option (result Diagnostic AppliedRecord) :=
  let record_scope := scope_id (scope source) in
  if negb (bool_decide (lease_scope l = record_scope)) || negb (bool_decide (scope target = scope source))
  then Some (Err (stable Integrity "migration_execution_scope_mismatch"))
  else
    match verified_manifest_digest sha256 encode m with
    | None => None
    | Some (Err e) => Some (Err e)
    | Some (Ok digest) =>
        Some (Ok (applied_record record_scope (lease_fence l) (manifest_id m) digest
                    (managed_declared_identity source) (managed_declared_identity target)
                    (managed_semantic_schema source) (managed_semantic_schema target)))
    end.

Definition AppliedRecord_from_verified_manifest (l : MigrationLease) (m : VerifiedSchemaMigrationManifest)
    : option (result Diagnostic AppliedRecord) := record_of l m (manifest_source m) (manifest_target m).

Definition RolledBackRecord_from_verified_manifest (l : MigrationLease) (m : VerifiedSchemaMigrationManifest)
    : option (result Diagnostic RolledBackRecord) :=
  match record_of l m (manifest_target m) (manifest_source m) with
  | None => None
  | Some (Err e) => Some (Err e)
  | Some (Ok r) => Some (Ok (rolled_back_record r))
  end.
End records.

(** ** Rebuilding stored plans *)

Record OpenPlanRecord : Set := open_plan {
  open_entry : JournalEntry PlanRecord;
  open_events : list (JournalEntry GroupEventRecord);
  open_backfill_events : list (JournalEntry BackfillEventRecord) }.

(** What the order check of [from_store_with_backfills] reads of an event. *)
Record StoredEvent : Set := stored_event {
  se_sequence : JournalSequence; se_fence : ExecutionFence; se_migration : MigrationId; se_digest : FingerprintDigest }.

Definition stored_group (e : JournalEntry GroupEventRecord) : StoredEvent :=
  stored_event (entry_sequence e) (ge_fence (entry_record e)) (ge_migration (entry_record e)) (ge_digest (entry_record e)).

Definition stored_backfill (e : JournalEntry BackfillEventRecord) : StoredEvent :=
  stored_event (entry_sequence e) (be_fence (entry_record e)) (be_migration (entry_record e)) (be_digest (entry_record e)).

(** The event's digest is the digest the plan records for its migration. *)
Definition bound_to (digests : list FingerprintDigest) (ids : list MigrationId) (e : StoredEvent) : bool :=
  match find_position (fun d => bool_decide (d = se_digest e)) digests with
  | Some index => bool_decide (ids !! index = Some (se_migration e))
  | None => false
  end.

Fixpoint check_order (digests : list FingerprintDigest) (ids : list MigrationId) (previous : JournalSequence)
    (previous_fence : ExecutionFence) (ordered : list StoredEvent) : result Diagnostic () :=
  match ordered with
  | [] => Ok tt
  | e :: ordered =>
      if (se_sequence e <=? previous) || (se_fence e <? previous_fence) || negb (bound_to digests ids e)
      then Err (stable Integrity "migration_execution_invalid_open_plan")
      else check_order digests ids (se_sequence e) (se_fence e) ordered
  end.

(** An event of another scope than its plan. *)
Definition foreign_scope {R : Set} (scope_of : R -> ExecutionScope) (scope : ExecutionScope)
    (es : list (JournalEntry R)) : bool :=
  existsb (fun e => negb (bool_decide (scope_of (entry_record e) = scope))) es.

Definition from_store_with_backfills (plan : JournalEntry PlanRecord)
    (events : list (JournalEntry GroupEventRecord)) (backfill_events : list (JournalEntry BackfillEventRecord))
    : result Diagnostic OpenPlanRecord :=
  let record := entry_record plan in
  let ordered := @vec_sort StoredEvent (ord_by se_sequence)
                   (map stored_group events ++ map stored_backfill backfill_events) in
  let? _ := check_order (manifest_digests record) (migration_ids record) (entry_sequence plan) (plan_fence record) ordered in
  if foreign_scope ge_scope (plan_scope record) events || foreign_scope be_scope (plan_scope record) backfill_events
  then Err (stable Integrity "migration_execution_invalid_open_plan")
  else Ok (open_plan plan events backfill_events).

(** ** The active ledger *)

(** [max_by_key] over the entries not yet retired that a retirement can consume;
    of equal keys the last wins. *)
Fixpoint latest (r : JournalEntry RolledBackRecord) (index : nat) (applied : list (JournalEntry AppliedRecord))
    (retired : list bool) (best : option (nat * JournalSequence)) : option nat :=
  match applied, retired with
  | entry :: applied, gone :: retired =>
      let candidate :=
        negb gone && (entry_sequence entry <? entry_sequence r) &&
        bool_decide (ar_migration (entry_record entry) = ar_migration (retirement (entry_record r))) &&
        bool_decide (ar_digest (entry_record entry) = ar_digest (retirement (entry_record r))) in
      let better := match best with Some (_, key) => key <=? entry_sequence entry | None => true end in
      latest r (S index) applied retired
        (if candidate && better then Some (index, entry_sequence entry) else best)
  | _, _ => fst <$> best
  end.

Fixpoint retire_all (applied : list (JournalEntry AppliedRecord)) (retired : list bool)
    (rolled_back : list (JournalEntry RolledBackRecord)) : result Diagnostic (list bool) :=
  match rolled_back with
  | [] => Ok retired
  | r :: rolled_back =>
      match latest r 0 applied retired None with
      | None => Err (stable Integrity "migration_execution_unmatched_retirement")
      | Some index => retire_all applied (<[index := true]> retired) rolled_back
      end
  end.

Definition keep (applied : list (JournalEntry AppliedRecord)) (retired : list bool)
    : list (JournalEntry AppliedRecord) :=
  omap (fun '(entry, gone) => if gone : bool then None else Some entry) (zip applied retired).

Definition active_applied_entries (applied : list (JournalEntry AppliedRecord))
    (rolled_back : list (JournalEntry RolledBackRecord))
    : result Diagnostic (list (JournalEntry AppliedRecord)) :=
  let? retired := retire_all applied (replicate (length applied) false) rolled_back in
  Ok (keep applied retired).

(** ** Recovery theory *)

(** An attempt whose outcome the journal does not settle. *)
Definition in_doubt (k : GroupJournalEventKind) : Prop := k = BeforeCommit \/ k = CommitOutcomeUnknown.

(** The journal proves that no attempt committed. *)
Definition proven_absent (last : option GroupJournalEventKind) : Prop :=
  last = None \/ last = Some EventDefinitelyAborted.

Lemma decide_group_execute last o source target :
  decide_group_recovery last o source target = ExecuteNormally <->
  o = ManagedSemantics source /\
  (proven_absent last \/ source <> target /\ exists k, last = Some k /\ in_doubt k).
Proof.
  unfold decide_group_recovery, proven_absent, in_doubt. destruct o as [|v].
  { split; [destruct last as [[]|], (negb _); done|by intros [? _]]. }
  destruct (decide (source = target)) as [->|Hn].
  - rewrite (bool_decide_eq_true_2 (target = target)) by done.
    destruct (decide (v = target)) as [->|Hv];
      [rewrite bool_decide_eq_true_2 by done|rewrite bool_decide_eq_false_2 by done];
      destruct last as [[]|]; cbn; naive_solver.
  - rewrite (bool_decide_eq_false_2 (source = target)) by done.
    destruct (decide (v = source)) as [->|Hv].
    + rewrite (bool_decide_eq_true_2 (source = source)), (bool_decide_eq_false_2 (source = target)) by done.
      destruct last as [[]|]; cbn; naive_solver.
    + rewrite (bool_decide_eq_false_2 (v = source)) by done.
      destruct (bool_decide (v = target)); destruct last as [[]|]; cbn; naive_solver.
Qed.

Lemma decide_group_repair last o source target :
  decide_group_recovery last o source target = RepairCheckpoint <->
  o = ManagedSemantics target /\
  exists k, last = Some k /\
    (source <> target /\ in_doubt k \/ k = Committed \/ source = target /\ k = FormalOnlyAdvanced).
Proof.
  unfold decide_group_recovery, in_doubt. destruct o as [|v].
  { split; [destruct last as [[]|], (negb _); done|by intros [? _]]. }
  destruct (decide (source = target)) as [->|Hn].
  - rewrite (bool_decide_eq_true_2 (target = target)) by done.
    destruct (decide (v = target)) as [->|Hv];
      [rewrite bool_decide_eq_true_2 by done|rewrite bool_decide_eq_false_2 by done];
      destruct last as [[]|]; cbn; naive_solver.
  - rewrite (bool_decide_eq_false_2 (source = target)) by done.
    destruct (decide (v = target)) as [->|Hv].
    + rewrite (bool_decide_eq_true_2 (target = target)), (bool_decide_eq_false_2 (target = source)) by done.
      destruct last as [[]|]; cbn; naive_solver.
    + rewrite (bool_decide_eq_false_2 (v = target)) by done. rewrite andb_false_r.
      destruct (bool_decide (v = source)); destruct last as [[]|]; cbn; naive_solver.
Qed.

Lemma decide_backfill_execute last o plan direction :
  decide_backfill_recovery last o plan direction = ExecuteNormally <->
  last = None /\ o <> BackfillUnavailable \/ last = Some EventDefinitelyAborted /\ o = Incomplete.
Proof.
  unfold decide_backfill_recovery. destruct o as [| |e], last as [[]|]; cbn;
    try (destruct (_ && _)); naive_solver.
Qed.

Lemma decide_backfill_repair last o plan direction :
  decide_backfill_recovery last o plan direction = RepairCheckpoint <->
  exists k e, last = Some k /\ (in_doubt k \/ k = Committed) /\ o = Complete e /\
    completion_plan e = plan /\ completion_direction e = direction.
Proof.
  unfold decide_backfill_recovery, in_doubt. destruct o as [| |e], last as [[]|]; cbn;
    try (repeat case_bool_decide; cbn); naive_solver.
Qed.

(** C20. The recovery tables, exactly. A transaction group is executed again only
    when the live schema is observed at its source and the journal proves that
    no attempt committed, or, for an attempt left in doubt, when source and
    target differ so that the observation itself proves it; its checkpoint is
    repaired only when the live schema is observed at its target. A backfill left
    in doubt is never executed again: only complete evidence for the same program
    and direction repairs it. Everything else is left to the operator. *)
Theorem recovery_decisions_exact last group_observation source target backfill_observation plan direction :
  (decide_group_recovery last group_observation source target = ExecuteNormally <->
     group_observation = ManagedSemantics source /\
     (proven_absent last \/ source <> target /\ exists k, last = Some k /\ in_doubt k)) /\
  (decide_group_recovery last group_observation source target = RepairCheckpoint <->
     group_observation = ManagedSemantics target /\
     exists k, last = Some k /\
       (source <> target /\ in_doubt k \/ k = Committed \/ source = target /\ k = FormalOnlyAdvanced)) /\
  (decide_backfill_recovery last backfill_observation plan direction = ExecuteNormally <->
     last = None /\ backfill_observation <> BackfillUnavailable \/
     last = Some EventDefinitelyAborted /\ backfill_observation = Incomplete) /\
  (decide_backfill_recovery last backfill_observation plan direction = RepairCheckpoint <->
     exists k e, last = Some k /\ (in_doubt k \/ k = Committed) /\ backfill_observation = Complete e /\
       completion_plan e = plan /\ completion_direction e = direction).
Proof.
  split_and!; [apply decide_group_execute|apply decide_group_repair|apply decide_backfill_execute|
    apply decide_backfill_repair].
Qed.

(** ** Stored plans *)

(** What a plan entry of either direction fixes for its events. *)
Record PlanBinding : Set := plan_binding {
  pb_sequence : JournalSequence; pb_fence : ExecutionFence;
  pb_digests : list FingerprintDigest; pb_ids : list MigrationId }.

Definition binding_of (plan : JournalEntry PlanRecord) : PlanBinding :=
  plan_binding (entry_sequence plan) (plan_fence (entry_record plan))
    (manifest_digests (entry_record plan)) (migration_ids (entry_record plan)).

(** An event that can follow the plan entry. *)
Definition follows_plan (plan : PlanBinding) (e : StoredEvent) : Prop :=
  pb_sequence plan < se_sequence e /\ pb_fence plan <= se_fence e /\ bound_to (pb_digests plan) (pb_ids plan) e = true.

Definition in_order (e f : StoredEvent) : Prop := se_sequence e < se_sequence f /\ se_fence e <= se_fence f.

(** The events of a plan, independently of the order in which they are stored:
    bound to the plan, with distinct sequences, and with fences that never
    decrease along the sequence. *)
Record consistent (plan : PlanBinding) (es : list StoredEvent) : Prop := {
  co_follows : Forall (follows_plan plan) es;
  co_distinct : NoDup (map se_sequence es);
  co_fences : forall e f, e ∈ es -> f ∈ es -> se_sequence e < se_sequence f -> se_fence e <= se_fence f }.

Lemma check_order_ok digests ids previous fence es u :
  check_order digests ids previous fence es = Ok u <->
  StronglySorted in_order es /\ Forall (follows_plan (plan_binding previous fence digests ids)) es.
Proof.
  destruct u. revert previous fence. induction es as [|e es IH]; intros previous fence; cbn [check_order].
  { split; [|done]. intros _. by repeat constructor. }
  destruct (Z.leb_spec (se_sequence e) previous), (Z.ltb_spec (se_fence e) fence), (bound_to digests ids e) eqn:Eb;
    cbn [orb negb]; try (split; [done|intros [_ H']; apply Forall_cons in H' as [(? & ? & ?) _]; cbn in *; lia || congruence]).
  rewrite IH. split.
  - intros [Hs Hf]. split.
    + constructor; [done|]. eapply Forall_impl; [exact Hf|]. unfold in_order, follows_plan. naive_solver.
    + constructor; [done|]. eapply Forall_impl; [exact Hf|]. unfold follows_plan. cbn. intros ? (? & ? & ?).
      split_and!; [lia|lia|done].
  - intros [Hs Hf]. apply StronglySorted_inv in Hs as [Hs Hi]. apply Forall_cons in Hf as [_ Hf].
    split; [done|]. rewrite Forall_forall in Hi, Hf |- *. intros f Hin. unfold in_order in Hi.
    specialize (Hi f Hin). specialize (Hf f Hin). unfold follows_plan in *. naive_solver.
Qed.

Lemma in_order_consistent plan es :
  StronglySorted in_order es /\ Forall (follows_plan plan) es -> consistent plan es.
Proof.
  intros [Hs Hf]. split; [done| |].
  - induction Hs as [|e es Hs IH Hi]; [constructor|]. apply Forall_cons in Hf as [_ Hf]. cbn. constructor; [|by apply IH].
    rewrite list_elem_of_In, in_map_iff. intros (f & Hk & Hin). rewrite Forall_forall in Hi.
    rewrite <- list_elem_of_In in Hin. destruct (Hi f Hin). lia.
  - clear Hf. induction Hs as [|e es Hs IH Hi]; [set_solver|]. rewrite Forall_forall in Hi. intros x y Hx Hy Hlt.
    apply elem_of_cons in Hx as [->|Hx]; apply elem_of_cons in Hy as [->|Hy].
    + lia.
    + by apply Hi.
    + apply Hi in Hx. destruct Hx. lia.
    + by apply IH.
Qed.

Lemma consistent_in_order plan es :
  consistent plan es -> StronglySorted in_order (@vec_sort StoredEvent (ord_by se_sequence) es).
Proof.
  intros [_ Hd Hf]. apply vec_sort_sorted in Hd. rewrite <- vec_sort_by_keys in Hd.
  assert (forall e f, e ∈ @vec_sort StoredEvent (ord_by se_sequence) es ->
    f ∈ @vec_sort StoredEvent (ord_by se_sequence) es -> se_sequence e < se_sequence f -> se_fence e <= se_fence f) as H.
  { intros e f. rewrite vec_sort_perm. apply Hf. }
  revert Hd H. generalize (@vec_sort StoredEvent (ord_by se_sequence) es). clear.
  induction l as [|e l IH]; intros Hd H; [constructor|]. cbn in Hd. apply StronglySorted_inv in Hd as [Hd Hl].
  constructor; [apply IH; set_solver|]. rewrite Forall_forall. intros f Hf.
  rewrite Forall_map, Forall_forall in Hl. specialize (Hl f Hf). unfold olt, cmp, Ord_Z in Hl.
  apply Z.compare_lt_iff in Hl. split; [done|]. apply H; set_solver.
Qed.

(** The order check over the sorted events decides consistency. *)
Lemma check_order_consistent plan es :
  (exists u, check_order (pb_digests plan) (pb_ids plan) (pb_sequence plan) (pb_fence plan)
     (@vec_sort StoredEvent (ord_by se_sequence) es) = Ok u) <-> consistent plan es.
Proof.
  assert (plan = plan_binding (pb_sequence plan) (pb_fence plan) (pb_digests plan) (pb_ids plan)) as E by (by destruct plan).
  split.
  - intros [u H%check_order_ok]. rewrite <- E in H. apply in_order_consistent in H as [H1 H2 H3].
    rewrite vec_sort_perm in H1. split; [done| |].
    + by rewrite <- (Permutation_map se_sequence (vec_sort_perm (o := ord_by se_sequence) es)).
    + intros e f He Hf. apply H3; by rewrite vec_sort_perm.
  - intros H. exists tt. apply check_order_ok. rewrite <- E. split; [by apply (consistent_in_order plan)|].
    destruct H as [H _ _]. by rewrite vec_sort_perm.
Qed.

Lemma foreign_scope_false {R : Set} (p : R -> ExecutionScope) scope es :
  foreign_scope p scope es = false <-> Forall (fun e => p (entry_record e) = scope) es.
Proof.
  unfold foreign_scope. induction es as [|x l IH]; cbn; [done|]. rewrite Forall_cons, <- IH.
  case_bool_decide; cbn; naive_solver.
Qed.

Lemma stored_plan_rebuilt plan events backfills :
  consistent (binding_of plan) (map stored_group events ++ map stored_backfill backfills) ->
  Forall (fun e => ge_scope (entry_record e) = plan_scope (entry_record plan)) events ->
  Forall (fun e => be_scope (entry_record e) = plan_scope (entry_record plan)) backfills ->
  from_store_with_backfills plan events backfills = Ok (open_plan plan events backfills).
Proof.
  intros [u Hu]%check_order_consistent Hg%foreign_scope_false Hb%foreign_scope_false.
  unfold from_store_with_backfills. cbn in Hu. by rewrite Hu, Hg, Hb.
Qed.

(** An open plan is rebuilt from the store exactly when its events, in
    whatever order they were stored, are bound to the plan's manifests and scope,
    come after the plan entry, carry distinct sequences, and carry fences that
    never decrease along the sequence; the entries are then returned unchanged. *)
Theorem open_plan_rebuilt_iff plan events backfills o :
  from_store_with_backfills plan events backfills = Ok o <->
  consistent (binding_of plan) (map stored_group events ++ map stored_backfill backfills) /\
  Forall (fun e => ge_scope (entry_record e) = plan_scope (entry_record plan)) events /\
  Forall (fun e => be_scope (entry_record e) = plan_scope (entry_record plan)) backfills /\
  o = open_plan plan events backfills.
Proof.
  unfold from_store_with_backfills. rewrite <- !foreign_scope_false, bind_ok_iff, <- check_order_consistent. split.
  - intros (u & Hu & H). destruct (foreign_scope ge_scope _ events); [done|]. destruct (foreign_scope be_scope _ backfills); [done|].
    injection H as <-. split_and!; [by exists u|done..].
  - intros ([u Hu] & -> & -> & ->). by exists u.
Qed.

(** ** The active ledger as a replay

    The reference: one chronological log of applications and retirements, where a
    retirement removes the last active entry with its identity and digest. *)

Inductive LedgerEvent : Set :=
| LApplied (e : JournalEntry AppliedRecord)
| LRetired (r : JournalEntry RolledBackRecord).

Definition ledger_sequence (e : LedgerEvent) : JournalSequence :=
  match e with LApplied e => entry_sequence e | LRetired r => entry_sequence r end.

Definition applied_of (log : list LedgerEvent) : list (JournalEntry AppliedRecord) :=
  omap (fun e => match e with LApplied e => Some e | LRetired _ => None end) log.
Definition retired_of (log : list LedgerEvent) : list (JournalEntry RolledBackRecord) :=
  omap (fun e => match e with LRetired r => Some r | LApplied _ => None end) log.

Definition retires (r : JournalEntry RolledBackRecord) (e : JournalEntry AppliedRecord) : bool :=
  bool_decide (ar_migration (entry_record e) = ar_migration (retirement (entry_record r))) &&
  bool_decide (ar_digest (entry_record e) = ar_digest (retirement (entry_record r))).

Fixpoint remove_last (r : JournalEntry RolledBackRecord) (active : list (JournalEntry AppliedRecord))
    : option (list (JournalEntry AppliedRecord)) :=
  match active with
  | [] => None
  | e :: active =>
      match remove_last r active with
      | Some rest => Some (e :: rest)
      | None => if retires r e then Some active else None
      end
  end.

Fixpoint replay_ledger (active : list (JournalEntry AppliedRecord)) (log : list LedgerEvent)
    : result Diagnostic (list (JournalEntry AppliedRecord)) :=
  match log with
  | [] => Ok active
  | LApplied e :: log => replay_ledger (active ++ [e]) log
  | LRetired r :: log =>
      match remove_last r active with
      | Some active => replay_ledger active log
      | None => Err (stable Integrity "migration_execution_unmatched_retirement")
      end
  end.

Definition earlier (e f : JournalEntry AppliedRecord) : Prop := entry_sequence e < entry_sequence f.
Definition logged_before (e f : LedgerEvent) : Prop := ledger_sequence e < ledger_sequence f.

Lemma latest_late r index applied retired best :
  Forall (fun e => entry_sequence r <= entry_sequence e) applied ->
  latest r index applied retired best = fst <$> best.
Proof.
  revert index retired. induction applied as [|e applied IH]; intros index retired Hf; [done|].
  destruct retired as [|gone retired]; [done|]. apply Forall_cons in Hf as [He Hf]. cbn [latest].
  destruct (Z.ltb_spec (entry_sequence e) (entry_sequence r)); [lia|]. rewrite andb_false_r. cbn. by apply IH.
Qed.

Lemma latest_early r index a1 f1 a2 f2 (best : option (nat * JournalSequence)) :
  StronglySorted earlier a1 -> Forall (fun e => entry_sequence e < entry_sequence r) a1 -> length f1 = length a1 ->
  (forall i k, best = Some (i, k) -> Forall (fun e => k <= entry_sequence e) a1) ->
  (remove_last r (keep a1 f1) = None /\
   latest r index (a1 ++ a2) (f1 ++ f2) best = latest r (index + length a1) a2 f2 best) \/
  (exists i k, (i < length a1)%nat /\ remove_last r (keep a1 f1) = Some (keep a1 (<[i := true]> f1)) /\
   latest r index (a1 ++ a2) (f1 ++ f2) best = latest r (index + length a1) a2 f2 (Some ((index + i)%nat, k))).
Proof.
  intros Hs. revert index f1 best. induction Hs as [|e a1 Hs IH He]; intros index f1 best Hr Hl Hb.
  { left. destruct f1; [|done]. by rewrite Nat.add_0_r. }
  destruct f1 as [|gone f1]; [done|]. apply Forall_cons in Hr as [Hre Hr].
  cbn [app latest length]. destruct (Z.ltb_spec (entry_sequence e) (entry_sequence r)); [|lia].
  rewrite andb_true_r.
  assert (match best with Some (_, key) => key <=? entry_sequence e | None => true end = true) as ->.
  { destruct best as [[i k]|]; [|done]. specialize (Hb i k eq_refl). apply Forall_cons in Hb as [Hb _]. lia. }
  rewrite andb_true_r, <- (andb_assoc (negb gone)). fold (retires r e).
  set (best' := if negb gone && retires r e then Some (index, entry_sequence e) else best).
  assert (forall i k, best' = Some (i, k) -> Forall (fun e => k <= entry_sequence e) a1) as Hb'.
  { intros i k. subst best'. destruct (negb gone && retires r e).
    - intros [= _ <-]. eapply Forall_impl; [exact He|]. unfold earlier. cbn. lia.
    - intros Hk. apply Hb in Hk. by apply Forall_cons in Hk as [_ Hk]. }
  replace (index + S (length a1))%nat with (S index + length a1)%nat by lia.
  destruct (IH (S index) f1 best' Hr ltac:(cbn in Hl; lia) Hb') as [[Hn Hq]|(i & k & Hi & Hn & Hq)].
  - rewrite Hq.
    assert (forall b, keep (e :: a1) (b :: f1) = (if b then [] else [e]) ++ keep a1 f1) as Hk by (by intros []).
    subst best'. destruct gone; cbn [negb andb].
    { left. rewrite Hk. done. }
    destruct (retires r e) eqn:Er; rewrite Hk; cbn [app remove_last]; rewrite Hn, Er.
    + right. exists O, (entry_sequence e). rewrite Nat.add_0_r. split_and!; [lia|done|done].
    + left. done.
  - right. exists (S i), k. split; [lia|]. rewrite Hq.
    replace (S index + i)%nat with (index + S i)%nat by lia. split; [|done].
    assert (forall f, keep (e :: a1) (gone :: f) = (if gone then [] else [e]) ++ keep a1 f) as Hk by (by destruct gone).
    cbn [insert list_insert]. rewrite !Hk. destruct gone; cbn [app remove_last]; rewrite Hn; done.
Qed.

Lemma keep_snoc a f e : length f = length a -> keep (a ++ [e]) (f ++ [false]) = keep a f ++ [e].
Proof.
  intros H. unfold keep. rewrite zip_with_app by done. rewrite omap_app. done.
Qed.

Lemma applied_of_elem log e : e ∈ applied_of log -> LApplied e ∈ log.
Proof. intros H. by apply list_elem_of_omap in H as ([x|x] & Hx & [= ->]). Qed.

Lemma applied_of_sorted log : StronglySorted logged_before log -> StronglySorted earlier (applied_of log).
Proof.
  induction 1 as [|[e|r] log Hs IH Hf]; [constructor| |done].
  change (StronglySorted earlier (e :: applied_of log)). constructor; [done|].
  rewrite Forall_forall in Hf. rewrite Forall_forall. intros f Hin%applied_of_elem. by apply (Hf _ Hin).
Qed.

Lemma replay_ledger_from done_ rest f1 :
  StronglySorted logged_before (done_ ++ rest) -> length f1 = length (applied_of done_) ->
  (let? retired := retire_all (applied_of done_ ++ applied_of rest)
                     (f1 ++ replicate (length (applied_of rest)) false) (retired_of rest) in
   Ok (keep (applied_of done_ ++ applied_of rest) retired)) =
  replay_ledger (keep (applied_of done_) f1) rest.
Proof.
  revert done_ f1. induction rest as [|[e|r] rest IH]; intros done_ f1 Hs Hl.
  - cbn. by rewrite !app_nil_r.
  - change (applied_of (LApplied e :: rest)) with (e :: applied_of rest).
    change (retired_of (LApplied e :: rest)) with (retired_of rest). cbn [length replicate replay_ledger].
    specialize (IH (done_ ++ [LApplied e]) (f1 ++ [false])).
    assert (applied_of (done_ ++ [LApplied e]) = applied_of done_ ++ [e]) as Ha
      by (unfold applied_of; by rewrite omap_app).
    rewrite Ha, keep_snoc, <- !app_assoc in IH by done. cbn [app] in IH. apply IH; [done|].
    rewrite !length_app. cbn. lia.
  - change (applied_of (LRetired r :: rest)) with (applied_of rest).
    change (retired_of (LRetired r :: rest)) with (r :: retired_of rest). cbn [retire_all replay_ledger].
    assert (forall e, e ∈ applied_of rest -> entry_sequence r < entry_sequence e) as Hlate.
    { intros e He%applied_of_elem.
      apply StronglySorted_app in Hs as (_ & _ & Hs). apply StronglySorted_inv in Hs as [_ Hs].
      rewrite Forall_forall in Hs. by apply (Hs _ He). }
    assert (StronglySorted earlier (applied_of done_)) as Hsort
      by (apply applied_of_sorted; by apply StronglySorted_app in Hs as (_ & Hs & _)).
    assert (Forall (fun e => entry_sequence e < entry_sequence r) (applied_of done_)) as Hr.
    { rewrite Forall_forall. intros e H%applied_of_elem. apply StronglySorted_app in Hs as (Hs & _ & _).
      apply (Hs _ (LRetired r) H). apply list_elem_of_here. }
    destruct (latest_early r 0 (applied_of done_) f1 (applied_of rest) (replicate (length (applied_of rest)) false)
      None Hsort Hr Hl ltac:(done)) as [[Hn ->]|(i & k & Hi & Hn & ->)].
    + rewrite latest_late, Hn; [done|]. rewrite Forall_forall. intros e He. apply Hlate in He. lia.
    + rewrite latest_late, Hn; [|rewrite Forall_forall; intros e He; apply Hlate in He; lia]. cbn [fmap option_fmap option_map fst].
      rewrite insert_app_l by lia.
      specialize (IH (done_ ++ [LRetired r]) (<[i := true]> f1)).
      assert (applied_of (done_ ++ [LRetired r]) = applied_of done_) as Ha
        by (unfold applied_of; rewrite omap_app; apply app_nil_r).
      rewrite Ha, <- app_assoc in IH. apply IH; [done|]. by rewrite length_insert.
Qed.

(** C21. The stores' shared ledger rule is a replay of history: for a journal with
    increasing sequences, matching each retirement against the whole list of
    applied records gives the same active ledger, and the same refusals, as
    replaying applications and retirements in the order they were written. *)
Theorem active_ledger_is_replay log :
  StronglySorted logged_before log ->
  active_applied_entries (applied_of log) (retired_of log) = replay_ledger [] log.
Proof. intros H. exact (replay_ledger_from [] log [] H eq_refl). Qed.

End Execution.
