(* ===== verification/RollbackJournal.v ===== *)
(** * The rollback journal (schema-migration/src/execution.rs)

    The records of a rollback: the plan, the commit-boundary events of its schema
    steps and reverse backfills, and the reconstruction of an open rollback plan
    from stored entries. Retirement records are in Execution.v. *)

From S2P Require Import Prelude BTree Text Ident Fingerprint Schema Components SchemaDelta Safety Limits Assertion Migration Manifest ApplyPlan RollbackPlan Execution.
Import Ident Fingerprint Schema Components SchemaDelta Safety Assertion Migration Manifest ApplyPlan RollbackPlan Execution.
#[local] Open Scope Z_scope.

Module RollbackJournal.

(** ** Plans *)

Record RollbackPlanRecord : Set := rollback_plan_record {
  rp_scope : ExecutionScope;
  rp_fence : ExecutionFence;
  rp_source_applied : list MigrationId;
  rollback_ids : list MigrationId;
  rp_digests : list FingerprintDigest;
  rp_plan_fingerprints : list Fingerprint.Fingerprint;
  rp_remaining : list MigrationId;
  rp_source_declared : Fingerprint.Fingerprint;
  rp_target_declared : Fingerprint.Fingerprint;
  rp_source_semantics : Fingerprint.Fingerprint;
  rp_target_semantics : Fingerprint.Fingerprint;
  rp_semantic_profile : Fingerprint.Fingerprint;
  rp_lowering_profile : Fingerprint.Fingerprint;
  rp_observed_live_source : Fingerprint.Fingerprint }.

#[global] Instance RollbackPlanRecord_eq_dec : EqDecision RollbackPlanRecord.
Proof. solve_decision. Defined.

(** A manifest of the plan has its scope and profiles. *)
Definition shares_binding (scope : ExecutionScope) (semantic_profile lowering_fp : Fingerprint.Fingerprint)
    (r : VerifiedMigrationRollbackManifest) : bool :=
  bool_decide (scope_id (managed_scope (rolled_manifest r)) = scope) &&
  bool_decide (semantic_fingerprint (manifest_profile (rolled_manifest r)) = semantic_profile) &&
  bool_decide (lowering_fingerprint (lowering_profile (rolled_manifest r)) = lowering_fp).

Definition from_verified_rollback_plan (l : MigrationLease) (plan : VerifiedMigrationRollbackPlan)
    (observed_applied_migrations : list MigrationId) (observed_live : ManagedSchemaState)
    : result Diagnostic RollbackPlanRecord :=
  let source := rollback_source plan in
  let target := rollback_target plan in
  let? first := ok_or (head (rollbacks plan)) (invalid "migration_execution_empty_plan") in
  let basis := applied_basis plan in
  if negb (bool_decide (observed_applied_migrations = basis))
  then Err (stable Integrity "migration_execution_stale_applied_set")
  else if negb (bool_decide (observed_live = source))
  then Err (stable Integrity "migration_execution_stale_source_state")
  else
    let plan_scope := scope_id (scope source) in
    if negb (bool_decide (lease_scope l = plan_scope)) || negb (bool_decide (scope target = scope source))
    then Err (stable Integrity "migration_execution_scope_mismatch")
    else
      let semantic_profile := semantic_fingerprint (manifest_profile (rolled_manifest first)) in
      let lowering_fp := lowering_fingerprint (lowering_profile (rolled_manifest first)) in
      if existsb (fun r => negb (shares_binding plan_scope semantic_profile lowering_fp r)) (rollbacks plan)
      then Err (stable Integrity "migration_execution_plan_binding_mismatch")
      else
        Ok (rollback_plan_record plan_scope (lease_fence l) basis
              (map (fun r => manifest_id (rolled_manifest r)) (rollbacks plan))
              (map rollback_digest (rollbacks plan))
              (map (fun r => plan_fingerprint (rolled_manifest r)) (rollbacks plan))
              (remaining_applied plan)
              (managed_declared_identity source) (managed_declared_identity target)
              (managed_semantic_schema source) (managed_semantic_schema target)
              semantic_profile lowering_fp (managed_semantic_schema observed_live)).

(** ** Step events *)

Record RollbackStepEventRecord : Set := step_event {
  re_scope : ExecutionScope;
  re_fence : ExecutionFence;
  re_digest : FingerprintDigest;
  re_migration : MigrationId;
  re_ordinal : Z;
  re_kind : GroupJournalEventKind;
  re_observed_target : option Fingerprint.Fingerprint }.

#[global] Instance RollbackStepEventRecord_eq_dec : EqDecision RollbackStepEventRecord.
Proof. solve_decision. Defined.

(** The evidence a step event of one kind must carry. *)
Definition check_step_kind (s : VerifiedMigrationRollbackStep) (reverse : SchemaDelta)
    (kind : GroupJournalEventKind) (observed_target : option Fingerprint.Fingerprint) : result Diagnostic () :=
  match kind with
  | Committed =>
      if bool_decide (observed_target = Some (managed_semantic_schema (delta_target reverse))) then Ok tt
      else Err (stable Integrity "migration_execution_commit_evidence_mismatch")
  | FormalOnlyAdvanced =>
      if bool_decide (observed_target = None) && bool_decide (units (rollback_lowering s) = []) &&
         bool_decide (managed_semantic_schema (delta_source reverse) = managed_semantic_schema (delta_target reverse))
      then Ok tt
      else Err (invalid "migration_execution_invalid_formal_advance")
  | _ =>
      if bool_decide (observed_target = None) then Ok tt
      else Err (invalid "migration_execution_unexpected_observation")
  end.

Definition RollbackStepEventRecord_new (l : MigrationLease) (r : VerifiedMigrationRollbackManifest)
    (step_index : nat) (kind : GroupJournalEventKind) (observed_target : option Fingerprint.Fingerprint)
    : result Diagnostic RollbackStepEventRecord :=
  let? s := ok_or (rollback_steps r !! step_index) (stable Integrity "migration_execution_rollback_step_position") in
  let? reverse := reverse_delta r s in
  let scope := scope_id (managed_scope (rolled_manifest r)) in
  if negb (bool_decide (lease_scope l = scope))
  then Err (stable Integrity "migration_execution_scope_mismatch") else
  let? _ := check_step_kind s reverse kind observed_target in
  let? step_ordinal := position step_index in
  Ok (step_event scope (lease_fence l) (rollback_digest r) (manifest_id (rolled_manifest r)) step_ordinal
        kind observed_target).

(** ** Reverse backfill events *)

(** The forward step whose reverse program an operation runs. *)
Definition backfill_of (r : VerifiedMigrationRollbackManifest) (operation_index : nat)
    : result Diagnostic MigrationStep :=
  let position_error := stable Integrity "migration_execution_backfill_step_position" in
  let? backfill_index :=
    match rollback_operations r !! operation_index with
    | Some (RollbackBackfill index) => Ok index
    | _ => Err position_error
    end in
  let? backfill := ok_or (rollback_backfills r !! backfill_index) position_error in
  Ok (forward_step backfill).

Definition new_rollback (l : MigrationLease) (r : VerifiedMigrationRollbackManifest) (operation_index : nat)
    (kind : GroupJournalEventKind) (completion : option BackfillCompletionEvidence)
    : result Diagnostic BackfillEventRecord :=
  let position_error := stable Integrity "migration_execution_backfill_step_position" in
  if negb (bool_decide (lease_scope l = scope_id (managed_scope (rolled_manifest r))))
  then Err (stable Integrity "migration_execution_scope_mismatch") else
  let? s := backfill_of r operation_index in
  let? backfill := ok_or (as_backfill s) position_error in
  let? manifest_step_index :=
    ok_or (find_position (fun candidate => bool_decide (candidate = s)) (manifest_steps (rolled_manifest r)))
      position_error in
  new_checked l (rollback_digest r) (manifest_id (rolled_manifest r)) operation_index manifest_step_index
    (bc_plan_fingerprint backfill.1) Reverse kind completion.

(** ** Rebuilding stored plans *)

Record OpenRollbackPlanRecord : Set := open_rollback_plan {
  rollback_entry : JournalEntry RollbackPlanRecord;
  rollback_events : list (JournalEntry RollbackStepEventRecord);
  rollback_backfill_entries : list (JournalEntry BackfillEventRecord) }.

Definition stored_step (e : JournalEntry RollbackStepEventRecord) : StoredEvent :=
  stored_event (entry_sequence e) (re_fence (entry_record e)) (re_migration (entry_record e)) (re_digest (entry_record e)).

Definition rollback_from_store (plan : JournalEntry RollbackPlanRecord)
    (events : list (JournalEntry RollbackStepEventRecord)) (backfill_events : list (JournalEntry BackfillEventRecord))
    : result Diagnostic OpenRollbackPlanRecord :=
  let record := entry_record plan in
  let ordered := @vec_sort StoredEvent (ord_by se_sequence)
                   (map stored_step events ++ map stored_backfill backfill_events) in
  let? _ := check_order (rp_digests record) (rollback_ids record) (entry_sequence plan) (rp_fence record) ordered in
  if foreign_scope re_scope (rp_scope record) events || foreign_scope be_scope (rp_scope record) backfill_events
  then Err (stable Integrity "migration_execution_invalid_open_plan")
  else Ok (open_rollback_plan plan events backfill_events).

Definition rollback_binding (plan : JournalEntry RollbackPlanRecord) : PlanBinding :=
  plan_binding (entry_sequence plan) (rp_fence (entry_record plan))
    (rp_digests (entry_record plan)) (rollback_ids (entry_record plan)).

(** An open rollback plan is rebuilt exactly from consistent events of its scope. *)
Lemma rollback_rebuilt_iff plan events backfills o :
  rollback_from_store plan events backfills = Ok o <->
  consistent (rollback_binding plan) (map stored_step events ++ map stored_backfill backfills) /\
  Forall (fun e => re_scope (entry_record e) = rp_scope (entry_record plan)) events /\
  Forall (fun e => be_scope (entry_record e) = rp_scope (entry_record plan)) backfills /\
  o = open_rollback_plan plan events backfills.
Proof.
  unfold rollback_from_store. rewrite <- !foreign_scope_false, bind_ok_iff, <- check_order_consistent. split.
  - intros (u & Hu & H). destruct (foreign_scope re_scope _ events); [done|]. destruct (foreign_scope be_scope _ backfills); [done|].
    injection H as <-. split_and!; [by exists u|done..].
  - intros ([u Hu] & -> & -> & ->). by exists u.
Qed.

End RollbackJournal.
