(* ===== verification/Coordinator.v ===== *)
(** * The apply executor (schema-migration/src/coordinator.rs)

    The fenced execution of a verified apply plan, against any journal, lease
    store and provider. An asynchronous function is a program over the operations
    it awaits: [op] lists the methods of the traits [MigrationLeaseStore],
    [MigrationExecutionJournal], [MigrationExecutionProvider] and
    [PreparedMigrationGroup] with the type of their answers, and a program is a
    finite tree of operations and continuations. A panic is [Halt]. The rollback
    executor is in RollbackCoordinator.v. *)

From S2P Require Import Prelude BTree Text Ident Fingerprint Schema Components SchemaDelta Safety Limits Assertion Migration Manifest ApplyPlan RollbackPlan Execution RollbackJournal.
Import Ident Fingerprint Schema Components SchemaDelta Safety Assertion Migration Manifest ApplyPlan Execution RollbackJournal.
#[local] Open Scope Z_scope.

Module Coordinator.

(** ** Operations and programs *)

Record GroupCommitFailure : Set := commit_failure {
  certainty : GroupCommitCertainty; failure_diagnostic : Diagnostic }.

(** A provider transaction: what it was opened for and what ran in it. *)
Record PreparedGroup : Set := prepared_group {
  tx_source : ManagedSchemaState; tx_target : ManagedSchemaState; tx_units : list StatementUnit }.

(** Which future of a [select] finishes first. *)
Inductive Winner : Set := OperationFirst | CancellationFirst | DeadlineFirst.

Inductive op : Set :=
| Check
| Select (deadline : bool)
| Acquire (scope : ExecutionScope) (holder : str)
| Release (l : MigrationLease)
| LoadApplied (l : MigrationLease)
| LoadOpenPlan (l : MigrationLease)
| BeginPlan (l : MigrationLease) (record : PlanRecord)
| RecordGroupEvent (l : MigrationLease) (record : GroupEventRecord)
| RecordBackfillEvent (l : MigrationLease) (record : BackfillEventRecord)
| RecordApplied (l : MigrationLease) (record : AppliedRecord)
| LoadRolledBack (l : MigrationLease)
| LoadOpenRollbackPlan (l : MigrationLease)
| BeginRollbackPlan (l : MigrationLease) (record : RollbackPlanRecord)
| RecordRollbackStepEvent (l : MigrationLease) (record : RollbackStepEventRecord)
| RecordRolledBack (l : MigrationLease) (record : RolledBackRecord)
| ObserveManagedState (l : MigrationLease) (source target : ManagedSchemaState)
| PrepareGroup (l : MigrationLease) (source target : ManagedSchemaState)
| ExecuteAssertion (tx : PreparedGroup) (plan : ValidatedMigrationAssertionPlan)
| ExecuteStatementUnit (tx : PreparedGroup) (unit : StatementUnit)
| Commit (tx : PreparedGroup) (l : MigrationLease)
| Rollback (tx : PreparedGroup)
| ObserveBackfill (l : MigrationLease) (plan : AttributeBackfillPlan) (direction : BackfillExecutionDirection)
| ExecuteBackfill (l : MigrationLease) (plan : AttributeBackfillPlan) (direction : BackfillExecutionDirection).

Definition ans (o : op) : Set :=
  match o with
  | Check => result Diagnostic ()
  | Select _ => Winner
  | Acquire _ _ => result Diagnostic MigrationLease
  | Release _ => result Diagnostic ()
  | LoadApplied _ => result Diagnostic (list (JournalEntry AppliedRecord))
  | LoadOpenPlan _ => result Diagnostic (option OpenPlanRecord)
  | BeginPlan _ _ => result Diagnostic (JournalEntry PlanRecord)
  | RecordGroupEvent _ _ => result Diagnostic (JournalEntry GroupEventRecord)
  | RecordBackfillEvent _ _ => result Diagnostic (JournalEntry BackfillEventRecord)
  | RecordApplied _ _ => result Diagnostic (JournalEntry AppliedRecord)
  | LoadRolledBack _ => result Diagnostic (list (JournalEntry RolledBackRecord))
  | LoadOpenRollbackPlan _ => result Diagnostic (option OpenRollbackPlanRecord)
  | BeginRollbackPlan _ _ => result Diagnostic (JournalEntry RollbackPlanRecord)
  | RecordRollbackStepEvent _ _ => result Diagnostic (JournalEntry RollbackStepEventRecord)
  | RecordRolledBack _ _ => result Diagnostic (JournalEntry RolledBackRecord)
  | ObserveManagedState _ _ _ => result Diagnostic ManagedSchemaState
  | PrepareGroup _ _ _ => result Diagnostic PreparedGroup
  | ExecuteAssertion _ _ => result Diagnostic PreparedGroup
  | ExecuteStatementUnit _ _ => result Diagnostic PreparedGroup
  | Commit _ _ => result GroupCommitFailure ()
  | Rollback _ => result Diagnostic ()
  | ObserveBackfill _ _ _ => result Diagnostic BackfillRecoveryObservation
  | ExecuteBackfill _ _ _ => result GroupCommitFailure BackfillCompletionEvidence
  end.

Inductive Prog (A : Type) : Type :=
| Ret (a : A)
| Halt
| Vis (o : op) (k : ans o -> Prog A).
Arguments Ret {A} a.
Arguments Halt {A}.
Arguments Vis {A} o k.

Fixpoint bind {A B} (p : Prog A) (f : A -> Prog B) : Prog B :=
  match p with
  | Ret a => f a
  | Halt => Halt
  | Vis o k => Vis o (fun r => bind (k r) f)
  end.

Definition perform (o : op) : Prog (ans o) := Vis o Ret.

(** [p.await?]. *)
Definition bind_ok {A B} (p : Prog (result Diagnostic A)) (f : A -> Prog (result Diagnostic B))
    : Prog (result Diagnostic B) :=
  bind p (fun r => match r with Ok a => f a | Err e => Ret (Err e) end).

Notation "'let!' x ':=' p 'in' k" := (bind p (fun x => k))
  (at level 10, x pattern, p at level 100, k at level 200) : tb_scope.
Notation "'try!' x ':=' p 'in' k" := (bind_ok p (fun x => k))
  (at level 10, x pattern, p at level 100, k at level 200) : tb_scope.

(** ** Controls and outcomes *)

(** Cancellation and the clock are answers of [Check] and [Select]. *)
Record MigrationExecutionControl : Set := execution_control {
  deadline : bool; resources : MigrationExecutionResourceLimits }.

Definition await_interruptible_operation {A} (control : MigrationExecutionControl)
    (future : Prog (result Diagnostic A)) : Prog (result Diagnostic A) :=
  try! _ := perform Check in
  let! winner := perform (Select (deadline control)) in
  match winner with
  | OperationFirst => future
  | CancellationFirst =>
      try! _ := perform Check in
      Ret (Err (stable Cancelled "migration_execution_cancelled"))
  | DeadlineFirst => Ret (Err (stable ResourceLimit "migration_execution_deadline_exceeded"))
  end.

Inductive MigrationExecutionPosition : Set :=
| TransactionGroup (ordinal : nat)
| BackfillStep (index : nat)
| ManifestCheckpoint.

Record MigrationBackfillObservation : Set := backfill_observation {
  observed_migration : MigrationId;
  observed_operation : nat;
  observed_step : nat;
  observed_evidence : BackfillCompletionEvidence }.

Inductive MigrationExecutionOutcome : Set :=
| Applied (backfills : list MigrationBackfillObservation)
| RetrySafe (migration : MigrationId) (position : MigrationExecutionPosition) (d : Diagnostic)
| ExplicitRecovery (migration : MigrationId) (position : MigrationExecutionPosition) (d : Diagnostic).

Definition retry_safe (m : VerifiedMigrationApplyManifest) (g : VerifiedMigrationTransactionGroup) (d : Diagnostic)
    : MigrationExecutionOutcome := RetrySafe (manifest_id (manifest m)) (TransactionGroup (ordinal g)) d.
Definition explicit_recovery (m : VerifiedMigrationApplyManifest) (g : VerifiedMigrationTransactionGroup)
    (d : Diagnostic) : MigrationExecutionOutcome :=
  ExplicitRecovery (manifest_id (manifest m)) (TransactionGroup (ordinal g)) d.
Definition backfill_retry_safe (m : VerifiedMigrationApplyManifest) (index : nat) (d : Diagnostic)
    : MigrationExecutionOutcome := RetrySafe (manifest_id (manifest m)) (BackfillStep index) d.
Definition backfill_explicit_recovery (m : VerifiedMigrationApplyManifest) (index : nat) (d : Diagnostic)
    : MigrationExecutionOutcome := ExplicitRecovery (manifest_id (manifest m)) (BackfillStep index) d.

(** The combined diagnostics carry both codes as details. *)
Definition lease_release_uncertainty : Diagnostic :=
  stable Integrity "migration_execution_lease_release_uncertain".

Definition finish_apply_lease_release (result_ : result Diagnostic MigrationExecutionOutcome)
    (release : result Diagnostic ()) : result Diagnostic MigrationExecutionOutcome :=
  match result_, release with
  | Ok outcome, Ok _ => Ok outcome
  | Err primary, Ok _ => Err primary
  | Ok (Applied _), Err _ => Err lease_release_uncertainty
  | Ok (RetrySafe id position _), Err _ => Ok (RetrySafe id position lease_release_uncertainty)
  | Ok (ExplicitRecovery id position _), Err _ => Ok (ExplicitRecovery id position lease_release_uncertainty)
  | Err _, Err _ => Err lease_release_uncertainty
  end.

Definition finish_prepared_group_rollback (primary : Diagnostic) (cleanup : result Diagnostic ()) : Diagnostic :=
  match cleanup with
  | Ok _ => primary
  | Err _ => stable Integrity "migration_execution_rollback_cleanup_uncertain"
  end.

Definition rollback_prepared_group_error {A} (tx : PreparedGroup) (primary : Diagnostic)
    : Prog (result Diagnostic A) :=
  let! cleanup := perform (Rollback tx) in Ret (Err (finish_prepared_group_rollback primary cleanup)).

(** ** Reading the journal *)

Definition is_completion_event (k : GroupJournalEventKind) : bool :=
  match k with Committed | FormalOnlyAdvanced => true | _ => false end.

Definition group_events (events : list (JournalEntry GroupEventRecord)) (m : VerifiedMigrationApplyManifest)
    (g : VerifiedMigrationTransactionGroup) : list GroupEventRecord :=
  filter (fun e => ge_digest e = manifest_digest m /\ ge_ordinal e = Z.of_nat (ordinal g)) (map entry_record events).

Definition last_group_event (open : OpenPlanRecord) (m : VerifiedMigrationApplyManifest)
    (g : VerifiedMigrationTransactionGroup) : option GroupJournalEventKind :=
  ge_kind <$> last (group_events (open_events open) m g).

Definition apply_backfill_events (events : list (JournalEntry BackfillEventRecord))
    (m : VerifiedMigrationApplyManifest) (step_index : nat) : list BackfillEventRecord :=
  filter (fun e => be_digest e = manifest_digest m /\ be_operation_ordinal e = Z.of_nat step_index /\
                   be_manifest_step e = Z.of_nat step_index /\ be_direction e = Forward)
    (map entry_record events).

Definition group_evidence (m : VerifiedMigrationApplyManifest) (g : VerifiedMigrationTransactionGroup)
    : result Diagnostic (ManagedSchemaState * ManagedSchemaState * SchemaLoweringPlan) :=
  let? s := ok_or (steps m !! schema_delta_step_index g)
              (stable Integrity "migration_execution_group_position_mismatch") in
  let? schema_step := ok_or (as_schema_delta (step s))
              (stable Integrity "migration_execution_group_step_kind_mismatch") in
  let? low := ok_or (lowering s) (stable Integrity "migration_execution_group_lowering_missing") in
  Ok (delta_source (step_delta schema_step), delta_target (step_delta schema_step), low).

Definition exact_observation (observed source target : ManagedSchemaState) : GroupRecoveryObservation :=
  if bool_decide (observed = source) || bool_decide (observed = target)
  then ManagedSemantics (managed_semantic_schema observed)
  else ObservationUnavailable.

(** The identities of a ledger, refused unless strictly ordered and distinct. *)
Fixpoint load_identities (previous : option JournalSequence) (identities : BTreeSet MigrationId)
    (applied : list (JournalEntry AppliedRecord)) : result Diagnostic (BTreeSet MigrationId) :=
  match applied with
  | [] => Ok identities
  | e :: applied =>
      if match previous with Some p => entry_sequence e <=? p | None => false end ||
         smem (ar_migration (entry_record e)) identities
      then Err (stable Integrity "migration_execution_applied_ledger_mismatch")
      else load_identities (Some (entry_sequence e)) (sins (ar_migration (entry_record e)) identities) applied
  end.

Definition loaded_applied_migrations (applied : list (JournalEntry AppliedRecord))
    : result Diagnostic (list MigrationId) := load_identities None [] applied.

(** ** Validating an open plan *)

Definition validate_plan_identity (record : PlanRecord) (plan : VerifiedMigrationApplyPlan) : result Diagnostic () :=
  let? source := ok_or (source_state plan) (invalid "migration_execution_empty_plan") in
  let? target := ok_or (target_state plan) (invalid "migration_execution_empty_plan") in
  let? first := ok_or (head (migrations plan)) (invalid "migration_execution_empty_plan") in
  if bool_decide (source_frontier record = applied_frontier plan) &&
     bool_decide (source_applied record = applied_migrations plan) &&
     bool_decide (record_target_frontier record = target_frontier plan) &&
     bool_decide (migration_ids record = map (fun m => manifest_id (manifest m)) (migrations plan)) &&
     bool_decide (manifest_digests record = map manifest_digest (migrations plan)) &&
     bool_decide (manifest_plan_fingerprints record = map (fun m => plan_fingerprint (manifest m)) (migrations plan)) &&
     bool_decide (plan_scope record = scope_id (scope source)) &&
     bool_decide (scope source = scope target) &&
     bool_decide (source_declared record = managed_declared_identity source) &&
     bool_decide (target_declared record = managed_declared_identity target) &&
     bool_decide (source_semantics record = managed_semantic_schema source) &&
     bool_decide (target_semantics record = managed_semantic_schema target) &&
     bool_decide (observed_live_source record = managed_semantic_schema source) &&
     bool_decide (record_semantic_profile record = semantic_fingerprint (manifest_profile (manifest first))) &&
     bool_decide (record_lowering_profile record = lowering_fingerprint (lowering_profile (manifest first)))
  then Ok tt
  else Err (stable Integrity "migration_execution_open_plan_identity_mismatch").

Definition applied_matches (record : AppliedRecord) (m : VerifiedMigrationApplyManifest) : bool :=
  let source := manifest_source (manifest m) in
  let target := manifest_target (manifest m) in
  bool_decide (ar_scope record = scope_id (scope source)) &&
  bool_decide (ar_migration record = manifest_id (manifest m)) &&
  bool_decide (ar_digest record = manifest_digest m) &&
  bool_decide (ar_source_declared record = managed_declared_identity source) &&
  bool_decide (ar_target_declared record = managed_declared_identity target) &&
  bool_decide (ar_source_semantics record = managed_semantic_schema source) &&
  bool_decide (ar_target_semantics record = managed_semantic_schema target).

(** The loop over the ledger: which migrations of the plan it records as applied. *)
Fixpoint mark_applied (ms : list VerifiedMigrationApplyManifest) (opened : JournalSequence)
    (previous : option JournalSequence) (flags : list bool) (applied : list (JournalEntry AppliedRecord))
    : result Diagnostic (list bool) :=
  match applied with
  | [] => Ok flags
  | e :: applied =>
      if match previous with Some p => entry_sequence e <=? p | None => false end
      then Err (stable Integrity "migration_execution_applied_order_mismatch") else
      match find_position (fun m => bool_decide (manifest_id (manifest m) = ar_migration (entry_record e))) ms with
      | None =>
          if opened <? entry_sequence e
          then Err (stable Integrity "migration_execution_foreign_applied_progress")
          else mark_applied ms opened (Some (entry_sequence e)) flags applied
      | Some i =>
          if (entry_sequence e <=? opened) || default false (flags !! i) ||
             negb (match ms !! i with Some m => applied_matches (entry_record e) m | None => false end)
          then Err (stable Integrity "migration_execution_applied_evidence_mismatch")
          else mark_applied ms opened (Some (entry_sequence e)) (<[i := true]> flags) applied
      end
  end.

(** A stored group event is rebuilt from the verified plan and compared. *)
Definition validate_group_event (ms : list VerifiedMigrationApplyManifest) (l : MigrationLease)
    (event : JournalEntry GroupEventRecord) : result Diagnostic () :=
  let record := entry_record event in
  let? m := ok_or (find (fun m => bool_decide (manifest_digest m = ge_digest record) &&
                                  bool_decide (manifest_id (manifest m) = ge_migration record)) ms)
              (stable Integrity "migration_execution_foreign_group_event") in
  let? g := ok_or (transaction_groups m !! Z.to_nat (ge_ordinal record))
              (stable Integrity "migration_execution_group_position_mismatch") in
  let? expected := GroupEventRecord_new (MigrationLease_new (lease_scope l) (lease_holder l) (ge_fence record))
                     m g (ge_kind record) (ge_observed_target record) in
  if bool_decide (expected = record) then Ok tt
  else Err (stable Integrity "migration_execution_group_event_mismatch").

Definition validate_backfill_event (ms : list VerifiedMigrationApplyManifest) (l : MigrationLease)
    (event : JournalEntry BackfillEventRecord) : result Diagnostic () :=
  let record := entry_record event in
  let? m := ok_or (find (fun m => bool_decide (manifest_digest m = be_digest record) &&
                                  bool_decide (manifest_id (manifest m) = be_migration record)) ms)
              (stable Integrity "migration_execution_foreign_group_event") in
  let? expected := new_apply (MigrationLease_new (lease_scope l) (lease_holder l) (be_fence record))
                     m (Z.to_nat (be_operation_ordinal record)) (be_kind record) (be_completion record) in
  if bool_decide (expected = record) then Ok tt
  else Err (stable Integrity "migration_execution_group_event_mismatch").

(** The commit state machine of one operation. *)
Definition valid_transition (previous : option (GroupJournalEventKind * ExecutionFence))
    (kind : GroupJournalEventKind) (fence : ExecutionFence) : bool :=
  match previous with
  | None => match kind with BeforeCommit | FormalOnlyAdvanced => true | _ => false end
  | Some (prior_kind, prior_fence) =>
      match prior_kind, kind with
      | BeforeCommit, Committed | BeforeCommit, CommitOutcomeUnknown
      | BeforeCommit, EventDefinitelyAborted => true
      | BeforeCommit, BeforeCommit | CommitOutcomeUnknown, BeforeCommit
      | EventDefinitelyAborted, BeforeCommit => prior_fence <? fence
      | CommitOutcomeUnknown, Committed => prior_fence <=? fence
      | _, _ => false
      end
  end.

Fixpoint validate_commit_transitions (previous : option (GroupJournalEventKind * ExecutionFence))
    (events : list (GroupJournalEventKind * ExecutionFence)) : result Diagnostic () :=
  match events with
  | [] => Ok tt
  | (kind, fence) :: events =>
      if valid_transition previous kind fence then validate_commit_transitions (Some (kind, fence)) events
      else Err (stable Integrity "migration_execution_invalid_event_transition")
  end.

(** The operations of one manifest with their transitions, by position. *)
Definition manifest_transitions (open : OpenPlanRecord) (m : VerifiedMigrationApplyManifest)
    : list (Z * list (GroupJournalEventKind * ExecutionFence)) :=
  @vec_sort _ (ord_by fst)
    (map (fun g => (Z.of_nat (first_step_index g),
                    map (fun e => (ge_kind e, ge_fence e)) (group_events (open_events open) m g)))
       (transaction_groups m) ++
     map (fun i => (Z.of_nat i,
                    map (fun e => (be_kind e, be_fence e)) (apply_backfill_events (open_backfill_events open) m i)))
       (backfill_step_indices m)).

(** Progress is a prefix of the operations; the result says whether all are complete. *)
Fixpoint validate_progress (progress_closed all_complete : bool)
    (operations : list (Z * list (GroupJournalEventKind * ExecutionFence))) : result Diagnostic bool :=
  match operations with
  | [] => Ok all_complete
  | (_, transitions) :: operations =>
      let? _ := validate_commit_transitions None transitions in
      match last transitions with
      | None => validate_progress true false operations
      | Some (kind, _) =>
          if progress_closed then Err (stable Integrity "migration_execution_non_prefix_group_progress")
          else if is_completion_event kind then validate_progress progress_closed all_complete operations
          else validate_progress true false operations
      end
  end.

Fixpoint validate_manifests (open : OpenPlanRecord) (flags : list bool) (completed index : nat)
    (ms : list VerifiedMigrationApplyManifest) : result Diagnostic () :=
  match ms with
  | [] => Ok tt
  | m :: ms =>
      let? all_complete := validate_progress false true (manifest_transitions open m) in
      let applied := default false (flags !! index) in
      if negb (Bool.eqb applied all_complete) && (applied || (index <? completed)%nat)
      then Err (stable Integrity "migration_execution_applied_group_mismatch") else
      if (completed <? index)%nat &&
         (existsb (fun g => negb (bool_decide (group_events (open_events open) m g = []))) (transaction_groups m) ||
          existsb (fun i => negb (bool_decide (apply_backfill_events (open_backfill_events open) m i = [])))
            (backfill_step_indices m))
      then Err (stable Integrity "migration_execution_future_manifest_progress") else
      validate_manifests open flags completed (S index) ms
  end.

Definition validate_open_plan (plan : VerifiedMigrationApplyPlan) (l : MigrationLease) (open : OpenPlanRecord)
    (applied : list (JournalEntry AppliedRecord)) : result Diagnostic nat :=
  let record := entry_record (open_entry open) in
  let? _ := validate_plan_identity record plan in
  if negb (bool_decide (plan_scope record = lease_scope l)) || (lease_fence l <? plan_fence record)
  then Err (stable Integrity "migration_execution_open_plan_fence_mismatch") else
  let? flags := mark_applied (migrations plan) (entry_sequence (open_entry open)) None
                  (replicate (length (migrations plan)) false) applied in
  let completed := length (take_while (fun b => b) flags).1 in
  if existsb (fun b => b) (skipn completed flags)
  then Err (stable Integrity "migration_execution_non_prefix_applied_progress") else
  let? _ := try_map (validate_group_event (migrations plan) l) (open_events open) in
  let? _ := try_map (validate_backfill_event (migrations plan) l) (open_backfill_events open) in
  let? _ := validate_manifests open flags completed 0 (migrations plan) in
  Ok completed.

(** ** Execution

    A step of the executor goes on with a value or returns an outcome. *)

Inductive Flow (O S : Type) : Type := Next (s : S) | Return (outcome : O).
Arguments Next {O S} s.
Arguments Return {O S} outcome.
#[local] Abbreviation Step S := (Flow MigrationExecutionOutcome S).

Section executor.
Context (sha256 : str -> str).
Context (encode : VerifiedSchemaMigrationManifest -> result Diagnostic str).
Context (l : MigrationLease) (control : MigrationExecutionControl).

(** The pre-delta assertions of a group, in order. *)
Fixpoint execute_assertions (tx : PreparedGroup) (assertions : list VerifiedMigrationApplyStep)
    : Prog (result Diagnostic PreparedGroup) :=
  match assertions with
  | [] => Ret (Ok tx)
  | s :: assertions =>
      match validated_assertion s with
      | None => Ret (Err (stable Integrity "migration_execution_group_assertion_missing"))
      | Some v =>
          let! r := await_interruptible_operation control (perform (ExecuteAssertion tx v)) in
          match r with
          | Err e => rollback_prepared_group_error tx e
          | Ok tx => execute_assertions tx assertions
          end
      end
  end.

Fixpoint execute_units (tx : PreparedGroup) (us : list StatementUnit) : Prog (result Diagnostic PreparedGroup) :=
  match us with
  | [] => Ret (Ok tx)
  | u :: us =>
      let! r := await_interruptible_operation control (perform (ExecuteStatementUnit tx u)) in
      match r with
      | Err e => rollback_prepared_group_error tx e
      | Ok tx => execute_units tx us
      end
  end.

(** Record one event of a group; a failed write hands [failed] the diagnostic. *)
Definition record_event {S} (m : VerifiedMigrationApplyManifest) (g : VerifiedMigrationTransactionGroup)
    (kind : GroupJournalEventKind) (observed : option Fingerprint.Fingerprint)
    (failed : Diagnostic -> Prog (result Diagnostic (Step S))) (next : Prog (result Diagnostic (Step S)))
    : Prog (result Diagnostic (Step S)) :=
  match GroupEventRecord_new l m g kind observed with
  | Err e => Ret (Err e)
  | Ok event =>
      let! r := perform (RecordGroupEvent l event) in
      match r with Err e => failed e | Ok _ => next end
  end.

(** The commit of a prepared group and what its answer allows. *)
Definition commit_group (m : VerifiedMigrationApplyManifest) (g : VerifiedMigrationTransactionGroup)
    (source target : ManagedSchemaState) (tx : PreparedGroup)
    : Prog (result Diagnostic (Step (option ManagedSchemaState))) :=
  let retry e := Ret (Ok (Return (retry_safe m g e))) in
  let explicit e := Ret (Ok (Return (explicit_recovery m g e))) in
  let committed :=
    record_event m g Committed (Some (managed_semantic_schema target)) retry (Ret (Ok (Next (Some target)))) in
  let! answer := perform (Commit tx l) in
  match answer with
  | Ok _ =>
      let! observed := perform (ObserveManagedState l source target) in
      match observed with
      | Ok observed =>
          if bool_decide (observed = target) then committed
          else explicit (stable Integrity "migration_execution_commit_target_mismatch")
      | Err e => retry e
      end
  | Err failure =>
      record_event m g (journal_event (certainty failure)) None
        (fun e => match certainty failure with DefinitelyAborted => retry e | Unknown => explicit e end)
        (if bool_decide (certainty failure = DefinitelyAborted) then retry (failure_diagnostic failure) else
         let! after := perform (ObserveManagedState l source target) in
         match after with
         | Err e => explicit e
         | Ok after =>
             match decide_group_recovery (Some CommitOutcomeUnknown) (exact_observation after source target)
                     (managed_semantic_schema source) (managed_semantic_schema target) with
             | ExecuteNormally => retry (failure_diagnostic failure)
             | RequiresExplicitRecovery => explicit (failure_diagnostic failure)
             | RepairCheckpoint => committed
             end
         end)
  end.

(** A group that may execute: formal advancement, or one provider transaction. *)
Definition apply_group (m : VerifiedMigrationApplyManifest) (g : VerifiedMigrationTransactionGroup)
    (source target : ManagedSchemaState) (low : SchemaLoweringPlan)
    : Prog (result Diagnostic (Step (option ManagedSchemaState))) :=
  if (assertion_count g =? 0)%nat && bool_decide (units low = []) &&
     bool_decide (managed_semantic_schema source = managed_semantic_schema target)
  then record_event m g FormalOnlyAdvanced None (fun e => Ret (Ok (Return (retry_safe m g e))))
         (Ret (Ok (Next (Some target))))
  else
    try! tx := await_interruptible_operation control (perform (PrepareGroup l source target)) in
    try! tx :=
      if negb ((first_step_index g <=? end_step_index g)%nat && (end_step_index g <=? length (steps m))%nat)
      then Halt
      else
        let group_steps := slice (first_step_index g) (end_step_index g) (steps m) in
        execute_assertions tx (firstn (assertion_count g) group_steps) in
    try! tx := execute_units tx (units low) in
    record_event m g BeforeCommit None (rollback_prepared_group_error tx) (commit_group m g source target tx).

Definition execute_group (m : VerifiedMigrationApplyManifest) (g : VerifiedMigrationTransactionGroup)
    (last_event : option GroupJournalEventKind) (observed : option ManagedSchemaState)
    : Prog (result Diagnostic (Step (option ManagedSchemaState))) :=
  if match last_event with Some k => is_completion_event k | None => false end
  then Ret (Ok (Next observed))
  else
    match group_evidence m g with
    | Err e => Ret (Err e)
    | Ok (source, target, low) =>
        try! observed :=
          match observed with
          | Some observed => Ret (Ok observed)
          | None => await_interruptible_operation control (perform (ObserveManagedState l source target))
          end in
        match decide_group_recovery last_event (exact_observation observed source target)
                (managed_semantic_schema source) (managed_semantic_schema target) with
        | RequiresExplicitRecovery =>
            Ret (Ok (Return (explicit_recovery m g
              (stable Integrity "migration_execution_ambiguous_group_state"))))
        | RepairCheckpoint =>
            record_event m g Committed (Some (managed_semantic_schema target))
              (fun e => Ret (Ok (Return (retry_safe m g e)))) (Ret (Ok (Next (Some target))))
        | ExecuteNormally => apply_group m g source target low
        end
    end.

(** ** Backfills *)

Definition clamp_u32 (index : nat) : Z := if Z.of_nat index <=? u32_max then Z.of_nat index else u32_max.

Definition executed_backfill_events (events : list (JournalEntry BackfillEventRecord))
    (m : VerifiedMigrationApplyManifest) (step_index : nat) : list BackfillEventRecord :=
  filter (fun e => be_migration e = manifest_id (manifest m) /\ be_digest e = manifest_digest m /\
                   be_operation_ordinal e = clamp_u32 step_index /\ be_manifest_step e = clamp_u32 step_index /\
                   be_direction e = Forward)
    (map entry_record events).

Definition snapshot_backfill_events (snapshot : option OpenPlanRecord) (m : VerifiedMigrationApplyManifest)
    (step_index : nat) : list BackfillEventRecord :=
  match snapshot with
  | None => []
  | Some open => executed_backfill_events (open_backfill_events open) m step_index
  end.

Definition record_backfill {S} (m : VerifiedMigrationApplyManifest) (index : nat) (kind : GroupJournalEventKind)
    (completion : option BackfillCompletionEvidence)
    (failed : Diagnostic -> Prog (result Diagnostic (Step S))) (next : Prog (result Diagnostic (Step S)))
    : Prog (result Diagnostic (Step S)) :=
  match new_apply l m index kind completion with
  | Err e => Ret (Err e)
  | Ok event =>
      let! r := perform (RecordBackfillEvent l event) in
      match r with Err e => failed e | Ok _ => next end
  end.

Definition run_backfill (m : VerifiedMigrationApplyManifest) (index : nat) (contract : BackfillStepContract)
    (plan : AttributeBackfillPlan) : Prog (result Diagnostic (Step MigrationBackfillObservation)) :=
  let retry e := Ret (Ok (Return (backfill_retry_safe m index e))) in
  let explicit e := Ret (Ok (Return (backfill_explicit_recovery m index e))) in
  let committed completion :=
    record_backfill m index Committed (Some completion) retry
      (Ret (Ok (Next (backfill_observation (manifest_id (manifest m)) index index completion)))) in
  let! answer := perform (ExecuteBackfill l plan Forward) in
  match answer with
  | Ok completion => committed completion
  | Err failure =>
      record_backfill m index (journal_event (certainty failure)) None
        (fun e => match certainty failure with DefinitelyAborted => retry e | Unknown => explicit e end)
        (if bool_decide (certainty failure = DefinitelyAborted) then retry (failure_diagnostic failure) else
         try! after := perform (ObserveBackfill l plan Forward) in
         if negb (bool_decide (decide_backfill_recovery (Some CommitOutcomeUnknown) after
                                 (bc_plan_fingerprint contract) Forward = RepairCheckpoint))
         then explicit (failure_diagnostic failure)
         else match after with Complete completion => committed completion | _ => Halt end)
  end.

Definition execute_apply_backfill (m : VerifiedMigrationApplyManifest) (index : nat)
    (snapshot : option OpenPlanRecord) : Prog (result Diagnostic (Step MigrationBackfillObservation)) :=
  match steps m !! index ≫= fun s => as_backfill (step s) with
  | None => Ret (Err (stable Integrity "migration_execution_backfill_step_position"))
  | Some (contract, plan) =>
      let events := snapshot_backfill_events snapshot m index in
      let last_event := be_kind <$> last events in
      let completed completion :=
        Ret (Ok (Next (backfill_observation (manifest_id (manifest m)) index index completion))) in
      if match last_event with Some k => is_completion_event k | None => false end
      then match last events ≫= be_completion with
           | None => Ret (Err (stable Integrity "migration_execution_backfill_completion_missing"))
           | Some completion => completed completion
           end
      else
        try! observation := await_interruptible_operation control (perform (ObserveBackfill l plan Forward)) in
        match decide_backfill_recovery last_event observation (bc_plan_fingerprint contract) Forward with
        | RequiresExplicitRecovery =>
            Ret (Ok (Return (backfill_explicit_recovery m index
              (stable Integrity "migration_execution_ambiguous_backfill_state"))))
        | RepairCheckpoint =>
            match observation with
            | Complete completion =>
                record_backfill m index Committed (Some completion)
                  (fun e => Ret (Ok (Return (backfill_retry_safe m index e)))) (completed completion)
            | _ => Ret (Err (stable Integrity "migration_execution_backfill_observation_mismatch"))
            end
        | ExecuteNormally =>
            record_backfill m index BeforeCommit None (fun e => Ret (Err e)) (run_backfill m index contract plan)
        end
  end.

Definition retain_backfill_observation (observations : list MigrationBackfillObservation)
    (observation : MigrationBackfillObservation) : result Diagnostic (list MigrationBackfillObservation) :=
  if limit_backfill_observations (resources control) <=? Z.of_nat (length observations)
  then Err (stable ResourceLimit "migration_execution_backfill_observation_limit")
  else Ok (observations ++ [observation]).

(** ** The loops *)

(** Execute the backfills at these positions; the trailing ones of a manifest
    check the controls before each. *)
Fixpoint run_backfills (checked : bool) (m : VerifiedMigrationApplyManifest) (snapshot : option OpenPlanRecord)
    (positions : list nat) (observations : list MigrationBackfillObservation)
    : Prog (result Diagnostic (Step (list MigrationBackfillObservation))) :=
  match positions with
  | [] => Ret (Ok (Next observations))
  | index :: positions =>
      try! _ := if checked then perform Check else Ret (Ok tt) in
      try! r := execute_apply_backfill m index snapshot in
      match r with
      | Return outcome => Ret (Ok (Return outcome))
      | Next observation =>
          match retain_backfill_observation observations observation with
          | Err e => Ret (Err e)
          | Ok observations => run_backfills checked m snapshot positions observations
          end
      end
  end.

Record Progress : Set := progress {
  observed : option ManagedSchemaState; observations : list MigrationBackfillObservation }.

Fixpoint run_groups (m : VerifiedMigrationApplyManifest) (snapshot : option OpenPlanRecord)
    (groups : list VerifiedMigrationTransactionGroup) (backfills : list nat) (st : Progress)
    : Prog (result Diagnostic (Step Progress)) :=
  match groups with
  | [] =>
      try! r := run_backfills true m snapshot backfills (observations st) in
      match r with
      | Return outcome => Ret (Ok (Return outcome))
      | Next retained => Ret (Ok (Next (progress (observed st) retained)))
      end
  | g :: groups =>
      try! _ := perform Check in
      let '(before, after) := take_while (fun i => i <? first_step_index g)%nat backfills in
      try! r := run_backfills false m snapshot before (observations st) in
      match r with
      | Return outcome => Ret (Ok (Return outcome))
      | Next retained =>
          try! r := execute_group m g (snapshot ≫= fun open => last_group_event open m g) (observed st) in
          match r with
          | Return outcome => Ret (Ok (Return outcome))
          | Next observed => run_groups m snapshot groups after (progress observed retained)
          end
      end
  end.

(** The applied record of a manifest whose exact target was observed. *)
Definition record_checkpoint (m : VerifiedMigrationApplyManifest) (seen : option ManagedSchemaState)
    : Prog (result Diagnostic (Step (option ManagedSchemaState))) :=
  let id := manifest_id (manifest m) in
  if negb (bool_decide (seen = Some (manifest_target (manifest m))))
  then Ret (Ok (Return (ExplicitRecovery id ManifestCheckpoint
         (stable Integrity "migration_execution_manifest_target_mismatch"))))
  else
    match AppliedRecord_from_verified_manifest sha256 encode l (manifest m) with
    | None => Halt
    | Some (Err e) => Ret (Err e)
    | Some (Ok applied) =>
        let! r := perform (RecordApplied l applied) in
        match r with
        | Err e => Ret (Ok (Return (RetrySafe id ManifestCheckpoint e)))
        | Ok _ => Ret (Ok (Next seen))
        end
    end.

(** The manifest checkpoint after its operations. *)
Definition checkpoint (m : VerifiedMigrationApplyManifest) (seen : option ManagedSchemaState)
    : Prog (result Diagnostic (Step (option ManagedSchemaState))) :=
  let target := manifest_target (manifest m) in
  if bool_decide (seen = None) || (is_profile_bridge (manifest m) && negb (bool_decide (seen = Some target)))
  then try! fresh := perform (ObserveManagedState l target target) in record_checkpoint m (Some fresh)
  else record_checkpoint m seen.

Fixpoint run_manifests (snapshot : option OpenPlanRecord) (ms : list VerifiedMigrationApplyManifest) (st : Progress)
    : Prog (result Diagnostic MigrationExecutionOutcome) :=
  match ms with
  | [] => Ret (Ok (Applied (observations st)))
  | m :: ms =>
      try! r := run_groups m snapshot (transaction_groups m) (backfill_step_indices m) st in
      match r with
      | Return outcome => Ret (Ok outcome)
      | Next st =>
          try! r := checkpoint m (observed st) in
          match r with
          | Return outcome => Ret (Ok outcome)
          | Next seen => run_manifests snapshot ms (progress seen (observations st))
          end
      end
  end.

Definition execute_under_lease (plan : VerifiedMigrationApplyPlan)
    : Prog (result Diagnostic MigrationExecutionOutcome) :=
  try! _ := perform Check in
  try! applied := perform (LoadApplied l) in
  try! open := perform (LoadOpenPlan l) in
  match match open with Some open => validate_open_plan plan l open applied | None => Ok O end with
  | Err e => Ret (Err e)
  | Ok completed =>
      match open with
      | Some _ => run_manifests open (skipn completed (migrations plan)) (progress None [])
      | None =>
          match source_state plan with
          | None => Halt
          | Some source =>
              try! live_source :=
                await_interruptible_operation control (perform (ObserveManagedState l source source)) in
              match loaded_applied_migrations applied with
              | Err e => Ret (Err e)
              | Ok ids =>
                  match PlanRecord_from_verified_plan l plan ids live_source with
                  | Err e => Ret (Err e)
                  | Ok record =>
                      try! _ := perform (BeginPlan l record) in
                      run_manifests None (migrations plan) (progress (Some live_source) [])
                  end
              end
          end
      end
  end.
End executor.

(** ** The entry point *)

Definition execution_group_limit : Diagnostic := stable ResourceLimit "migration_execution_group_limit".

Definition require_authorized_apply_plan (plan : VerifiedMigrationApplyPlan) : result Diagnostic () :=
  if execution_authorized plan then Ok tt else Err (invalid "migration_apply_preview_not_executable").

(** The checks of a plan before any connected work. *)
Definition preflight (control : MigrationExecutionControl) (available : CapabilitySet) (supports_backfill : bool)
    (plan : VerifiedMigrationApplyPlan) : result Diagnostic ManagedSchemaState :=
  let? _ := require_authorized_apply_plan plan in
  let? _ := ensure_supported_by (required_capabilities plan) available in
  let? source := ok_or (source_state plan) (invalid "migration_execution_empty_plan") in
  if bool_decide (length (migrations plan) = 0%nat) then Err (invalid "migration_execution_empty_plan") else
  if negb supports_backfill &&
     existsb (fun m => negb (bool_decide (backfill_step_indices m = []))) (migrations plan)
  then Err (invalid "migration_execution_backfill_provider_required") else
  let? transaction_groups :=
    try_fold (fun count m =>
      let sum := count + Z.of_nat (length (transaction_groups m)) in
      if usize_max <? sum then Err execution_group_limit else Ok sum) 0 (migrations plan) in
  if limit_transaction_groups (resources control) <? transaction_groups then Err execution_group_limit
  else Ok source.

Definition execute_verified_migration_apply_plan_controlled (sha256 : str -> str)
    (encode : VerifiedSchemaMigrationManifest -> result Diagnostic str) (available : CapabilitySet)
    (supports_backfill : bool) (holder : str) (plan : VerifiedMigrationApplyPlan)
    (control : MigrationExecutionControl) : Prog (result Diagnostic MigrationExecutionOutcome) :=
  try! _ := perform Check in
  match preflight control available supports_backfill plan with
  | Err e => Ret (Err e)
  | Ok source =>
      try! l := perform (Acquire (scope_id (scope source)) holder) in
      let! outcome := execute_under_lease sha256 encode l control plan in
      let! release := perform (Release l) in
      Ret (finish_apply_lease_release outcome release)
  end.

End Coordinator.
