(* ===== verification/RollbackCoordinator.v ===== *)
(** * The rollback executor (schema-migration/src/coordinator.rs)

    The fenced execution of a verified rollback plan: the same commit protocol as
    the apply executor, over the reverse steps and reverse backfills of each
    manifest in the order of its rollback operations, and a retirement record per
    manifest. *)

From S2P Require Import Prelude BTree Text Ident Fingerprint Schema Components SchemaDelta Safety Limits Assertion Migration Manifest ApplyPlan RollbackPlan Execution RollbackJournal Coordinator.
Import Ident Fingerprint Schema Components SchemaDelta Safety Assertion Migration Manifest ApplyPlan RollbackPlan Execution RollbackJournal Coordinator.
#[local] Open Scope Z_scope.

Module RollbackCoordinator.

(** ** Outcomes *)

Inductive MigrationRollbackOutcome : Set :=
| RolledBack (backfills : list MigrationBackfillObservation)
| RollbackRetrySafe (migration : MigrationId) (step_ordinal : nat) (d : Diagnostic)
| RollbackExplicitRecovery (migration : MigrationId) (step_ordinal : nat) (d : Diagnostic).

#[local] Abbreviation Step S := (Flow MigrationRollbackOutcome S).

(** The source has the same pair of functions for schema steps and for backfills. *)
Definition rollback_retry_safe (r : VerifiedMigrationRollbackManifest) (step_index : nat) (d : Diagnostic)
    : MigrationRollbackOutcome := RollbackRetrySafe (manifest_id (rolled_manifest r)) step_index d.
Definition rollback_explicit_recovery (r : VerifiedMigrationRollbackManifest) (step_index : nat) (d : Diagnostic)
    : MigrationRollbackOutcome := RollbackExplicitRecovery (manifest_id (rolled_manifest r)) step_index d.
Definition rollback_backfill_retry_safe (r : VerifiedMigrationRollbackManifest) (operation_index : nat) (d : Diagnostic)
    : MigrationRollbackOutcome := RollbackRetrySafe (manifest_id (rolled_manifest r)) operation_index d.
Definition rollback_backfill_explicit_recovery (r : VerifiedMigrationRollbackManifest) (operation_index : nat)
    (d : Diagnostic) : MigrationRollbackOutcome :=
  RollbackExplicitRecovery (manifest_id (rolled_manifest r)) operation_index d.

Definition finish_rollback_lease_release (result_ : result Diagnostic MigrationRollbackOutcome)
    (release : result Diagnostic ()) : result Diagnostic MigrationRollbackOutcome :=
  match result_, release with
  | Ok outcome, Ok _ => Ok outcome
  | Err primary, Ok _ => Err primary
  | Ok (RolledBack _), Err _ => Err lease_release_uncertainty
  | Ok (RollbackRetrySafe id ordinal _), Err _ => Ok (RollbackRetrySafe id ordinal lease_release_uncertainty)
  | Ok (RollbackExplicitRecovery id ordinal _), Err _ =>
      Ok (RollbackExplicitRecovery id ordinal lease_release_uncertainty)
  | Err _, Err _ => Err lease_release_uncertainty
  end.

(** ** Reading the journal *)

Definition rollback_backfill_events (events : list (JournalEntry BackfillEventRecord))
    (r : VerifiedMigrationRollbackManifest) (operation_index : nat) : list BackfillEventRecord :=
  filter (fun e => be_digest e = rollback_digest r /\ be_operation_ordinal e = Z.of_nat operation_index /\
                   be_direction e = Reverse)
    (map entry_record events).

Definition rollback_step_events (events : list (JournalEntry RollbackStepEventRecord))
    (r : VerifiedMigrationRollbackManifest) (step_index : nat) : list RollbackStepEventRecord :=
  filter (fun e => re_digest e = rollback_digest r /\ re_ordinal e = Z.of_nat step_index) (map entry_record events).

Definition last_rollback_step_event (open : OpenRollbackPlanRecord) (r : VerifiedMigrationRollbackManifest)
    (step_index : nat) : option GroupJournalEventKind :=
  re_kind <$> last (rollback_step_events (rollback_events open) r step_index).

(** ** Validating an open plan *)

Section validation.
Context (sha256 : str -> str).
Context (encode : VerifiedSchemaMigrationManifest -> result Diagnostic str).

(** A rollback of the plan has this identity and digest. *)
Definition names (digest : FingerprintDigest) (id : MigrationId) (r : VerifiedMigrationRollbackManifest) : bool :=
  bool_decide (rollback_digest r = digest) && bool_decide (manifest_id (rolled_manifest r) = id).

(** The loop over the retirements: which rollbacks of the plan they complete. The
    outer [None] is a digest that does not parse back, as in Manifest.v. *)
Fixpoint mark_retired (rs : list VerifiedMigrationRollbackManifest) (l : MigrationLease) (opened : JournalSequence)
    (previous : option JournalSequence) (flags : list bool) (rolled_back : list (JournalEntry RolledBackRecord))
    : option (result Diagnostic (list bool)) :=
  match rolled_back with
  | [] => Some (Ok flags)
  | e :: rolled_back =>
      let record := retirement (entry_record e) in
      let mismatch := stable Integrity "migration_execution_applied_evidence_mismatch" in
      if match previous with Some p => entry_sequence e <=? p | None => false end
      then Some (Err (stable Integrity "migration_execution_applied_order_mismatch")) else
      if entry_sequence e <=? opened
      then mark_retired rs l opened (Some (entry_sequence e)) flags rolled_back else
      match find_position (names (ar_digest record) (ar_migration record)) rs with
      | None => Some (Err (stable Integrity "migration_execution_foreign_applied_progress"))
      | Some i =>
          match rs !! i with
          | None => Some (Err mismatch)
          | Some r =>
              match RolledBackRecord_from_verified_manifest sha256 encode
                      (MigrationLease_new (lease_scope l) (lease_holder l) (ar_fence record)) (rolled_manifest r) with
              | None => None
              | Some (Err e) => Some (Err e)
              | Some (Ok expected) =>
                  if default false (flags !! i) || negb (bool_decide (expected = entry_record e))
                  then Some (Err mismatch)
                  else mark_retired rs l opened (Some (entry_sequence e)) (<[i := true]> flags) rolled_back
              end
          end
      end
  end.

Definition validate_step_event (rs : list VerifiedMigrationRollbackManifest) (l : MigrationLease)
    (event : JournalEntry RollbackStepEventRecord) : result Diagnostic () :=
  let record := entry_record event in
  let? r := ok_or (find (names (re_digest record) (re_migration record)) rs)
              (stable Integrity "migration_execution_foreign_group_event") in
  let? expected := RollbackStepEventRecord_new (MigrationLease_new (lease_scope l) (lease_holder l) (re_fence record))
                     r (Z.to_nat (re_ordinal record)) (re_kind record) (re_observed_target record) in
  if bool_decide (expected = record) then Ok tt
  else Err (stable Integrity "migration_execution_group_event_mismatch").

Definition validate_reverse_backfill_event (rs : list VerifiedMigrationRollbackManifest) (l : MigrationLease)
    (event : JournalEntry BackfillEventRecord) : result Diagnostic () :=
  let record := entry_record event in
  let? r := ok_or (find (names (be_digest record) (be_migration record)) rs)
              (stable Integrity "migration_execution_foreign_group_event") in
  let? expected := new_rollback (MigrationLease_new (lease_scope l) (lease_holder l) (be_fence record))
                     r (Z.to_nat (be_operation_ordinal record)) (be_kind record) (be_completion record) in
  if bool_decide (expected = record) then Ok tt
  else Err (stable Integrity "migration_execution_group_event_mismatch").

(** The transitions of the operation at one index. *)
Definition operation_transitions (open : OpenRollbackPlanRecord) (r : VerifiedMigrationRollbackManifest)
    (operation_index : nat) (operation : VerifiedMigrationRollbackOperation)
    : list (GroupJournalEventKind * ExecutionFence) :=
  match operation with
  | RollbackSchemaDelta step_index =>
      map (fun e => (re_kind e, re_fence e)) (rollback_step_events (rollback_events open) r step_index)
  | RollbackBackfill _ =>
      map (fun e => (be_kind e, be_fence e)) (rollback_backfill_events (rollback_backfill_entries open) r operation_index)
  end.

Definition rollback_transitions (open : OpenRollbackPlanRecord) (r : VerifiedMigrationRollbackManifest)
    : list (Z * list (GroupJournalEventKind * ExecutionFence)) :=
  imap (fun i o => (Z.of_nat i, operation_transitions open r i o)) (rollback_operations r).

Fixpoint validate_rollbacks (open : OpenRollbackPlanRecord) (flags : list bool) (completed index : nat)
    (rs : list VerifiedMigrationRollbackManifest) : result Diagnostic () :=
  match rs with
  | [] => Ok tt
  | r :: rs =>
      let? all_complete := validate_progress false true (rollback_transitions open r) in
      if default false (flags !! index) && negb all_complete
      then Err (stable Integrity "migration_execution_applied_group_mismatch") else
      if (completed <? index)%nat && existsb (fun o => negb (bool_decide (o.2 = []))) (rollback_transitions open r)
      then Err (stable Integrity "migration_execution_future_manifest_progress") else
      validate_rollbacks open flags completed (S index) rs
  end.

Definition validate_open_rollback_plan (plan : VerifiedMigrationRollbackPlan) (l : MigrationLease)
    (open : OpenRollbackPlanRecord) (rolled_back : list (JournalEntry RolledBackRecord))
    : option (result Diagnostic nat) :=
  let record := entry_record (rollback_entry open) in
  match from_verified_rollback_plan (MigrationLease_new (lease_scope l) (lease_holder l) (rp_fence record)) plan
          (applied_basis plan) (rollback_source plan) with
  | Err e => Some (Err e)
  | Ok expected =>
      if negb (bool_decide (expected = record))
      then Some (Err (stable Integrity "migration_execution_open_plan_identity_mismatch")) else
      if negb (bool_decide (rp_scope record = lease_scope l)) || (lease_fence l <? rp_fence record)
      then Some (Err (stable Integrity "migration_execution_open_plan_fence_mismatch")) else
      match mark_retired (rollbacks plan) l (entry_sequence (rollback_entry open)) None
              (replicate (length (rollbacks plan)) false) rolled_back with
      | None => None
      | Some (Err e) => Some (Err e)
      | Some (Ok flags) =>
          let completed := length (take_while (fun b => b) flags).1 in
          Some (if existsb (fun b => b) (skipn completed flags)
                then Err (stable Integrity "migration_execution_non_prefix_applied_progress") else
                let? _ := try_map (validate_step_event (rollbacks plan) l) (rollback_events open) in
                let? _ := try_map (validate_reverse_backfill_event (rollbacks plan) l) (rollback_backfill_entries open) in
                let? _ := validate_rollbacks open flags completed 0 (rollbacks plan) in
                Ok completed)
      end
  end.
End validation.

(** ** Schema steps *)

Section executor.
Context (sha256 : str -> str).
Context (encode : VerifiedSchemaMigrationManifest -> result Diagnostic str).
Context (l : MigrationLease) (control : MigrationExecutionControl).

Definition record_step_event {S} (r : VerifiedMigrationRollbackManifest) (step_index : nat)
    (kind : GroupJournalEventKind) (observed : option Fingerprint.Fingerprint)
    (failed : Diagnostic -> Prog (result Diagnostic (Step S))) (next : Prog (result Diagnostic (Step S)))
    : Prog (result Diagnostic (Step S)) :=
  match RollbackStepEventRecord_new l r step_index kind observed with
  | Err e => Ret (Err e)
  | Ok event =>
      let! answer := perform (RecordRollbackStepEvent l event) in
      match answer with Err e => failed e | Ok _ => next end
  end.

Definition commit_step (r : VerifiedMigrationRollbackManifest) (step_index : nat)
    (source target : ManagedSchemaState) (tx : PreparedGroup)
    : Prog (result Diagnostic (Step (option ManagedSchemaState))) :=
  let retry e := Ret (Ok (Return (rollback_retry_safe r step_index e))) in
  let explicit e := Ret (Ok (Return (rollback_explicit_recovery r step_index e))) in
  let committed :=
    record_step_event r step_index Committed (Some (managed_semantic_schema target)) retry
      (Ret (Ok (Next (Some target)))) in
  let! answer := perform (Commit tx l) in
  match answer with
  | Ok _ =>
      let! observed := perform (ObserveManagedState l source target) in
      match observed with
      | Ok observed =>
          if bool_decide (observed = target) then committed
          else explicit (stable Integrity "migration_execution_commit_target_mismatch")
      | Err e => retry e
      end
  | Err failure =>
      record_step_event r step_index (journal_event (certainty failure)) None
        (fun e => match certainty failure with DefinitelyAborted => retry e | Unknown => explicit e end)
        (if bool_decide (certainty failure = DefinitelyAborted) then retry (failure_diagnostic failure) else
         let! after := perform (ObserveManagedState l source target) in
         match after with
         | Err e => explicit e
         | Ok after =>
             match decide_group_recovery (Some CommitOutcomeUnknown) (exact_observation after source target)
                     (managed_semantic_schema source) (managed_semantic_schema target) with
             | ExecuteNormally => retry (failure_diagnostic failure)
             | RequiresExplicitRecovery => explicit (failure_diagnostic failure)
             | RepairCheckpoint => committed
             end
         end)
  end.

Definition apply_step (r : VerifiedMigrationRollbackManifest) (step_index : nat)
    (source target : ManagedSchemaState) (low : SchemaLoweringPlan)
    : Prog (result Diagnostic (Step (option ManagedSchemaState))) :=
  if bool_decide (units low = []) && bool_decide (managed_semantic_schema source = managed_semantic_schema target)
  then record_step_event r step_index FormalOnlyAdvanced None
         (fun e => Ret (Ok (Return (rollback_retry_safe r step_index e)))) (Ret (Ok (Next (Some target))))
  else
    try! tx := await_interruptible_operation control (perform (PrepareGroup l source target)) in
    try! tx := execute_units control tx (units low) in
    record_step_event r step_index BeforeCommit None (rollback_prepared_group_error tx)
      (commit_step r step_index source target tx).

Definition execute_step (r : VerifiedMigrationRollbackManifest) (step_index : nat)
    (snapshot : option OpenRollbackPlanRecord) (observed : option ManagedSchemaState)
    : Prog (result Diagnostic (Step (option ManagedSchemaState))) :=
  match rollback_steps r !! step_index with
  | None => Ret (Err (stable Integrity "migration_execution_rollback_step_position"))
  | Some s =>
      let last_event := snapshot ≫= fun open => last_rollback_step_event open r step_index in
      if match last_event with Some k => is_completion_event k | None => false end
      then Ret (Ok (Next observed))
      else
        match reverse_delta r s with
        | Err e => Ret (Err e)
        | Ok reverse =>
            let source := delta_source reverse in
            let target := delta_target reverse in
            try! observed :=
              match observed with
              | Some observed => Ret (Ok observed)
              | None => await_interruptible_operation control (perform (ObserveManagedState l source target))
              end in
            match decide_group_recovery last_event (exact_observation observed source target)
                    (managed_semantic_schema source) (managed_semantic_schema target) with
            | RequiresExplicitRecovery =>
                Ret (Ok (Return (rollback_explicit_recovery r step_index
                  (stable Integrity "migration_execution_ambiguous_group_state"))))
            | RepairCheckpoint =>
                record_step_event r step_index Committed (Some (managed_semantic_schema target))
                  (fun e => Ret (Ok (Return (rollback_retry_safe r step_index e)))) (Ret (Ok (Next (Some target))))
            | ExecuteNormally => apply_step r step_index source target (rollback_lowering s)
            end
        end
  end.

(** ** Reverse backfills *)

Definition executed_reverse_events (events : list (JournalEntry BackfillEventRecord))
    (r : VerifiedMigrationRollbackManifest) (operation_index : nat) : list BackfillEventRecord :=
  filter (fun e => be_migration e = manifest_id (rolled_manifest r) /\ be_digest e = rollback_digest r /\
                   be_operation_ordinal e = clamp_u32 operation_index /\ be_direction e = Reverse)
    (map entry_record events).

Definition snapshot_reverse_events (snapshot : option OpenRollbackPlanRecord) (r : VerifiedMigrationRollbackManifest)
    (operation_index : nat) : list BackfillEventRecord :=
  match snapshot with
  | None => []
  | Some open => executed_reverse_events (rollback_backfill_entries open) r operation_index
  end.

Definition record_reverse {S} (r : VerifiedMigrationRollbackManifest) (operation_index : nat)
    (kind : GroupJournalEventKind) (completion : option BackfillCompletionEvidence)
    (failed : Diagnostic -> Prog (result Diagnostic (Step S))) (next : Prog (result Diagnostic (Step S)))
    : Prog (result Diagnostic (Step S)) :=
  match new_rollback l r operation_index kind completion with
  | Err e => Ret (Err e)
  | Ok event =>
      let! answer := perform (RecordBackfillEvent l event) in
      match answer with Err e => failed e | Ok _ => next end
  end.

Definition run_reverse (r : VerifiedMigrationRollbackManifest) (operation_index backfill_index : nat)
    (contract : BackfillStepContract) (plan : AttributeBackfillPlan)
    : Prog (result Diagnostic (Step MigrationBackfillObservation)) :=
  let retry e := Ret (Ok (Return (rollback_backfill_retry_safe r operation_index e))) in
  let explicit e := Ret (Ok (Return (rollback_backfill_explicit_recovery r operation_index e))) in
  let committed completion :=
    record_reverse r operation_index Committed (Some completion) retry
      (Ret (Ok (Next (backfill_observation (manifest_id (rolled_manifest r)) operation_index backfill_index completion)))) in
  let! answer := perform (ExecuteBackfill l plan Reverse) in
  match answer with
  | Ok completion => committed completion
  | Err failure =>
      record_reverse r operation_index (journal_event (certainty failure)) None
        (fun e => match certainty failure with DefinitelyAborted => retry e | Unknown => explicit e end)
        (if bool_decide (certainty failure = DefinitelyAborted) then retry (failure_diagnostic failure) else
         try! after := perform (ObserveBackfill l plan Reverse) in
         if negb (bool_decide (decide_backfill_recovery (Some CommitOutcomeUnknown) after
                                 (bc_plan_fingerprint contract) Reverse = RepairCheckpoint))
         then explicit (failure_diagnostic failure)
         else match after with Complete completion => committed completion | _ => Halt end)
  end.

Definition execute_rollback_backfill (r : VerifiedMigrationRollbackManifest) (operation_index : nat)
    (snapshot : option OpenRollbackPlanRecord) : Prog (result Diagnostic (Step MigrationBackfillObservation)) :=
  let position_error := stable Integrity "migration_execution_backfill_step_position" in
  match rollback_operations r !! operation_index with
  | Some (RollbackBackfill backfill_index) =>
      match rollback_backfills r !! backfill_index ≫= fun b => as_backfill (forward_step b) with
      | None => Ret (Err position_error)
      | Some (contract, plan) =>
          let events := snapshot_reverse_events snapshot r operation_index in
          let last_event := be_kind <$> last events in
          let completed completion :=
            Ret (Ok (Next (backfill_observation (manifest_id (rolled_manifest r)) operation_index backfill_index
                             completion))) in
          if match last_event with Some k => is_completion_event k | None => false end
          then match last events ≫= be_completion with
               | None => Ret (Err (stable Integrity "migration_execution_backfill_completion_missing"))
               | Some completion => completed completion
               end
          else
            try! observation := await_interruptible_operation control (perform (ObserveBackfill l plan Reverse)) in
            match decide_backfill_recovery last_event observation (bc_plan_fingerprint contract) Reverse with
            | RequiresExplicitRecovery =>
                Ret (Ok (Return (rollback_backfill_explicit_recovery r operation_index
                  (stable Integrity "migration_execution_ambiguous_backfill_state"))))
            | RepairCheckpoint =>
                match observation with
                | Complete completion =>
                    record_reverse r operation_index Committed (Some completion)
                      (fun e => Ret (Ok (Return (rollback_backfill_retry_safe r operation_index e)))) (completed completion)
                | _ => Ret (Err (stable Integrity "migration_execution_backfill_observation_mismatch"))
                end
            | ExecuteNormally =>
                record_reverse r operation_index BeforeCommit None (fun e => Ret (Err e))
                  (run_reverse r operation_index backfill_index contract plan)
            end
      end
  | _ => Ret (Err position_error)
  end.

(** ** The loops *)

Fixpoint run_operations (r : VerifiedMigrationRollbackManifest) (snapshot : option OpenRollbackPlanRecord)
    (operation_index : nat) (operations : list VerifiedMigrationRollbackOperation) (st : Progress)
    : Prog (result Diagnostic (Step Progress)) :=
  match operations with
  | [] => Ret (Ok (Next st))
  | operation :: operations =>
      try! _ := perform Check in
      match operation with
      | RollbackBackfill _ =>
          try! answer := execute_rollback_backfill r operation_index snapshot in
          match answer with
          | Return outcome => Ret (Ok (Return outcome))
          | Next observation =>
              match retain_backfill_observation control (observations st) observation with
              | Err e => Ret (Err e)
              | Ok retained => run_operations r snapshot (S operation_index) operations (progress (observed st) retained)
              end
          end
      | RollbackSchemaDelta step_index =>
          try! answer := execute_step r step_index snapshot (observed st) in
          match answer with
          | Return outcome => Ret (Ok (Return outcome))
          | Next seen => run_operations r snapshot (S operation_index) operations (progress seen (observations st))
          end
      end
  end.

(** The retirement of a manifest whose exact source was restored. *)
Definition record_retirement (r : VerifiedMigrationRollbackManifest) (seen : option ManagedSchemaState)
    : Prog (result Diagnostic (Step (option ManagedSchemaState))) :=
  let id := manifest_id (rolled_manifest r) in
  let last_step := (length (rollback_operations r) - 1)%nat in
  if negb (bool_decide (seen = Some (manifest_source (rolled_manifest r))))
  then Ret (Ok (Return (RollbackExplicitRecovery id last_step
         (stable Integrity "migration_execution_manifest_target_mismatch"))))
  else
    match RolledBackRecord_from_verified_manifest sha256 encode l (rolled_manifest r) with
    | None => Halt
    | Some (Err e) => Ret (Err e)
    | Some (Ok record) =>
        let! answer := perform (RecordRolledBack l record) in
        match answer with
        | Err e => Ret (Ok (Return (RollbackRetrySafe id last_step e)))
        | Ok _ => Ret (Ok (Next seen))
        end
    end.

Definition retire (r : VerifiedMigrationRollbackManifest) (seen : option ManagedSchemaState)
    : Prog (result Diagnostic (Step (option ManagedSchemaState))) :=
  let restored := manifest_source (rolled_manifest r) in
  if bool_decide (seen = None)
  then try! fresh := perform (ObserveManagedState l restored restored) in record_retirement r (Some fresh)
  else record_retirement r seen.

Fixpoint run_rollbacks (snapshot : option OpenRollbackPlanRecord) (rs : list VerifiedMigrationRollbackManifest)
    (st : Progress) : Prog (result Diagnostic MigrationRollbackOutcome) :=
  match rs with
  | [] => Ret (Ok (RolledBack (observations st)))
  | r :: rs =>
      try! answer := run_operations r snapshot 0 (rollback_operations r) st in
      match answer with
      | Return outcome => Ret (Ok outcome)
      | Next st =>
          try! answer := retire r (observed st) in
          match answer with
          | Return outcome => Ret (Ok outcome)
          | Next seen => run_rollbacks snapshot rs (progress seen (observations st))
          end
      end
  end.

Definition execute_rollback_under_lease (plan : VerifiedMigrationRollbackPlan)
    : Prog (result Diagnostic MigrationRollbackOutcome) :=
  try! _ := perform Check in
  try! applied := perform (LoadApplied l) in
  try! rolled_back := perform (LoadRolledBack l) in
  try! open := perform (LoadOpenRollbackPlan l) in
  match open with
  | Some snapshot =>
      match validate_open_rollback_plan sha256 encode plan l snapshot rolled_back with
      | None => Halt
      | Some (Err e) => Ret (Err e)
      | Some (Ok completed) => run_rollbacks open (skipn completed (rollbacks plan)) (progress None [])
      end
  | None =>
      let source := rollback_source plan in
      try! live_source := await_interruptible_operation control (perform (ObserveManagedState l source source)) in
      match loaded_applied_migrations applied with
      | Err e => Ret (Err e)
      | Ok ids =>
          match from_verified_rollback_plan l plan ids live_source with
          | Err e => Ret (Err e)
          | Ok record =>
              try! _ := perform (BeginRollbackPlan l record) in
              run_rollbacks None (rollbacks plan) (progress (Some live_source) [])
          end
      end
  end.
End executor.

(** ** The entry point *)

Definition require_authorized_rollback_plan (plan : VerifiedMigrationRollbackPlan) : result Diagnostic () :=
  if rollback_authorized plan then Ok tt else Err (invalid "migration_rollback_preview_not_executable").

(** Every reverse program of one manifest is supported by the provider. *)
Definition reverse_supported (available : CapabilitySet) (r : VerifiedMigrationRollbackManifest)
    : result Diagnostic () :=
  let? _ := try_map (fun s => let? reverse := reverse_delta r s in
                              ensure_supported_by (delta_capabilities reverse) available) (rollback_steps r) in
  let? _ := try_map (fun b =>
              let? backfill := ok_or (as_backfill (forward_step b))
                                 (stable Integrity "migration_execution_backfill_step_position") in
              ensure_supported_by (backfill_capabilities backfill.2) available) (rollback_backfills r) in
  Ok tt.

(** The checks of a rollback plan before any connected work. *)
Definition rollback_preflight (control : MigrationExecutionControl) (available : CapabilitySet)
    (supports_backfill : bool) (plan : VerifiedMigrationRollbackPlan) : result Diagnostic () :=
  let? _ := require_authorized_rollback_plan plan in
  if bool_decide (length (rollbacks plan) = 0%nat) then Err (invalid "migration_execution_empty_plan") else
  if negb supports_backfill &&
     existsb (fun r => negb (bool_decide (length (rollback_backfills r) = 0%nat))) (rollbacks plan)
  then Err (invalid "migration_execution_backfill_provider_required") else
  let? _ := try_map (reverse_supported available) (rollbacks plan) in
  let? transaction_groups :=
    try_fold (fun count r =>
      let sum := count + Z.of_nat (length (rollback_operations r)) in
      if usize_max <? sum then Err execution_group_limit else Ok sum) 0 (rollbacks plan) in
  if limit_transaction_groups (resources control) <? transaction_groups then Err execution_group_limit
  else Ok tt.

Definition execute_verified_migration_rollback_plan_controlled (sha256 : str -> str)
    (encode : VerifiedSchemaMigrationManifest -> result Diagnostic str) (available : CapabilitySet)
    (supports_backfill : bool) (holder : str) (plan : VerifiedMigrationRollbackPlan)
    (control : MigrationExecutionControl) : Prog (result Diagnostic MigrationRollbackOutcome) :=
  try! _ := perform Check in
  match rollback_preflight control available supports_backfill plan with
  | Err e => Ret (Err e)
  | Ok _ =>
      try! l := perform (Acquire (scope_id (scope (rollback_source plan))) holder) in
      let! outcome := execute_rollback_under_lease sha256 encode l control plan in
      let! release := perform (Release l) in
      Ret (finish_rollback_lease_release outcome release)
  end.

End RollbackCoordinator.
