(* ===== verification/Report.v ===== *)
(** * Execution reports (schema-migration/src/coordinator.rs)

    The bounded public projection of an apply or rollback outcome. It loses
    nothing: the direction and the report determine the outcome. *)

From S2P Require Import Prelude Migration Execution Coordinator RollbackCoordinator.
Import Migration Execution Coordinator RollbackCoordinator.

Module Report.

Inductive MigrationExecutionDirection : Set := DirectionApply | DirectionRollback.

Inductive MigrationExecutionStatus : Set :=
| StatusApplied | StatusRolledBack | StatusRetrySafe | StatusRequiresExplicitRecovery.

Inductive MigrationExecutionReportPosition : Set :=
| AtTransactionGroup (ordinal : nat)
| AtBackfillStep (index : nat)
| AtManifestCheckpoint
| AtRollbackStep (ordinal : nat).

Record MigrationExecutionReport : Set := migration_execution_report {
  report_direction : MigrationExecutionDirection;
  report_status : MigrationExecutionStatus;
  report_migration : option MigrationId;
  report_position : option MigrationExecutionReportPosition;
  report_diagnostic : option Diagnostic;
  report_backfills : list MigrationBackfillObservation }.

Definition apply_failure (status : MigrationExecutionStatus) (migration : MigrationId) (position : MigrationExecutionPosition)
    (d : Diagnostic) : MigrationExecutionReport :=
  let position :=
    match position with
    | TransactionGroup value => AtTransactionGroup value
    | BackfillStep value => AtBackfillStep value
    | ManifestCheckpoint => AtManifestCheckpoint
    end in
  migration_execution_report DirectionApply status (Some migration) (Some position) (Some d) [].

Definition rollback_failure (status : MigrationExecutionStatus) (migration : MigrationId) (step_ordinal : nat)
    (d : Diagnostic) : MigrationExecutionReport :=
  migration_execution_report DirectionRollback status (Some migration) (Some (AtRollbackStep step_ordinal)) (Some d) [].

Definition from_apply (outcome : MigrationExecutionOutcome) : MigrationExecutionReport :=
  match outcome with
  | Applied backfills => migration_execution_report DirectionApply StatusApplied None None None backfills
  | RetrySafe migration position d => apply_failure StatusRetrySafe migration position d
  | ExplicitRecovery migration position d => apply_failure StatusRequiresExplicitRecovery migration position d
  end.

Definition from_rollback (outcome : MigrationRollbackOutcome) : MigrationExecutionReport :=
  match outcome with
  | RolledBack backfills => migration_execution_report DirectionRollback StatusRolledBack None None None backfills
  | RollbackRetrySafe migration step_ordinal d => rollback_failure StatusRetrySafe migration step_ordinal d
  | RollbackExplicitRecovery migration step_ordinal d =>
      rollback_failure StatusRequiresExplicitRecovery migration step_ordinal d
  end.

(** Reports determine outcomes, of either direction. *)
Theorem report_faithful :
  Inj (=) (=) from_apply /\ Inj (=) (=) from_rollback /\ forall apply rollback, from_apply apply <> from_rollback rollback.
Proof.
  split; [|split].
  - intros [b|m [] d|m [] d] [b'|m' [] d'|m' [] d']; cbn; by intros [=]; subst.
  - intros [b|m i d|m i d] [b'|m' i' d'|m' i' d']; cbn; by intros [=]; subst.
  - by intros [] [].
Qed.

End Report.
