(* ===== verification/Fencing.v ===== *)
(** * What the executor relies on (the traits of schema-migration/src/execution.rs and coordinator.rs)

    The world an execution runs in: the leases and the journal of one scope, the
    live schema, and the log of everything ever committed to the database and of
    every backfill postcondition the provider verified. The relation [contract]
    says what an operation may answer and do, as the traits document it: only the
    holder of the active lease changes anything, a failed write may or may not be
    durable, a commit whose outcome is unknown may or may not have happened, and a
    backfill that fails with an unknown outcome may have committed any number of
    its transaction groups. Programs run against it interleaved, leases expire at
    any time, and a process may stop for good anywhere. *)

From S2P Require Import Prelude BTree Text Ident Fingerprint Schema Components SchemaDelta Safety Limits Assertion Migration Manifest ApplyPlan RollbackPlan Execution RollbackJournal Coordinator.
Import Ident Fingerprint Schema Components SchemaDelta Safety Assertion Migration Manifest ApplyPlan Execution RollbackJournal Coordinator.
#[local] Open Scope Z_scope.

Module Fencing.

(** The history of the database: the committed statements of a group; a run of a
    backfill program, of which the provider committed a number of transaction
    groups, perhaps not all; and an observation of its exact postcondition. *)
Inductive Effect : Set :=
| GroupEffect (source target : ManagedSchemaState) (us : list StatementUnit)
| BackfillRun (plan : AttributeBackfillPlan) (direction : BackfillExecutionDirection) (groups : nat)
| BackfillVerified (plan : AttributeBackfillPlan) (direction : BackfillExecutionDirection).

Lemma Forall2_impl_in {A B} (P Q : A -> B -> Prop) l k :
  Forall2 P l k -> (forall x y, x ∈ l -> P x y -> Q x y) -> Forall2 Q l k.
Proof. induction 1; intros HQ; constructor; [apply HQ; set_solver|]. apply IHForall2. intros. apply HQ; set_solver. Qed.

(** ** The journal of one scope *)

Record Journal : Set := journal_state {
  last_sequence : JournalSequence;
  ledger : list (JournalEntry AppliedRecord);
  retired : list (JournalEntry RolledBackRecord);
  opened : option (JournalEntry PlanRecord);
  events : list (JournalEntry GroupEventRecord);
  rollback_opened : option (JournalEntry RollbackPlanRecord);
  step_events : list (JournalEntry RollbackStepEventRecord);
  backfill_events : list (JournalEntry BackfillEventRecord) }.

Definition next_entry {R : Set} (j : Journal) (r : R) : JournalEntry R := journal_entry (last_sequence j + 1) r.

Definition add_plan (j : Journal) (r : PlanRecord) : Journal :=
  journal_state (last_sequence j + 1) (ledger j) (retired j) (Some (next_entry j r)) (events j)
    (rollback_opened j) (step_events j) (backfill_events j).

Definition add_event (j : Journal) (r : GroupEventRecord) : Journal :=
  journal_state (last_sequence j + 1) (ledger j) (retired j) (opened j) (events j ++ [next_entry j r])
    (rollback_opened j) (step_events j) (backfill_events j).

Definition add_backfill (j : Journal) (r : BackfillEventRecord) : Journal :=
  journal_state (last_sequence j + 1) (ledger j) (retired j) (opened j) (events j)
    (rollback_opened j) (step_events j) (backfill_events j ++ [next_entry j r]).

(** Every migration of the plan is in the ledger. *)
Definition fulfilled (p : PlanRecord) (ledger : list (JournalEntry AppliedRecord)) : bool :=
  forallb (fun id => existsb (fun e => bool_decide (ar_migration (entry_record e) = id)) ledger) (migration_ids p).

(** Appending an applied record closes the plan it completes. *)
Definition add_applied (j : Journal) (p : JournalEntry PlanRecord) (r : AppliedRecord) : Journal :=
  let entries := ledger j ++ [next_entry j r] in
  let closed := fulfilled (entry_record p) entries in
  journal_state (last_sequence j + 1) entries (retired j)
    (if closed then None else Some p) (if closed then [] else events j)
    (rollback_opened j) (step_events j) (if closed then [] else backfill_events j).

Definition add_rollback_plan (j : Journal) (r : RollbackPlanRecord) : Journal :=
  journal_state (last_sequence j + 1) (ledger j) (retired j) (opened j) (events j)
    (Some (next_entry j r)) (step_events j) (backfill_events j).

Definition add_step_event (j : Journal) (r : RollbackStepEventRecord) : Journal :=
  journal_state (last_sequence j + 1) (ledger j) (retired j) (opened j) (events j)
    (rollback_opened j) (step_events j ++ [next_entry j r]) (backfill_events j).

(** No migration of the rollback is in the ledger any more. *)
Definition withdrawn (p : RollbackPlanRecord) (ledger : list (JournalEntry AppliedRecord)) : bool :=
  forallb (fun id => forallb (fun e => negb (bool_decide (ar_migration (entry_record e) = id))) ledger) (rollback_ids p).

(** A retirement leaves the active ledger [remaining] and closes the plan it completes. *)
Definition add_retirement (j : Journal) (p : JournalEntry RollbackPlanRecord) (r : RolledBackRecord)
    (remaining : list (JournalEntry AppliedRecord)) : Journal :=
  let closed := withdrawn (entry_record p) remaining in
  journal_state (last_sequence j + 1) remaining (retired j ++ [next_entry j r]) (opened j) (events j)
    (if closed then None else Some p) (if closed then [] else step_events j)
    (if closed then [] else backfill_events j).

Section world.
(** The live schema, its semantics read under a scope and profile, and the
    execution of statement units. *)
Context {Live : Type}.
Context (live_semantics : Live -> ManagedScopeBinding -> option Fingerprint.Fingerprint).
Context (apply_units : Live -> list StatementUnit -> Live).

Record World : Type := world {
  highest_fence : ExecutionFence;
  active : option MigrationLease;
  journal : Journal;
  live : Live;
  log : list Effect }.

(** The live schema reads as a managed state. *)
Definition reads (w : World) (s : ManagedSchemaState) : Prop :=
  live_semantics (live w) (scope s) = Some (managed_semantic_schema s).

(** ** Changes *)

Definition with_lease (w : World) (l : option MigrationLease) (fence : ExecutionFence) : World :=
  world fence l (journal w) (live w) (log w).

Definition with_journal (w : World) (j : Journal) : World := world (highest_fence w) (active w) j (live w) (log w).

Definition with_effect (w : World) (after : Live) (e : Effect) : World :=
  world (highest_fence w) (active w) (journal w) after (log w ++ [e]).

(** ** The contract *)

(** A write by the active holder: acknowledged, or failed with an unknown fate. *)
Definition writes {A} (w : World) (l : MigrationLease) (valid : Prop) (entry : A) (after : Journal)
    (r : result Diagnostic A) (w' : World) : Prop :=
  match r with
  | Ok e => active w = Some l /\ valid /\ e = entry /\ w' = with_journal w after
  | Err _ => w' = w \/ active w = Some l /\ valid /\ w' = with_journal w after
  end.

(** An answer read under the active lease. *)
Definition answers {A} (w : World) (l : MigrationLease) (P : A -> Prop) (r : result Diagnostic A) (w' : World) : Prop :=
  w' = w /\ match r with Ok a => active w = Some l /\ P a | Err _ => True end.

(** The record of an applied migration stands at one position of the open plan. *)
Definition planned (ids : list MigrationId) (digests : list FingerprintDigest) (r : AppliedRecord) : Prop :=
  exists i, ids !! i = Some (ar_migration r) /\ digests !! i = Some (ar_digest r).

(** No active application with the identity and digest of a retirement. *)
Definition inactive (j : Journal) (r : RolledBackRecord) : Prop :=
  Forall (fun e => ~ (ar_migration (entry_record e) = ar_migration (retirement r) /\
                      ar_digest (entry_record e) = ar_digest (retirement r))) (ledger j).

(** A commit, by the active holder, of which a failure may hide the success. *)
Definition commits {A} (w : World) (l : MigrationLease) (after : World) (r : result GroupCommitFailure A)
    (w' : World) : Prop :=
  match r with
  | Ok _ => active w = Some l /\ w' = after
  | Err failure => w' = w \/ certainty failure = Unknown /\ active w = Some l /\ w' = after
  end.

(** A completed observation is one of the exact postcondition. *)
Definition observes (w : World) (l : MigrationLease) (plan : AttributeBackfillPlan) (direction : BackfillExecutionDirection)
    (r : result Diagnostic BackfillRecoveryObservation) (w' : World) : Prop :=
  match r with
  | Ok (Complete _) => active w = Some l /\ w' = with_effect w (live w) (BackfillVerified plan direction)
  | Ok _ => active w = Some l /\ w' = w
  | Err _ => w' = w
  end.

(** A backfill commits its transaction groups one by one, each under the active
    lease. Success means that the postcondition was observed again afterwards; a
    definite failure means that nothing was committed; any other failure, or a crash
    in the middle, leaves some groups committed, or none. A run is one step because
    nobody acts under another lease between two of its groups: once the lease is
    lost, the remaining groups are refused. *)
Definition runs (w : World) (l : MigrationLease) (plan : AttributeBackfillPlan) (direction : BackfillExecutionDirection)
    (r : result GroupCommitFailure BackfillCompletionEvidence) (w' : World) : Prop :=
  let ran groups := with_effect w (live w) (BackfillRun plan direction groups) in
  match r with
  | Ok _ => active w = Some l /\
      exists groups, w' = with_effect (ran groups) (live w) (BackfillVerified plan direction)
  | Err failure => w' = w \/ certainty failure = Unknown /\ active w = Some l /\ exists groups, w' = ran groups
  end.

Definition contract (w : World) (o : op) : ans o -> World -> Prop :=
  let j := journal w in
  match o return ans o -> World -> Prop with
  | Check => fun _ w' => w' = w
  | Select bounded => fun r w' => w' = w /\ (r = DeadlineFirst -> bounded = true)
  | Acquire scope holder => fun r w' =>
      let acquired l := active w = None /\ lease_scope l = scope /\ lease_holder l = holder /\
                        highest_fence w < lease_fence l /\ w' = with_lease w (Some l) (lease_fence l) in
      match r with Ok l => acquired l | Err _ => w' = w \/ exists l, acquired l end
  | Release l => fun r w' =>
      let released := active w = Some l /\ w' = with_lease w None (highest_fence w) in
      match r with Ok _ => released | Err _ => w' = w \/ released end
  | LoadApplied l => fun r w' => answers w l (fun entries => entries = ledger j) r w'
  | LoadOpenPlan l => fun r w' =>
      answers w l (fun o =>
        match opened j, o with
        | None, None => True
        | Some p, Some open => from_store_with_backfills p (events j) (backfill_events j) = Ok open
        | _, _ => False
        end) r w'
  | BeginPlan l record => fun r w' =>
      writes w l (opened j = None /\ rollback_opened j = None) (next_entry j record) (add_plan j record) r w'
  | RecordGroupEvent l record => fun r w' =>
      writes w l (opened j <> None) (next_entry j record) (add_event j record) r w'
  | RecordBackfillEvent l record => fun r w' =>
      writes w l (opened j <> None \/ rollback_opened j <> None) (next_entry j record) (add_backfill j record) r w'
  | RecordApplied l record => fun r w' =>
      (exists p, writes w l (opened j = Some p /\
                  planned (migration_ids (entry_record p)) (manifest_digests (entry_record p)) record /\
                  Forall (fun e => ar_migration (entry_record e) <> ar_migration record) (ledger j))
                  (next_entry j record) (add_applied j p record) r w') \/
      answers w l (fun e => e ∈ ledger j /\ entry_record e = record) r w'
  | LoadRolledBack l => fun r w' => answers w l (fun entries => entries = retired j) r w'
  | LoadOpenRollbackPlan l => fun r w' =>
      answers w l (fun o =>
        match rollback_opened j, o with
        | None, None => True
        | Some p, Some open => rollback_from_store p (step_events j) (backfill_events j) = Ok open
        | _, _ => False
        end) r w'
  | BeginRollbackPlan l record => fun r w' =>
      writes w l (opened j = None /\ rollback_opened j = None) (next_entry j record) (add_rollback_plan j record) r w'
  | RecordRollbackStepEvent l record => fun r w' =>
      writes w l (rollback_opened j <> None) (next_entry j record) (add_step_event j record) r w'
  | RecordRolledBack l record => fun r w' =>
      (exists p remaining, writes w l (rollback_opened j = Some p /\
                  planned (rollback_ids (entry_record p)) (rp_digests (entry_record p)) (retirement record) /\
                  remove_last (next_entry j record) (ledger j) = Some remaining)
                  (next_entry j record) (add_retirement j p record remaining) r w') \/
      answers w l (fun e => e ∈ retired j /\ entry_record e = record /\ inactive j record) r w'
  | ObserveManagedState l _ _ => fun r w' => answers w l (reads w) r w'
  | PrepareGroup l source target => fun r w' =>
      answers w l (fun tx => reads w source /\ tx = prepared_group source target []) r w'
  | ExecuteAssertion tx _ => fun r w' => w' = w /\ match r with Ok tx' => tx' = tx | Err _ => True end
  | ExecuteStatementUnit tx u => fun r w' =>
      w' = w /\
      match r with
      | Ok tx' => tx' = prepared_group (tx_source tx) (tx_target tx) (tx_units tx ++ [u])
      | Err _ => True
      end
  | Commit tx l => fun r w' =>
      commits w l (with_effect w (apply_units (live w) (tx_units tx)) (GroupEffect (tx_source tx) (tx_target tx) (tx_units tx))) r w'
  | Rollback _ => fun _ w' => w' = w
  | ObserveBackfill l plan direction => fun r w' => observes w l plan direction r w'
  | ExecuteBackfill l plan direction => fun r w' => runs w l plan direction r w'
  end.

(** The lease an operation carries. *)
Definition carries (o : op) : option MigrationLease :=
  match o with
  | LoadApplied l | LoadOpenPlan l | BeginPlan l _ | RecordGroupEvent l _ | RecordBackfillEvent l _
  | RecordApplied l _ | LoadRolledBack l | LoadOpenRollbackPlan l | BeginRollbackPlan l _
  | RecordRollbackStepEvent l _ | RecordRolledBack l _ | ObserveManagedState l _ _ | PrepareGroup l _ _ | Commit _ l | Release l
  | ObserveBackfill l _ _ | ExecuteBackfill l _ _ => Some l
  | Check | Select _ | Acquire _ _ | ExecuteAssertion _ _ | ExecuteStatementUnit _ _ | Rollback _ => None
  end.

(** An operation under a lease that is not active changes nothing. *)
Lemma stale_changes_nothing w o r w' l :
  carries o = Some l -> active w <> Some l -> contract w o r w' -> w' = w.
Proof.
  destruct o; cbn; intros [= ->] Hn; unfold writes, answers, commits, observes, runs.
  all: try solve [by intros [-> _]].
  all: destruct r as [a|e]; try destruct a; naive_solver.
Qed.

(** An operation without a lease changes nothing, but for an acquisition. *)
Definition acquires (o : op) : bool := match o with Acquire _ _ => true | _ => false end.

Lemma free_changes_nothing w o r w' : carries o = None -> acquires o = false -> contract w o r w' -> w' = w.
Proof. destruct o; cbn; naive_solver. Qed.

Lemma contract_lease w o r w' :
  acquires o = false -> contract w o r w' ->
  highest_fence w' = highest_fence w /\ (active w' = active w \/ active w' = None).
Proof.
  destruct o; cbn; try done; unfold writes, answers, commits, observes, runs; intros _ H.
  all: try (destruct r as [a|e]; try destruct a; naive_solver).
  all: naive_solver.
Qed.

(** ** Interleaved execution

    Each process runs one program; the store may expire the active lease; a
    process that is never scheduled again has crashed. *)

Inductive pool_step {A} : World * list (Prog A) -> World * list (Prog A) -> Prop :=
| step_process w before after o k r w' :
    contract w o r w' -> pool_step (w, before ++ Vis o k :: after) (w', before ++ k r :: after)
| step_expire w ps : pool_step (w, ps) (with_lease w None (highest_fence w), ps).

Inductive reachable {A} (w0 : World) (start : list (Prog A)) : World * list (Prog A) -> Prop :=
| reach_start : reachable w0 start (w0, start)
| reach_step c c' : reachable w0 start c -> pool_step c c' -> reachable w0 start c'.

(** Running a program for a number of operations against an environment that
    answers by a function. *)
Fixpoint advance {A} (answer : forall o, World -> ans o * World) (n : nat) (p : Prog A) (w : World)
    : Prog A * World :=
  match n, p with
  | S n, Vis o k => let '(r, w') := answer o w in advance answer n (k r) w'
  | _, _ => (p, w)
  end.

Lemma advance_reachable {A} answer n (p : Prog A) (w0 : World) start w before after :
  (forall o w, contract w o (answer o w).1 (answer o w).2) ->
  reachable w0 start (w, before ++ p :: after) ->
  reachable w0 start ((advance answer n p w).2, before ++ (advance answer n p w).1 :: after).
Proof.
  intros Ha. revert p w. induction n as [|n IH]; intros p w Hr; [done|]. destruct p as [a| |o k]; [done..|].
  pose proof (Ha o w) as Hc. cbn [advance]. destruct (answer o w) as [r w1]. apply IH.
  eapply reach_step; [exact Hr|]. by apply (step_process w before after o k r w1).
Qed.

(** ** Reasoning about one process

    [wp] follows a program in a world nobody else changes; the rest is about
    what a process may do once its lease is no longer active. *)

Section processes.
Context {A : Type}.
Context (Inv finished : World -> Prop) (success : A -> Prop).

Definition guarantee (w w' : World) : Prop := Inv w' /\ (finished w -> finished w').

Fixpoint wp {B} (p : Prog B) (Q : B -> World -> Prop) (w : World) : Prop :=
  match p with
  | Ret a => Q a w
  | Halt => True
  | Vis o k => forall r w', contract w o r w' -> guarantee w w' /\ wp (k r) Q w'
  end.

Lemma wp_mono {B} (p : Prog B) (Q Q' : B -> World -> Prop) w :
  wp p Q w -> (forall b w', Q b w' -> Q' b w') -> wp p Q' w.
Proof.
  revert w. induction p as [b| |o k IH]; intros w H HQ; cbn in *; [by apply HQ|done|].
  intros r w' Hc. destruct (H r w' Hc) as [Hg Hw]. split; [done|]. by apply IH.
Qed.

Lemma wp_Inv {B} (p : Prog B) (Q : B -> World -> Prop) w :
  Inv w -> wp p Q w -> wp p (fun b w' => Inv w' /\ Q b w') w.
Proof.
  revert w. induction p as [b| |o k IH]; intros w HI H; cbn in *; [done|done|].
  intros r w' Hc. destruct (H r w' Hc) as [Hg Hw]. split; [done|]. apply IH; [apply Hg|done].
Qed.

Lemma wp_bind {B C} (p : Prog B) (f : B -> Prog C) (Q : C -> World -> Prop) w :
  wp p (fun b w' => wp (f b) Q w') w -> wp (bind p f) Q w.
Proof.
  revert w. induction p as [b| |o k IH]; intros w H; cbn in *; [done|done|].
  intros r w' Hc. destruct (H r w' Hc) as [Hg Hw]. split; [done|]. by apply IH.
Qed.

Lemma wp_bind_ok {B C} (p : Prog (result Diagnostic B)) (f : B -> Prog (result Diagnostic C))
    (Q : result Diagnostic C -> World -> Prop) w :
  wp p (fun b w' => match b with Ok b => wp (f b) Q w' | Err e => Q (Err e) w' end) w -> wp (bind_ok p f) Q w.
Proof. intros H. apply wp_bind. eapply wp_mono; [exact H|]. by intros [b|e] w'. Qed.

(** Inside an execution every operation is lease-free or carries its lease. *)
Definition held (l : MigrationLease) (o : op) : Prop :=
  match o with
  | Acquire _ _ | Release _ => False
  | _ => carries o = None \/ carries o = Some l
  end.

Fixpoint uses {B} (l : MigrationLease) (p : Prog B) : Prop :=
  match p with
  | Ret _ | Halt => True
  | Vis o k => held l o /\ forall r, uses l (k r)
  end.

Lemma uses_bind {B C} l (p : Prog B) (f : B -> Prog C) :
  uses l p -> (forall b, uses l (f b)) -> uses l (bind p f).
Proof. induction p as [b| |o k IH]; cbn; [naive_solver|done|]. intros [Hh Hk] Hf. split; [done|]. intros r. by apply IH. Qed.

Lemma uses_bind_ok {B C} l (p : Prog (result Diagnostic B)) (f : B -> Prog (result Diagnostic C)) :
  uses l p -> (forall b, uses l (f b)) -> uses l (bind_ok p f).
Proof. intros Hp Hf. apply uses_bind; [done|]. by intros [b|e]. Qed.

Lemma uses_perform l o : held l o -> uses l (perform o).
Proof. done. Qed.

(** The last operation releases the lease, and without an acknowledged release
    there is no success. *)
Definition closes (l : MigrationLease) (o : op) : (ans o -> Prog A) -> Prop :=
  match o return (ans o -> Prog A) -> Prop with
  | Release l' => fun k => l' = l /\ (forall r, exists a, k r = Ret a) /\ forall d a, k (Err d) = Ret a -> ~ success a
  | _ => fun _ => False
  end.

Fixpoint closing (l : MigrationLease) (p : Prog A) : Prop :=
  match p with
  | Ret _ => False
  | Halt => True
  | Vis o k => held l o /\ (forall r, closing l (k r)) \/ closes l o k
  end.

Definition accomplished (a : A) (w : World) : Prop := success a -> finished w.

(** Before the lease is acquired; afterwards the program is safe in any world
    with the invariant. *)
Definition enters (o : op) : (ans o -> Prog A) -> Prop :=
  match o return (ans o -> Prog A) -> Prop with
  | Acquire _ _ => fun k =>
      (forall d, exists a, k (Err d) = Ret a /\ ~ success a) /\
      forall l, closing l (k (Ok l)) /\
        forall w, Inv w -> highest_fence w < lease_fence l ->
          wp (k (Ok l)) accomplished (with_lease w (Some l) (lease_fence l))
  | _ => fun _ => False
  end.

Fixpoint starting (p : Prog A) : Prop :=
  match p with
  | Ret a => ~ success a
  | Halt => True
  | Vis o k => o = Check /\ (forall r, starting (k r)) \/ enters o k
  end.

Definition process_ok (w : World) (l : option MigrationLease) (p : Prog A) : Prop :=
  match l with
  | None => p = Halt \/ starting p \/ exists a, p = Ret a /\ accomplished a w
  | Some l => lease_fence l <= highest_fence w /\ closing l p /\ (active w = Some l -> wp p accomplished w)
  end.

(** The processes with the leases they hold, all different. *)
Definition pool_ok (w : World) (ps : list (Prog A)) : Prop :=
  Inv w /\ exists ls, NoDup (omap id ls : list MigrationLease) /\ Forall2 (process_ok w) ls ps.

Context (Inv_lease : forall w l fence, Inv w -> highest_fence w <= fence -> Inv (with_lease w l fence)).
Context (finished_lease : forall w l fence, finished w -> finished (with_lease w l fence)).

(** Processes that hold another lease, or none, are unaffected. *)
Lemma process_ok_mono w w' l p :
  guarantee w w' -> highest_fence w <= highest_fence w' ->
  w' = w \/ (forall h, l = Some h -> active w' <> Some h) -> process_ok w l p -> process_ok w' l p.
Proof.
  intros [_ Hg] Hf [->|Ha]; [done|]. destruct l as [h|]; cbn.
  - intros (H1 & H2 & _). split_and!; [lia|done|]. intros H. by apply (Ha h) in H.
  - unfold accomplished. naive_solver.
Qed.

(** One step of a process: the world it leaves, and what holds of it then. *)
Lemma process_step w l o k r w' :
  Inv w -> process_ok w l (Vis o k) -> contract w o r w' ->
  guarantee w w' /\ highest_fence w <= highest_fence w' /\
  exists l', process_ok w' l' (k r) /\
    (l' = l \/ l' = None \/ exists h, l' = Some h /\ active w' = Some h /\ highest_fence w < lease_fence h) /\
    (forall h, active w' = Some h -> Some h = l' \/ w' = w \/ highest_fence w < lease_fence h).
Proof.
  intros HI Hp Hc. assert (guarantee w w) as Hww by done. destruct l as [l|]; cbn in Hp.
  - destruct Hp as (Hl & [[Hh Hk]|Hcl] & Hw).
    + assert (acquires o = false) as Ha by (by destruct o).
      pose proof (contract_lease _ _ _ _ Ha Hc) as [Hf Hact].
      assert (guarantee w w' /\ (active w' = Some l -> wp (k r) accomplished w') /\
        (active w = Some l \/ w' = w)) as (Hg & Hw' & Hsame).
      { destruct (decide (active w = Some l)) as [E|E].
        - specialize (Hw E r w' Hc). naive_solver.
        - assert (w' = w) as ->; [|naive_solver].
          assert (carries o = None \/ carries o = Some l) as [Hn|Hs] by (by destruct o).
          + by apply (free_changes_nothing _ _ _ _ Hn Ha Hc).
          + by apply (stale_changes_nothing _ _ _ _ _ Hs E Hc). }
      split_and!; [done|lia|]. exists (Some l). cbn. split_and!; [lia|done|done|by left|].
      intros h Hh'. destruct Hsame as [E|E]; [left|by right; left]. destruct Hact; congruence.
    + destruct o; try done. destruct Hcl as (-> & Hret & Herr). destruct (Hret r) as [a Ea].
      pose proof (contract_lease _ _ _ _ (eq_refl : acquires (Release l) = false) Hc) as [Hf Hact].
      assert (guarantee w w' /\ accomplished a w' /\ (active w' = None \/ w' = w)) as (Hg & Hacc & Hsame).
      { destruct (decide (active w = Some l)) as [E|E].
        - pose proof (Hw E r w' Hc) as Hw'. rewrite Ea in Hw'. split_and!; try apply Hw'.
          cbn in Hc. destruct r; naive_solver.
        - assert (w' = w) as -> by (by apply (stale_changes_nothing _ (Release l) r _ l)).
          split_and!; [done| |by right]. destruct r as [u|d]; [naive_solver|]. intros Hs. by apply Herr in Ea. }
      split_and!; [done|lia|]. exists None. cbn. split_and!; [eauto|by right; left|].
      intros h Hh'. right. left. destruct Hsame; congruence.
  - destruct Hp as [?|[Hp|(a & ? & _)]]; [done| |done]. cbn in Hp. destruct Hp as [[-> Hk]|He].
    + cbn in Hc. subst w'. split_and!; [done|lia|]. exists None. cbn. split_and!; [right; left; apply Hk|by left|naive_solver].
    + destruct o; try done. destruct He as [Herr Hok]. cbn in Hc.
      destruct r as [l|d].
      * destruct Hc as (Ha & _ & _ & Hf & ->). split_and!; [split; [apply Inv_lease; [done|cbn; lia]|apply finished_lease]|cbn; lia|].
        exists (Some l). destruct (Hok l) as [Hcl Hw]. split_and!; [|right; right; by exists l|by intros h [= <-]; left].
        split_and!; [cbn; lia|exact Hcl|]. intros _. by apply Hw.
      * destruct (Herr d) as (a & Ea & Hs). rewrite Ea.
        assert (forall w1, guarantee w w1 -> process_ok w1 None (Ret a)) as Hn
          by (intros w1 _; right; right; exists a; split; [done|by intros ?%Hs]).
        destruct Hc as [->|(l & Ha & _ & _ & Hf & ->)].
        -- split_and!; [done|lia|]. exists None. split_and!; [by apply Hn|by left|naive_solver].
        -- split_and!; [split; [apply Inv_lease; [done|cbn; lia]|apply finished_lease]|cbn; lia|]. exists None.
           split_and!; [apply Hn; split; [apply Inv_lease; [done|cbn; lia]|apply finished_lease]|by left|].
           cbn. intros h [= <-]. right. right. lia.
Qed.

Lemma holders_below w ls ps h :
  Forall2 (process_ok w) ls ps -> h ∈ (omap id ls : list MigrationLease) -> lease_fence h <= highest_fence w.
Proof.
  intros H (l & Hl & E)%list_elem_of_omap. cbn in E. subst l.
  apply list_elem_of_lookup in Hl as [i Hi]. destruct (Forall2_lookup_l _ _ _ _ _ H Hi) as (p & _ & Hp). apply Hp.
Qed.

Lemma pool_ok_step w ps w' ps' : pool_ok w ps -> pool_step (w, ps) (w', ps') -> pool_ok w' ps'.
Proof.
  intros [HI (ls & Hnd & Hps)] Hstep. inversion Hstep as [? before after o k r ? Hc|]; subst; clear Hstep; cycle 1.
  { split; [apply Inv_lease; [done|lia]|]. exists ls. split; [done|]. eapply Forall2_impl; [exact Hps|]. intros l p.
    apply process_ok_mono; [split; [apply Inv_lease; [done|cbn; lia]|apply finished_lease]|cbn; lia|by right]. }
  apply Forall2_app_inv_r in Hps as (lb & la' & Hb & Hrest & ->).
  apply Forall2_cons_inv_r in Hrest as (l & la & Hp & Ha & ->).
  destruct (process_step w l o k r w' HI Hp Hc) as (Hg & Hf & l' & Hp' & Hl' & Hact).
  split; [apply Hg|]. exists (lb ++ l' :: la).
  assert (forall h, h ∈ (omap id lb ++ omap id la : list MigrationLease) -> lease_fence h <= highest_fence w) as Hbelow.
  { intros h [Hh|Hh]%elem_of_app; [by apply (holders_below w lb before)|by apply (holders_below w la after)]. }
  rewrite !omap_app in Hnd |- *.
  assert (omap id (l :: la) = option_list l ++ omap id la) as E by (by destruct l). rewrite E in Hnd. clear E.
  assert (omap id (l' :: la) = option_list l' ++ omap id la) as E by (by destruct l'). rewrite E. clear E.
  rewrite (Permutation_app_swap_app (omap id lb)) in Hnd |- *.
  assert (forall h, Some h = l' -> h ∉ (omap id lb ++ omap id la : list MigrationLease)) as Hfresh.
  { intros h <- Hh. destruct Hl' as [<-|[?|(h' & [= ->] & _ & Hlt)]]; [|done|apply Hbelow in Hh; lia].
    cbn in Hnd. apply NoDup_cons in Hnd as [Hn _]. done. }
  split.
  - apply NoDup_app. split_and!; [destruct l'; cbn; repeat constructor; set_solver| |by apply NoDup_app in Hnd as (_ & _ & ?)].
    intros h Hh. destruct l' as [h'|]; cbn in Hh; [|set_solver]. assert (h = h') as -> by set_solver. by apply Hfresh.
  - assert (forall m q, m ∈ lb ++ la -> process_ok w m q -> process_ok w' m q) as Hothers.
    { intros m q Hm. apply process_ok_mono; [done|done|].
      destruct m as [h|]; [|by right]. destruct (decide (active w' = Some h)) as [Eh|Hn].
      - assert (h ∈ (omap id lb ++ omap id la : list MigrationLease)) as Hin.
        { rewrite <- omap_app. apply list_elem_of_omap. by exists (Some h). }
        destruct (Hact h Eh) as [Ex|[->|Hlt]]; [by apply Hfresh in Ex|by left|].
        apply Hbelow in Hin. lia.
      - right. by intros ? [= <-]. }
    apply Forall2_app; [|constructor; [done|]]; (eapply Forall2_impl_in; [eassumption|]); intros m q Hm;
      apply Hothers; set_solver.
Qed.

(** For any program that keeps the discipline: whatever the interleaving, the
    crashes and the lease expiries, every reachable world has the invariant, and
    a process that reports success left a finished world that stayed finished. *)
Lemma pool_invariant w0 start w ps :
  Inv w0 -> Forall starting start -> reachable w0 start (w, ps) ->
  Inv w /\ forall a, Ret a ∈ ps -> success a -> finished w.
Proof.
  intros HI Hs Hr. assert (pool_ok w ps) as [HIw (ls & _ & Hps)].
  { remember (w, ps) as c eqn:Ec. revert w ps Ec. induction Hr as [|[w1 ps1] c' _ IH Hst]; intros w ps Ec; subst.
    - injection Ec as -> ->. split; [done|]. exists (replicate (length ps) None). split.
      + assert (omap id (replicate (length ps) (@None MigrationLease)) = []) as -> by (by induction (length ps)).
        constructor.
      + induction Hs; constructor; [right; by left|done].
    - eapply pool_ok_step; [by apply IH|done]. }
  split; [done|]. intros a Ha Hsa. apply list_elem_of_lookup in Ha as [i Hi].
  destruct (Forall2_lookup_r _ _ _ _ _ Hps Hi) as ([l|] & _ & Hp); cbn in Hp; [naive_solver|].
  destruct Hp as [?|[?|(b & [= <-] & Hacc)]]; [done|done|by apply Hacc].
Qed.
End processes.
End world.
Arguments World Live : clear implicits.

End Fencing.
