(* ===== verification/Protocol.v ===== *)
(** * The commit protocol shared by the two executors

    Applying and rolling back a plan follow one protocol: the operations of the
    plan are visited in order, each one is bracketed by journal events, and after
    a crash the journal and the live schema together tell what happened. This file
    states the protocol for any plan that presents itself as a [PlanView], with
    the invariant that relates journal, live schema and database log at every
    moment, and proves that the programs common to both executors keep it. *)

From Stdlib Require Import Sorted.
From stdpp Require Import sorting.
From S2P Require Import Prelude BTree Text Ident Fingerprint Schema Components SchemaDelta Safety Limits Assertion Migration Manifest ApplyPlan RollbackPlan Execution RollbackJournal Coordinator Fencing.
Import Ident Fingerprint Schema Components SchemaDelta Safety Assertion Migration Manifest ApplyPlan Execution RollbackJournal Coordinator Fencing.
#[local] Open Scope Z_scope.

Module Protocol.

(** ** Positions, flags and ledgers *)

Lemma NoDup_map_inj {A B} (f : A -> B) (l : list A) x y : NoDup (map f l) -> x ∈ l -> y ∈ l -> f x = f y -> x = y.
Proof.
  intros Hn Hx Hy E. apply list_elem_of_lookup in Hx as [i Hi], Hy as [j Hj].
  assert (map f l !! i = Some (f x)) as Hi' by (by rewrite list_lookup_fmap, Hi).
  assert (map f l !! j = Some (f x)) as Hj' by (by rewrite list_lookup_fmap, Hj, E).
  pose proof (NoDup_lookup _ _ _ _ Hn Hi' Hj') as ->. congruence.
Qed.

Lemma elem_map {A B} (f : A -> B) (l : list A) y : y ∈ map f l <-> exists x, x ∈ l /\ y = f x.
Proof. change (map f l) with (f <$> l). rewrite list_elem_of_fmap. naive_solver. Qed.

Lemma take_while_app {A} (p : A -> bool) l : (take_while p l).1 ++ (take_while p l).2 = l.
Proof. induction l as [|x l IH]; cbn; [done|]. destruct (p x); [|done]. destruct (take_while p l). cbn in *. by rewrite IH. Qed.

Lemma find_position_Some {A} (p : A -> bool) l i :
  find_position p l = Some i -> exists x, l !! i = Some x /\ p x = true.
Proof.
  revert i. induction l as [|x l IH]; intros i; cbn; [done|]. destruct (p x) eqn:E.
  - intros [= <-]. by exists x.
  - intros H. apply fmap_Some in H as (j & Hj & ->). by apply IH.
Qed.

Lemma find_position_None {A} (p : A -> bool) l x : find_position p l = None -> x ∈ l -> p x = false.
Proof.
  induction l as [|y l IH]; cbn; [set_solver|]. destruct (p y) eqn:E; [done|].
  intros H [->|Hx]%elem_of_cons; [done|]. apply IH; [|done]. by destruct (find_position p l).
Qed.

Lemma take_while_flags (flags : list bool) :
  existsb (fun b => b) (skipn (length (take_while (fun b => b) flags).1) flags) = false ->
  forall i, flags !! i = Some true <-> (i < length (take_while (fun b => b) flags).1)%nat.
Proof.
  induction flags as [|b flags IH]; [intros _ i; cbn; split; [done|lia]|]. cbn [take_while]. destruct b.
  - destruct (take_while (fun b => b) flags) as [t u] eqn:E. cbn in IH |- *. intros H [|i]; cbn; [split; [lia|done]|].
    rewrite IH by done. lia.
  - cbn. intros H i. split; [|lia]. destruct i as [|i]; cbn; [done|]. intros Hi.
    assert (existsb (fun b => b) flags = true) as Ht; [|congruence].
    apply existsb_exists. exists true. split; [|done]. apply list_elem_of_In. by eapply list_elem_of_lookup_2.
Qed.

Lemma load_identities_elem previous ids entries ids' :
  load_identities previous ids entries = Ok ids' ->
  forall id, id ∈ ids' <->
    id ∈ ids \/ exists e : JournalEntry AppliedRecord, e ∈ entries /\ ar_migration (entry_record e) = id.
Proof.
  revert previous ids. induction entries as [|e entries IH]; intros previous ids H id.
  { cbn in H. injection H as <-. set_solver. }
  cbn [load_identities] in H. destruct (_ || _); [done|]. rewrite (IH _ _ H), elem_sins. setoid_rewrite elem_of_cons.
  split.
  - intros [[->|?]|(x & ? & ?)]; [right; exists e; split; [by left|done]|by left|right; exists x; split; [by right|done]].
  - intros [?|(x & [->|?] & <-)]; [by left; right|by left; left|right; by exists x].
Qed.

Lemma position_ok n z : position n = Ok z <-> z = Z.of_nat n /\ Z.of_nat n <= u32_max.
Proof. unfold position. destruct (Z.leb_spec (Z.of_nat n) u32_max); naive_solver lia. Qed.

Lemma clamp_small i : Z.of_nat i <= u32_max -> clamp_u32 i = Z.of_nat i.
Proof. intros H. unfold clamp_u32. destruct (Z.leb_spec (Z.of_nat i) u32_max); lia. Qed.

Lemma last_map_fst {A K F} (k : A -> K) (f : A -> F) l : fst <$> last (map (fun a => (k a, f a)) l) = k <$> last l.
Proof. change (map ?g ?x) with (g <$> x). rewrite fmap_last. by destruct (last l). Qed.

(** The flags of a prefix. *)
Lemma prefix_flags (flags : list bool) n :
  (n <= length flags)%nat -> (forall i, (i < length flags)%nat -> flags !! i = Some true <-> (i < n)%nat) ->
  length (take_while (fun b => b) flags).1 = n /\ existsb (fun b => b) (skipn n flags) = false.
Proof.
  revert n. induction flags as [|b flags IH]; intros n Hn H; [cbn in Hn; replace n with O by lia; done|].
  assert (forall i, (i < length flags)%nat -> flags !! i = Some true <-> (S i < n)%nat) as Hs by (intros i Hi; apply (H (S i)); cbn; lia).
  cbn in Hn. destruct n as [|n].
  - assert (b = false) as -> by (destruct b; [|done]; pose proof (proj1 (H O ltac:(cbn; lia)) eq_refl); lia). split; [done|].
    destruct (IH O ltac:(lia)) as [_ He]; [|done]. intros i Hi. rewrite (Hs i Hi). lia.
  - assert (b = true) as -> by (pose proof (proj2 (H O ltac:(cbn; lia)) ltac:(lia)) as Hb; by injection Hb).
    destruct (IH n ltac:(lia)) as [Hl He]; [intros i Hi; rewrite (Hs i Hi); lia|].
    cbn [take_while]. destruct (take_while (fun b => b) flags). cbn in Hl |- *. by rewrite Hl.
Qed.

Lemma prefix_flag (flags : list bool) n i :
  (forall i, (i < length flags)%nat -> flags !! i = Some true <-> (i < n)%nat) -> (i < length flags)%nat ->
  default false (flags !! i) = (i <? n)%nat.
Proof.
  intros H Hi. specialize (H i Hi). destruct (flags !! i) as [b|] eqn:Eb; [|by apply lookup_ge_None in Eb; lia].
  change (default false (Some b)) with b. destruct b, (Nat.ltb_spec i n) as [Hlt|Hge]; [done| | |done].
  - pose proof (proj1 H eq_refl). lia.
  - discriminate (proj2 H Hlt).
Qed.

Lemma try_map_accepts {E A B} (f : A -> result E B) l : Forall (fun x => exists y, f x = Ok y) l -> exists ys, try_map f l = Ok ys.
Proof.
  induction 1 as [|x l [y Hy] _ [ys IH]]; [by eexists|]. cbn. rewrite Hy, IH. by eexists.
Qed.

Lemma load_identities_order previous ids entries ids' :
  load_identities previous ids entries = Ok ids' ->
  StronglySorted earlier entries /\ NoDup (map (fun e => ar_migration (entry_record e)) entries) /\
  Forall (fun e => ar_migration (entry_record e) ∉ ids /\ forall p, previous = Some p -> p < entry_sequence e) entries.
Proof.
  revert previous ids. induction entries as [|e entries IH]; intros previous ids H; [by repeat constructor|].
  cbn [load_identities] in H.
  destruct (match previous with Some p => entry_sequence e <=? p | None => false end || smem _ ids) eqn:Ee; [done|].
  apply orb_false_iff in Ee as [Ep Em]. apply IH in H as (Hs & Hn & Hf). rewrite Forall_forall in Hf.
  assert (forall p, previous = Some p -> p < entry_sequence e) as Hp by (intros p ->; by apply Z.leb_gt).
  split_and!.
  - constructor; [done|]. rewrite Forall_forall. intros x Hx. by apply (Hf x Hx).
  - cbn. constructor; [|done]. intros (x & Hx & E)%elem_map. destruct (Hf x Hx) as [Hni _]. apply Hni. rewrite <- E.
    apply elem_sins. by left.
  - constructor.
    + split; [|done]. by apply smem_false.
    + rewrite Forall_forall. intros x Hx. destruct (Hf x Hx) as [Hni Hlt]. split.
      * intros Hin. apply Hni, elem_sins. by right.
      * intros p E. specialize (Hp p E). specialize (Hlt _ eq_refl). lia.
Qed.

Lemma StronglySorted_snoc {A} (R : A -> A -> Prop) l x : StronglySorted R l -> Forall (fun y => R y x) l -> StronglySorted R (l ++ [x]).
Proof.
  intros Hs. induction Hs as [|y l Hs IH Hy]; intros Hx; [by repeat constructor|]. apply Forall_cons in Hx as [Hyx Hx].
  cbn. constructor; [by apply IH|]. apply Forall_app. split; [done|]. by constructor.
Qed.

(** Sorting by a key finds the arrangement in which the keys ascend. *)
Lemma sorted_by_key {B} (key : B -> Z) (l k : list B) :
  StronglySorted (fun x y => key x < key y) k -> l ≡ₚ k -> @vec_sort B (ord_by key) l = k.
Proof.
  intros Hk Hp. set (s := @vec_sort B (ord_by key) l).
  assert (s ≡ₚ k) as Hs by (unfold s; by rewrite vec_sort_perm).
  assert (NoDup (map key k)) as Hn.
  { clear -Hk. induction Hk as [|x k Hk IH Hx]; cbn; [constructor|]. constructor; [|done].
    intros (y & Hy & E)%elem_map. rewrite Forall_forall in Hx. specialize (Hx y Hy). lia. }
  assert (ssorted (map key s)) as Hss.
  { unfold s. rewrite vec_sort_by_keys. apply vec_sort_sorted. by rewrite (Permutation_map key Hp). }
  apply (StronglySorted_unique_strong (fun x y => key x < key y)); [intros x y _ _ ? ?; lia| |done|done].
  clear -Hss. induction s as [|x s IH]; [constructor|]. cbn in Hss. apply StronglySorted_inv in Hss as [Hss Hx].
  constructor; [by apply IH|]. rewrite Forall_map in Hx. eapply Forall_impl; [exact Hx|]. cbn. intros y Hy.
  by apply Z.compare_lt_iff in Hy.
Qed.

(** A filter only depends on the elements of the list. *)
Lemma filter_agree {B} (P Q : B -> Prop) `{forall x, Decision (P x)} `{forall x, Decision (Q x)} (l : list B) :
  (forall x, x ∈ l -> P x <-> Q x) -> filter P l = filter Q l.
Proof.
  induction l as [|x l IH]; intros Hx; [done|]. rewrite !filter_cons, IH by (intros; apply Hx; by apply list_elem_of_further).
  pose proof (Hx x ltac:(apply list_elem_of_here)). destruct (decide (P x)), (decide (Q x)); tauto.
Qed.

(** ** The stored events of an open plan *)

(** Consistent with the plan entry, up to a sequence and a fence. *)
Record stored_ok (fence : ExecutionFence) (last : JournalSequence) (binding : PlanBinding) (es : list StoredEvent)
    : Prop := {
  so_consistent : consistent binding es;
  so_bounds : Forall (fun e => se_sequence e <= last /\ se_fence e <= fence) es;
  so_plan : pb_sequence binding <= last /\ pb_fence binding <= fence }.

Lemma stored_ok_mono fence fence' last last' binding es :
  stored_ok fence last binding es -> fence <= fence' -> last <= last' -> stored_ok fence' last' binding es.
Proof.
  intros [H1 H2 H3] Hf Hl. split; [done| |lia]. eapply Forall_impl; [exact H2|]. cbn. lia.
Qed.

(** An event written next, under the highest fence. *)
Lemma stored_ok_add fence last binding es es' e :
  stored_ok fence last binding es -> es' ≡ₚ e :: es -> se_sequence e = last + 1 -> se_fence e = fence ->
  bound_to (pb_digests binding) (pb_ids binding) e = true -> stored_ok fence (last + 1) binding es'.
Proof.
  intros [[H1 H2 H3] Hb Hp] Hperm Hs Hf Hbd. rewrite Forall_forall in Hb. split; [split| |lia].
  - rewrite Hperm. constructor; [|done]. unfold follows_plan. split_and!; [lia|lia|done].
  - rewrite Hperm. cbn. constructor; [|done]. intros (x & Hx & E)%elem_map. destruct (Hb x Hx). lia.
  - intros x y. rewrite Hperm, !elem_of_cons. intros [->|Hx] [->|Hy] Hlt; [lia| | |by apply H3].
    + destruct (Hb y Hy). lia.
    + destruct (Hb x Hx). lia.
  - rewrite Hperm. constructor; [lia|]. rewrite Forall_forall. intros x Hx. destruct (Hb x Hx). lia.
Qed.

Lemma bound_to_map {A} (dig : A -> FingerprintDigest) (id : A -> MigrationId) ms m e :
  NoDup (map dig ms) -> m ∈ ms -> se_digest e = dig m -> se_migration e = id m -> bound_to (map dig ms) (map id ms) e = true.
Proof.
  intros Hn Hm Hd Hi. unfold bound_to. destruct (find_position _ (map dig ms)) as [i|] eqn:E.
  - apply find_position_Some in E as (d & Hl & Hx%bool_decide_eq_true). rewrite list_lookup_fmap in Hl.
    destruct (ms !! i) as [m'|] eqn:Em; [|done]. injection Hl as <-. rewrite Hd in Hx.
    assert (m' = m) as -> by (by apply (NoDup_map_inj dig ms); [|eapply list_elem_of_lookup_2| |]).
    apply bool_decide_eq_true. by rewrite list_lookup_fmap, Em, Hi.
  - apply (find_position_None _ _ (dig m)) in E; [|apply elem_map; by exists m]. by apply bool_decide_eq_false in E.
Qed.

(** ** Plans *)

(** What an operation of a plan does: one provider transaction (or none, when it
    is formal), one backfill, or the ledger entry of a manifest. *)
Inductive Task : Set :=
| Transaction (source target : ManagedSchemaState) (us : list StatementUnit) (formal : bool)
| Data (program : AttributeBackfillPlan) (direction : BackfillExecutionDirection)
| Checkpoint.

(** A plan as the protocol sees it: manifests, each with a body of operations and
    a checkpoint, where the journal keeps the events of an operation, and what a
    journal looks like before, during and after the plan. The task of an operation
    is absent when its evidence is broken. *)
Class PlanView (Op Slot M : Type) := {
  blocks : list M;
  body : M -> list Op;
  mark : M -> Op;
  slot : Op -> Slot;
  task : Op -> option Task;
  trail : Journal -> Op -> list (GroupJournalEventKind * ExecutionFence);
  initial : Journal -> Prop;
  is_open : ExecutionFence -> Journal -> Prop;
  is_closed : Journal -> Prop }.

Definition block `{PlanView Op Slot M} (m : M) : list Op := body m ++ [mark m].
Definition ops_of `{PlanView Op Slot M} (ms : list M) : list Op := concat (map block ms).
Definition ops `{PlanView Op Slot M} : list Op := ops_of blocks.

(** What planning establishes and the database promises: the operations write to
    different places of the journal, deltas stay in one scope, and the statements
    of a transaction take the live schema from its source to its target. *)
Class PlanLaws {Live} (live_semantics : Live -> ManagedScopeBinding -> option Fingerprint.Fingerprint)
    (apply_units : Live -> list StatementUnit -> Live) `(PlanView Op Slot M) : Prop := {
  slots_distinct : NoDup (map slot ops);
  mark_checkpoint m : task (mark m) = Some Checkpoint;
  body_effective m o : o ∈ body m -> task o <> Some Checkpoint;
  task_scope o source target us formal : o ∈ ops ->
    task o = Some (Transaction source target us formal) -> scope source = scope target;
  task_lowering o source target us formal live : o ∈ ops ->
    task o = Some (Transaction source target us formal) ->
    live_semantics live (scope source) = Some (managed_semantic_schema source) ->
    live_semantics (apply_units live us) (scope target) = Some (managed_semantic_schema target);
  formal_same o source target us : o ∈ ops ->
    task o = Some (Transaction source target us true) ->
    managed_semantic_schema source = managed_semantic_schema target;
  open_mono fence fence' j : is_open fence j -> fence <= fence' -> is_open fence' j;
  open_recorded fence j : is_open fence j -> opened j <> None \/ rollback_opened j <> None;
  open_not_closed fence j : is_open fence j -> ~ is_closed j }.

(** ** Executions

    The history of an execution of some operations: each transaction that is not
    formal has committed exactly its statements, in order; a backfill was run at
    most once, and is complete only where the provider has verified its exact
    postcondition, after the run if there was one. The provider may verify a
    postcondition at any time. *)

(** At most one run of a program. *)
Definition attempted (program : AttributeBackfillPlan) (direction : BackfillExecutionDirection) (run : list Effect) : Prop :=
  run = [] \/ exists groups, run = [BackfillRun program direction groups].

Inductive executes `{PlanView Op Slot M} : list Op -> list Effect -> Prop :=
| executes_nil : executes [] []
| executes_transaction os log o source target us :
    executes os log -> task o = Some (Transaction source target us false) ->
    executes (os ++ [o]) (log ++ [GroupEffect source target us])
| executes_formal os log o source target us :
    executes os log -> task o = Some (Transaction source target us true) -> executes (os ++ [o]) log
| executes_data os log o program direction run :
    executes os log -> task o = Some (Data program direction) -> attempted program direction run ->
    executes (os ++ [o]) ((log ++ run) ++ [BackfillVerified program direction])
| executes_verified os log program direction :
    executes os log -> executes os (log ++ [BackfillVerified program direction])
| executes_checkpoint os log o : executes os log -> task o = Some Checkpoint -> executes (os ++ [o]) log.

(** The operations are executed, and perhaps one run of a program more. *)
Definition pending `{PlanView Op Slot M} (os : list Op) (program : AttributeBackfillPlan)
    (direction : BackfillExecutionDirection) (log : list Effect) : Prop :=
  exists before run, executes os before /\ attempted program direction run /\ log = before ++ run.

(** What the database has received: a prefix of the plan, and perhaps a run of the
    backfill after it whose postcondition is not verified. *)
Definition received `{PlanView Op Slot M} (os : list Op) (log : list Effect) : Prop :=
  os `prefix_of` ops /\ executes os log \/
  exists o program direction, (os ++ [o]) `prefix_of` ops /\ task o = Some (Data program direction) /\
    pending os program direction log.

(** ** Commit transitions *)

Lemma validate_app previous t t' :
  validate_commit_transitions previous (t ++ t') = Ok tt <->
  validate_commit_transitions previous t = Ok tt /\
  validate_commit_transitions (match last t with Some e => Some e | None => previous end) t' = Ok tt.
Proof.
  revert previous. induction t as [|[k f] t IH]; intros previous; cbn [app validate_commit_transitions]; [cbn; tauto|].
  destruct (valid_transition previous k f); [|naive_solver]. rewrite IH, last_cons. by destruct (last t).
Qed.

Lemma validate_snoc t k f :
  validate_commit_transitions None (t ++ [(k, f)]) = Ok tt <->
  validate_commit_transitions None t = Ok tt /\ valid_transition (last t) k f = true.
Proof.
  rewrite validate_app. cbn. destruct (last t) as [e|]; destruct (valid_transition _ k f); naive_solver.
Qed.

(** A journal the recovery accepts, written under fences up to [fence]. *)
Definition valid_trail (fence : ExecutionFence) (t : list (GroupJournalEventKind * ExecutionFence)) : Prop :=
  validate_commit_transitions None t = Ok tt /\ Forall (fun e => e.2 <= fence) t.

Lemma valid_trail_mono fence fence' t : valid_trail fence t -> fence <= fence' -> valid_trail fence' t.
Proof. intros [H1 H2] Hle. split; [done|]. eapply Forall_impl; [exact H2|]. cbn. intros. lia. Qed.

Lemma valid_trail_snoc fence t k f :
  valid_trail fence t -> valid_transition (last t) k f = true -> f <= fence -> valid_trail fence (t ++ [(k, f)]).
Proof.
  intros [H1 H2] Hv Hf. split; [by apply validate_snoc|]. apply Forall_app. split; [done|]. by constructor.
Qed.

(** Nothing follows a completion. *)
Lemma completion_final e k f : is_completion_event e.1 = true -> valid_transition (Some e) k f = false.
Proof. destruct e as [[] f']; done. Qed.

(** ** The invariant *)

Section protocol.
Context {Live : Type}.
Context (live_semantics : Live -> ManagedScopeBinding -> option Fingerprint.Fingerprint).
Context (apply_units : Live -> list StatementUnit -> Live).
Context `{V : PlanView Op Slot M}.
#[local] Abbreviation World := (World Live).
#[local] Abbreviation reads := (reads live_semantics).

Definition last_kind (j : Journal) (o : Op) : option GroupJournalEventKind := fst <$> last (trail j o).

Definition completed (j : Journal) (o : Op) : Prop :=
  exists k, last_kind j o = Some k /\ is_completion_event k = true.

Definition untouched (j : Journal) (o : Op) : Prop := trail j o = [].

Definition effective (o : Op) : Prop := task o <> Some Checkpoint.

(** The operation at the frontier: not started or proven absent, or left in doubt
    with a live schema that still tells which. *)
Definition status (w : World) (finished : list Op) (o : Op) : Prop :=
  match task o with
  | Some (Transaction source target us formal) =>
      proven_absent (last_kind (journal w) o) /\ (formal = true -> untouched (journal w) o) /\ executes finished (log w) \/
      exists k, last_kind (journal w) o = Some k /\ in_doubt k /\ formal = false /\
        (executes finished (log w) /\ reads w source \/ executes (finished ++ [o]) (log w) /\ reads w target)
  | Some (Data program direction) =>
      proven_absent (last_kind (journal w) o) /\ executes finished (log w) \/
      exists k, last_kind (journal w) o = Some k /\ in_doubt k /\
        (pending finished program direction (log w) \/ executes (finished ++ [o]) (log w))
  | Some Checkpoint | None => untouched (journal w) o /\ executes finished (log w)
  end.

Record running_at (w : World) (finished : list Op) (o : Op) (rest : list Op) : Prop := {
  ra_open : is_open (highest_fence w) (journal w);
  ra_split : ops = finished ++ o :: rest;
  ra_completed : Forall (completed (journal w)) finished;
  ra_untouched : Forall (untouched (journal w)) rest;
  ra_status : status w finished o;
  ra_valid : forall o', o' ∈ ops -> effective o' -> valid_trail (highest_fence w) (trail (journal w) o') }.

Definition idle (w : World) : Prop :=
  opened (journal w) = None /\ rollback_opened (journal w) = None /\
  events (journal w) = [] /\ step_events (journal w) = [] /\ backfill_events (journal w) = [] /\ log w = [] /\
  initial (journal w).

Definition finished (w : World) : Prop := is_closed (journal w) /\ executes ops (log w).

Definition Inv (w : World) : Prop :=
  idle w \/ (exists done_ o rest, running_at w done_ o rest) \/ finished w.

Lemma finished_with_lease w l fence : finished w -> finished (with_lease w l fence).
Proof. done. Qed.

Lemma Inv_received w : Inv w -> exists done_, received done_ (log w).
Proof.
  intros [(_ & _ & _ & _ & _ & -> & _)|[(d & o & r & [_ Hs _ _ Hst _])|(_ & H)]].
  - exists []. left. split; [apply prefix_nil|constructor].
  - assert (d `prefix_of` ops) as H1 by (rewrite Hs; by exists (o :: r)).
    assert ((d ++ [o]) `prefix_of` ops) as H2 by (rewrite Hs; exists r; by rewrite <- app_assoc).
    assert (executes d (log w) \/ executes (d ++ [o]) (log w) \/ exists program direction,
      task o = Some (Data program direction) /\ pending d program direction (log w)) as [He|[He|(p & dir & Ht & He)]].
    { unfold status in Hst. destruct (task o) as [[]|]; naive_solver. }
    + exists d. by left.
    + exists (d ++ [o]). by left.
    + exists d. right. by exists o, p, dir.
  - exists ops. by left.
Qed.

(** The operation at the frontier is not known to be complete. *)
Lemma status_incomplete w d o k : status w d o -> last_kind (journal w) o = Some k -> is_completion_event k = false.
Proof using Type.
  intros Hst E. unfold status in Hst.
  assert (untouched (journal w) o -> False) as Hu by (unfold untouched, last_kind in *; by intros H; rewrite H in E).
  destruct (task o) as [[source target us formal|program direction|]|]; [| |by destruct Hst as [?%Hu _]..].
  - destruct Hst as [(Hp & _ & _)|(k' & Hk' & Hd & _)]; rewrite E in *; [by destruct Hp as [?|[= ->]]|].
    injection Hk' as ->. by destruct Hd as [->| ->].
  - destruct Hst as [[Hp _]|(k' & Hk' & Hd & _)]; rewrite E in *; [by destruct Hp as [?|[= ->]]|].
    injection Hk' as ->. by destruct Hd as [->| ->].
Qed.

(** ** Blocks *)

Lemma ops_of_app ms ms' : ops_of (ms ++ ms') = ops_of ms ++ ops_of ms'.
Proof using Type. unfold ops_of. by rewrite map_app, concat_app. Qed.

Lemma elem_ops_of ms o : o ∈ ops_of ms <-> exists m, m ∈ ms /\ (o ∈ body m \/ o = mark m).
Proof using Type.
  induction ms as [|m ms IH]; [cbn; set_solver|].
  change (ops_of (m :: ms)) with (block m ++ ops_of ms). unfold block.
  rewrite !elem_of_app, list_elem_of_singleton, IH. setoid_rewrite elem_of_cons. naive_solver.
Qed.

Lemma last_ops_of ms : ms <> [] -> exists m, m ∈ ms /\ last (ops_of ms) = Some (mark m).
Proof using Type.
  induction ms as [|m ms IH]; [done|]. intros _. change (ops_of (m :: ms)) with (block m ++ ops_of ms). unfold block.
  destruct ms as [|m' ms].
  - exists m. split; [apply list_elem_of_here|]. cbn. by rewrite app_nil_r, last_snoc.
  - destruct (IH ltac:(done)) as (x & Hx & Hl). exists x. split; [by apply list_elem_of_further|]. by rewrite last_app, Hl.
Qed.

Lemma ops_of_nonempty ms : ms <> [] -> ops_of ms <> [].
Proof using Type. intros (m & _ & H)%last_ops_of E. by rewrite E in H. Qed.

Context {L : PlanLaws live_semantics apply_units V}.
#[local] Abbreviation wp := (wp live_semantics apply_units Inv finished).
#[local] Abbreviation guarantee := (guarantee Inv finished).

Lemma Inv_with_lease w l fence : Inv w -> highest_fence w <= fence -> Inv (with_lease w l fence).
Proof.
  intros [H|[(d & o & r & [H1 H2 H3 H4 H5 H6])|H]] Hf; [by left| |by right; right].
  right. left. exists d, o, r. split; [by apply (open_mono (highest_fence w))|done..|].
  intros o' Hin He. by apply (valid_trail_mono (highest_fence w)); [apply H6|].
Qed.

(** ** The frontier and the checkpoints *)

Lemma running_slots w d o rest o' : running_at w d o rest -> o' ∈ d ++ rest -> o' ∈ ops /\ slot o' <> slot o.
Proof.
  intros [_ Hs _ _ _ _] Hin. pose proof slots_distinct as Hn. rewrite Hs in Hn |- *. split; [set_solver|].
  rewrite map_app in Hn. cbn in Hn. intros E. apply NoDup_app in Hn as (_ & Hdis & Hn). apply NoDup_cons in Hn as [Hno _].
  assert (forall os, o' ∈ os -> slot o' ∈ map slot os) as Hmap
    by (intros os H; change (map slot os) with (slot <$> os); by apply list_elem_of_fmap_2).
  apply elem_of_app in Hin as [Hin|Hin].
  - apply (Hdis (slot o')); [by apply Hmap|]. rewrite E. set_solver.
  - apply Hno. rewrite <- E. by apply Hmap.
Qed.

Lemma rest_has_mark w pre o o2 rest :
  running_at w pre o (o2 :: rest) -> exists m, m ∈ blocks /\ mark m ∈ o2 :: rest.
Proof using Type.
  intros [_ Hs _ _ _ _]. unfold ops in Hs. destruct (last_ops_of blocks) as (m & Hm & Hl).
  { intros E. rewrite E in Hs. by destruct pre. }
  exists m. split; [done|]. rewrite Hs, last_app_cons, last_cons_cons in Hl. by apply last_Some_elem_of in Hl.
Qed.

(** With the checkpoint at the frontier, every manifest is complete exactly when
    nothing is left. *)
Lemma marks_complete w pre o rest :
  running_at w pre o rest ->
  (forall m, m ∈ blocks -> ~ untouched (journal w) (mark m) \/ slot (mark m) = slot o) -> rest = [].
Proof.
  intros Hr Hall. destruct rest as [|o2 rest]; [done|]. exfalso.
  destruct (rest_has_mark w pre o o2 rest Hr) as (m & Hm & Hin).
  destruct (Hall m Hm) as [H|H].
  - apply H. destruct Hr as [_ _ _ Hu _ _]. rewrite Forall_forall in Hu. by apply Hu.
  - destruct (running_slots w pre o (o2 :: rest) (mark m) Hr) as [_ Hne]; [set_solver|done].
Qed.

Lemma marks_done w pre m0 m :
  running_at w pre (mark m0) [] -> m ∈ blocks -> ~ untouched (journal w) (mark m) \/ mark m = mark m0.
Proof using Type.
  intros [_ Hs Hc _ _ _] Hm. assert (mark m ∈ pre ++ [mark m0]) as Hin.
  { rewrite <- Hs. apply elem_ops_of. exists m. by auto. }
  apply elem_of_app in Hin as [Hin|Hin]; [left|right; by apply list_elem_of_singleton in Hin].
  rewrite Forall_forall in Hc. destruct (Hc _ Hin) as (k & Hk & _). unfold last_kind, untouched in *.
  intros E. by rewrite E in Hk.
Qed.

(** The frontier of an open plan lies after the manifests that are complete. *)
Lemma resume_split w d o rest n :
  running_at w d o rest ->
  (forall i m, blocks !! i = Some m -> (i < n)%nat <-> ~ untouched (journal w) (mark m)) ->
  exists skipped, d = ops_of (firstn n blocks) ++ skipped /\
    ops_of (skipn n blocks) = skipped ++ o :: rest /\ Forall effective skipped.
Proof.
  intros [_ Hs Hd Hu Hst _] Hn. rewrite Forall_forall in Hd, Hu.
  assert (forall m, m ∈ firstn n blocks -> ~ untouched (journal w) (mark m)) as Hfirst.
  { intros m (i & Hi)%list_elem_of_lookup. apply lookup_take_Some in Hi as [Hi Hlt]. by apply (Hn i). }
  assert (forall m, m ∈ skipn n blocks -> untouched (journal w) (mark m)) as Hlater.
  { intros m (i & Hi)%list_elem_of_lookup. rewrite lookup_drop in Hi. unfold untouched.
    destruct (trail (journal w) (mark m)) eqn:E; [done|]. assert ((n + i < n)%nat); [|lia].
    apply (Hn _ m Hi). unfold untouched. by rewrite E. }
  assert (task o = Some Checkpoint -> untouched (journal w) o) as Hcp.
  { intros E. unfold status in Hst. rewrite E in Hst. apply Hst. }
  unfold ops in Hs. rewrite <- (take_drop n blocks), ops_of_app in Hs. symmetry in Hs.
  assert (exists skipped, d = ops_of (firstn n blocks) ++ skipped /\
    ops_of (skipn n blocks) = skipped ++ o :: rest) as (skipped & Hd1 & Hd2).
  { apply app_eq_inv in Hs as [(k & Ek & Er)|(k & Ek & Er)]; [by exists k|].
    destruct k as [|o' k]; [exists []; rewrite app_nil_r in Ek |- *; by subst|]. injection Er as <- Er.
    destruct (last_ops_of (firstn n blocks)) as (m & Hm & Hl).
    { intros E. rewrite E in Ek. by destruct d. }
    rewrite Ek, last_app_cons in Hl. apply last_Some_elem_of in Hl. exfalso. apply (Hfirst m Hm).
    apply elem_of_cons in Hl as [<-|Hl]; [apply Hcp, mark_checkpoint|]. apply Hu. rewrite Er. set_solver. }
  exists skipped. split_and!; [done..|]. rewrite Forall_forall. intros x Hin Hx.
  assert (x ∈ ops_of (skipn n blocks)) as (m & Hm & [Hb| ->])%elem_ops_of by (rewrite Hd2; set_solver).
  { by apply (body_effective m x). }
  destruct (Hd (mark m)) as (k & Hk & _); [rewrite Hd1; set_solver|].
  pose proof (Hlater m Hm) as Hun. unfold last_kind in Hk. unfold untouched in Hun. by rewrite Hun in Hk.
Qed.

(** ** Progress, as the validation of an interrupted plan sees it *)

Section progress.
Context (j : Journal) (key : Op -> Z).

Definition progress_of (os : list Op) : list (Z * list (GroupJournalEventKind * ExecutionFence)) :=
  map (fun o => (key o, trail j o)) os.

Definition accepted (o : Op) : Prop := validate_commit_transitions None (trail j o) = Ok tt.

Lemma progress_completed os todo all_complete :
  Forall accepted os -> Forall (completed j) os ->
  validate_progress false all_complete (progress_of os ++ todo) = validate_progress false all_complete todo.
Proof using Type.
  intros Hv Hc. induction Hv as [|o os Ho Hv IH]; [done|]. apply Forall_cons in Hc as [(k & Hk & Hck) Hc].
  cbn [progress_of map app validate_progress]. rewrite Ho.
  unfold last_kind in Hk. destruct (last (trail j o)) as [[k' f]|]; [|done]. injection Hk as ->. rewrite Hck. by apply IH.
Qed.

Lemma progress_untouched os closed all_complete :
  Forall (untouched j) os -> exists complete, validate_progress closed all_complete (progress_of os) = Ok complete.
Proof using Type.
  intros Hu. revert closed all_complete. induction Hu as [|o os Ho Hu IH]; intros closed all_complete; [by eexists|].
  unfold untouched in Ho. cbn. rewrite Ho. apply IH.
Qed.

(** The operation at the frontier closes the progress. *)
Lemma progress_frontier o os all_complete :
  accepted o -> (forall k, last_kind j o = Some k -> is_completion_event k = false) -> Forall (untouched j) os ->
  exists complete, validate_progress false all_complete (progress_of (o :: os)) = Ok complete.
Proof using Type.
  intros Ho Hk Hu. cbn [progress_of map validate_progress]. rewrite Ho. unfold last_kind in Hk.
  destruct (last (trail j o)) as [[k f]|]; [rewrite (Hk k eq_refl)|]; by apply progress_untouched.
Qed.
End progress.

(** The manifest of the frontier. *)
Lemma frontier_split ms d o rest :
  ops_of ms = d ++ o :: rest ->
  exists n m skipped after, ms !! n = Some m /\ d = ops_of (firstn n ms) ++ skipped /\
    block m = skipped ++ o :: after /\ rest = after ++ ops_of (skipn (S n) ms).
Proof using Type.
  revert d. induction ms as [|m ms IH]; intros d H; [by destruct d|].
  change (ops_of (m :: ms)) with (block m ++ ops_of ms) in H.
  assert (forall d', ops_of ms = d' ++ o :: rest -> d = block m ++ d' -> exists n m' skipped after,
    (m :: ms) !! n = Some m' /\ d = ops_of (firstn n (m :: ms)) ++ skipped /\
    block m' = skipped ++ o :: after /\ rest = after ++ ops_of (skipn (S n) (m :: ms))) as Hnext.
  { intros d' (n & m' & sk & af & Hn & -> & Hb & Hr)%IH ->. exists (S n), m', sk, af. split_and!; [done| |done|done].
    change (firstn (S n) (m :: ms)) with (m :: firstn n ms).
    change (ops_of (m :: firstn n ms)) with (block m ++ ops_of (firstn n ms)). by rewrite app_assoc. }
  apply app_eq_inv in H as [(k & Ek & Er)|(k & Ek & Er)]; [|by apply (Hnext k)].
  destruct k as [|x k]; [apply (Hnext []); [done|by rewrite app_nil_r in Ek |- *]|]. injection Er as <- ->.
  exists O, m, d, k. by split_and!.
Qed.

Lemma ops_of_lookup ms i m o : ms !! i = Some m -> o ∈ block m -> o ∈ ops_of ms.
Proof using Type.
  intros Hi Ho. apply elem_ops_of. exists m. split; [by eapply list_elem_of_lookup_2|].
  unfold block in Ho. apply elem_of_app in Ho as [?|?%list_elem_of_singleton]; by auto.
Qed.

Lemma running_progress w d o rest (key : Op -> Z) :
  running_at w d o rest -> exists n, (n < length blocks)%nat /\ forall i m, blocks !! i = Some m ->
    ((i < n)%nat <-> ~ untouched (journal w) (mark m)) /\
    ((n < i)%nat -> Forall (untouched (journal w)) (body m)) /\
    exists complete, validate_progress false true (progress_of (journal w) key (body m)) = Ok complete /\
      ((i < n)%nat -> complete = true).
Proof.
  intros [_ Hs Hd Hu Hst Hv]. destruct (frontier_split blocks d o rest Hs) as (n & m0 & sk & af & Hn & -> & Hb & ->).
  rewrite Forall_forall in Hd, Hu. exists n. split; [by eapply lookup_lt_Some|]. intros i m Hi.
  assert (forall o', o' ∈ body m -> accepted (journal w) o') as Hacc.
  { intros o' Ho'. apply Hv; [|by eapply body_effective]. eapply ops_of_lookup; [exact Hi|]. unfold block. set_solver. }
  assert (mark m ∈ block m) as Hmark by (unfold block; set_solver).
  assert (forall o', o' ∈ body m -> o' ∈ block m) as Hbody by (unfold block; set_solver).
  destruct (Nat.lt_trichotomy i n) as [Hlt|[->|Hlt]].
  - assert (forall o', o' ∈ block m -> completed (journal w) o') as Hc.
    { intros o' Ho'. apply Hd, elem_of_app. left. apply (ops_of_lookup _ i m); [by rewrite lookup_take_lt|done]. }
    split_and!; [|lia|exists true; split; [|done]].
    + split; [|done]. intros _ E. destruct (Hc _ Hmark) as (k & Hk & _). unfold last_kind in Hk. by rewrite E in Hk.
    + rewrite <- (app_nil_r (progress_of _ _ _)). rewrite progress_completed; [done|rewrite Forall_forall..]; by auto.
  - rewrite Hn in Hi. injection Hi as ->. unfold block in Hb.
    assert (untouched (journal w) (mark m) /\ exists complete,
      validate_progress false true (progress_of (journal w) key (body m)) = Ok complete) as [Hun Hok].
    2: { destruct Hok as [c Hok]. split_and!; [split; [lia|done]|lia|]. exists c. split; [done|lia]. }
    assert (Forall (completed (journal w)) sk) as Hsk by (rewrite Forall_forall; intros; apply Hd; set_solver).
    destruct af as [|a af' _] using rev_ind.
    + apply app_inj_tail in Hb as [Hbody' <-]. unfold status in Hst. rewrite mark_checkpoint in Hst. split; [apply Hst|].
      exists true. rewrite <- (app_nil_r (progress_of _ _ _)).
      rewrite progress_completed; [done|by rewrite Forall_forall|by rewrite Hbody'].
    + rewrite app_comm_cons, app_assoc in Hb. apply app_inj_tail in Hb as [Hbody' <-].
      split; [apply Hu; set_solver|]. rewrite Hbody' in Hacc |- *. unfold progress_of. rewrite map_app.
      fold (progress_of (journal w) key sk). rewrite progress_completed; [|rewrite Forall_forall; intros; apply Hacc; set_solver|done].
      apply progress_frontier; [apply Hacc; set_solver|intros k; by apply status_incomplete with (d := ops_of (firstn n blocks) ++ sk)|].
      rewrite Forall_forall. intros x Hx. apply Hu. set_solver.
  - assert (forall o', o' ∈ block m -> untouched (journal w) o') as Hun.
    { intros o' Ho'. apply Hu, elem_of_app. right. apply (ops_of_lookup _ (i - S n) m); [|done].
      rewrite lookup_drop. replace (S n + (i - S n))%nat with i by lia. done. }
    assert (Forall (untouched (journal w)) (body m)) as Hall by (rewrite Forall_forall; auto).
    destruct (progress_untouched (journal w) key (body m) false true Hall) as [c Hc].
    split_and!; [split; [lia|by intros H; destruct H; auto]|done|]. exists c. split; [done|lia].
Qed.

Lemma running_Inv w d o rest : running_at w d o rest -> Inv w.
Proof using Type. intros H. right. left. by exists d, o, rest. Qed.

Lemma guarantee_same w : Inv w -> guarantee w w.
Proof using Type. done. Qed.

Lemma guarantee_running w w' d o rest : running_at w d o rest -> Inv w' -> guarantee w w'.
Proof. intros [Ho _ _ _ _ _] H. split; [done|]. intros [Hn _]. by apply open_not_closed in Ho. Qed.

(** ** Writing to the journal *)

Context (l : MigrationLease).

(** The world after one more event of an operation, written under the lease. *)
Record extends (w w' : World) (o : Op) (k : GroupJournalEventKind) : Prop := {
  ex_world : w' = with_journal w (journal w');
  ex_others : forall o', o' ∈ ops -> slot o' <> slot o -> trail (journal w') o' = trail (journal w) o';
  ex_trail : effective o -> trail (journal w') o = trail (journal w) o ++ [(k, lease_fence l)];
  ex_kind : last_kind (journal w') o = Some k;
  ex_open : is_open (highest_fence w) (journal w) -> is_open (highest_fence w) (journal w') }.

Lemma extends_executes w w' o k os : extends w w' o k -> executes os (log w') <-> executes os (log w).
Proof using Type. intros [-> _ _ _ _]. done. Qed.

Lemma extends_reads w w' o k s : extends w w' o k -> reads w' s <-> reads w s.
Proof using Type. intros [-> _ _ _ _]. done. Qed.

Lemma extends_last w w' o k :
  extends w w' o k -> effective o -> last (trail (journal w') o) = Some (k, lease_fence l).
Proof using Type. intros [_ _ Ht _ _] He. rewrite (Ht He). apply last_snoc. Qed.

(** ** Moving the frontier *)

Lemma running_frame w w' d o rest k :
  running_at w d o rest -> extends w w' o k -> highest_fence w = lease_fence l ->
  (effective o -> valid_transition (last (trail (journal w) o)) k (lease_fence l) = true) ->
  is_open (highest_fence w') (journal w') /\ Forall (completed (journal w')) d /\ Forall (untouched (journal w')) rest /\
  forall o', o' ∈ ops -> effective o' -> valid_trail (highest_fence w') (trail (journal w') o').
Proof.
  intros Hr [Hw Ho Ht _ Hop] Hf Hv. pose proof Hr as [H1 Hs Hc Hu _ Hval].
  assert (highest_fence w' = highest_fence w) as -> by (by rewrite Hw). split_and!; [by apply Hop| | |].
  1-2: rewrite Forall_forall in *; intros o' Hin;
    (destruct (running_slots w d o rest o' Hr) as [Hin' Hne]; [set_solver|]);
    unfold completed, untouched, last_kind; rewrite (Ho o' Hin' Hne); first [by apply Hc|by apply Hu].
  intros o' Hin He. assert (o' ∈ d ++ rest \/ o' = o) as [Hin'| ->].
  { rewrite Hs in Hin. apply elem_of_app in Hin as [Hin|Hin]; [left; set_solver|].
    apply elem_of_cons in Hin as [->|Hin]; [by right|left; set_solver]. }
  - destruct (running_slots w d o rest o' Hr Hin') as [_ Hne]. rewrite Ho by done. by apply Hval.
  - rewrite (Ht He). apply valid_trail_snoc; [by apply Hval|by apply Hv|lia].
Qed.

Lemma running_stay w w' d o rest k :
  running_at w d o rest -> extends w w' o k -> highest_fence w = lease_fence l ->
  (effective o -> valid_transition (last (trail (journal w) o)) k (lease_fence l) = true) ->
  status w' d o -> running_at w' d o rest.
Proof.
  intros Hr Hx Hf Hv Hst. destruct (running_frame w w' d o rest k Hr Hx Hf Hv) as (? & ? & ? & ?).
  destruct Hr as [_ Hs _ _ _ _]. by split.
Qed.

Lemma status_untouched w d o : untouched (journal w) o -> executes d (log w) -> status w d o.
Proof using Type.
  intros Hu He. unfold status. assert (proven_absent (last_kind (journal w) o)) as Hp.
  { left. unfold last_kind. unfold untouched in Hu. by rewrite Hu. }
  destruct (task o) as [[]|]; [left..|done|done]; done.
Qed.

Lemma running_advance w w' d o o2 rest k :
  running_at w d o (o2 :: rest) -> extends w w' o k -> highest_fence w = lease_fence l ->
  (effective o -> valid_transition (last (trail (journal w) o)) k (lease_fence l) = true) ->
  is_completion_event k = true -> executes (d ++ [o]) (log w) -> running_at w' (d ++ [o]) o2 rest.
Proof.
  intros Hr Hx Hf Hv Hk He. destruct (running_frame w w' d o _ k Hr Hx Hf Hv) as (H1 & H2 & H3 & H4).
  destruct Hr as [_ Hs _ _ _ _]. apply Forall_cons in H3 as [Hu2 H3].
  split; [done|by rewrite <- app_assoc| |done| |done].
  - apply Forall_app. split; [done|]. constructor; [|done]. exists k. split; [apply Hx|done].
  - apply status_untouched; [done|]. by rewrite (extends_executes _ _ _ _ _ Hx).
Qed.

(** ** The executor's position *)

Context (known : Op -> option GroupJournalEventKind).

(** The snapshot loaded at the start still tells the last event of an operation,
    and nothing was written for it under this lease. *)
Definition synced (w : World) (o : Op) : Prop :=
  effective o -> known o = last_kind (journal w) o /\ Forall (fun e => e.2 < lease_fence l) (trail (journal w) o).

(** The executor is about to visit [todo]: first operations the snapshot knows to
    be complete, then the frontier. *)
Record cursor (w : World) (todo : list Op) (seen : option ManagedSchemaState) : Prop := {
  cu_active : active w = Some l;
  cu_fence : highest_fence w = lease_fence l;
  cu_at : exists pre skipped o rest, running_at w (pre ++ skipped) o rest /\ todo = skipped ++ o :: rest /\
    (skipped = [] \/ seen = None) /\ Forall effective skipped;
  cu_synced : Forall (synced w) todo;
  cu_reads : forall s, seen = Some s -> reads w s }.

Lemma cursor_Inv w todo seen : cursor w todo seen -> Inv w.
Proof using Type. intros [_ _ (pre & sk & o & rest & H & _) _ _]. by eapply running_Inv. Qed.

Lemma synced_frame w w' o : trail (journal w') o = trail (journal w) o -> synced w o -> synced w' o.
Proof using Type. intros E H He. unfold last_kind. rewrite E. by apply H. Qed.

(** Past a completed operation of the snapshot. *)
Lemma cursor_skip w pre o skipped h rest seen :
  active w = Some l -> highest_fence w = lease_fence l ->
  running_at w (pre ++ o :: skipped) h rest -> (o :: skipped = [] \/ seen = None) ->
  Forall effective (o :: skipped) -> Forall (synced w) ((o :: skipped) ++ h :: rest) ->
  cursor w (skipped ++ h :: rest) seen.
Proof using Type.
  intros Ha Hf Hr [?| ->] Hc Hs; [done|]. cbn in Hs. apply Forall_cons in Hs as [_ Hs], Hc as [_ Hc]. split; [done|done| |done|done].
  exists (pre ++ [o]), skipped, h, rest. rewrite <- app_assoc. split_and!; try done. by right.
Qed.

Lemma synced_others w w' pre o rest k :
  running_at w pre o rest -> extends w w' o k -> Forall (synced w) rest -> Forall (synced w') rest.
Proof.
  intros Hr [_ Ho _ _ _] Hs. rewrite Forall_forall in Hs |- *. intros o' Hin. apply synced_frame with w; [|by apply Hs].
  destruct (running_slots w pre o rest o' Hr); [set_solver|]. by apply Ho.
Qed.

(** Past the frontier, once its completion is in the journal. *)
Lemma cursor_advance w w' pre o o2 todo k s :
  active w = Some l -> highest_fence w = lease_fence l ->
  running_at w pre o (o2 :: todo) -> extends w w' o k ->
  (effective o -> valid_transition (last (trail (journal w) o)) k (lease_fence l) = true) ->
  is_completion_event k = true -> executes (pre ++ [o]) (log w) -> Forall (synced w) (o2 :: todo) ->
  (forall t, s = Some t -> reads w t) -> Inv w' /\ cursor w' (o2 :: todo) s.
Proof.
  intros Ha Hf Hr Hx Hv Hk He Hs Hrd. pose proof (running_advance w w' pre o o2 todo k Hr Hx Hf Hv Hk He) as Hr'.
  pose proof Hx as [Hw _ _ _ _]. split; [by eapply running_Inv|]. split; [by rewrite Hw|by rewrite Hw| | |].
  - exists (pre ++ [o]), [], o2, todo. rewrite app_nil_r. split_and!; [done..|by left|constructor].
  - by eapply synced_others.
  - intros t Ht. apply (extends_reads _ _ _ _ _ Hx). by apply Hrd.
Qed.

(** Past a checkpoint: the last one closes the plan. *)
Lemma checkpoint_advance w j pre o todo seen :
  active w = Some l -> highest_fence w = lease_fence l -> running_at w pre o todo ->
  task o = Some Checkpoint -> Forall (synced w) todo -> (forall s, seen = Some s -> reads w s) ->
  (todo = [] -> is_closed j) -> (todo <> [] -> extends w (with_journal w j) o Committed) ->
  Inv (with_journal w j) /\ match todo with [] => finished (with_journal w j) | _ => cursor (with_journal w j) todo seen end.
Proof.
  intros Ha Hf Hr Ho Hs Hk Hlast Hmore. pose proof Hr as [_ Hsplit _ _ Hst _]. unfold status in Hst. rewrite Ho in Hst.
  destruct Hst as [_ He]. assert (executes (pre ++ [o]) (log w)) as He' by (by apply executes_checkpoint).
  destruct todo as [|o2 todo].
  - assert (finished (with_journal w j)) as Hfin; [|split; [by right; right|done]].
    split; [by apply Hlast|]. cbn. by rewrite Hsplit.
  - apply (cursor_advance w (with_journal w j) pre o o2 todo Committed seen); try done. by apply Hmore.
Qed.

(** A plan resumed, and a plan opened now. *)
Lemma resume_cursor w n :
  (exists d o rest, running_at w d o rest) -> active w = Some l -> highest_fence w = lease_fence l ->
  (forall i m, blocks !! i = Some m -> (i < n)%nat <-> ~ untouched (journal w) (mark m)) ->
  (forall o, o ∈ ops -> synced w o) ->
  match skipn n blocks with [] => finished w | _ => cursor w (ops_of (skipn n blocks)) None end.
Proof.
  intros (d & o & rest & Hr) Ha Hf Hn Hs. destruct (resume_split w d o rest n Hr Hn) as (skipped & Hd & Hop & Hnc).
  destruct (skipn n blocks) as [|m ms] eqn:E; [by destruct skipped|]. rewrite Hop. split; [done|done| | |done].
  - exists (ops_of (firstn n blocks)), skipped, o, rest. rewrite <- Hd. split_and!; try done. by right.
  - rewrite Forall_forall. intros x Hx. apply Hs. unfold ops. rewrite <- (take_drop n blocks), ops_of_app, E, Hop. set_solver.
Qed.

Lemma begin_cursor w' s :
  active w' = Some l -> highest_fence w' = lease_fence l -> is_open (highest_fence w') (journal w') -> executes [] (log w') ->
  blocks <> [] -> (forall o, o ∈ ops -> untouched (journal w') o) -> (forall o, effective o -> known o = None) ->
  (forall t, s = Some t -> reads w' t) -> Inv w' /\ cursor w' (ops_of blocks) s.
Proof using Type.
  intros Ha Hf Ho He Hne Hu Hk Hs. destruct (ops_of blocks) as [|o rest] eqn:E; [by apply ops_of_nonempty in E|].
  assert (running_at w' [] o rest) as Hr.
  { split; [done|done|constructor| | |].
    - rewrite Forall_forall. intros x Hx. apply Hu. unfold ops. rewrite E. by apply list_elem_of_further.
    - apply status_untouched; [|done]. apply Hu. unfold ops. rewrite E. apply list_elem_of_here.
    - intros x Hx _. rewrite (Hu x Hx). split; [done|constructor]. }
  split; [by eapply running_Inv|]. split; [done|done| | |done].
  - exists [], [], o, rest. split_and!; try done. by left.
  - rewrite Forall_forall. intros x Hx Heff. assert (x ∈ ops) as Hin by (unfold ops; by rewrite E).
    unfold last_kind. rewrite (Hu x Hin). split; [by apply Hk|constructor].
Qed.

(** ** Operations that change nothing *)

Context (control : MigrationExecutionControl).
#[local] Ltac keep := split; [by apply guarantee_same|].

Lemma wp_await {A} w (future : Prog (result Diagnostic A)) Q :
  Inv w -> wp future Q w -> (forall e, Q (Err e) w) -> wp (await_interruptible_operation control future) Q w.
Proof using Type.
  intros HI Hf He. apply wp_bind_ok. cbn. intros [u|e] w' ->; keep; [|done].
  intros [] w' [-> _]; keep; [done| |apply He]. intros [u'|e] w' ->; keep; apply He.
Qed.

Lemma wp_rollback {A} w tx e (Q : result Diagnostic A -> World -> Prop) :
  Inv w -> (forall e, Q (Err e) w) -> wp (rollback_prepared_group_error tx e) Q w.
Proof using Type. intros HI He. cbn. intros r w' ->. keep. apply He. Qed.

(** A stage of a transaction that changes neither the world nor the statements. *)
Definition passive (stage : PreparedGroup -> Prog (result Diagnostic PreparedGroup)) : Prop :=
  forall w tx, Inv w -> wp (stage tx) (fun r w' => w' = w /\ forall tx', r = Ok tx' -> tx' = tx) w.

Lemma wp_assertions assertions : passive (fun tx => execute_assertions control tx assertions).
Proof using Type.
  intros w tx HI. induction assertions as [|s assertions IH]; cbn [execute_assertions]; [cbn; naive_solver|].
  destruct (validated_assertion s) as [v|]; [|done]. apply wp_bind, wp_await; [done| |].
  - cbn. intros [tx'|e] w' [-> Htx]; keep; [by subst tx'|by apply wp_rollback].
  - intros e. by apply wp_rollback.
Qed.

Lemma wp_units w us tx :
  Inv w ->
  wp (execute_units control tx us)
    (fun r w' => w' = w /\ forall tx', r = Ok tx' ->
       tx' = prepared_group (tx_source tx) (tx_target tx) (tx_units tx ++ us)) w.
Proof using Type.
  intros HI. revert tx. induction us as [|u us IH]; intros tx; cbn [execute_units].
  { cbn. split; [done|]. intros tx' [= <-]. destruct tx. cbn. by rewrite app_nil_r. }
  apply wp_bind, wp_await; [done| |].
  - cbn. intros [tx'|e] w' [-> Htx]; keep; [|by apply wp_rollback].
    subst tx'. eapply wp_mono; [apply IH|]. cbn. intros r w' [-> Hr]. split; [done|]. intros tx' E. apply Hr in E.
    by rewrite <- app_assoc in E.
  - intros e. by apply wp_rollback.
Qed.

(** ** Standing at an operation *)

(** The outcomes of an executor, and which of them report success. *)
Context {O : Type} (success : O -> Prop).

Section standing.
Context (here : Op) (pre : list Op) (o2 : Op) (todo : list Op).

(** The executor stands at this operation; the snapshot is only consulted again
    for the operations after it. *)
Record standing (w : World) : Prop := {
  st_active : active w = Some l;
  st_fence : highest_fence w = lease_fence l;
  st_running : running_at w pre here (o2 :: todo);
  st_synced : Forall (synced w) (o2 :: todo) }.

Lemma standing_Inv w : standing w -> Inv w.
Proof using Type. intros [_ _ H _]. by eapply running_Inv. Qed.

Lemma standing_here w : standing w -> here ∈ ops.
Proof using Type.
  intros [_ _ [_ -> _ _ _ _] _]. apply elem_of_app. right. apply list_elem_of_here.
Qed.

(** Standing is kept by events that leave the operation at the frontier. *)
Lemma extends_standing w w' k :
  standing w -> extends w w' here k ->
  (effective here -> valid_transition (last (trail (journal w) here)) k (lease_fence l) = true) ->
  status w' pre here -> standing w'.
Proof.
  intros [Ha Hf Hr Hs] Hx Hv Hst. pose proof Hx as [Hw _ _ _ _].
  split; [by rewrite Hw|by rewrite Hw|by eapply running_stay|by eapply synced_others].
Qed.

(** Standing is kept by effects that leave the operation at the frontier. *)
Lemma effect_standing w after e :
  standing w -> status (with_effect w after e) pre here -> standing (with_effect w after e).
Proof using Type. intros [Ha Hf [H1 H2 H3 H4 _ H6] Hs] Hst. by split. Qed.

(** An acknowledged write is durable; a failed one may be. *)
Lemma writes_extends {A : Set} w valid (e : A) j (r : result Diagnostic A) w' :
  standing w -> Inv (with_journal w j) -> writes w l valid e j r w' ->
  guarantee w w' /\ match r with Ok _ => w' = with_journal w j | Err _ => w' = w \/ w' = with_journal w j end.
Proof.
  intros Hst HI Hc. assert (w' = w \/ w' = with_journal w j) as Hw' by (destruct r; cbn in Hc; naive_solver).
  split; [|destruct r; cbn in Hc; naive_solver].
  destruct Hw' as [->| ->]; [by eapply guarantee_same, standing_Inv|by eapply guarantee_running; [apply Hst|]].
Qed.

(** How an executor records an event of this operation: a failed write leaves it
    unrecorded or recorded. *)
Definition recorder {X S} (record : GroupJournalEventKind -> X ->
    (Diagnostic -> Prog (result Diagnostic (Flow O S))) -> Prog (result Diagnostic (Flow O S)) ->
    Prog (result Diagnostic (Flow O S))) : Prop :=
  forall w k x failed next (Q : result Diagnostic (Flow O S) -> World -> Prop),
    standing w ->
    (forall w', extends w w' here k -> Inv w' /\ wp next Q w') ->
    (forall e w', w' = w \/ extends w w' here k -> wp (failed e) Q w') ->
    (forall e, Q (Err e) w) ->
    wp (record k x failed next) Q w.

(** Any record built by a fallible constructor and written by one operation. *)
Lemma build_recorder {X S} {R : Set} (build : GroupJournalEventKind -> X -> result Diagnostic R)
    (write : R -> Prog (result Diagnostic (JournalEntry R))) (valid : World -> Prop) (add : Journal -> R -> Journal) :
  (forall w k x r, standing w -> build k x = Ok r -> extends w (with_journal w (add (journal w) r)) here k) ->
  (forall w r Q, (forall r' w', writes w l (valid w) (next_entry (journal w) r) (add (journal w) r) r' w' ->
                    guarantee w w' /\ Q r' w') -> wp (write r) Q w) ->
  @recorder X S (fun k x failed next =>
    match build k x with
    | Err e => Ret (Err e)
    | Ok event => bind (write event) (fun r => match r with Err e => failed e | Ok _ => next end)
    end).
Proof.
  intros Hb Hw w k x failed next Q Hst Hn Hf He. destruct (build k x) as [r|e] eqn:Er; [|apply He].
  apply (Hb w) in Er; [|done]. destruct (Hn _ Er) as [HI Hwp].
  apply wp_bind, Hw. intros r' w' Hc. eapply writes_extends in Hc as [Hg Hc]; [|done..]. split; [done|].
  destruct r' as [e|e]; [by subst w'|]. apply Hf. destruct Hc as [->| ->]; by auto.
Qed.

Definition arrived (r : result Diagnostic (Flow O (option ManagedSchemaState))) (w : World) : Prop :=
  match r with Ok (Next seen) => cursor w (o2 :: todo) seen | Ok (Return o) => ~ success o | Err _ => True end.

End standing.
#[local] Arguments st_running {here pre o2 todo} w _.
#[local] Arguments standing_Inv {here pre o2 todo} w _.
#[local] Arguments extends_standing {here pre o2 todo} w w' k _ _ _ _.

(** ** Transactions *)

Lemma reads_same (w : World) s t :
  reads w s -> reads w t -> scope s = scope t -> managed_semantic_schema s = managed_semantic_schema t.
Proof using Type. unfold Fencing.reads. intros H1 H2 E. rewrite E in H1. congruence. Qed.

Lemma reads_transfer (w : World) s t :
  reads w s -> scope s = scope t -> managed_semantic_schema s = managed_semantic_schema t -> reads w t.
Proof using Type. unfold Fencing.reads. intros H E1 E2. by rewrite <- E1, <- E2. Qed.

Section transaction.
Context (retry explicit : Diagnostic -> O).
Context (record : GroupJournalEventKind -> option Fingerprint.Fingerprint ->
  (Diagnostic -> Prog (result Diagnostic (Flow O (option ManagedSchemaState)))) ->
  Prog (result Diagnostic (Flow O (option ManagedSchemaState))) ->
  Prog (result Diagnostic (Flow O (option ManagedSchemaState)))).
Context (source target : ManagedSchemaState) (us : list StatementUnit) (formal : bool).
Context (check : PreparedGroup -> Prog (result Diagnostic PreparedGroup)).

Definition conclude : Prog (result Diagnostic (Flow O (option ManagedSchemaState))) :=
  record Committed (Some (managed_semantic_schema target)) (fun e => Ret (Ok (Return (retry e))))
    (Ret (Ok (Next (Some target)))).

(** The commit of a prepared transaction and what its answer allows. *)
Definition commit_transaction (tx : PreparedGroup) : Prog (result Diagnostic (Flow O (option ManagedSchemaState))) :=
  let! answer := perform (Commit tx l) in
  match answer with
  | Ok _ =>
      let! observed := perform (ObserveManagedState l source target) in
      match observed with
      | Ok observed =>
          if bool_decide (observed = target) then conclude
          else Ret (Ok (Return (explicit (stable Integrity "migration_execution_commit_target_mismatch"))))
      | Err e => Ret (Ok (Return (retry e)))
      end
  | Err failure =>
      record (journal_event (certainty failure)) None
        (fun e => match certainty failure with
                  | DefinitelyAborted => Ret (Ok (Return (retry e)))
                  | Unknown => Ret (Ok (Return (explicit e)))
                  end)
        (if bool_decide (certainty failure = DefinitelyAborted)
         then Ret (Ok (Return (retry (failure_diagnostic failure)))) else
         let! after := perform (ObserveManagedState l source target) in
         match after with
         | Err e => Ret (Ok (Return (explicit e)))
         | Ok after =>
             match decide_group_recovery (Some CommitOutcomeUnknown) (exact_observation after source target)
                     (managed_semantic_schema source) (managed_semantic_schema target) with
             | ExecuteNormally => Ret (Ok (Return (retry (failure_diagnostic failure))))
             | RequiresExplicitRecovery => Ret (Ok (Return (explicit (failure_diagnostic failure))))
             | RepairCheckpoint => conclude
             end
         end)
  end.

Definition perform_transaction : Prog (result Diagnostic (Flow O (option ManagedSchemaState))) :=
  if formal
  then record FormalOnlyAdvanced None (fun e => Ret (Ok (Return (retry e)))) (Ret (Ok (Next (Some target))))
  else
    try! tx := await_interruptible_operation control (perform (PrepareGroup l source target)) in
    try! tx := check tx in
    try! tx := execute_units control tx us in
    record BeforeCommit None (rollback_prepared_group_error tx) (commit_transaction tx).

(** An operation the journal does not know to be complete. *)
Definition visit_transaction (last_event : option GroupJournalEventKind) (observed : option ManagedSchemaState)
    : Prog (result Diagnostic (Flow O (option ManagedSchemaState))) :=
  try! observed :=
    match observed with
    | Some observed => Ret (Ok observed)
    | None => await_interruptible_operation control (perform (ObserveManagedState l source target))
    end in
  match decide_group_recovery last_event (exact_observation observed source target)
          (managed_semantic_schema source) (managed_semantic_schema target) with
  | RequiresExplicitRecovery =>
      Ret (Ok (Return (explicit (stable Integrity "migration_execution_ambiguous_group_state"))))
  | RepairCheckpoint => conclude
  | ExecuteNormally => perform_transaction
  end.

Context (here : Op) (pre : list Op) (o2 : Op) (todo : list Op).
Context (Htask : task here = Some (Transaction source target us formal)).
Context (Hretry : forall e, ~ success (retry e)) (Hexplicit : forall e, ~ success (explicit e)).
Context (Hrecord : recorder here pre o2 todo record) (Hcheck : passive check).
#[local] Abbreviation standing := (standing here pre o2 todo).
#[local] Abbreviation arrived := (arrived o2 todo).

Lemma here_effective : effective here.
Proof using Htask. unfold effective. congruence. Qed.

(** Either side of a commit in doubt. *)
Definition either (w : World) : Prop :=
  executes pre (log w) /\ reads w source \/ executes (pre ++ [here]) (log w) /\ reads w target.

Lemma either_extends w w' k : extends w w' here k -> either w -> either w'.
Proof using Type.
  intros Hx [[H1 H2]|[H1 H2]]; [left|right];
    rewrite (extends_executes _ _ _ _ _ Hx), (extends_reads _ _ _ _ _ Hx); done.
Qed.

Lemma status_doubt w k :
  last_kind (journal w) here = Some k -> in_doubt k -> formal = false -> either w -> status w pre here.
Proof using Htask. intros H1 H2 H3 H4. unfold status. rewrite Htask. right. by exists k. Qed.

Lemma status_aborted w :
  last_kind (journal w) here = Some EventDefinitelyAborted -> formal = false -> executes pre (log w) -> status w pre here.
Proof using Htask. intros H1 H2 H3. unfold status. rewrite Htask. left. split_and!; [by right|congruence|done]. Qed.

(** The transaction is complete: its completion is recorded and the executor goes on. *)
Lemma wp_complete w k obs seen :
  standing w -> is_completion_event k = true -> executes (pre ++ [here]) (log w) -> reads w seen ->
  valid_transition (last (trail (journal w) here)) k (lease_fence l) = true ->
  wp (record k obs (fun e => Ret (Ok (Return (retry e)))) (Ret (Ok (Next (Some seen))))) arrived w.
Proof using Hrecord Hretry L.
  intros Hst Hk He Hr Hv. apply Hrecord; [done| |by intros e w' _; apply Hretry|done]. intros w' Hx.
  destruct Hst as [Ha Hf Hrun Hs]. cbn. apply (cursor_advance w w' pre here o2 todo k (Some seen)); try done.
  by intros t [= <-].
Qed.

(** What an exact observation tells of a transaction in doubt. *)
Lemma observed_one_of seen s :
  here ∈ ops -> exact_observation seen source target = ManagedSemantics s ->
  scope seen = scope source /\ managed_semantic_schema seen = s.
Proof using Htask L.
  intros Hin. pose proof (task_scope here source target us formal Hin Htask) as Hsc. unfold exact_observation.
  repeat case_bool_decide; cbn; intros [= <-]; by subst.
Qed.

Lemma doubt_at_source w seen :
  here ∈ ops -> either w -> reads w seen ->
  exact_observation seen source target = ManagedSemantics (managed_semantic_schema source) ->
  managed_semantic_schema source <> managed_semantic_schema target -> executes pre (log w).
Proof using Htask L.
  intros Hin [[H _]|[_ Ht]] Hr Ho Hn; [done|]. destruct (observed_one_of _ _ Hin Ho) as [Hsc Hse]. exfalso. apply Hn. rewrite <- Hse.
  apply (reads_same w); [done..|]. rewrite Hsc. by apply (task_scope here source target us formal).
Qed.

Lemma doubt_at_target w seen :
  here ∈ ops -> either w -> reads w seen ->
  exact_observation seen source target = ManagedSemantics (managed_semantic_schema target) ->
  managed_semantic_schema source <> managed_semantic_schema target ->
  executes (pre ++ [here]) (log w) /\ reads w target.
Proof using Htask L.
  intros Hin [[_ Hs]|H] Hr Ho Hn; [|done]. destruct (observed_one_of _ _ Hin Ho) as [Hsc Hse]. exfalso. apply Hn. rewrite <- Hse.
  by apply (reads_same w).
Qed.

(** After the commit took effect. *)
Lemma committed_standing w :
  standing w -> last_kind (journal w) here = Some BeforeCommit -> executes pre (log w) -> reads w source ->
  formal = false ->
  let w' := with_effect w (apply_units (live w) us) (GroupEffect source target us) in
  standing w' /\ executes (pre ++ [here]) (log w') /\ reads w' target.
Proof using Htask L.
  intros Hst Hl He Hrd Hf w'. pose proof (standing_here _ _ _ _ w Hst) as Hin.
  assert (executes (pre ++ [here]) (log w')) as Hx by (apply executes_transaction; [done|]; by rewrite <- Hf).
  assert (reads w' target) as Ht by (by apply (task_lowering here source target us formal)).
  split; [|done]. apply effect_standing; [done|]. apply (status_doubt w' BeforeCommit); [done|by left|done|by right].
Qed.

(** The events that follow [BeforeCommit] under the same lease. *)
Lemma follows_before (w : World) k :
  last (trail (journal w) here) = Some (BeforeCommit, lease_fence l) ->
  k = Committed \/ k = CommitOutcomeUnknown \/ k = EventDefinitelyAborted ->
  valid_transition (last (trail (journal w) here)) k (lease_fence l) = true.
Proof using Type. intros -> [->|[->| ->]]; done. Qed.

Lemma wp_commit w :
  standing w -> last (trail (journal w) here) = Some (BeforeCommit, lease_fence l) ->
  executes pre (log w) -> reads w source -> formal = false ->
  wp (commit_transaction (prepared_group source target us)) arrived w.
Proof using Hexplicit Hrecord Hretry Htask L.
  intros Hst Hl He Hr Hf. pose proof (standing_here _ _ _ _ w Hst) as Hin. pose proof (st_running w Hst) as Hrun.
  assert (last_kind (journal w) here = Some BeforeCommit) as Hl' by (unfold last_kind; by rewrite Hl).
  destruct (committed_standing w Hst Hl' He Hr Hf) as (Hst' & He' & Hr').
  set (w1 := with_effect w _ _) in *. unfold commit_transaction. cbn [bind perform Fencing.wp].
  intros [u|failure] w' Hc; cbn in Hc.
  - destruct Hc as [_ ->]. fold w1. split; [by eapply guarantee_running; [|eapply standing_Inv]|].
    intros [seen|e] w' [-> Hseen]; (split; [by eapply guarantee_same, standing_Inv|]); [|by apply Hretry].
    case_bool_decide; [|by apply Hexplicit]. apply wp_complete; try done. apply (follows_before w1); [done|by left].
  - assert (w' = w \/ certainty failure = Unknown /\ w' = w1) as Hw' by naive_solver.
    assert (standing w' /\ either w' /\ (certainty failure = DefinitelyAborted -> executes pre (log w')) /\
      last (trail (journal w') here) = Some (BeforeCommit, lease_fence l)) as (Hst2 & Hei & Hab & Hl2).
    { destruct Hw' as [->|[Hu ->]]; split_and!; try done; [by left|by right|congruence]. }
    split; [by eapply guarantee_running; [|eapply standing_Inv]|]. clear Hw' Hc.
    assert (valid_transition (last (trail (journal w') here)) (journal_event (certainty failure)) (lease_fence l) = true)
      as Hv by (apply follows_before; [done|]; destruct (certainty failure); auto).
    apply Hrecord; [done| |intros e w2 _; destruct (certainty failure); [apply Hretry|apply Hexplicit]|done].
    intros w2 Hx. pose proof (extends_last _ _ _ _ Hx here_effective) as Hl3.
    assert (standing w2) as Hst3.
    { apply (extends_standing w' w2 _ Hst2 Hx (fun _ => Hv)). pose proof (ex_kind _ _ _ _ Hx) as Hk.
      destruct (certainty failure); [apply status_aborted; [done|done|]|
        apply (status_doubt w2 CommitOutcomeUnknown); [done|by right|done|by eapply either_extends]].
      rewrite (extends_executes _ _ _ _ _ Hx). by apply Hab. }
    split; [by eapply standing_Inv|]. case_bool_decide as Ec; [apply Hretry|].
    assert (certainty failure = Unknown) as Eu by (by destruct (certainty failure)). rewrite Eu in Hl3.
    cbn [bind perform Fencing.wp].
    intros [seen|e] w3 [-> Hseen]; (split; [by eapply guarantee_same, standing_Inv|]); [|by apply Hexplicit].
    destruct (decide_group_recovery _ _ _ _) eqn:Ed; [by apply Hretry| |by apply Hexplicit].
    apply decide_group_repair in Ed as (Ho & k & [= <-] & Hk). destruct Hseen as [_ Hseen].
    assert (managed_semantic_schema source <> managed_semantic_schema target) as Hn by naive_solver.
    destruct (doubt_at_target w2 seen Hin (either_extends _ _ _ Hx Hei) Hseen Ho Hn).
    apply wp_complete; try done. rewrite Hl3. cbn. apply Z.leb_refl.
Qed.

(** A new attempt may follow whatever earlier leases left unfinished. *)
Lemma before_follows (w : World) :
  Forall (fun e => e.2 < lease_fence l) (trail (journal w) here) ->
  (forall k, last_kind (journal w) here = Some k -> is_completion_event k = false) ->
  valid_transition (last (trail (journal w) here)) BeforeCommit (lease_fence l) = true.
Proof using Type.
  intros Hf Hk. unfold last_kind in Hk. destruct (last (trail (journal w) here)) as [[k f]|] eqn:E; [|done].
  apply last_Some_elem_of in E. rewrite Forall_forall in Hf. apply Hf in E. cbn in E, Hk. specialize (Hk k eq_refl).
  destruct k; try done; cbn; by apply Z.ltb_lt.
Qed.

Lemma wp_perform_transaction w :
  standing w -> status w pre here -> Forall (fun e => e.2 < lease_fence l) (trail (journal w) here) ->
  executes pre (log w) -> (managed_semantic_schema source = managed_semantic_schema target -> reads w target) ->
  wp perform_transaction arrived w.
Proof using Hcheck Hexplicit Hrecord Hretry Htask L.
  intros Hst Hstatus Hfresh He Hsame. pose proof (standing_Inv w Hst) as HI. pose proof Hstatus as Hst'. unfold perform_transaction.
  unfold status in Hstatus. rewrite Htask in Hstatus.
  destruct (Bool.bool_dec formal true) as [Ef|Ef]; [|apply Bool.not_true_is_false in Ef]; rewrite Ef; rewrite Ef in Hstatus.
  { destruct Hstatus as [(_ & Hu & _)|(k & _ & _ & ? & _)]; [|done]. specialize (Hu eq_refl).
    apply wp_complete; [done|done| | |unfold untouched in Hu; by rewrite Hu].
    - apply (executes_formal _ _ here source target us); [done|]. by rewrite <- Ef.
    - apply Hsame. apply (formal_same here source target us); [by eapply standing_here|]. by rewrite <- Ef. }
  pose proof (before_follows w Hfresh (fun k => status_incomplete w pre here k Hst')) as Hv. clear Hstatus.
  apply wp_bind_ok, wp_await; [done| |done].
  cbn [perform Fencing.wp]. intros [tx|e] w' [-> Hc]; keep; [|done]. destruct Hc as (_ & Hr & ->).
  apply wp_bind_ok. eapply wp_mono; [by apply Hcheck|].
  intros [tx|e] w' [-> Htx]; [|done]. rewrite (Htx tx eq_refl). clear Htx tx.
  apply wp_bind_ok. eapply wp_mono; [by apply wp_units|].
  intros [tx|e] w' [-> Htx]; [|done]. rewrite (Htx tx eq_refl). clear Htx tx. cbn [tx_source tx_target tx_units app].
  assert (forall w', extends w w' here BeforeCommit -> standing w' /\ executes pre (log w') /\ reads w' source) as Hafter.
  { intros w' Hx. rewrite (extends_executes _ _ _ _ _ Hx), (extends_reads _ _ _ _ _ Hx). split; [|done].
    apply (extends_standing w w' _ Hst Hx (fun _ => Hv)).
    apply (status_doubt w' BeforeCommit); [apply Hx|by left|done|].
    left. by rewrite (extends_executes _ _ _ _ _ Hx), (extends_reads _ _ _ _ _ Hx). }
  apply Hrecord; [done| | |done].
  - intros w' Hx. destruct (Hafter w' Hx) as (H1 & H2 & H3). split; [by eapply standing_Inv|].
    apply wp_commit; try done. by apply (extends_last _ _ _ _ Hx here_effective).
  - intros e w' [->|Hx]; apply wp_rollback; try done. eapply standing_Inv. by apply Hafter.
Qed.

(** Visiting a transaction at the frontier. *)
Lemma wp_visit_transaction w seen :
  standing w -> Forall (fun e => e.2 < lease_fence l) (trail (journal w) here) ->
  (forall s, seen = Some s -> reads w s) ->
  wp (visit_transaction (last_kind (journal w) here) seen) arrived w.
Proof using Hcheck Hexplicit Hrecord Hretry Htask L.
  intros Hstand Hfresh Hrd. pose proof (standing_Inv w Hstand) as HI. pose proof (standing_here _ _ _ _ w Hstand) as Hin.
  pose proof (st_running w Hstand) as [_ _ _ _ Hst _]. pose proof Hst as Hst'. unfold status in Hst'. rewrite Htask in Hst'.
  assert (forall s, reads w s ->
    wp (match decide_group_recovery (last_kind (journal w) here) (exact_observation s source target)
          (managed_semantic_schema source) (managed_semantic_schema target) with
        | RequiresExplicitRecovery =>
            Ret (Ok (Return (explicit (stable Integrity "migration_execution_ambiguous_group_state"))))
        | RepairCheckpoint => conclude
        | ExecuteNormally => perform_transaction
        end) arrived w) as Hdecide.
  2: { unfold visit_transaction. apply wp_bind_ok. destruct seen as [s|]; [apply Hdecide; by apply Hrd|].
       apply wp_await; [done| |done]. cbn. intros [s|e] w' [-> Hc]; keep; [|done]. apply Hdecide. apply Hc. }
  intros s Hs. destruct (decide_group_recovery _ _ _ _) eqn:Ed; [| |apply Hexplicit].
  - apply decide_group_execute in Ed as [Ho Hlast]. apply wp_perform_transaction; [done..| |].
    + destruct Hst' as [(_ & _ & He)|(k & Hk & Hdb & _ & Hei)]; [done|].
      destruct Hlast as [Hpa|[Hn _]]; [rewrite Hk in Hpa; by destruct Hpa as [?|[= ->]], Hdb|].
      by apply (doubt_at_source w s).
    + intros Heq. destruct (observed_one_of s _ Hin Ho) as [Hsc Hse].
      apply (reads_transfer w s); [done| |congruence]. rewrite Hsc. by apply (task_scope here source target us formal).
  - apply decide_group_repair in Ed as (Ho & k & Hk & Hcase).
    destruct Hst' as [(Hpa & _ & _)|(k' & Hk' & Hdb & _ & Hei)].
    { exfalso. unfold in_doubt in Hcase. destruct Hpa as [Hpa|Hpa]; rewrite Hpa in Hk; naive_solver. }
    rewrite Hk in Hk'. injection Hk' as <-.
    assert (managed_semantic_schema source <> managed_semantic_schema target) as Hn by (destruct Hdb as [->| ->]; naive_solver).
    destruct (doubt_at_target w s Hin Hei Hs Ho Hn). apply wp_complete; [done..|].
    unfold last_kind in Hk. destruct (last (trail (journal w) here)) as [[k' f]|] eqn:El; [|done]. injection Hk as ->.
    apply last_Some_elem_of in El. rewrite Forall_forall in Hfresh. apply Hfresh in El. cbn in El.
    destruct Hdb as [->| ->]; [done|]. cbn. apply Z.leb_le. lia.
Qed.
End transaction.

(** ** Backfills *)

Section data.
Context {Obs : Type}.
Context (retry explicit : Diagnostic -> O).
Context (record : GroupJournalEventKind -> option BackfillCompletionEvidence ->
  (Diagnostic -> Prog (result Diagnostic (Flow O Obs))) -> Prog (result Diagnostic (Flow O Obs)) ->
  Prog (result Diagnostic (Flow O Obs))).
Context (program : AttributeBackfillPlan) (direction : BackfillExecutionDirection) (expected : Fingerprint.Fingerprint).
Context (observe : BackfillCompletionEvidence -> Obs).

Definition conclude_data (completion : BackfillCompletionEvidence) : Prog (result Diagnostic (Flow O Obs)) :=
  record Committed (Some completion) (fun e => Ret (Ok (Return (retry e)))) (Ret (Ok (Next (observe completion)))).

Definition run_data : Prog (result Diagnostic (Flow O Obs)) :=
  let! answer := perform (ExecuteBackfill l program direction) in
  match answer with
  | Ok completion => conclude_data completion
  | Err failure =>
      record (journal_event (certainty failure)) None
        (fun e => match certainty failure with
                  | DefinitelyAborted => Ret (Ok (Return (retry e)))
                  | Unknown => Ret (Ok (Return (explicit e)))
                  end)
        (if bool_decide (certainty failure = DefinitelyAborted)
         then Ret (Ok (Return (retry (failure_diagnostic failure)))) else
         try! after := perform (ObserveBackfill l program direction) in
         if negb (bool_decide (decide_backfill_recovery (Some CommitOutcomeUnknown) after expected direction = RepairCheckpoint))
         then Ret (Ok (Return (explicit (failure_diagnostic failure))))
         else match after with Complete completion => conclude_data completion | _ => Halt end)
  end.

Definition visit_data (last_event : option GroupJournalEventKind) (last_completion : option BackfillCompletionEvidence)
    : Prog (result Diagnostic (Flow O Obs)) :=
  if match last_event with Some k => is_completion_event k | None => false end
  then match last_completion with
       | None => Ret (Err (stable Integrity "migration_execution_backfill_completion_missing"))
       | Some completion => Ret (Ok (Next (observe completion)))
       end
  else
    try! observation := await_interruptible_operation control (perform (ObserveBackfill l program direction)) in
    match decide_backfill_recovery last_event observation expected direction with
    | RequiresExplicitRecovery =>
        Ret (Ok (Return (explicit (stable Integrity "migration_execution_ambiguous_backfill_state"))))
    | RepairCheckpoint =>
        match observation with
        | Complete completion => conclude_data completion
        | _ => Ret (Err (stable Integrity "migration_execution_backfill_observation_mismatch"))
        end
    | ExecuteNormally => record BeforeCommit None (fun e => Ret (Err e)) run_data
    end.

Context (here : Op) (pre : list Op) (o2 : Op) (todo : list Op) (seen : option ManagedSchemaState).
Context (Htask : task here = Some (Data program direction)).
Context (Hretry : forall e, ~ success (retry e)) (Hexplicit : forall e, ~ success (explicit e)).
Context (Hrecord : recorder here pre o2 todo record).
#[local] Abbreviation standing := (standing here pre o2 todo).

(** The executor went on, with the same knowledge of the live schema. *)
Definition passed (r : result Diagnostic (Flow O Obs)) (w : World) : Prop :=
  match r with Ok (Next _) => cursor w (o2 :: todo) seen | Ok (Return o) => ~ success o | Err _ => True end.

Definition knows (w : World) : Prop := forall s, seen = Some s -> reads w s.

Lemma data_effective : effective here.
Proof using Htask. unfold effective. congruence. Qed.

Lemma wp_conclude_data w completion :
  standing w -> executes (pre ++ [here]) (log w) -> knows w ->
  valid_transition (last (trail (journal w) here)) Committed (lease_fence l) = true ->
  wp (conclude_data completion) passed w.
Proof using Hrecord Hretry L.
  intros Hst He Hk Hv. apply Hrecord; [done| |by intros e w' _; apply Hretry|done].
  intros w' Hx. destruct Hst as [Ha Hf Hrun Hs]. cbn.
  by apply (cursor_advance w w' pre here o2 todo Committed seen).
Qed.

(** What a backfill in doubt has done. *)
Definition doubtful (w : World) : Prop := pending pre program direction (log w) \/ executes (pre ++ [here]) (log w).

Lemma doubtful_extends w w' k : extends w w' here k -> doubtful w -> doubtful w'.
Proof using Type. intros [-> _ _ _ _]. done. Qed.

Lemma executes_pending os log : executes os log -> pending os program direction log.
Proof using Type. exists log, []. rewrite app_nil_r. split_and!; [done|by left|done]. Qed.

Lemma status_data_doubt w k :
  last_kind (journal w) here = Some k -> in_doubt k -> doubtful w -> status w pre here.
Proof using Htask. intros H1 H2 H3. unfold status. rewrite Htask. right. by exists k. Qed.

Lemma status_data_aborted w :
  last_kind (journal w) here = Some EventDefinitelyAborted -> executes pre (log w) -> status w pre here.
Proof using Htask. intros H1 H2. unfold status. rewrite Htask. left. split; [by right|done]. Qed.

(** The postcondition is verified. *)
Lemma doubtful_verified w :
  doubtful w -> executes (pre ++ [here]) (log (with_effect w (live w) (BackfillVerified program direction))).
Proof using Htask.
  intros [(before & run & He & Ha & Hl)|He]; cbn; [rewrite Hl; by apply executes_data|by apply executes_verified].
Qed.

Lemma verified_standing w :
  standing w -> standing (with_effect w (live w) (BackfillVerified program direction)).
Proof using Htask.
  intros Hst. pose proof (st_running w Hst) as [_ _ _ _ Hs _]. apply effect_standing; [done|].
  unfold status in Hs |- *. rewrite Htask in Hs |- *.
  destruct Hs as [[Hp He]|(k & Hk & Hd & Hdb)]; [left; split; [done|by apply executes_verified]|].
  right. exists k. split_and!; [done..|]. right. by apply doubtful_verified.
Qed.

(** An observation leaves the executor standing; a complete one is in the history. *)
Lemma observes_standing w r w' :
  standing w -> knows w -> observes w l program direction r w' ->
  guarantee w w' /\ standing w' /\ knows w' /\ journal w' = journal w /\
  (executes pre (log w) -> executes pre (log w')) /\ (doubtful w -> doubtful w') /\
  (forall completion, r = Ok (Complete completion) -> doubtful w -> executes (pre ++ [here]) (log w')).
Proof using Htask L.
  intros Hst Hk Hc. set (w1 := with_effect w (live w) (BackfillVerified program direction)).
  assert (w' = w /\ (forall c, r <> Ok (Complete c)) \/ w' = w1) as [[-> Hn]| ->]
    by (clear -Hc; destruct r as [[]|]; cbn in Hc; naive_solver).
  - split; [by eapply guarantee_same, standing_Inv|]. split_and!; try done. intros c Hr. by destruct (Hn c).
  - assert (standing w1) as Hst1 by (by apply verified_standing).
    split; [eapply guarantee_running; [apply Hst|by eapply standing_Inv]|]. split_and!; try done.
    + intros He. by apply executes_verified.
    + intros Hd. right. by apply doubtful_verified.
    + intros c _ Hd. by apply doubtful_verified.
Qed.

(** A run of the program, of which any number of transaction groups committed. *)
Lemma run_standing w groups :
  standing w -> last_kind (journal w) here = Some BeforeCommit -> executes pre (log w) -> knows w ->
  let w' := with_effect w (live w) (BackfillRun program direction groups) in
  standing w' /\ doubtful w' /\ knows w'.
Proof using Htask.
  intros Hst Hl He Hk w'. assert (doubtful w') as Hd.
  { left. exists (log w), [BackfillRun program direction groups]. split_and!; [done| |done]. right. by exists groups. }
  split; [|done]. apply effect_standing; [done|]. apply (status_data_doubt w' BeforeCommit); [done|by left|done].
Qed.

(** A failed run whose outcome is recorded. *)
Lemma wp_run_failed w failure :
  standing w -> last (trail (journal w) here) = Some (BeforeCommit, lease_fence l) -> doubtful w -> knows w ->
  (certainty failure = DefinitelyAborted -> executes pre (log w)) ->
  wp (record (journal_event (certainty failure)) None
        (fun e => match certainty failure with
                  | DefinitelyAborted => Ret (Ok (Return (retry e)))
                  | Unknown => Ret (Ok (Return (explicit e)))
                  end)
        (if bool_decide (certainty failure = DefinitelyAborted)
         then Ret (Ok (Return (retry (failure_diagnostic failure)))) else
         try! after := perform (ObserveBackfill l program direction) in
         if negb (bool_decide (decide_backfill_recovery (Some CommitOutcomeUnknown) after expected direction = RepairCheckpoint))
         then Ret (Ok (Return (explicit (failure_diagnostic failure))))
         else match after with Complete completion => conclude_data completion | _ => Halt end)) passed w.
Proof using Hexplicit Hrecord Hretry Htask L.
  intros Hst Hl Hd Hk Hab.
  assert (valid_transition (last (trail (journal w) here)) (journal_event (certainty failure)) (lease_fence l) = true)
    as Hv by (apply follows_before; [done|]; destruct (certainty failure); auto).
  apply Hrecord; [done| |intros e w2 _; destruct (certainty failure); [apply Hretry|apply Hexplicit]|done].
  intros w2 Hx. pose proof (extends_last _ _ _ _ Hx data_effective) as Hl2.
  pose proof (doubtful_extends _ _ _ Hx Hd) as Hd2.
  assert (standing w2) as Hst2.
  { apply (extends_standing w w2 _ Hst Hx (fun _ => Hv)). pose proof (ex_kind _ _ _ _ Hx) as Hkx.
    destruct (certainty failure); [apply status_data_aborted; [done|]|by apply (status_data_doubt w2 CommitOutcomeUnknown); [|right|]].
    rewrite (extends_executes _ _ _ _ _ Hx). by apply Hab. }
  split; [by eapply standing_Inv|]. case_bool_decide as Ec; [apply Hretry|].
  assert (certainty failure = Unknown) as Eu by (by destruct (certainty failure)). rewrite Eu in Hl2.
  assert (knows w2) as Hk2 by (intros s E; rewrite (extends_reads _ _ _ _ _ Hx); by apply Hk).
  apply wp_bind_ok. cbn [perform Fencing.wp]. intros after w3 Hc.
  destruct (observes_standing w2 after w3 Hst2 Hk2 Hc) as (Hg & Hst3 & Hk3 & Hj & _ & _ & Hv3). split; [done|].
  destruct after as [after|e]; [|done].
  destruct (negb _); [apply Hexplicit|]. destruct after as [| |completion]; [done..|].
  apply wp_conclude_data; [done|by eapply Hv3|done|rewrite Hj, Hl2; cbn; apply Z.leb_refl].
Qed.

(** The provider runs the program. *)
Lemma wp_run_data w :
  standing w -> last (trail (journal w) here) = Some (BeforeCommit, lease_fence l) -> executes pre (log w) -> knows w ->
  wp run_data passed w.
Proof using Hexplicit Hrecord Hretry Htask L.
  intros Hst Hl He Hk. pose proof (st_running w Hst) as Hrun.
  assert (last_kind (journal w) here = Some BeforeCommit) as Hl' by (unfold last_kind; by rewrite Hl).
  unfold run_data. cbn [bind perform Fencing.wp]. intros [completion|failure] w' Hc; cbn in Hc.
  - destruct Hc as (_ & groups & ->). destruct (run_standing w groups Hst Hl' He Hk) as (Hst1 & Hd1 & Hk1).
    set (w1 := with_effect w _ _) in *. pose proof (verified_standing w1 Hst1) as Hst2.
    split; [by eapply guarantee_running; [|eapply standing_Inv]|].
    apply wp_conclude_data; [done|exact (doubtful_verified w1 Hd1)|done|by apply (follows_before here); [|left]].
  - assert (standing w' /\ doubtful w' /\ knows w' /\ journal w' = journal w /\
      (certainty failure = DefinitelyAborted -> executes pre (log w'))) as (Hst1 & Hd1 & Hk1 & Hj & Hab).
    { destruct Hc as [->|(Hu & _ & groups & ->)].
      - split_and!; try done. left. by apply executes_pending.
      - destruct (run_standing w groups Hst Hl' He Hk) as (? & ? & ?). split_and!; try done. congruence. }
    split; [by eapply guarantee_running; [|eapply standing_Inv]|]. apply wp_run_failed; try done. by rewrite Hj.
Qed.

(** Visiting a backfill at the frontier. *)
Lemma wp_visit_data w completion :
  standing w -> Forall (fun e => e.2 < lease_fence l) (trail (journal w) here) -> knows w ->
  wp (visit_data (last_kind (journal w) here) completion) passed w.
Proof using Hexplicit Hrecord Hretry Htask L.
  intros Hstand Hfresh Hk. pose proof (standing_Inv w Hstand) as HI.
  pose proof (st_running w Hstand) as [_ _ _ _ Hst _]. pose proof (status_incomplete w pre here) as Hnc.
  specialize (fun k => Hnc k Hst). unfold status in Hst. rewrite Htask in Hst. unfold visit_data.
  assert (match last_kind (journal w) here with Some k => is_completion_event k | None => false end = false) as ->
    by (destruct (last_kind (journal w) here); [by apply Hnc|done]).
  apply wp_bind_ok, wp_await; [done| |done]. cbn [perform Fencing.wp]. intros obs w1 Hc.
  destruct (observes_standing w obs w1 Hstand Hk Hc) as (Hg & Hst1 & Hk1 & Hj & He1 & _ & Hv1). split; [done|].
  destruct obs as [obs|e]; [|done]. rewrite <- Hj in *.
  destruct (decide_backfill_recovery _ _ _ _) eqn:Ed; [| |apply Hexplicit].
  - apply decide_backfill_execute in Ed. pose proof (before_follows here w1 Hfresh Hnc) as Hv.
    assert (executes pre (log w1)) as He.
    { destruct Hst as [[_ He]|(k & Hk' & Hdb & _)]; [by apply He1|]. rewrite Hk' in Ed. destruct Hdb as [->| ->]; naive_solver. }
    assert (forall w', extends w1 w' here BeforeCommit -> standing w') as Hafter.
    { intros w' Hx. apply (extends_standing w1 w' _ Hst1 Hx (fun _ => Hv)).
      apply (status_data_doubt w' BeforeCommit); [apply Hx|by left|].
      apply (doubtful_extends _ _ _ Hx). left. by apply executes_pending. }
    apply Hrecord; [done| |done|done]. intros w' Hx. split; [by eapply standing_Inv; apply Hafter|].
    apply wp_run_data; [by apply Hafter|by apply (extends_last _ _ _ _ Hx data_effective)|
      by rewrite (extends_executes _ _ _ _ _ Hx)|].
    intros s E. rewrite (extends_reads _ _ _ _ _ Hx). by apply Hk1.
  - apply decide_backfill_repair in Ed as (k & ev & Hk' & Hcase & -> & _).
    destruct Hst as [[Hpa _]|(k' & Hk2 & Hdb & Hd)].
    { exfalso. unfold in_doubt in Hcase. destruct Hpa as [Hpa|Hpa]; rewrite Hpa in Hk'; naive_solver. }
    apply wp_conclude_data; [done|by eapply Hv1|done|]. unfold last_kind in Hk2.
    destruct (last (trail (journal w1) here)) as [[k2 f]|] eqn:El; [|done]. injection Hk2 as ->.
    apply last_Some_elem_of in El. rewrite Forall_forall in Hfresh. apply Hfresh in El. cbn in El.
    destruct Hdb as [->| ->]; [done|]. cbn. apply Z.leb_le. lia.
Qed.
End data.

(** Visiting an operation: either the snapshot knows it is complete, or the
    executor stands at the frontier. *)
Lemma cursor_case w here o2 todo seen :
  cursor w (here :: o2 :: todo) seen -> effective here ->
  known here = last_kind (journal w) here /\
  ((completed (journal w) here /\ cursor w (o2 :: todo) seen) \/
   match last_kind (journal w) here with Some k => is_completion_event k | None => false end = false /\
   exists pre, standing here pre o2 todo w /\ Forall (fun e => e.2 < lease_fence l) (trail (journal w) here) /\
     forall s, seen = Some s -> reads w s).
Proof using Type.
  intros [Ha Hf (pre & skipped & o & rest & Hr & Ht & Hsk & Hnc) Hs Hrd] He.
  pose proof Hs as Hs'. apply Forall_cons in Hs' as [Hsync Hs']. destruct (Hsync He) as [Hkn Hfresh]. split; [done|].
  destruct skipped as [|o' skipped].
  - rewrite app_nil_r in Hr. injection Ht as <- <-. right. split; [|exists pre; by split_and!].
    destruct Hr as [_ _ _ _ Hst _]. destruct (last_kind (journal w) here) eqn:E; [by eapply status_incomplete|done].
  - left. injection Ht as <- Ht. split.
    + destruct Hr as [_ _ Hc _ _ _]. rewrite Forall_forall in Hc. apply Hc. apply elem_of_app. right. apply list_elem_of_here.
    + rewrite Ht in Hs. rewrite Ht. by apply (cursor_skip w pre here skipped o rest).
Qed.

(** At a checkpoint there is nothing to skip. *)
Lemma cursor_checkpoint w o todo seen :
  cursor w (o :: todo) seen -> task o = Some Checkpoint ->
  exists pre, running_at w pre o todo /\ Forall (synced w) todo /\ forall s, seen = Some s -> reads w s.
Proof using Type.
  intros [_ _ (pre & skipped & o' & rest & Hr & Ht & _ & Hnc) Hs Hrd] Ho.
  destruct skipped as [|x skipped]; [|injection Ht as <- _; apply Forall_cons in Hnc as [Hx _]; by destruct Hx].
  rewrite app_nil_r in Hr. injection Ht as <- <-. apply Forall_cons in Hs as [_ Hs]. by exists pre.
Qed.

(** After a checkpoint: at the next manifest, or finished. *)
Definition resting (w : World) (todo : list Op) (seen : option ManagedSchemaState) : Prop :=
  match todo with [] => finished w | _ => cursor w todo seen end.

Definition checkpointed (todo : list Op) (r : result Diagnostic (Flow O (option ManagedSchemaState))) (w : World) : Prop :=
  match r with Ok (Next seen) => resting w todo seen | Ok (Return o) => ~ success o | Err _ => True end.

Lemma resting_blocks w ms seen :
  resting w (ops_of ms) seen -> match ms with [] => finished w | _ => cursor w (ops_of ms) seen end.
Proof using Type.
  destruct ms as [|m ms]; [done|]. unfold resting. destruct (ops_of (m :: ms)) eqn:E; [|done].
  by apply ops_of_nonempty in E.
Qed.
End protocol.

(** ** Fencing discipline: every operation carries the lease of the execution *)

Ltac uses_step :=
  match goal with
  | |- uses _ (bind_ok _ _) => apply uses_bind_ok; [|intros ?]
  | |- uses _ (bind _ _) => apply uses_bind; [|intros ?]
  | |- uses _ (perform _) => apply uses_perform; cbn; by auto
  | |- uses _ (match ?x with _ => _ end) => destruct x
  | |- uses _ (if ?x then _ else _) => destruct x
  | |- uses _ (Ret _) => exact I
  | |- uses _ Halt => exact I
  end.

Section discipline.
Context (l : MigrationLease) (control : MigrationExecutionControl).

Lemma uses_await {A} (future : Prog (result Diagnostic A)) :
  uses l future -> uses l (await_interruptible_operation control future).
Proof. intros H. unfold await_interruptible_operation. repeat uses_step; done. Qed.

Lemma uses_rollback {A} tx e : uses l (rollback_prepared_group_error (A := A) tx e).
Proof. unfold rollback_prepared_group_error. repeat uses_step. Qed.

Lemma uses_assertions tx assertions : uses l (execute_assertions control tx assertions).
Proof.
  revert tx. induction assertions as [|s assertions IH]; intros tx; cbn [execute_assertions]; repeat uses_step;
    [|apply IH|apply uses_rollback]. apply uses_await. repeat uses_step.
Qed.

Lemma uses_units tx us : uses l (execute_units control tx us).
Proof.
  revert tx. induction us as [|u us IH]; intros tx; cbn [execute_units]; repeat uses_step;
    [|apply IH|apply uses_rollback]. apply uses_await. repeat uses_step.
Qed.
End discipline.

Ltac uses_shared :=
  first [uses_step | apply uses_await | apply uses_rollback | apply uses_assertions | apply uses_units].

(** ** The lease around an execution *)

Section fenced.
Context {Live : Type}.
Context (live_semantics : Live -> ManagedScopeBinding -> option Fingerprint.Fingerprint).
Context (apply_units : Live -> list StatementUnit -> Live).
Context `{V : PlanView Op Slot M} {L : PlanLaws live_semantics apply_units V} {O : Type} (success : O -> Prop).
Context (finish : result Diagnostic O -> result Diagnostic () -> result Diagnostic O).

Definition succeeded (r : result Diagnostic O) : Prop := exists o, r = Ok o /\ success o.

(** Success needs an acknowledged release. *)
Context (Hfinish : forall r release, succeeded (finish r release) -> succeeded r /\ exists u, release = Ok u).
#[local] Abbreviation Inv := (Inv live_semantics).
#[local] Abbreviation wp := (wp live_semantics apply_units Inv finished).

Definition released (l : MigrationLease) (run : Prog (result Diagnostic O)) : Prog (result Diagnostic O) :=
  let! outcome := run in
  let! release := perform (Release l) in
  Ret (finish outcome release).

Lemma closing_release l run : uses l run -> closing succeeded l (released l run).
Proof.
  induction run as [outcome| |o k IH]; cbn; [|done|].
  - intros _. right. split_and!; [done|eauto|]. intros d a [= <-] Hs. by destruct (Hfinish _ _ Hs) as [_ [u ?]].
  - intros [Hh Hk]. left. split; [done|]. intros r. by apply IH.
Qed.

Lemma wp_release w l run :
  Inv w -> wp run (accomplished finished succeeded) w -> wp (released l run) (accomplished finished succeeded) w.
Proof.
  intros HI Hw. apply wp_bind. eapply wp_mono; [by apply wp_Inv|]. intros outcome w1 [HI1 Hacc]. cbn.
  intros release w2 Hc.
  assert (w2 = w1 \/ w2 = with_lease w1 None (highest_fence w1)) as Hw2 by (destruct release; naive_solver).
  split.
  - destruct Hw2 as [->| ->]; [done|]. split; [apply (Inv_with_lease live_semantics apply_units); [done|lia]|apply finished_with_lease].
  - intros [Hs _]%Hfinish. apply Hacc in Hs. by destruct Hw2 as [->| ->].
Qed.

(** The world right after a lease was granted. *)
Definition entered (l : MigrationLease) (w : World Live) : Prop :=
  exists before, Inv before /\ highest_fence before < lease_fence l /\ w = with_lease before (Some l) (lease_fence l).

Lemma entered_Inv l w : entered l w -> Inv w /\ active w = Some l /\ highest_fence w = lease_fence l.
Proof.
  intros (before & HI & Hf & ->). split_and!; [apply (Inv_with_lease live_semantics apply_units); [done|lia]|done|done].
Qed.

(** Whatever is in the journal was written under earlier fences. *)
Lemma entered_fresh l w d o rest o' :
  entered l w -> running_at live_semantics w d o rest -> o' ∈ ops -> effective o' ->
  Forall (fun e => e.2 < lease_fence l) (trail (journal w) o').
Proof using L.
  intros (before & HI & Hf & ->) [Hop _ _ _ _ _] Hin He. cbn in Hop |- *.
  destruct HI as [(H1 & H2 & _)|[(d' & o1 & rest' & [_ _ _ _ _ Hv])|[Hc _]]].
  - destruct (open_recorded _ _ Hop); done.
  - destruct (Hv o' Hin He) as [_ Hle]. eapply Forall_impl; [exact Hle|]. cbn. intros. lia.
  - by apply open_not_closed in Hop.
Qed.

(** An entry point: checks without effect, the lease, the execution, the release. *)
Lemma fenced_starting {X} (preflight : result Diagnostic X) (target : X -> str) holder
    (run : MigrationLease -> Prog (result Diagnostic O)) :
  (forall l, uses l (run l)) ->
  (forall l w, entered l w -> wp (run l) (accomplished finished succeeded) w) ->
  starting live_semantics apply_units Inv finished succeeded
    (try! _ := perform Check in
     match preflight with
     | Err e => Ret (Err e)
     | Ok x => try! l := perform (Acquire (target x) holder) in released l (run l)
     end).
Proof using Hfinish L.
  assert (forall e, ~ succeeded (Err e)) as Herr by (by intros e (o & ? & _)).
  intros Hu Hw. left. split; [done|]. intros [u|e]; [|apply Herr].
  destruct preflight as [x|e]; [|apply Herr]. right. split.
  - intros d. exists (Err d). split; [done|apply Herr].
  - intros l. split; [apply closing_release, Hu|]. intros w HI Hf.
    assert (entered l (with_lease w (Some l) (lease_fence l))) as He by (by exists w).
    apply wp_release; [by apply (entered_Inv l)|by apply Hw].
Qed.
End fenced.

End Protocol.
