(* ===== verification/ApplySafety.v ===== *)
(** * Crash safety of the apply executor

    The apply executor as an instance of the commit protocol: the operations of a
    verified plan, where the journal keeps their events, and the proof that every
    program of the executor is one of the protocol's. *)

From Stdlib Require Import Sorted.
From S2P Require Import Prelude BTree Text Ident Fingerprint Schema Components SchemaDelta Safety Limits Assertion Migration Manifest ApplyPlan RollbackPlan Execution RollbackJournal Coordinator Fencing Protocol.
Import Ident Fingerprint Schema Components SchemaDelta Safety Assertion Migration Manifest ApplyPlan Execution RollbackJournal Coordinator Fencing Protocol.
#[local] Open Scope Z_scope.

Module ApplySafety.

(** ** The operations of a plan *)

Inductive PlanOperation : Set :=
| PGroup (m : VerifiedMigrationApplyManifest) (g : VerifiedMigrationTransactionGroup)
| PBackfill (m : VerifiedMigrationApplyManifest) (index : nat)
| PApplied (m : VerifiedMigrationApplyManifest).

Definition of_operation (m : VerifiedMigrationApplyManifest) (o : Operation) : PlanOperation :=
  match o with OGroup g => PGroup m g | OBackfill i => PBackfill m i end.

(** A group that needs no provider transaction. *)
Definition formal (g : VerifiedMigrationTransactionGroup) (source target : ManagedSchemaState)
    (low : SchemaLoweringPlan) : bool :=
  (assertion_count g =? 0)%nat && bool_decide (units low = []) &&
  bool_decide (managed_semantic_schema source = managed_semantic_schema target).

Definition plan_task (o : PlanOperation) : option Task :=
  match o with
  | PGroup m g =>
      match group_evidence m g with
      | Ok (source, target, low) => Some (Transaction source target (units low) (formal g source target low))
      | Err _ => None
      end
  | PBackfill m i =>
      match steps m !! i ≫= fun s => as_backfill (ApplyPlan.step s) with
      | Some (_, program) => Some (Data program Forward)
      | None => None
      end
  | PApplied _ => Some Checkpoint
  end.

(** The journal of one operation; an applied record counts as its commit. *)
Definition plan_trail (j : Journal) (o : PlanOperation) : list (GroupJournalEventKind * ExecutionFence) :=
  match o with
  | PGroup m g => map (fun e => (ge_kind e, ge_fence e)) (group_events (events j) m g)
  | PBackfill m i => map (fun e => (be_kind e, be_fence e)) (executed_backfill_events (backfill_events j) m i)
  | PApplied m =>
      map (fun e => (Committed, ar_fence (entry_record e)))
        (filter (fun e => ar_migration (entry_record e) = manifest_id (manifest m)) (ledger j))
  end.

Inductive PlanSlot : Set :=
| SGroup (d : FingerprintDigest) (n : nat)
| SBackfill (d : FingerprintDigest) (i : nat)
| SApplied (id : MigrationId).

Definition plan_slot (o : PlanOperation) : PlanSlot :=
  match o with
  | PGroup m g => SGroup (manifest_digest m) (ordinal g)
  | PBackfill m i => SBackfill (manifest_digest m) i
  | PApplied m => SApplied (manifest_id (manifest m))
  end.

Definition plan_ids (ms : list VerifiedMigrationApplyManifest) : list MigrationId :=
  map (fun m => manifest_id (manifest m)) ms.

(** The ledger has an entry of this migration. *)
Definition recorded (j : Journal) (m : VerifiedMigrationApplyManifest) : Prop :=
  exists e, e ∈ ledger j /\ ar_migration (entry_record e) = manifest_id (manifest m).

(** The flags of a validated ledger: exactly the migrations it has an entry for. *)
Lemma mark_applied_flags ms opened previous flags entries flags' :
  NoDup (plan_ids ms) -> length flags = length ms ->
  mark_applied ms opened previous flags entries = Ok flags' ->
  length flags' = length ms /\
  forall i m, ms !! i = Some m ->
    flags' !! i = Some true <->
    flags !! i = Some true \/
    exists e : JournalEntry AppliedRecord, e ∈ entries /\ ar_migration (entry_record e) = manifest_id (manifest m).
Proof.
  intros Hnd. revert previous flags. induction entries as [|e entries IH]; intros previous flags Hlen H.
  { cbn in H. injection H as <-. split; [done|]. set_solver. }
  cbn [mark_applied] in H. destruct (match previous with Some _ => _ | None => _ end); [done|].
  destruct (find_position _ ms) as [j|] eqn:Ej.
  - destruct (_ || _ || _); [done|]. apply IH in H as [Hl H]; [|by rewrite length_insert]. split; [done|]. intros i m Hi.
    rewrite (H i m Hi). apply find_position_Some in Ej as (mj & Hj & Hid%bool_decide_eq_true).
    assert (manifest_id (manifest m) = ar_migration (entry_record e) <-> i = j) as Hij.
    { split; [|naive_solver]. intros Em. unfold plan_ids in Hnd.
      apply (NoDup_lookup _ _ _ (manifest_id (manifest m)) Hnd); rewrite list_lookup_fmap; [by rewrite Hi|rewrite Hj; cbn; congruence]. }
    assert (<[j:=true]> flags !! i = Some true <-> i = j \/ flags !! i = Some true) as ->.
    { destruct (decide (i = j)) as [->|Hn].
      - rewrite list_lookup_insert_eq; [naive_solver|]. rewrite Hlen. by eapply lookup_lt_Some.
      - rewrite list_lookup_insert_ne by done. naive_solver. }
    rewrite <- Hij. setoid_rewrite elem_of_cons. split.
    + intros [[?|?]|(x & ? & ?)]; [right; exists e; split; [by left|done]|by left|right; exists x; split; [by right|done]].
    + intros [?|(x & [->|?] & ?)]; [by left; right|by left; left|right; by exists x].
  - destruct (_ <? _); [done|]. apply IH in H as [Hl H]; [|done]. split; [done|]. intros i m Hi. rewrite (H i m Hi).
    assert (ar_migration (entry_record e) <> manifest_id (manifest m)) as Hn.
    { apply (find_position_None _ _ m) in Ej; [|by eapply list_elem_of_lookup_2]. apply bool_decide_eq_false in Ej. congruence. }
    setoid_rewrite elem_of_cons. split.
    + intros [?|(x & ? & ?)]; [by left|right; exists x; split; [by right|done]].
    + intros [?|(x & [->|?] & ?)]; [by left|done|right; by exists x].
Qed.

Section safety.
Context {Live : Type}.
Context (live_semantics : Live -> ManagedScopeBinding -> option Fingerprint.Fingerprint).
Context (apply_units : Live -> list StatementUnit -> Live).
Context (sha256 : str -> str) (encode : VerifiedSchemaMigrationManifest -> result Diagnostic str).
Context (plan : VerifiedMigrationApplyPlan).
#[local] Abbreviation World := (World Live).
#[local] Abbreviation reads := (reads live_semantics).

(** ** The journal of an open plan *)

(** A ledger entry beside an open plan: older and of another migration, or written
    for a manifest of the plan. *)
Definition ledger_entry (p : JournalEntry PlanRecord) (e : JournalEntry AppliedRecord) : Prop :=
  entry_sequence e < entry_sequence p /\
    (forall m, m ∈ migrations plan -> ar_migration (entry_record e) <> manifest_id (manifest m)) \/
  entry_sequence p < entry_sequence e /\ exists lease m, m ∈ migrations plan /\
    AppliedRecord_from_verified_manifest sha256 encode lease (manifest m) = Some (Ok (entry_record e)).

Definition stored (j : Journal) : list StoredEvent :=
  map stored_group (events j) ++ map stored_backfill (backfill_events j).

(** Everything in the journal was built for this plan, in the order of its
    sequences and fences. *)
Record apply_open (fence : ExecutionFence) (j : Journal) (p : JournalEntry PlanRecord) : Prop := {
  ao_opened : opened j = Some p;
  ao_record : exists lease s, PlanRecord_from_verified_plan lease plan (applied_migrations plan) s = Ok (entry_record p);
  ao_stored : stored_ok fence (last_sequence j) (binding_of p) (stored j);
  ao_groups : Forall (fun e => exists lease m g kind observed, m ∈ migrations plan /\
    GroupEventRecord_new lease m g kind observed = Ok (entry_record e)) (events j);
  ao_backfills : Forall (fun e => exists lease m i kind completion, m ∈ migrations plan /\
    new_apply lease m i kind completion = Ok (entry_record e)) (backfill_events j);
  ao_ledger : Forall (ledger_entry p) (ledger j);
  ao_sorted : StronglySorted earlier (ledger j);
  ao_bounded : Forall (fun e => entry_sequence e <= last_sequence j) (ledger j);
  ao_distinct : NoDup (map (fun e => ar_migration (entry_record e)) (ledger j)) }.

Lemma plan_record_fields l ids s record :
  PlanRecord_from_verified_plan l plan ids s = Ok record ->
  migrations plan <> [] /\ ids = applied_migrations plan /\ migration_ids record = plan_ids (migrations plan) /\
  manifest_digests record = map manifest_digest (migrations plan) /\ plan_fence record = lease_fence l.
Proof using Type.
  intros Hrec. unfold PlanRecord_from_verified_plan in Hrec. apply bind_ok_iff in Hrec as (src & _ & Hrec).
  apply bind_ok_iff in Hrec as (tgt & _ & Hrec). apply bind_ok_iff in Hrec as (first & Hf & Hrec).
  case_bool_decide as Hi; [|done]. cbn [negb] in Hrec. case_in Hrec. case_in Hrec.
  apply bind_ok_iff in Hrec as (u & _ & Hrec). injection Hrec as <-.
  split_and!; [by destruct (migrations plan)|done..].
Qed.

Lemma open_ids fence j p : apply_open fence j p -> migration_ids (entry_record p) = plan_ids (migrations plan).
Proof using Type. intros [_ (lease & s & H) _ _ _ _ _ _ _]. by apply plan_record_fields in H as (_ & _ & H & _). Qed.

Lemma applied_record_id lease m r :
  AppliedRecord_from_verified_manifest sha256 encode lease m = Some (Ok r) -> ar_migration r = manifest_id m.
Proof using Type.
  unfold AppliedRecord_from_verified_manifest, record_of. intros H. case_in H.
  destruct (verified_manifest_digest sha256 encode m) as [[d|e]|]; by simp.
Qed.

(** The groups and backfills of each manifest in execution order, then its
    ledger entry. *)
#[local] Instance apply_view : PlanView PlanOperation PlanSlot VerifiedMigrationApplyManifest := {|
  blocks := migrations plan;
  body m := map (of_operation m) (schedule (transaction_groups m) (backfill_step_indices m));
  mark := PApplied;
  slot := plan_slot;
  task := plan_task;
  trail := plan_trail;
  initial j := Forall (fun e => entry_sequence e <= last_sequence j) (ledger j);
  is_open fence j := exists p, apply_open fence j p;
  is_closed j := opened j = None /\ forall m, m ∈ migrations plan -> recorded j m |}.

(** What planning establishes and the database promises: migrations not yet
    applied with distinct identities and digests, distinct positions in range,
    deltas within one scope, and lowered statements that take the live schema
    from a group's source to its target. *)
Record plan_ok : Prop := {
  po_digests : NoDup (map manifest_digest (migrations plan));
  po_ids : NoDup (plan_ids (migrations plan));
  po_new : forall m, m ∈ migrations plan -> manifest_id (manifest m) ∉ applied_migrations plan;
  po_ordinals : forall m, m ∈ migrations plan -> NoDup (map ordinal (transaction_groups m));
  po_backfills : forall m, m ∈ migrations plan -> NoDup (backfill_step_indices m);
  po_positions : forall m i, m ∈ migrations plan -> i ∈ backfill_step_indices m -> Z.of_nat i <= u32_max;
  po_scope : forall m g source target low, m ∈ migrations plan ->
    group_evidence m g = Ok (source, target, low) -> scope source = scope target;
  po_lowering : forall m g source target low live, m ∈ migrations plan ->
    group_evidence m g = Ok (source, target, low) ->
    live_semantics live (scope source) = Some (managed_semantic_schema source) ->
    live_semantics (apply_units live (units low)) (scope target) = Some (managed_semantic_schema target) }.

(** ** The laws of the protocol *)

Lemma schedule_perm gs bs : schedule gs bs ≡ₚ map OGroup gs ++ map OBackfill bs.
Proof using Type.
  revert bs. induction gs as [|g gs IH]; intros bs; [done|]. cbn [schedule map].
  pose proof (take_while_app (fun i => (i <? first_step_index g)%nat) bs) as Hb.
  destruct (take_while _ bs) as [b a]. cbn in Hb. rewrite <- Hb, map_app, IH. cbn. solve_Permutation.
Qed.

Lemma elem_plan_ops ms o :
  o ∈ ops_of ms <-> exists m, m ∈ ms /\
    (o = PApplied m \/ (exists g, g ∈ transaction_groups m /\ o = PGroup m g) \/
     exists i, i ∈ backfill_step_indices m /\ o = PBackfill m i).
Proof using Type.
  rewrite elem_ops_of. cbn [body mark apply_view]. setoid_rewrite schedule_perm. setoid_rewrite map_app.
  setoid_rewrite elem_of_app. setoid_rewrite map_map. setoid_rewrite elem_map. cbn [of_operation].
  naive_solver.
Qed.

Lemma block_slots m :
  NoDup (map ordinal (transaction_groups m)) -> NoDup (backfill_step_indices m) -> NoDup (map slot (block m)).
Proof using Type.
  intros Ho Hb. unfold block. cbn [body mark slot apply_view].
  rewrite schedule_perm, !map_app, !map_map. cbn [plan_slot of_operation map].
  rewrite <- (map_map ordinal (SGroup (manifest_digest m))).
  assert (NoDup (map (SGroup (manifest_digest m)) (map ordinal (transaction_groups m)))) as H1
    by (apply (NoDup_fmap_2_strong (SGroup (manifest_digest m))); [naive_solver|done]).
  assert (NoDup (map (SBackfill (manifest_digest m)) (backfill_step_indices m))) as H2
    by (apply (NoDup_fmap_2_strong (SBackfill (manifest_digest m))); [naive_solver|done]).
  apply NoDup_app. split_and!; [apply NoDup_app; split_and!; [done| |done]| |repeat constructor; set_solver].
  - intros s. rewrite !elem_map. naive_solver.
  - intros s Hs. rewrite elem_of_app, !elem_map in Hs. rewrite list_elem_of_singleton. naive_solver.
Qed.

Context (HP : plan_ok).

Lemma plan_slots : NoDup (map slot ops).
Proof using HP.
  destruct HP as [Hd Hi _ Ho Hb _ _ _]. unfold ops, plan_ids in *. change blocks with (migrations plan). clear HP.
  induction (migrations plan) as [|m ms IH]; [constructor|].
  cbn in Hd, Hi. apply NoDup_cons in Hd as [Hdm Hd], Hi as [Him Hi].
  change (ops_of (m :: ms)) with (block m ++ ops_of ms). rewrite map_app.
  apply NoDup_app. split_and!; [apply block_slots; [apply Ho|apply Hb]; set_solver| |].
  - intros s. rewrite !elem_map. intros (o & Ho1 & ->) (o' & Ho2 & Es). apply elem_plan_ops in Ho2 as (m' & Hm' & Ho2).
    assert (o ∈ ops_of [m]) as Ho1' by (unfold ops_of; cbn [map concat]; by rewrite app_nil_r).
    apply elem_plan_ops in Ho1' as (m1 & Hm1 & Ho1'). assert (m1 = m) as -> by set_solver.
    destruct (decide (manifest_digest m' = manifest_digest m)) as [E|E].
    { apply Hdm. rewrite elem_map. by exists m'. }
    destruct (decide (manifest_id (manifest m') = manifest_id (manifest m))) as [E'|E'].
    { apply Him. rewrite elem_map. by exists m'. }
    destruct Ho1' as [->|[(?&?&->)|(?&?&->)]], Ho2 as [->|[(?&?&->)|(?&?&->)]]; cbn in Es; congruence.
  - apply IH; try done; intros m' Hm'; [apply Ho|apply Hb]; set_solver.
Qed.

Lemma transaction_inv o source target us f :
  o ∈ ops -> task o = Some (Transaction source target us f) ->
  exists m g low, m ∈ migrations plan /\ o = PGroup m g /\ group_evidence m g = Ok (source, target, low) /\
    us = units low /\ f = formal g source target low.
Proof using Type.
  intros (m & Hm & [->|[(g & _ & ->)|(i & _ & ->)]])%elem_plan_ops E; cbn in E; [done| |].
  - destruct (group_evidence m g) as [[[s t] low]|] eqn:Eg; [|done]. injection E as <- <- <- <-.
    exists m, g, low. by split_and!.
  - by destruct (steps m !! i ≫= _) as [[]|].
Qed.

#[local] Instance apply_laws : PlanLaws live_semantics apply_units apply_view.
Proof using HP.
  split.
  - exact plan_slots.
  - done.
  - intros m o (o' & _ & ->)%elem_map. destruct o' as [g|i]; cbn.
    + by destruct (group_evidence m g) as [[[]]|].
    + by destruct (steps m !! i ≫= _) as [[]|].
  - intros o source target us f Hin (m & g & low & Hm & _ & Hev & _)%(transaction_inv _ _ _ _ _ Hin).
    by eapply po_scope.
  - intros o source target us f live Hin (m & g & low & Hm & _ & Hev & -> & _)%(transaction_inv _ _ _ _ _ Hin).
    by eapply po_lowering.
  - intros o source target us Hin (m & g & low & _ & _ & _ & _ & Hf)%(transaction_inv _ _ _ _ _ Hin).
    symmetry in Hf. unfold formal in Hf. simp. by apply bool_decide_eq_true in H0.
  - intros fence fence' j (p & [H1 H2 H3 H4 H5 H6 H7 H8 H9]) Hle. exists p. split; try done. by eapply stored_ok_mono.
  - intros fence j (p & [Hp _ _ _ _ _ _ _ _]). left. by rewrite Hp.
  - intros fence j (p & [Hp _ _ _ _ _ _ _ _]) [Hn _]. congruence.
Qed.

(** ** Writing to the journal *)

Lemma group_event_fields lease m g k obs r :
  GroupEventRecord_new lease m g k obs = Ok r ->
  ge_digest r = manifest_digest m /\ ge_ordinal r = Z.of_nat (ordinal g) /\ ge_kind r = k /\
  ge_fence r = lease_fence lease /\ ge_migration r = manifest_id (manifest m).
Proof using Type.
  unfold GroupEventRecord_new. intros H. case_in H. apply bind_ok_iff in H as (s & _ & H).
  apply bind_ok_iff in H as (d & _ & H). apply bind_ok_iff in H as (low & _ & H). case_in H.
  apply bind_ok_iff in H as (u & _ & H). apply bind_ok_iff in H as (z & [-> _]%position_ok & H).
  apply bind_ok_iff in H as (z2 & _ & H). apply bind_ok_iff in H as (z3 & _ & H). apply bind_ok_iff in H as (z4 & _ & H).
  by injection H as <-.
Qed.

Lemma backfill_event_fields lease m i k c r :
  new_apply lease m i k c = Ok r ->
  be_migration r = manifest_id (manifest m) /\ be_digest r = manifest_digest m /\
  be_operation_ordinal r = Z.of_nat i /\ be_manifest_step r = Z.of_nat i /\ be_direction r = Forward /\ be_kind r = k /\
  be_fence r = lease_fence lease.
Proof using Type.
  unfold new_apply, new_checked. intros H. case_in H. case_in H. apply bind_ok_iff in H as (s & _ & H).
  apply bind_ok_iff in H as (b & _ & H). apply bind_ok_iff in H as (u & _ & H).
  apply bind_ok_iff in H as (z & [-> _]%position_ok & H). apply bind_ok_iff in H as (z2 & [-> _]%position_ok & H).
  by injection H as <-.
Qed.

Lemma group_of_plan m g : PGroup m g ∈ ops -> m ∈ migrations plan.
Proof using Type.
  intros (m' & Hm' & [?|[(g' & _ & [= -> _])|(? & _ & ?)]])%elem_plan_ops; done.
Qed.

Lemma backfill_of_plan m i : PBackfill m i ∈ ops -> m ∈ migrations plan.
Proof using Type.
  intros (m' & Hm' & [?|[(? & _ & ?)|(i' & _ & [= -> _])]])%elem_plan_ops; done.
Qed.

(** An event of a manifest of the plan is bound to the plan entry. *)
Lemma open_bound fence j p m e :
  apply_open fence j p -> m ∈ migrations plan -> se_digest e = manifest_digest m ->
  se_migration e = manifest_id (manifest m) -> bound_to (pb_digests (binding_of p)) (pb_ids (binding_of p)) e = true.
Proof using HP.
  intros [_ (lease & s & H) _ _ _ _ _ _ _] Hm Hd Hi. apply plan_record_fields in H as (_ & _ & Hids & Hds & _).
  cbn [pb_digests pb_ids binding_of]. rewrite Hids, Hds.
  apply (bound_to_map manifest_digest (fun m => manifest_id (manifest m)) _ m); [apply HP|done..].
Qed.

Lemma event_open fence j p lease m g k obs r :
  apply_open fence j p -> GroupEventRecord_new lease m g k obs = Ok r -> m ∈ migrations plan -> ge_fence r = fence ->
  apply_open fence (add_event j r) p.
Proof using HP.
  intros Hop Hr Hm Hf. pose proof Hop as [H1 H2 H3 H4 H5 H6 H7 H8 H9].
  pose proof Hr as (Hd & _ & _ & _ & Hi)%group_event_fields. split; try done.
  - eapply (stored_ok_add _ _ _ _ _ (stored_group (next_entry j r))); [exact H3| |done|done|by apply (open_bound fence j p m)].
    unfold stored. cbn [events backfill_events add_event]. rewrite map_app. cbn [map]. solve_Permutation.
  - apply Forall_app. split; [done|]. constructor; [|done]. by exists lease, m, g, k, obs.
  - eapply Forall_impl; [exact H8|]. cbn. lia.
Qed.

Lemma backfill_open fence j p lease m i k c r :
  apply_open fence j p -> new_apply lease m i k c = Ok r -> m ∈ migrations plan -> be_fence r = fence ->
  apply_open fence (add_backfill j r) p.
Proof using HP.
  intros Hop Hr Hm Hf. pose proof Hop as [H1 H2 H3 H4 H5 H6 H7 H8 H9].
  pose proof Hr as (Hi & Hd & _)%backfill_event_fields. split; try done.
  - eapply (stored_ok_add _ _ _ _ _ (stored_backfill (next_entry j r))); [exact H3| |done|done|by apply (open_bound fence j p m)].
    unfold stored. cbn [events backfill_events add_backfill]. rewrite map_app. cbn [map]. solve_Permutation.
  - apply Forall_app. split; [done|]. constructor; [|done]. by exists lease, m, i, k, c.
  - eapply Forall_impl; [exact H8|]. cbn. lia.
Qed.

Lemma event_extends lease (w : World) m g k obs r :
  PGroup m g ∈ ops -> highest_fence w = lease_fence lease -> GroupEventRecord_new lease m g k obs = Ok r ->
  extends lease w (with_journal w (add_event (journal w) r)) (PGroup m g) k.
Proof using HP.
  intros Hin Hfence Hr. pose proof Hr as (Hd & Ho & Hk & Hf & Hid)%group_event_fields.
  assert (trail (add_event (journal w) r) (PGroup m g) = trail (journal w) (PGroup m g) ++ [(k, lease_fence lease)]) as Ht.
  { cbn. unfold group_events. rewrite map_app, filter_app, map_app. cbn [map entry_record next_entry].
    rewrite filter_cons_True, filter_nil by done. cbn. by rewrite Hk, Hf. }
  split; [done| |by intros _| |].
  - intros [m' g'|m' i|m'] _ Hs; cbn; try done. unfold group_events. rewrite map_app, filter_app, map_app.
    cbn [map entry_record next_entry]. rewrite filter_cons_False, filter_nil; [by rewrite app_nil_r|].
    cbn in Hs. intros [Hd' Ho']. apply Hs. f_equal; [congruence|]. apply Nat2Z.inj. congruence.
  - unfold last_kind. cbn [journal with_journal]. by rewrite Ht, last_snoc.
  - intros [p Hp]. exists p. eapply event_open; [done..| |congruence]. by apply group_of_plan in Hin.
Qed.

Lemma backfill_position m i : PBackfill m i ∈ ops -> Z.of_nat i <= u32_max.
Proof using HP.
  intros (m1 & Hm1 & [?|[(?&?&?)|(j' & Hj' & E)]])%elem_plan_ops; [done|done|].
  injection E as <- <-. by apply (po_positions HP m).
Qed.

Lemma backfill_extends lease (w : World) m i k c r :
  PBackfill m i ∈ ops -> highest_fence w = lease_fence lease -> new_apply lease m i k c = Ok r ->
  extends lease w (with_journal w (add_backfill (journal w) r)) (PBackfill m i) k.
Proof using HP.
  intros Hin Hfence Hr. pose proof Hr as (Hm & Hd & Ho & Hs & Hdir & Hk & Hf)%backfill_event_fields.
  assert (trail (add_backfill (journal w) r) (PBackfill m i) =
    trail (journal w) (PBackfill m i) ++ [(k, lease_fence lease)]) as Ht.
  { cbn. unfold executed_backfill_events. rewrite map_app, filter_app, map_app. cbn [map entry_record next_entry].
    rewrite filter_cons_True, filter_nil by (rewrite (clamp_small i) by (by apply (backfill_position m)); done).
    cbn. by rewrite Hk, Hf. }
  split; [done| |by intros _| |].
  - intros [m' g'|m' j|m'] Hin' Hne; cbn; try done. unfold executed_backfill_events.
    rewrite map_app, filter_app, map_app. cbn [map entry_record next_entry].
    rewrite filter_cons_False, filter_nil; [by rewrite app_nil_r|]. cbn in Hne.
    rewrite (clamp_small j) by (by apply (backfill_position m')). intros (_ & Hd' & Ho' & _ & _). apply Hne.
    f_equal; [congruence|]. apply Nat2Z.inj. congruence.
  - unfold last_kind. cbn [journal with_journal]. by rewrite Ht, last_snoc.
  - intros [p Hp]. exists p. eapply backfill_open; [done..| |congruence]. by apply backfill_of_plan in Hin.
Qed.

(** ** The executor's programs *)

Section executor.
Context (l : MigrationLease) (control : MigrationExecutionControl) (snapshot : option OpenPlanRecord).

(** What the snapshot tells of an operation. *)
Definition known (o : PlanOperation) : option GroupJournalEventKind :=
  match o with
  | PGroup m g => snapshot ≫= fun open => last_group_event open m g
  | PBackfill m i => be_kind <$> last (snapshot_backfill_events snapshot m i)
  | PApplied _ => None
  end.

Definition applied_outcome (o : MigrationExecutionOutcome) : Prop := exists b, o = Applied b.

#[local] Abbreviation Inv := (Inv live_semantics).
#[local] Abbreviation wp := (wp live_semantics apply_units Inv finished).
#[local] Abbreviation guarantee := (guarantee Inv finished).
#[local] Abbreviation cursor := (cursor live_semantics l known).
#[local] Abbreviation standing := (standing live_semantics l known).
#[local] Abbreviation arrived := (arrived live_semantics l known applied_outcome).
#[local] Abbreviation passed := (passed live_semantics l known applied_outcome).
#[local] Abbreviation recorder := (recorder live_semantics apply_units l known).
#[local] Ltac keep := split; [by apply guarantee_same|].

Lemma group_recorder {S} m g pre o2 todo : recorder (PGroup m g) pre o2 todo (record_event (S := S) l m g).
Proof using HP.
  apply (build_recorder live_semantics apply_units l known (PGroup m g) pre o2 todo (GroupEventRecord_new l m g)
    (fun r => perform (RecordGroupEvent l r)) (fun w => opened (journal w) <> None) add_event).
  - intros w k x r Hst. apply event_extends; [by eapply standing_here|by destruct Hst].
  - intros w r Q H r' w' Hc. by apply H.
Qed.

Lemma backfill_recorder {S} m i pre o2 todo : recorder (PBackfill m i) pre o2 todo (record_backfill (S := S) l m i).
Proof using HP.
  apply (build_recorder live_semantics apply_units l known (PBackfill m i) pre o2 todo (new_apply l m i)
    (fun r => perform (RecordBackfillEvent l r))
    (fun w => opened (journal w) <> None \/ rollback_opened (journal w) <> None) add_backfill).
  - intros w k x r Hst. apply backfill_extends; [by eapply standing_here|by destruct Hst].
  - intros w r Q H r' w' Hc. by apply H.
Qed.

(** The check between preparing a group and its statements. *)
Definition group_check (m : VerifiedMigrationApplyManifest) (g : VerifiedMigrationTransactionGroup) (tx : PreparedGroup)
    : Prog (result Diagnostic PreparedGroup) :=
  if negb ((first_step_index g <=? end_step_index g)%nat && (end_step_index g <=? length (steps m))%nat)
  then Halt
  else execute_assertions control tx
         (firstn (assertion_count g) (slice (first_step_index g) (end_step_index g) (steps m))).

Lemma group_check_passive m g : passive live_semantics apply_units (group_check m g).
Proof using Type.
  intros w tx HI. unfold group_check. destruct (negb _); [done|]. by apply wp_assertions.
Qed.

Lemma not_applied_retry m g e : ~ applied_outcome (retry_safe m g e).
Proof using Type. by intros [b ?]. Qed.
Lemma not_applied_explicit m g e : ~ applied_outcome (explicit_recovery m g e).
Proof using Type. by intros [b ?]. Qed.
Lemma not_applied_backfill_retry m i e : ~ applied_outcome (backfill_retry_safe m i e).
Proof using Type. by intros [b ?]. Qed.
Lemma not_applied_backfill_explicit m i e : ~ applied_outcome (backfill_explicit_recovery m i e).
Proof using Type. by intros [b ?]. Qed.

Lemma wp_group w m g o2 todo seen :
  cursor w (PGroup m g :: o2 :: todo) seen ->
  wp (execute_group l control m g (snapshot ≫= fun open => last_group_event open m g) seen) (arrived o2 todo) w.
Proof using HP.
  intros Hc. destruct (cursor_case _ _ _ _ _ _ _ _ Hc) as [Hk Hcase].
  { unfold effective. cbn. by destruct (group_evidence m g) as [[[]]|]. }
  cbn [known] in Hk. unfold execute_group. rewrite Hk.
  destruct Hcase as [[(k & -> & ->) Hc2]|(-> & pre & Hst & Hfresh & Hrd)]; [done|].
  destruct (group_evidence m g) as [[[source target] low]|e] eqn:Eg; [|done].
  apply (wp_visit_transaction live_semantics apply_units l known control applied_outcome (retry_safe m g)
    (explicit_recovery m g) (record_event l m g) source target (units low) (formal g source target low) (group_check m g)
    (PGroup m g) pre o2 todo); try done.
  - cbn. by rewrite Eg.
  - apply not_applied_retry.
  - apply not_applied_explicit.
  - apply group_recorder.
  - apply group_check_passive.
Qed.

Lemma wp_backfill w m i o2 todo seen :
  cursor w (PBackfill m i :: o2 :: todo) seen ->
  wp (execute_apply_backfill l control m i snapshot) (passed o2 todo seen) w.
Proof using HP.
  intros Hc. destruct (cursor_case _ _ _ _ _ _ _ _ Hc) as [Hk Hcase].
  { unfold effective. cbn. by destruct (steps m !! i ≫= _) as [[]|]. }
  cbn [known] in Hk. unfold execute_apply_backfill. cbv zeta. rewrite Hk.
  destruct (steps m !! i ≫= fun s => as_backfill (ApplyPlan.step s)) as [[ctr program]|] eqn:Ep; [|done].
  destruct Hcase as [[(k & -> & ->) Hc2]|(Hnc & pre & Hst & Hfresh & Hrd)].
  { by destruct (last (snapshot_backfill_events snapshot m i) ≫= be_completion). }
  apply (wp_visit_data live_semantics apply_units l known control applied_outcome (backfill_retry_safe m i)
    (backfill_explicit_recovery m i) (record_backfill l m i) program Forward (bc_plan_fingerprint ctr)
    (fun completion => backfill_observation (manifest_id (manifest m)) i i completion)
    (PBackfill m i) pre o2 todo seen); try done.
  - cbn. by rewrite Ep.
  - apply not_applied_backfill_retry.
  - apply not_applied_backfill_explicit.
  - apply backfill_recorder.
Qed.

(** ** The manifest checkpoint *)

Lemma recorded_iff j m : ~ untouched j (PApplied m) <-> recorded j m.
Proof using Type.
  unfold untouched, recorded. cbn. split.
  - intros H. destruct (filter _ (ledger j)) as [|e es] eqn:E; [done|]. exists e.
    assert (e ∈ filter (fun e => ar_migration (entry_record e) = manifest_id (manifest m)) (ledger j)) as Hin
      by (rewrite E; apply list_elem_of_here). by apply list_elem_of_filter in Hin as [? ?].
  - intros (e & He & Hid) H. apply map_eq_nil in H.
    assert (e ∈ filter (fun e => ar_migration (entry_record e) = manifest_id (manifest m)) (ledger j)) as Hin
      by (by apply list_elem_of_filter). rewrite H in Hin. by apply not_elem_of_nil in Hin.
Qed.

Lemma fulfilled_iff j p r :
  migration_ids (entry_record p) = plan_ids (migrations plan) ->
  fulfilled (entry_record p) (ledger j ++ [next_entry j r]) = true <->
  forall m, m ∈ migrations plan -> recorded j m \/ ar_migration r = manifest_id (manifest m).
Proof using Type.
  intros Hids. unfold fulfilled. rewrite Hids, forallb_forall. setoid_rewrite <- list_elem_of_In. unfold plan_ids.
  setoid_rewrite elem_map.
  assert (forall id, existsb (fun e => bool_decide (ar_migration (entry_record e) = id)) (ledger j ++ [next_entry j r]) = true <->
    (exists e, e ∈ ledger j /\ ar_migration (entry_record e) = id) \/ ar_migration r = id) as H.
  { intros id. rewrite existsb_app, orb_true_iff, existsb_exists. setoid_rewrite <- list_elem_of_In.
    setoid_rewrite bool_decide_eq_true. cbn. by rewrite orb_false_r, bool_decide_eq_true. }
  setoid_rewrite H. unfold recorded. naive_solver.
Qed.

(** The record of a manifest of the plan, not in the ledger before. *)
Record appliable (j : Journal) (m : VerifiedMigrationApplyManifest) (r : AppliedRecord) : Prop := {
  ab_plan : m ∈ migrations plan;
  ab_record : exists lease, AppliedRecord_from_verified_manifest sha256 encode lease (manifest m) = Some (Ok r);
  ab_fresh : Forall (fun e => ar_migration (entry_record e) <> ar_migration r) (ledger j) }.

Lemma appliable_id j m r : appliable j m r -> ar_migration r = manifest_id (manifest m).
Proof using Type. intros [_ [lease H] _]. by eapply applied_record_id. Qed.

Lemma applied_open fence j p m r :
  apply_open fence j p -> appliable j m r -> fulfilled (entry_record p) (ledger j ++ [next_entry j r]) = false ->
  apply_open fence (add_applied j p r) p.
Proof using Type.
  intros [H1 H2 H3 H4 H5 H6 H7 H8 H9] [Hm [lease Hr] Hfresh] Hc. unfold add_applied. rewrite Hc.
  assert (entry_sequence p <= last_sequence j) as Hp by (destruct H3 as [_ _ [Hp _]]; exact Hp).
  split; cbn [opened events backfill_events ledger last_sequence]; try done.
  - eapply stored_ok_mono; [exact H3|lia|lia].
  - apply Forall_app. split; [done|]. constructor; [|done]. right. cbn. split; [lia|]. by exists lease, m.
  - apply StronglySorted_snoc; [done|]. eapply Forall_impl; [exact H8|]. unfold earlier. cbn. lia.
  - apply Forall_app. split; [|constructor; [cbn; lia|done]]. eapply Forall_impl; [exact H8|]. cbn. lia.
  - rewrite map_app. cbn. apply NoDup_app. split_and!; [done| |apply NoDup_singleton].
    intros id (e & He & ->)%elem_map E%list_elem_of_singleton. rewrite Forall_forall in Hfresh. by apply (Hfresh e).
Qed.

Lemma applied_extends (w : World) p m r :
  opened (journal w) = Some p -> appliable (journal w) m r ->
  fulfilled (entry_record p) (ledger (journal w) ++ [next_entry (journal w) r]) = false ->
  extends l w (with_journal w (add_applied (journal w) p r)) (PApplied m) Committed.
Proof using Type.
  intros Ho Hab Hc. pose proof (appliable_id _ _ _ Hab) as Hr.
  assert (ledger (add_applied (journal w) p r) = ledger (journal w) ++ [next_entry (journal w) r]) as Hl by done.
  split; [done| |done| |].
  - intros [m' g'|m' i|m'] _ Hs; cbn [trail apply_view plan_trail journal with_journal]; [by unfold add_applied; rewrite Hc..|].
    rewrite Hl, filter_app, filter_cons_False, filter_nil, app_nil_r; [done|]. cbn in Hs |- *. congruence.
  - unfold last_kind. cbn [trail apply_view plan_trail journal with_journal].
    rewrite Hl, filter_app, filter_cons_True, filter_nil, map_app by done. cbn. by rewrite last_snoc.
  - intros (p' & Hp'). assert (p' = p) as -> by (destruct Hp'; congruence). exists p. by eapply applied_open.
Qed.

(** Appending the ledger entry of the manifest at the frontier. *)
Lemma applied_advance w p pre m todo r seen :
  active w = Some l -> highest_fence w = lease_fence l -> running_at live_semantics w pre (PApplied m) todo ->
  Forall (synced l known w) todo -> (forall s, seen = Some s -> reads w s) ->
  opened (journal w) = Some p -> appliable (journal w) m r ->
  let w' := with_journal w (add_applied (journal w) p r) in
  Inv w' /\ resting live_semantics l known w' todo seen.
Proof using HP.
  intros Ha Hf Hr Hs Hk Ho Hab w'. pose proof (appliable_id _ _ _ Hab) as Hid. pose proof Hr as [(p' & Hop) _ _ _ _ _].
  assert (p' = p) as -> by (destruct Hop; congruence).
  pose proof (fulfilled_iff (journal w) p r (open_ids _ _ _ Hop)) as Hful.
  apply (checkpoint_advance live_semantics apply_units l known w _ pre (PApplied m)); try done.
  - intros ->. assert (forall m', m' ∈ migrations plan -> recorded (journal w) m' \/ ar_migration r = manifest_id (manifest m')) as Hall.
    { intros m' Hm'. destruct (marks_done live_semantics w pre m m' Hr Hm') as [H|[= ->]]; [left; by apply recorded_iff|by right]. }
    assert (ledger (add_applied (journal w) p r) = ledger (journal w) ++ [next_entry (journal w) r]) as Hl by done.
    split; [unfold add_applied; by rewrite (proj2 Hful Hall)|]. intros m' Hm'. unfold recorded. rewrite Hl.
    setoid_rewrite elem_of_app. setoid_rewrite list_elem_of_singleton.
    destruct (Hall m' Hm') as [(e & He & Hide)|E]; [by eauto|]. eexists. split; [by right|done].
  - intros Hne. apply applied_extends; [done..|]. apply not_true_iff_false. intros Hfl. apply Hne.
    apply (marks_complete live_semantics apply_units w pre (PApplied m) todo Hr).
    intros m' Hm'. destruct (proj1 Hful Hfl m' Hm') as [H|H]; [left; by apply recorded_iff|right; cbn; congruence].
Qed.

Lemma not_applied_stop m k e : ~ applied_outcome (RetrySafe m k e) /\ ~ applied_outcome (ExplicitRecovery m k e).
Proof using Type. split; by intros [b ?]. Qed.

Lemma checkpoint_of_plan w pre m todo : running_at live_semantics w pre (PApplied m) todo -> m ∈ migrations plan.
Proof using Type.
  intros [_ Hs _ _ _ _]. assert (PApplied m ∈ ops) as Hin by (rewrite Hs; apply elem_of_app; right; apply list_elem_of_here).
  by apply elem_plan_ops in Hin as (m' & Hm' & [[= ->]|[(? & _ & ?)|(? & _ & ?)]]).
Qed.

Lemma wp_checkpoint w m todo seen :
  cursor w (PApplied m :: todo) seen ->
  wp (checkpoint sha256 encode l m seen) (checkpointed live_semantics l known applied_outcome todo) w.
Proof using HP.
  intros Hc. pose proof (cursor_Inv _ _ _ _ _ _ Hc) as HI. pose proof Hc as [Ha Hf _ _ _].
  destruct (cursor_checkpoint _ _ _ _ _ _ _ Hc eq_refl) as (pre & Hr & Hs & Hrd).
  assert (forall seen', (forall s, seen' = Some s -> reads w s) ->
    wp (record_checkpoint sha256 encode l m seen') (checkpointed live_semantics l known applied_outcome todo) w) as Hgo.
  2: { unfold checkpoint. destruct (bool_decide (seen = None) || _); [|by apply Hgo]. apply wp_bind_ok. cbn.
       intros [s|e] w' [-> Hs']; keep; [|done]. apply Hgo. intros t [= <-]. apply Hs'. }
  intros seen' Hk. unfold record_checkpoint. destruct (negb _); [apply not_applied_stop|].
  destruct (AppliedRecord_from_verified_manifest sha256 encode l (manifest m)) as [[r|e]|] eqn:Er; [|done..].
  assert (forall p, opened (journal w) = Some p ->
    Forall (fun e => ar_migration (entry_record e) <> ar_migration r) (ledger (journal w)) ->
    Inv (with_journal w (add_applied (journal w) p r)) /\
    resting live_semantics l known (with_journal w (add_applied (journal w) p r)) todo seen') as Hadv.
  { intros p Ho Hfresh. apply (applied_advance w p pre m); try done. split; [by eapply checkpoint_of_plan|by exists l|done]. }
  apply applied_record_id in Er. cbn [bind perform Fencing.wp]. intros [e|e] w' Hcon; cbn in Hcon.
  - destruct Hcon as [(p & _ & (Ho & _ & Hfresh) & _ & ->)|(-> & _ & Hin & He)].
    + destruct (Hadv p Ho Hfresh) as [HI' Hfin].
      split; [by apply (guarantee_running live_semantics apply_units w _ pre (PApplied m) todo)|]. exact Hfin.
    + exfalso. destruct Hr as [_ _ _ _ [Hl _] _]. apply (proj2 (recorded_iff (journal w) m)); [|done]. exists e. by rewrite He.
  - split; [|apply not_applied_stop].
    destruct Hcon as [(p & [->|(_ & (Ho & _ & Hfresh) & ->)])|(-> & _)]; [by apply guarantee_same| |by apply guarantee_same].
    destruct (Hadv p Ho Hfresh) as [HI' _]. by apply (guarantee_running live_semantics apply_units w _ pre (PApplied m) todo).
Qed.

(** ** The loops *)

Lemma wp_backfills w checked m positions retained o2 todo seen :
  cursor w (map (PBackfill m) positions ++ o2 :: todo) seen ->
  wp (run_backfills l control checked m snapshot positions retained) (passed o2 todo seen) w.
Proof using HP.
  revert w retained. induction positions as [|i positions IH]; intros w retained Hc; [done|].
  pose proof (cursor_Inv _ _ _ _ _ _ Hc) as HI. cbn [run_backfills map app] in Hc |- *.
  assert (exists o3 todo3, map (PBackfill m) positions ++ o2 :: todo = o3 :: todo3) as (o3 & todo3 & E).
  { destruct positions; cbn; eauto. }
  assert (forall w, Inv w -> cursor w (PBackfill m i :: o3 :: todo3) seen ->
    wp (bind_ok (execute_apply_backfill l control m i snapshot) (fun r =>
      match r with
      | Return outcome => Ret (Ok (Return outcome))
      | Next observation =>
          match retain_backfill_observation control retained observation with
          | Err e => Ret (Err e)
          | Ok retained => run_backfills l control checked m snapshot positions retained
          end
      end)) (passed o2 todo seen) w) as Hgo.
  { clear HI Hc w. intros w HI Hc. apply wp_bind_ok. eapply wp_mono; [by apply (wp_backfill w m i o3 todo3 seen)|].
    intros [[observation|outcome]|e] w' Hp; [|done..]. cbn in Hp. rewrite <- E in Hp.
    destruct (retain_backfill_observation control retained observation); [by apply IH|done]. }
  rewrite E in Hc. apply wp_bind_ok. destruct checked; [|by apply Hgo]. cbn. intros [u|e] w' ->; keep; [by apply Hgo|done].
Qed.

Lemma wp_groups w m groups backfills st todo :
  cursor w (map (of_operation m) (schedule groups backfills) ++ PApplied m :: todo) (observed st) ->
  wp (run_groups l control m snapshot groups backfills st)
    (fun r w' => match r with
                 | Ok (Next st') => cursor w' (PApplied m :: todo) (observed st')
                 | Ok (Return o) => ~ applied_outcome o
                 | Err _ => True
                 end) w.
Proof using HP.
  revert w backfills st. induction groups as [|g groups IH]; intros w backfills st Hc.
  - cbn [run_groups schedule] in Hc |- *. rewrite map_map in Hc. apply wp_bind_ok.
    eapply wp_mono; [by apply (wp_backfills w true m backfills (observations st) (PApplied m) todo (observed st))|].
    by intros [[retained|outcome]|e] w' H.
  - pose proof (cursor_Inv _ _ _ _ _ _ Hc) as HI. cbn [run_groups schedule] in Hc |- *.
    destruct (take_while _ backfills) as [before after] eqn:Etw.
    rewrite map_app, map_map, <- app_assoc in Hc. cbn [map of_operation app] in Hc.
    apply wp_bind_ok. cbn [perform Fencing.wp]. intros [u|e] w' ->; keep; [|done].
    assert (exists o3 todo3, map (of_operation m) (schedule groups after) ++ PApplied m :: todo = o3 :: todo3)
      as (o3 & todo3 & E) by (destruct (schedule groups after); cbn; eauto).
    apply wp_bind_ok. eapply wp_mono; [eapply (wp_backfills w false m before (observations st) (PGroup m g) _ (observed st)); exact Hc|].
    intros [[retained|outcome]|e] w1 H; [|done..]. cbn in H. rewrite E in H. apply wp_bind_ok.
    eapply wp_mono; [by apply (wp_group w1 m g o3 todo3 (observed st))|].
    intros [[seen|outcome]|e] w2 H2; [|done..]. cbn in H2. rewrite <- E in H2. by apply IH.
Qed.

Lemma wp_manifests w ms st :
  match ms with [] => finished w | _ => cursor w (ops_of ms) (observed st) end ->
  wp (run_manifests sha256 encode l control snapshot ms st) (accomplished finished (succeeded applied_outcome)) w.
Proof using HP.
  assert (forall e, ~ succeeded applied_outcome (Err e)) as Herr by (by intros e (o & ? & _)).
  revert w st. induction ms as [|m ms IH]; intros w st Hc; [by intros _|]. cbn [run_manifests].
  change (ops_of (m :: ms)) with (block m ++ ops_of ms) in Hc. unfold block in Hc. rewrite <- app_assoc in Hc.
  apply wp_bind_ok. eapply wp_mono; [by apply (wp_groups w m _ _ st (ops_of ms))|].
  intros [[st'|outcome]|e] w1 H; [|by intros (o & [= <-] & ?)|by intros ?%Herr].
  apply wp_bind_ok. eapply wp_mono; [by apply (wp_checkpoint w1 m (ops_of ms) (observed st'))|].
  intros [[seen|outcome]|e] w2 H2; [|by intros (o & [= <-] & ?)|by intros ?%Herr]. apply IH.
  by apply (resting_blocks live_semantics l known w2 ms seen).
Qed.
End executor.

(** ** Resuming an open plan *)

Lemma validated_completed l open j n :
  validate_open_plan plan l open (ledger j) = Ok n ->
  forall i m, migrations plan !! i = Some m -> (i < n)%nat <-> recorded j m.
Proof using HP.
  unfold validate_open_plan. intros H. apply bind_ok_iff in H as (u & _ & H). case_in H.
  apply bind_ok_iff in H as (flags & Hf & H).
  destruct (existsb _ (skipn _ flags)) eqn:Ex; [done|].
  apply bind_ok_iff in H as (u1 & _ & H). apply bind_ok_iff in H as (u2 & _ & H). apply bind_ok_iff in H as (u3 & _ & H).
  injection H as <-. apply mark_applied_flags in Hf as [_ Hf]; [|apply HP|by rewrite length_replicate].
  intros i m Hi. rewrite <- (take_while_flags flags Ex i), (Hf i m Hi).
  split; [|by right]. intros [Hr|?]; [|done]. apply lookup_replicate in Hr as [? _]. done.
Qed.

#[local] Abbreviation Inv := (Inv live_semantics).
#[local] Abbreviation wp := (wp live_semantics apply_units Inv finished).
#[local] Abbreviation cursor := (cursor live_semantics).
#[local] Abbreviation entered := (entered live_semantics).

Lemma resume_plan w l p open n :
  entered l w -> opened (journal w) = Some p ->
  from_store_with_backfills p (events (journal w)) (backfill_events (journal w)) = Ok open ->
  validate_open_plan plan l open (ledger (journal w)) = Ok n ->
  match skipn n (migrations plan) with
  | [] => finished w
  | _ => cursor l (known (Some open)) w (ops_of (skipn n (migrations plan))) None
  end.
Proof using HP.
  intros Hent Ho Hst Hv. destruct (entered_Inv live_semantics apply_units _ _ Hent) as (HI & Ha & Hf).
  assert (open = open_plan p (events (journal w)) (backfill_events (journal w))) as ->.
  { unfold from_store_with_backfills in Hst. apply bind_ok_iff in Hst as (u & _ & Hst). case_in Hst. by injection Hst as <-. }
  destruct HI as [[Hn _]|[(d & o & rest & Hr)|[[Hn _] _]]]; [congruence| |congruence].
  change (migrations plan) with blocks.
  apply (resume_cursor live_semantics apply_units l
    (known (Some (open_plan p (events (journal w)) (backfill_events (journal w))))) w n); [by exists d, o, rest|done|done| |].
  - intros i m Hi. cbn [mark apply_view]. rewrite recorded_iff. by apply (validated_completed l _ _ n Hv).
  - intros x Hin He. split; [|by eapply (entered_fresh live_semantics apply_units)].
    unfold last_kind. destruct x as [m' g|m' i|m']; cbn [known trail apply_view plan_trail mbind option_bind].
    + by rewrite last_map_fst.
    + by rewrite last_map_fst.
    + by destruct He.
Qed.

Lemma begin_open j record l ids s :
  loaded_applied_migrations (ledger j) = Ok ids -> PlanRecord_from_verified_plan l plan ids s = Ok record ->
  events j = [] -> backfill_events j = [] -> Forall (fun e => entry_sequence e <= last_sequence j) (ledger j) ->
  (forall m, m ∈ migrations plan -> ~ recorded j m) ->
  apply_open (lease_fence l) (add_plan j record) (next_entry j record).
Proof using Type.
  clear HP. intros (Hs & Hn & _)%load_identities_order Hrec He Hb Hl Hnew.
  pose proof Hrec as (_ & -> & _ & _ & Hf)%plan_record_fields. rewrite Forall_forall in Hl.
  split; cbn [opened events backfill_events ledger last_sequence add_plan entry_record next_entry]; try done.
  - by exists l, s.
  - unfold stored. cbn [events backfill_events add_plan]. rewrite He, Hb.
    split; [split; [constructor|constructor|set_solver]|constructor|]. cbn. lia.
  - rewrite He. constructor.
  - rewrite Hb. constructor.
  - rewrite Forall_forall. intros e Hin. left. cbn. split; [specialize (Hl e Hin); cbn in Hl; lia|].
    intros m Hm E. apply (Hnew m Hm). by exists e.
  - rewrite Forall_forall. intros e Hin. specialize (Hl e Hin). cbn in Hl. lia.
Qed.

(** A plan opened now starts at its first operation. *)
Lemma begin_plan w l record ids s :
  Inv w -> active w = Some l -> highest_fence w = lease_fence l -> opened (journal w) = None ->
  loaded_applied_migrations (ledger (journal w)) = Ok ids ->
  PlanRecord_from_verified_plan l plan ids s = Ok record -> reads w s ->
  let w' := with_journal w (add_plan (journal w) record) in
  ~ finished w /\ Inv w' /\ cursor l (known None) w' (ops_of (migrations plan)) (Some s).
Proof using HP.
  intros HI Ha Hf Ho Hids Hrec Hrd w'. pose proof Hrec as (Hne & -> & _)%plan_record_fields.
  assert (forall m, m ∈ migrations plan -> ~ recorded (journal w) m) as Hnew.
  { intros m Hm Hr. apply (po_new HP m Hm). apply (load_identities_elem _ _ _ _ Hids). by right. }
  assert (~ finished w) as Hnf.
  { intros [[_ Hall] _]. destruct (migrations plan) as [|m ms]; [done|]. apply (Hnew m); [|apply Hall]; set_solver. }
  split; [done|].
  destruct HI as [(_ & _ & He & _ & Hb & Hl & Hini)|[(d & o & rest & [(p & Hp) _ _ _ _ _])|?]]; [|destruct Hp; congruence|done].
  change (migrations plan) with blocks. apply (begin_cursor live_semantics l (known None) w' (Some s)); try done.
  - exists (next_entry (journal w) record). cbn [highest_fence with_journal w']. rewrite Hf. by apply (begin_open (journal w) record l (applied_migrations plan) s).
  - cbn. rewrite Hl. constructor.
  - intros o (m & Hm & [->|[(g & _ & ->)|(i & _ & ->)]])%elem_plan_ops.
    + apply dec_stable. intros H%recorded_iff. by apply (Hnew m Hm).
    + unfold untouched. cbn. unfold group_events. by rewrite He.
    + unfold untouched. cbn. unfold executed_backfill_events. by rewrite Hb.
  - by intros [m g|m i|m].
  - by intros t [= <-].
Qed.


(** The execution under a lease. *)
Lemma wp_under_lease w l control :
  entered l w ->
  wp (execute_under_lease sha256 encode l control plan) (accomplished finished (succeeded applied_outcome)) w.
Proof using HP.
  intros Hent. destruct (entered_Inv live_semantics apply_units _ _ Hent) as (HI & Ha & Hf).
  assert (forall e, accomplished finished (succeeded applied_outcome) (Err e) w) as Herr by (by intros e (o & ? & _)).
  unfold execute_under_lease. apply wp_bind_ok. cbn [perform Fencing.wp].
  intros [u|e] w' ->; (split; [by apply guarantee_same|]); [|apply Herr].
  apply wp_bind_ok. cbn [perform Fencing.wp]. intros [entries|e] w' [-> Hap]; (split; [by apply guarantee_same|]); [|apply Herr].
  destruct Hap as [_ ->].
  apply wp_bind_ok. cbn [perform Fencing.wp]. intros [open|e] w' [-> Hopen]; (split; [by apply guarantee_same|]); [|apply Herr].
  destruct Hopen as [_ Hopen]. destruct open as [open|].
  - destruct (opened (journal w)) as [p|] eqn:Ho; [|done].
    destruct (validate_open_plan plan l open (ledger (journal w))) as [n|e] eqn:Ev; [|apply Herr].
    apply wp_manifests. by apply (resume_plan w l p).
  - destruct (opened (journal w)) eqn:Ho; [done|]. destruct (source_state plan) as [source|]; [|done].
    apply wp_bind_ok. apply wp_await; [done| |apply Herr].
    cbn [perform Fencing.wp]. intros [s|e] w' [-> Hs]; (split; [by apply guarantee_same|]); [|apply Herr]. destruct Hs as [_ Hs].
    destruct (loaded_applied_migrations (ledger (journal w))) as [ids|e] eqn:Ei; [|apply Herr].
    destruct (PlanRecord_from_verified_plan l plan ids s) as [record|e] eqn:Er; [|apply Herr].
    destruct (begin_plan w l record ids s HI Ha Hf Ho Ei Er Hs) as (Hnf & HI' & Hcur).
    assert (guarantee Inv finished w (with_journal w (add_plan (journal w) record))) as Hg' by (split; [done|by intros ?%Hnf]).
    apply wp_bind_ok. cbn [perform Fencing.wp]. intros [entry|e] w' Hc; cbn in Hc.
    + destruct Hc as (_ & _ & _ & ->). split; [done|]. apply wp_manifests. destruct (migrations plan) eqn:Em; [|exact Hcur].
      by apply plan_record_fields in Er as [? _].
    + destruct Hc as [->|(_ & _ & ->)]; (split; [done|]); [apply Herr|]. by intros (o & ? & _).
Qed.

(** ** Fencing discipline *)

Section discipline.
Context (l : MigrationLease) (control : MigrationExecutionControl).

Lemma uses_record {S} m g k obs failed next :
  (forall e, uses l (failed e)) -> uses l next -> uses l (record_event (S := S) l m g k obs failed next).
Proof using Type. intros Hf Hn. unfold record_event. repeat uses_step; done. Qed.

Lemma uses_record_backfill {S} m i k c failed next :
  (forall e, uses l (failed e)) -> uses l next -> uses l (record_backfill (S := S) l m i k c failed next).
Proof using Type. intros Hf Hn. unfold record_backfill. repeat uses_step; done. Qed.

#[local] Ltac uses_calls :=
  repeat first [uses_shared | apply uses_record; [intros ?|] | apply uses_record_backfill; [intros ?|]].

Lemma uses_group m g last_event seen : uses l (execute_group l control m g last_event seen).
Proof using Type. unfold execute_group, apply_group, commit_group. uses_calls. Qed.

Lemma uses_backfill m i snapshot : uses l (execute_apply_backfill l control m i snapshot).
Proof using Type. unfold execute_apply_backfill, run_backfill. cbv zeta. uses_calls. Qed.

Lemma uses_backfills checked m snapshot positions retained :
  uses l (run_backfills l control checked m snapshot positions retained).
Proof using Type.
  revert retained. induction positions as [|i positions IH]; intros retained; cbn [run_backfills]; uses_calls;
    [apply uses_backfill|apply IH].
Qed.

Lemma uses_groups m snapshot groups backfills st :
  uses l (run_groups l control m snapshot groups backfills st).
Proof using Type.
  revert backfills st. induction groups as [|g groups IH]; intros backfills st; cbn [run_groups]; uses_calls;
    try apply uses_backfills; [apply uses_group|apply IH].
Qed.

Lemma uses_under_lease : uses l (execute_under_lease sha256 encode l control plan).
Proof using Type.
  assert (forall snapshot ms st, uses l (run_manifests sha256 encode l control snapshot ms st)) as Hms.
  { intros snapshot ms. induction ms as [|m ms IH]; intros st; cbn [run_manifests]; uses_calls;
      [apply uses_groups| |apply IH]. unfold checkpoint, record_checkpoint. uses_calls. }
  unfold execute_under_lease. uses_calls; apply Hms.
Qed.
End discipline.

(** ** The whole execution *)

Lemma finish_apply_success r release :
  succeeded applied_outcome (finish_apply_lease_release r release) ->
  succeeded applied_outcome r /\ exists u, release = Ok u.
Proof using Type.
  intros (o & E & b & ->). destruct r as [[]|], release as [u|]; cbn in E; try done. injection E as ->.
  split; [|by exists u]. eexists. split; [reflexivity|]. by eexists.
Qed.

Lemma execution_starting available supports_backfill holder control :
  starting live_semantics apply_units Inv finished (succeeded applied_outcome)
    (execute_verified_migration_apply_plan_controlled sha256 encode available supports_backfill holder plan control).
Proof using HP.
  apply (fenced_starting live_semantics apply_units applied_outcome finish_apply_lease_release finish_apply_success
    (preflight control available supports_backfill plan) (fun source => scope_id (scope source)) holder
    (fun l => execute_under_lease sha256 encode l control plan)).
  - intros l. apply uses_under_lease.
  - intros l w. apply wp_under_lease.
Qed.

#[local] Abbreviation executor p := (exists available supports_backfill holder control,
  p = execute_verified_migration_apply_plan_controlled sha256 encode available supports_backfill holder plan control).

(** The invariant of every reachable world. *)
Lemma apply_reachable w0 executors w processes :
  idle w0 -> Forall (fun p => executor p) executors -> reachable live_semantics apply_units w0 executors (w, processes) ->
  Inv w /\ forall r, Ret r ∈ processes -> succeeded applied_outcome r -> finished w.
Proof using HP.
  intros Hi Hex Hr.
  assert (Forall (starting live_semantics apply_units Inv finished (succeeded applied_outcome)) executors) as Hs.
  { eapply Forall_impl; [exact Hex|]. cbn. intros p (? & ? & ? & ? & ->). apply execution_starting. }
  apply (pool_invariant live_semantics apply_units Inv finished (succeeded applied_outcome)
    (Inv_with_lease live_semantics apply_units) finished_with_lease w0 executors w processes (or_introl Hi) Hs Hr).
Qed.

(** C2. Crash safety and exactly-once execution of a verified apply plan. Any
    number of executors run the plan concurrently against one scope; journal
    writes fail with or without being durable, commits have unknown outcomes,
    leases expire and processes stop at any moment. At every moment the database
    has received exactly the statements of a prefix of the plan's operations, in
    order: no group twice, none skipped. A backfill of the prefix was run at most
    once, and the provider verified its exact postcondition, after the run if there
    was one; beyond the prefix there is at most one run of the backfill that comes
    next, of which any number of transaction groups may be committed.
    When an executor reports success, the prefix is the whole plan, every
    migration is in the ledger, and the plan is closed. *)
Theorem apply_exactly_once w0 executors w processes :
  idle w0 ->
  Forall (fun p => exists available supports_backfill holder control,
    p = execute_verified_migration_apply_plan_controlled sha256 encode available supports_backfill holder plan control)
    executors ->
  reachable live_semantics apply_units w0 executors (w, processes) ->
  (exists executed, received executed (log w)) /\
  (forall backfills, Ret (Ok (Applied backfills)) ∈ processes ->
     executes ops (log w) /\ opened (journal w) = None /\ forall m, m ∈ migrations plan -> recorded (journal w) m).
Proof using HP.
  intros Hi Hex Hr. destruct (apply_reachable w0 executors w processes Hi Hex Hr) as [HI Hfin].
  split; [by apply (Inv_received live_semantics)|].
  intros b Hb. destruct (Hfin _ Hb) as [[Ho Ha] He]; [|done].
  exists (Applied b). split; [done|by exists b].
Qed.

End safety.
End ApplySafety.
