(* ===== verification/ApplyRecovery.v ===== *)
(** * Recovery of interrupted apply plans

    Whatever interrupts the executors of a verified plan, the journal they leave
    behind is one that the next executor rebuilds and accepts: none of the
    integrity checks of the recovery refuses it, and the recovery resumes at the
    first manifest that is not in the ledger. *)

From Stdlib Require Import Sorted.
From stdpp Require Import sorting.
From S2P Require Import Prelude BTree Text Ident Fingerprint Schema Components SchemaDelta Safety Limits Assertion Migration Manifest ApplyPlan RollbackPlan Execution RollbackJournal Coordinator Fencing Protocol ApplySafety.
Import Ident Fingerprint Schema Components SchemaDelta Safety Assertion Migration Manifest ApplyPlan Execution RollbackJournal Coordinator Fencing Protocol ApplySafety.
#[local] Open Scope Z_scope.

Module ApplyRecovery.

(** ** The stored events *)

(** The scope of every manifest is the scope of the plan. *)
Lemma check_profiles_scope scope current ms u :
  check_profiles scope current ms = Ok u -> Forall (fun m => scope_id (managed_scope (manifest m)) = scope) ms.
Proof.
  revert current. induction ms as [|m ms IH]; intros current H; [constructor|]. cbn [check_profiles] in H. cbv zeta in H.
  destruct (bool_decide (scope_id _ = scope)) eqn:Hs; [|done]. apply bool_decide_eq_true in Hs. cbn [negb orb] in H.
  destruct (negb _); [done|]. constructor; [done|by eapply IH].
Qed.

(** A group event depends on the lease only through its scope and fence. *)
Lemma group_event_rebuilt lease l m g k obs r :
  GroupEventRecord_new lease m g k obs = Ok r -> lease_scope l = scope_id (managed_scope (manifest m)) ->
  GroupEventRecord_new (MigrationLease_new (lease_scope l) (lease_holder l) (ge_fence r)) m g (ge_kind r)
    (ge_observed_target r) = Ok r /\
  transaction_groups m !! ordinal g = Some g /\ ge_scope r = scope_id (managed_scope (manifest m)).
Proof.
  unfold GroupEventRecord_new. intros H Hl. case_bool_decide as Hg; [|done]. cbn [negb] in H |- *.
  apply bind_ok_iff in H as (s & -> & H). apply bind_ok_iff in H as (d & -> & H). apply bind_ok_iff in H as (low & -> & H).
  case_in H. apply bind_ok_iff in H as (u & Hk & H).
  apply bind_ok_iff in H as (z & -> & H). apply bind_ok_iff in H as (z2 & -> & H). apply bind_ok_iff in H as (z3 & -> & H).
  apply bind_ok_iff in H as (z4 & -> & H). injection H as <-. cbn [ge_kind ge_fence ge_observed_target MigrationLease_new lease_scope].
  rewrite bool_decide_eq_true_2 by done. cbn [negb]. by rewrite Hk.
Qed.

Lemma backfill_event_rebuilt lease l m i k c r :
  new_apply lease m i k c = Ok r -> lease_scope l = scope_id (managed_scope (manifest m)) ->
  new_apply (MigrationLease_new (lease_scope l) (lease_holder l) (be_fence r)) m (Z.to_nat (be_operation_ordinal r))
    (be_kind r) (be_completion r) = Ok r /\ be_scope r = scope_id (managed_scope (manifest m)).
Proof.
  intros H Hl. pose proof H as (_ & _ & Ho & _)%backfill_event_fields. rewrite Ho, Nat2Z.id. revert H.
  unfold new_apply, new_checked. intros H. case_bool_decide as Hs; [|done]. cbn [negb MigrationLease_new lease_scope] in H |- *.
  rewrite bool_decide_eq_true_2 by done. cbn [negb]. 
  destruct (negb (bool_decide (i ∈ _))); [done|].
  apply bind_ok_iff in H as (s & -> & H). apply bind_ok_iff in H as (b & -> & H). apply bind_ok_iff in H as (u & Hk & H).
  apply bind_ok_iff in H as (z & -> & H). injection H as <-. cbn [be_kind be_completion be_fence be_scope].
  rewrite Hk. by rewrite Hl, Hs.
Qed.

(** ** The ledger *)

(** A ledger in order, whose entries of the plan were written for it after it was
    opened, is accepted. *)
Lemma mark_applied_accepts ms opened previous flags entries :
  NoDup (plan_ids ms) -> length flags = length ms ->
  StronglySorted earlier entries -> Forall (fun e => forall p, previous = Some p -> p < entry_sequence e) entries ->
  NoDup (map (fun e => ar_migration (entry_record e)) entries) ->
  Forall (fun e => entry_sequence e < opened /\ (forall m, m ∈ ms -> ar_migration (entry_record e) <> manifest_id (manifest m)) \/
    opened < entry_sequence e /\ exists m, m ∈ ms /\ applied_matches (entry_record e) m = true) entries ->
  (forall i m e, ms !! i = Some m -> e ∈ entries -> ar_migration (entry_record e) = manifest_id (manifest m) ->
    flags !! i = Some false) ->
  exists flags', mark_applied ms opened previous flags entries = Ok flags'.
Proof.
  intros Hids. revert previous flags. induction entries as [|e entries IH]; intros previous flags Hlen Hs Hp Hd Hm Hf; [by eexists|].
  cbn [mark_applied]. apply StronglySorted_inv in Hs as [Hs He]. apply Forall_cons in Hp as [Hpe Hp].
  cbn in Hd. apply NoDup_cons in Hd as [Hde Hd]. apply Forall_cons in Hm as [Hme Hm].
  destruct (match previous with Some _ => _ | None => _ end) eqn:Ep.
  { destruct previous as [p|]; [|done]. apply Z.leb_le in Ep. specialize (Hpe p eq_refl). lia. }
  assert (Forall (fun x => forall p, Some (entry_sequence e) = Some p -> p < entry_sequence x) entries) as Hnext.
  { eapply Forall_impl; [exact He|]. by intros x Hx p [= <-]. }
  destruct Hme as [[Hlt Hother]|(Hlt & m & Hin & Hmatch)].
  - destruct (find_position _ ms) as [i|] eqn:Ei.
    { apply find_position_Some in Ei as (m & Hm' & E%bool_decide_eq_true). exfalso. apply (Hother m); [|done].
      by eapply list_elem_of_lookup_2. }
    assert (opened <? entry_sequence e = false) as -> by (apply Z.ltb_ge; lia).
    apply IH; try done. intros i m x Hi Hx. apply Hf with (e := x); [done|by apply list_elem_of_further].
  - assert (manifest_id (manifest m) = ar_migration (entry_record e)) as Em.
    { unfold applied_matches in Hmatch. simp. by repeat match goal with H : bool_decide _ = true |- _ => apply bool_decide_eq_true in H end. }
    destruct (find_position _ ms) as [i|] eqn:Ei.
    2: { apply (find_position_None _ _ m) in Ei; [|done]. by apply bool_decide_eq_false in Ei. }
    apply find_position_Some in Ei as (m' & Hi & E%bool_decide_eq_true).
    assert (m' = m) as -> by (eapply (NoDup_map_inj _ ms _ _ Hids); [by eapply list_elem_of_lookup_2|done|congruence]).
    rewrite (Hf i m e Hi ltac:(apply list_elem_of_here) ltac:(done)), Hi, Hmatch. cbn [default id negb].
    assert (entry_sequence e <=? opened = false) as -> by (apply Z.leb_gt; lia). cbn [orb].
    apply IH; [by rewrite length_insert|done..|]. intros k x y Hk Hy Ey.
    rewrite list_lookup_insert_ne; [by apply (Hf k x y Hk); [apply list_elem_of_further|]|].
    intros ->. apply Hde. rewrite Hi in Hk. injection Hk as ->. rewrite <- Em, <- Ey. apply elem_map. by exists y.
Qed.

Section recovery.
Context {Live : Type}.
Context (live_semantics : Live -> ManagedScopeBinding -> option Fingerprint.Fingerprint).
Context (apply_units : Live -> list StatementUnit -> Live).
Context (sha256 : str -> str) (encode : VerifiedSchemaMigrationManifest -> result Diagnostic str).
Context (plan : VerifiedMigrationApplyPlan).
Context (HP : plan_ok live_semantics apply_units plan).
#[local] Hint Extern 0 (PlanView _ _ _) => exact (apply_view sha256 encode plan) : typeclass_instances.
#[local] Hint Extern 0 (PlanLaws _ _ _) => exact (apply_laws live_semantics apply_units sha256 encode plan HP) : typeclass_instances.
#[local] Abbreviation World := (World Live).
#[local] Abbreviation apply_open := (apply_open sha256 encode plan).

(** What planning establishes besides: each manifest carries the digest of its
    verified form, and its groups and backfills are at ascending positions. *)
Record plan_recoverable : Prop := {
  pr_digest : forall m, m ∈ migrations plan ->
    verified_manifest_digest sha256 encode (manifest m) = Some (Ok (manifest_digest m));
  pr_order : forall m, m ∈ migrations plan ->
    StronglySorted before (schedule (transaction_groups m) (backfill_step_indices m)) }.

(** ** The plan entry *)

Lemma open_identity lease s record :
  PlanRecord_from_verified_plan lease plan (applied_migrations plan) s = Ok record ->
  validate_plan_identity record plan = Ok tt /\
  Forall (fun m => scope_id (managed_scope (manifest m)) = plan_scope record) (migrations plan).
Proof using Type.
  unfold PlanRecord_from_verified_plan, validate_plan_identity. intros H. apply bind_ok_iff in H as (src & -> & H).
  apply bind_ok_iff in H as (tgt & -> & H). apply bind_ok_iff in H as (first & -> & H).
  case_bool_decide; [|done]. cbn [negb] in H. case_bool_decide as Hs; [|done]. cbn [negb] in H.
  destruct (negb (bool_decide (lease_scope lease = _))); [done|]. cbn [orb] in H.
  case_bool_decide as Ht; [|done]. cbn [negb] in H. apply bind_ok_iff in H as (u & Hc%check_profiles_scope & H).
  injection H as <-. split; [|done]. subst s. cbn. by rewrite !bool_decide_eq_true_2.
Qed.

(** ** The events *)

Lemma find_manifest ms m d id :
  NoDup (map manifest_digest ms) -> m ∈ ms -> d = manifest_digest m -> id = manifest_id (manifest m) ->
  find (fun m => bool_decide (manifest_digest m = d) && bool_decide (manifest_id (manifest m) = id)) ms = Some m.
Proof using Type.
  intros Hn Hm -> ->. destruct (find _ ms) as [m'|] eqn:E.
  - apply find_some in E as [Hin%list_elem_of_In Hd]. simp. apply bool_decide_eq_true in H. f_equal.
    by apply (NoDup_map_inj manifest_digest ms).
  - apply list_elem_of_In, (find_none _ _ E m) in Hm. by rewrite !bool_decide_eq_true_2 in Hm.
Qed.

Lemma group_event_accepted l m lease g k obs (e : JournalEntry GroupEventRecord) :
  m ∈ migrations plan -> GroupEventRecord_new lease m g k obs = Ok (entry_record e) ->
  lease_scope l = scope_id (managed_scope (manifest m)) -> validate_group_event (migrations plan) l e = Ok tt.
Proof using HP.
  intros Hm He Hl. pose proof He as (Hd & Ho & _ & _ & Hi)%group_event_fields.
  apply (group_event_rebuilt _ l) in He as (He & Hg & _); [|done]. unfold validate_group_event. cbv zeta.
  rewrite (find_manifest _ m _ _ ltac:(apply HP) Hm Hd Hi). cbn [ok_or]. rewrite Ho, Nat2Z.id, Hg. cbn [ok_or]. rewrite He.
  by rewrite bool_decide_eq_true_2.
Qed.

Lemma backfill_event_accepted l m lease i k c (e : JournalEntry BackfillEventRecord) :
  m ∈ migrations plan -> new_apply lease m i k c = Ok (entry_record e) ->
  lease_scope l = scope_id (managed_scope (manifest m)) -> validate_backfill_event (migrations plan) l e = Ok tt.
Proof using HP.
  intros Hm He Hl. pose proof He as (Hi & Hd & _)%backfill_event_fields.
  apply (backfill_event_rebuilt _ l) in He as (He & _); [|done]. unfold validate_backfill_event. cbv zeta.
  rewrite (find_manifest _ m _ _ ltac:(apply HP) Hm Hd Hi). cbn [ok_or]. rewrite He. by rewrite bool_decide_eq_true_2.
Qed.

(** ** The progress *)

(** The position of an operation in its manifest. *)
Definition key (o : PlanOperation) : Z :=
  match o with
  | PGroup _ g => Z.of_nat (first_step_index g)
  | PBackfill _ i => Z.of_nat i
  | PApplied _ => 0
  end.

(** The recovery and the executor read the same backfill events. *)
Lemma backfill_views fence j p m i :
  apply_open fence j p -> m ∈ migrations plan -> i ∈ backfill_step_indices m ->
  apply_backfill_events (backfill_events j) m i = executed_backfill_events (backfill_events j) m i.
Proof using HP.
  intros [_ _ _ _ Hb _ _ _ _] Hm Hi. apply filter_agree. intros e (x & Hx & ->)%elem_map.
  rewrite (clamp_small i) by (by apply (po_positions _ _ _ HP m)). split; [|tauto].
  intros (Hd & H). split; [|tauto]. rewrite Forall_forall in Hb. destruct (Hb x Hx) as (lease & m' & i' & k & c & Hm' & Hr).
  apply backfill_event_fields in Hr as (-> & Hd' & _).
  by rewrite (NoDup_map_inj manifest_digest _ _ _ (po_digests _ _ _ HP) Hm' Hm ltac:(congruence)).
Qed.

Lemma transitions_progress fence j p m :
  plan_recoverable -> apply_open fence j p -> m ∈ migrations plan ->
  manifest_transitions (open_plan p (events j) (backfill_events j)) m = progress_of j key (body m).
Proof using HP.
  intros [_ Hord] Hop Hm. apply sorted_by_key.
  - specialize (Hord m Hm). unfold progress_of. cbn [body apply_view].
    induction Hord as [|o os Hs IH Ho]; [constructor|]. cbn [map]. constructor; [done|].
    rewrite !Forall_map. eapply Forall_impl; [exact Ho|]. intros x Hx. unfold before in Hx. cbn.
    destruct o, x; cbn in Hx |- *; lia.
  - unfold progress_of. cbn [body apply_view]. rewrite schedule_perm, !map_app, !map_map. cbn [of_operation key].
    apply reflexive_eq. f_equal. apply map_ext_in. intros i Hi%list_elem_of_In. cbn [trail apply_view plan_trail open_backfill_events].
    by rewrite (backfill_views fence j p m i Hop Hm Hi).
Qed.

Lemma manifests_accepted open flags n index ms :
  (forall i m, ms !! i = Some m -> exists complete,
     validate_progress false true (manifest_transitions open m) = Ok complete /\
     default false (flags !! (index + i)%nat) = (index + i <? n)%nat /\ ((index + i < n)%nat -> complete = true) /\
     ((n < index + i)%nat -> (forall g, g ∈ transaction_groups m -> group_events (open_events open) m g = []) /\
       forall b, b ∈ backfill_step_indices m -> apply_backfill_events (open_backfill_events open) m b = [])) ->
  validate_manifests open flags n index ms = Ok tt.
Proof using Type.
  revert index. induction ms as [|m ms IH]; intros index H; [done|]. cbn [validate_manifests].
  destruct (H O m eq_refl) as (complete & -> & Hf & Hc & Hu). rewrite Nat.add_0_r in Hf, Hc, Hu. rewrite Hf.
  assert (negb (Bool.eqb (index <? n)%nat complete) && ((index <? n)%nat || (index <? n)%nat) = false) as ->.
  { destruct (Nat.ltb_spec index n); [by rewrite Hc|by rewrite andb_false_r]. }
  destruct (Nat.ltb_spec n index) as [Hlt|Hge].
  2: { apply IH. intros i x Hi. replace (S index + i)%nat with (index + S i)%nat by lia. by apply H. }
  destruct (Hu Hlt) as [Hg Hb]. cbn [andb].
  destruct (existsb _ (transaction_groups m)) eqn:Eg.
  { apply existsb_exists in Eg as (g & Hin%list_elem_of_In & E). by rewrite Hg in E. }
  destruct (existsb _ (backfill_step_indices m)) eqn:Eb.
  { apply existsb_exists in Eb as (b & Hin%list_elem_of_In & E). by rewrite Hb in E. }
  apply IH. intros i x Hi. replace (S index + i)%nat with (index + S i)%nat by lia. by apply H.
Qed.

(** A manifest none of whose operations has begun. *)
Lemma untouched_body fence j p m :
  apply_open fence j p -> m ∈ migrations plan -> Forall (untouched j) (body m) ->
  (forall g, g ∈ transaction_groups m -> group_events (events j) m g = []) /\
  forall b, b ∈ backfill_step_indices m -> apply_backfill_events (backfill_events j) m b = [].
Proof using HP.
  intros Hop Hm Hu. cbn [body apply_view] in Hu. rewrite schedule_perm, map_app, !map_map, Forall_app, !Forall_map in Hu.
  destruct Hu as [Hg Hb]. rewrite Forall_forall in Hg; rewrite Forall_forall in Hb. split.
  - intros g Hin. specialize (Hg g Hin). by apply map_eq_nil in Hg.
  - intros b Hin. specialize (Hb b Hin). rewrite (backfill_views fence j p m b Hop Hm Hin). by apply map_eq_nil in Hb.
Qed.

(** ** The open plan *)

Lemma open_rebuilt fence j p :
  apply_open fence j p ->
  from_store_with_backfills p (events j) (backfill_events j) = Ok (open_plan p (events j) (backfill_events j)).
Proof using Type.
  intros [_ (lease & s & [_ Hscope]%open_identity) [Hc _ _] Hg Hb _ _ _ _]. rewrite Forall_forall in Hscope.
  apply stored_plan_rebuilt; [done| |].
  - eapply Forall_impl; [exact Hg|]. intros e (l & m & g & k & obs & Hm & He).
    assert (lease_scope l = scope_id (managed_scope (manifest m))) as Hl.
    { revert He. unfold GroupEventRecord_new. intros He. case_in He. apply bind_ok_iff in He as (? & _ & He).
      apply bind_ok_iff in He as (? & _ & He). apply bind_ok_iff in He as (? & _ & He). by case_bool_decide. }
    apply (group_event_rebuilt _ l) in He as (_ & _ & ->); [by apply Hscope|done].
  - eapply Forall_impl; [exact Hb|]. intros e (l & m & i & k & c & Hm & He).
    assert (lease_scope l = scope_id (managed_scope (manifest m))) as Hl.
    { revert He. unfold new_apply. intros He. by case_bool_decide. }
    apply (backfill_event_rebuilt _ l) in He as (_ & ->); [by apply Hscope|done].
Qed.

Lemma applied_record_matches lease m r :
  plan_recoverable -> m ∈ migrations plan ->
  AppliedRecord_from_verified_manifest sha256 encode lease (manifest m) = Some (Ok r) -> applied_matches r m = true.
Proof using Type.
  intros [Hd _] Hm. unfold AppliedRecord_from_verified_manifest, record_of. rewrite (Hd m Hm). intros H. case_in H.
  injection H as <-. unfold applied_matches. cbn. by rewrite !bool_decide_eq_true_2.
Qed.

Lemma ledger_accepted fence j p :
  plan_recoverable -> apply_open fence j p -> exists flags,
    mark_applied (migrations plan) (entry_sequence p) None (replicate (length (migrations plan)) false) (ledger j) = Ok flags /\
    length flags = length (migrations plan) /\
    forall i m, migrations plan !! i = Some m -> flags !! i = Some true <-> recorded j m.
Proof using HP.
  intros HR [_ _ _ _ _ Hl Hs _ Hd].
  destruct (mark_applied_accepts (migrations plan) (entry_sequence p) None
    (replicate (length (migrations plan)) false) (ledger j)) as [flags Hf]; try done.
  - apply HP.
  - by rewrite length_replicate.
  - by rewrite Forall_forall.
  - eapply Forall_impl; [exact Hl|]. intros e [?|(Hlt & lease & m & Hm & Hr)]; [by left|]. right. split; [done|].
    exists m. split; [done|]. by eapply applied_record_matches.
  - intros i m e Hi _ _. apply lookup_replicate. split; [done|by eapply lookup_lt_Some].
  - exists flags. split; [done|]. apply mark_applied_flags in Hf as [Hlen Hf]; [|apply HP|by rewrite length_replicate].
    split; [done|]. intros i m Hi. rewrite (Hf i m Hi). split; [|by right].
    intros [[? _]%lookup_replicate|?]; done.
Qed.

Lemma open_accepted w d o rest p l :
  plan_recoverable -> running_at live_semantics w d o rest -> opened (journal w) = Some p ->
  lease_scope l = plan_scope (entry_record p) -> highest_fence w <= lease_fence l ->
  from_store_with_backfills p (events (journal w)) (backfill_events (journal w)) =
    Ok (open_plan p (events (journal w)) (backfill_events (journal w))) /\
  exists n, validate_open_plan plan l (open_plan p (events (journal w)) (backfill_events (journal w))) (ledger (journal w)) = Ok n.
Proof using HP.
  intros HR Hr Ho Hl Hf. pose proof Hr as [(p' & Hop) _ _ _ _ _]. assert (p' = p) as -> by (destruct Hop; congruence).
  split; [by eapply open_rebuilt|].
  pose proof Hop as [_ (lease & s & [Hid Hscope]%open_identity) [_ _ [_ Hpf]] Hg Hb _ _ _ _]. rewrite Forall_forall in Hscope.
  destruct (ledger_accepted _ _ _ HR Hop) as (flags & Hflags & Hlen & Hrec).
  destruct (running_progress live_semantics apply_units w d o rest key Hr) as (n & Hn & Hprog).
  assert (forall i, (i < length flags)%nat -> flags !! i = Some true <-> (i < n)%nat) as Hprefix.
  { intros i Hi. rewrite Hlen in Hi. destruct (lookup_lt_is_Some_2 _ _ Hi) as [m Hm]. rewrite (Hrec i m Hm).
    destruct (Hprog i m Hm) as [-> _]. by rewrite <- (recorded_iff sha256 encode plan). }
  destruct (prefix_flags flags n ltac:(rewrite Hlen; by apply Nat.lt_le_incl) Hprefix) as [Hcount Hskip].
  exists n. unfold validate_open_plan. cbv zeta. cbn [open_entry open_events open_backfill_events]. rewrite Hid, Hflags, Hcount, Hskip.
  rewrite (bool_decide_eq_true_2 (_ = lease_scope l)) by done. cbn [negb orb]. cbn in Hpf.
  rewrite (proj2 (Z.ltb_ge _ _)) by lia.
  destruct (try_map_accepts (validate_group_event (migrations plan) l) (events (journal w))) as [us ->].
  { eapply Forall_impl; [exact Hg|]. intros e (l' & m & g & k & obs & Hm & He). exists tt.
    eapply group_event_accepted; [done|done|]. rewrite Hl. symmetry. by apply Hscope. }
  destruct (try_map_accepts (validate_backfill_event (migrations plan) l) (backfill_events (journal w))) as [vs ->].
  { eapply Forall_impl; [exact Hb|]. intros e (l' & m & i & k & c & Hm & He). exists tt.
    eapply backfill_event_accepted; [done|done|]. rewrite Hl. symmetry. by apply Hscope. }
  rewrite manifests_accepted; [done|]. intros i m Hm. cbn [Nat.add].
  assert (m ∈ migrations plan) as Hin by (by eapply list_elem_of_lookup_2).
  destruct (Hprog i m Hm) as (Hmark & Hunt & complete & Hv & Hc). exists complete.
  rewrite (transitions_progress _ _ _ _ HR Hop Hin). split_and!; [done| |done|].
  - apply prefix_flag; [done|]. rewrite Hlen. by eapply lookup_lt_Some.
  - intros Hlt. by apply (untouched_body (highest_fence w) (journal w) p m Hop Hin), Hunt.
Qed.

(** C4. Recovery never refuses an interrupted plan. Any number of executors run a
    verified plan against one scope, and stop anywhere: after a write that was or
    was not durable, with a commit of unknown outcome, with the lease lost. As
    long as the plan is open, the open plan is rebuilt from the stored entries and
    passes every integrity check of the recovery under any later lease of its
    scope: identity, fences, ledger order and evidence, stored events, commit
    transitions, and prefix progress. The recovery resumes at the first manifest
    that is not in the ledger. *)
Theorem interrupted_plan_recovered w0 executors w processes p l :
  plan_recoverable -> idle w0 ->
  Forall (fun e => exists available supports_backfill holder control,
    e = execute_verified_migration_apply_plan_controlled sha256 encode available supports_backfill holder plan control)
    executors ->
  reachable live_semantics apply_units w0 executors (w, processes) ->
  opened (journal w) = Some p -> lease_scope l = plan_scope (entry_record p) -> highest_fence w <= lease_fence l ->
  exists open n,
    from_store_with_backfills p (events (journal w)) (backfill_events (journal w)) = Ok open /\
    validate_open_plan plan l open (ledger (journal w)) = Ok n /\
    forall i m, migrations plan !! i = Some m -> (i < n)%nat <-> recorded (journal w) m.
Proof using HP.
  intros HR Hi Hex Hr Ho Hl Hf.
  destruct (apply_reachable live_semantics apply_units sha256 encode plan HP w0 executors w processes Hi Hex Hr) as [HI _].
  destruct HI as [[Hn _]|[(d & o & rest & Hrun)|[[Hn _] _]]]; [congruence| |congruence].
  destruct (open_accepted w d o rest p l HR Hrun Ho Hl Hf) as [Hst [n Hv]].
  exists (open_plan p (events (journal w)) (backfill_events (journal w))), n. split_and!; [done|done|].
  by apply (validated_completed live_semantics apply_units plan HP l _ _ n Hv).
Qed.

End recovery.
End ApplyRecovery.
