(* ===== verification/RollbackSafety.v ===== *)
(** * Crash safety of the rollback executor

    The rollback executor as an instance of the commit protocol: the reverse
    operations of a verified rollback plan, where the journal keeps their events,
    and the proof that every program of the executor is one of the protocol's. A
    manifest is retired when its migration has left the active ledger. *)

From Stdlib Require Import Sorted.
From S2P Require Import Prelude BTree Text Ident Fingerprint Schema Components SchemaDelta Safety Limits Assertion Migration Manifest ApplyPlan RollbackPlan Execution RollbackJournal Coordinator RollbackCoordinator Fencing Protocol.
Import Ident Fingerprint Schema Components SchemaDelta Safety Assertion Migration Manifest ApplyPlan RollbackPlan Execution RollbackJournal Coordinator RollbackCoordinator Fencing Protocol.
#[local] Open Scope Z_scope.

Module RollbackSafety.

(** ** The operations of a plan *)

Inductive RollbackOperation : Set :=
| RStep (r : VerifiedMigrationRollbackManifest) (step_index : nat)
| RBackfill (r : VerifiedMigrationRollbackManifest) (operation_index : nat)
| RRetired (r : VerifiedMigrationRollbackManifest).

Definition of_rollback (r : VerifiedMigrationRollbackManifest) (operation_index : nat)
    (o : VerifiedMigrationRollbackOperation) : RollbackOperation :=
  match o with RollbackSchemaDelta i => RStep r i | RollbackBackfill _ => RBackfill r operation_index end.

(** The operations of a manifest from one position on. *)
Fixpoint rollback_schedule (r : VerifiedMigrationRollbackManifest) (operation_index : nat)
    (operations : list VerifiedMigrationRollbackOperation) : list RollbackOperation :=
  match operations with
  | [] => []
  | o :: operations => of_rollback r operation_index o :: rollback_schedule r (S operation_index) operations
  end.

(** A step that needs no provider transaction. *)
Definition formal_step (source target : ManagedSchemaState) (low : SchemaLoweringPlan) : bool :=
  bool_decide (units low = []) && bool_decide (managed_semantic_schema source = managed_semantic_schema target).

(** The reverse program of one step. *)
Definition step_evidence (r : VerifiedMigrationRollbackManifest) (step_index : nat)
    : option (SchemaDelta * SchemaLoweringPlan) :=
  match rollback_steps r !! step_index with
  | Some s => match reverse_delta r s with Ok reverse => Some (reverse, rollback_lowering s) | Err _ => None end
  | None => None
  end.

Definition backfill_evidence (r : VerifiedMigrationRollbackManifest) (operation_index : nat)
    : option (BackfillStepContract * AttributeBackfillPlan) :=
  match rollback_operations r !! operation_index with
  | Some (RollbackBackfill i) => rollback_backfills r !! i ≫= fun b => as_backfill (forward_step b)
  | _ => None
  end.

Definition rollback_task (o : RollbackOperation) : option Task :=
  match o with
  | RStep r i =>
      match step_evidence r i with
      | Some (reverse, low) =>
          Some (Transaction (delta_source reverse) (delta_target reverse) (units low)
                  (formal_step (delta_source reverse) (delta_target reverse) low))
      | None => None
      end
  | RBackfill r i => match backfill_evidence r i with Some (_, program) => Some (Data program Reverse) | None => None end
  | RRetired _ => Some Checkpoint
  end.

(** The ledger has an entry of this migration. *)
Definition in_ledger (id : MigrationId) (entries : list (JournalEntry AppliedRecord)) : bool :=
  existsb (fun e => bool_decide (ar_migration (entry_record e) = id)) entries.

(** The journal of one operation; a migration that left the ledger counts as the
    commit of its retirement. *)
Definition rollback_trail (j : Journal) (o : RollbackOperation) : list (GroupJournalEventKind * ExecutionFence) :=
  match o with
  | RStep r i => map (fun e => (re_kind e, re_fence e)) (rollback_step_events (step_events j) r i)
  | RBackfill r i => map (fun e => (be_kind e, be_fence e)) (executed_reverse_events (backfill_events j) r i)
  | RRetired r => if in_ledger (manifest_id (rolled_manifest r)) (ledger j) then [] else [(Committed, 0)]
  end.

Inductive RollbackSlot : Set :=
| SStep (d : FingerprintDigest) (i : nat)
| SReverse (d : FingerprintDigest) (i : nat)
| SRetired (id : MigrationId).

Definition rollback_slot (o : RollbackOperation) : RollbackSlot :=
  match o with
  | RStep r i => SStep (rollback_digest r) i
  | RBackfill r i => SReverse (rollback_digest r) i
  | RRetired r => SRetired (manifest_id (rolled_manifest r))
  end.

Definition rollback_plan_ids (rs : list VerifiedMigrationRollbackManifest) : list MigrationId :=
  map (fun r => manifest_id (rolled_manifest r)) rs.

(** The schema steps among the operations of a manifest. *)
Definition step_indices (operations : list VerifiedMigrationRollbackOperation) : list nat :=
  omap (fun o => match o with RollbackSchemaDelta i => Some i | RollbackBackfill _ => None end) operations.

(** The ledger identities of a journal are distinct, and its entries of the plan
    carry the digests of the plan. *)
Definition ledger_ok (rs : list VerifiedMigrationRollbackManifest) (entries : list (JournalEntry AppliedRecord)) : Prop :=
  NoDup (map (fun e => ar_migration (entry_record e)) entries) /\
  forall e r, e ∈ entries -> r ∈ rs -> ar_migration (entry_record e) = manifest_id (rolled_manifest r) ->
    ar_digest (entry_record e) = rollback_digest r.

(** The migration was retired after the plan was opened. *)
Definition retired_since (opened : JournalSequence) (id : MigrationId)
    (entries : list (JournalEntry RolledBackRecord)) : Prop :=
  exists e, e ∈ entries /\ opened < entry_sequence e /\ ar_migration (retirement (entry_record e)) = id.

(** The journal while the plan is open: what left the ledger is what was retired. *)
Record rollback_open (rs : list VerifiedMigrationRollbackManifest) (j : Journal) (p : JournalEntry RollbackPlanRecord)
    : Prop := {
  ro_opened : rollback_opened j = Some p;
  ro_ids : rollback_ids (entry_record p) = rollback_plan_ids rs;
  ro_sequence : entry_sequence p <= last_sequence j;
  ro_ledger : ledger_ok rs (ledger j);
  ro_retired : forall r, r ∈ rs ->
    in_ledger (manifest_id (rolled_manifest r)) (ledger j) = false <->
    retired_since (entry_sequence p) (manifest_id (rolled_manifest r)) (retired j) }.

(** ** Ledgers *)

Lemma in_ledger_iff id entries :
  in_ledger id entries = true <-> exists e, e ∈ entries /\ ar_migration (entry_record e) = id.
Proof.
  unfold in_ledger. rewrite existsb_exists. setoid_rewrite <- list_elem_of_In. by setoid_rewrite bool_decide_eq_true.
Qed.

Lemma in_ledger_false id entries :
  in_ledger id entries = false <-> forall e, e ∈ entries -> ar_migration (entry_record e) <> id.
Proof.
  rewrite <- not_true_iff_false, in_ledger_iff. split; [|by intros H (e & He & Hi); apply (H e)].
  intros H e He Hi. apply H. by exists e.
Qed.

(** A retirement takes its migration, and nothing else, out of the ledger. *)
Lemma remove_last_spec r entries remaining :
  remove_last r entries = Some remaining ->
  exists before e after, entries = before ++ e :: after /\ remaining = before ++ after /\ retires r e = true.
Proof.
  revert remaining. induction entries as [|e entries IH]; intros remaining; cbn [remove_last]; [done|].
  destruct (remove_last r entries) as [rest|].
  - intros [= <-]. destruct (IH rest eq_refl) as (b & x & a & -> & -> & Hx). by exists (e :: b), x, a.
  - destruct (retires r e) eqn:E; [|done]. intros [= <-]. by exists [], e, entries.
Qed.

Lemma removed_ledger rs r entries remaining :
  ledger_ok rs entries -> remove_last r entries = Some remaining ->
  ledger_ok rs remaining /\
  forall id, in_ledger id remaining = true <->
             in_ledger id entries = true /\ id <> ar_migration (retirement (entry_record r)).
Proof.
  intros [Hn Hd] (b & e & a & -> & -> & Hr)%remove_last_spec. unfold retires in Hr. simp. rename H into Hid, H0 into Hdig.
  apply bool_decide_eq_true in Hid, Hdig. rewrite map_app in Hn. cbn in Hn. rewrite Hid in Hn.
  apply NoDup_app in Hn as (Hb & Hdis & Hn). apply NoDup_cons in Hn as [Hea Ha]. split; [split|].
  - rewrite map_app. apply NoDup_app. split_and!; [done| |done]. intros id Hi Hi'. apply (Hdis id Hi). by apply list_elem_of_further.
  - intros x y Hx. apply Hd. apply elem_of_app in Hx as [?|?]; apply elem_of_app; [by left|right; by apply list_elem_of_further].
  - intros id. rewrite !in_ledger_iff. setoid_rewrite elem_of_app. setoid_rewrite elem_of_cons. split.
    + intros (x & Hx & <-). split; [exists x; split; [tauto|done]|]. intros E. destruct Hx as [Hx|Hx].
      * apply (Hdis (ar_migration (entry_record x))); [apply elem_map; by exists x|]. rewrite E. apply list_elem_of_here.
      * apply Hea. rewrite <- E. apply elem_map. by exists x.
    + intros [(x & [Hx|[->|Hx]] & Hxi) Hne]; [exists x; tauto|congruence|exists x; tauto].
Qed.

(** Nothing but the record itself retires its migration. *)
Lemma retired_since_snoc opened id entries e :
  opened < entry_sequence e ->
  retired_since opened id (entries ++ [e]) <->
  retired_since opened id entries \/ id = ar_migration (retirement (entry_record e)).
Proof.
  intros Hlt. unfold retired_since. setoid_rewrite elem_of_app. setoid_rewrite list_elem_of_singleton. split.
  - intros (x & [Hx| ->] & Hs & Hi); [left; by exists x|by right].
  - intros [(x & Hx & Hs & Hi)| ->]; [exists x; tauto|exists e; tauto].
Qed.

(** The journal after a retirement that leaves the plan open. *)
Lemma retirement_open rs j p r remaining :
  rollback_open rs j p -> remove_last (next_entry j r) (ledger j) = Some remaining ->
  withdrawn (entry_record p) remaining = false -> rollback_open rs (add_retirement j p r remaining) p.
Proof.
  intros [Ho Hi Hs Hl Hr] Hrem Hw. destruct (removed_ledger rs _ _ _ Hl Hrem) as [Hl' Hin].
  unfold add_retirement. rewrite Hw.
  split; cbn [rollback_opened last_sequence ledger retired]; [done|done|lia|done|]. intros x Hx.
  rewrite retired_since_snoc by (cbn; lia). rewrite <- (Hr x Hx). cbn [entry_record next_entry].
  specialize (Hin (manifest_id (rolled_manifest x))). cbn [entry_record next_entry] in Hin.
  destruct (in_ledger _ remaining), (in_ledger _ (ledger j)).
  - split; [by left|]. intros [?|E]; [done|]. by destruct (proj1 Hin eq_refl).
  - by destruct (proj1 Hin eq_refl).
  - split; [|done]. intros _. right. apply dec_stable. intros Hne. by pose proof (proj2 Hin (conj eq_refl Hne)).
  - split; [by left|done].
Qed.

Section safety.
Context {Live : Type}.
Context (live_semantics : Live -> ManagedScopeBinding -> option Fingerprint.Fingerprint).
Context (apply_units : Live -> list StatementUnit -> Live).
Context (sha256 : str -> str) (encode : VerifiedSchemaMigrationManifest -> result Diagnostic str).
Context (plan : VerifiedMigrationRollbackPlan).
#[local] Abbreviation World := (World Live).
#[local] Abbreviation reads := (reads live_semantics).

(** A retirement beside an open plan: older, or written for a manifest of the plan. *)
Definition retired_entry (p : JournalEntry RollbackPlanRecord) (e : JournalEntry RolledBackRecord) : Prop :=
  entry_sequence e < entry_sequence p \/
  entry_sequence p < entry_sequence e /\ exists lease r, r ∈ rollbacks plan /\
    RolledBackRecord_from_verified_manifest sha256 encode lease (rolled_manifest r) = Some (Ok (entry_record e)).

Definition retired_before (e f : JournalEntry RolledBackRecord) : Prop := entry_sequence e < entry_sequence f.

Definition reverse_stored (j : Journal) : list StoredEvent :=
  map stored_step (step_events j) ++ map stored_backfill (backfill_events j).

(** Everything in the journal of an open plan was built for this plan, in the order
    of its sequences and fences. *)
Record rollback_journal (fence : ExecutionFence) (j : Journal) (p : JournalEntry RollbackPlanRecord) : Prop := {
  rj_record : exists lease s, from_verified_rollback_plan lease plan (applied_basis plan) s = Ok (entry_record p);
  rj_stored : stored_ok fence (last_sequence j) (rollback_binding p) (reverse_stored j);
  rj_steps : Forall (fun e => exists lease r i kind observed, r ∈ rollbacks plan /\
    RollbackStepEventRecord_new lease r i kind observed = Ok (entry_record e)) (step_events j);
  rj_backfills : Forall (fun e => exists lease r i kind completion, r ∈ rollbacks plan /\
    new_rollback lease r i kind completion = Ok (entry_record e)) (backfill_events j);
  rj_retired : Forall (retired_entry p) (retired j);
  rj_sorted : StronglySorted retired_before (retired j);
  rj_bounded : Forall (fun e => entry_sequence e <= last_sequence j) (retired j);
  rj_distinct : forall e f, e ∈ retired j -> f ∈ retired j ->
    entry_sequence p < entry_sequence e -> entry_sequence p < entry_sequence f ->
    ar_migration (retirement (entry_record e)) = ar_migration (retirement (entry_record f)) -> e = f }.

Lemma rollback_record_fields l ids s record :
  from_verified_rollback_plan l plan ids s = Ok record ->
  rollbacks plan <> [] /\ ids = applied_basis plan /\ rollback_ids record = rollback_plan_ids (rollbacks plan) /\
  rp_digests record = map rollback_digest (rollbacks plan) /\ rp_fence record = lease_fence l.
Proof using Type.
  intros Hrec. unfold from_verified_rollback_plan in Hrec. apply bind_ok_iff in Hrec as (first & Hf & Hrec).
  case_bool_decide as Hi; [|done]. cbn [negb] in Hrec. case_in Hrec. case_in Hrec. case_in Hrec. injection Hrec as <-.
  split_and!; [by destruct (rollbacks plan)|done..].
Qed.

(** The reverse operations of each manifest in order, then its retirement. *)
#[local] Instance rollback_view : PlanView RollbackOperation RollbackSlot VerifiedMigrationRollbackManifest := {|
  blocks := rollbacks plan;
  body r := rollback_schedule r 0 (rollback_operations r);
  mark := RRetired;
  slot := rollback_slot;
  task := rollback_task;
  trail := rollback_trail;
  initial j := ledger_ok (rollbacks plan) (ledger j) /\
    Forall (fun e => entry_sequence e <= last_sequence j) (retired j) /\ StronglySorted retired_before (retired j);
  is_open fence j := exists p, rollback_open (rollbacks plan) j p /\ rollback_journal fence j p;
  is_closed j := rollback_opened j = None /\ forall r, r ∈ rollbacks plan ->
    in_ledger (manifest_id (rolled_manifest r)) (ledger j) = false |}.

(** What planning establishes and the database promises: distinct identities and
    digests, each reverse step once and positions in range, the digests of the
    verified manifests, reverse deltas within one scope, and lowered statements
    that take the live schema from a step's source to its target. *)
Record rollback_ok : Prop := {
  rk_digests : NoDup (map rollback_digest (rollbacks plan));
  rk_ids : NoDup (rollback_plan_ids (rollbacks plan));
  rk_steps : forall r, r ∈ rollbacks plan -> NoDup (step_indices (rollback_operations r));
  rk_positions : forall r, r ∈ rollbacks plan -> Z.of_nat (length (rollback_operations r)) <= u32_max;
  rk_verified : forall r, r ∈ rollbacks plan ->
    verified_manifest_digest sha256 encode (rolled_manifest r) = Some (Ok (rollback_digest r));
  rk_scope : forall r i reverse low, r ∈ rollbacks plan -> step_evidence r i = Some (reverse, low) ->
    scope (delta_source reverse) = scope (delta_target reverse);
  rk_lowering : forall r i reverse low live, r ∈ rollbacks plan -> step_evidence r i = Some (reverse, low) ->
    live_semantics live (scope (delta_source reverse)) = Some (managed_semantic_schema (delta_source reverse)) ->
    live_semantics (apply_units live (units low)) (scope (delta_target reverse)) =
      Some (managed_semantic_schema (delta_target reverse)) }.

(** ** The laws of the protocol *)

Lemma elem_schedule r n operations o :
  o ∈ rollback_schedule r n operations <->
  (exists i, i ∈ step_indices operations /\ o = RStep r i) \/
  (exists i b, operations !! i = Some (RollbackBackfill b) /\ o = RBackfill r (n + i)).
Proof using Type.
  revert n. induction operations as [|x operations IH]; intros n.
  { cbn. split; [by intros ?%not_elem_of_nil|]. intros [(i & ?%not_elem_of_nil & _)|(i & b & ? & _)]; done. }
  cbn [rollback_schedule]. rewrite elem_of_cons, IH. destruct x as [j|b].
  - change (step_indices (RollbackSchemaDelta j :: operations)) with (j :: step_indices operations). cbn [of_rollback].
    setoid_rewrite elem_of_cons. split.
    + intros [->|[(i & Hi & ->)|(i & b & Hi & ->)]]; [by left; exists j; auto|by left; exists i; auto|].
      right. exists (S i), b. split; [done|]. f_equal. lia.
    + intros [(i & [->|Hi] & ->)|(i & b & Hi & ->)]; [by left|right; left; by exists i|].
      destruct i as [|i]; [done|]. right. right. exists i, b. split; [done|]. f_equal. lia.
  - change (step_indices (RollbackBackfill b :: operations)) with (step_indices operations). cbn [of_rollback]. split.
    + intros [->|[?|(i & b' & Hi & ->)]]; [|by left|].
      * right. exists O, b. split; [done|]. f_equal. lia.
      * right. exists (S i), b'. split; [done|]. f_equal. lia.
    + intros [?|(i & b' & Hi & ->)]; [right; by left|]. destruct i as [|i].
      * left. f_equal. lia.
      * right. right. exists i, b'. split; [done|]. f_equal. lia.
Qed.

Lemma elem_rollback_ops rs o :
  o ∈ ops_of rs <-> exists r, r ∈ rs /\
    (o = RRetired r \/ (exists i, i ∈ step_indices (rollback_operations r) /\ o = RStep r i) \/
     exists i b, rollback_operations r !! i = Some (RollbackBackfill b) /\ o = RBackfill r i).
Proof using Type.
  rewrite elem_ops_of. cbn [body mark rollback_view]. setoid_rewrite elem_schedule. cbn [Nat.add]. split.
  - intros (r & Hr & H). exists r. tauto.
  - intros (r & Hr & H). exists r. tauto.
Qed.

Lemma schedule_slots r n operations :
  NoDup (step_indices operations) -> NoDup (map slot (rollback_schedule r n operations ++ [RRetired r])).
Proof using Type.
  revert n. induction operations as [|x operations IH]; intros n Hn.
  { cbn. apply NoDup_cons. split; [by intros ?%not_elem_of_nil|constructor]. }
  cbn [rollback_schedule app map]. apply NoDup_cons. split.
  - intros (o & Ho & E)%elem_map. apply elem_of_app in Ho as [Ho|Ho].
    + apply elem_schedule in Ho as [(i & Hi & ->)|(i & b & _ & ->)]; destruct x as [j|b']; cbn in E; try done.
      * injection E as ->. change (step_indices (RollbackSchemaDelta i :: operations)) with (i :: step_indices operations) in Hn.
        by apply NoDup_cons in Hn as [? _].
      * injection E as E. lia.
    + apply list_elem_of_singleton in Ho as ->. by destruct x.
  - apply IH. destruct x as [j|b']; [|done].
    change (step_indices (RollbackSchemaDelta j :: operations)) with (j :: step_indices operations) in Hn.
    by apply NoDup_cons in Hn as [_ ?].
Qed.

Context (HP : rollback_ok).

Lemma rollback_slots : NoDup (map slot ops).
Proof using HP.
  destruct HP as [Hd Hi Ho _ _ _ _]. unfold ops, rollback_plan_ids in *. change blocks with (rollbacks plan). clear HP.
  induction (rollbacks plan) as [|r rs IH]; [constructor|].
  cbn in Hd, Hi. apply NoDup_cons in Hd as [Hdr Hd], Hi as [Hir Hi].
  change (ops_of (r :: rs)) with (block r ++ ops_of rs). rewrite map_app.
  apply NoDup_app. split_and!; [apply schedule_slots, Ho, list_elem_of_here| |].
  - intros s. rewrite !elem_map. intros (o & Ho1 & ->) (o' & Ho2 & Es). apply elem_rollback_ops in Ho2 as (r' & Hr' & Ho2).
    assert (o ∈ ops_of [r]) as Ho1' by (unfold ops_of; cbn [map concat]; by rewrite app_nil_r).
    apply elem_rollback_ops in Ho1' as (r1 & Hr1%list_elem_of_singleton & Ho1'). subst r1.
    destruct (decide (rollback_digest r' = rollback_digest r)) as [E|E].
    { apply Hdr. rewrite elem_map. by exists r'. }
    destruct (decide (manifest_id (rolled_manifest r') = manifest_id (rolled_manifest r))) as [E'|E'].
    { apply Hir. rewrite elem_map. by exists r'. }
    destruct Ho1' as [->|[(?&?&->)|(?&?&?&->)]], Ho2 as [->|[(?&?&->)|(?&?&?&->)]]; cbn in Es; congruence.
  - apply IH; try done. intros r' Hr'. apply Ho. by apply list_elem_of_further.
Qed.

Lemma reverse_transaction_inv o source target us f :
  o ∈ ops -> task o = Some (Transaction source target us f) ->
  exists r i reverse low, r ∈ rollbacks plan /\ o = RStep r i /\ step_evidence r i = Some (reverse, low) /\
    source = delta_source reverse /\ target = delta_target reverse /\ us = units low /\ f = formal_step source target low.
Proof using Type.
  intros (r & Hr & [->|[(i & _ & ->)|(i & b & _ & ->)]])%elem_rollback_ops E; cbn in E; [done| |].
  - destruct (step_evidence r i) as [[reverse low]|] eqn:Ee; [|done]. injection E as <- <- <- <-.
    exists r, i, reverse, low. by split_and!.
  - by destruct (backfill_evidence r i) as [[]|].
Qed.

#[local] Instance rollback_laws : PlanLaws live_semantics apply_units rollback_view.
Proof using HP.
  split.
  - exact rollback_slots.
  - done.
  - intros r o [(i & _ & ->)|(i & b & _ & ->)]%elem_schedule; cbn.
    + by destruct (step_evidence r i) as [[]|].
    + by destruct (backfill_evidence r i) as [[]|].
  - intros o source target us f Hin (r & i & rev & low & Hr & _ & Hev & -> & -> & _)%(reverse_transaction_inv _ _ _ _ _ Hin).
    by eapply rk_scope.
  - intros o source target us f live Hin (r & i & rev & low & Hr & _ & Hev & -> & -> & -> & _)%(reverse_transaction_inv _ _ _ _ _ Hin).
    by eapply rk_lowering.
  - intros o source target us Hin (r & i & rev & low & _ & _ & _ & _ & _ & _ & Hf)%(reverse_transaction_inv _ _ _ _ _ Hin).
    symmetry in Hf. unfold formal_step in Hf. simp. by apply bool_decide_eq_true in H0.
  - intros fence fence' j (p & Hp & [H1 H2 H3 H4 H5 H6 H7 H8]) Hle. exists p. split; [done|]. split; try done.
    by eapply stored_ok_mono.
  - intros fence j (p & [Hp _ _ _ _] & _). right. by rewrite Hp.
  - intros fence j (p & [Hp _ _ _ _] & _) [Hn _]. congruence.
Qed.

(** ** Writing to the journal *)

Lemma step_event_fields lease r i k obs e :
  RollbackStepEventRecord_new lease r i k obs = Ok e ->
  re_digest e = rollback_digest r /\ re_ordinal e = Z.of_nat i /\ re_kind e = k /\
  re_fence e = lease_fence lease /\ re_migration e = manifest_id (rolled_manifest r).
Proof using Type.
  unfold RollbackStepEventRecord_new. intros H. apply bind_ok_iff in H as (s & _ & H).
  apply bind_ok_iff in H as (d & _ & H). case_in H. apply bind_ok_iff in H as (u & _ & H).
  apply bind_ok_iff in H as (z & [-> _]%position_ok & H). by injection H as <-.
Qed.

Lemma reverse_event_fields lease r i k c e :
  new_rollback lease r i k c = Ok e ->
  be_migration e = manifest_id (rolled_manifest r) /\ be_digest e = rollback_digest r /\
  be_operation_ordinal e = Z.of_nat i /\ be_direction e = Reverse /\ be_kind e = k /\ be_fence e = lease_fence lease.
Proof using Type.
  unfold new_rollback. intros H. case_in H. apply bind_ok_iff in H as (s & _ & H).
  apply bind_ok_iff in H as (b & _ & H). apply bind_ok_iff in H as (n & _ & H).
  unfold new_checked in H. apply bind_ok_iff in H as (u & _ & H).
  apply bind_ok_iff in H as (z & [-> _]%position_ok & H). apply bind_ok_iff in H as (z2 & [-> _]%position_ok & H).
  by injection H as <-.
Qed.

Lemma rollback_open_event j p e : rollback_open (rollbacks plan) j p -> rollback_open (rollbacks plan) (add_step_event j e) p.
Proof using Type. intros [H1 H2 H3 H4 H5]. split; cbn [rollback_opened last_sequence ledger retired add_step_event]; [done|done|lia|done|done]. Qed.

Lemma rollback_open_backfill j p e : rollback_open (rollbacks plan) j p -> rollback_open (rollbacks plan) (add_backfill j e) p.
Proof using Type. intros [H1 H2 H3 H4 H5]. split; cbn [rollback_opened last_sequence ledger retired add_backfill]; [done|done|lia|done|done]. Qed.

Lemma reverse_of_plan o r :
  o ∈ ops -> (exists i, o = RStep r i) \/ (exists i, o = RBackfill r i) \/ o = RRetired r -> r ∈ rollbacks plan.
Proof using Type.
  intros (r' & Hr' & H)%elem_rollback_ops. destruct H as [->|[(i & _ & ->)|(i & b & _ & ->)]];
    intros [(? & [= <-])|[(? & [= <-])|[= <-]]]; done.
Qed.

(** An event of a manifest of the plan is bound to the plan entry. *)
Lemma journal_bound fence j p r e :
  rollback_journal fence j p -> r ∈ rollbacks plan -> se_digest e = rollback_digest r ->
  se_migration e = manifest_id (rolled_manifest r) ->
  bound_to (pb_digests (rollback_binding p)) (pb_ids (rollback_binding p)) e = true.
Proof using HP.
  intros [(lease & s & H) _ _ _ _ _ _ _] Hr Hd Hi. apply rollback_record_fields in H as (_ & _ & Hids & Hds & _).
  cbn [pb_digests pb_ids rollback_binding]. rewrite Hids, Hds.
  apply (bound_to_map rollback_digest (fun r => manifest_id (rolled_manifest r)) _ r); [apply HP|done..].
Qed.

Lemma journal_event fence j p lease r i k obs e :
  rollback_journal fence j p -> RollbackStepEventRecord_new lease r i k obs = Ok e -> r ∈ rollbacks plan ->
  re_fence e = fence -> rollback_journal fence (add_step_event j e) p.
Proof using HP.
  intros Hj He Hr Hf. pose proof Hj as [H1 H2 H3 H4 H5 H6 H7 H8].
  pose proof He as (Hd & _ & _ & _ & Hi)%step_event_fields. split; try done.
  - eapply (stored_ok_add _ _ _ _ _ (stored_step (next_entry j e))); [exact H2| |done|done|by apply (journal_bound fence j p r)].
    unfold reverse_stored. cbn [step_events backfill_events add_step_event]. rewrite map_app. cbn [map]. solve_Permutation.
  - apply Forall_app. split; [done|]. constructor; [|done]. by exists lease, r, i, k, obs.
  - eapply Forall_impl; [exact H7|]. cbn. lia.
Qed.

Lemma journal_backfill fence j p lease r i k c e :
  rollback_journal fence j p -> new_rollback lease r i k c = Ok e -> r ∈ rollbacks plan ->
  be_fence e = fence -> rollback_journal fence (add_backfill j e) p.
Proof using HP.
  intros Hj He Hr Hf. pose proof Hj as [H1 H2 H3 H4 H5 H6 H7 H8].
  pose proof He as (Hi & Hd & _)%reverse_event_fields. split; try done.
  - eapply (stored_ok_add _ _ _ _ _ (stored_backfill (next_entry j e))); [exact H2| |done|done|by apply (journal_bound fence j p r)].
    unfold reverse_stored. cbn [step_events backfill_events add_backfill]. rewrite map_app. cbn [map]. solve_Permutation.
  - apply Forall_app. split; [done|]. constructor; [|done]. by exists lease, r, i, k, c.
  - eapply Forall_impl; [exact H7|]. cbn. lia.
Qed.

Lemma step_extends lease (w : World) r i k obs e :
  RStep r i ∈ ops -> highest_fence w = lease_fence lease -> RollbackStepEventRecord_new lease r i k obs = Ok e ->
  extends lease w (with_journal w (add_step_event (journal w) e)) (RStep r i) k.
Proof using HP.
  intros Hin Hfence He. pose proof He as (Hd & Ho & Hk & Hf & _)%step_event_fields.
  assert (trail (add_step_event (journal w) e) (RStep r i) = trail (journal w) (RStep r i) ++ [(k, lease_fence lease)]) as Ht.
  { cbn. unfold rollback_step_events. rewrite map_app, filter_app, map_app. cbn [map entry_record next_entry].
    rewrite filter_cons_True, filter_nil by done. cbn. by rewrite Hk, Hf. }
  split; [done| |by intros _| |intros (p & Hp & Hj); exists p; split;
    [by apply rollback_open_event|eapply journal_event; [done|done|eapply reverse_of_plan; eauto|congruence]]].
  - intros [r' i'|r' i'|r'] _ Hs; cbn [journal with_journal trail rollback_view rollback_trail]; try done.
    unfold rollback_step_events. cbn [step_events add_step_event]. rewrite map_app, filter_app, map_app.
    cbn [map entry_record next_entry]. rewrite filter_cons_False, filter_nil; [by rewrite app_nil_r|].
    cbn in Hs. intros [Hd' Ho']. apply Hs. f_equal; [congruence|]. apply Nat2Z.inj. congruence.
  - unfold last_kind. cbn [journal with_journal]. by rewrite Ht, last_snoc.
Qed.

Lemma reverse_position r i : RBackfill r i ∈ ops -> Z.of_nat i <= u32_max.
Proof using HP.
  intros (r1 & Hr1 & [?|[(?&?&?)|(i' & b & Hi & E)]])%elem_rollback_ops; [done|done|].
  injection E as <- <-. pose proof (rk_positions HP r Hr1). apply lookup_lt_Some in Hi. lia.
Qed.

Lemma reverse_extends lease (w : World) r i k c e :
  RBackfill r i ∈ ops -> highest_fence w = lease_fence lease -> new_rollback lease r i k c = Ok e ->
  extends lease w (with_journal w (add_backfill (journal w) e)) (RBackfill r i) k.
Proof using HP.
  intros Hin Hfence He. pose proof He as (Hm & Hd & Ho & Hdir & Hk & Hf)%reverse_event_fields.
  assert (trail (add_backfill (journal w) e) (RBackfill r i) =
    trail (journal w) (RBackfill r i) ++ [(k, lease_fence lease)]) as Ht.
  { cbn. unfold executed_reverse_events. rewrite map_app, filter_app, map_app. cbn [map entry_record next_entry].
    rewrite filter_cons_True, filter_nil by (rewrite (clamp_small i) by (by apply (reverse_position r)); done).
    cbn. by rewrite Hk, Hf. }
  split; [done| |by intros _| |intros (p & Hp & Hj); exists p; split;
    [by apply rollback_open_backfill|eapply journal_backfill; [done|done|eapply reverse_of_plan; eauto|congruence]]].
  - intros [r' i'|r' i'|r'] Hin' Hne; cbn [journal with_journal trail rollback_view rollback_trail]; try done.
    unfold executed_reverse_events. cbn [backfill_events add_backfill].
    rewrite map_app, filter_app, map_app. cbn [map entry_record next_entry].
    rewrite filter_cons_False, filter_nil; [by rewrite app_nil_r|]. cbn in Hne.
    rewrite (clamp_small i') by (by apply (reverse_position r')). intros (_ & Hd' & Ho' & _). apply Hne.
    f_equal; [congruence|]. apply Nat2Z.inj. congruence.
  - unfold last_kind. cbn [journal with_journal]. by rewrite Ht, last_snoc.
Qed.

(** ** The executor's programs *)

Section executor.
Context (l : MigrationLease) (control : MigrationExecutionControl) (snapshot : option OpenRollbackPlanRecord).

(** What the snapshot tells of an operation. *)
Definition known_rollback (o : RollbackOperation) : option GroupJournalEventKind :=
  match o with
  | RStep r i => snapshot ≫= fun open => last_rollback_step_event open r i
  | RBackfill r i => be_kind <$> last (snapshot_reverse_events snapshot r i)
  | RRetired _ => None
  end.

Definition rolled_back_outcome (o : MigrationRollbackOutcome) : Prop := exists b, o = RolledBack b.

#[local] Abbreviation Inv := (Inv live_semantics).
#[local] Abbreviation wp := (wp live_semantics apply_units Inv finished).
#[local] Abbreviation guarantee := (guarantee Inv finished).
#[local] Abbreviation known := known_rollback.
#[local] Abbreviation cursor := (cursor live_semantics l known).
#[local] Abbreviation arrived := (arrived live_semantics l known rolled_back_outcome).
#[local] Abbreviation passed := (passed live_semantics l known rolled_back_outcome).
#[local] Abbreviation recorder := (recorder live_semantics apply_units l known).
#[local] Ltac keep := split; [by apply guarantee_same|].

Lemma step_recorder {S} r i pre o2 todo : recorder (RStep r i) pre o2 todo (record_step_event (S := S) l r i).
Proof using HP.
  apply (build_recorder live_semantics apply_units l known (RStep r i) pre o2 todo (RollbackStepEventRecord_new l r i)
    (fun e => perform (RecordRollbackStepEvent l e)) (fun w => rollback_opened (journal w) <> None) add_step_event).
  - intros w k x e Hst. apply step_extends; [by eapply standing_here|by destruct Hst].
  - intros w e Q H r' w' Hc. by apply H.
Qed.

Lemma reverse_recorder {S} r i pre o2 todo : recorder (RBackfill r i) pre o2 todo (record_reverse (S := S) l r i).
Proof using HP.
  apply (build_recorder live_semantics apply_units l known (RBackfill r i) pre o2 todo (new_rollback l r i)
    (fun e => perform (RecordBackfillEvent l e))
    (fun w => opened (journal w) <> None \/ rollback_opened (journal w) <> None) add_backfill).
  - intros w k x e Hst. apply reverse_extends; [by eapply standing_here|by destruct Hst].
  - intros w e Q H r' w' Hc. by apply H.
Qed.

Lemma not_rolled_back m i e :
  ~ rolled_back_outcome (RollbackRetrySafe m i e) /\ ~ rolled_back_outcome (RollbackExplicitRecovery m i e).
Proof using Type. split; by intros [b ?]. Qed.

Lemma no_check_passive : passive live_semantics apply_units (fun tx => Ret (Ok tx)).
Proof using Type. intros w tx HI. split; [done|]. by intros tx' [= <-]. Qed.

Lemma wp_step w r i o2 todo seen :
  cursor w (RStep r i :: o2 :: todo) seen ->
  wp (execute_step l control r i snapshot seen) (arrived o2 todo) w.
Proof using HP.
  intros Hc. destruct (cursor_case _ _ _ _ _ _ _ _ Hc) as [Hk Hcase].
  { unfold effective. cbn. by destruct (step_evidence r i) as [[]|]. }
  cbn [known_rollback] in Hk. unfold execute_step. destruct (rollback_steps r !! i) as [s|] eqn:Es; [|done].
  cbv zeta. rewrite Hk. destruct Hcase as [[(k & -> & ->) Hc2]|(-> & pre & Hst & Hfresh & Hrd)]; [done|].
  destruct (reverse_delta r s) as [reverse|e] eqn:Er; [|done].
  apply (wp_visit_transaction live_semantics apply_units l known control rolled_back_outcome (rollback_retry_safe r i)
    (rollback_explicit_recovery r i) (record_step_event l r i) (delta_source reverse) (delta_target reverse)
    (units (rollback_lowering s)) (formal_step (delta_source reverse) (delta_target reverse) (rollback_lowering s))
    (fun tx => Ret (Ok tx)) (RStep r i) pre o2 todo); try done.
  - cbn. unfold step_evidence. by rewrite Es, Er.
  - intros e. apply not_rolled_back.
  - intros e. apply not_rolled_back.
  - apply step_recorder.
  - apply no_check_passive.
Qed.

Lemma wp_reverse w r i o2 todo seen :
  cursor w (RBackfill r i :: o2 :: todo) seen ->
  wp (execute_rollback_backfill l control r i snapshot) (passed o2 todo seen) w.
Proof using HP.
  intros Hc. destruct (cursor_case _ _ _ _ _ _ _ _ Hc) as [Hk Hcase].
  { unfold effective. cbn. by destruct (backfill_evidence r i) as [[]|]. }
  cbn [known_rollback] in Hk. unfold execute_rollback_backfill.
  destruct (rollback_operations r !! i) as [[j|b]|] eqn:Eo; [done| |done].
  destruct (rollback_backfills r !! b ≫= fun b => as_backfill (forward_step b)) as [[ctr program]|] eqn:Ep; [|done].
  cbv zeta. rewrite Hk. destruct Hcase as [[(k & -> & ->) Hc2]|(Hnc & pre & Hst & Hfresh & Hrd)].
  { by destruct (last (snapshot_reverse_events snapshot r i) ≫= be_completion). }
  apply (wp_visit_data live_semantics apply_units l known control rolled_back_outcome (rollback_backfill_retry_safe r i)
    (rollback_backfill_explicit_recovery r i) (record_reverse l r i) program Reverse (bc_plan_fingerprint ctr)
    (fun completion => backfill_observation (manifest_id (rolled_manifest r)) i b completion)
    (RBackfill r i) pre o2 todo seen); try done.
  - cbn. unfold backfill_evidence. by rewrite Eo, Ep.
  - intros e. apply not_rolled_back.
  - intros e. apply not_rolled_back.
  - apply reverse_recorder.
Qed.

(** ** The retirement of a manifest *)

Lemma retired_iff j r : ~ untouched j (RRetired r) <-> in_ledger (manifest_id (rolled_manifest r)) (ledger j) = false.
Proof using Type. unfold untouched. cbn [trail rollback_view rollback_trail]. by destruct (in_ledger _ _). Qed.

Lemma withdrawn_iff p entries :
  rollback_ids p = rollback_plan_ids (rollbacks plan) ->
  withdrawn p entries = true <->
  forall r, r ∈ rollbacks plan -> in_ledger (manifest_id (rolled_manifest r)) entries = false.
Proof using Type.
  intros Hids. unfold withdrawn. rewrite Hids, forallb_forall. setoid_rewrite <- list_elem_of_In. unfold rollback_plan_ids.
  setoid_rewrite elem_map.
  assert (forall id, forallb (fun e => negb (bool_decide (ar_migration (entry_record e) = id))) entries = true <->
    in_ledger id entries = false) as H.
  { intros id. rewrite forallb_forall, in_ledger_false. setoid_rewrite <- list_elem_of_In.
    setoid_rewrite negb_true_iff. by setoid_rewrite bool_decide_eq_false. }
  setoid_rewrite H. split; [intros Hw r Hr; apply Hw; by exists r|]. intros Hw id (r & Hr & ->). by apply Hw.
Qed.

Lemma retirement_record lease r record :
  r ∈ rollbacks plan -> RolledBackRecord_from_verified_manifest sha256 encode lease (rolled_manifest r) = Some (Ok record) ->
  ar_migration (retirement record) = manifest_id (rolled_manifest r) /\ ar_digest (retirement record) = rollback_digest r.
Proof using HP.
  intros Hr. unfold RolledBackRecord_from_verified_manifest, record_of. rewrite (rk_verified HP r Hr). intros H.
  case_in H. by simp.
Qed.

(** The journal after a retirement that leaves the plan open. *)
Lemma retirement_journal fence j p r lease record remaining :
  rollback_open (rollbacks plan) j p -> rollback_journal fence j p -> r ∈ rollbacks plan ->
  RolledBackRecord_from_verified_manifest sha256 encode lease (rolled_manifest r) = Some (Ok record) ->
  remove_last (next_entry j record) (ledger j) = Some remaining -> withdrawn (entry_record p) remaining = false ->
  rollback_journal fence (add_retirement j p record remaining) p.
Proof using HP.
  intros [_ _ Hs _ Hsince] [H1 H2 H3 H4 H5 H6 H7 H8] Hr Hrec (b & x & a & Hl & _ & Hx)%remove_last_spec Hw.
  destruct (retirement_record lease r record Hr Hrec) as [Hid _].
  assert (~ retired_since (entry_sequence p) (manifest_id (rolled_manifest r)) (retired j)) as Hfirst.
  { rewrite <- (Hsince r Hr), not_false_iff_true. apply in_ledger_iff. exists x.
    split; [rewrite Hl; apply elem_of_app; right; apply list_elem_of_here|].
    unfold retires in Hx. apply andb_true_iff in Hx as [Hx%bool_decide_eq_true _]. cbn in Hx. congruence. }
  unfold add_retirement. rewrite Hw. split; cbn [step_events backfill_events retired last_sequence]; try done.
  - eapply stored_ok_mono; [exact H2|lia|lia].
  - apply Forall_app. split; [done|]. constructor; [|done]. right. cbn. split; [lia|]. by exists lease, r.
  - apply StronglySorted_snoc; [done|]. eapply Forall_impl; [exact H7|]. unfold retired_before. cbn. lia.
  - apply Forall_app. split; [|constructor; [cbn; lia|done]]. eapply Forall_impl; [exact H7|]. cbn. lia.
  - intros e f [He|He%list_elem_of_singleton]%elem_of_app [Hf|Hf%list_elem_of_singleton]%elem_of_app Hpe Hpf E.
    + by apply H8.
    + exfalso. apply Hfirst. exists e. split_and!; [done|done|]. rewrite E, Hf. exact Hid.
    + exfalso. apply Hfirst. exists f. split_and!; [done|done|]. rewrite <- E, He. exact Hid.
    + congruence.
Qed.

Lemma retirement_extends (w : World) p r lease record remaining :
  rollback_open (rollbacks plan) (journal w) p -> r ∈ rollbacks plan ->
  RolledBackRecord_from_verified_manifest sha256 encode lease (rolled_manifest r) = Some (Ok record) ->
  remove_last (next_entry (journal w) record) (ledger (journal w)) = Some remaining ->
  withdrawn (entry_record p) remaining = false ->
  extends l w (with_journal w (add_retirement (journal w) p record remaining)) (RRetired r) Committed.
Proof using HP.
  intros Hp Hplan Hrec Hrem Hw. destruct (retirement_record lease r record Hplan Hrec) as [Hid _]. pose proof (ro_ledger _ _ _ Hp) as Hl. destruct (removed_ledger _ _ _ _ Hl Hrem) as [_ Hin].
  pose proof (retirement_open _ _ _ _ _ Hp Hrem Hw) as Hopen. cbn [entry_record next_entry] in Hin.
  split; [done| |done| |].
  3: { intros (p' & Hp' & Hj). assert (p' = p) as -> by (pose proof (ro_opened _ _ _ Hp); pose proof (ro_opened _ _ _ Hp'); congruence).
       exists p. split; [done|]. by eapply retirement_journal. }
  - intros [r' i'|r' i'|r'] _ Hs; cbn [journal with_journal trail rollback_view rollback_trail]; unfold add_retirement;
      rewrite Hw; [done|done|]. cbn [ledger].
    assert (in_ledger (manifest_id (rolled_manifest r')) remaining =
            in_ledger (manifest_id (rolled_manifest r')) (ledger (journal w))) as ->; [|done].
    apply eq_bool_prop_intro. rewrite !Is_true_true, Hin, Hid. split; [by intros []|]. intros H. split; [done|]. cbn in Hs. congruence.
  - unfold last_kind. cbn [journal with_journal trail rollback_view rollback_trail]. unfold add_retirement. rewrite Hw. cbn [ledger].
    destruct (in_ledger (manifest_id (rolled_manifest r)) remaining) eqn:E; [|done]. apply Hin in E as [_ E]. congruence.
Qed.

(** Retiring the manifest at the frontier. *)
Lemma retirement_advance w p pre r todo lease record remaining seen :
  active w = Some l -> highest_fence w = lease_fence l -> running_at live_semantics w pre (RRetired r) todo ->
  Forall (synced l known w) todo -> (forall s, seen = Some s -> reads w s) ->
  rollback_opened (journal w) = Some p -> r ∈ rollbacks plan ->
  RolledBackRecord_from_verified_manifest sha256 encode lease (rolled_manifest r) = Some (Ok record) ->
  remove_last (next_entry (journal w) record) (ledger (journal w)) = Some remaining ->
  let w' := with_journal w (add_retirement (journal w) p record remaining) in
  Inv w' /\ resting live_semantics l known w' todo seen.
Proof using HP.
  intros Ha Hf Hr Hs Hk Ho Hplan Hrec Hrem w'. destruct (retirement_record lease r record Hplan Hrec) as [Hid _].
  pose proof Hr as [(p' & Hp & _) _ _ _ _ _].
  assert (p' = p) as -> by (pose proof (ro_opened _ _ _ Hp); congruence).
  pose proof (withdrawn_iff (entry_record p) remaining (ro_ids _ _ _ Hp)) as Hwd.
  destruct (removed_ledger _ _ _ _ (ro_ledger _ _ _ Hp) Hrem) as [_ Hin]. cbn [entry_record next_entry] in Hin.
  apply (checkpoint_advance live_semantics apply_units l known w _ pre (RRetired r)); try done.
  - intros ->. assert (forall r', r' ∈ rollbacks plan -> in_ledger (manifest_id (rolled_manifest r')) remaining = false) as Hall.
    { intros r' Hr'. apply not_true_iff_false. rewrite Hin. intros [Hl Hne].
      destruct (marks_done live_semantics w pre r r' Hr Hr') as [H|[= ->]]; [apply retired_iff in H; congruence|congruence]. }
    split; cbn [rollback_opened ledger add_retirement]; [by rewrite (proj2 Hwd Hall)|done].
  - intros Hne. apply (retirement_extends w p r lease); [done..|]. apply not_true_iff_false. intros Hfl. apply Hne.
    apply (marks_complete live_semantics apply_units w pre (RRetired r) todo Hr). intros r' Hr'.
    destruct (decide (manifest_id (rolled_manifest r') = manifest_id (rolled_manifest r))) as [E|E]; [right; cbn; congruence|left].
    apply retired_iff, not_true_iff_false. intros Hl. pose proof (proj1 Hwd Hfl r' Hr') as Hx.
    assert (in_ledger (manifest_id (rolled_manifest r')) remaining = true); [apply Hin; split; [done|congruence]|congruence].
Qed.

Lemma wp_retire w r todo seen :
  r ∈ rollbacks plan -> cursor w (RRetired r :: todo) seen ->
  wp (retire sha256 encode l r seen) (checkpointed live_semantics l known rolled_back_outcome todo) w.
Proof using HP.
  intros Hin Hc. pose proof (cursor_Inv _ _ _ _ _ _ Hc) as HI. pose proof Hc as [Ha Hf _ _ _].
  destruct (cursor_checkpoint _ _ _ _ _ _ _ Hc eq_refl) as (pre & Hr & Hs & Hrd).
  assert (forall seen', (forall s, seen' = Some s -> reads w s) ->
    wp (record_retirement sha256 encode l r seen') (checkpointed live_semantics l known rolled_back_outcome todo) w) as Hgo.
  2: { unfold retire. destruct (bool_decide (seen = None)); [|by apply Hgo]. apply wp_bind_ok. cbn.
       intros [s|e] w' [-> Hs']; keep; [|done]. apply Hgo. intros t [= <-]. apply Hs'. }
  intros seen' Hk. unfold record_retirement. destruct (negb _); [apply not_rolled_back|].
  destruct (RolledBackRecord_from_verified_manifest sha256 encode l (rolled_manifest r)) as [[record|e]|] eqn:Er; [|done..].
  destruct (retirement_record _ _ _ Hin Er) as [Hid Hdig]. cbn [bind perform Fencing.wp]. intros [e|e] w' Hcon; cbn in Hcon.
  - destruct Hcon as [(p & remaining & _ & (Ho & _ & Hrem) & _ & ->)|(-> & _ & _ & _ & Hina)].
    + destruct (retirement_advance w p pre r todo l record remaining seen' Ha Hf Hr Hs Hk Ho Hin Er Hrem) as [HI' Hfin].
      split; [by apply (guarantee_running live_semantics apply_units w _ pre (RRetired r) todo)|]. exact Hfin.
    + exfalso. destruct Hr as [(p & Hp & _) _ _ _ [Hu _] _]. assert (in_ledger (manifest_id (rolled_manifest r)) (ledger (journal w)) = true) as Hl.
      { apply not_false_iff_true. intros H%retired_iff. by apply H. }
      apply in_ledger_iff in Hl as (x & Hx & Hxi). unfold inactive in Hina. rewrite Forall_forall in Hina.
      apply (Hina x Hx). rewrite Hid, Hdig. split; [done|]. by apply (ro_ledger _ _ _ Hp).
  - split; [|apply not_rolled_back].
    destruct Hcon as [(p & remaining & [->|(_ & (Ho & _ & Hrem) & ->)])|(-> & _)]; [by apply guarantee_same| |by apply guarantee_same].
    destruct (retirement_advance w p pre r todo l record remaining seen' Ha Hf Hr Hs Hk Ho Hin Er Hrem) as [HI' _].
    by apply (guarantee_running live_semantics apply_units w _ pre (RRetired r) todo).
Qed.

(** ** The loops *)

Lemma wp_operations w r n operations st todo :
  cursor w (rollback_schedule r n operations ++ RRetired r :: todo) (observed st) ->
  wp (run_operations l control r snapshot n operations st)
    (fun a w' => match a with
                 | Ok (Next st') => cursor w' (RRetired r :: todo) (observed st')
                 | Ok (Return o) => ~ rolled_back_outcome o
                 | Err _ => True
                 end) w.
Proof using HP.
  revert w n st. induction operations as [|x operations IH]; intros w n st Hc; [done|].
  pose proof (cursor_Inv _ _ _ _ _ _ Hc) as HI. cbn [run_operations rollback_schedule app] in Hc |- *.
  assert (exists o3 todo3, rollback_schedule r (S n) operations ++ RRetired r :: todo = o3 :: todo3)
    as (o3 & todo3 & E) by (destruct (rollback_schedule r (S n) operations); cbn; eauto).
  rewrite E in Hc. apply wp_bind_ok. cbn [perform Fencing.wp]. intros [u|e] w' ->; keep; [|done].
  destruct x as [i|b]; cbn [of_rollback] in Hc; apply wp_bind_ok.
  - eapply wp_mono; [by apply (wp_step w r i o3 todo3 (observed st))|].
    intros [[seen|outcome]|e] w2 H2; [|done..]. cbn in H2. rewrite <- E in H2. by apply IH.
  - eapply wp_mono; [by apply (wp_reverse w r n o3 todo3 (observed st))|].
    intros [[observation|outcome]|e] w2 H2; [|done..]. cbn in H2. rewrite <- E in H2.
    destruct (retain_backfill_observation control (observations st) observation); [by apply IH|done].
Qed.

Lemma wp_rollbacks w rs st :
  (forall r, r ∈ rs -> r ∈ rollbacks plan) ->
  match rs with [] => finished w | _ => cursor w (ops_of rs) (observed st) end ->
  wp (run_rollbacks sha256 encode l control snapshot rs st) (accomplished finished (succeeded rolled_back_outcome)) w.
Proof using HP.
  assert (forall e, ~ succeeded rolled_back_outcome (Err e)) as Herr by (by intros e (o & ? & _)).
  revert w st. induction rs as [|r rs IH]; intros w st Hrs Hc; [by intros _|]. cbn [run_rollbacks].
  change (ops_of (r :: rs)) with (block r ++ ops_of rs) in Hc. unfold block in Hc. rewrite <- app_assoc in Hc.
  apply wp_bind_ok. eapply wp_mono; [by apply (wp_operations w r O _ st (ops_of rs))|].
  intros [[st'|outcome]|e] w1 H; [|by intros (o & [= <-] & ?)|by intros ?%Herr].
  apply wp_bind_ok. eapply wp_mono; [apply (wp_retire w1 r (ops_of rs) (observed st')); [apply Hrs, list_elem_of_here|done]|].
  intros [[seen|outcome]|e] w2 H2; [|by intros (o & [= <-] & ?)|by intros ?%Herr].
  apply IH; [intros x Hx; by apply Hrs, list_elem_of_further|].
  by apply (resting_blocks live_semantics l known w2 rs seen).
Qed.
End executor.

(** ** Resuming an open plan *)

(** The flags of validated retirements: exactly the migrations retired since the
    plan was opened. *)
Lemma mark_retired_flags rs lease opened previous flags entries flags' :
  NoDup (rollback_plan_ids rs) -> length flags = length rs ->
  mark_retired sha256 encode rs lease opened previous flags entries = Some (Ok flags') ->
  forall i r, rs !! i = Some r ->
    flags' !! i = Some true <->
    flags !! i = Some true \/ retired_since opened (manifest_id (rolled_manifest r)) entries.
Proof using Type.
  intros Hnd. revert previous flags. induction entries as [|e entries IH]; intros previous flags Hlen H i r Hi.
  { cbn in H. injection H as <-. split; [by left|]. intros [?|(x & ?%not_elem_of_nil & _)]; done. }
  assert (retired_since opened (manifest_id (rolled_manifest r)) (e :: entries) <->
    retired_since opened (manifest_id (rolled_manifest r)) entries \/
    opened < entry_sequence e /\ ar_migration (retirement (entry_record e)) = manifest_id (rolled_manifest r)) as ->.
  { unfold retired_since. setoid_rewrite elem_of_cons. split.
    - intros (x & [->|Hx] & Hs & Hid); [by right|left; by exists x].
    - intros [(x & Hx & Hs & Hid)|[Hs Hid]]; [exists x; tauto|exists e; tauto]. }
  cbn [mark_retired] in H. destruct (match previous with Some _ => _ | None => _ end); [done|].
  destruct (Z.leb_spec (entry_sequence e) opened).
  { rewrite (IH _ _ Hlen H i r Hi). split; [tauto|]. intros [?|[?|[? _]]]; [tauto|tauto|lia]. }
  destruct (find_position _ rs) as [k|] eqn:Ek; [|done]. destruct (rs !! k) as [rk|] eqn:Erk; [|done].
  destruct (RolledBackRecord_from_verified_manifest _ _ _ _) as [[expected|?]|]; [|done..].
  destruct (default false (flags !! k) || _); [done|].
  rewrite (IH _ _ ltac:(by rewrite length_insert) H i r Hi).
  apply find_position_Some in Ek as (rk' & Hk & Hnames). rewrite Erk in Hk. injection Hk as <-.
  unfold names in Hnames. apply andb_true_iff in Hnames as [_ Hid%bool_decide_eq_true].
  assert (ar_migration (retirement (entry_record e)) = manifest_id (rolled_manifest r) <-> i = k) as Hik.
  { split; [|intros ->; congruence]. intros Em. unfold rollback_plan_ids in Hnd.
    apply (NoDup_lookup _ _ _ (manifest_id (rolled_manifest r)) Hnd); rewrite list_lookup_fmap;
      [by rewrite Hi|rewrite Erk; cbn; congruence]. }
  assert (<[k:=true]> flags !! i = Some true <-> i = k \/ flags !! i = Some true) as ->.
  { destruct (decide (i = k)) as [->|Hn].
    - rewrite list_lookup_insert_eq; [split; [by left|done]|]. rewrite Hlen. by eapply lookup_lt_Some.
    - rewrite list_lookup_insert_ne by done. split; [by right|]. by intros [?|?]. }
  rewrite Hik. tauto.
Qed.

Lemma validated_retired j p lease open n :
  rollback_open (rollbacks plan) j p -> rollback_entry open = p ->
  validate_open_rollback_plan sha256 encode plan lease open (retired j) = Some (Ok n) ->
  forall i r, rollbacks plan !! i = Some r ->
    (i < n)%nat <-> in_ledger (manifest_id (rolled_manifest r)) (ledger j) = false.
Proof using HP.
  intros Hp Ho. unfold validate_open_rollback_plan. rewrite Ho. destruct (from_verified_rollback_plan _ _ _ _); [|done].
  destruct (negb _); [done|]. destruct (_ || _); [done|].
  destruct (mark_retired _ _ _ _ _ _ _ _) as [[flags|?]|] eqn:Ef; [|done..].
  destruct (existsb _ (skipn _ flags)) eqn:Ex; [done|]. intros H. injection H as H.
  apply bind_ok_iff in H as (u1 & _ & H). apply bind_ok_iff in H as (u2 & _ & H). apply bind_ok_iff in H as (u3 & _ & H).
  injection H as <-. intros i r Hi. rewrite <- (take_while_flags flags Ex i).
  rewrite (mark_retired_flags _ _ _ _ _ _ _ (rk_ids HP) ltac:(by rewrite length_replicate) Ef i r Hi).
  rewrite (ro_retired _ _ _ Hp r) by (by eapply list_elem_of_lookup_2).
  split; [|by right]. intros [Hr|?]; [|done]. apply lookup_replicate in Hr as [? _]. done.
Qed.

#[local] Abbreviation Inv := (Inv live_semantics).
#[local] Abbreviation wp := (wp live_semantics apply_units Inv finished).
#[local] Abbreviation cursor := (cursor live_semantics).
#[local] Abbreviation entered := (entered live_semantics).

Lemma resume_rollback w l p open n :
  entered l w -> rollback_opened (journal w) = Some p ->
  rollback_from_store p (step_events (journal w)) (backfill_events (journal w)) = Ok open ->
  validate_open_rollback_plan sha256 encode plan l open (retired (journal w)) = Some (Ok n) ->
  match skipn n (rollbacks plan) with
  | [] => finished w
  | _ => cursor l (known_rollback (Some open)) w (ops_of (skipn n (rollbacks plan))) None
  end.
Proof using HP.
  intros Hent Ho Hst Hv. destruct (entered_Inv live_semantics apply_units _ _ Hent) as (HI & Ha & Hf).
  assert (open = open_rollback_plan p (step_events (journal w)) (backfill_events (journal w))) as ->.
  { unfold rollback_from_store in Hst. apply bind_ok_iff in Hst as (u & _ & Hst). case_in Hst. by injection Hst as <-. }
  destruct HI as [(_ & Hn & _)|[(d & o & rest & Hr)|[[Hn _] _]]]; [congruence| |congruence].
  pose proof Hr as [(p' & Hp & _) _ _ _ _ _]. assert (p' = p) as -> by (pose proof (ro_opened _ _ _ Hp); congruence).
  change (rollbacks plan) with blocks.
  apply (resume_cursor live_semantics apply_units l
    (known_rollback (Some (open_rollback_plan p (step_events (journal w)) (backfill_events (journal w))))) w n);
    [by exists d, o, rest|done|done| |].
  - intros i r Hi. cbn [mark rollback_view]. rewrite retired_iff.
    apply (validated_retired (journal w) p l (open_rollback_plan p (step_events (journal w)) (backfill_events (journal w))) n
      Hp eq_refl Hv i r Hi).
  - intros x Hin He. split; [|by eapply (entered_fresh live_semantics apply_units)].
    unfold last_kind. destruct x as [r i|r i|r]; cbn [known_rollback trail rollback_view rollback_trail mbind option_bind].
    + by rewrite last_map_fst.
    + by rewrite last_map_fst.
    + by destruct He.
Qed.

Lemma begin_journal j record l s :
  from_verified_rollback_plan l plan (applied_basis plan) s = Ok record -> step_events j = [] -> backfill_events j = [] ->
  Forall (fun e => entry_sequence e <= last_sequence j) (retired j) -> StronglySorted retired_before (retired j) ->
  rollback_journal (lease_fence l) (add_rollback_plan j record) (next_entry j record).
Proof using Type.
  clear HP. intros Hrec He Hb Hl Hs. pose proof Hrec as (_ & _ & _ & _ & Hf)%rollback_record_fields. rewrite Forall_forall in Hl.
  split; cbn [step_events backfill_events retired last_sequence add_rollback_plan entry_record next_entry]; try done.
  - by exists l, s.
  - unfold reverse_stored. cbn [step_events backfill_events add_rollback_plan]. rewrite He, Hb.
    split; [split; [constructor|constructor|set_solver]|constructor|]. cbn. lia.
  - rewrite He. constructor.
  - rewrite Hb. constructor.
  - rewrite Forall_forall. intros e Hin. left. cbn. specialize (Hl e Hin). cbn in Hl. lia.
  - rewrite Forall_forall. intros e Hin. specialize (Hl e Hin). cbn in Hl. lia.
  - intros e f Hin _ Hlt. specialize (Hl e Hin). cbn in Hl, Hlt. lia.
Qed.

(** A plan opened now starts at its first operation. *)
Lemma begin_rollback w l record ids s :
  Inv w -> active w = Some l -> highest_fence w = lease_fence l -> rollback_opened (journal w) = None ->
  loaded_applied_migrations (ledger (journal w)) = Ok ids ->
  from_verified_rollback_plan l plan ids s = Ok record -> reads w s ->
  let w' := with_journal w (add_rollback_plan (journal w) record) in
  ~ finished w /\ Inv w' /\ cursor l (known_rollback None) w' (ops_of (rollbacks plan)) (Some s).
Proof using HP.
  intros HI Ha Hf Ho Hids Hrec Hrd w'. pose proof Hrec as (Hne & -> & Hmi & _)%rollback_record_fields.
  assert (forall r, r ∈ rollbacks plan -> in_ledger (manifest_id (rolled_manifest r)) (ledger (journal w)) = true) as Hall.
  { intros r Hr. apply in_ledger_iff. pose proof (load_identities_elem _ _ _ _ Hids (manifest_id (rolled_manifest r))) as Hel.
    destruct (proj1 Hel) as [?%not_elem_of_nil|?]; [|done|done]. unfold applied_basis. apply elem_sof, elem_of_app. left.
    apply elem_map. by exists r. }
  assert (~ finished w) as Hnf.
  { intros [[_ Hno] _]. destruct (rollbacks plan) as [|r rs]; [done|].
    specialize (Hall r (list_elem_of_here _ _)). specialize (Hno r (list_elem_of_here _ _)). congruence. }
  split; [done|].
  destruct HI as [(_ & _ & _ & He & Hb & Hl & Hled & Hret & Hord)|[(d & o & rest & [(p & Hp & _) _ _ _ _ _])|?]];
    [|pose proof (ro_opened _ _ _ Hp); congruence|done].
  change (rollbacks plan) with blocks. apply (begin_cursor live_semantics l (known_rollback None) w' (Some s)); try done.
  - exists (next_entry (journal w) record).
    split; [|cbn [highest_fence with_journal w']; rewrite Hf; by apply (begin_journal (journal w) record l s)].
    split; cbn [entry_sequence next_entry last_sequence add_rollback_plan ledger retired journal with_journal w'];
      [done|done|lia|done|]. intros r Hr. rewrite (Hall r Hr). split; [done|]. intros (e & Hein & Hlt & _).
    rewrite Forall_forall in Hret. specialize (Hret e Hein). cbn in Hret. lia.
  - cbn. rewrite Hl. constructor.
  - intros o (r & Hr & [->|[(i & _ & ->)|(i & b & _ & ->)]])%elem_rollback_ops.
    + unfold untouched. cbn [trail rollback_view rollback_trail journal with_journal w' ledger add_rollback_plan]. by rewrite (Hall r Hr).
    + unfold untouched. cbn. unfold rollback_step_events. by rewrite He.
    + unfold untouched. cbn. unfold executed_reverse_events. by rewrite Hb.
  - by intros [r i|r i|r].
  - by intros t [= <-].
Qed.

(** The execution under a lease. *)
Lemma wp_rollback_under_lease w l control :
  entered l w ->
  wp (execute_rollback_under_lease sha256 encode l control plan)
    (accomplished finished (succeeded rolled_back_outcome)) w.
Proof using HP.
  intros Hent. destruct (entered_Inv live_semantics apply_units _ _ Hent) as (HI & Ha & Hf).
  assert (forall e, accomplished finished (succeeded rolled_back_outcome) (Err e) w) as Herr by (by intros e (o & ? & _)).
  assert (forall (P : Prop), P -> guarantee Inv finished w w /\ P) as Hsame by (intros P H; split; [by apply guarantee_same|done]).
  unfold execute_rollback_under_lease. apply wp_bind_ok. cbn [perform Fencing.wp].
  intros [u|e] w' ->; apply Hsame; [|apply Herr].
  apply wp_bind_ok. cbn [perform Fencing.wp]. intros [entries|e] w' [-> Hap]; apply Hsame; [|apply Herr]. destruct Hap as [_ ->].
  apply wp_bind_ok. cbn [perform Fencing.wp]. intros [gone|e] w' [-> Hgone]; apply Hsame; [|apply Herr]. destruct Hgone as [_ ->].
  apply wp_bind_ok. cbn [perform Fencing.wp]. intros [open|e] w' [-> Hopen]; apply Hsame; [|apply Herr].
  destruct Hopen as [_ Hopen]. destruct open as [open|].
  - destruct (rollback_opened (journal w)) as [p|] eqn:Ho; [|done].
    destruct (validate_open_rollback_plan sha256 encode plan l open (retired (journal w))) as [[n|e]|] eqn:Ev; [|apply Herr|done].
    apply wp_rollbacks; [intros r Hr; by apply (subseteq_drop n (rollbacks plan))|]. by apply (resume_rollback w l p).
  - destruct (rollback_opened (journal w)) eqn:Ho; [done|].
    apply wp_bind_ok. apply wp_await; [done| |apply Herr].
    cbn [perform Fencing.wp]. intros [s|e] w' [-> Hs]; apply Hsame; [|apply Herr]. destruct Hs as [_ Hs].
    destruct (loaded_applied_migrations (ledger (journal w))) as [ids|e] eqn:Ei; [|apply Herr].
    destruct (from_verified_rollback_plan l plan ids s) as [record|e] eqn:Er; [|apply Herr].
    destruct (begin_rollback w l record ids s HI Ha Hf Ho Ei Er Hs) as (Hnf & HI' & Hcur).
    assert (guarantee Inv finished w (with_journal w (add_rollback_plan (journal w) record))) as Hg'
      by (split; [done|by intros ?%Hnf]).
    apply wp_bind_ok. cbn [perform Fencing.wp]. intros [entry|e] w' Hc; cbn in Hc.
    + destruct Hc as (_ & _ & _ & ->). split; [done|]. apply wp_rollbacks; [done|].
      destruct (rollbacks plan) eqn:Em; [|exact Hcur]. by apply rollback_record_fields in Er as [? _].
    + destruct Hc as [->|(_ & _ & ->)]; (split; [done|]); [apply Herr|]. by intros (o & ? & _).
Qed.

(** ** Fencing discipline *)

Section discipline.
Context (l : MigrationLease) (control : MigrationExecutionControl).

Lemma uses_record_step {S} r i k obs failed next :
  (forall e, uses l (failed e)) -> uses l next -> uses l (record_step_event (S := S) l r i k obs failed next).
Proof using Type. intros Hf Hn. unfold record_step_event. repeat uses_step; done. Qed.

Lemma uses_record_reverse {S} r i k c failed next :
  (forall e, uses l (failed e)) -> uses l next -> uses l (record_reverse (S := S) l r i k c failed next).
Proof using Type. intros Hf Hn. unfold record_reverse. repeat uses_step; done. Qed.

#[local] Ltac uses_calls :=
  repeat first [uses_shared | apply uses_record_step; [intros ?|] | apply uses_record_reverse; [intros ?|]].

Lemma uses_execute_step r i snapshot seen : uses l (execute_step l control r i snapshot seen).
Proof using Type. unfold execute_step, apply_step, commit_step. cbv zeta. uses_calls. Qed.

Lemma uses_execute_reverse r i snapshot : uses l (execute_rollback_backfill l control r i snapshot).
Proof using Type. unfold execute_rollback_backfill, run_reverse. cbv zeta. uses_calls. Qed.

Lemma uses_operations r snapshot n operations st : uses l (run_operations l control r snapshot n operations st).
Proof using Type.
  revert n st. induction operations as [|x operations IH]; intros n st; cbn [run_operations]; uses_calls;
    first [apply uses_execute_step|apply uses_execute_reverse|apply IH].
Qed.

Lemma uses_rollback_under_lease : uses l (execute_rollback_under_lease sha256 encode l control plan).
Proof using Type.
  assert (forall snapshot rs st, uses l (run_rollbacks sha256 encode l control snapshot rs st)) as Hrs.
  { intros snapshot rs. induction rs as [|r rs IH]; intros st; cbn [run_rollbacks]; uses_calls;
      [apply uses_operations| |apply IH]. unfold retire, record_retirement. uses_calls. }
  unfold execute_rollback_under_lease. uses_calls; apply Hrs.
Qed.
End discipline.

(** ** The whole execution *)

Lemma finish_rollback_success r release :
  succeeded rolled_back_outcome (finish_rollback_lease_release r release) ->
  succeeded rolled_back_outcome r /\ exists u, release = Ok u.
Proof using Type.
  intros (o & E & b & ->). destruct r as [[]|], release as [u|]; cbn in E; try done. injection E as ->.
  split; [|by exists u]. eexists. split; [reflexivity|]. by eexists.
Qed.

Lemma rollback_starting available supports_backfill holder control :
  starting live_semantics apply_units Inv finished (succeeded rolled_back_outcome)
    (execute_verified_migration_rollback_plan_controlled sha256 encode available supports_backfill holder plan control).
Proof using HP.
  apply (fenced_starting live_semantics apply_units rolled_back_outcome finish_rollback_lease_release
    finish_rollback_success (rollback_preflight control available supports_backfill plan)
    (fun _ => scope_id (scope (rollback_source plan))) holder
    (fun l => execute_rollback_under_lease sha256 encode l control plan)).
  - intros l. apply uses_rollback_under_lease.
  - intros l w. apply wp_rollback_under_lease.
Qed.

#[local] Abbreviation executor p := (exists available supports_backfill holder control,
  p = execute_verified_migration_rollback_plan_controlled sha256 encode available supports_backfill holder plan control).

(** The invariant of every reachable world. *)
Lemma rollback_reachable w0 executors w processes :
  idle w0 -> Forall (fun p => executor p) executors -> reachable live_semantics apply_units w0 executors (w, processes) ->
  Inv w /\ forall r, Ret r ∈ processes -> succeeded rolled_back_outcome r -> finished w.
Proof using HP.
  intros Hi Hex Hr.
  assert (Forall (starting live_semantics apply_units Inv finished (succeeded rolled_back_outcome)) executors) as Hs.
  { eapply Forall_impl; [exact Hex|]. cbn. intros p (? & ? & ? & ? & ->). apply rollback_starting. }
  apply (pool_invariant live_semantics apply_units Inv finished (succeeded rolled_back_outcome)
    (Inv_with_lease live_semantics apply_units) finished_with_lease w0 executors w processes (or_introl Hi) Hs Hr).
Qed.

(** C3. Crash safety and exactly-once execution of a verified rollback plan. Any
    number of executors run the plan concurrently against one scope; journal
    writes fail with or without being durable, commits have unknown outcomes,
    leases expire and processes stop at any moment. At every moment the database
    has received exactly the reverse statements of a prefix of the plan's
    operations, in order: no reverse step twice, none skipped. A reverse backfill of
    the prefix was run at most once, and the provider verified its exact
    postcondition, after the run if there was one; beyond the prefix there is at
    most one run of the reverse backfill that comes next, of which any number of
    transaction groups may be committed. When an executor reports success, the
    prefix is the whole plan, no rolled back migration is in the active ledger, and
    the plan is closed. *)
Theorem rollback_exactly_once w0 executors w processes :
  idle w0 ->
  Forall (fun p => exists available supports_backfill holder control,
    p = execute_verified_migration_rollback_plan_controlled sha256 encode available supports_backfill holder plan control)
    executors ->
  reachable live_semantics apply_units w0 executors (w, processes) ->
  (exists executed, received executed (log w)) /\
  (forall backfills, Ret (Ok (RolledBack backfills)) ∈ processes ->
     executes ops (log w) /\ rollback_opened (journal w) = None /\
     forall r, r ∈ rollbacks plan -> in_ledger (manifest_id (rolled_manifest r)) (ledger (journal w)) = false).
Proof using HP.
  intros Hi Hex Hr. destruct (rollback_reachable w0 executors w processes Hi Hex Hr) as [HI Hfin].
  split; [by apply (Inv_received live_semantics)|].
  intros b Hb. destruct (Hfin _ Hb) as [[Ho Ha] He]; [|done].
  exists (RolledBack b). split; [done|by exists b].
Qed.

End safety.
End RollbackSafety.
