(* ===== verification/RollbackRecovery.v ===== *)
(** * Recovery of interrupted rollback plans

    Whatever interrupts the executors of a verified rollback plan, the journal
    they leave behind is one that the next executor rebuilds and accepts, and the
    recovery resumes at the first manifest whose migration is still active. *)

From Stdlib Require Import Sorted.
From S2P Require Import Prelude BTree Text Ident Fingerprint Schema Components SchemaDelta Safety Limits Assertion Migration Manifest ApplyPlan RollbackPlan Execution RollbackJournal Coordinator RollbackCoordinator Fencing Protocol RollbackSafety.
Import Ident Fingerprint Schema Components SchemaDelta Safety Assertion Migration Manifest ApplyPlan RollbackPlan Execution RollbackJournal Coordinator RollbackCoordinator Fencing Protocol RollbackSafety.
#[local] Open Scope Z_scope.

Module RollbackRecovery.

(** ** The stored events *)

(** A step event depends on the lease only through its scope and fence. *)
Lemma step_event_rebuilt lease r i k obs e :
  RollbackStepEventRecord_new lease r i k obs = Ok e ->
  lease_scope lease = scope_id (managed_scope (rolled_manifest r)) /\ re_scope e = lease_scope lease /\
  forall l, lease_scope l = lease_scope lease ->
    RollbackStepEventRecord_new (MigrationLease_new (lease_scope l) (lease_holder l) (re_fence e)) r (Z.to_nat (re_ordinal e))
      (re_kind e) (re_observed_target e) = Ok e.
Proof.
  intros H. pose proof H as (_ & Ho & _)%step_event_fields. rewrite Ho, Nat2Z.id. revert H.
  unfold RollbackStepEventRecord_new. intros H. apply bind_ok_iff in H as (s & -> & H).
  apply bind_ok_iff in H as (d & Hd & H). case_bool_decide as Hs; [|done]. cbn [negb] in H.
  apply bind_ok_iff in H as (u & Hk & H). apply bind_ok_iff in H as (z & -> & H). injection H as <-.
  split_and!; [done|done|]. intros l Hl. cbn [ok_or]. rewrite Hd. cbn [MigrationLease_new lease_scope re_fence re_kind re_observed_target lease_fence].
  rewrite bool_decide_eq_true_2 by congruence. cbn [negb]. by rewrite Hk.
Qed.

Lemma reverse_event_rebuilt lease r i k c e :
  new_rollback lease r i k c = Ok e ->
  lease_scope lease = scope_id (managed_scope (rolled_manifest r)) /\ be_scope e = lease_scope lease /\
  forall l, lease_scope l = lease_scope lease ->
    new_rollback (MigrationLease_new (lease_scope l) (lease_holder l) (be_fence e)) r (Z.to_nat (be_operation_ordinal e))
      (be_kind e) (be_completion e) = Ok e.
Proof.
  intros H. pose proof H as (_ & _ & Ho & _)%reverse_event_fields. rewrite Ho, Nat2Z.id. revert H.
  unfold new_rollback. intros H. case_bool_decide as Hs; [|done]. cbn [negb] in H.
  apply bind_ok_iff in H as (s & -> & H). apply bind_ok_iff in H as (b & -> & H). apply bind_ok_iff in H as (n & -> & H).
  unfold new_checked in H. apply bind_ok_iff in H as (u & Hk & H).
  apply bind_ok_iff in H as (z & Hz & H). apply bind_ok_iff in H as (z2 & Hz2 & H). injection H as <-.
  split_and!; [done|done|]. intros l Hl. cbn [MigrationLease_new lease_scope be_fence be_kind be_completion].
  rewrite bool_decide_eq_true_2 by congruence. cbn [negb]. unfold new_checked. rewrite Hk, Hz, Hz2. cbn. by rewrite Hl.
Qed.

(** ** The retirements *)

Lemma mark_retired_length sha256 encode rs l opened previous flags entries flags' :
  mark_retired sha256 encode rs l opened previous flags entries = Some (Ok flags') -> length flags' = length flags.
Proof.
  revert previous flags. induction entries as [|e entries IH]; intros previous flags H; [by injection H as <-|].
  cbn [mark_retired] in H. destruct (match previous with Some _ => _ | None => _ end); [done|].
  destruct (_ <=? _); [by eapply IH|]. destruct (find_position _ rs) as [i|]; [|done]. destruct (rs !! i) as [r|]; [|done].
  destruct (RolledBackRecord_from_verified_manifest _ _ _ _) as [[x|x]|]; [|done..]. destruct (_ || _); [done|].
  apply IH in H. by rewrite length_insert in H.
Qed.

Section recovery.
Context {Live : Type}.
Context (live_semantics : Live -> ManagedScopeBinding -> option Fingerprint.Fingerprint).
Context (apply_units : Live -> list StatementUnit -> Live).
Context (sha256 : str -> str) (encode : VerifiedSchemaMigrationManifest -> result Diagnostic str).
Context (plan : VerifiedMigrationRollbackPlan).
Context (HP : rollback_ok live_semantics apply_units sha256 encode plan).
#[local] Hint Extern 0 (PlanView _ _ _) => exact (rollback_view sha256 encode plan) : typeclass_instances.
#[local] Hint Extern 0 (PlanLaws _ _ _) =>
  exact (rollback_laws live_semantics apply_units sha256 encode plan HP) : typeclass_instances.
#[local] Abbreviation World := (World Live).
#[local] Abbreviation rollback_journal := (rollback_journal sha256 encode plan).

(** The managed states of a verified manifest are those of its scope. *)
Definition rollback_recoverable : Prop :=
  forall r, r ∈ rollbacks plan -> scope (manifest_target (rolled_manifest r)) = managed_scope (rolled_manifest r).

(** A retirement depends on the lease only through its scope and fence. *)
Lemma retirement_rebuilt lease l m record :
  RolledBackRecord_from_verified_manifest sha256 encode lease m = Some (Ok record) ->
  lease_scope l = scope_id (scope (manifest_target m)) ->
  RolledBackRecord_from_verified_manifest sha256 encode
    (MigrationLease_new (lease_scope l) (lease_holder l) (ar_fence (retirement record))) m = Some (Ok record).
Proof using Type.
  unfold RolledBackRecord_from_verified_manifest, record_of. intros H Hl. cbn [MigrationLease_new lease_scope lease_fence].
  rewrite (bool_decide_eq_true_2 (lease_scope l = _)) by done. cbn [negb orb] in H |- *.
  destruct (bool_decide (lease_scope lease = _)); [|done]. cbn [negb orb] in H.
  destruct (negb (bool_decide (scope (manifest_source m) = _))); [done|].
  destruct (verified_manifest_digest sha256 encode m) as [[d|e]|]; [|done..]. by injection H as <-.
Qed.

(** Retirements in order, those after the plan entry built for its manifests and
    of different ones, are accepted. *)
Lemma mark_retired_accepts l opened previous flags entries :
  length flags = length (rollbacks plan) ->
  StronglySorted retired_before entries -> Forall (fun e => forall p, previous = Some p -> p < entry_sequence e) entries ->
  (forall e f, e ∈ entries -> f ∈ entries -> opened < entry_sequence e -> opened < entry_sequence f ->
    ar_migration (retirement (entry_record e)) = ar_migration (retirement (entry_record f)) -> e = f) ->
  Forall (fun e => entry_sequence e < opened \/ opened < entry_sequence e /\ exists lease r, r ∈ rollbacks plan /\
    lease_scope l = scope_id (scope (manifest_target (rolled_manifest r))) /\
    RolledBackRecord_from_verified_manifest sha256 encode lease (rolled_manifest r) = Some (Ok (entry_record e))) entries ->
  (forall i r e, rollbacks plan !! i = Some r -> e ∈ entries -> opened < entry_sequence e ->
    ar_migration (retirement (entry_record e)) = manifest_id (rolled_manifest r) -> flags !! i = Some false) ->
  exists flags', mark_retired sha256 encode (rollbacks plan) l opened previous flags entries = Some (Ok flags').
Proof using HP.
  revert previous flags. induction entries as [|e entries IH]; intros previous flags Hlen Hs Hp Hd Hm Hf; [by eexists|].
  cbn [mark_retired]. apply StronglySorted_inv in Hs as [Hs He]. apply Forall_cons in Hp as [Hpe Hp].
  apply Forall_cons in Hm as [Hme Hm].
  destruct (match previous with Some _ => _ | None => _ end) eqn:Ep.
  { destruct previous as [p|]; [|done]. apply Z.leb_le in Ep. specialize (Hpe p eq_refl). lia. }
  assert (Forall (fun x => forall p, Some (entry_sequence e) = Some p -> p < entry_sequence x) entries) as Hnext.
  { eapply Forall_impl; [exact He|]. by intros x Hx p [= <-]. }
  assert (forall e f, e ∈ entries -> f ∈ entries -> opened < entry_sequence e -> opened < entry_sequence f ->
    ar_migration (retirement (entry_record e)) = ar_migration (retirement (entry_record f)) -> e = f) as Hd'.
  { intros x y Hx Hy. apply Hd; by apply list_elem_of_further. }
  destruct Hme as [Hlt|(Hlt & lease & r & Hr & Hl & Hrec)].
  { destruct (Z.leb_spec (entry_sequence e) opened); [|lia]. apply IH; try done.
    intros i r x Hi Hx. apply Hf; [done|by apply list_elem_of_further]. }
  destruct (Z.leb_spec (entry_sequence e) opened); [lia|].
  destruct (retirement_record live_semantics apply_units sha256 encode plan HP lease r (entry_record e) Hr Hrec) as [Hid Hdig].
  destruct (find_position _ (rollbacks plan)) as [i|] eqn:Ei.
  2: { apply (find_position_None _ _ r) in Ei; [|done]. unfold names in Ei. by rewrite !bool_decide_eq_true_2 in Ei. }
  apply find_position_Some in Ei as (r' & Hi & [_ E%bool_decide_eq_true]%andb_true_iff).
  assert (r' = r) as ->.
  { eapply (NoDup_map_inj _ _ _ _ (rk_ids _ _ _ _ _ HP)); [by eapply list_elem_of_lookup_2|done|congruence]. }
  rewrite Hi, (retirement_rebuilt lease l _ _ Hrec Hl), (Hf i r e Hi ltac:(apply list_elem_of_here) Hlt Hid).
  cbn [default id orb]. rewrite bool_decide_eq_true_2 by done. cbn [negb].
  apply IH; [by rewrite length_insert|done..|]. intros k x y Hk Hy Hyl Ey.
  rewrite list_lookup_insert_ne; [by apply (Hf k x y Hk); [apply list_elem_of_further| |]|].
  intros ->. rewrite Hi in Hk. injection Hk as ->. rewrite Forall_forall in He. specialize (He y Hy).
  rewrite (Hd e y ltac:(apply list_elem_of_here) ltac:(by apply list_elem_of_further) Hlt Hyl ltac:(congruence)) in He.
  unfold retired_before in He. lia.
Qed.

(** ** The plan entry *)

Lemma rollback_identity lease s record l :
  from_verified_rollback_plan lease plan (applied_basis plan) s = Ok record -> lease_scope l = rp_scope record ->
  from_verified_rollback_plan (MigrationLease_new (lease_scope l) (lease_holder l) (rp_fence record)) plan
    (applied_basis plan) (rollback_source plan) = Ok record /\
  Forall (fun r => scope_id (managed_scope (rolled_manifest r)) = rp_scope record) (rollbacks plan).
Proof using Type.
  unfold from_verified_rollback_plan. intros H Hl. apply bind_ok_iff in H as (first & -> & H). cbn [ok_or].
  rewrite (bool_decide_eq_true_2 (applied_basis plan = _)) in H |- * by done. cbn [negb] in H |- *.
  case_bool_decide as Hs; [|done]. cbn [negb] in H. rewrite (bool_decide_eq_true_2 (rollback_source plan = _)) by done.
  destruct (bool_decide (lease_scope lease = _)) eqn:El; [|done]. cbn [negb orb] in H |- *.
  destruct (negb (bool_decide (scope (rollback_target plan) = _))) eqn:Et; [done|].
  destruct (existsb _ (rollbacks plan)) eqn:Ex; [done|]. injection H as <-. cbn [rp_scope rp_fence] in Hl |- *.
  cbn [MigrationLease_new lease_scope lease_fence]. rewrite bool_decide_eq_true_2 by done. cbn [negb orb]. split; [by subst s|].
  rewrite Forall_forall. intros r Hr%list_elem_of_In. apply not_true_iff_false in Ex.
  apply dec_stable. intros Hne. apply Ex, existsb_exists. exists r. split; [done|]. unfold shares_binding.
  by rewrite bool_decide_eq_false_2.
Qed.

(** ** The progress *)

(** The positions of the operations do not matter to the progress check. *)
Lemma progress_trails closed complete os os' :
  map snd os = map snd os' -> validate_progress closed complete os = validate_progress closed complete os'.
Proof using Type.
  revert closed complete os'. induction os as [|[z t] os IH]; intros closed complete [|[z' t'] os'] E; try done.
  injection E as -> E. cbn [validate_progress]. destruct (validate_commit_transitions None t'); [|done].
  destruct (last t') as [[k f]|]; [|by apply IH]. destruct closed, (is_completion_event k); try done; by apply IH.
Qed.

Lemma reverse_views fence j p r i b :
  rollback_journal fence j p -> r ∈ rollbacks plan -> rollback_operations r !! i = Some (RollbackBackfill b) ->
  rollback_backfill_events (backfill_events j) r i = executed_reverse_events (backfill_events j) r i.
Proof using HP.
  intros [_ _ _ Hb _ _ _ _] Hr Hi. apply filter_agree. intros e (x & Hx & ->)%elem_map.
  rewrite (clamp_small i) by (pose proof (rk_positions _ _ _ _ _ HP r Hr); apply lookup_lt_Some in Hi; lia). split; [|tauto].
  intros (Hd & H). split; [|tauto]. rewrite Forall_forall in Hb. destruct (Hb x Hx) as (lease & r' & i' & k & c & Hr' & He).
  apply reverse_event_fields in He as (-> & Hd' & _).
  by rewrite (NoDup_map_inj rollback_digest _ _ _ (rk_digests _ _ _ _ _ HP) Hr' Hr ltac:(congruence)).
Qed.

Lemma operation_trails open j r n operations :
  rollback_events open = step_events j ->
  (forall i b, operations !! i = Some (RollbackBackfill b) ->
    rollback_backfill_events (rollback_backfill_entries open) r (n + i) = executed_reverse_events (backfill_events j) r (n + i)) ->
  imap (fun i o => operation_transitions open r (n + i) o) operations = map (rollback_trail j) (rollback_schedule r n operations).
Proof using Type.
  intros He. revert n. induction operations as [|o operations IH]; intros n Hb; [done|].
  cbn [imap rollback_schedule map]. rewrite <- (IH (S n)).
  2: { intros i b Hi. replace (S n + i)%nat with (n + S i)%nat by lia. by apply (Hb (S i) b). }
  rewrite Nat.add_0_r. f_equal; [|apply imap_ext; intros; cbn; by rewrite Nat.add_succ_r].
  destruct o as [i|b]; cbn [operation_transitions of_rollback rollback_trail]; [by rewrite He|].
  specialize (Hb O b eq_refl). rewrite Nat.add_0_r in Hb. by rewrite Hb.
Qed.

Lemma rollback_progress fence j p r :
  rollback_journal fence j p -> r ∈ rollbacks plan ->
  map snd (rollback_transitions (open_rollback_plan p (step_events j) (backfill_events j)) r) = map (trail j) (body r).
Proof using HP.
  intros Hj Hr. unfold rollback_transitions. change (map snd ?l) with (snd <$> l). rewrite fmap_imap.
  cbn [body trail rollback_view]. apply (operation_trails (open_rollback_plan p (step_events j) (backfill_events j)) j r O); [done|].
  intros i b Hi. cbn [rollback_backfill_entries Nat.add]. by eapply reverse_views.
Qed.

Lemma rollbacks_accepted open flags n index rs :
  (forall i r, rs !! i = Some r -> exists complete,
     validate_progress false true (rollback_transitions open r) = Ok complete /\
     default false (flags !! (index + i)%nat) = (index + i <? n)%nat /\ ((index + i < n)%nat -> complete = true) /\
     ((n < index + i)%nat -> Forall (fun t => t = []) (map snd (rollback_transitions open r)))) ->
  validate_rollbacks open flags n index rs = Ok tt.
Proof using Type.
  revert index. induction rs as [|r rs IH]; intros index H; [done|]. cbn [validate_rollbacks].
  destruct (H O r eq_refl) as (complete & -> & Hf & Hc & Hu). rewrite Nat.add_0_r in Hf, Hc, Hu. rewrite Hf.
  assert ((index <? n)%nat && negb complete = false) as -> by (destruct (Nat.ltb_spec index n); [by rewrite Hc|done]).
  assert ((n <? index)%nat && existsb (fun o => negb (bool_decide (o.2 = []))) (rollback_transitions open r) = false) as ->.
  { destruct (Nat.ltb_spec n index) as [Hlt|Hge]; [|done]. apply not_true_iff_false. intros Hx. cbn [andb] in Hx.
    apply existsb_exists in Hx as (t & Hin%list_elem_of_In & Ht). specialize (Hu Hlt). rewrite Forall_map, Forall_forall in Hu.
    specialize (Hu t Hin). cbn in Hu. by rewrite bool_decide_eq_true_2 in Ht. }
  apply IH. intros i x Hi. replace (S index + i)%nat with (index + S i)%nat by lia. by apply H.
Qed.

(** ** The events *)

Lemma find_rollback r d id :
  r ∈ rollbacks plan -> d = rollback_digest r -> id = manifest_id (rolled_manifest r) ->
  find (names d id) (rollbacks plan) = Some r.
Proof using HP.
  intros Hr -> ->. destruct (find _ (rollbacks plan)) as [r'|] eqn:E.
  - apply find_some in E as [Hin%list_elem_of_In [Hd%bool_decide_eq_true _]%andb_true_iff]. f_equal.
    by apply (NoDup_map_inj rollback_digest (rollbacks plan) _ _ (rk_digests _ _ _ _ _ HP)).
  - apply list_elem_of_In, (find_none _ _ E r) in Hr. unfold names in Hr. by rewrite !bool_decide_eq_true_2 in Hr.
Qed.

(** The lease of a later executor. *)
#[local] Abbreviation scoped l := (forall r, r ∈ rollbacks plan -> scope_id (managed_scope (rolled_manifest r)) = lease_scope l).

Lemma steps_accepted l j fence p :
  rollback_journal fence j p -> scoped l -> exists us, try_map (validate_step_event (rollbacks plan) l) (step_events j) = Ok us.
Proof using HP.
  intros [_ _ Hs _ _ _ _ _] Hl. apply try_map_accepts. eapply Forall_impl; [exact Hs|].
  intros e (lease & r & i & k & obs & Hr & He). exists tt. pose proof He as (Hd & _ & _ & _ & Hi)%step_event_fields.
  apply step_event_rebuilt in He as (Hsc & _ & He). unfold validate_step_event. cbv zeta.
  rewrite (find_rollback r _ _ Hr Hd Hi). cbn [ok_or]. rewrite He by (rewrite Hsc; symmetry; by apply Hl).
  by rewrite bool_decide_eq_true_2.
Qed.

Lemma reverses_accepted l j fence p :
  rollback_journal fence j p -> scoped l ->
  exists us, try_map (validate_reverse_backfill_event (rollbacks plan) l) (backfill_events j) = Ok us.
Proof using HP.
  intros [_ _ _ Hb _ _ _ _] Hl. apply try_map_accepts. eapply Forall_impl; [exact Hb|].
  intros e (lease & r & i & k & c & Hr & He). exists tt. pose proof He as (Hi & Hd & _)%reverse_event_fields.
  apply reverse_event_rebuilt in He as (Hsc & _ & He). unfold validate_reverse_backfill_event. cbv zeta.
  rewrite (find_rollback r _ _ Hr Hd Hi). cbn [ok_or]. rewrite He by (rewrite Hsc; symmetry; by apply Hl).
  by rewrite bool_decide_eq_true_2.
Qed.

Lemma rollback_rebuilt fence j p :
  rollback_journal fence j p ->
  rollback_from_store p (step_events j) (backfill_events j) = Ok (open_rollback_plan p (step_events j) (backfill_events j)).
Proof using Type.
  intros [(lease & s & Hrec) [Hc _ _] Hs Hb _ _ _ _].
  destruct (rollback_identity _ _ _ (MigrationLease_new (rp_scope (entry_record p)) (lease_holder lease) (lease_fence lease)) Hrec eq_refl)
    as [_ Hscope]. rewrite Forall_forall in Hscope. apply rollback_rebuilt_iff. split_and!; [done| | |done].
  - eapply Forall_impl; [exact Hs|]. intros e (l & r & i & k & obs & Hr & (Hsc & -> & _)%step_event_rebuilt).
    rewrite Hsc. by apply Hscope.
  - eapply Forall_impl; [exact Hb|]. intros e (l & r & i & k & c & Hr & (Hsc & -> & _)%reverse_event_rebuilt).
    rewrite Hsc. by apply Hscope.
Qed.

(** ** The open plan *)

Lemma retirements_accepted l j fence p :
  rollback_recoverable -> rollback_open (rollbacks plan) j p -> rollback_journal fence j p -> scoped l -> exists flags,
    mark_retired sha256 encode (rollbacks plan) l (entry_sequence p) None (replicate (length (rollbacks plan)) false)
      (retired j) = Some (Ok flags) /\ length flags = length (rollbacks plan) /\
    forall i r, rollbacks plan !! i = Some r ->
      flags !! i = Some true <-> in_ledger (manifest_id (rolled_manifest r)) (ledger j) = false.
Proof using HP.
  intros HR Hop [_ _ _ _ Hret Hs _ Hd] Hl.
  destruct (mark_retired_accepts l (entry_sequence p) None (replicate (length (rollbacks plan)) false) (retired j))
    as [flags Hf]; try done.
  - by rewrite length_replicate.
  - by rewrite Forall_forall.
  - eapply Forall_impl; [exact Hret|]. intros e [?|(Hlt & lease & r & Hr & Hrec)]; [by left|]. right. split; [done|].
    exists lease, r. split_and!; [done| |done]. rewrite (HR r Hr). symmetry. by apply Hl.
  - intros i r e Hi _ _ _. apply lookup_replicate. split; [done|by eapply lookup_lt_Some].
  - exists flags. split_and!; [done|by eapply mark_retired_length in Hf; rewrite Hf, length_replicate|].
    intros i r Hi.
    rewrite (mark_retired_flags sha256 encode _ _ _ _ _ _ _ (rk_ids _ _ _ _ _ HP) ltac:(by rewrite length_replicate) Hf i r Hi).
    rewrite (ro_retired _ _ _ Hop r) by (by eapply list_elem_of_lookup_2).
    split; [|by right]. intros [[? _]%lookup_replicate|?]; done.
Qed.

Lemma rollback_accepted w d o rest p l :
  rollback_recoverable -> running_at live_semantics w d o rest -> rollback_opened (journal w) = Some p ->
  lease_scope l = rp_scope (entry_record p) -> highest_fence w <= lease_fence l ->
  rollback_open (rollbacks plan) (journal w) p /\
  rollback_from_store p (step_events (journal w)) (backfill_events (journal w)) =
    Ok (open_rollback_plan p (step_events (journal w)) (backfill_events (journal w))) /\
  exists n, validate_open_rollback_plan sha256 encode plan l
    (open_rollback_plan p (step_events (journal w)) (backfill_events (journal w))) (retired (journal w)) = Some (Ok n).
Proof using HP.
  intros HR Hr Ho Hl Hf. pose proof Hr as [(p' & Hop & Hj) _ _ _ _ _].
  assert (p' = p) as -> by (pose proof (ro_opened _ _ _ Hop); congruence).
  split; [done|]. split; [by eapply rollback_rebuilt|]. pose proof Hj as [(lease & s & Hrec) [_ _ [_ Hpf]] _ _ _ _ _ _].
  destruct (rollback_identity _ _ _ l Hrec Hl) as [Hid Hscope]. rewrite Forall_forall in Hscope. rewrite <- Hl in Hscope.
  destruct (retirements_accepted l _ _ _ HR Hop Hj Hscope) as (flags & Hflags & Hlen & Hgone).
  destruct (running_progress live_semantics apply_units w d o rest (fun _ => 0) Hr) as (n & Hn & Hprog).
  assert (forall i, (i < length flags)%nat -> flags !! i = Some true <-> (i < n)%nat) as Hprefix.
  { intros i Hi. rewrite Hlen in Hi. destruct (lookup_lt_is_Some_2 _ _ Hi) as [r Hri]. rewrite (Hgone i r Hri).
    destruct (Hprog i r Hri) as [-> _]. by rewrite <- (retired_iff sha256 encode plan). }
  destruct (prefix_flags flags n ltac:(rewrite Hlen; by apply Nat.lt_le_incl) Hprefix) as [Hcount Hskip].
  destruct (steps_accepted l _ _ _ Hj Hscope) as [us Hus]. destruct (reverses_accepted l _ _ _ Hj Hscope) as [vs Hvs].
  exists n. unfold validate_open_rollback_plan. cbv zeta. cbn [rollback_entry rollback_events rollback_backfill_entries].
  rewrite Hid. rewrite (bool_decide_eq_true_2 (entry_record p = _)) by done. cbn [negb].
  rewrite (bool_decide_eq_true_2 (_ = lease_scope l)) by done. cbn [negb orb]. cbn in Hpf.
  rewrite (proj2 (Z.ltb_ge _ _)) by lia. rewrite Hflags, Hcount, Hskip, Hus, Hvs.
  rewrite rollbacks_accepted; [done|]. intros i r Hri. cbn [Nat.add].
  assert (r ∈ rollbacks plan) as Hin by (by eapply list_elem_of_lookup_2).
  destruct (Hprog i r Hri) as (Hmark & Hunt & complete & Hv & Hc). exists complete.
  pose proof (rollback_progress _ _ _ _ Hj Hin) as Htr. split_and!; [|by apply prefix_flag; [|rewrite Hlen; eapply lookup_lt_Some]|done|].
  - rewrite <- Hv. apply progress_trails. rewrite Htr. unfold progress_of. by rewrite map_map.
  - intros Hlt. rewrite Htr, Forall_map. exact (Hunt Hlt).
Qed.

(** C5. Recovery never refuses an interrupted rollback. Any number of executors
    run a verified rollback plan against one scope, and stop anywhere. As long as
    the plan is open, it is rebuilt from the stored entries and passes every
    integrity check of the recovery under any later lease of its scope: identity,
    fences, retirement order and evidence, stored events, commit transitions, and
    prefix progress. The recovery resumes at the first manifest whose migration is
    still active. *)
Theorem interrupted_rollback_recovered w0 executors w processes p l :
  rollback_recoverable -> idle w0 ->
  Forall (fun e => exists available supports_backfill holder control,
    e = execute_verified_migration_rollback_plan_controlled sha256 encode available supports_backfill holder plan control)
    executors ->
  reachable live_semantics apply_units w0 executors (w, processes) ->
  rollback_opened (journal w) = Some p -> lease_scope l = rp_scope (entry_record p) -> highest_fence w <= lease_fence l ->
  exists open n,
    rollback_from_store p (step_events (journal w)) (backfill_events (journal w)) = Ok open /\
    validate_open_rollback_plan sha256 encode plan l open (retired (journal w)) = Some (Ok n) /\
    forall i r, rollbacks plan !! i = Some r ->
      (i < n)%nat <-> in_ledger (manifest_id (rolled_manifest r)) (ledger (journal w)) = false.
Proof using HP.
  intros HR Hi Hex Hr Ho Hl Hf.
  destruct (rollback_reachable live_semantics apply_units sha256 encode plan HP w0 executors w processes Hi Hex Hr) as [HI _].
  destruct HI as [(_ & Hn & _)|[(d & o & rest & Hrun)|[[Hn _] _]]]; [congruence| |congruence].
  destruct (rollback_accepted w d o rest p l HR Hrun Ho Hl Hf) as (Hop & Hst & n & Hv).
  exists (open_rollback_plan p (step_events (journal w)) (backfill_events (journal w))), n. split_and!; [done|done|].
  by apply (validated_retired live_semantics apply_units sha256 encode plan HP (journal w) p l
    (open_rollback_plan p (step_events (journal w)) (backfill_events (journal w))) n).
Qed.

End recovery.
End RollbackRecovery.
