(* ===== verification/ReferenceEnvironment.v ===== *)
(** * A reference environment

    An in-memory journal and an honest provider, as a function from operations
    to answers: it meets the contract of Fencing.v, so executions of programs
    against it are evaluated. It serves the examples of the executors' theorems. *)

From S2P Require Import Prelude BTree Text Ident Fingerprint Schema Components SchemaDelta Dependencies Delta Safety Limits Assertion Migration Manifest Policy ApplyPlan RollbackPlan Execution RollbackJournal Coordinator RollbackCoordinator Fencing Protocol ApplySafety ApplyRecovery RollbackSafety RollbackRecovery.
Import Ident Fingerprint Schema Components SchemaDelta Safety Assertion Migration Manifest ApplyPlan RollbackPlan Execution RollbackJournal Coordinator RollbackCoordinator Fencing Protocol ApplySafety ApplyRecovery RollbackSafety RollbackRecovery.
#[local] Open Scope Z_scope.

Module ReferenceEnvironment.

Section environment.
Context {Live : Type}.
Context (live_semantics : Live -> ManagedScopeBinding -> option Fingerprint.Fingerprint).
Context (apply_units : Live -> list StatementUnit -> Live).
Context (completed_backfill : AttributeBackfillPlan -> BackfillExecutionDirection -> BackfillCompletionEvidence).
#[local] Abbreviation World := (World Live).

Definition reads_bool (w : World) (s : ManagedSchemaState) : bool :=
  bool_decide (live_semantics (live w) (scope s) = Some (managed_semantic_schema s)).

Definition refused : Diagnostic := stable Integrity "migration_execution_stale_fence".
Definition no_open_plan : Diagnostic := invalid "migration_execution_no_open_plan".

(** An answer under the active lease. *)
Definition under {A : Set} (w : World) (l : MigrationLease) (k : result Diagnostic A * World)
    : result Diagnostic A * World := if bool_decide (active w = Some l) then k else (Err refused, w).

(** A journal entry under the active lease, where the journal allows it. *)
Definition append {R : Set} (w : World) (l : MigrationLease) (allowed : bool) (r : R) (after : Journal)
    : result Diagnostic (JournalEntry R) * World :=
  under w l (if allowed then (Ok (next_entry (journal w) r), with_journal w after) else (Err no_open_plan, w)).

Definition planned_bool (ids : list MigrationId) (digests : list FingerprintDigest) (r : AppliedRecord) : bool :=
  match find_position (fun id => bool_decide (id = ar_migration r)) ids with
  | Some i => bool_decide (digests !! i = Some (ar_digest r))
  | None => false
  end.

Definition is_none {A} (o : option A) : bool := match o with None => true | Some _ => false end.

Definition answer (o : op) (w : World) : ans o * World :=
  let j := journal w in
  match o return ans o * World with
  | Check => (Ok tt, w)
  | Select _ => (OperationFirst, w)
  | Acquire scope holder =>
      match active w with
      | None =>
          let l := MigrationLease_new scope holder (highest_fence w + 1) in
          (Ok l, with_lease w (Some l) (highest_fence w + 1))
      | Some _ => (Err (invalid "migration_execution_lease_contended"), w)
      end
  | Release l => under w l (Ok tt, with_lease w None (highest_fence w))
  | LoadApplied l => under w l (Ok (ledger j), w)
  | LoadOpenPlan l =>
      under w l
        match opened j with
        | None => (Ok None, w)
        | Some p =>
            match from_store_with_backfills p (events j) (backfill_events j) with
            | Ok open => (Ok (Some open), w)
            | Err e => (Err e, w)
            end
        end
  | BeginPlan l record => append w l (is_none (opened j) && is_none (rollback_opened j)) record (add_plan j record)
  | RecordGroupEvent l record => append w l (negb (is_none (opened j))) record (add_event j record)
  | RecordBackfillEvent l record =>
      append w l (negb (is_none (opened j)) || negb (is_none (rollback_opened j))) record (add_backfill j record)
  | RecordApplied l record =>
      match opened j with
      | None => (Err no_open_plan, w)
      | Some p =>
          append w l
            (planned_bool (migration_ids (entry_record p)) (manifest_digests (entry_record p)) record &&
             forallb (fun e => negb (bool_decide (ar_migration (entry_record e) = ar_migration record))) (ledger j))
            record (add_applied j p record)
      end
  | LoadRolledBack l => under w l (Ok (retired j), w)
  | LoadOpenRollbackPlan l =>
      under w l
        match rollback_opened j with
        | None => (Ok None, w)
        | Some p =>
            match rollback_from_store p (step_events j) (backfill_events j) with
            | Ok open => (Ok (Some open), w)
            | Err e => (Err e, w)
            end
        end
  | BeginRollbackPlan l record =>
      append w l (is_none (opened j) && is_none (rollback_opened j)) record (add_rollback_plan j record)
  | RecordRollbackStepEvent l record => append w l (negb (is_none (rollback_opened j))) record (add_step_event j record)
  | RecordRolledBack l record =>
      match rollback_opened j, remove_last (next_entry j record) (ledger j) with
      | Some p, Some remaining =>
          append w l (planned_bool (rollback_ids (entry_record p)) (rp_digests (entry_record p)) (retirement record))
            record (add_retirement j p record remaining)
      | _, _ => (Err no_open_plan, w)
      end
  | ObserveManagedState l source target =>
      under w l (if reads_bool w source then (Ok source, w)
                 else if reads_bool w target then (Ok target, w)
                 else (Err refused, w))
  | PrepareGroup l source target =>
      under w l (if reads_bool w source then (Ok (prepared_group source target []), w) else (Err refused, w))
  | ExecuteAssertion tx _ => (Ok tx, w)
  | ExecuteStatementUnit tx u => (Ok (prepared_group (tx_source tx) (tx_target tx) (tx_units tx ++ [u])), w)
  | Commit tx l =>
      if bool_decide (active w = Some l)
      then (Ok tt, with_effect w (apply_units (live w) (tx_units tx)) (GroupEffect (tx_source tx) (tx_target tx) (tx_units tx)))
      else (Err (commit_failure DefinitelyAborted refused), w)
  | Rollback _ => (Ok tt, w)
  | ObserveBackfill l plan direction =>
      under w l
        (if existsb (fun e => match e with
                              | BackfillRun p d _ => bool_decide (p = plan) && bool_decide (d = direction)
                              | _ => false
                              end) (log w)
         then (Ok (Complete (completed_backfill plan direction)), with_effect w (live w) (BackfillVerified plan direction))
         else (Ok Incomplete, w))
  | ExecuteBackfill l plan direction =>
      if bool_decide (active w = Some l)
      then (Ok (completed_backfill plan direction),
            with_effect (with_effect w (live w) (BackfillRun plan direction 1)) (live w) (BackfillVerified plan direction))
      else (Err (commit_failure DefinitelyAborted refused), w)
  end.

Lemma planned_ok ids digests r : planned_bool ids digests r = true -> planned ids digests r.
Proof.
  unfold planned_bool. destruct (find_position _ _) as [i|] eqn:E; [|done]. intros Hd%bool_decide_eq_true.
  apply find_position_Some in E as (id & Hi & ->%bool_decide_eq_true). by exists i.
Qed.

Lemma append_writes {R : Set} w l allowed (r : R) after valid :
  (allowed = true -> valid) ->
  writes w l valid (next_entry (journal w) r) after (append w l allowed r after).1 (append w l allowed r after).2.
Proof.
  intros H. unfold append, under. case_bool_decide; [|by left]. destruct allowed; [|by left]. cbn. by split_and!; auto.
Qed.

Lemma none_free {A B} (o : option A) (o' : option B) : is_none o && is_none o' = true -> o = None /\ o' = None.
Proof. by destruct o, o'. Qed.

Lemma some_open {A} (o : option A) : negb (is_none o) = true -> o <> None.
Proof. by destruct o. Qed.

Lemma unrecorded (j : Journal) record :
  forallb (fun e => negb (bool_decide (ar_migration (entry_record e) = ar_migration record))) (ledger j) = true ->
  Forall (fun e => ar_migration (entry_record e) <> ar_migration record) (ledger j).
Proof.
  intros H. rewrite Forall_forall. intros e He Hid. rewrite forallb_forall in H. apply list_elem_of_In, H in He.
  by rewrite bool_decide_eq_true_2 in He.
Qed.

(** The environment meets the contract. *)
Lemma answer_contract o w : contract live_semantics apply_units w o (answer o w).1 (answer o w).2.
Proof.
  assert (forall s, reads_bool w s = true -> reads live_semantics w s) as Hr
    by (intros s H; by apply bool_decide_eq_true in H).
  destruct o; cbn [answer contract]; try (by apply append_writes; first [apply none_free|apply some_open]); unfold under.
  - done.
  - done.
  - destruct (active w) eqn:E; cbn; [by left|]. split_and!; try done; lia.
  - case_bool_decide; [done|by left].
  - case_bool_decide; done.
  - case_bool_decide; [|done]. destruct (opened (journal w)) as [p|] eqn:E; [|done].
    destruct (from_store_with_backfills _ _ _) eqn:Ef; done.
  - apply append_writes. intros [H|H]%orb_true_iff; [left|right]; by apply some_open.
  - destruct (opened (journal w)) as [p|] eqn:E; [|by right]. left. exists p. apply append_writes.
    intros [Hp Hf]%andb_true_iff. split_and!; [done|by apply planned_ok|by apply unrecorded].
  - case_bool_decide; done.
  - case_bool_decide; [|done]. destruct (rollback_opened (journal w)) as [p|] eqn:E; [|done].
    destruct (rollback_from_store _ _ _) eqn:Ef; done.
  - destruct (rollback_opened (journal w)) as [p|] eqn:E; [|by right].
    destruct (remove_last _ _) as [remaining|] eqn:Er; [|by right]. left. exists p, remaining. apply append_writes.
    intros Hp. split_and!; [done|by apply planned_ok|done].
  - case_bool_decide; [|done]. destruct (reads_bool w source0) eqn:E1; [by split; cbn; auto|].
    destruct (reads_bool w target) eqn:E2; by split; cbn; auto.
  - case_bool_decide; [|done]. destruct (reads_bool w source0) eqn:E1; by split; cbn; auto.
  - done.
  - done.
  - case_bool_decide; [done|by left].
  - done.
  - case_bool_decide; [|done]. by destruct (existsb _ (log w)).
  - case_bool_decide; [|by left]. split; [done|]. by exists 1%nat.
Qed.
End environment.

(** ** Example: a plan of two migrations

    The first migration copies an attribute and then adds a type; the second only
    advances formally. The live schema is its semantic fingerprint. *)

Definition example_unit : StatementUnit :=
  statement_unit 0 KDefine Additive true [] [] [typeql_statement VDefine b#"define attribute name;"].

Definition example_delta_step (s t : ManagedSchemaState) : MigrationStep :=
  SchemaDeltaMigration (delta_step
    (delta_contract (example_fingerprint "delta") b#"add_name" OperatorRequired [] Never None
       (managed_semantic_schema s) (managed_semantic_schema t))
    (schema_delta Patch_V1 example_operations [] s t) SchemaDeltaKind).

Definition example_lowered (s t : ManagedSchemaState) (us : list StatementUnit) : VerifiedMigrationApplyStep :=
  ApplySchemaDelta (example_delta_step s t)
    (lowering_plan (schema_delta Patch_V1 example_operations [] s t) TYPEDB_3_12_1_SCHEMA_LOWERING_PROFILE_ID
       (example_fingerprint "lowering") us).

Definition example_program : AttributeBackfillPlan :=
  backfill_plan SkipEqualRejectDifferent b#"label" V1 (example_fingerprint "one") (type_id Entity b#"person")
    (backfill_partition 100 b#"name") SourceValueCopiedExactly [] None b#"name" Identity.

Definition example_backfill : VerifiedMigrationApplyStep :=
  ApplyBackfill (BackfillMigration
    (backfill_contract b#"copy" (example_fingerprint "copy") OperatorRequired [] Never None
       (example_fingerprint "one") (example_fingerprint "one")) example_program).

(** The same semantics as the target, with another declared identity. *)
Definition example_formal : ManagedSchemaState :=
  managed_state (example_fingerprint "three") V1 (example_fingerprint "three") (example_fingerprint "two") []
    (scope example_target) (selection example_target).

Definition example_planned (name : string) (s t : ManagedSchemaState) (steps : list VerifiedMigrationApplyStep)
    (groups : list VerifiedMigrationTransactionGroup) (backfills : list nat) : VerifiedMigrationApplyManifest :=
  let m := Policy.example_manifest name Additive s t in
  apply_manifest
    match verified_manifest_digest (firstn 32) Policy.example_bytes m with Some (Ok d) => d | _ => [] end
    m steps groups backfills.

Definition example_first : VerifiedMigrationApplyManifest :=
  example_planned "0001" example_source example_target
    [example_backfill; example_lowered example_source example_target [example_unit]] [transaction_group 0 1 1] [0%nat].
Definition example_second : VerifiedMigrationApplyManifest :=
  example_planned "0002" example_target example_formal
    [example_lowered example_target example_formal []] [transaction_group 0 0 0] [].

Definition example_plan : VerifiedMigrationApplyPlan :=
  apply_plan [] [] [example_first; example_second] [] None (Some example_source) [] None (Some example_formal) true.

Definition example_live (v : Fingerprint.Fingerprint) (_ : ManagedScopeBinding) : option Fingerprint.Fingerprint := Some v.
Definition example_apply (v : Fingerprint.Fingerprint) (us : list StatementUnit) : Fingerprint.Fingerprint :=
  match us with [] => v | _ => example_fingerprint "two" end.
Definition example_evidence (_ : AttributeBackfillPlan) (direction : BackfillExecutionDirection)
    : BackfillCompletionEvidence :=
  completion_evidence (example_fingerprint "copy") direction (execution_counts 3 3 0 1).
Definition empty_journal : Journal := journal_state 0 [] [] None [] None [] [].
Definition example_world : World Fingerprint.Fingerprint :=
  world 0 None empty_journal (example_fingerprint "one") [].

Lemma nodup_check {A} `{EqDecision A} (l : list A) : bool_decide (NoDup l) = true -> NoDup l.
Proof. apply bool_decide_eq_true_1. Qed.

Lemma example_plan_ok : plan_ok example_live example_apply example_plan.
Proof.
  assert (forall m, m ∈ migrations example_plan -> m = example_first \/ m = example_second) as Hm
    by (intros m; unfold example_plan; cbn [migrations]; set_solver).
  assert (forall m g s t low, m ∈ migrations example_plan -> group_evidence m g = Ok (s, t, low) ->
    s = example_source /\ t = example_target /\ units low = [example_unit] \/
    s = example_target /\ t = example_formal /\ units low = []) as Hev.
  { intros m [o f d] s t low [->| ->]%Hm H; [left|right]; destruct d as [|[|d]]; vm_compute in H; try done;
      injection H as <- <- <-; done. }
  split.
  - apply (nodup_check (A := str)). vm_compute. reflexivity.
  - apply nodup_check. vm_compute. reflexivity.
  - intros m _. cbn. set_solver.
  - intros m [->| ->]%Hm; apply nodup_check; vm_compute; reflexivity.
  - intros m [->| ->]%Hm; apply nodup_check; vm_compute; reflexivity.
  - intros m i [->| ->]%Hm Hi; cbn in Hi; [assert (i = 0%nat) as -> by set_solver; done|set_solver].
  - intros m g s t low Hin H. by destruct (Hev _ _ _ _ _ Hin H) as [(-> & -> & _)|(-> & -> & _)].
  - intros m g s t low v Hin H. unfold example_live, example_apply.
    destruct (Hev _ _ _ _ _ Hin H) as [(-> & -> & ->)|(-> & -> & ->)]; [done|]. intros [= ->]. done.
Qed.

Definition example_executor : Prog (result Diagnostic MigrationExecutionOutcome) :=
  execute_verified_migration_apply_plan_controlled (firstn 32) Policy.example_bytes [] true b#"holder" example_plan
    (execution_control false (tightened 100 100)).

Definition example_answer : forall o, World Fingerprint.Fingerprint -> ans o * World Fingerprint.Fingerprint :=
  answer example_live example_apply example_evidence.

(** The first executor stops right after its commit, before recording it; its
    lease expires; the second executor repairs the checkpoint and completes. *)
Definition example_crashed := advance example_answer 24 example_executor example_world.
Definition example_expired := with_lease example_crashed.2 None (highest_fence example_crashed.2).
Definition example_resumed := advance example_answer 100 example_executor example_expired.
Definition example_backfills : list MigrationBackfillObservation :=
  match example_resumed.1 with Ret (Ok (Applied backfills)) => backfills | _ => [] end.

Lemma example_resumed_applied : example_resumed.1 = Ret (Ok (Applied example_backfills)).
Proof. vm_compute. reflexivity. Qed.

Lemma example_reachable :
  reachable example_live example_apply example_world [example_executor; example_executor]
    (example_resumed.2, [example_crashed.1; example_resumed.1]).
Proof.
  apply (advance_reachable _ _ example_answer 100 example_executor _ _ example_expired [example_crashed.1] []).
  { intros o w. apply answer_contract. }
  eapply reach_step; [|apply step_expire].
  apply (advance_reachable _ _ example_answer 24 example_executor _ _ example_world [] [example_executor]).
  { intros o w. apply answer_contract. }
  apply reach_start.
Qed.

Lemma example_idle : @idle _ _ _ _ (apply_view (firstn 32) Policy.example_bytes example_plan) example_world.
Proof. repeat split. constructor. Qed.

(** The crash left the group's commit unrecorded; the plan still runs once. *)
Lemma apply_exactly_once_w :
  length (log example_crashed.2) = 3%nat /\ map (fun e => ge_kind (entry_record e)) (events (journal example_crashed.2)) = [BeforeCommit] /\
  @executes _ _ _ (apply_view (firstn 32) Policy.example_bytes example_plan) (@ops _ _ _ (apply_view (firstn 32) Policy.example_bytes example_plan)) (log example_resumed.2) /\
  opened (journal example_resumed.2) = None.
Proof.
  split; [vm_compute; reflexivity|]. split; [vm_compute; reflexivity|].
  destruct (apply_exactly_once example_live example_apply (firstn 32) Policy.example_bytes example_plan example_plan_ok
    example_world [example_executor; example_executor] example_resumed.2 [example_crashed.1; example_resumed.1])
    as [_ H].
  - exact example_idle.
  - apply Forall_cons_2; [|apply Forall_cons_2; [|apply Forall_nil_2]];
      exists [], true, b#"holder", (execution_control false (tightened 100 100)); reflexivity.
  - exact example_reachable.
  - destruct (H example_backfills) as (He & Ho & _); [|exact (conj He Ho)].
    rewrite <- example_resumed_applied. apply list_elem_of_further, list_elem_of_here.
Defined.

Lemma example_recoverable : plan_recoverable (firstn 32) Policy.example_bytes example_plan.
Proof.
  split; intros m Hm; (apply elem_of_cons in Hm as [->|Hm]; [|apply list_elem_of_singleton in Hm as ->]).
  - vm_compute. reflexivity.
  - vm_compute. reflexivity.
  - cbn. repeat constructor.
  - cbn. repeat constructor.
Qed.

(** The plan that the crash left open is accepted by the next executor. *)
Lemma interrupted_plan_recovered_w :
  exists p open n, opened (journal example_crashed.2) = Some p /\
    from_store_with_backfills p (events (journal example_crashed.2)) (backfill_events (journal example_crashed.2)) = Ok open /\
    validate_open_plan example_plan (MigrationLease_new (plan_scope (entry_record p)) b#"next" (highest_fence example_crashed.2))
      open (ledger (journal example_crashed.2)) = Ok n.
Proof.
  destruct (opened (journal example_crashed.2)) as [p|] eqn:Ep; [|vm_compute in Ep; discriminate Ep].
  destruct (interrupted_plan_recovered example_live example_apply (firstn 32) Policy.example_bytes example_plan example_plan_ok
    example_world [example_executor] example_crashed.2 [example_crashed.1] p
    (MigrationLease_new (plan_scope (entry_record p)) b#"next" (highest_fence example_crashed.2)))
    as (open & n & Hs & Hv & _).
  - exact example_recoverable.
  - exact example_idle.
  - apply Forall_cons_2; [|apply Forall_nil_2].
    exists [], true, b#"holder", (execution_control false (tightened 100 100)). reflexivity.
  - apply (advance_reachable _ _ example_answer 24 example_executor _ _ example_world [] []).
    { intros o w. apply answer_contract. }
    apply reach_start.
  - exact Ep.
  - reflexivity.
  - apply Z.le_refl.
  - exists p, open, n. exact (conj eq_refl (conj Hs Hv)).
Defined.

(** ** Example: the same migrations rolled back

    The second migration is undone formally; the first by a reverse delta and then
    its reverse backfill. *)

Definition example_reverse_unit : StatementUnit :=
  statement_unit 0 KUndefine Destructive true [] [] [typeql_statement VUndefine b#"undefine attribute name;"].

Definition example_reversible_step (s t : ManagedSchemaState) : MigrationStep :=
  SchemaDeltaMigration (delta_step
    (delta_contract (example_fingerprint "delta") b#"add_name" OperatorRequired [] Never
       (Some (schema_delta Patch_V1 example_operations [] t s)) (managed_semantic_schema s) (managed_semantic_schema t))
    (schema_delta Patch_V1 example_operations [] s t) SchemaDeltaKind).

Definition example_rolled (name : string) (s t : ManagedSchemaState) (steps : list MigrationStep)
    : VerifiedSchemaMigrationManifest :=
  verified_manifest MigrationV1 (migration_id b#"app" (lit name)) [] None
    (lowering_binding (example_fingerprint "lowering") TYPEDB_3_12_1_SCHEMA_LOWERING_PROFILE_ID)
    (scope s) [] (example_fingerprint "plan") None [] true Destructive
    (semantic_binding (example_fingerprint "semantic") b#"typedb-3.12.1/v1")
    (Delta.Delta.declared example_facts) s steps (Delta.Delta.declared example_facts) t.

Definition example_reversed (m : VerifiedSchemaMigrationManifest) (t s : ManagedSchemaState) (us : list StatementUnit)
    (backfills : list VerifiedMigrationRollbackBackfillStep) (operations : list VerifiedMigrationRollbackOperation)
    : VerifiedMigrationRollbackManifest :=
  rollback_manifest
    match verified_manifest_digest (firstn 32) Policy.example_bytes m with Some (Ok d) => d | _ => [] end
    m Destructive
    [rollback_step b#"add_name"
       (lowering_plan (schema_delta Patch_V1 example_operations [] t s) TYPEDB_3_12_1_SCHEMA_LOWERING_PROFILE_ID
          (example_fingerprint "lowering") us)] backfills operations.

Definition example_undo_second : VerifiedMigrationRollbackManifest :=
  example_reversed (example_rolled "0002" example_target example_formal [example_reversible_step example_target example_formal])
    example_formal example_target [] [] [RollbackSchemaDelta 0].
Definition example_undo_first : VerifiedMigrationRollbackManifest :=
  example_reversed
    (example_rolled "0001" example_source example_target
       [ApplyPlan.step example_backfill; example_reversible_step example_source example_target])
    example_target example_source [example_reverse_unit] [rollback_backfill_step (ApplyPlan.step example_backfill)]
    [RollbackSchemaDelta 0; RollbackBackfill 0].

Definition example_rollback_plan : VerifiedMigrationRollbackPlan :=
  rollback_plan [example_undo_second; example_undo_first] [] example_formal (Delta.Delta.declared example_facts)
    example_source true.

Definition example_undo (v : Fingerprint.Fingerprint) (us : list StatementUnit) : Fingerprint.Fingerprint :=
  match us with [] => v | _ => example_fingerprint "one" end.

Definition example_applied (sequence : JournalSequence) (r : VerifiedMigrationRollbackManifest) : JournalEntry AppliedRecord :=
  let m := rolled_manifest r in
  journal_entry sequence (applied_record b#"app" 1 (manifest_id m) (rollback_digest r)
    (managed_declared_identity (manifest_source m)) (managed_declared_identity (manifest_target m))
    (managed_semantic_schema (manifest_source m)) (managed_semantic_schema (manifest_target m))).

Definition example_applied_world : World Fingerprint.Fingerprint :=
  world 1 None
    (journal_state 2 [example_applied 1 example_undo_first; example_applied 2 example_undo_second] [] None [] None [] [])
    (example_fingerprint "two") [].

Lemma example_rollback_ok :
  rollback_ok example_live example_undo (firstn 32) Policy.example_bytes example_rollback_plan.
Proof.
  assert (forall r, r ∈ rollbacks example_rollback_plan -> r = example_undo_second \/ r = example_undo_first) as Hr
    by (intros r; unfold example_rollback_plan; cbn [rollbacks]; set_solver).
  assert (forall r i reverse low, r ∈ rollbacks example_rollback_plan -> step_evidence r i = Some (reverse, low) ->
    delta_source reverse = example_formal /\ delta_target reverse = example_target /\ units low = [] \/
    delta_source reverse = example_target /\ delta_target reverse = example_source /\ units low = [example_reverse_unit]) as Hev.
  { intros r [|i] reverse low [->| ->]%Hr H; [left|right|..]; vm_compute in H; try done; injection H as <- <-; done. }
  split.
  - apply (nodup_check (A := str)). vm_compute. reflexivity.
  - apply nodup_check. vm_compute. reflexivity.
  - intros r [->| ->]%Hr; apply nodup_check; vm_compute; reflexivity.
  - intros r [->| ->]%Hr; done.
  - intros r [->| ->]%Hr; vm_compute; reflexivity.
  - intros r i rev low Hin H. by destruct (Hev _ _ _ _ Hin H) as [(-> & -> & _)|(-> & -> & _)].
  - intros r i rev low v Hin H. unfold example_live, example_undo.
    destruct (Hev _ _ _ _ Hin H) as [(-> & -> & ->)|(-> & -> & ->)]; [|done]. by intros [= ->].
Qed.

Definition example_rollback_executor : Prog (result Diagnostic MigrationRollbackOutcome) :=
  execute_verified_migration_rollback_plan_controlled (firstn 32) Policy.example_bytes [] true b#"holder"
    example_rollback_plan (execution_control false (tightened 100 100)).

Definition example_undo_answer : forall o, World Fingerprint.Fingerprint -> ans o * World Fingerprint.Fingerprint :=
  answer example_live example_undo example_evidence.

(** One executor stops right after committing the reverse delta, before recording
    it; its lease expires; the second executor repairs the checkpoint and completes. *)
Definition example_undo_crashed := advance example_undo_answer 22 example_rollback_executor example_applied_world.
Definition example_undo_expired := with_lease example_undo_crashed.2 None (highest_fence example_undo_crashed.2).
Definition example_undone := advance example_undo_answer 100 example_rollback_executor example_undo_expired.
Definition example_undo_backfills : list MigrationBackfillObservation :=
  match example_undone.1 with Ret (Ok (RolledBack backfills)) => backfills | _ => [] end.

Lemma example_undone_rolled_back : example_undone.1 = Ret (Ok (RolledBack example_undo_backfills)).
Proof. vm_compute. reflexivity. Qed.

Lemma example_undo_reachable :
  reachable example_live example_undo example_applied_world [example_rollback_executor; example_rollback_executor]
    (example_undone.2, [example_undo_crashed.1; example_undone.1]).
Proof.
  apply (advance_reachable _ _ example_undo_answer 100 example_rollback_executor _ _ example_undo_expired
    [example_undo_crashed.1] []).
  { intros o w. apply answer_contract. }
  eapply reach_step; [|apply step_expire].
  apply (advance_reachable _ _ example_undo_answer 22 example_rollback_executor _ _ example_applied_world []
    [example_rollback_executor]).
  { intros o w. apply answer_contract. }
  apply reach_start.
Qed.

Lemma example_applied_idle : @idle _ _ _ _ (rollback_view (firstn 32) Policy.example_bytes example_rollback_plan) example_applied_world.
Proof.
  repeat split; [apply nodup_check; vm_compute; reflexivity| |constructor|constructor].
  intros e r He Hr. unfold example_rollback_plan in Hr. cbn [rollbacks] in Hr.
  apply elem_of_cons in Hr as [->|Hr]; [|apply list_elem_of_singleton in Hr as ->];
    (apply elem_of_cons in He as [->|He]; [|apply list_elem_of_singleton in He as ->]); intros H; vm_compute in H; try done;
    vm_compute; reflexivity.
Qed.

(** The crash left the commit of the reverse delta unrecorded; the plan still runs once. *)
Lemma rollback_exactly_once_w :
  length (log example_undo_crashed.2) = 1%nat /\
  map (fun e => re_kind (entry_record e)) (step_events (journal example_undo_crashed.2)) =
    [FormalOnlyAdvanced; BeforeCommit] /\
  @executes _ _ _ (rollback_view (firstn 32) Policy.example_bytes example_rollback_plan) (@ops _ _ _ (rollback_view (firstn 32) Policy.example_bytes example_rollback_plan))
    (log example_undone.2) /\
  rollback_opened (journal example_undone.2) = None.
Proof.
  split; [vm_compute; reflexivity|]. split; [vm_compute; reflexivity|].
  destruct (rollback_exactly_once example_live example_undo (firstn 32) Policy.example_bytes example_rollback_plan
    example_rollback_ok example_applied_world [example_rollback_executor; example_rollback_executor]
    example_undone.2 [example_undo_crashed.1; example_undone.1]) as [_ H].
  - exact example_applied_idle.
  - apply Forall_cons_2; [|apply Forall_cons_2; [|apply Forall_nil_2]];
      exists [], true, b#"holder", (execution_control false (tightened 100 100)); reflexivity.
  - exact example_undo_reachable.
  - destruct (H example_undo_backfills) as (He & Ho & _); [|exact (conj He Ho)].
    rewrite <- example_undone_rolled_back. apply list_elem_of_further, list_elem_of_here.
Defined.

Lemma example_undo_recoverable : rollback_recoverable example_rollback_plan.
Proof.
  intros r Hr. unfold example_rollback_plan in Hr. cbn [rollbacks] in Hr.
  apply elem_of_cons in Hr as [->|Hr]; [|apply list_elem_of_singleton in Hr as ->]; reflexivity.
Qed.

(** The rollback that the crash left open is accepted by the next executor. *)
Lemma interrupted_rollback_recovered_w :
  exists p open n, rollback_opened (journal example_undo_crashed.2) = Some p /\
    rollback_from_store p (step_events (journal example_undo_crashed.2)) (backfill_events (journal example_undo_crashed.2)) = Ok open /\
    validate_open_rollback_plan (firstn 32) Policy.example_bytes example_rollback_plan
      (MigrationLease_new (rp_scope (entry_record p)) b#"next" (highest_fence example_undo_crashed.2))
      open (retired (journal example_undo_crashed.2)) = Some (Ok n).
Proof.
  destruct (rollback_opened (journal example_undo_crashed.2)) as [p|] eqn:Ep; [|vm_compute in Ep; discriminate Ep].
  destruct (interrupted_rollback_recovered example_live example_undo (firstn 32) Policy.example_bytes example_rollback_plan
    example_rollback_ok example_applied_world [example_rollback_executor] example_undo_crashed.2 [example_undo_crashed.1] p
    (MigrationLease_new (rp_scope (entry_record p)) b#"next" (highest_fence example_undo_crashed.2)))
    as (open & n & Hs & Hv & _).
  - exact example_undo_recoverable.
  - exact example_applied_idle.
  - apply Forall_cons_2; [|apply Forall_nil_2].
    exists [], true, b#"holder", (execution_control false (tightened 100 100)). reflexivity.
  - apply (advance_reachable _ _ example_undo_answer 22 example_rollback_executor _ _ example_applied_world [] []).
    { intros o w. apply answer_contract. }
    apply reach_start.
  - exact Ep.
  - reflexivity.
  - apply Z.le_refl.
  - exists p, open, n. exact (conj eq_refl (conj Hs Hv)).
Defined.

(** ** The other examples *)

(** An assertion on the source, with the fingerprint of its own encoding. *)
Definition example_assertion_bytes (_ : MigrationAssertionPlan) : result Diagnostic str := Ok b#"no person without a name".
Definition example_assertion : VerifiedMigrationApplyStep :=
  let p := assertion_plan [] NoRows V1 (example_fingerprint "one") [] [] [] [] in
  let f := match assertion_fingerprint (firstn 32) example_assertion_bytes p with
           | Ok f => f | Err _ => example_fingerprint "none" end in
  ApplyAssertion (AssertionMigration
    (assertion_contract b#"check" f OperatorRequired [] Never (example_fingerprint "one") (example_fingerprint "one"))
    p NoRows) (validated_plan p example_source).

Lemma partition_executes_every_step_w :
  let steps := [example_backfill; example_assertion; example_lowered example_source example_target [example_unit]] in
  partition_transaction_groups (firstn 32) example_assertion_bytes steps = Ok [transaction_group 0 1 2] /\
  concat (map (operation_steps steps) (schedule [transaction_group 0 1 2] (backfill_positions 0 steps))) = steps.
Proof.
  set (steps := [example_backfill; example_assertion; _]).
  assert (partition_transaction_groups (firstn 32) example_assertion_bytes steps = Ok [transaction_group 0 1 2]) as H
    by (vm_compute; reflexivity).
  split; [exact H|]. exact (proj1 (partition_executes_every_step (firstn 32) example_assertion_bytes steps _ H)).
Defined.

(** A migration is applied, rolled back and applied again. *)
Definition example_record : AppliedRecord :=
  applied_record b#"app" 1 (manifest_id (manifest example_first)) (manifest_digest example_first)
    (example_fingerprint "one") (example_fingerprint "two") (example_fingerprint "one") (example_fingerprint "two").
Definition example_log : list LedgerEvent :=
  [LApplied (journal_entry 1 example_record); LRetired (journal_entry 2 (rolled_back_record example_record));
   LApplied (journal_entry 3 example_record)].

Lemma active_ledger_is_replay_w :
  replay_ledger [] example_log = Ok [journal_entry 3 example_record] /\
  active_applied_entries (applied_of example_log) (retired_of example_log) = Ok [journal_entry 3 example_record].
Proof.
  assert (replay_ledger [] example_log = Ok [journal_entry 3 example_record]) as H by (vm_compute; reflexivity).
  split; [exact H|]. rewrite <- H. apply (active_ledger_is_replay example_log).
  unfold example_log. repeat constructor.
Defined.

End ReferenceEnvironment.
