(* ===== verification/Profile.v ===== *)
(** * Lowering profiles (schema-migration/src/profile.rs and the gate of lowering.rs)

    The closed registries of schema transitions: for every kind of fact or
    annotation and every transition, the provider mechanism, the safety class and
    the capabilities it needs. [None] stands for an [expect] or [unreachable!].
    The registry is compared with the classifier of schema/src/delta_safety.rs. *)

From S2P Require Import Prelude BTree Text Ident Value Fingerprint Schema SchemaDelta Dependencies Delta Safety Manifest.
Import Ident Value Fingerprint Schema SchemaDelta Dependencies Delta Safety Manifest.
#[local] Open Scope Z_scope.

Module Profile.

(** ** The vocabulary *)

Definition SCHEMA_TRANSITION_CAPABILITY_IDS : list str :=
  [b#"schema.transaction.atomic"; b#"schema.transition.define"; b#"schema.transition.undefine";
   b#"schema.transition.redefine.sub"; b#"schema.transition.redefine.value";
   b#"schema.transition.redefine.relates.specialization"; b#"schema.transition.redefine.annotation";
   b#"schema.transition.redefine.function"; b#"schema.transition.replace.sub.annotation"].

Definition transition_id (n : nat) : str := nth n SCHEMA_TRANSITION_CAPABILITY_IDS [].

Definition CAP_TRANSACTION_ATOMIC : str := transition_id 0.
Definition CAP_DEFINE : str := transition_id 1.
Definition CAP_UNDEFINE : str := transition_id 2.
Definition CAP_REDEFINE_SUB : str := transition_id 3.
Definition CAP_REDEFINE_VALUE : str := transition_id 4.
Definition CAP_REDEFINE_RELATES_SPECIALIZATION : str := transition_id 5.
Definition CAP_REDEFINE_ANNOTATION : str := transition_id 6.
Definition CAP_REDEFINE_FUNCTION : str := transition_id 7.
Definition CAP_REPLACE_SUB_ANNOTATION : str := transition_id 8.

(** Fixed identifiers collected into a set; [expect] on each. *)
Fixpoint capabilities (ids : list str) : option CapabilitySet :=
  match ids with
  | [] => Some []
  | id :: ids =>
      match CapabilityId_new id, capabilities ids with
      | Ok c, Some s => Some (sins c s)
      | _, _ => None
      end
  end.

Definition schema_transition_capability_vocabulary : option CapabilitySet :=
  capabilities SCHEMA_TRANSITION_CAPABILITY_IDS.

Inductive FactKind : Set :=
| KType | KSub | KValue | KOwns | KRelates | KRelatesSpecialization | KPlays | KFunction | KStruct.

Definition FactKind_ALL : list FactKind :=
  [KType; KSub; KValue; KOwns; KRelates; KRelatesSpecialization; KPlays; KFunction; KStruct].

Inductive FactTransition : Set := FDefine | FUndefine | FRedefine.

Definition FactTransition_ALL : list FactTransition := [FDefine; FUndefine; FRedefine].

Inductive AnnotationSubjectKind : Set :=
| SType | SSub | SValue | SOwns | SRelates | SPlays | SFunction | SStruct.

Definition AnnotationSubjectKind_ALL : list AnnotationSubjectKind :=
  [SType; SSub; SValue; SOwns; SRelates; SPlays; SFunction; SStruct].

Inductive AnnotationKind : Set :=
| AAbstract | AIndependent | AKey | AUnique | ACard | ARegex | ARange | AValues | ADoc | AMeta.

Definition AnnotationKind_ALL : list AnnotationKind :=
  [AAbstract; AIndependent; AKey; AUnique; ACard; ARegex; ARange; AValues; ADoc; AMeta].

Inductive AnnotationTransition : Set := AAdd | AChange | ARemove.

Definition AnnotationTransition_ALL : list AnnotationTransition := [AAdd; AChange; ARemove].

Inductive LoweringMechanism : Set :=
| LDefine | LUndefine | LRedefine | LAtomicUndefineDefine | LUnsupported.

#[global] Instance FactKind_eq_dec : EqDecision FactKind.
Proof. solve_decision. Defined.
#[global] Instance FactTransition_eq_dec : EqDecision FactTransition.
Proof. solve_decision. Defined.
#[global] Instance AnnotationSubjectKind_eq_dec : EqDecision AnnotationSubjectKind.
Proof. solve_decision. Defined.
#[global] Instance AnnotationKind_eq_dec : EqDecision AnnotationKind.
Proof. solve_decision. Defined.
#[global] Instance AnnotationTransition_eq_dec : EqDecision AnnotationTransition.
Proof. solve_decision. Defined.
#[global] Instance LoweringMechanism_eq_dec : EqDecision LoweringMechanism.
Proof. solve_decision. Defined.

(** ** Rules *)

Record TransitionRule : Set := rule {
  mechanism : LoweringMechanism;
  rule_safety : SafetyClass;
  rule_capabilities : CapabilitySet;
  keyed_meta : bool }.

Definition transition_rule (mechanism : LoweringMechanism) (safety : SafetyClass) (required : list str)
    (keyed_meta : bool) : option TransitionRule :=
  match capabilities required with
  | Some c => Some (rule mechanism safety c keyed_meta)
  | None => None
  end.

Definition unsupported (keyed_meta : bool) : option TransitionRule :=
  transition_rule LUnsupported Unsupported [] keyed_meta.

Definition define (safety : SafetyClass) (keyed_meta : bool) : option TransitionRule :=
  transition_rule LDefine safety [CAP_DEFINE] keyed_meta.

Definition undefine (safety : SafetyClass) (keyed_meta : bool) : option TransitionRule :=
  transition_rule LUndefine safety [CAP_UNDEFINE] keyed_meta.

Definition redefine (safety : SafetyClass) (capability : str) (keyed_meta : bool) : option TransitionRule :=
  transition_rule LRedefine safety [capability] keyed_meta.

Definition fact_transition_rule (fact : FactKind) (transition : FactTransition) : option TransitionRule :=
  match fact, transition with
  | KType, FDefine => define Additive false
  | KType, FUndefine => undefine Destructive false
  | KType, FRedefine => unsupported false
  | KSub, FDefine => define Conditional false
  | KSub, FUndefine => undefine Destructive false
  | KSub, FRedefine => redefine Conditional CAP_REDEFINE_SUB false
  | KValue, FDefine => define Additive false
  | KValue, FUndefine => undefine Destructive false
  | KValue, FRedefine => redefine Destructive CAP_REDEFINE_VALUE false
  | (KOwns | KRelates | KPlays), FDefine => define Additive false
  | (KOwns | KRelates | KPlays), FUndefine => undefine Destructive false
  | (KOwns | KRelates | KPlays), FRedefine => unsupported false
  | KRelatesSpecialization, FDefine => define Conditional false
  | KRelatesSpecialization, FUndefine => undefine Conditional false
  | KRelatesSpecialization, FRedefine => redefine Conditional CAP_REDEFINE_RELATES_SPECIALIZATION false
  | KFunction, FDefine => define Additive false
  | KFunction, FUndefine => undefine Destructive false
  | KFunction, FRedefine => redefine Opaque CAP_REDEFINE_FUNCTION false
  | KStruct, _ => unsupported false
  end.

Definition annotation_is_supported (subject : AnnotationSubjectKind) (annotation : AnnotationKind) : bool :=
  match subject with
  | SType => match annotation with AAbstract | AIndependent | ADoc | AMeta => true | _ => false end
  | SSub => match annotation with ADoc | AMeta => true | _ => false end
  | SValue => match annotation with ARegex | ARange | AValues | ADoc | AMeta => true | _ => false end
  | SOwns =>
      match annotation with
      | AKey | AUnique | ACard | ARegex | ARange | AValues | ADoc | AMeta => true
      | _ => false
      end
  | SRelates => match annotation with AAbstract | ACard | ADoc | AMeta => true | _ => false end
  | SPlays => match annotation with ACard | ADoc | AMeta => true | _ => false end
  | SFunction | SStruct => false
  end.

Definition annotation_transition_rule (subject : AnnotationSubjectKind) (annotation : AnnotationKind)
    (transition : AnnotationTransition) : option TransitionRule :=
  let keyed_meta := bool_decide (annotation = AMeta) in
  if negb (annotation_is_supported subject annotation) then unsupported keyed_meta
  else if bool_decide (subject = SSub) then
    match transition with
    | AAdd => define SchemaMetadata keyed_meta
    | AChange =>
        transition_rule LAtomicUndefineDefine SchemaMetadata
          [CAP_TRANSACTION_ATOMIC; CAP_UNDEFINE; CAP_DEFINE; CAP_REPLACE_SUB_ANNOTATION] keyed_meta
    | ARemove => undefine SchemaMetadata keyed_meta
    end
  else
    match annotation with
    | ADoc | AMeta =>
        match transition with
        | AAdd => define SchemaMetadata keyed_meta
        | AChange => redefine SchemaMetadata CAP_REDEFINE_ANNOTATION keyed_meta
        | ARemove => undefine SchemaMetadata keyed_meta
        end
    | AAbstract | AIndependent | AKey | AUnique =>
        match transition with
        | AChange => unsupported keyed_meta
        | AAdd =>
            match annotation with
            | AAbstract => define Conditional keyed_meta
            | AIndependent => define Additive keyed_meta
            | AKey | AUnique => define BackfillRequired keyed_meta
            | _ => None
            end
        | ARemove =>
            match annotation with
            | AIndependent => undefine Destructive keyed_meta
            | AAbstract | AKey | AUnique => undefine Additive keyed_meta
            | _ => None
            end
        end
    | ACard =>
        match transition with
        | AAdd => define Conditional keyed_meta
        | AChange => redefine Conditional CAP_REDEFINE_ANNOTATION keyed_meta
        | ARemove => undefine Conditional keyed_meta
        end
    | ARegex | ARange | AValues =>
        match transition with
        | AAdd => define Conditional keyed_meta
        | AChange => redefine Conditional CAP_REDEFINE_ANNOTATION keyed_meta
        | ARemove => undefine Additive keyed_meta
        end
    end.

(** ** Classification of one operation *)

Inductive InterfaceKind : Set := IOwns | IRelates | IPlays.

#[global] Instance InterfaceKind_eq_dec : EqDecision InterfaceKind.
Proof. solve_decision. Defined.

Record InterfaceDefault : Set := interface_default {
  interface : InterfaceKind; default_min : Z; default_max : option Z }.

Definition INTERFACE_DEFAULTS : list InterfaceDefault :=
  [interface_default IOwns 0 (Some 1); interface_default IRelates 0 (Some 1); interface_default IPlays 0 None].

Definition registry_cardinality (subject : AnnotationSubjectId) : option interval :=
  match match subject with
        | SubjectOwns _ => Some IOwns
        | SubjectRelates _ => Some IRelates
        | SubjectPlays _ => Some IPlays
        | _ => None
        end with
  | None => None
  | Some i =>
      (fun d => (default_min d, default_max d)) <$>
      List.find (fun d => bool_decide (interface d = i)) INTERFACE_DEFAULTS
  end.

Definition fact_kind (fact : SchemaFact) : option FactKind :=
  match fact with
  | FactType _ => Some KType
  | FactSub _ => Some KSub
  | FactValue _ _ => Some KValue
  | FactOwns _ _ => Some KOwns
  | FactRelates _ _ _ => Some KRelates
  | FactPlays _ => Some KPlays
  | FactAnnotation _ _ => None
  | FactFunction _ => Some KFunction
  | FactStruct _ => Some KStruct
  end.

Definition annotation_subject_kind (subject : AnnotationSubjectId) : AnnotationSubjectKind :=
  match subject with
  | SubjectType _ => SType
  | SubjectSub _ => SSub
  | SubjectValue _ => SValue
  | SubjectOwns _ => SOwns
  | SubjectRelates _ => SRelates
  | SubjectPlays _ => SPlays
  | SubjectFunction _ => SFunction
  end.

Definition registry_kind (kind : AnnotationKindId) : option AnnotationKind :=
  match kind with
  | Abstract => Some AAbstract
  | Independent => Some AIndependent
  | Key => Some AKey
  | Unique => Some AUnique
  | Distinct => None
  | Card => Some ACard
  | Regex => Some ARegex
  | Range => Some ARange
  | Values => Some AValues
  | Doc => Some ADoc
  | Meta _ => Some AMeta
  end.

Definition with_safety (r : TransitionRule) (safety : SafetyClass) : TransitionRule :=
  rule (mechanism r) safety (rule_capabilities r) (keyed_meta r).

Definition rule_for_annotation (id : AnnotationFactId) (value : SchemaAnnotationValue)
    (transition : AnnotationTransition) (expected : option SchemaAnnotationValue) : option TransitionRule :=
  match annotation_kind id with
  | Distinct => unsupported false
  | k =>
      match registry_kind k with
      | None => None
      | Some kind =>
          match annotation_transition_rule (annotation_subject_kind (subject id)) kind transition with
          | None => None
          | Some r =>
              match kind, annotation_cardinality value, registry_cardinality (subject id) with
              | ACard, Some target, Some default =>
                  match transition with
                  | AAdd => Some (with_safety r (cardinality_transition_safety default target))
                  | AChange =>
                      match expected ≫= annotation_cardinality with
                      | None => Some r
                      | Some source => Some (with_safety r (cardinality_transition_safety source target))
                      end
                  | ARemove => Some (with_safety r (cardinality_transition_safety target default))
                  end
              | _, _, _ => Some r
              end
          end
      end
  end.

Definition fact_rule_for (fact : SchemaFact) (transition : FactTransition) : option TransitionRule :=
  match fact_kind fact with
  | Some kind => fact_transition_rule kind transition
  | None => None
  end.

Definition rule_for_defined (fact : SchemaFact) (functions : BTreeSet FunctionId) : option TransitionRule :=
  match fact with
  | FactRelates _ (Some _) _ => fact_transition_rule KRelatesSpecialization FDefine
  | FactAnnotation id value =>
      if match subject id with SubjectFunction function => smem function functions | _ => false end
         && is_metadata (annotation_kind id)
      then define SchemaMetadata false
      else rule_for_annotation id value AAdd None
  | _ => fact_rule_for fact FDefine
  end.

Definition rule_for_undefined (fact : SchemaFact) : option TransitionRule :=
  match fact with
  | FactAnnotation id value => rule_for_annotation id value ARemove None
  | _ => fact_rule_for fact FUndefine
  end.

Definition rule_for_redefinition (expected replacement : SchemaFact)
    : option (result SafetyClassificationError TransitionRule) :=
  match expected, replacement with
  | FactRelates _ old_specializes _, FactRelates _ new_specializes _ =>
      match old_specializes, new_specializes with
      | None, Some _ => Ok <$> fact_transition_rule KRelatesSpecialization FDefine
      | Some _, None => Ok <$> fact_transition_rule KRelatesSpecialization FUndefine
      | Some _, Some _ => Ok <$> fact_transition_rule KRelatesSpecialization FRedefine
      | None, None => Some (Err UnchangedRelatesSpecialization)
      end
  | FactAnnotation _ old, FactAnnotation id new => Ok <$> rule_for_annotation id new AChange (Some old)
  | lhs, rhs =>
      if discriminant lhs =? discriminant rhs then Ok <$> fact_rule_for rhs FRedefine
      else Some (Err RedefinitionCategoryChanged)
  end.

Record OperationTransitionClassification : Set := classification {
  class_safety : SafetyClass; atomic : bool; class_capabilities : CapabilitySet }.

(** One rule of the final loop. *)
Definition absorb (c : OperationTransitionClassification) (r : TransitionRule) : OperationTransitionClassification :=
  classification
    (if safety_rank (class_safety c) <? safety_rank (rule_safety r) then rule_safety r else class_safety c)
    (atomic c || bool_decide (mechanism r = LAtomicUndefineDefine))
    (fold_left (fun s cap => sins cap s) (rule_capabilities r) (class_capabilities c)).

Definition classify_rules (rules : list TransitionRule) : OperationTransitionClassification :=
  fold_left absorb rules (classification FormalOnly false []).

Definition classify_operation_transition (op : SchemaOperation)
    : option (result SafetyClassificationError OperationTransitionClassification) :=
  match op with
  | Define facts =>
      (fun rules => Ok (classify_rules rules)) <$>
      mapM (fun fact => rule_for_defined fact (defined_functions facts)) facts
  | Redefine expected replacement =>
      match rule_for_redefinition expected replacement with
      | None => None
      | Some (Err e) => Some (Err e)
      | Some (Ok r) => Some (Ok (classify_rules [r]))
      end
  | Undefine fact => (fun r => Ok (classify_rules [r])) <$> rule_for_undefined fact
  end.

(** ** The gate of a lowered operation (lowering.rs) *)

Inductive GateCode : Set :=
| CODE_INVALID_TRANSITION | CODE_REQUIRES_ASSERTION | CODE_REQUIRES_BACKFILL | CODE_DESTRUCTIVE | CODE_OPAQUE
| CODE_UNSUPPORTED.

Definition gate_safety (safety : SafetyClass) (verifier_resolved destructive_approved : bool)
    : result GateCode () :=
  if verifier_resolved && negb match safety with Conditional | BackfillRequired => true | _ => false end
  then Err CODE_INVALID_TRANSITION
  else match safety with
       | FormalOnly | SchemaMetadata | Additive => Ok tt
       | Conditional => if verifier_resolved then Ok tt else Err CODE_REQUIRES_ASSERTION
       | BackfillRequired => if verifier_resolved then Ok tt else Err CODE_REQUIRES_BACKFILL
       | Destructive => if destructive_approved then Ok tt else Err CODE_DESTRUCTIVE
       | Opaque => Err CODE_OPAQUE
       | Unsupported => Err CODE_UNSUPPORTED
       end.

(** ** The registry *)

Inductive SafetyScenario : Set :=
| ExplicitDefaultEquivalent | DocMetaTransition | AddOptionalInterface | AddRequiredCardinality | AddKeyOrUnique
| WidenCardinality | NarrowCardinality | RemoveCardinalityToEqualDefault | RemoveCardinalityToNarrowerDefault
| RemoveCardinalityToWiderDefault | AddOrTightenValueConstraint | RemoveValueConstraint | AddAbstract
| RemoveAbstract | AddIndependent | RemoveIndependent | ChangeSub | ChangeRelatesSpecialization | ChangeValueType
| RemoveFact | RedefineFunction | UnsupportedProviderTransition.

Definition SafetyScenario_ALL : list SafetyScenario :=
  [ExplicitDefaultEquivalent; DocMetaTransition; AddOptionalInterface; AddRequiredCardinality; AddKeyOrUnique;
   WidenCardinality; NarrowCardinality; RemoveCardinalityToEqualDefault; RemoveCardinalityToNarrowerDefault;
   RemoveCardinalityToWiderDefault; AddOrTightenValueConstraint; RemoveValueConstraint; AddAbstract;
   RemoveAbstract; AddIndependent; RemoveIndependent; ChangeSub; ChangeRelatesSpecialization; ChangeValueType;
   RemoveFact; RedefineFunction; UnsupportedProviderTransition].

#[global] Instance SafetyScenario_eq_dec : EqDecision SafetyScenario.
Proof. solve_decision. Defined.

Inductive EvidenceRequirement : Set :=
| NoEvidence | ExistingDataSatisfiesTarget | Backfill | ExplicitConversion | OperatorApproval | ProviderSupport.

Record SafetyScenarioRule : Set := scenario_rule {
  scenario : SafetyScenario; scenario_safety : SafetyClass; scenario_evidence : EvidenceRequirement }.

Definition safety_rule (scenario : SafetyScenario) : SafetyScenarioRule :=
  let (safety, evidence) :=
    match scenario with
    | ExplicitDefaultEquivalent | RemoveCardinalityToEqualDefault => (FormalOnly, NoEvidence)
    | DocMetaTransition => (SchemaMetadata, NoEvidence)
    | AddOptionalInterface | WidenCardinality | RemoveCardinalityToWiderDefault | RemoveValueConstraint
    | RemoveAbstract | AddIndependent => (Additive, NoEvidence)
    | AddRequiredCardinality | AddKeyOrUnique | NarrowCardinality | RemoveCardinalityToNarrowerDefault =>
        (BackfillRequired, Backfill)
    | AddOrTightenValueConstraint | AddAbstract | ChangeSub | ChangeRelatesSpecialization =>
        (Conditional, ExistingDataSatisfiesTarget)
    | RemoveIndependent | RemoveFact => (Destructive, OperatorApproval)
    | ChangeValueType => (Destructive, ExplicitConversion)
    | RedefineFunction => (Opaque, OperatorApproval)
    | UnsupportedProviderTransition => (Unsupported, ProviderSupport)
    end in
  scenario_rule scenario safety evidence.

Inductive EvidenceFlag : Set :=
| RedefineQueriesAreSingleton | RejectedRedefinePreservesSchema | SchemaTransactionsAreAtomic
| RelatesSpecializationPreservesValidData | SubAnnotationDirectRedefineRejected
| SubAnnotationAtomicReplacementSupported | MetaRemovalIsKeyed | FunctionRedefineLeavesStoredMetadataStale
| FunctionAtomicReplacementUpdatesMetadata | StructTransitionsUnsupported
| IndependentRemovalDeletesOwnerlessAttributes | GuardedChangesRejectInvalidData
| OwnsCardRemovalRestoresZeroToOneDefault | RelatesCardRemovalRestoresZeroToOneDefault
| PlaysCardRemovalRestoresZeroToUnboundedDefault.

Definition EvidenceFlag_ALL : list EvidenceFlag :=
  [RedefineQueriesAreSingleton; RejectedRedefinePreservesSchema; SchemaTransactionsAreAtomic;
   RelatesSpecializationPreservesValidData; SubAnnotationDirectRedefineRejected;
   SubAnnotationAtomicReplacementSupported; MetaRemovalIsKeyed; FunctionRedefineLeavesStoredMetadataStale;
   FunctionAtomicReplacementUpdatesMetadata; StructTransitionsUnsupported;
   IndependentRemovalDeletesOwnerlessAttributes; GuardedChangesRejectInvalidData;
   OwnsCardRemovalRestoresZeroToOneDefault; RelatesCardRemovalRestoresZeroToOneDefault;
   PlaysCardRemovalRestoresZeroToUnboundedDefault].

Record FactTransitionRule : Set := fact_row {
  row_fact : FactKind; row_transition : FactTransition; fact_row_rule : TransitionRule }.

Record AnnotationTransitionRule : Set := annotation_row {
  row_subject : AnnotationSubjectKind; row_annotation : AnnotationKind; row_change : AnnotationTransition;
  annotation_row_rule : TransitionRule }.

Record SchemaLoweringProfile : Set := lowering_registry {
  registry_id : SchemaLoweringProfileId;
  fingerprint_domain : str;
  canonicalization : str;
  semantic_profile : SemanticProfileId;
  provider : str;
  provider_version : str;
  transactional_schema_queries : bool;
  registry_capabilities : CapabilitySet;
  interface_defaults : list InterfaceDefault;
  fact_rules : list FactTransitionRule;
  annotation_rules : list AnnotationTransitionRule;
  safety_rules : list SafetyScenarioRule;
  evidence : list EvidenceFlag }.

Definition PROVIDER : str := b#"typedb".

Definition provider_version_of (p : MigrationProfile) : str :=
  match p with Typedb3_12_1 => b#"3.12.1" | Typedb3_13_6 => b#"3.13.6" end.

Definition SCHEMA_LOWERING_PROFILE_FINGERPRINT_DOMAIN : str := b#"typebridge.schema.lowering-profile".
Definition SCHEMA_LOWERING_PROFILE_CANONICALIZATION : str := b#"typebridge.schema-lowering-profile/v1".

Definition fact_rows : option (list FactTransitionRule) :=
  mapM (fun k : FactKind * FactTransition => fact_row k.1 k.2 <$> fact_transition_rule k.1 k.2)
    (list_prod FactKind_ALL FactTransition_ALL).

Definition annotation_rows : option (list AnnotationTransitionRule) :=
  mapM (fun k : AnnotationSubjectKind * AnnotationKind * AnnotationTransition =>
      annotation_row k.1.1 k.1.2 k.2 <$> annotation_transition_rule k.1.1 k.1.2 k.2)
    (list_prod (list_prod AnnotationSubjectKind_ALL AnnotationKind_ALL) AnnotationTransition_ALL).

Definition build_profile (p : MigrationProfile) : option SchemaLoweringProfile :=
  match fact_rows, annotation_rows, lowering_profile_id p, schema_transition_capability_vocabulary,
        FingerprintDomain_new SCHEMA_LOWERING_PROFILE_FINGERPRINT_DOMAIN,
        CanonicalizationVersion_new SCHEMA_LOWERING_PROFILE_CANONICALIZATION with
  | Some facts, Some annotations, Some id, Some required, Ok domain, Ok canonicalization =>
      Some (lowering_registry id domain canonicalization (semantic_profile_id p) PROVIDER (provider_version_of p)
        true required INTERFACE_DEFAULTS facts annotations (map safety_rule SafetyScenario_ALL) EvidenceFlag_ALL)
  | _, _, _, _, _, _ => None
  end.

Definition fact_rule (registry : SchemaLoweringProfile) (fact : FactKind) (transition : FactTransition)
    : option TransitionRule :=
  fact_row_rule <$>
  List.find (fun row => bool_decide (row_fact row = fact) && bool_decide (row_transition row = transition))
    (fact_rules registry).

Definition annotation_rule (registry : SchemaLoweringProfile) (subject : AnnotationSubjectKind)
    (annotation : AnnotationKind) (transition : AnnotationTransition) : option TransitionRule :=
  annotation_row_rule <$>
  List.find (fun row => bool_decide (row_subject row = subject) && bool_decide (row_annotation row = annotation)
                        && bool_decide (row_change row = transition))
    (annotation_rules registry).

Definition scenario_rule_of (registry : SchemaLoweringProfile) (s : SafetyScenario) : option SafetyScenarioRule :=
  List.find (fun row => bool_decide (scenario row = s)) (safety_rules registry).

(** ** The registry and the report classify alike *)

Definition of_fact (t : Safety.FactTransition) : FactTransition :=
  match t with TDefine => FDefine | TUndefine => FUndefine | TRedefine => FRedefine end.

Definition of_annotation (t : Safety.AnnotationTransition) : AnnotationTransition :=
  match t with TAdd => AAdd | TChange => AChange | TRemove => ARemove end.

Lemma fact_agrees f t : rule_safety <$> fact_rule_for f (of_fact t) = classify_fact f t.
Proof. by destruct f, t. Qed.

Lemma annotation_agrees id v t e :
  rule_safety <$> rule_for_annotation id v (of_annotation t) e = classify_annotation id v t e.
Proof.
  destruct id as [s k]. unfold rule_for_annotation, classify_annotation. cbn [annotation_kind subject].
  destruct k; try (by destruct s, t).
  destruct (annotation_cardinality v) as [target|] eqn:Ev; [|by destruct s, t].
  destruct s; try (by destruct t); destruct t; try done; by destruct (e ≫= annotation_cardinality).
Qed.

Lemma defined_agrees f fns : rule_safety <$> rule_for_defined f fns = classify_defined_fact f fns.
Proof.
  destruct f as [| | | |? [] ?| |id v| |]; try done. cbn [rule_for_defined classify_defined_fact].
  destruct (_ && is_metadata _); [done|]. apply (annotation_agrees id v TAdd None).
Qed.

(** The operations the two disagree on: the removal of a specialized role, and
    the change of a role's collection mode. *)
Definition specialized_removal (op : SchemaOperation) : bool :=
  match op with Undefine (FactRelates _ (Some _) _) => true | _ => false end.

Definition role_mode_change (op : SchemaOperation) : bool :=
  match op with
  | Redefine (FactRelates _ _ old) (FactRelates _ _ new) => negb (bool_decide (old = new))
  | _ => false
  end.

Lemma safety_max_alt a b : safety_max a b = if safety_rank a <? safety_rank b then b else a.
Proof. by destruct a, b. Qed.

Lemma absorbed_safety rules c :
  class_safety (fold_left absorb rules c) = fold_left safety_max (map rule_safety rules) (class_safety c).
Proof.
  revert c. induction rules as [|r rules IH]; intros c; [done|]. cbn [fold_left map]. rewrite IH.
  f_equal. by rewrite safety_max_alt.
Qed.

Lemma define_agrees fns safety facts :
  exists rules, mapM (fun fact => rule_for_defined fact fns) facts = Some rules /\
  classify_defined fns safety facts = Some (fold_left safety_max (map rule_safety rules) safety).
Proof.
  revert safety. induction facts as [|f facts IH]; intros safety; [by exists []|].
  destruct (classify_defined_fact_total f fns) as [class Hc]. pose proof (defined_agrees f fns) as Hd.
  rewrite Hc in Hd. destruct (rule_for_defined f fns) as [r|] eqn:Er; [|done]. injection Hd as Hr.
  destruct (IH (safety_max safety class)) as (rules & Hm & Hcl). exists (r :: rules). simpl.
  rewrite Er, Hm, Hc. simpl. by rewrite Hcl, Hr.
Qed.

Lemma single_safety r : class_safety (classify_rules [r]) = rule_safety r.
Proof. unfold classify_rules. rewrite absorbed_safety. simpl. rewrite safety_max_alt. by destruct (rule_safety r). Qed.

(** C25. The lowering registry gives every constructible operation the class the
    safety report gives it, except the two kinds of operation on roles named
    above: classification never panics and never fails on the others. *)
Theorem classifiers_agree op :
  valid_operation op -> specialized_removal op = false -> role_mode_change op = false ->
  exists c, classify_operation_transition op = Some (Ok c) /\
            classify_operation_safety op = Some (Ok (class_safety c)).
Proof.
  destruct op as [facts|e r|f]; intros Hv Hs Hm; cbn [classify_operation_transition classify_operation_safety].
  - destruct (define_agrees (defined_functions facts) FormalOnly facts) as (rules & -> & ->).
    eexists. split; [done|]. unfold classify_rules. by rewrite absorbed_safety.
  - destruct (classify_redefinition_total e r (proj1 Hv) (proj2 Hv)) as [class Hc].
    assert (exists rule, rule_for_redefinition e r = Some (Ok rule) /\ rule_safety rule = class) as (rule & -> & <-).
    2:{ eexists. split; [done|]. by rewrite single_safety. }
    destruct e as [| | | |ie se me| |ie ve| |], r as [| | | |ir sr mr| |ir vr| |]; try done;
      try (injection Hc as <-; eexists; split; [reflexivity|reflexivity]).
    + cbn [role_mode_change] in Hm. apply negb_false_iff, bool_decide_eq_true in Hm as ->.
      cbn [classify_redefinition rule_for_redefinition] in *. rewrite bool_decide_eq_true_2 in Hc by done.
      destruct se as [a|], sr as [b|]; simpl in Hc; repeat case_bool_decide; try done;
        injection Hc as <-; eexists; split; reflexivity.
    + cbn [classify_redefinition rule_for_redefinition] in *.
      pose proof (annotation_agrees ir vr TChange (Some ve)) as Ha. cbn [of_annotation] in Ha.
      destruct (classify_annotation ir vr TChange (Some ve)) as [c|]; [|done]. injection Hc as <-.
      destruct (rule_for_annotation ir vr AChange (Some ve)) as [rule|]; [|done]. injection Ha as <-. by eexists.
  - destruct (classify_undefined_fact_total f) as [class Hc]. rewrite Hc.
    assert (rule_safety <$> rule_for_undefined f = classify_undefined_fact f) as Hu.
    { destruct f as [| | | |? [] ?| |id v| |]; try done. apply (annotation_agrees id v TRemove None). }
    rewrite Hc in Hu. destruct (rule_for_undefined f) as [rule|]; [|done]. injection Hu as <-.
    eexists. split; [done|]. by rewrite single_safety.
Qed.

(** Removing a specialized role is conditional in the safety report, so the
    manifest verifier counts it as resolvable, while the registry classifies it
    destructive: the lowering gate then refuses the resolved operation whatever
    was approved. Redefining the specialization away is conditional in both. *)
Theorem specialized_removal_disagrees id role mode :
  let removal := Undefine (FactRelates id (Some role) mode) in
  classify_operation_safety removal = Some (Ok Conditional) /\
  verified_forward_safety Conditional true = Ok Conditional /\
  (exists c, classify_operation_transition removal = Some (Ok c) /\ class_safety c = Destructive /\
     forall approved, gate_safety (class_safety c) true approved = Err CODE_INVALID_TRANSITION) /\
  (exists c, classify_operation_transition (Redefine (FactRelates id (Some role) mode) (FactRelates id None mode))
      = Some (Ok c) /\ class_safety c = Conditional /\
     forall approved, gate_safety (class_safety c) true approved = Ok tt).
Proof.
  split; [done|]. split; [done|]. split; (eexists; split; [reflexivity|]; split; [reflexivity|]; by intros []).
Qed.

(** ** The registry is closed *)

#[global] Instance TransitionRule_eq_dec : EqDecision TransitionRule.
Proof. solve_decision. Defined.

(** A looked-up rule is the compiled one and is well formed. *)
Definition rule_ok (required : CapabilitySet) (found compiled : option TransitionRule) : bool :=
  match found, compiled with
  | Some r, Some r' =>
      bool_decide (r = r') && forallb (fun c => smem c required) (rule_capabilities r) &&
      Bool.eqb (bool_decide (mechanism r = LUnsupported)) (bool_decide (rule_safety r = Unsupported)) &&
      Bool.eqb (bool_decide (mechanism r = LUnsupported)) (bool_decide (rule_capabilities r = []))
  | _, _ => false
  end.

Lemma rule_ok_spec required found compiled :
  rule_ok required found compiled = true ->
  exists r, found = Some r /\ compiled = Some r /\ (forall c, c ∈ rule_capabilities r -> c ∈ required) /\
  (mechanism r = LUnsupported <-> rule_safety r = Unsupported) /\
  (mechanism r = LUnsupported <-> rule_capabilities r = []).
Proof.
  destruct found as [r|], compiled as [r'|]; try done. simpl. rewrite !andb_true_iff, !eqb_true_iff.
  intros [[[<-%bool_decide_eq_true Hc] H1] H2]. exists r. split_and!; [done..| | |].
  - intros c Hin. rewrite forallb_forall in Hc. by apply smem_true, Hc, list_elem_of_In.
  - repeat case_bool_decide; try done; tauto.
  - clear H1. repeat case_bool_decide; try done; tauto.
Qed.

Definition registry_ok (registry : SchemaLoweringProfile) : bool :=
  forallb (fun k => forallb (fun t =>
      rule_ok (registry_capabilities registry) (fact_rule registry k t) (fact_transition_rule k t))
    FactTransition_ALL) FactKind_ALL &&
  forallb (fun s => forallb (fun k => forallb (fun t =>
      rule_ok (registry_capabilities registry) (annotation_rule registry s k t) (annotation_transition_rule s k t))
    AnnotationTransition_ALL) AnnotationKind_ALL) AnnotationSubjectKind_ALL.

Lemma registries_ok : forallb (fun p => match build_profile p with Some r => registry_ok r | None => false end)
  MigrationProfile_ALL = true.
Proof. vm_compute. reflexivity. Qed.

Lemma forallb_in {A} (f : A -> bool) l x : forallb f l = true -> In x l -> f x = true.
Proof. rewrite forallb_forall. auto. Qed.

Lemma scenarios_listed p registry s :
  build_profile p = Some registry -> scenario_rule_of registry s = Some (safety_rule s).
Proof.
  unfold build_profile. repeat case_match; try done. intros [= <-]. unfold scenario_rule_of. cbn [safety_rules].
  by destruct s.
Qed.

(** Both profiles can be built; their registries answer every pair of a fact
    kind and a transition, and every triple of an annotation, with exactly the
    compiled rule. A rule is unsupported exactly when its class is, and exactly when
    it asks for no capability; every capability a rule asks for is one the profile
    requires. Every safety scenario has its rule. *)
Theorem registry_closed p :
  exists registry, build_profile p = Some registry /\
  (forall k t, exists r, fact_rule registry k t = Some r /\ fact_transition_rule k t = Some r /\
     (forall c, c ∈ rule_capabilities r -> c ∈ registry_capabilities registry) /\
     (mechanism r = LUnsupported <-> rule_safety r = Unsupported) /\
     (mechanism r = LUnsupported <-> rule_capabilities r = [])) /\
  (forall s k t, exists r, annotation_rule registry s k t = Some r /\ annotation_transition_rule s k t = Some r /\
     (forall c, c ∈ rule_capabilities r -> c ∈ registry_capabilities registry) /\
     (mechanism r = LUnsupported <-> rule_safety r = Unsupported) /\
     (mechanism r = LUnsupported <-> rule_capabilities r = [])) /\
  (forall s, scenario_rule_of registry s = Some (safety_rule s)).
Proof.
  assert (In p MigrationProfile_ALL) as Hp by (destruct p; simpl; auto).
  pose proof (forallb_in _ _ _ registries_ok Hp) as H. simpl in H.
  destruct (build_profile p) as [registry|] eqn:Eb; [|done].
  exists registry. split; [done|]. apply andb_true_iff in H as [Hf Ha]. split; [|split].
  - intros k t. apply rule_ok_spec.
    apply (forallb_in _ _ t (forallb_in _ _ k Hf ltac:(destruct k; simpl; tauto))). destruct t; simpl; tauto.
  - intros s k t. apply rule_ok_spec.
    apply (forallb_in _ _ t (forallb_in _ _ k (forallb_in _ _ s Ha
      ltac:(destruct s; simpl; tauto)) ltac:(destruct k; simpl; tauto))). destruct t; simpl; tauto.
  - intros s. by eapply scenarios_listed.
Qed.

Lemma classifiers_agree_w :
  exists c, classify_operation_transition (Undefine (FactType example_person)) = Some (Ok c) /\
  classify_operation_safety (Undefine (FactType example_person)) = Some (Ok (class_safety c)).
Proof.
  apply (classifiers_agree (Undefine (FactType example_person))); [exact I|reflexivity|reflexivity].
Defined.

End Profile.
