(* ===== verification/Versions.v ===== *)
(** * Versions and the version gate (core/src/version.rs, orm/src/schema/annotations.rs)

    Server versions, the support window, protocol bands and feature checks, and
    the scanner that finds [@doc] and [@meta] annotations in TypeQL. A negotiated
    band is one the server accepts, band 9 never meets a server below 3.12, and
    the scanner finds an annotation exactly outside strings and comments. *)

From S2P Require Import Prelude BTree Text.
#[local] Open Scope Z_scope.

Module Versions.

(** ** Versions *)

Record Version : Set := version { major : Z; minor : Z; patch : Z }.

#[global] Instance Version_eq_dec : EqDecision Version.
Proof. solve_decision. Defined.

Inductive VersionError : Set :=
| Unsupported (component : str) (found : Version)
| BandMismatch (driver server : Version) (driver_band server_band : Z)
| EmbeddedUnavailable (server : Version)
| Probe (message : str)
| Parse (message : str)
| FeatureUnsupported (feature : str) (server required : Version) (remediation : str).

Definition Version_to_string (v : Version) : str :=
  dshow (major v) ++ b#"." ++ dshow (minor v) ++ b#"." ++ dshow (patch v).

Section parse.
(** [format!("{s:?}")] *)
Context (quoted : str -> str).

Definition Version_from_str (s : str) : result VersionError Version :=
  let invalid := Parse (b#"invalid version string: " ++ quoted s) in
  let part t := match parse_uint u32_max t with Some z => Ok z | None => Err invalid end in
  match split_on "."%char s with
  | [maj; min] =>
      let? major := part maj in let? minor := part min in
      Ok (version major minor 0)
  | [maj; min; pat] =>
      let? major := part maj in let? minor := part min in let? patch := part pat in
      Ok (version major minor patch)
  | _ => Err invalid
  end.

End parse.

(** ** The support window *)

(** The derived order of pairs, and of versions. *)
Definition line_ltb (a b : Z * Z) : bool := (a.1 <? b.1) || ((a.1 =? b.1) && (a.2 <? b.2)).

Definition line (v : Version) : Z * Z := (major v, minor v).

Definition version_ltb (a b : Version) : bool :=
  line_ltb (line a) (line b) || (bool_decide (line a = line b) && (patch a <? patch b)).

Definition MIN_SUPPORTED : Version := version 3 11 0.
Definition MAX_SUPPORTED_LINE : Z * Z := (3, 14).

Definition window_contains (v : Version) : bool := negb (version_ltb v MIN_SUPPORTED).

Definition newer_than_measured (v : Version) : bool := line_ltb MAX_SUPPORTED_LINE (line v).

(** [(v.major, v.minor).min(MAX_SUPPORTED_LINE)] *)
Definition measured_line (v : Version) : Z * Z :=
  if line_ltb MAX_SUPPORTED_LINE (line v) then MAX_SUPPORTED_LINE else line v.

Definition semantic_profile_id (v : Version) : option str :=
  if negb (window_contains v) then None
  else match measured_line v with
       | (3, 11) => Some b#"typedb-3.11.5/v1"
       | (3, 12) => Some b#"typedb-3.12.1/v1"
       | (3, 13) | (3, 14) => Some b#"typedb-3.13.6/v1"
       | _ => None
       end.

(** ** Protocol bands *)

Definition band (v : Version) : option Z :=
  match measured_line v with
  | (3, 11) => Some 8
  | (3, 12) | (3, 13) | (3, 14) => Some 9
  | _ => None
  end.

Definition server_accepted_bands (v : Version) : list Z :=
  match measured_line v with
  | (3, 11) => [8]
  | (3, 12) | (3, 14) => [9; 8]
  | (3, 13) => [9]
  | _ => []
  end.

Definition contains (bands : list Z) (b : Z) : bool := existsb (Z.eqb b) bands.

Definition negotiate_server_band (server : Version) (embedded_bands : list Z) : option Z :=
  List.find (contains embedded_bands) (server_accepted_bands server).

Definition check_supported (driver server : Version) : result VersionError () :=
  if negb (window_contains driver) then Err (Unsupported b#"driver" driver)
  else if negb (window_contains server) then Err (Unsupported b#"server" server)
  else
    let mismatch := Err (BandMismatch driver server (default 0 (band driver)) (default 0 (band server))) in
    match band driver with
    | Some db => if contains (server_accepted_bands server) db then Ok tt else mismatch
    | None => mismatch
    end.

Definition check_server_supported (server : Version) (embedded_bands : list Z) : result VersionError () :=
  if negb (window_contains server) then Err (Unsupported b#"server" server)
  else match server_accepted_bands server with
       | [] => Err (Unsupported b#"server" server)
       | accepted =>
           if existsb (contains embedded_bands) accepted then Ok tt else Err (EmbeddedUnavailable server)
       end.

(** ** Features *)

Inductive Feature : Set := SchemaAnnotations | GivenStage.

Definition Feature_name (feature : Feature) : str :=
  match feature with
  | SchemaAnnotations => b#"schema annotations (@doc/@meta)"
  | GivenStage => b#"given-stage parameterized queries"
  end.

Definition minimum_version (feature : Feature) : Version :=
  match feature with
  | SchemaAnnotations => version 3 12 0
  | GivenStage => version 3 12 0
  end.

Definition remediation (feature : Feature) : str :=
  match feature with
  | SchemaAnnotations => b#"remove the annotations from the schema"
  | GivenStage => b#"use per-row queries instead"
  end.

Definition check_feature_supported (feature : Feature) (server : Version) : result VersionError () :=
  let required := minimum_version feature in
  if line_ltb (line server) (line required)
  then Err (FeatureUnsupported (Feature_name feature) server required (remediation feature))
  else Ok tt.

(** ** Annotations in TypeQL *)

Definition is_newline (c : ascii) : bool := oeqb c "010"%char || oeqb c "013"%char.

(** [u8::is_ascii_whitespace] *)
Definition is_ascii_whitespace (c : ascii) : bool :=
  oeqb c " "%char || oeqb c "009"%char || oeqb c "010"%char || oeqb c "012"%char || oeqb c "013"%char.

Definition is_name_byte (c : ascii) : bool := is_ascii_alphanumeric c || oeqb c "_"%char.

(** The bytes before the first one outside a class, and the rest. *)
Fixpoint span (p : ascii -> bool) (s : str) : str * str :=
  match s with
  | [] => ([], [])
  | c :: s' => if p c then let '(taken, rest) := span p s' in (c :: taken, rest) else ([], s)
  end.

(** The text after the end of a block comment, if it ends. *)
Fixpoint after_block_comment (s : str) : option str :=
  match s with
  | [] => None
  | c :: s' => match strip_prefix b#"*/" s with Some rest => Some rest | None => after_block_comment s' end
  end.

Fixpoint skip_trivia_fuel (fuel : nat) (s : str) : str :=
  match fuel with
  | O => s
  | S fuel =>
      let s := (span is_ascii_whitespace s).2 in
      if starts_with b#"#" s || starts_with b#"//" s
      then skip_trivia_fuel fuel (span (fun c => negb (is_newline c)) s).2
      else match strip_prefix b#"/*" s with
           | Some body => match after_block_comment body with
                          | Some rest => skip_trivia_fuel fuel rest
                          | None => []
                          end
           | None => s
           end
  end.

(** The text from the first byte that is neither white space nor in a comment.
    Every round but the last consumes a byte. *)
Definition skip_typeql_trivia (s : str) : str := skip_trivia_fuel (S (length s)) s.

Inductive Mode : Set := InCode | InLineComment | InBlockComment | InQuote (delimiter : ascii).

Fixpoint uses_fuel (fuel : nat) (mode : Mode) (bytes : str) : bool :=
  match fuel, bytes with
  | O, _ | _, [] => false
  | S fuel, c :: rest =>
      match mode with
      | InLineComment => uses_fuel fuel (if is_newline c then InCode else InLineComment) rest
      | InBlockComment =>
          match strip_prefix b#"*/" bytes with
          | Some rest => uses_fuel fuel InCode rest
          | None => uses_fuel fuel InBlockComment rest
          end
      | InQuote delimiter =>
          if oeqb c "092"%char then uses_fuel fuel mode (tail rest)
          else if oeqb c delimiter then uses_fuel fuel InCode rest
          else uses_fuel fuel mode rest
      | InCode =>
          if oeqb c "034"%char || oeqb c "'"%char then uses_fuel fuel (InQuote c) rest
          else if oeqb c "#"%char then uses_fuel fuel InLineComment rest
          else if starts_with b#"//" bytes then uses_fuel fuel InLineComment (tail rest)
          else if starts_with b#"/*" bytes then uses_fuel fuel InBlockComment (tail rest)
          else if oeqb c "@"%char
          then
            let '(name, after) := span is_name_byte rest in
            if negb (str_eqb name b#"doc") && negb (str_eqb name b#"meta") then uses_fuel fuel InCode after
            else if starts_with b#"(" (skip_typeql_trivia after) then true
            else uses_fuel fuel InCode rest
          else uses_fuel fuel InCode rest
      end
  end.

(** Every round consumes a byte. *)
Definition typeql_uses_schema_annotations (typeql : str) : bool := uses_fuel (length typeql) InCode typeql.

Definition check_schema_annotation_support (typeql : str) (server_version : option Version) : result VersionError () :=
  match server_version with
  | Some server => if typeql_uses_schema_annotations typeql then check_feature_supported SchemaAnnotations server else Ok tt
  | None => Ok tt
  end.

Definition VersionError_to_string (e : VersionError) : str :=
  match e with
  | Unsupported component found =>
      component ++ b#" version " ++ Version_to_string found ++ b#" is outside the admitted range (3.11.0 or newer); install a TypeDB "
      ++ component ++ b#" in the range 3.11.0 or newer"
  | BandMismatch driver server _ _ =>
      b#"driver " ++ Version_to_string driver ++ b#" is not protocol-compatible with server " ++ Version_to_string server
      ++ b#"; install a driver line supported by your interpreter and accepted by the server (server line "
      ++ dshow (major server) ++ b#"." ++ dshow (minor server)
      ++ b#"), or use a compatible server/interpreter combination"
  | EmbeddedUnavailable server =>
      b#"server " ++ Version_to_string server
      ++ b#" requires an embedded driver this build of type-bridge does not include; rebuild with default features (or use a type-bridge release built for this server line)"
  | Probe message => b#"version probe failed: " ++ message
  | Parse message => b#"version parse error: " ++ message
  | FeatureUnsupported feature server required remediation =>
      if str_eqb feature b#"generated-package provider compatibility"
      then b#"generated package requires TypeDB " ++ remediation ++ b#"; detected server " ++ Version_to_string server
      else
        let required_line := dshow (major required) ++ b#"." ++ dshow (minor required) in
        feature ++ b#" require TypeDB " ++ required_line ++ b#" or newer; detected server " ++ Version_to_string server
        ++ b#" — upgrade the server to the " ++ required_line ++ b#" line or " ++ remediation
  end.

(** ** Lexical structure *)

Definition line_comment (s : str) : Prop := exists opener body nl,
  (opener = b#"#" \/ opener = b#"//") /\ Forall (fun c => is_newline c = false) body /\ is_newline nl = true /\
  s = opener ++ body ++ [nl].

(** [*/] first ends a comment after its body. *)
Definition unclosed (body : str) : Prop := forall a b, body ++ b#"*" <> a ++ b#"*/" ++ b.

Definition block_comment (s : str) : Prop := exists body, unclosed body /\ s = b#"/*" ++ body ++ b#"*/".

Definition comment (s : str) : Prop := line_comment s \/ block_comment s.

Inductive quoted_body (d : ascii) : str -> Prop :=
| body_nil : quoted_body d []
| body_escape c s : quoted_body d s -> quoted_body d ("092"%char :: c :: s)
| body_byte c s : c <> "092"%char -> c <> d -> quoted_body d s -> quoted_body d (c :: s).

Definition is_quote (c : ascii) : bool := oeqb c "034"%char || oeqb c "'"%char.

Definition quoted_string (s : str) : Prop := exists d body, is_quote d = true /\ quoted_body d body /\ s = d :: body ++ [d].

(** White space and comments. *)
Inductive trivia : str -> Prop :=
| trivia_nil : trivia []
| trivia_space c s : is_ascii_whitespace c = true -> trivia s -> trivia (c :: s)
| trivia_comment t s : comment t -> trivia s -> trivia (t ++ s).

Definition opens (s : str) : bool := starts_with b#"//" s || starts_with b#"/*" s.

(** Text that ends outside every string and comment. *)
Inductive lexed : str -> Prop :=
| lexed_nil : lexed []
| lexed_byte c s : is_quote c = false -> c <> "#"%char -> opens (c :: s) = false -> lexed s -> lexed (c :: s)
| lexed_string t s : quoted_string t -> lexed s -> lexed (t ++ s)
| lexed_comment t s : comment t -> lexed s -> lexed (t ++ s).

Definition annotation (s : str) : Prop := exists name gap post,
  (name = b#"doc" \/ name = b#"meta") /\ trivia gap /\ s = b#"@" ++ name ++ gap ++ b#"(" ++ post.

(** An annotation with arguments, outside strings and comments. *)
Definition annotated (s : str) : Prop := exists pre rest, lexed pre /\ annotation rest /\ s = pre ++ rest.

(** ** Bytes *)

Ltac each_byte c := destruct c as [[] [] [] [] [] [] [] []]; vm_compute; try done; try tauto.

Lemma newline_space c : is_newline c = true -> is_ascii_whitespace c = true.
Proof. by each_byte c. Qed.

Lemma space_class c : is_ascii_whitespace c = true -> c <> "("%char /\ c <> "#"%char /\ c <> "/"%char /\ is_name_byte c = false.
Proof. by each_byte c. Qed.

Lemma name_class c :
  is_name_byte c = true -> is_quote c = false /\ c <> "#"%char /\ c <> "/"%char /\ c <> "@"%char.
Proof. by each_byte c. Qed.

Lemma opens_slash c s : c <> "/"%char -> opens (c :: s) = false.
Proof.
  intros H. unfold opens, starts_with. cbn [lit list_ascii_of_string strip_prefix].
  by destruct (oeqb_spec "/"%char c) as [<-|].
Qed.

Lemma opens_before c s t : opens (c :: s) = false -> opens (c :: s ++ b#"@" ++ t) = false.
Proof.
  unfold opens, starts_with. cbn [lit list_ascii_of_string strip_prefix].
  destruct (oeqb_spec "/"%char c) as [|]; [|done]. destruct s as [|d s]; cbn; [done|]. by destruct (oeqb _ d), (oeqb _ d).
Qed.

Lemma starts_with_app p t : starts_with p (p ++ t) = true.
Proof. unfold starts_with. by rewrite (proj2 (strip_prefix_Some p (p ++ t) t)). Qed.

Lemma starts_with_true p s : starts_with p s = true -> exists t, s = p ++ t.
Proof. unfold starts_with. destruct (strip_prefix p s) as [t|] eqn:E; [|done]. exists t. by apply strip_prefix_Some. Qed.

Lemma span_spec p s taken rest : span p s = (taken, rest) ->
  s = taken ++ rest /\ Forall (fun c => p c = true) taken /\ match rest with [] => True | c :: _ => p c = false end.
Proof.
  revert taken rest. induction s as [|c s IH]; intros taken rest; cbn; [by intros [= <- <-]|].
  destruct (p c) eqn:E; [|by intros [= <- <-]].
  destruct (span p s) as [t r]. intros [= <- <-]. destruct (IH t r eq_refl) as (-> & Ht & Hr). by repeat constructor.
Qed.

Lemma span_stop p taken rest : Forall (fun c => p c = true) taken ->
  match rest with [] => True | c :: _ => p c = false end -> span p (taken ++ rest) = (taken, rest).
Proof.
  intros Ht Hr. induction Ht as [|c taken Hc _ IH]; cbn; [|by rewrite Hc, IH].
  destruct rest as [|c rest]; [done|]. cbn. by rewrite Hr.
Qed.

Lemma unclosed_nil : unclosed [].
Proof. intros [|e a] b; cbn; intros H; simplify_eq/=. by destruct a. Qed.

Lemma unclosed_cons c body rest :
  unclosed (c :: body) <-> unclosed body /\ strip_prefix b#"*/" (c :: body ++ b#"*/" ++ rest) = None.
Proof.
  split.
  - intros Hb. split; [intros a b H; apply (Hb (c :: a) b); cbn in H |- *; by rewrite H|].
    destruct (strip_prefix b#"*/" _) as [r|] eqn:E; [|done]. apply strip_prefix_Some in E. exfalso.
    destruct body as [|e body]; cbn in E; simplify_eq/=. by apply (Hb [] (body ++ b#"*")).
  - intros [Hb E] [|e a] b H; [|injection H as -> H; by apply (Hb a b)].
    assert (Hp : exists r, c :: body ++ b#"*/" ++ rest = b#"*/" ++ r).
    { destruct body as [|e body]; cbn in H |- *; simplify_eq/=; by eexists. }
    destruct Hp as [r Hp%strip_prefix_Some]. by rewrite Hp in E.
Qed.

Lemma after_block_comment_Some s rest :
  after_block_comment s = Some rest <-> exists body, unclosed body /\ s = body ++ b#"*/" ++ rest.
Proof.
  split.
  - revert rest. induction s as [|c s IH]; [done|]. intros rest. cbn [after_block_comment].
    destruct (strip_prefix b#"*/" (c :: s)) as [r|] eqn:E.
    + intros [= ->]. apply strip_prefix_Some in E. exists []. split; [apply unclosed_nil|done].
    + intros (body & Hb & ->)%IH. exists (c :: body). split; [|done]. by apply (unclosed_cons c body rest).
  - intros (body & Hb & ->). induction body as [|c body IH]; [done|].
    apply (unclosed_cons c body rest) in Hb as [Hb E]. cbn [app after_block_comment]. by rewrite E, IH.
Qed.

(** ** Trivia *)

Lemma trivia_app s t : trivia s -> trivia t -> trivia (s ++ t).
Proof.
  intros Hs Ht. induction Hs; cbn; [done| by constructor |]. rewrite <- app_assoc. by constructor.
Qed.

Lemma trivia_spaces s : Forall (fun c => is_ascii_whitespace c = true) s -> trivia s.
Proof. by induction 1; constructor. Qed.

(** A comment starts with a byte that is neither white space nor an opening parenthesis. *)
Lemma comment_head t : comment t -> exists c t', t = c :: t' /\ (c = "#"%char \/ c = "/"%char).
Proof. intros [(o & body & nl & [->| ->] & _ & _ & ->)|(body & _ & ->)]; cbn; eauto. Qed.

Lemma trivia_space_inv c s : is_ascii_whitespace c = true -> trivia (c :: s) -> trivia s.
Proof.
  intros Hc H. apply space_class in Hc as (_ & H1 & H2 & _). inversion H as [|c' s' _ Hs|t s' Ht Hs]; subst; [done|].
  apply comment_head in Ht as (e & t' & -> & He). cbn in *. simplify_eq. by destruct He.
Qed.

(** A line comment before a newline. *)
Lemma line_comment_span s cm rest c :
  starts_with b#"#" s || starts_with b#"//" s = true -> span (fun c => negb (is_newline c)) s = (cm, c :: rest) ->
  line_comment (cm ++ [c]) /\ s = (cm ++ [c]) ++ rest.
Proof.
  intros Hs (-> & Hcm & Hc)%span_spec. split; [|by rewrite <- app_assoc].
  apply negb_false_iff in Hc.
  assert (Hf : Forall (fun c => is_newline c = false) cm) by (eapply Forall_impl; [exact Hcm|]; cbn; by intros ? ?%negb_true_iff).
  apply orb_true_iff in Hs as [[t Ht]%starts_with_true|[t Ht]%starts_with_true].
  - destruct cm as [|a cm]; cbn in Ht; simplify_eq/=. exists b#"#", cm, c. inversion Hf; subst. by repeat split; [left|..].
  - destruct cm as [|a [|a' cm]]; cbn in Ht; simplify_eq/=.
    exists b#"//", cm, c. inversion Hf as [|?? _ Hf']; subst. inversion Hf'; subst. by repeat split; [right|..].
Qed.

Lemma skip_trivia_sound fuel : forall s post, skip_trivia_fuel fuel s = b#"(" ++ post ->
  exists gap, trivia gap /\ s = gap ++ b#"(" ++ post.
Proof.
  induction fuel as [|fuel IH]; intros s post; [cbn; intros ->; exists []; by split; [constructor|]|].
  cbn [skip_trivia_fuel]. destruct (span is_ascii_whitespace s) as [ws s'] eqn:Ews. cbn [snd].
  apply span_spec in Ews as (-> & Hws%trivia_spaces & _).
  assert (Hadd : forall t gap, comment t -> trivia gap -> s' = t ++ gap ++ b#"(" ++ post ->
    exists gap', trivia gap' /\ ws ++ s' = gap' ++ b#"(" ++ post).
  { intros t gap Ht Hg ->. exists (ws ++ t ++ gap). rewrite <- !app_assoc. split; [|done].
    apply trivia_app; [done|]. by constructor. }
  destruct (starts_with b#"#" s' || starts_with b#"//" s') eqn:E.
  - destruct (span _ s') as [cm rest] eqn:Ecm. cbn [snd]. intros (gap & Hg & Hrest)%IH.
    destruct rest as [|c rest]; [by destruct gap|].
    pose proof (span_spec _ _ _ _ Ecm) as (_ & _ & Hc%negb_false_iff).
    apply line_comment_span in Ecm as [Hcm Hs']; [|done].
    destruct gap as [|c' gap]; cbn in Hrest; [by simplify_eq|]. injection Hrest as <- ->.
    apply (Hadd (cm ++ [c]) gap); [by left| |done].
    eapply trivia_space_inv; [|exact Hg]. by apply newline_space.
  - destruct (strip_prefix b#"/*" s') as [body|] eqn:Eb.
    + apply strip_prefix_Some in Eb. destruct (after_block_comment body) as [rest|] eqn:Er; [|done].
      intros (gap & Hg & ->)%IH. apply after_block_comment_Some in Er as (b' & Hb & ->).
      apply (Hadd (b#"/*" ++ b' ++ b#"*/") gap); [right; by exists b'|done|]. subst s'. by rewrite <- !app_assoc.
    + intros ->. by exists ws.
Qed.

(** Past the white space of a gap is a comment or its end. *)
Lemma span_trivia gap post : trivia gap -> exists gap',
  (span is_ascii_whitespace (gap ++ b#"(" ++ post)).2 = gap' ++ b#"(" ++ post /\ (length gap' <= length gap)%nat /\
  (gap' = [] \/ exists t s, comment t /\ trivia s /\ gap' = t ++ s).
Proof.
  induction 1 as [|c s Hc _ IH|t s Ht Hs _].
  - exists []. by repeat split; [|left].
  - destruct IH as (gap' & H & Hl & Hg). exists gap'. cbn. rewrite Hc. destruct (span _ _). cbn in *. repeat split; [done|lia|done].
  - exists (t ++ s). split; [|split; [done|right; by exists t, s]].
    destruct (comment_head t Ht) as (c & t' & -> & Hc). cbn.
    destruct (is_ascii_whitespace c) eqn:E; [|done]. apply space_class in E as (_ & H1 & H2 & _). by destruct Hc.
Qed.

Lemma line_comment_skipped t : line_comment t -> exists cm nl, t = cm ++ [nl] /\ is_newline nl = true /\
  forall s, starts_with b#"#" (t ++ s) || starts_with b#"//" (t ++ s) = true /\
    span (fun c => negb (is_newline c)) (t ++ s) = (cm, nl :: s).
Proof.
  intros (opener & body & nl & Ho & Hb & Hnl & ->). exists (opener ++ body), nl.
  split; [by rewrite <- app_assoc|]. split; [done|]. intros s. rewrite <- !app_assoc. cbn [app]. split.
  - apply orb_true_iff. destruct Ho as [->| ->]; [left|right]; apply starts_with_app.
  - rewrite (app_assoc opener). apply span_stop; [|by rewrite Hnl]. apply Forall_app. split; [by destruct Ho as [->| ->]; repeat constructor|].
    eapply Forall_impl; [exact Hb|]. by intros c ->.
Qed.

Lemma block_not_line body : starts_with b#"#" (b#"/*" ++ body) || starts_with b#"//" (b#"/*" ++ body) = false.
Proof. done. Qed.

Lemma skip_trivia_complete fuel : forall gap post, trivia gap -> (length gap < fuel)%nat ->
  skip_trivia_fuel fuel (gap ++ b#"(" ++ post) = b#"(" ++ post.
Proof.
  induction fuel as [|fuel IH]; intros gap post Hg Hf; [lia|]. cbn [skip_trivia_fuel].
  destruct (span_trivia gap post Hg) as (gap' & -> & Hl & [->|(t & s & [Ht|(body & Hb & ->)] & Hs & ->)]); [done| |].
  - destruct (line_comment_skipped t Ht) as (cm & nl & -> & Hnl & Hskip).
    rewrite <- app_assoc. destruct (Hskip (s ++ b#"(" ++ post)) as [-> ->]. cbn [snd].
    apply (IH (nl :: s)); [constructor; [by apply newline_space|done]|]. rewrite !length_app in Hl.
    destruct cm as [|a cm]; cbn in *; [|lia]. exfalso. destruct (Hskip []) as [H _]. clear -H Hnl. by revert H Hnl; each_byte nl.
  - rewrite <- !app_assoc, block_not_line, (proj2 (strip_prefix_Some b#"/*" _ _) eq_refl).
    rewrite (proj2 (after_block_comment_Some _ (s ++ b#"(" ++ post))); [|by exists body].
    apply IH; [done|]. rewrite !length_app in Hl. cbn in *. lia.
Qed.

Lemma skip_typeql_trivia_iff s :
  starts_with b#"(" (skip_typeql_trivia s) = true <-> exists gap post, trivia gap /\ s = gap ++ b#"(" ++ post.
Proof.
  unfold skip_typeql_trivia. split.
  - intros [post (gap & Hg & Hs)%skip_trivia_sound]%starts_with_true. by exists gap, post.
  - intros (gap & post & Hg & ->). rewrite skip_trivia_complete; [apply starts_with_app|done|]. rewrite length_app. lia.
Qed.

(** ** The scanner *)

(** Text that takes the scanner from a mode back to code. *)
Definition leaves (mode : Mode) (pre : str) : Prop :=
  match mode with
  | InCode => lexed pre
  | InLineComment => exists body nl p,
      Forall (fun c => is_newline c = false) body /\ is_newline nl = true /\ lexed p /\ pre = body ++ nl :: p
  | InBlockComment => exists body p, unclosed body /\ lexed p /\ pre = body ++ b#"*/" ++ p
  | InQuote d => exists body p, quoted_body d body /\ lexed p /\ pre = body ++ d :: p
  end.

Definition annotated_in (mode : Mode) (s : str) : Prop :=
  exists pre rest, leaves mode pre /\ annotation rest /\ s = pre ++ rest.

Lemma annotation_at t : annotation t -> exists t', t = b#"@" ++ t'.
Proof. intros (name & gap & post & _ & _ & ->). by eexists. Qed.

(** A byte of code that starts nothing. *)
Lemma annotated_byte c s : is_quote c = false -> c <> "#"%char -> opens (c :: s) = false ->
  annotated_in InCode s -> annotated_in InCode (c :: s).
Proof.
  intros Hq Hc Ho (pre & rest & Hpre & Hrest & ->). exists (c :: pre), rest. split; [|done].
  constructor; [done..| |done]. destruct (annotation_at rest Hrest) as [t ->]. clear -Ho.
  revert Ho. unfold opens, starts_with. cbn [lit list_ascii_of_string strip_prefix app].
  destruct (oeqb "/"%char c); [|done]. destruct pre as [|e pre]; [done|]. cbn. by destruct (oeqb _ e), (oeqb _ e).
Qed.

Lemma annotated_names name s : Forall (fun c => is_name_byte c = true) name ->
  annotated_in InCode s -> annotated_in InCode (name ++ s).
Proof.
  induction 1 as [|c name (H1 & H2 & H3 & _)%name_class _ IH]; [done|]. intros Hs.
  apply annotated_byte; [done..| |by apply IH]. by apply opens_slash.
Qed.

(** What the scanner does in code, once the byte starts no annotation. *)
Lemma annotated_string d s : is_quote d = true -> annotated_in (InQuote d) s -> annotated_in InCode (d :: s).
Proof.
  intros Hd (pre & rest & (body & p & Hb & Hp & ->) & Hrest & ->). exists ((d :: body ++ [d]) ++ p), rest.
  split; [apply lexed_string; [by exists d, body|done]|]. split; [done|]. cbn. by rewrite <- !app_assoc.
Qed.

Lemma annotated_line opener s : opener = b#"#" \/ opener = b#"//" ->
  annotated_in InLineComment s -> annotated_in InCode (opener ++ s).
Proof.
  intros Ho (pre & rest & (body & nl & p & Hb & Hnl & Hp & ->) & Hrest & ->). exists ((opener ++ body ++ [nl]) ++ p), rest.
  split; [apply lexed_comment; [left; by exists opener, body, nl|done]|]. split; [done|]. by rewrite <- !app_assoc.
Qed.

Lemma annotated_block s : annotated_in InBlockComment s -> annotated_in InCode (b#"/*" ++ s).
Proof.
  intros (pre & rest & (body & p & Hb & Hp & ->) & Hrest & ->). exists ((b#"/*" ++ body ++ b#"*/") ++ p), rest.
  split; [apply lexed_comment; [right; by exists body|done]|]. split; [done|]. by rewrite <- !app_assoc.
Qed.

Lemma scan_line_step c s :
  annotated_in (if is_newline c then InCode else InLineComment) s -> annotated_in InLineComment (c :: s).
Proof.
  destruct (is_newline c) eqn:E; intros (pre & rest & Hpre & Hrest & ->).
  - exists (c :: pre), rest. split; [by exists [], c, pre|done].
  - destruct Hpre as (body & nl & p & Hb & Hnl & Hp & ->). exists (c :: body ++ nl :: p), rest.
    split; [exists (c :: body), nl, p; by repeat split; [constructor|..]|done].
Qed.

Lemma scan_block_step c s :
  strip_prefix b#"*/" (c :: s) = None -> annotated_in InBlockComment s -> annotated_in InBlockComment (c :: s).
Proof.
  intros E (pre & rest & (body & p & Hb & Hp & ->) & Hrest & ->). exists (c :: body ++ b#"*/" ++ p), rest.
  split; [exists (c :: body), p; split; [|done]|done]. apply (unclosed_cons c body (p ++ rest)). split; [done|].
  by rewrite <- !app_assoc in E.
Qed.

Lemma scan_quote_step d body s :
  quoted_body d body -> annotated_in (InQuote d) s -> annotated_in (InQuote d) (body ++ s).
Proof.
  intros Hbody (pre & rest & (body' & p & Hb & Hp & ->) & Hrest & ->). exists ((body ++ body') ++ d :: p), rest.
  split; [exists (body ++ body'), p; split; [|done]|by rewrite <- !app_assoc].
  induction Hbody; cbn; [done|by constructor..].
Qed.

Lemma uses_sound fuel : forall mode s, uses_fuel fuel mode s = true -> annotated_in mode s.
Proof.
  induction fuel as [|fuel IH]; intros mode [|c rest]; try done. cbn [uses_fuel]. destruct mode as [| | |d].
  - destruct (oeqb c "034"%char || oeqb c "'"%char) eqn:Eq; [intros H%IH; by apply annotated_string|].
    destruct (oeqb_spec c "#"%char) as [->|Hh]; [intros H%IH; apply (annotated_line b#"#"); [by left|done]|].
    destruct (starts_with b#"//" (c :: rest)) eqn:E1.
    { apply starts_with_true in E1 as [t Et]. injection Et as -> ->. intros H%IH. apply (annotated_line b#"//"); [by right|done]. }
    destruct (starts_with b#"/*" (c :: rest)) eqn:E2.
    { apply starts_with_true in E2 as [t Et]. injection Et as -> ->. intros H%IH. by apply annotated_block. }
    assert (Hbyte : annotated_in InCode rest -> annotated_in InCode (c :: rest)).
    { apply annotated_byte; [done..|]. unfold opens. by rewrite E1, E2. }
    destruct (oeqb_spec c "@"%char) as [->|]; [|by intros H%IH; apply Hbyte].
    destruct (span is_name_byte rest) as [name after] eqn:En. apply span_spec in En as (-> & Hname & _).
    destruct (negb (str_eqb name b#"doc") && negb (str_eqb name b#"meta")) eqn:E; [intros H%IH; by apply Hbyte, annotated_names|].
    destruct (starts_with b#"(" (skip_typeql_trivia after)) eqn:Ep; [|by intros H%IH; apply Hbyte]. intros _.
    apply skip_typeql_trivia_iff in Ep as (gap & post & Hg & ->). exists [], (b#"@" ++ name ++ gap ++ b#"(" ++ post).
    split; [constructor|]. split; [|done]. exists name, gap, post. split; [|done].
    unfold str_eqb in E. destruct (oeqb_spec name b#"doc"), (oeqb_spec name b#"meta"); by auto.
  - intros H%IH. by apply scan_line_step.
  - destruct (strip_prefix b#"*/" (c :: rest)) as [t|] eqn:E; [|by intros H%IH; apply scan_block_step].
    intros (pre & tail & Hpre & Htail & ->)%IH. apply strip_prefix_Some in E as ->. exists (b#"*/" ++ pre), tail.
    split; [exists [], pre; split; [apply unclosed_nil|done]|done].
  - destruct (oeqb_spec c "092"%char) as [->|Hc].
    + destruct rest as [|e rest]; [by destruct fuel|]. cbn [tail]. intros H%IH. apply (scan_quote_step d ["092"%char; e]); [|done].
      by repeat constructor.
    + destruct (oeqb_spec c d) as [->|Hd].
      * intros (pre & tail & Hpre & Htail & ->)%IH. exists (d :: pre), tail. split; [exists [], pre; split; [constructor|done]|done].
      * intros H%IH. apply (scan_quote_step d [c]); [by repeat constructor|done].
Qed.

Lemma lexed_name_inv c s : is_name_byte c = true -> lexed (c :: s) -> lexed s.
Proof.
  intros (H1 & H2 & H3 & _)%name_class H.
  inversion H as [|c' s' _ _ _ Hs|t s' (d & body & Hd & _ & ->) Hs E|t s' Ht Hs E]; [done|..].
  - by rewrite Hd in H1.
  - apply comment_head in Ht as (e & t' & -> & He). injection E as -> _. by destruct He.
Qed.

(** The scanner jumps over a name without missing an annotation. *)
Lemma annotated_after_name s name after : span is_name_byte s = (name, after) -> annotated_in InCode s -> annotated_in InCode after.
Proof.
  intros (-> & Hname & _)%span_spec. induction Hname as [|c name Hc _ IH]; [done|].
  intros (pre & rest & Hpre & Hrest & Heq). apply IH. destruct pre as [|c' pre].
  - destruct (annotation_at rest Hrest) as [t ->]. cbn in Heq. injection Heq as -> _.
    by apply name_class in Hc as (_ & _ & _ & ?).
  - cbn in Heq. injection Heq as <- ->. exists pre, rest. split; [|done]. by apply lexed_name_inv in Hpre.
Qed.

Lemma span_annotation name gap post : name = b#"doc" \/ name = b#"meta" -> trivia gap ->
  span is_name_byte (name ++ gap ++ b#"(" ++ post) = (name, gap ++ b#"(" ++ post).
Proof.
  intros Hname Hgap. apply span_stop; [by destruct Hname as [->| ->]; repeat constructor|].
  destruct Hgap as [|c s Hc _|t s Ht _]; [done|by apply space_class in Hc as (_ & _ & _ & ?)|].
  by apply comment_head in Ht as (c & t' & -> & [->| ->]).
Qed.

Lemma uses_complete_rest fuel rest : annotation rest -> uses_fuel (S fuel) InCode rest = true.
Proof.
  intros (name & gap & post & Hname & Hgap & ->).
  change ((let '(n, after) := span is_name_byte (name ++ gap ++ b#"(" ++ post) in
           if negb (str_eqb n b#"doc") && negb (str_eqb n b#"meta") then uses_fuel fuel InCode after
           else if starts_with b#"(" (skip_typeql_trivia after) then true
           else uses_fuel fuel InCode (name ++ gap ++ b#"(" ++ post)) = true).
  rewrite span_annotation by done.
  replace (negb _ && negb _) with false by (by destruct Hname as [->| ->]).
  by rewrite (proj2 (skip_typeql_trivia_iff (gap ++ b#"(" ++ post))) by (by exists gap, post).
Qed.

(** The delimiter of a string is a quote. *)
Definition delimited (mode : Mode) : Prop := match mode with InQuote d => is_quote d = true | _ => True end.

Section complete.
Context (fuel : nat) (IH : forall mode s, delimited mode -> (length s <= fuel)%nat -> annotated_in mode s -> uses_fuel fuel mode s = true).

Lemma uses_complete_byte c p rest : is_quote c = false -> c <> "#"%char -> opens (c :: p) = false -> lexed p -> annotation rest ->
  (length (p ++ rest) <= fuel)%nat -> uses_fuel (S fuel) InCode (c :: p ++ rest) = true.
Proof.
  intros Hq Hh Ho Hp Hrest Hl. destruct (annotation_at rest Hrest) as [t Et]. pose proof (opens_before c p t Ho) as Ho'.
  rewrite <- Et in Ho'. apply orb_false_iff in Ho' as [E1 E2]. cbn [uses_fuel]. unfold is_quote in Hq. rewrite Hq, E1, E2.
  destruct (oeqb_spec c "#"%char) as [|_]; [done|].
  assert (Ha : annotated_in InCode (p ++ rest)) by (by exists p, rest).
  destruct (oeqb c "@"%char); [|by apply IH].
  destruct (span is_name_byte (p ++ rest)) as [name after] eqn:En.
  destruct (negb _ && negb _); [|destruct (starts_with b#"(" _); [done|by apply IH]].
  apply IH; [done| |by eapply annotated_after_name]. apply span_spec in En as [En _]. rewrite En, length_app in Hl. lia.
Qed.

Lemma uses_complete_comment t p rest : comment t -> lexed p -> annotation rest ->
  (length (t ++ p ++ rest) <= S fuel)%nat -> uses_fuel (S fuel) InCode (t ++ p ++ rest) = true.
Proof.
  intros [(o & body & nl & Ho & Hb & Hnl & ->)|(body & Hb & ->)] Hp Hrest Hf.
  - assert (Ha : annotated_in InLineComment ((body ++ [nl]) ++ p ++ rest)).
    { exists (body ++ nl :: p), rest. split; [by exists body, nl, p|]. split; [done|]. by rewrite <- !app_assoc. }
    rewrite !length_app in Hf. rewrite <- (app_assoc o).
    destruct Ho as [->| ->]; cbn -[length Nat.add app]; cbn [app tail]; (apply IH; [done|rewrite !length_app; cbn in *; lia|done]).
  - rewrite <- !app_assoc in *. cbn. apply IH; [done|cbn in Hf; lia|]. exists (body ++ b#"*/" ++ p), rest.
    split; [by exists body, p|]. split; [done|]. by rewrite <- !app_assoc.
Qed.

Lemma uses_complete_code s : (length s <= S fuel)%nat -> annotated_in InCode s -> uses_fuel (S fuel) InCode s = true.
Proof.
  intros Hf (pre & rest & Hpre & Hrest & ->). destruct Hpre as [|c p Hq Hh Ho Hp|t p (d & body & Hd & Hb & ->) Hp|t p Ht Hp].
  - by apply uses_complete_rest.
  - apply uses_complete_byte; try done. cbn in Hf. lia.
  - cbn [app uses_fuel]. pose proof Hd as Hd'. unfold is_quote in Hd'. rewrite Hd'. apply IH; [done|cbn in Hf; lia|].
    exists (body ++ d :: p), rest. split; [by exists body, p|]. split; [done|]. by rewrite <- !app_assoc.
  - rewrite <- app_assoc in *. by apply uses_complete_comment.
Qed.

End complete.

Lemma uses_complete fuel : forall mode s,
  delimited mode -> (length s <= fuel)%nat -> annotated_in mode s -> uses_fuel fuel mode s = true.
Proof.
  induction fuel as [|fuel IH]; intros mode s Hm Hf Hs.
  { destruct Hs as (pre & rest & _ & [t ->]%annotation_at & ->). rewrite length_app in Hf. cbn in Hf. lia. }
  destruct mode as [| | |d]; [by apply uses_complete_code|..]; destruct Hs as (pre & rest & Hpre & Hrest & ->).
  - destruct Hpre as (body & nl & p & Hb & Hnl & Hp & ->). destruct Hb as [|c body Hc Hb]; cbn [app uses_fuel] in *.
    + rewrite Hnl. apply IH; [done|cbn in Hf; lia|by exists p, rest].
    + rewrite Hc. apply IH; [done|cbn in Hf; lia|]. exists (body ++ nl :: p), rest. split; [by exists body, nl, p|done].
  - destruct Hpre as (body & p & Hb & Hp & ->). destruct body as [|c body].
    + cbn. apply IH; [done|cbn in Hf; lia|by exists p, rest].
    + apply (unclosed_cons c body (p ++ rest)) in Hb as [Hb E]. rewrite <- !app_assoc in *. cbn [app uses_fuel]. rewrite E.
      apply IH; [done|cbn in Hf |- *; lia|]. exists (body ++ b#"*/" ++ p), rest. split; [by exists body, p|]. split; [done|]. by rewrite <- !app_assoc.
  - destruct Hpre as (body & p & Hb & Hp & ->). destruct Hb as [|c body Hb|c body Hc Hd Hb]; cbn [app uses_fuel tail] in *.
    + destruct (oeqb_spec d "092"%char) as [->|]; [done|]. rewrite oeqb_refl. apply IH; [done|cbn in Hf; lia|by exists p, rest].
    + rewrite oeqb_refl. apply IH; [done|cbn in Hf; lia|]. exists (body ++ d :: p), rest. split; [by exists body, p|done].
    + destruct (oeqb_spec c "092"%char); [done|]. destruct (oeqb_spec c d); [done|].
      apply IH; [done|cbn in Hf; lia|]. exists (body ++ d :: p), rest. split; [by exists body, p|done].
Qed.

Lemma uses_schema_annotations_iff typeql : typeql_uses_schema_annotations typeql = true <-> annotated typeql.
Proof. split; [apply (uses_sound _ InCode)|by apply (uses_complete _ InCode)]. Qed.

Lemma supported_line typeql v : check_schema_annotation_support typeql (Some v) = Ok tt -> annotated typeql ->
  line_ltb (line v) (3, 12) = false.
Proof.
  unfold check_schema_annotation_support, check_feature_supported. intros H Hu%uses_schema_annotations_iff. rewrite Hu in H.
  change (line (minimum_version SchemaAnnotations)) with (3, 12) in H. by destruct (line_ltb (line v) (3, 12)).
Qed.

(** C31. The version gate refuses exactly the texts with an annotation for a server
    whose version is known and below 3.12. A text without one, or whose only
    annotations are inside strings and comments, passes on every server. *)
Theorem annotation_gate_iff typeql server_version :
  check_schema_annotation_support typeql server_version = Ok tt <->
  ~ (annotated typeql /\ exists v, server_version = Some v /\ line_ltb (line v) (3, 12) = true).
Proof.
  rewrite <- uses_schema_annotations_iff. unfold check_schema_annotation_support, check_feature_supported.
  destruct server_version as [v|]; [|split; [by intros _ (_ & ? & ? & _)|done]].
  destruct (typeql_uses_schema_annotations typeql); [|split; [by intros _ [? _]|done]].
  change (line (minimum_version SchemaAnnotations)) with (3, 12). destruct (line_ltb (line v) (3, 12)) eqn:E; split; try done.
  - intros H. destruct H. split; [done|]. by exists v.
  - intros _ (_ & v' & [= <-] & Hv). by rewrite Hv in E.
Qed.

(** ** Versions and bands *)

Definition u32_version (v : Version) : Prop :=
  0 <= major v <= u32_max /\ 0 <= minor v <= u32_max /\ 0 <= patch v <= u32_max.

Lemma split_on_digits s t : all_digits s = true -> split_on "."%char (s ++ b#"." ++ t) = s :: split_on "."%char t.
Proof.
  induction s as [|c s IH]; [done|]. cbn [app split_on all_digits forallb]. intros [Hc Hs]%andb_true_iff. rewrite (IH Hs).
  by destruct (oeqb_spec "."%char c) as [<-|].
Qed.

Lemma split_on_last s : all_digits s = true -> split_on "."%char s = [s].
Proof.
  induction s as [|c s IH]; [done|]. cbn [app split_on all_digits forallb]. intros [Hc Hs]%andb_true_iff. rewrite (IH Hs).
  by destruct (oeqb_spec "."%char c) as [<-|].
Qed.

Lemma parse_dshow z : 0 <= z <= u32_max -> parse_uint u32_max (dshow z) = Some z.
Proof.
  intros Hz. pose proof (dshow_canonical z ltac:(lia)) as Hc. rewrite parse_uint_digits, dval_dshow; [done|lia| | |].
  - apply dshow_digits. lia.
  - by apply canonical_nonempty.
  - rewrite dval_dshow by lia. lia.
Qed.

(** A printed version parses back. *)
Theorem version_roundtrip quoted v : u32_version v -> Version_from_str quoted (Version_to_string v) = Ok v.
Proof.
  destruct v as [a b c]. intros (Ha & Hb & Hc). unfold Version_from_str, Version_to_string. cbn [major minor patch] in *.
  rewrite !(split_on_digits (dshow _)) by (apply dshow_digits; lia). cbn [split_on app lit list_ascii_of_string].
  rewrite split_on_last by (apply dshow_digits; lia).
  by rewrite !parse_dshow by done.
Qed.

(** Signs are accepted, although the parser means to be strict. *)
Theorem version_signs_accepted quoted : Version_from_str quoted b#"+3.+012" = Ok (version 3 12 0).
Proof. reflexivity. Qed.

(** A server in the window, with a supported line. *)
Lemma measured_line_cases v : window_contains v = true ->
  measured_line v = (3, 11) \/ measured_line v = (3, 12) \/ measured_line v = (3, 13) \/ measured_line v = (3, 14).
Proof.
  unfold window_contains, version_ltb, measured_line, line_ltb, line, MAX_SUPPORTED_LINE. destruct v as [a b c]. cbn [fst snd major minor patch MIN_SUPPORTED].
  intros H. destruct ((3 <? a) || ((3 =? a) && (14 <? b))) eqn:E; [by auto|].
  assert (a = 3 /\ 11 <= b <= 14) as [-> Hb].
  { apply negb_true_iff, orb_false_iff in H as [H _]. lia. }
  assert (b = 11 \/ b = 12 \/ b = 13 \/ b = 14) as [->|[->|[->| ->]]] by lia; auto.
Qed.

Lemma band9_line v : 9 ∈ server_accepted_bands v -> line_ltb (line v) (3, 12) = false.
Proof.
  destruct v as [a b c]. unfold server_accepted_bands, measured_line, line_ltb, line, MAX_SUPPORTED_LINE. cbn [fst snd major minor]. intros H. apply not_true_is_false. intros Hl.
  replace ((3 <? a) || ((3 =? a) && (14 <? b))) with false in H by lia.
  assert (H' : 9 ∈ @nil Z \/ 9 ∈ [8]); [|set_solver].
  destruct (Z.eq_dec a 3) as [->|Ha].
  - destruct b as [|p|p]; try (left; exact H). do 4 (destruct p as [p|p|]; try (left; exact H); try (right; exact H); try lia).
  - destruct a as [|p|p]; try (left; exact H). do 2 (destruct p as [p|p|]; try (left; exact H)). contradiction.
Qed.

(** The embedded gate admits a server exactly when it is in the window and a
    band can be negotiated. The band is one the server accepts and the build
    embeds, and it is band 9 only for servers from 3.12 on, which a band 9
    connection does not crash. Every server in the window has a semantic
    profile and a band, and a build with both bands serves it. *)
Theorem negotiation_safe server embedded :
  (check_server_supported server embedded = Ok tt <->
   window_contains server = true /\ exists b, negotiate_server_band server embedded = Some b) /\
  (forall b, negotiate_server_band server embedded = Some b ->
   b ∈ embedded /\ b ∈ server_accepted_bands server /\ (b = 9 -> line_ltb (line server) (3, 12) = false)) /\
  (window_contains server = true -> is_Some (semantic_profile_id server) /\ is_Some (band server) /\
   check_server_supported server [8; 9] = Ok tt).
Proof.
  split; [|split].
  - unfold check_server_supported, negotiate_server_band.
    destruct (window_contains server) eqn:Hw; [|split; [done|by intros [? _]]]. cbn [negb].
    destruct (server_accepted_bands server) as [|x l] eqn:E.
    { apply measured_line_cases in Hw. unfold server_accepted_bands in E. by destruct Hw as [Hw|[Hw|[Hw|Hw]]]; rewrite Hw in E. }
    destruct (existsb _ (x :: l)) eqn:Ex; split; try done.
    + intros _. split; [done|]. apply existsb_exists in Ex as (b & Hb & Hc).
      destruct (List.find _ (x :: l)) as [b'|] eqn:Ef; [by exists b'|]. by rewrite (find_none _ _ Ef b Hb) in Hc.
    + intros (_ & b & [Hb Hc]%find_some). exfalso. apply not_true_iff_false in Ex. apply Ex, existsb_exists. by exists b.
  - unfold negotiate_server_band. intros b [Hb Hc]%find_some. apply list_elem_of_In in Hb. split; [|split; [done|]].
    + apply existsb_exists in Hc as (b' & Hb' & ->%Z.eqb_eq). by apply list_elem_of_In.
    + intros ->. by apply band9_line.
  - intros Hw. unfold semantic_profile_id, check_server_supported, band, server_accepted_bands. rewrite Hw. cbn [negb].
    apply measured_line_cases in Hw. by destruct Hw as [Hw|[Hw|[Hw|Hw]]]; rewrite Hw.
Qed.

End Versions.
