(* ===== verification/ReleasedSpec.v ===== *)
(** * Released migrations (migration/src/spec.rs, orm/src/schema/info.rs)

    The migrations of the released engine: identities, dependencies, the frozen
    operations of the authoring interface with the schema entries they carry, and
    the records of applied migrations. *)

From S2P Require Import Prelude BTree Text.
#[local] Open Scope Z_scope.

Module ReleasedSpec.

(** ** Schema entries *)

Inductive ValueType : Set :=
| VString | VLong | VDouble | VBoolean | VDate | VDateTime | VDateTimeTz | VDecimal | VDuration.

Inductive Annotation : Set :=
| Key | Unique | Card (min : Z) (max : option Z) | Distinct.

Record OwnedAttributeEntry : Set := owned_attribute {
  owned_attr_name : str;
  owned_value_type : ValueType;
  owned_annotations : list Annotation;
  owned_is_ordered : bool;
  owned_doc : option str;
  owned_meta : BTreeMap str str }.

Record RoleEntry : Set := role_entry {
  role_name : str;
  player_type_names : list str;
  role_cardinality : option (Z * option Z);
  overrides : option str;
  role_is_abstract : bool;
  ordered : bool;
  role_distinct : bool;
  role_doc : option str;
  role_meta : BTreeMap str str }.

Record EntitySchemaEntry : Set := entity_entry {
  entity_type_name : str;
  entity_is_abstract : bool;
  entity_parent_type : option str;
  entity_owned : list OwnedAttributeEntry;
  entity_plays_cardinalities : BTreeMap str (Z * option Z);
  entity_doc : option str;
  entity_meta : BTreeMap str str }.

Record RelationSchemaEntry : Set := relation_entry {
  type_name : str;
  relation_is_abstract : bool;
  parent_type : option str;
  relation_owned : list OwnedAttributeEntry;
  roles : list RoleEntry;
  plays_cardinalities : BTreeMap str (Z * option Z);
  relation_doc : option str;
  relation_meta : BTreeMap str str }.

Record AttributeSchemaEntry : Set := attribute_entry {
  attr_name : str;
  value_type : ValueType;
  attr_parent_type : option str;
  attr_is_abstract : bool;
  attr_is_independent : bool;
  attr_regex : option str;
  attr_allowed_values : option (list str);
  attr_range : option (option str * option str);
  attr_doc : option str;
  attr_meta : BTreeMap str str }.

Record SchemaInfo : Set := schema_info {
  entities : BTreeMap str EntitySchemaEntry;
  relations : BTreeMap str RelationSchemaEntry;
  attributes : BTreeMap str AttributeSchemaEntry }.

(** ** Migrations *)

Inductive OperationSpec : Set :=
| DefineSchema (schema : SchemaInfo)
| AddAttribute (attribute : AttributeSchemaEntry)
| RemoveAttribute (name : str)
| AddEntity (entity : EntitySchemaEntry)
| RemoveEntity (name : str)
| AddRelation (relation : RelationSchemaEntry)
| RemoveRelation (name : str)
| AddOwnership (owner_type : str) (attribute : OwnedAttributeEntry)
| RemoveOwnership (owner_type attr_name : str)
| ModifyOwnership (owner_type attr_name old_annotations new_annotations : str)
| ModifyTypeAnnotations (type_name : str) (old_doc new_doc : option str) (old_meta new_meta : BTreeMap str str)
| ModifyRoleAnnotations (relation_type role_name : str) (old_doc new_doc : option str)
    (old_meta new_meta : BTreeMap str str)
| AddRole (relation_type : str) (role : RoleEntry)
| RemoveRole (relation_type role_name : str)
| AddRolePlayer (relation_type role_name player_type_name : str)
| RemoveRolePlayer (relation_type role_name player_type_name : str)
| RunTypeql (forward : str) (reverse : option str)
| RenameAttribute (old_name new_name value_type : str)
| CopyAttribute (owner source dest filter forward reverse : option str).

Record MigrationDependencySpec : Set := dependency_spec {
  dependency_app_label : str;
  migration_name : str }.

Record MigrationSpec : Set := migration_spec {
  app_label : str;
  name : str;
  dependencies : list MigrationDependencySpec;
  operations : list OperationSpec;
  checksum : option str;
  source_sha256 : option str;
  reversible : bool }.

(** The migrations in discovery order. *)
Record MigrationGraph : Set := migration_graph { migrations : list MigrationSpec }.

(** An applied migration as the state store records it. *)
Record AppliedMigrationRecord : Set := applied_migration {
  applied_app_label : str;
  applied_name : str;
  applied_checksum : str;
  applied_at : option str }.

Definition MigrationKey : Set := str * str.

Definition key (m : MigrationSpec) : MigrationKey := (app_label m, name m).
Definition dependency_key (d : MigrationDependencySpec) : MigrationKey := (dependency_app_label d, migration_name d).
Definition record_key (r : AppliedMigrationRecord) : MigrationKey := (applied_app_label r, applied_name r).

End ReleasedSpec.
