(* ===== verification/ReleasedAnnotations.v ===== *)
(** * Annotation flags (orm/src/schema/annotations.rs, migration/src/plan.rs)

    The tokenizer of ownership flag strings, the difference of two token lists by
    annotation identity, and the statements that carry a difference out. Tokens
    survive printing and splitting; a difference takes the old annotations to the new
    ones, its reverse takes them back, and it is empty exactly when they render alike.
    Rendering a token goes through the TypeQL grammar and is an argument; what a
    server does with a statement is not modelled. *)

From S2P Require Import Prelude BTree Text.

Module ReleasedAnnotations.

Record AnnotationToken : Set := annotation_token {
  token_name : str;
  token_args : option str }.

#[global] Instance AnnotationToken_eq_dec : EqDecision AnnotationToken.
Proof. solve_decision. Defined.

(** ** Identities *)

Definition quote : ascii := "034"%char.
Definition backslash : ascii := "092"%char.

Definition unescape (c : ascii) : ascii :=
  if oeqb c "n"%char then "010"%char else if oeqb c "t"%char then "009"%char
  else if oeqb c "r"%char then "013"%char else c.

(** The text up to the closing quote, unescaped. *)
Fixpoint literal_body (s out : str) : option str :=
  match s with
  | [] => None
  | c :: s =>
      if oeqb c quote then Some out
      else if oeqb c backslash
      then match s with [] => None | d :: s => literal_body s (out ++ [unescape d]) end
      else literal_body s (out ++ [c])
  end.

Definition first_string_literal (args : str) : option str :=
  match split_once quote args with Some (_, rest) => literal_body rest [] | None => None end.

Definition meta_key (t : AnnotationToken) : option str :=
  if str_eqb (token_name t) b#"meta"
  then match token_args t with Some args => first_string_literal args | None => None end
  else None.

(** A [@meta] annotation is identified by its key, any other one by its name. *)
Definition identity (t : AnnotationToken) : str :=
  match meta_key t with Some key => b#"meta:" ++ key | None => token_name t end.

(** ** Splitting *)

Definition is_name_byte (c : ascii) : bool := is_ascii_alphanumeric c || oeqb c "_"%char.

Fixpoint span_name (s : str) : str * str :=
  match s with
  | c :: s' => if is_name_byte c then let '(name, rest) := span_name s' in (c :: name, rest) else ([], s)
  | [] => ([], [])
  end.

(** The argument text and what follows its closing parenthesis. *)
Fixpoint scan_args (depth : nat) (in_string : bool) (s : str) : str * str :=
  match s with
  | [] => ([], [])
  | c :: s =>
      let continue depth in_string := let '(args, rest) := scan_args depth in_string s in (c :: args, rest) in
      if oeqb c backslash && in_string
      then match s with
           | [] => ([c], [])
           | d :: s => let '(args, rest) := scan_args depth in_string s in (c :: d :: args, rest)
           end
      else if oeqb c quote then continue depth (negb in_string)
      else if oeqb c "("%char && negb in_string then continue (S depth) in_string
      else if oeqb c ")"%char && negb in_string
      then match depth with S (S depth) => continue (S depth) in_string | _ => ([], s) end
      else continue depth in_string
  end.

Fixpoint split_tokens (fuel : nat) (flags : str) : list AnnotationToken :=
  match fuel, flags with
  | S fuel, c :: rest =>
      if negb (oeqb c "@"%char) then split_tokens fuel rest
      else match span_name rest with
           | ([], rest) => split_tokens fuel rest
           | (name, rest) =>
               match strip_prefix b#"(" rest with
               | Some body =>
                   let '(args, rest) := scan_args 1 false body in
                   annotation_token name (Some args) :: split_tokens fuel rest
               | None => annotation_token name None :: split_tokens fuel rest
               end
           end
  | _, _ => []
  end.

(** Every round consumes at least one byte. *)
Definition split_annotation_tokens (flags : str) : list AnnotationToken := split_tokens (length flags) flags.

(** ** Differences *)

Record AnnotationTokenDiff : Set := annotation_token_diff {
  added : list AnnotationToken;
  removed : list AnnotationToken;
  changed : list (AnnotationToken * AnnotationToken) }.

Definition by_identity (tokens : list AnnotationToken) : BTreeMap str AnnotationToken :=
  mof (map (fun t => (identity t, t)) tokens).

Definition diff_annotation_tokens (render : AnnotationToken -> str) (old new : list AnnotationToken) : AnnotationTokenDiff :=
  let old_map := by_identity old in
  let new_map := by_identity new in
  annotation_token_diff
    (omap (fun e => match mget e.1 old_map with None => Some e.2 | Some _ => None end) new_map)
    (omap (fun e => if mmem e.1 new_map then None else Some e.2) old_map)
    (omap (fun e => match mget e.1 old_map with
                    | Some o => if str_eqb (render o) (render e.2) then None else Some (o, e.2)
                    | None => None
                    end) new_map).

(** ** Statements *)

(** One schema statement on the annotations of a subject. *)
Inductive AnnotationStatement : Set :=
| Undefine (tokens : list AnnotationToken)
| Redefine (token : AnnotationToken)
| Define (tokens : list AnnotationToken).

(** The steps of [annotation_token_steps]: forward and reverse statements. *)
Definition annotation_changes (diff : AnnotationTokenDiff) : list (AnnotationStatement * AnnotationStatement) :=
  match removed diff with [] => [] | tokens => [(Undefine tokens, Define tokens)] end ++
  map (fun c => (Redefine c.2, Redefine c.1)) (changed diff) ++
  match added diff with [] => [] | tokens => [(Define tokens, Undefine tokens)] end.

(** ** Splitting what was printed *)

(** A token as a flag string has it. *)
Definition flag (t : AnnotationToken) : str :=
  "@"%char :: token_name t ++ match token_args t with Some args => b#"(" ++ args ++ b#")" | None => [] end.

(** The scan of an argument text ends at its own closing parenthesis: strings are
    closed and parentheses outside of them balanced. *)
Fixpoint closes (depth : nat) (in_string : bool) (s : str) : bool :=
  match s with
  | [] => Nat.eqb depth 1 && negb in_string
  | c :: s =>
      if oeqb c backslash && in_string
      then match s with [] => false | _ :: s => closes depth in_string s end
      else if oeqb c quote then closes depth (negb in_string) s
      else if oeqb c "("%char && negb in_string then closes (S depth) in_string s
      else if oeqb c ")"%char && negb in_string
      then match depth with S (S depth) => closes (S depth) in_string s | _ => false end
      else closes depth in_string s
  end.

Definition well_formed (t : AnnotationToken) : bool :=
  negb (str_eqb (token_name t) []) && forallb is_name_byte (token_name t) &&
  match token_args t with Some args => closes 1 false args | None => true end.

Lemma scan_args_closes rest : forall n args depth in_string,
  length args <= n -> closes depth in_string args = true -> scan_args depth in_string (args ++ b#")" ++ rest) = (args, rest).
Proof.
  induction n as [|n IH]; intros [|c args] depth in_string Hn; cbn [closes app]; try (cbn in Hn; lia).
  - intros [->%Nat.eqb_eq ->%negb_true_iff]%andb_true_iff. done.
  - intros [->%Nat.eqb_eq ->%negb_true_iff]%andb_true_iff. done.
  - cbn in Hn. cbn [scan_args]. destruct (oeqb c backslash && in_string) eqn:E1.
    { destruct args as [|d args]; [done|]. intros H. cbn [app]. cbn in Hn. by rewrite IH by (done || lia). }
    destruct (oeqb c quote) eqn:E2; [intros H; by rewrite IH by (done || lia)|].
    destruct (oeqb c "("%char && negb in_string) eqn:E3; [intros H; by rewrite IH by (done || lia)|].
    destruct (oeqb c ")"%char && negb in_string) eqn:E4; [|intros H; by rewrite IH by (done || lia)].
    destruct depth as [|[|depth]]; [done|done|]. intros H. by rewrite IH by (done || lia).
Qed.

Lemma span_name_app name rest :
  forallb is_name_byte name = true -> (forall c r, rest = c :: r -> is_name_byte c = false) -> span_name (name ++ rest) = (name, rest).
Proof.
  intros Hn Hr. induction name as [|c name IH]; cbn.
  - destruct rest as [|c rest]; [done|]. cbn. by rewrite (Hr c rest eq_refl).
  - cbn in Hn. apply andb_true_iff in Hn as [-> Hn]. by rewrite (IH Hn).
Qed.

Lemma span_name_length s name rest : span_name s = (name, rest) -> length name + length rest = length s.
Proof.
  revert name rest. induction s as [|c s IH]; intros name rest; cbn; [by intros [= <- <-]|].
  destruct (is_name_byte c); [|by intros [= <- <-]].
  destruct (span_name s) as [name' rest']. intros [= <- <-]. cbn. specialize (IH name' rest' eq_refl). lia.
Qed.

Lemma split_flag t rest fuel :
  well_formed t = true -> (forall c r, rest = c :: r -> c = " "%char) -> length (flag t ++ rest) <= fuel ->
  exists fuel', length rest <= fuel' /\ split_tokens fuel (flag t ++ rest) = t :: split_tokens fuel' rest.
Proof.
  intros [[Hne Hname]%andb_true_iff Hargs]%andb_true_iff Hrest Hfuel. destruct t as [name args].
  cbn [token_name token_args] in *. destruct fuel as [|fuel]; [cbn in Hfuel; lia|]. exists fuel.
  unfold flag in *. cbn [token_name token_args] in *. rewrite <- app_comm_cons, <- app_assoc in *. cbn [length] in Hfuel.
  cbn [split_tokens]. replace (negb (oeqb "@"%char "@"%char)) with false by reflexivity. rewrite !length_app in Hfuel.
  destruct args as [args|].
  - rewrite span_name_app; [|done|by intros ? ? [= <- _]]. destruct name as [|c name]; [done|].
    assert (forall r, strip_prefix b#"(" (b#"(" ++ r) = Some r) as Hopen by (intros; vm_compute; reflexivity).
    rewrite <- app_assoc, Hopen, <- app_assoc, (scan_args_closes rest (length args)) by done. split; [lia|done].
  - cbn [app] in *. rewrite (span_name_app name rest); [|done|intros d r ->; by rewrite (Hrest d r eq_refl)].
    destruct name as [|c name]; [done|]. split; [lia|]. destruct rest as [|d rest]; [done|]. by rewrite (Hrest d rest eq_refl).
Qed.

Lemma split_space rest fuel : length (" "%char :: rest) <= fuel ->
  exists fuel', length rest <= fuel' /\ split_tokens fuel (" "%char :: rest) = split_tokens fuel' rest.
Proof. destruct fuel as [|fuel]; cbn; [lia|]. intros H. exists fuel. split; [lia|done]. Qed.

(** Flags separated by a space. *)
Fixpoint flags (tokens : list AnnotationToken) : str :=
  match tokens with
  | [] => []
  | [t] => flag t
  | t :: tokens => flag t ++ b#" " ++ flags tokens
  end.

Lemma split_flags tokens : forall fuel,
  forallb well_formed tokens = true -> length (flags tokens) <= fuel -> split_tokens fuel (flags tokens) = tokens.
Proof.
  induction tokens as [|t tokens IH]; intros fuel H Hfuel; [by destruct fuel|].
  cbn in H. apply andb_true_iff in H as [Ht H].
  destruct tokens as [|t' tokens].
  - cbn [flags] in *. rewrite <- (app_nil_r (flag t)) in *.
    destruct (split_flag t [] fuel Ht) as (fuel' & _ & ->); [done|done|]. by destruct fuel'.
  - change (flags (t :: t' :: tokens)) with (flag t ++ " "%char :: flags (t' :: tokens)) in *.
    destruct (split_flag t (" "%char :: flags (t' :: tokens)) fuel Ht) as (f1 & H1 & ->); [by intros ? ? [= <- _]|done|].
    destruct (split_space _ f1 H1) as (f2 & H2 & ->). by rewrite IH.
Qed.

(** Annotation tokens survive printing: splitting the flags of well-formed
    tokens, separated by spaces, gives the tokens back. *)
Theorem split_annotation_tokens_roundtrip tokens :
  forallb well_formed tokens = true -> split_annotation_tokens (flags tokens) = tokens.
Proof. intros H. by apply split_flags. Qed.

(** Any text is a closed argument once it is quoted and escaped. *)
Definition escape_byte (c : ascii) : str :=
  if oeqb c quote || oeqb c backslash then [backslash; c]
  else if oeqb c "010"%char then [backslash; "n"%char] else if oeqb c "009"%char then [backslash; "t"%char]
  else if oeqb c "013"%char then [backslash; "r"%char] else [c].

Definition string_literal (value : str) : str := quote :: concat (map escape_byte value) ++ [quote].

Lemma escape_byte_cases c :
  (exists d, escape_byte c = [backslash; d] /\ unescape d = c) \/
  (escape_byte c = [c] /\ oeqb c quote = false /\ oeqb c backslash = false).
Proof.
  unfold escape_byte. destruct (oeqb c quote || oeqb c backslash) eqn:E.
  { left. exists c. split; [done|]. apply orb_true_iff in E as [E|E]; destruct (oeqb_spec c quote), (oeqb_spec c backslash); subst; done. }
  apply orb_false_iff in E as [Eq Eb].
  destruct (oeqb_spec c "010"%char) as [->|]; [left; by eexists|]. destruct (oeqb_spec c "009"%char) as [->|]; [left; by eexists|].
  destruct (oeqb_spec c "013"%char) as [->|]; [left; by eexists|]. by right.
Qed.

Lemma literal_body_escaped value rest : forall out,
  literal_body (concat (map escape_byte value) ++ quote :: rest) out = Some (out ++ value).
Proof.
  induction value as [|c value IH]; intros out; cbn [map concat app literal_body]; [by rewrite app_nil_r|].
  destruct (escape_byte_cases c) as [(d & -> & Hd)|(-> & Hq & Hb)]; cbn [app literal_body].
  - replace (oeqb backslash quote) with false by reflexivity. replace (oeqb backslash backslash) with true by reflexivity.
    by rewrite IH, Hd, <- app_assoc.
  - by rewrite Hq, Hb, IH, <- app_assoc.
Qed.

(** A literal reads back as its text. *)
Lemma first_string_literal_escaped value rest : first_string_literal (string_literal value ++ rest) = Some value.
Proof.
  unfold first_string_literal, string_literal. rewrite <- app_comm_cons, <- app_assoc.
  assert (forall r, split_once quote (quote :: r) = Some ([], r)) as -> by (intros; vm_compute; reflexivity).
  apply (literal_body_escaped value rest []).
Qed.

(** ** Carrying out a difference *)

#[local] Abbreviation annotations := (BTreeMap str AnnotationToken).

(** Some annotations taken off, then some put on. *)
Definition taken_off (tokens : list AnnotationToken) (m : annotations) : annotations :=
  fold_left (fun m t => mdel (identity t) m) tokens m.
Definition put_on (tokens : list AnnotationToken) (m : annotations) : annotations :=
  fold_left (fun m t => mins (identity t) t m) tokens m.

Definition patch (d : AnnotationTokenDiff) (m : annotations) : annotations :=
  put_on (map snd (changed d) ++ added d) (taken_off (removed d) m).
Definition unpatch (d : AnnotationTokenDiff) (m : annotations) : annotations :=
  put_on (map fst (changed d) ++ removed d) (taken_off (added d) m).

Lemma mget_taken_off k tokens : forall m,
  mget k (taken_off tokens m) = if decide (k ∈ map identity tokens) then None else mget k m.
Proof.
  induction tokens as [|t tokens IH]; intros m; cbn [taken_off fold_left map]; [by rewrite decide_False by apply not_elem_of_nil|].
  fold (taken_off tokens (mdel (identity t) m)). rewrite IH, mget_mdel.
  destruct (decide (k ∈ map identity tokens)) as [Hk|Hk]; [by rewrite decide_True by by apply list_elem_of_further|].
  destruct (oeqb_spec (identity t) k) as [<-|Hne]; [by rewrite decide_True by apply list_elem_of_here|].
  rewrite decide_False; [done|]. by intros [->|?]%elem_of_cons.
Qed.

Lemma mget_put_on_other k tokens : forall m, k ∉ map identity tokens -> mget k (put_on tokens m) = mget k m.
Proof.
  induction tokens as [|t tokens IH]; intros m; cbn [map]; [done|]. intros [Hne Hk]%not_elem_of_cons.
  cbn. fold (put_on tokens (mins (identity t) t m)). rewrite IH by done. by apply mget_mins_ne.
Qed.

Lemma mget_put_on t tokens : forall m,
  NoDup (map identity tokens) -> t ∈ tokens -> mget (identity t) (put_on tokens m) = Some t.
Proof.
  induction tokens as [|u tokens IH]; intros m Hn Ht; [by apply not_elem_of_nil in Ht|].
  cbn in Hn. apply NoDup_cons in Hn as [Hu Hn]. cbn. fold (put_on tokens (mins (identity u) u m)).
  apply elem_of_cons in Ht as [->|Ht]; [|by apply IH]. rewrite mget_put_on_other by done. apply mget_mins_eq.
Qed.

(** From [A] to [B]: what only [A] has is taken off, what only [B] has and what they
    render differently is put on. *)
Section transition.
Context (render : AnnotationToken -> str) (A B : annotations).
Context (KA : forall k t, mget k A = Some t -> identity t = k) (KB : forall k t, mget k B = Some t -> identity t = k).
Context (gone fresh changed_to : list AnnotationToken).
Context (Hgone : forall t, t ∈ gone <-> exists k, mget k A = Some t /\ mget k B = None).
Context (Hfresh : forall t, t ∈ fresh <-> exists k, mget k B = Some t /\ mget k A = None) (Nfresh : NoDup (map identity fresh)).
Context (Hchanged : forall t, t ∈ changed_to <->
  exists k o, mget k A = Some o /\ mget k B = Some t /\ render o <> render t) (Nchanged : NoDup (map identity changed_to)).

Lemma elem_gone k : k ∈ map identity gone <-> is_Some (mget k A) /\ mget k B = None.
Proof using KA Hgone.
  rewrite list_elem_of_fmap. split.
  - intros (t & -> & (k1 & Ha & Hb)%Hgone). rewrite (KA _ _ Ha). by split; [eexists|].
  - intros [[t Ha] Hb]. exists t. rewrite (KA _ _ Ha). split; [done|]. apply Hgone. by exists k.
Qed.

Lemma elem_put_on k t : t ∈ changed_to ++ fresh -> identity t = k -> mget k B = Some t.
Proof using KB Hfresh Hchanged.
  rewrite elem_of_app, Hchanged, Hfresh. intros [(k' & o & _ & Hb & _)|(k' & Hb & _)] <-; by rewrite (KB _ _ Hb).
Qed.

Lemma put_on_NoDup : NoDup (map identity (changed_to ++ fresh)).
Proof using KB Hfresh Hchanged Nfresh Nchanged.
  rewrite map_app, NoDup_app. split_and!; [done| |done].
  intros k (t & -> & (k1 & o & Ha & Hb & _)%Hchanged)%list_elem_of_fmap (u & E & (k' & Hb' & Ha')%Hfresh)%list_elem_of_fmap.
  rewrite (KB _ _ Hb), (KB _ _ Hb') in E. congruence.
Qed.

Lemma transition k :
  option_map render (mget k (put_on (changed_to ++ fresh) (taken_off gone A))) = option_map render (mget k B).
Proof using KA KB Hgone Hfresh Nfresh Hchanged Nchanged.
  destruct (decide (k ∈ map identity (changed_to ++ fresh))) as [(t & -> & Ht)%list_elem_of_fmap|Hk].
  { by rewrite (mget_put_on t _ _ put_on_NoDup Ht), (elem_put_on _ _ Ht eq_refl). }
  rewrite mget_put_on_other, mget_taken_off by done.
  destruct (decide (k ∈ map identity gone)) as [[_ Hb]%elem_gone|Hg]; [by rewrite Hb|]. rewrite elem_gone in Hg.
  destruct (mget k A) as [o|] eqn:Ea, (mget k B) as [n|] eqn:Eb; cbn; [|naive_solver| |done].
  - destruct (decide (render o = render n)) as [E|E]; [by f_equal|]. destruct Hk.
    apply list_elem_of_fmap. exists n. rewrite (KB _ _ Eb), elem_of_app, Hchanged. split; [done|left]. by exists k, o.
  - destruct Hk. apply list_elem_of_fmap. exists n. rewrite (KB _ _ Eb), elem_of_app, Hfresh. split; [done|right]. by exists k.
Qed.
End transition.

Lemma by_identity_source tokens k t : mget k (by_identity tokens) = Some t -> t ∈ tokens /\ identity t = k.
Proof.
  intros H. apply (proj2 (mof_fold _ _ _)) in H as [H|[=]]. apply list_elem_of_fmap in H as (u & [= -> ->] & Hu). done.
Qed.

(** Values picked from a map under their own keys. *)
Lemma picked_NoDup {X} (m : annotations) (pick : str * AnnotationToken -> option X) (name : X -> str) :
  NoDup (map fst m) -> (forall k t x, (k, t) ∈ m -> pick (k, t) = Some x -> name x = k) -> NoDup (map name (omap pick m)).
Proof.
  intros Hn Hp. induction m as [|[k t] m IH]; cbn; [apply NoDup_nil_2|].
  cbn in Hn. apply NoDup_cons in Hn as [Hk Hn].
  assert (NoDup (map name (omap pick m))) as Hm by (apply IH; [done|]; intros; eapply Hp; [by apply list_elem_of_further|done]).
  destruct (pick (k, t)) as [x|] eqn:E; [|done]. cbn. constructor; [|done].
  rewrite (Hp k t x (list_elem_of_here _ _) E). intros (y & -> & Hy)%list_elem_of_fmap. apply Hk.
  apply list_elem_of_omap in Hy as ([k' t'] & Hin & Ey). rewrite (Hp k' t' y (list_elem_of_further _ _ _ Hin) Ey).
  apply list_elem_of_fmap. by exists (k', t').
Qed.

Section differences.
Context (render : AnnotationToken -> str) (old new : list AnnotationToken).

#[local] Abbreviation O := (by_identity old).
#[local] Abbreviation N := (by_identity new).
#[local] Abbreviation diff := (diff_annotation_tokens render old new).

Lemma keyed_by_identity tokens k t : mget k (by_identity tokens) = Some t -> identity t = k.
Proof using Type. by intros [_ H]%by_identity_source. Qed.

Lemma sorted_by_identity tokens : msorted (by_identity tokens).
Proof using Type. apply mof_sorted. Qed.

Lemma entry_by_identity tokens k t : (k, t) ∈ by_identity tokens <-> mget k (by_identity tokens) = Some t.
Proof using Type. apply elem_mget, sorted_by_identity. Qed.

Lemma elem_added_tokens t : t ∈ added diff <-> exists k, mget k N = Some t /\ mget k O = None.
Proof using Type.
  cbn. rewrite list_elem_of_omap. split.
  - intros ([k u] & H & E). cbn in E. destruct (mget k O) eqn:Eo; [done|]. injection E as ->. exists k. split; [by apply entry_by_identity|done].
  - intros (k & Hn & Ho). exists (k, t). split; [by apply entry_by_identity|]. cbn. by rewrite Ho.
Qed.

Lemma elem_removed t : t ∈ removed diff <-> exists k, mget k O = Some t /\ mget k N = None.
Proof using Type.
  cbn. rewrite list_elem_of_omap. split.
  - intros ([k u] & H & E). cbn in E. destruct (mmem k N) eqn:En; [done|]. injection E as ->. exists k.
    split; [by apply entry_by_identity|by apply mmem_false].
  - intros (k & Ho & Hn). exists (k, t). split; [by apply entry_by_identity|]. cbn. by rewrite (proj2 (mmem_false _ _) Hn).
Qed.

Lemma elem_changed_tokens o n :
  (o, n) ∈ changed diff <-> exists k, mget k O = Some o /\ mget k N = Some n /\ render o <> render n.
Proof using Type.
  cbn. rewrite list_elem_of_omap. split.
  - intros ([k u] & H & E). cbn in E. destruct (mget k O) as [o'|] eqn:Eo; [|done]. unfold str_eqb in E.
    destruct (oeqb_spec (render o') (render u)) as [|Hne]; [done|]. injection E as -> ->. exists k.
    split_and!; [done|by apply entry_by_identity|done].
  - intros (k & Ho & Hn & Hne). exists (k, n). split; [by apply entry_by_identity|]. cbn. rewrite Ho. unfold str_eqb.
    by destruct (oeqb_spec (render o) (render n)).
Qed.

Lemma diff_NoDup :
  NoDup (map identity (added diff)) /\ NoDup (map identity (removed diff)) /\
  NoDup (map identity (map snd (changed diff))) /\ NoDup (map identity (map fst (changed diff))).
Proof using Type.
  assert (NoDup (map fst O)) as NO by apply ssorted_NoDup, sorted_by_identity.
  assert (NoDup (map fst N)) as NN by apply ssorted_NoDup, sorted_by_identity.
  rewrite !map_map. split_and!; (apply picked_NoDup; [done|]); intros k t x [Ht Hi]%entry_by_identity%by_identity_source E; cbn in E.
  - destruct (mget k O); [done|]. by injection E as <-.
  - destruct (mmem k N); [done|]. by injection E as <-.
  - destruct (mget k O) as [o|]; [|done]. destruct (str_eqb _ _); [done|]. by injection E as <-.
  - destruct (mget k O) as [o|] eqn:Eo; [|done]. destruct (str_eqb _ _); [done|]. injection E as <-. by apply by_identity_source in Eo as [_ ?].
Qed.

Lemma diff_patches k :
  option_map render (mget k (patch diff O)) = option_map render (mget k N) /\
  option_map render (mget k (unpatch diff N)) = option_map render (mget k O).
Proof using Type.
  destruct diff_NoDup as (Na & Nr & Ns & Nf).
  split; apply transition; try apply keyed_by_identity; try done; try (apply elem_added_tokens || apply elem_removed).
  - intros n. rewrite list_elem_of_fmap. split.
    + intros ([o n'] & -> & (k' & Ho & Hn & Hne)%elem_changed_tokens). eauto.
    + intros (k' & o & Ho & Hn & Hne). exists (o, n). split; [done|]. apply elem_changed_tokens. eauto.
  - intros o. rewrite list_elem_of_fmap. split.
    + intros ([o' n] & -> & (k' & Ho & Hn & Hne)%elem_changed_tokens). eauto 6.
    + intros (k' & n & Hn & Ho & Hne). exists (o, n). split; [done|]. apply elem_changed_tokens. eauto.
Qed.

Lemma diff_disjoint :
  NoDup (map identity (removed diff ++ map snd (changed diff) ++ added diff)).
Proof using Type.
  destruct diff_NoDup as (Na & Nr & Ns & _). rewrite !map_app, !NoDup_app. split_and!; [done| |done| |done].
  - intros k (t & -> & (k1 & Ho & Hn)%elem_removed)%list_elem_of_fmap. rewrite (keyed_by_identity _ _ _ Ho), elem_of_app.
    intros [(n & E & ([o n'] & -> & (k' & _ & Hn' & _)%elem_changed_tokens)%list_elem_of_fmap)%list_elem_of_fmap
           |(n & E & (k' & Hn' & _)%elem_added_tokens)%list_elem_of_fmap];
      cbn in E; rewrite (keyed_by_identity _ _ _ Hn') in E; congruence.
  - intros k (n & -> & ([o n'] & -> & (k1 & Ho & Hn & _)%elem_changed_tokens)%list_elem_of_fmap)%list_elem_of_fmap.
    cbn. rewrite (keyed_by_identity _ _ _ Hn). intros (n & E & (k' & Hn' & Ho')%elem_added_tokens)%list_elem_of_fmap.
    rewrite (keyed_by_identity _ _ _ Hn') in E. congruence.
Qed.

Lemma diff_empty :
  removed diff ++ map snd (changed diff) ++ added diff = [] <->
  forall k, option_map render (mget k O) = option_map render (mget k N).
Proof using Type.
  split.
  - intros [Hr [Hc%map_eq_nil Ha]%app_nil]%app_nil k. destruct (diff_patches k) as [<- _]. unfold patch. by rewrite Hr, Hc, Ha.
  - intros H. apply app_nil. split; [|apply app_nil; split]; apply elem_of_nil_inv; intros t.
    + intros (k & Ho & Hn)%elem_removed. specialize (H k). by rewrite Ho, Hn in H.
    + intros ([o n] & -> & (k & Ho & Hn & Hne)%elem_changed_tokens)%list_elem_of_fmap. specialize (H k).
      rewrite Ho, Hn in H. by injection H.
    + intros (k & Hn & Ho)%elem_added_tokens. specialize (H k). by rewrite Ho, Hn in H.
Qed.
End differences.

(** C23. The difference of two lists of annotation tokens touches every identity at
    most once. Taking its removed tokens off the old annotations and putting its new
    and changed ones on gives annotations that render as the new ones do, identity by
    identity; the same difference read backwards gives the old ones; and it is empty
    exactly when every identity renders alike on both sides. *)
Theorem annotation_diff_roundtrip render old new :
  let d := diff_annotation_tokens render old new in
  NoDup (map identity (removed d ++ map snd (changed d) ++ added d)) /\
  (forall k, option_map render (mget k (patch d (by_identity old))) = option_map render (mget k (by_identity new)) /\
             option_map render (mget k (unpatch d (by_identity new))) = option_map render (mget k (by_identity old))) /\
  (removed d ++ map snd (changed d) ++ added d = [] <->
   forall k, option_map render (mget k (by_identity old)) = option_map render (mget k (by_identity new))).
Proof. split_and!; [apply diff_disjoint|apply diff_patches|apply diff_empty]. Qed.

(** ** Examples *)

Lemma split_annotation_tokens_roundtrip_witness :
  split_annotation_tokens (flags [annotation_token b#"card" (Some b#"0..2");
    annotation_token b#"doc" (Some (string_literal b#"a (closed) text"))]) =
  [annotation_token b#"card" (Some b#"0..2"); annotation_token b#"doc" (Some (string_literal b#"a (closed) text"))].
Proof. apply split_annotation_tokens_roundtrip. vm_compute. reflexivity. Defined.

End ReleasedAnnotations.
