(* ===== verification/ReleasedGraph.v ===== *)
(** * Released graph validation (migration/src/graph.rs, checksum.rs)

    The validation of a loaded migration graph against the applied records, with
    its cycle search on an explicit stack and its bounded diagnostics, and the
    checksum gate. A graph without diagnostics is exactly a well-formed one. *)

From S2P Require Import Prelude BTree Text ReleasedSpec.
Import ReleasedSpec.
#[local] Open Scope Z_scope.

Module ReleasedGraph.

Inductive ValidationCode : Set :=
| EmptyAppLabel | EmptyName | DuplicateMigration | DuplicateMigrationNumber | SelfDependency | MissingDependency
| DependencyCycle | DuplicateAppliedRecord | UnknownAppliedMigration | AppliedDependencyMissing.

Record MigrationValidationError : Set := validation_error {
  error_code : ValidationCode;
  error_app_label : str;
  error_name : str;
  error_message : str }.

(** The label of a migration in messages. *)
Definition dotted (k : MigrationKey) : str := k.1 ++ b#"." ++ k.2.

(** [migration_number]: the four digits before the first underscore. *)
Definition migration_number (name : str) : option str :=
  if bool_decide (nth_error name 4 = Some "_"%char) && forallb is_ascii_digit (firstn 4 name)
  then Some (firstn 4 name) else None.

(** ** Loaded migrations *)

Record Loaded : Set := loaded {
  seen_keys : BTreeSet MigrationKey;
  numbers : BTreeMap (str * str) str;
  load_errors : list MigrationValidationError }.

Definition check_loaded (st : Loaded) (m : MigrationSpec) : Loaded :=
  let problem code message := validation_error code (app_label m) (name m) message in
  let empty_label :=
    if bool_decide (app_label m = [])
    then [problem EmptyAppLabel (b#"Migration " ++ name m ++ b#" has an empty app label")] else [] in
  let empty_name :=
    if bool_decide (name m = [])
    then [problem EmptyName (b#"Migration " ++ app_label m ++ b#" has an empty name")] else [] in
  let duplicate :=
    if smem (key m) (seen_keys st)
    then [problem DuplicateMigration (b#"Migration " ++ dotted (key m) ++ b#" is defined more than once")] else [] in
  let '(numbers, clash) :=
    match migration_number (name m) with
    | None => (numbers st, [])
    | Some number =>
        match mget (app_label m, number) (numbers st) with
        | Some existing =>
            (numbers st,
             if bool_decide (existing = name m) then []
             else [problem DuplicateMigrationNumber
                     (b#"Migration " ++ dotted (key m) ++ b#" uses the same number as " ++ dotted (app_label m, existing))])
        | None => (mins (app_label m, number) (name m) (numbers st), [])
        end
    end in
  loaded (sins (key m) (seen_keys st)) numbers (load_errors st ++ empty_label ++ empty_name ++ duplicate ++ clash).

Definition validate_loaded_migrations (graph : MigrationGraph)
    : BTreeSet MigrationKey * list MigrationValidationError :=
  let st := fold_left check_loaded (migrations graph) (loaded [] [] []) in
  (seen_keys st, load_errors st).

(** ** Dependencies *)

Definition check_dependency (keys : BTreeSet MigrationKey) (m : MigrationSpec) (d : MigrationDependencySpec)
    : list MigrationValidationError :=
  if bool_decide (dependency_key d = key m)
  then [validation_error SelfDependency (app_label m) (name m) (b#"Migration " ++ dotted (key m) ++ b#" depends on itself")]
  else if negb (smem (dependency_key d) keys)
  then [validation_error MissingDependency (app_label m) (name m)
          (b#"Migration " ++ dotted (key m) ++ b#" depends on " ++ dotted (dependency_key d) ++ b#" which does not exist")]
  else [].

Definition validate_dependencies (graph : MigrationGraph) (keys : BTreeSet MigrationKey) : list MigrationValidationError :=
  concat (map (fun m => concat (map (check_dependency keys m) (dependencies m))) (migrations graph)).

(** ** Cycles *)

Definition MAX_CYCLE_DIAGNOSTIC_PATH_BYTES : Z := 16 * 1024 * 1024.
Definition MAX_CYCLE_DIAGNOSTIC_PATHS : Z := 65536.
Definition CYCLE_PATH_SEPARATOR : str := b#" -> ".

Definition usize_max : Z := 2 ^ 64 - 1.
Definition saturating_add (a b : Z) : Z := Z.min (a + b) usize_max.
Definition len (s : str) : Z := Z.of_nat (length s).

Inductive VisitState : Set := Visiting | Done.

Record CycleDiagnosticBudget : Set := diagnostic_budget {
  remaining_path_bytes : Z;
  remaining_paths : Z;
  exhausted : bool }.

Definition CycleDiagnosticBudget_new : CycleDiagnosticBudget :=
  diagnostic_budget MAX_CYCLE_DIAGNOSTIC_PATH_BYTES MAX_CYCLE_DIAGNOSTIC_PATHS false.

Definition reserve (budget : CycleDiagnosticBudget) (path_bytes : Z) : bool * CycleDiagnosticBudget :=
  if exhausted budget || (remaining_paths budget =? 0) || (remaining_path_bytes budget <? path_bytes)
  then (false, diagnostic_budget (remaining_path_bytes budget) (remaining_paths budget) true)
  else (true, diagnostic_budget (remaining_path_bytes budget - path_bytes) (remaining_paths budget - 1) false).

(** [stack] is in the order of the [Vec]: its top is last. *)
Record CycleTraversal : Set := cycle_traversal {
  state : BTreeMap MigrationKey VisitState;
  stack : list MigrationKey;
  stack_positions : BTreeMap MigrationKey nat;
  reported_backedges : BTreeSet (MigrationKey * MigrationKey);
  reported_paths : BTreeSet str;
  budget : CycleDiagnosticBudget }.

Definition CycleTraversal_new : CycleTraversal := cycle_traversal [] [] [] [] [] CycleDiagnosticBudget_new.

Definition migration_key_display_bytes (k : MigrationKey) : Z := saturating_add (saturating_add (len k.1) 1) (len k.2).

Definition cycle_path_bytes (nodes : list MigrationKey) (repeated : MigrationKey) : Z :=
  fold_left (fun bytes k => saturating_add (saturating_add bytes (migration_key_display_bytes k)) (len CYCLE_PATH_SEPARATOR))
    nodes (migration_key_display_bytes repeated).

Definition cycle_path (nodes : list MigrationKey) (repeated : MigrationKey) : str :=
  concat (map (fun k => dotted k ++ CYCLE_PATH_SEPARATOR) nodes) ++ dotted repeated.

Definition report_cycle (k : MigrationKey) (t : CycleTraversal) (errors : list MigrationValidationError)
    : CycleTraversal * list MigrationValidationError :=
  if exhausted (budget t) then (t, errors) else
  match mget k (stack_positions t), last (stack t) with
  | Some start, Some current =>
      if smem (current, k) (reported_backedges t) then (t, errors) else
      let backedges := sins (current, k) (reported_backedges t) in
      let nodes := skipn start (stack t) in
      let '(granted, b) := reserve (budget t) (cycle_path_bytes nodes k) in
      let with_paths paths := cycle_traversal (state t) (stack t) (stack_positions t) backedges paths b in
      if negb granted
      then (with_paths (reported_paths t),
            errors ++ [validation_error DependencyCycle k.1 k.2
              b#"Migration dependency cycle detected; additional cycle paths omitted after the bounded 16777216-byte / 65536-path diagnostic budget was exhausted"])
      else
        let message_path := cycle_path nodes k in
        if smem message_path (reported_paths t) then (with_paths (reported_paths t), errors)
        else (with_paths (sins message_path (reported_paths t)),
              errors ++ [validation_error DependencyCycle k.1 k.2 (b#"Migration dependency cycle detected: " ++ message_path)])
  | _, _ => (t, errors)
  end.

(** Entering an unseen node, and leaving a node whose dependencies are exhausted. *)
Definition enter (k : MigrationKey) (t : CycleTraversal) : CycleTraversal :=
  cycle_traversal (mins k Visiting (state t)) (stack t ++ [k]) (mins k (length (stack t)) (stack_positions t))
    (reported_backedges t) (reported_paths t) (budget t).

Definition leave (k : MigrationKey) (t : CycleTraversal) : CycleTraversal :=
  cycle_traversal (mins k Done (state t)) (removelast (stack t)) (mdel k (stack_positions t))
    (reported_backedges t) (reported_paths t) (budget t).

(** The loop of [detect_cycle] over its frames, the top frame first. *)
Fixpoint traverse (fuel : nat) (adjacency : BTreeMap MigrationKey (list MigrationKey))
    (frames : list (MigrationKey * nat)) (t : CycleTraversal) (errors : list MigrationValidationError)
    : option (CycleTraversal * list MigrationValidationError) :=
  match fuel with
  | O => None
  | S fuel =>
      match frames with
      | [] => Some (t, errors)
      | (k, next_dependency) :: frames =>
          match mget k adjacency ≫= fun ds => ds !! next_dependency with
          | Some dependency =>
              let frames := (k, S next_dependency) :: frames in
              match mget dependency (state t) with
              | Some Done => traverse fuel adjacency frames t errors
              | Some Visiting =>
                  let '(t, errors) := report_cycle dependency t errors in traverse fuel adjacency frames t errors
              | None => traverse fuel adjacency ((dependency, O) :: frames) (enter dependency t) errors
              end
          | None => traverse fuel adjacency frames (leave k t) errors
          end
      end
  end.

Definition traversal_fuel (adjacency : BTreeMap MigrationKey (list MigrationKey)) : nat :=
  S (length adjacency + length (concat (mvals adjacency))).

Definition detect_cycle (k : MigrationKey) (adjacency : BTreeMap MigrationKey (list MigrationKey))
    (t : CycleTraversal) (errors : list MigrationValidationError)
    : option (CycleTraversal * list MigrationValidationError) :=
  match mget k (state t) with
  | Some Done => Some (t, errors)
  | Some Visiting => Some (report_cycle k t errors)
  | None => traverse (traversal_fuel adjacency) adjacency [(k, O)] (enter k t) errors
  end.

Fixpoint detect_cycles (keys : list MigrationKey) (adjacency : BTreeMap MigrationKey (list MigrationKey))
    (t : CycleTraversal) (errors : list MigrationValidationError) : option (list MigrationValidationError) :=
  match keys with
  | [] => Some errors
  | k :: keys =>
      match detect_cycle k adjacency t errors with
      | Some (t, errors) => detect_cycles keys adjacency t errors
      | None => None
      end
  end.

Definition adjacency_of (graph : MigrationGraph) (keys : BTreeSet MigrationKey)
    : BTreeMap MigrationKey (list MigrationKey) :=
  mof (map (fun m => (key m, base.filter (fun d => smem d keys = true) (map dependency_key (dependencies m))))
         (migrations graph)).

Definition validate_cycles (graph : MigrationGraph) (keys : BTreeSet MigrationKey)
    : option (list MigrationValidationError) :=
  let adjacency := adjacency_of graph keys in
  detect_cycles (mkeys adjacency) adjacency CycleTraversal_new [].

(** ** Applied records *)

Definition check_applied (keys : BTreeSet MigrationKey)
    (st : BTreeSet MigrationKey * list MigrationValidationError) (r : AppliedMigrationRecord)
    : BTreeSet MigrationKey * list MigrationValidationError :=
  let problem code message := validation_error code (applied_app_label r) (applied_name r) message in
  let duplicate :=
    if smem (record_key r) st.1
    then [problem DuplicateAppliedRecord (b#"Applied migration " ++ dotted (record_key r) ++ b#" is recorded more than once")]
    else [] in
  let unknown :=
    if negb (smem (record_key r) keys)
    then [problem UnknownAppliedMigration
            (b#"Applied migration " ++ dotted (record_key r) ++ b#" is not present in the loaded graph")] else [] in
  (sins (record_key r) st.1, st.2 ++ duplicate ++ unknown).

Definition check_applied_dependency (keys applied_keys : BTreeSet MigrationKey) (m : MigrationSpec)
    (d : MigrationDependencySpec) : list MigrationValidationError :=
  if smem (dependency_key d) keys && negb (smem (dependency_key d) applied_keys)
  then [validation_error AppliedDependencyMissing (app_label m) (name m)
          (b#"Applied migration " ++ dotted (key m) ++ b#" depends on unapplied migration " ++ dotted (dependency_key d))]
  else [].

Definition validate_applied_records (graph : MigrationGraph) (applied : list AppliedMigrationRecord)
    (keys : BTreeSet MigrationKey) : list MigrationValidationError :=
  let '(applied_keys, errors) := fold_left (check_applied keys) applied ([], []) in
  errors ++ concat (map (fun m =>
    if smem (key m) applied_keys then concat (map (check_applied_dependency keys applied_keys m) (dependencies m)) else [])
    (migrations graph)).

Definition validate_graph (graph : MigrationGraph) (applied : list AppliedMigrationRecord)
    : option (list MigrationValidationError) :=
  let '(keys, loading) := validate_loaded_migrations graph in
  match validate_cycles graph keys with
  | None => None
  | Some cycles => Some (loading ++ validate_dependencies graph keys ++ cycles ++ validate_applied_records graph applied keys)
  end.

(** ** Checksums *)

Record ChecksumDrift : Set := checksum_drift {
  drift_app_label : str;
  drift_name : str;
  stored_checksum : str;
  current_checksum : option str;
  drift_message : str }.

Definition check_record (current_by_key : BTreeMap MigrationKey (option str)) (r : AppliedMigrationRecord)
    : list ChecksumDrift :=
  let label := b#"Applied migration " ++ dotted (record_key r) in
  let drift current message :=
    [checksum_drift (applied_app_label r) (applied_name r) (applied_checksum r) current (label ++ message)] in
  match mget (record_key r) current_by_key with
  | None => drift None b#" is not present in the loaded graph"
  | Some (Some current) =>
      if bool_decide (current = applied_checksum r) then []
      else drift (Some current) (b#" checksum drifted: stored " ++ applied_checksum r ++ b#", current " ++ current)
  | Some None => drift None b#" has no current checksum"
  end.

Definition checksum_drift_errors (graph : MigrationGraph) (applied : list AppliedMigrationRecord) : list ChecksumDrift :=
  let current_by_key := mof (map (fun m => (key m, checksum m)) (migrations graph)) in
  concat (map (check_record current_by_key) applied).

Definition check_checksum_drift (graph : MigrationGraph) (applied : list AppliedMigrationRecord)
    : result ChecksumDrift () :=
  match last (checksum_drift_errors graph applied) with
  | Some drift => Err drift
  | None => Ok tt
  end.

(** ** The cycle search *)

Section search.
Context (adjacency : BTreeMap MigrationKey (list MigrationKey)).

Definition edge (a b : MigrationKey) : Prop := exists ds, mget a adjacency = Some ds /\ b ∈ ds.

(** Every node after its dependencies. *)
Definition dependency_order (order : list MigrationKey) : Prop :=
  forall pre x post, order = pre ++ x :: post -> forall d, edge x d -> d ∈ pre.

Lemma dependency_order_snoc order x :
  dependency_order order -> (forall d, edge x d -> d ∈ order) -> dependency_order (order ++ [x]).
Proof using Type.
  intros Ho Hx pre y post E d Hd. destruct post as [|z post _] using rev_ind.
  - apply app_inj_tail in E as [-> ->]. by apply Hx.
  - rewrite app_comm_cons, app_assoc in E. apply app_inj_tail in E as [-> ->]. by eapply Ho.
Qed.

Lemma dependency_order_closed order x d : dependency_order order -> x ∈ order -> edge x d -> d ∈ order.
Proof using Type.
  intros Ho (pre & post & ->)%list_elem_of_split Hd. apply elem_of_app. left. by eapply Ho.
Qed.

Lemma tc_first a b : tc edge a b -> exists d, edge a d /\ rtc edge d b.
Proof using Type. intros [a' b' H|a' c b' H H2]; eauto using rtc_refl, tc_rtc. Qed.

Lemma dependency_order_acyclic order x : dependency_order order -> x ∈ order -> ~ tc edge x x.
Proof using Type.
  revert x. induction order as [|y order IH] using rev_ind; intros x Ho Hx; [by apply not_elem_of_nil in Hx|].
  assert (dependency_order order) as Hl.
  { intros pre z post -> d Hd. apply (Ho pre z (post ++ [y])); [by rewrite <- app_assoc|done]. }
  destruct (decide (x ∈ order)) as [Hin|Hout]; [by apply IH|].
  assert (x = y) as -> by (apply elem_of_app in Hx as [?|?%list_elem_of_singleton]; done).
  assert (forall a b, a ∈ order -> rtc edge a b -> b ∈ order) as Hstay.
  { intros a b Ha Hab. induction Hab as [a|a c b Hac _ IHc]; [done|]. apply IHc. by eapply dependency_order_closed. }
  intros (d & Hd & Hr)%tc_first. apply Hout, (Hstay d); [|done]. by apply (Ho order y []).
Qed.

(** ** The invariant of the search *)

(** The stack is a path. *)
Definition linked (path : list MigrationKey) : Prop :=
  forall i a b, path !! i = Some a -> path !! S i = Some b -> edge a b.

Lemma linked_reaches path i j a b : linked path -> path !! i = Some a -> path !! j = Some b -> (i <= j)%nat -> rtc edge a b.
Proof using Type.
  intros Hp Hi Hj Hle. revert b Hj. induction Hle as [|j Hle IH]; intros b Hj.
  - rewrite Hi in Hj. injection Hj as ->. apply rtc_refl.
  - destruct (lookup_lt_is_Some_2 path j) as [c Hc]; [apply lookup_lt_Some in Hj; lia|].
    eapply rtc_r; [by apply IH|]. by eapply Hp.
Qed.

(** The dependencies a frame has passed are in the order, except the one whose
    frame is above it. *)
Fixpoint passed (order : list MigrationKey) (child : option MigrationKey) (frames : list (MigrationKey * nat)) : Prop :=
  match frames with
  | [] => True
  | (k, n) :: frames =>
      (forall ds i d, mget k adjacency = Some ds -> (i < n)%nat -> ds !! i = Some d -> d ∈ order \/ Some d = child) /\
      passed order (Some k) frames
  end.

Lemma passed_mono order order' child frames : order ⊆ order' -> passed order child frames -> passed order' child frames.
Proof using Type.
  intros Hs. revert child. induction frames as [|[k n] frames IH]; intros child; cbn; [done|]. intros [H Hf].
  split; [|by apply IH]. intros ds i d Hd Hi Hl. destruct (H ds i d Hd Hi Hl) as [?|?]; [left; by apply Hs|by right].
Qed.

(** The node above has been left. *)
Lemma passed_leave order k frames : passed order (Some k) frames -> passed (order ++ [k]) None frames.
Proof using Type.
  destruct frames as [|[k' n] frames]; cbn; [done|]. intros [H Hf]. split.
  - intros ds i d Hd Hi Hl. left. apply elem_of_app. destruct (H ds i d Hd Hi Hl) as [?|[= ->]]; [by left|right; set_solver].
  - eapply passed_mono; [|exact Hf]. set_solver.
Qed.

Definition unreported (t : CycleTraversal) : Prop :=
  reported_backedges t = [] /\ reported_paths t = [] /\ exhausted (budget t) = false.

Record searching (frames : list (MigrationKey * nat)) (t : CycleTraversal) (errors : list MigrationValidationError)
    : Prop := {
  se_frames : map fst frames = rev (stack t);
  se_visiting : forall k, mget k (state t) = Some Visiting <-> k ∈ stack t;
  se_nodup : NoDup (stack t);
  se_positions : forall k i, mget k (stack_positions t) = Some i <-> stack t !! i = Some k;
  se_linked : linked (stack t);
  se_known : forall k, k ∈ stack t -> is_Some (mget k adjacency);
  se_sound : Forall (fun e => error_code e = DependencyCycle /\
    tc edge (error_app_label e, error_name e) (error_app_label e, error_name e)) errors;
  se_order : errors = [] -> unreported t /\ exists order,
    (forall k, mget k (state t) = Some Done <-> k ∈ order) /\ dependency_order order /\ passed order None frames }.

(** ** Steps of the search *)

Lemma report_frame d t errors :
  state (report_cycle d t errors).1 = state t /\ stack (report_cycle d t errors).1 = stack t /\
  stack_positions (report_cycle d t errors).1 = stack_positions t.
Proof using Type.
  unfold report_cycle. destruct (exhausted (budget t)); [done|]. destruct (mget d _), (last (stack t)); try done.
  destruct (smem _ (reported_backedges t)); [done|]. destruct (reserve _ _) as [[] b]; cbn [negb]; [|done].
  by destruct (smem _ (reported_paths t)).
Qed.

Lemma report_errors d t errors :
  exists new, (report_cycle d t errors).2 = errors ++ new /\
    Forall (fun e => error_code e = DependencyCycle /\ (error_app_label e, error_name e) = d) new.
Proof using Type.
  assert (forall m, Forall (fun e => error_code e = DependencyCycle /\ (error_app_label e, error_name e) = d)
    [validation_error DependencyCycle d.1 d.2 m]) as Hone by (intros m; constructor; [by destruct d|constructor]).
  assert (exists new, errors = errors ++ new /\
    Forall (fun e => error_code e = DependencyCycle /\ (error_app_label e, error_name e) = d) new) as Hnone
    by (exists []; by rewrite app_nil_r).
  unfold report_cycle. destruct (exhausted (budget t)); [done|]. destruct (mget d _), (last (stack t)); try done.
  destruct (smem _ (reported_backedges t)); [done|]. destruct (reserve _ _) as [[] b]; cbn [negb]; [|by eexists].
  destruct (smem _ (reported_paths t)); [done|by eexists].
Qed.

(** The first cycle found is reported. *)
Lemma report_first d t i k :
  unreported t -> mget d (stack_positions t) = Some i -> last (stack t) = Some k -> (report_cycle d t []).2 <> [].
Proof using Type.
  intros (Hb & Hp & He) Hi Hk. unfold report_cycle. rewrite He, Hi, Hk, Hb, Hp. cbn [smem existsb].
  by destruct (reserve _ _) as [[] b].
Qed.

Lemma last_frame k n frames t errors : searching ((k, n) :: frames) t errors -> last (stack t) = Some k.
Proof using Type.
  intros [Hf _ _ _ _ _ _ _]. cbn in Hf. rewrite <- (rev_involutive (stack t)), <- Hf. cbn. by rewrite last_snoc.
Qed.

Lemma report_searching k n frames t errors ds d :
  searching ((k, n) :: frames) t errors -> mget k adjacency = Some ds -> ds !! n = Some d ->
  mget d (state t) = Some Visiting ->
  searching ((k, S n) :: frames) (report_cycle d t errors).1 (report_cycle d t errors).2.
Proof using Type.
  intros Hs Hk Hd Hv. pose proof (last_frame _ _ _ _ _ Hs) as Hlast. pose proof Hs as [H1 H2 H3 H4 H5 H6 H7 H8].
  destruct (report_frame d t errors) as (Es & Est & Ep).
  destruct (report_errors d t errors) as (new & En & Hnew).
  assert (edge k d) as Hkd by (exists ds; split; [done|by eapply list_elem_of_lookup_2]).
  pose proof (proj1 (H2 d) Hv) as Hin. apply list_elem_of_lookup in Hin as [i Hi].
  assert (tc edge d d) as Hcycle.
  { rewrite last_lookup in Hlast. eapply tc_rtc_l; [|by apply tc_once].
    eapply (linked_reaches (stack t) i (pred (length (stack t)))); [done|done|done|]. apply lookup_lt_Some in Hi. lia. }
  split; rewrite ?Es, ?Est, ?Ep; try done.
  - rewrite En. apply Forall_app. split; [done|]. eapply Forall_impl; [exact Hnew|]. by intros e [? ->].
  - intros E. exfalso. rewrite En in E. apply app_eq_nil in E as [-> ->].
    apply (report_first d t i k); [by apply H8|by apply H4|done|]. by rewrite En.
Qed.

Lemma pass_searching k n frames t errors ds d :
  searching ((k, n) :: frames) t errors -> mget k adjacency = Some ds -> ds !! n = Some d ->
  mget d (state t) = Some Done -> searching ((k, S n) :: frames) t errors.
Proof using Type.
  intros [H1 H2 H3 H4 H5 H6 H7 H8] Hk Hd Hv. split; try done. intros E. destruct (H8 E) as [Hu (order & Ho & Ht & Hp & Hf)].
  split; [done|]. exists order. split_and!; [done|done|split; [|done]]. intros ds' i x Hds Hi Hx.
  rewrite Hk in Hds. injection Hds as <-. destruct (decide (i = n)) as [->|Hne].
  - left. apply Ho. rewrite Hd in Hx. by injection Hx as <-.
  - apply (Hp ds i x); [done|lia|done].
Qed.

Lemma lookup_snoc_iff {A} (l : list A) x i y : (l ++ [x]) !! i = Some y <-> l !! i = Some y \/ i = length l /\ y = x.
Proof using Type.
  rewrite lookup_app_Some, list_lookup_singleton_Some. split.
  - intros [?|(Hi & Hz & <-)]; [by left|right; split; [lia|done]].
  - intros [?|[-> ->]]; [by left|right]. split; [lia|]. split; [lia|done].
Qed.

Lemma enter_stack frames t errors d :
  searching frames t errors -> mget d (state t) = None -> is_Some (mget d adjacency) ->
  (forall k, last (stack t) = Some k -> edge k d) ->
  let t' := enter d t in
  (forall k, mget k (state t') = Some Visiting <-> k ∈ stack t') /\ NoDup (stack t') /\
  (forall k i, mget k (stack_positions t') = Some i <-> stack t' !! i = Some k) /\
  linked (stack t') /\ forall k, k ∈ stack t' -> is_Some (mget k adjacency).
Proof using Type.
  intros [_ H2 H3 H4 H5 H6 _ _] Hd Hk Hlast t'. unfold t', enter. cbn [state stack stack_positions].
  assert (d ∉ stack t) as Hnew by (rewrite <- H2; congruence). split_and!.
  - intros k. rewrite mget_mins, elem_of_app, list_elem_of_singleton, <- H2.
    destruct (oeqb_spec d k) as [->|Hne]; [naive_solver|]. split; [by left|]. intros [?| ->]; done.
  - apply NoDup_app. split_and!; [done| |apply NoDup_singleton]. by intros x Hx ->%list_elem_of_singleton.
  - intros k i. rewrite mget_mins, lookup_snoc_iff, <- H4. destruct (oeqb_spec d k) as [->|Hne].
    + split; [by intros [= <-]; right|]. intros [Hi%H4|[-> _]]; [|done]. by apply list_elem_of_lookup_2 in Hi.
    + split; [by left|]. intros [?|[_ ->]]; done.
  - intros i a b [Ha|[-> ->]]%lookup_snoc_iff [Hb|[Ei ->]]%lookup_snoc_iff; [by eapply H5| |by apply lookup_lt_Some in Hb; lia|lia].
    apply Hlast. rewrite last_lookup, <- Ei. done.
  - intros k [Hin| ->%list_elem_of_singleton]%elem_of_app; [by apply H6|done].
Qed.

Lemma enter_searching k n frames t errors ds d :
  searching ((k, n) :: frames) t errors -> mget k adjacency = Some ds -> ds !! n = Some d ->
  mget d (state t) = None -> is_Some (mget d adjacency) ->
  searching ((d, O) :: (k, S n) :: frames) (enter d t) errors.
Proof using Type.
  intros Hs Hk Hd Hv Hdk. assert (d ∈ ds) as Hin by (by eapply list_elem_of_lookup_2).
  destruct (enter_stack _ _ _ d Hs Hv) as (E2 & E3 & E4 & E5 & E6); [done| |].
  { rewrite (last_frame _ _ _ _ _ Hs). intros k' [= <-]. by exists ds. }
  destruct Hs as [H1 H2 H3 H4 H5 H6 H7 H8]. split; try done.
  - cbn [enter stack]. rewrite rev_app_distr. cbn. f_equal. exact H1.
  - intros E. destruct (H8 E) as [Hu (order & Ho & Ht & Hp & Hf)]. split; [done|]. exists order. split_and!; [|done|].
    + intros x. cbn [enter state]. rewrite mget_mins. destruct (oeqb_spec d x) as [->|Hne]; [|done]. rewrite <- Ho. naive_solver.
    + cbn. split; [lia|]. split; [|done]. intros ds' i x Hds Hi Hx. rewrite Hk in Hds. injection Hds as <-.
      destruct (decide (i = n)) as [->|Hne]; [right; congruence|].
      destruct (Hp ds i x Hk ltac:(lia) Hx) as [?|?]; [by left|done].
Qed.

(** The first node of a component. *)
Lemma root_searching k t errors :
  searching [] t errors -> mget k (state t) = None -> is_Some (mget k adjacency) -> searching [(k, O)] (enter k t) errors.
Proof using Type.
  intros Hs Hv Hk. assert (stack t = []) as Hst.
  { destruct Hs as [H1 _ _ _ _ _ _ _]. cbn in H1. by rewrite <- (rev_involutive (stack t)), <- H1. }
  destruct (enter_stack _ _ _ k Hs Hv Hk) as (E2 & E3 & E4 & E5 & E6); [by rewrite Hst|].
  destruct Hs as [H1 H2 H3 H4 H5 H6 H7 H8]. split; try done.
  - cbn [enter stack]. by rewrite Hst.
  - intros E. destruct (H8 E) as [Hu (order & Ho & Ht & _)]. split; [done|]. exists order. split_and!; [|done|by split; [lia|]].
    intros x. cbn [enter state]. rewrite mget_mins. destruct (oeqb_spec k x) as [->|Hne]; [|done]. rewrite <- Ho. naive_solver.
Qed.

Lemma leave_searching k n frames t errors :
  searching ((k, n) :: frames) t errors -> (mget k adjacency ≫= fun ds => ds !! n) = None ->
  searching frames (leave k t) errors.
Proof using Type.
  intros Hs Hnone. pose proof (last_frame _ _ _ _ _ Hs) as Hlast. destruct Hs as [H1 H2 H3 H4 H5 H6 H7 H8].
  destruct (stack t) as [|x path _] eqn:Est using rev_ind; [done|]. rewrite last_snoc in Hlast. injection Hlast as ->.
  assert (k ∉ path) as Hk by (apply NoDup_app in H3 as (_ & H & _); intros Hin; apply (H k Hin); set_solver).
  assert (removelast (stack t) = path) as Hpop by (rewrite Est; apply removelast_last).
  split; cbn [leave stack state stack_positions]; rewrite ?Hpop; try done.
  - cbn in H1. rewrite rev_app_distr in H1. by injection H1.
  - intros x. rewrite mget_mins. specialize (H2 x). rewrite elem_of_app, list_elem_of_singleton in H2.
    destruct (oeqb_spec k x) as [->|Hne]; [naive_solver|]. rewrite H2. naive_solver.
  - by apply NoDup_app in H3 as (H & _).
  - intros x i. rewrite mget_mdel. specialize (H4 x i). rewrite lookup_snoc_iff in H4.
    destruct (oeqb_spec k x) as [->|Hne]; [split; [done|by intros ?%list_elem_of_lookup_2]|]. rewrite H4. naive_solver.
  - intros i a b Ha Hb. apply (H5 i); by apply lookup_app_l_Some.
  - intros x Hx. apply H6, elem_of_app. by left.
  - intros E. destruct (H8 E) as [Hu (order & Ho & Ht & Hp & Hf)]. split; [done|]. exists (order ++ [k]). split_and!.
    + intros x. rewrite mget_mins, elem_of_app, list_elem_of_singleton, <- Ho. destruct (oeqb_spec k x); naive_solver.
    + apply dependency_order_snoc; [done|]. intros d (ds & Hds & [i Hi]%list_elem_of_lookup).
      destruct (Hp ds i d Hds) as [?|?]; [|done|done|done]. rewrite Hds in Hnone. cbn in Hnone.
      apply lookup_ge_None in Hnone. apply lookup_lt_Some in Hi. lia.
    + by apply passed_leave.
Qed.

(** ** Fuel *)

(** The iterations left: an unseen node costs one and its dependencies, a frame one
    and the dependencies it has not passed. *)
Definition degree (k : MigrationKey) : nat := length (default [] (mget k adjacency)).

Definition unseen_cost (entries : BTreeMap MigrationKey (list MigrationKey)) (st : BTreeMap MigrationKey VisitState) : nat :=
  sum_list (map (fun e => if mmem e.1 st then O else S (length e.2)) entries).

Definition frames_cost (frames : list (MigrationKey * nat)) : nat :=
  sum_list (map (fun f => S (degree f.1 - f.2)) frames).

Lemma unseen_le entries st : (unseen_cost entries st <= length entries + length (concat (mvals entries)))%nat.
Proof using Type.
  unfold unseen_cost, mvals. induction entries as [|[k ds] entries IH]; cbn in *; [lia|]. rewrite length_app.
  destruct (mmem k st); lia.
Qed.

Lemma unseen_other entries st k v :
  (forall ds, (k, ds) ∈ entries -> mmem k st = true) -> unseen_cost entries (mins k v st) = unseen_cost entries st.
Proof using Type.
  unfold unseen_cost. induction entries as [|[k' ds] entries IH]; intros H; [done|]. cbn.
  rewrite IH by (intros ds' Hin; apply (H ds'); by apply list_elem_of_further).
  assert (mmem k' (mins k v st) = mmem k' st) as ->; [|done].
  unfold mmem. rewrite mget_mins. destruct (oeqb_spec k k') as [->|Hne]; [|done].
  specialize (H ds ltac:(apply list_elem_of_here)). unfold mmem in H. by destruct (mget k' st).
Qed.

Lemma unseen_enter entries st k ds v :
  ssorted (map fst entries) -> (k, ds) ∈ entries -> mmem k st = false ->
  (unseen_cost entries (mins k v st) + S (length ds))%nat = unseen_cost entries st.
Proof using Type.
  intros Hn%ssorted_NoDup Hin Hk. induction entries as [|[k' ds'] entries IH]; [by apply not_elem_of_nil in Hin|].
  cbn in Hn. apply NoDup_cons in Hn as [Hk' Hn]. apply elem_of_cons in Hin as [[= <- <-]|Hin].
  - assert (unseen_cost entries (mins k v st) = unseen_cost entries st) as E.
    { apply unseen_other. intros ds' Hin'. exfalso. apply Hk'. change k with (k, ds').1. by apply list_elem_of_fmap_2. }
    unfold unseen_cost in *. cbn. rewrite E, Hk. unfold mmem. rewrite mget_mins_eq. lia.
  - specialize (IH Hn Hin). unfold unseen_cost in *. cbn.
    assert (k <> k') as Hne by (intros ->; apply Hk'; change k' with (k', ds).1; by apply list_elem_of_fmap_2).
    unfold mmem at 1 3. rewrite (mget_mins_ne k k' v st Hne). lia.
Qed.

Context (Hsorted : msorted adjacency).
Context (Hclosed : forall k ds d, mget k adjacency = Some ds -> d ∈ ds -> is_Some (mget d adjacency)).

Lemma seen_mins k v (st : BTreeMap MigrationKey VisitState) x : mmem x st = true -> mmem x (mins k v st) = true.
Proof using Type. unfold mmem. rewrite mget_mins. by destruct (oeqb k x). Qed.

(** The search comes to an end with every node it has seen left. *)
Lemma traverse_searching fuel frames t errors :
  searching frames t errors -> (unseen_cost adjacency (state t) + frames_cost frames < fuel)%nat ->
  exists t' errors', traverse fuel adjacency frames t errors = Some (t', errors') /\ searching [] t' errors' /\
    forall k, mmem k (state t) = true -> mmem k (state t') = true.
Proof using Hsorted Hclosed.
  revert frames t errors. induction fuel as [|fuel IH]; intros frames t errors Hs Hf; [lia|].
  destruct frames as [|[k n] frames]; [by exists t, errors|]. cbn [traverse].
  destruct (mget k adjacency ≫= fun ds => ds !! n) as [d|] eqn:Ed.
  - destruct (mget k adjacency) as [ds|] eqn:Ek; [|done]. cbn in Ed.
    assert (degree k = length ds) as Hdeg by (unfold degree; by rewrite Ek).
    assert (n < length ds)%nat as Hn by (by eapply lookup_lt_Some).
    destruct (mget d (state t)) as [[]|] eqn:Ev.
    + pose proof (report_searching _ _ _ _ _ _ _ Hs Ek Ed Ev) as Hs'. destruct (report_frame d t errors) as (Es & _ & _).
      destruct (report_cycle d t errors) as [t1 errors1]. cbn in Hs', Es. rewrite <- Es.
      apply IH; [done|]. rewrite Es. unfold frames_cost in *. cbn in Hf |- *. lia.
    + apply IH; [by apply (pass_searching _ _ _ _ _ ds d)|]. unfold frames_cost in *. cbn in Hf |- *. lia.
    + destruct (Hclosed k ds d Ek) as [ds' Ed']; [by eapply list_elem_of_lookup_2|].
      assert (mmem d (state t) = false) as Hun by (by apply mmem_false).
      pose proof (unseen_enter adjacency (state t) d ds' Visiting Hsorted (mget_In _ _ _ Ed') Hun) as Hcost.
      assert (degree d = length ds') as Hdeg' by (unfold degree; by rewrite Ed').
      destruct (IH ((d, O) :: (k, S n) :: frames) (enter d t) errors) as (t' & errors' & Hr & Hs' & Hseen).
      { by apply (enter_searching _ _ _ _ _ ds). }
      { cbn [enter state]. unfold frames_cost in *. cbn in Hf |- *. lia. }
      exists t', errors'. split_and!; [done|done|]. intros x Hx. apply Hseen. by apply seen_mins.
  - assert (k ∈ stack t) as Hk by (rewrite <- (rev_involutive (stack t)), <- (se_frames _ _ _ Hs); cbn; set_solver).
    pose proof (proj2 (se_visiting _ _ _ Hs k) Hk) as Hv.
    assert (unseen_cost adjacency (state (leave k t)) = unseen_cost adjacency (state t)) as Hcost.
    { cbn [leave state]. apply unseen_other. intros _ _. unfold mmem. by rewrite Hv. }
    destruct (IH frames (leave k t) errors) as (t' & errors' & Hr & Hs' & Hseen).
    { by eapply leave_searching. }
    { rewrite Hcost. unfold frames_cost in *. cbn in Hf |- *. lia. }
    exists t', errors'. split_and!; [done|done|]. intros x Hx. apply Hseen. by apply seen_mins.
Qed.

Lemma detect_searching k t errors :
  searching [] t errors -> is_Some (mget k adjacency) ->
  exists t' errors', detect_cycle k adjacency t errors = Some (t', errors') /\ searching [] t' errors' /\
    mmem k (state t') = true /\ forall x, mmem x (state t) = true -> mmem x (state t') = true.
Proof using Hsorted Hclosed.
  intros Hs Hk. unfold detect_cycle. destruct (mget k (state t)) as [[]|] eqn:Ev.
  - apply (proj1 (se_visiting _ _ _ Hs k)) in Ev. exfalso. rewrite <- (rev_involutive (stack t)), <- (se_frames _ _ _ Hs) in Ev.
    by apply not_elem_of_nil in Ev.
  - exists t, errors. split_and!; [done|done| |done]. unfold mmem. by rewrite Ev.
  - destruct Hk as [ds Hk]. assert (mmem k (state t) = false) as Hun by (by apply mmem_false).
    pose proof (unseen_enter adjacency (state t) k ds Visiting Hsorted (mget_In _ _ _ Hk) Hun) as Hcost.
    destruct (traverse_searching (traversal_fuel adjacency) [(k, O)] (enter k t) errors) as (t' & errors' & Hr & Hs' & Hseen).
    { by apply root_searching. }
    { unfold traversal_fuel, frames_cost. cbn [enter state map sum_list fst snd]. unfold degree. rewrite Hk. cbn [default].
      pose proof (unseen_le adjacency (state t)). unfold id. lia. }
    exists t', errors'. split_and!; [done|done| |intros x Hx; apply Hseen; by apply seen_mins].
    apply Hseen. cbn [enter state]. unfold mmem. by rewrite mget_mins_eq.
Qed.

Lemma detect_all keys t errors :
  searching [] t errors -> (forall k, k ∈ keys -> is_Some (mget k adjacency)) ->
  exists t' errors', detect_cycles keys adjacency t errors = Some errors' /\ searching [] t' errors' /\
    (forall k, k ∈ keys -> mmem k (state t') = true) /\ forall x, mmem x (state t) = true -> mmem x (state t') = true.
Proof using Hsorted Hclosed.
  revert t errors. induction keys as [|k keys IH]; intros t errors Hs Hk.
  { exists t, errors. split_and!; [done|done| |done]. by intros k ?%not_elem_of_nil. }
  cbn [detect_cycles]. destruct (detect_searching k t errors Hs) as (t1 & errors1 & -> & Hs1 & Hk1 & Hm1).
  { apply Hk, list_elem_of_here. }
  destruct (IH t1 errors1 Hs1) as (t2 & errors2 & Hr & Hs2 & Hk2 & Hm2); [intros x Hx; by apply Hk, list_elem_of_further|].
  exists t2, errors2. split_and!; [done|done| |by auto]. intros x [->|Hx]%elem_of_cons; by auto.
Qed.

Lemma search_starts : searching [] CycleTraversal_new [].
Proof using Type.
  assert (forall (P : Prop) (k : MigrationKey), k ∈ @nil MigrationKey -> P) as Hnil by (by intros P k ?%not_elem_of_nil).
  split; [done| |constructor|done|by intros i a b| |constructor|].
  - intros k. split; [done|apply Hnil].
  - intros k. apply Hnil.
  - intros _. split; [done|]. exists []. split_and!; [|by intros [] ? ? ?|done]. intros k. split; [done|apply Hnil].
Qed.

(** The search reports something exactly when there is a cycle, and only nodes on
    cycles. *)
Lemma detect_cycles_correct :
  exists errors, detect_cycles (mkeys adjacency) adjacency CycleTraversal_new [] = Some errors /\
    (errors = [] <-> forall k, ~ tc edge k k) /\
    Forall (fun e => error_code e = DependencyCycle /\
      tc edge (error_app_label e, error_name e) (error_app_label e, error_name e)) errors.
Proof using Hsorted Hclosed.
  destruct (detect_all (mkeys adjacency) CycleTraversal_new [] search_starts) as (t & errors & Hr & Hs & Hk & _).
  { intros k. apply mget_elem. }
  exists errors. split_and!; [done| |apply Hs]. split.
  - intros E k Hc. destruct (se_order _ _ _ Hs E) as [_ (order & Ho & Ht & _)].
    destruct (tc_first k k Hc) as (d & (ds & Hds & _) & _).
    apply (dependency_order_acyclic order k Ht); [|done]. apply Ho.
    assert (k ∈ mkeys adjacency) as Hin by (apply mget_elem; by eexists).
    specialize (Hk k Hin). unfold mmem in Hk. destruct (mget k (state t)) as [[]|] eqn:Ev; [|done|done].
    apply (se_visiting _ _ _ Hs) in Ev. rewrite <- (rev_involutive (stack t)), <- (se_frames _ _ _ Hs) in Ev.
    by apply not_elem_of_nil in Ev.
  - intros Hac. destruct errors as [|e errors]; [done|]. exfalso.
    pose proof (se_sound _ _ _ Hs) as Hsound. apply Forall_cons in Hsound as [[_ Hc] _]. by apply (Hac _ Hc).
Qed.

End search.

(** ** Loaded migrations *)

(** The number a migration claims in its application. *)
Definition number_of (m : MigrationSpec) : option (str * str) :=
  match migration_number (name m) with Some n => Some (app_label m, n) | None => None end.

Definition numbers_agree (numbers : BTreeMap (str * str) str) (m : MigrationSpec) : Prop :=
  forall q existing, number_of m = Some q -> mget q numbers = Some existing -> existing = name m.

Definition distinct_numbers (ms : list MigrationSpec) : Prop :=
  forall m m' q, m ∈ ms -> m' ∈ ms -> number_of m = Some q -> number_of m' = Some q -> name m = name m'.

Definition named (m : MigrationSpec) : Prop := app_label m <> [] /\ name m <> [].

Definition add_number (ns : BTreeMap (str * str) str) (m : MigrationSpec) : BTreeMap (str * str) str :=
  match number_of m with
  | Some q => if mmem q ns then ns else mins q (name m) ns
  | None => ns
  end.

(** One migration leaves no error exactly when it is named, new and its number free. *)
Lemma check_loaded_spec st m :
  seen_keys (check_loaded st m) = sins (key m) (seen_keys st) /\
  numbers (check_loaded st m) = add_number (numbers st) m /\
  (load_errors (check_loaded st m) = [] <->
   load_errors st = [] /\ named m /\ key m ∉ seen_keys st /\ numbers_agree (numbers st) m).
Proof.
  unfold check_loaded, add_number, numbers_agree, number_of, named.
  destruct (migration_number (name m)) as [n|].
  - unfold mmem. destruct (mget (app_label m, n) (numbers st)) as [existing|] eqn:Eg; cbn [seen_keys numbers load_errors];
      (split_and!; [done|done|]).
    + rewrite !app_nil. pose proof (smem_false (key m) (seen_keys st)).
      destruct (smem (key m) (seen_keys st)); repeat case_bool_decide; naive_solver.
    + rewrite !app_nil. pose proof (smem_false (key m) (seen_keys st)).
      destruct (smem (key m) (seen_keys st)); repeat case_bool_decide; naive_solver.
  - cbn [seen_keys numbers load_errors]. split_and!; [done|done|]. rewrite !app_nil.
    pose proof (smem_false (key m) (seen_keys st)). destruct (smem (key m) (seen_keys st)); repeat case_bool_decide; naive_solver.
Qed.

Lemma numbers_step ns m ms :
  (forall x, x ∈ m :: ms -> numbers_agree ns x) /\ distinct_numbers (m :: ms) <->
  numbers_agree ns m /\ (forall x, x ∈ ms -> numbers_agree (add_number ns m) x) /\ distinct_numbers ms.
Proof.
  assert (forall q v, mget q (add_number ns m) = Some v <-> mget q ns = Some v \/ mget q ns = None /\ number_of m = Some q /\ v = name m) as Hg.
  { intros q v. unfold add_number. destruct (number_of m) as [q'|]; [|naive_solver].
    unfold mmem. destruct (mget q' ns) as [v'|] eqn:E; [|rewrite mget_mins; destruct (oeqb_spec q' q) as [->|Hne]]; naive_solver. }
  split.
  - intros [Ha Hd]. split_and!; [apply Ha, list_elem_of_here| |].
    + intros x Hx q v Hq [Hv|(Hn & Hm & ->)]%Hg; [by apply (Ha x (list_elem_of_further _ _ _ Hx) q)|].
      apply (Hd m x q); [apply list_elem_of_here|by apply list_elem_of_further|done|done].
    + intros x y q Hx Hy. apply Hd; by apply list_elem_of_further.
  - intros (Hm & Ha & Hd). split.
    + intros x [->|Hx]%elem_of_cons; [done|]. intros q v Hq Hv. apply (Ha x Hx q v Hq). apply Hg. by left.
    + assert (forall x q, x ∈ ms -> number_of m = Some q -> number_of x = Some q -> name m = name x) as Hfirst.
      { intros x q Hx Hmq Hxq. destruct (mget q ns) as [v|] eqn:Ev.
        - rewrite <- (Hm q v Hmq Ev). apply (Ha x Hx q v Hxq). apply Hg. by left.
        - apply (Ha x Hx q (name m) Hxq). apply Hg. by right. }
      intros x y q [->|Hx]%elem_of_cons [->|Hy]%elem_of_cons Hxq Hyq; [done|by eapply Hfirst|symmetry; by eapply Hfirst|by eapply Hd].
Qed.

Lemma loaded_spec ms st :
  (forall k, k ∈ seen_keys (fold_left check_loaded ms st) <-> k ∈ seen_keys st \/ k ∈ map key ms) /\
  (load_errors (fold_left check_loaded ms st) = [] <->
   load_errors st = [] /\ Forall named ms /\ NoDup (map key ms) /\ (forall m, m ∈ ms -> key m ∉ seen_keys st) /\
   (forall m, m ∈ ms -> numbers_agree (numbers st) m) /\ distinct_numbers ms).
Proof.
  revert st. induction ms as [|m ms IH]; intros st.
  { cbn. split; [set_solver|]. split; [|by intros (? & _)]. intros ->. split_and!; [done|done|apply NoDup_nil_2|by intros ? ?%not_elem_of_nil..|by intros ? ? ? ?%not_elem_of_nil]. }
  cbn [fold_left map]. destruct (check_loaded_spec st m) as (Hs & Hn & He). destruct (IH (check_loaded st m)) as [IHk IHe].
  split; [intros k; rewrite IHk, Hs, elem_sins, elem_of_cons; tauto|]. rewrite IHe, He, Hs, Hn, Forall_cons, NoDup_cons.
  pose proof (numbers_step (numbers st) m ms) as Hnum.
  assert ((forall x, x ∈ ms -> key x ∉ sins (key m) (seen_keys st)) <->
    (forall x, x ∈ ms -> key x ∉ seen_keys st) /\ key m ∉ map key ms) as Hkeys.
  { setoid_rewrite elem_sins. split.
    - intros H. split; [intros x Hx Hin; apply (H x Hx); by right|]. intros Hin.
      apply (list_elem_of_fmap key) in Hin as (x & E & Hx). apply (H x Hx). by left.
    - intros [H Hm] x Hx [E|Hin]; [|by apply (H x Hx)]. apply Hm. rewrite <- E. by apply (list_elem_of_fmap_2 key). }
  assert ((forall x, x ∈ m :: ms -> key x ∉ seen_keys st) <-> key m ∉ seen_keys st /\ forall x, x ∈ ms -> key x ∉ seen_keys st) as Hcons.
  { setoid_rewrite elem_of_cons. naive_solver. }
  rewrite Hkeys, Hcons. tauto.
Qed.

(** ** Well-formed graphs *)

(** A migration and one of its dependencies. *)
Definition depends (graph : MigrationGraph) (a b : MigrationKey) : Prop :=
  exists m d, m ∈ migrations graph /\ d ∈ dependencies m /\ key m = a /\ dependency_key d = b.

(** Named migrations with distinct identities and numbers, dependencies that are
    loaded and acyclic, and applied records that are distinct, loaded and closed
    under dependencies. *)
Record graph_ok (graph : MigrationGraph) (applied : list AppliedMigrationRecord) : Prop := {
  go_named : Forall named (migrations graph);
  go_keys : NoDup (map key (migrations graph));
  go_numbers : distinct_numbers (migrations graph);
  go_loaded : forall a b, depends graph a b -> b ∈ map key (migrations graph);
  go_acyclic : forall k, ~ tc (depends graph) k k;
  go_records : NoDup (map record_key applied);
  go_known : forall r, r ∈ applied -> record_key r ∈ map key (migrations graph);
  go_closed : forall a b, depends graph a b -> a ∈ map record_key applied -> b ∈ map record_key applied }.

Lemma concat_map_nil {A B} (f : A -> list B) l : concat (map f l) = [] <-> forall x, x ∈ l -> f x = [].
Proof.
  induction l as [|x l IH]; cbn; [split; [by intros _ ? ?%not_elem_of_nil|done]|]. rewrite app_nil, IH.
  split; [intros [Hx Hl] y [->|Hy]%elem_of_cons; auto|]. intros H. split; [apply H, list_elem_of_here|].
  intros y Hy. by apply H, list_elem_of_further.
Qed.

Lemma validate_dependencies_iff graph keys :
  (forall k, k ∈ keys <-> k ∈ map key (migrations graph)) ->
  validate_dependencies graph keys = [] <-> forall a b, depends graph a b -> a <> b /\ b ∈ map key (migrations graph).
Proof.
  intros Hk. unfold validate_dependencies. rewrite concat_map_nil. setoid_rewrite concat_map_nil.
  assert (forall m d, check_dependency keys m d = [] <-> key m <> dependency_key d /\ dependency_key d ∈ map key (migrations graph)) as Hc.
  { intros m d. unfold check_dependency. rewrite <- Hk, <- smem_true.
    case_bool_decide as E; [split; [done|intros [E' _]; by rewrite E in E']|].
    destruct (smem (dependency_key d) keys); cbn; split; [|done|done|by intros [_ ?]].
    intros _. split; [|done]. intros E'. by apply E. }
  setoid_rewrite Hc. split; [intros H a b (m & d & Hm & Hd & <- & <-); by apply H|].
  intros H m Hm d Hd. apply H. by exists m, d.
Qed.

Lemma check_applied_fold keys records st :
  (forall k, k ∈ (fold_left (check_applied keys) records st).1 <-> k ∈ st.1 \/ k ∈ map record_key records) /\
  ((fold_left (check_applied keys) records st).2 = [] <->
   st.2 = [] /\ NoDup (map record_key records) /\ (forall r, r ∈ records -> record_key r ∉ st.1) /\
   forall r, r ∈ records -> record_key r ∈ keys).
Proof.
  revert st. induction records as [|r records IH]; intros st.
  { cbn. split; [set_solver|]. split; [|by intros (? & _)]. intros ->. split_and!; [done|apply NoDup_nil_2|by intros ? ?%not_elem_of_nil..]. }
  cbn [fold_left map]. destruct (IH (check_applied keys st r)) as [IHk IHe]. unfold check_applied in IHk, IHe |- *.
  cbn [fst snd] in IHk, IHe. split; [intros k; rewrite IHk, elem_sins, elem_of_cons; tauto|].
  rewrite IHe, !app_nil, NoDup_cons.
  assert ((if smem (record_key r) st.1 then [validation_error DuplicateAppliedRecord (applied_app_label r) (applied_name r)
    (b#"Applied migration " ++ dotted (record_key r) ++ b#" is recorded more than once")] else []) = [] <-> record_key r ∉ st.1) as ->.
  { rewrite <- smem_false. by destruct (smem (record_key r) st.1). }
  assert ((if negb (smem (record_key r) keys) then [validation_error UnknownAppliedMigration (applied_app_label r) (applied_name r)
    (b#"Applied migration " ++ dotted (record_key r) ++ b#" is not present in the loaded graph")] else []) = [] <-> record_key r ∈ keys) as ->.
  { rewrite <- smem_true. by destruct (smem (record_key r) keys). }
  assert (record_key r ∉ map record_key records <-> forall x, x ∈ records -> record_key x <> record_key r) as Hfresh.
  { rewrite (list_elem_of_fmap record_key). split; [intros H x Hx E; apply H; by exists x|]. intros H (x & E & Hx). by apply (H x Hx). }
  rewrite Hfresh. setoid_rewrite elem_sins. split.
  - intros ((He & Hr & Hi) & Hn & Hf & Hk). split_and!; [done|intros x Hx E; apply (Hf x Hx); by left|done| |].
    + intros x [->|Hx]%elem_of_cons; [done|]. intros Hin. apply (Hf x Hx). by right.
    + intros x [->|Hx]%elem_of_cons; auto.
  - intros (He & (Hf & Hn) & Hs & Hk). split_and!; [done|apply Hs, list_elem_of_here|apply Hk, list_elem_of_here|done| |].
    + intros x Hx [E|Hin]; [by apply (Hf x Hx)|]. by apply (Hs x); [apply list_elem_of_further|].
    + intros x Hx. by apply Hk, list_elem_of_further.
Qed.

Lemma validate_applied_records_iff graph applied keys :
  (forall k, k ∈ keys <-> k ∈ map key (migrations graph)) ->
  (forall a b, depends graph a b -> b ∈ map key (migrations graph)) ->
  validate_applied_records graph applied keys = [] <->
  NoDup (map record_key applied) /\ (forall r, r ∈ applied -> record_key r ∈ map key (migrations graph)) /\
  forall a b, depends graph a b -> a ∈ map record_key applied -> b ∈ map record_key applied.
Proof.
  intros Hk Hloaded. unfold validate_applied_records. destruct (check_applied_fold keys applied ([], [])) as [Ha He].
  destruct (fold_left _ applied _) as [applied_keys errors]. cbn [fst snd] in Ha, He. rewrite app_nil, He, concat_map_nil.
  assert (forall k, k ∈ applied_keys <-> k ∈ map record_key applied) as Ha' by (intros k; rewrite Ha; set_solver). clear Ha.
  assert (forall m d, m ∈ migrations graph -> d ∈ dependencies m -> check_applied_dependency keys applied_keys m d = [] <->
    dependency_key d ∈ map record_key applied) as Hc.
  { intros m d Hm Hd. unfold check_applied_dependency. rewrite <- Ha', <- smem_true.
    assert (smem (dependency_key d) keys = true) as -> by (apply smem_true, Hk, (Hloaded (key m)); by exists m, d).
    by destruct (smem (dependency_key d) applied_keys). }
  setoid_rewrite Hk. split.
  - intros [(_ & Hn & _ & Hin) Hd]. split_and!; [done|done|]. intros a b (m & d & Hm & Hdm & <- & <-) Hap.
    specialize (Hd m Hm). rewrite (proj2 (smem_true _ _) (proj2 (Ha' _) Hap)), concat_map_nil in Hd. by apply (Hc m d Hm Hdm), Hd.
  - intros (Hn & Hin & Hd). split; [split_and!; [done|done|set_solver|done]|]. intros m Hm.
    destruct (smem (key m) applied_keys) eqn:E; [|done]. apply concat_map_nil. intros d Hdm. apply (Hc m d Hm Hdm).
    apply (Hd (key m)); [by exists m, d|]. by apply Ha', smem_true.
Qed.

Section adjacency.
Context (graph : MigrationGraph) (keys : BTreeSet MigrationKey).
Context (Hkeys : forall k, k ∈ keys <-> k ∈ map key (migrations graph)).

Lemma adjacency_domain k : is_Some (mget k (adjacency_of graph keys)) <-> k ∈ map key (migrations graph).
Proof using Type.
  unfold adjacency_of, mof. rewrite (proj1 (mof_fold _ _ _)), map_map. cbn. split; [|by right]. by intros [[? [=]]|].
Qed.

Lemma adjacency_source k ds d :
  mget k (adjacency_of graph keys) = Some ds -> d ∈ ds -> depends graph k d /\ d ∈ keys.
Proof using Type.
  intros H Hd. unfold adjacency_of, mof in H. apply (proj2 (mof_fold _ _ _)) in H as [H|[=]].
  apply list_elem_of_fmap in H as (m & [= -> ->] & Hm). apply list_elem_of_filter in Hd as [Hk Hd].
  apply list_elem_of_fmap in Hd as (d' & -> & Hd'). split; [by exists m, d'|by apply smem_true].
Qed.

Lemma adjacency_edge a b :
  NoDup (map key (migrations graph)) -> (forall a b, depends graph a b -> b ∈ map key (migrations graph)) ->
  edge (adjacency_of graph keys) a b <-> depends graph a b.
Proof using Hkeys.
  intros Hn Hl. split; [intros (ds & H & Hd); by eapply adjacency_source|].
  intros Hab. pose proof (Hl a b Hab) as Hb. destruct Hab as (m & d & Hm & Hd & <- & <-).
  eexists. split.
  - apply mget_mof; [by rewrite map_map|]. apply list_elem_of_fmap. by exists m.
  - apply list_elem_of_filter. split; [by apply smem_true, Hkeys|]. apply list_elem_of_fmap. by exists d.
Qed.

(** The cycle check always ends; what it reports are dependency cycles, and with
    distinct keys and loaded dependencies it reports nothing only without cycles. *)
Lemma validate_cycles_spec :
  exists errors, validate_cycles graph keys = Some errors /\
    ((forall k, ~ tc (depends graph) k k) -> errors = []) /\
    (NoDup (map key (migrations graph)) -> (forall a b, depends graph a b -> b ∈ map key (migrations graph)) ->
     errors = [] -> forall k, ~ tc (depends graph) k k) /\
    Forall (fun e => error_code e = DependencyCycle /\
      tc (depends graph) (error_app_label e, error_name e) (error_app_label e, error_name e)) errors.
Proof using Hkeys.
  assert (forall a b, edge (adjacency_of graph keys) a b -> depends graph a b) as Hsub
    by (intros a b (ds & H & Hd); by eapply adjacency_source).
  assert (forall a b, tc (edge (adjacency_of graph keys)) a b -> tc (depends graph) a b) as Htc.
  { induction 1 as [|? ? ? ? _ IH]; [by apply tc_once, Hsub|]. eapply tc_l; [by apply Hsub|done]. }
  destruct (detect_cycles_correct (adjacency_of graph keys)) as (errors & Hr & Hiff & Hs).
  { apply mof_sorted. }
  { intros k ds d H Hd. by apply adjacency_domain, Hkeys, (adjacency_source k ds d). }
  exists errors. split_and!; [done|intros H; apply Hiff; intros k Hc; by apply (H k), Htc| |].
  - intros Hn Hl E k Hc. apply (proj1 Hiff E k). revert Hc. generalize k at 1 3. intros a Hc. revert Hc.
    induction 1 as [a b H|a b c H _ IH]; [apply tc_once; by apply adjacency_edge|]. eapply tc_l; [by apply adjacency_edge|done].
  - eapply Forall_impl; [exact Hs|]. cbn. intros e [? ?]. by split; [|apply Htc].
Qed.
End adjacency.

(** [validate_graph] always ends, and it reports nothing exactly for the graphs
    and ledgers that are well formed. *)
Lemma validate_graph_spec graph applied :
  exists errors, validate_graph graph applied = Some errors /\ (errors = [] <-> graph_ok graph applied).
Proof.
  destruct (loaded_spec (migrations graph) (loaded [] [] [])) as [Hk He].
  unfold validate_graph, validate_loaded_migrations. set (st := fold_left _ _ _) in *. cbn in Hk, He.
  assert (forall k, k ∈ seen_keys st <-> k ∈ map key (migrations graph)) as Hkeys.
  { intros k. rewrite Hk. split; [by intros [?%not_elem_of_nil|]|by right]. }
  destruct (validate_cycles_spec graph (seen_keys st) Hkeys) as (cycles & -> & Hno & Hyes & _).
  eexists. split; [done|]. rewrite !app_nil, He, (validate_dependencies_iff _ _ Hkeys). split.
  - intros ((_ & Hnamed & Hnd & _ & _ & Hnum) & Hdep & Hc & Ha).
    assert (forall a b, depends graph a b -> b ∈ map key (migrations graph)) as Hl by (intros; by eapply Hdep).
    apply (validate_applied_records_iff _ _ _ Hkeys Hl) in Ha as (? & ? & ?). split; auto.
  - intros [Hnamed Hnd Hnum Hl Hac Hr Hkn Hcl]. split; [|split; [|split]].
    + split_and!; [done|done|done|by intros ? ? ?%not_elem_of_nil|by intros ? ? ? ? ?|done].
    + intros a b Hab. split; [intros ->; by apply (Hac b), tc_once|by eapply Hl].
    + by apply Hno.
    + by apply validate_applied_records_iff.
Qed.

(** With distinct keys, no drift means that every record is a loaded migration
    whose current checksum is the recorded one. *)
Lemma check_checksum_drift_spec graph applied :
  NoDup (map key (migrations graph)) ->
  check_checksum_drift graph applied = Ok tt <->
  forall r, r ∈ applied -> exists m, m ∈ migrations graph /\ key m = record_key r /\ checksum m = Some (applied_checksum r).
Proof.
  intros Hn. unfold check_checksum_drift.
  assert (checksum_drift_errors graph applied = [] <-> forall r, r ∈ applied ->
    exists m, m ∈ migrations graph /\ key m = record_key r /\ checksum m = Some (applied_checksum r)) as <-.
  { unfold checksum_drift_errors. rewrite concat_map_nil. apply forall_proper. intros r.
    enough (check_record (mof (map (fun m => (key m, checksum m)) (migrations graph))) r = [] <->
      exists m, m ∈ migrations graph /\ key m = record_key r /\ checksum m = Some (applied_checksum r)) as Hr by (rewrite Hr; done).
    assert (forall v, mget (record_key r) (mof (map (fun m => (key m, checksum m)) (migrations graph))) = Some v <->
      exists m, m ∈ migrations graph /\ key m = record_key r /\ checksum m = v) as Hm.
    { intros v. rewrite mget_mof by (rewrite map_map; exact Hn). rewrite (list_elem_of_fmap (fun m => (key m, checksum m))).
      split; [intros (m & [H1 H2]%pair_eq & ?)|intros (m & ? & <- & <-)]; by exists m. }
    rewrite <- Hm. unfold check_record. destruct (mget _ _) as [[c|]|]; try (by split).
    case_bool_decide as E; [by rewrite E|]. split; [done|]. by intros [= ?%E]. }
  destruct (last _) as [e|] eqn:E; [|by apply last_None in E as ->].
  split; [done|]. intros H. by rewrite H in E.
Qed.

End ReleasedGraph.
