(* ===== verification/ReleasedPlan.v ===== *)
(** * The released planner (migration/src/plan.rs)

    The gates of [plan] (graph validation, checksum drift, role ordering) and its
    selection of the migrations to apply and to roll back. A plan over a graph
    discovered in dependency order keeps the applied migrations closed under
    dependencies at every point. ReleasedSteps.v completes [plan] with the steps. *)

From S2P Require Import Prelude BTree Text ReleasedSpec ReleasedGraph.
Import ReleasedSpec ReleasedGraph.

Module ReleasedPlan.

(** The errors of planning. *)
Inductive MigrationError : Set :=
| ChecksumDrifted (drift : ChecksumDrift)
| Planning (errors : list MigrationValidationError)
| UnloweredOperation (kind : str)
| TargetNotFound (target : str)
| SchemaGeneration (message : str)
| AuthoringInput (message : str).

Inductive MigrationAction : Set := Apply | Rollback.

(** ** Role ordering *)

(** The relations with their parents, and the roles, declared so far. *)
Record Declared : Set := declared {
  declared_relations : BTreeMap str (option str);
  declared_roles : BTreeMap (str * str) RoleEntry }.

Definition insert_role (relation : str) (roles : BTreeMap (str * str) RoleEntry) (role : RoleEntry)
    : BTreeMap (str * str) RoleEntry :=
  mins (relation, role_name role) role roles.

Definition declare_relation (d : Declared) (r : RelationSchemaEntry) : Declared :=
  declared (mins (type_name r) (parent_type r) (declared_relations d))
    (fold_left (insert_role (type_name r)) (roles r) (declared_roles d)).

Definition relation_roles (r : RelationSchemaEntry) : list (str * RoleEntry) := map (fun role => (type_name r, role)) (roles r).

(** The declarations after an operation, and the roles it adds. *)
Definition declare (d : Declared) (op : OperationSpec) : Declared * list (str * RoleEntry) :=
  match op with
  | DefineSchema schema =>
      (fold_left declare_relation (mvals (relations schema)) d, concat (map relation_roles (mvals (relations schema))))
  | AddRelation r => (declare_relation d r, relation_roles r)
  | AddRole relation role =>
      (declared (declared_relations d) (insert_role relation (declared_roles d) role), [(relation, role)])
  | RemoveRelation relation =>
      (declared (mdel relation (declared_relations d)) (base.filter (fun e => e.1.1 <> relation) (declared_roles d)), [])
  | RemoveRole relation role => (declared (declared_relations d) (mdel (relation, role) (declared_roles d)), [])
  | _ => (d, [])
  end.

Definition parent_of (d : Declared) (relation : str) : option str :=
  match mget relation (declared_relations d) with Some parent => parent | None => None end.

(** The nearest ancestor that declares the role; [None] without fuel. *)
Fixpoint find_parent_role (fuel : nat) (d : Declared) (parent_role : str) (ancestor : option str) (visited : BTreeSet str)
    : option (option (str * RoleEntry)) :=
  match ancestor with
  | None => Some None
  | Some parent =>
      match fuel with
      | O => None
      | S fuel =>
          if smem parent visited then Some None
          else match mget (parent, parent_role) (declared_roles d) with
               | Some role => Some (Some (parent, role))
               | None => find_parent_role fuel d parent_role (parent_of d parent) (sins parent visited)
               end
      end
  end.

Definition walk_fuel (d : Declared) : nat := S (length (declared_relations d)).

Definition check_added_role (d : Declared) (relation : str) (role : RoleEntry) : option (result MigrationError ()) :=
  match overrides role with
  | None => Some (Ok tt)
  | Some parent_role =>
      match find_parent_role (walk_fuel d) d (default parent_role (strip_suffix b#"[]" parent_role)) (parent_of d relation) [] with
      | None => None
      | Some None => Some (Ok tt)
      | Some (Some (parent, declared_role)) =>
          if Bool.eqb (ordered role) (ordered declared_role) then Some (Ok tt)
          else Some (Err (AuthoringInput (b#"role " ++ relation ++ b#":" ++ role_name role ++
                 b#" has different ordering from parent " ++ parent ++ b#":" ++ role_name declared_role)))
      end
  end.

Fixpoint check_added_roles (d : Declared) (added : list (str * RoleEntry)) : option (result MigrationError ()) :=
  match added with
  | [] => Some (Ok tt)
  | (relation, role) :: added =>
      match check_added_role d relation role with
      | Some (Ok _) => check_added_roles d added
      | stop => stop
      end
  end.

Fixpoint check_operations (d : Declared) (ops : list OperationSpec) : option (result MigrationError ()) :=
  match ops with
  | [] => Some (Ok tt)
  | op :: ops =>
      let '(d, added) := declare d op in
      match check_added_roles d added with
      | Some (Ok _) => check_operations d ops
      | stop => stop
      end
  end.

Definition validate_role_ordering (graph : MigrationGraph) : option (result MigrationError ()) :=
  check_operations (declared [] []) (concat (map operations (migrations graph))).

(** ** Selection *)

Definition is_target (target : str) (m : MigrationSpec) : bool :=
  bool_decide (name m = target) || bool_decide (app_label m ++ b#"::" ++ name m = target).

Fixpoint position (p : MigrationSpec -> bool) (ms : list MigrationSpec) : option nat :=
  match ms with
  | [] => None
  | m :: ms => if p m then Some 0 else match position p ms with Some i => Some (S i) | None => None end
  end.

Definition enumerate (ms : list MigrationSpec) : list (nat * MigrationSpec) := combine (seq 0 (length ms)) ms.

(** The migrations to apply and to roll back, in the order they run. *)
Definition select (graph : MigrationGraph) (applied_keys : BTreeSet MigrationKey) (target : option str)
    : result MigrationError (list MigrationSpec * list MigrationSpec) :=
  let is_applied m := smem (key m) applied_keys in
  match target with
  | Some target_name =>
      let? target_idx := ok_or (position (is_target target_name) (migrations graph)) (TargetNotFound target_name) in
      let apply := List.filter (fun p => Nat.leb p.1 target_idx && negb (is_applied p.2)) (enumerate (migrations graph)) in
      let rollback := List.filter (fun p => Nat.ltb target_idx p.1 && is_applied p.2) (enumerate (migrations graph)) in
      Ok (map snd apply, rev (map snd rollback))
  | None => Ok (List.filter (fun m => negb (is_applied m)) (migrations graph), [])
  end.

(** [plan] up to the assembly of steps: the three gates, then the selection. *)
Definition plan_selection (graph : MigrationGraph) (applied : list AppliedMigrationRecord) (target : option str)
    : option (result MigrationError (list MigrationSpec * list MigrationSpec)) :=
  match validate_graph graph applied with
  | None => None
  | Some ((_ :: _) as errors) => Some (Err (Planning errors))
  | Some [] =>
      match check_checksum_drift graph applied with
      | Err drift => Some (Err (ChecksumDrifted drift))
      | Ok _ =>
          match validate_role_ordering graph with
          | None => None
          | Some (Err e) => Some (Err e)
          | Some (Ok _) => Some (select graph (sof (map record_key applied)) target)
          end
      end
  end.

(** ** The role ordering gate *)

Section ancestors.
Context (d : Declared) (parent_role : str).

(** The role as the nearest declaring relation from [parent] upwards has it. *)
Inductive inherited : str -> str * RoleEntry -> Prop :=
| inherited_here parent role :
    mget (parent, parent_role) (declared_roles d) = Some role -> inherited parent (parent, role)
| inherited_above parent above found :
    mget (parent, parent_role) (declared_roles d) = None -> parent_of d parent = Some above ->
    inherited above found -> inherited parent found.

Lemma inherited_unique parent found found' : inherited parent found -> inherited parent found' -> found = found'.
Proof using Type. intros H. revert found'. induction H; inversion 1; simplify_eq; naive_solver. Qed.

(** A set of relations without the role that contains its parents inherits nothing. *)
Lemma inherited_outside (visited : list str) parent found :
  inherited parent found ->
  (forall r, r ∈ visited -> mget (r, parent_role) (declared_roles d) = None) ->
  (forall r above, r ∈ visited -> parent_of d r = Some above -> above ∈ visited) -> parent ∉ visited.
Proof using Type.
  intros H Hnone Hup. induction H as [parent role H|parent above found H Hp _ IH]; intros Hin.
  - by rewrite Hnone in H.
  - apply IH. by eapply Hup.
Qed.

Lemma parent_values relation parent :
  parent_of d relation = Some parent -> parent ∈ omap id (mvals (declared_relations d)).
Proof using Type.
  unfold parent_of. destruct (mget relation _) as [p|] eqn:E; [intros ->|done].
  apply list_elem_of_omap. exists (Some parent). split; [|done]. apply list_elem_of_fmap. apply mget_In in E. by exists (relation, Some parent).
Qed.

Lemma visited_bound (visited : list str) :
  ssorted visited -> (forall r, r ∈ visited -> r ∈ omap id (mvals (declared_relations d))) ->
  length visited <= length (declared_relations d).
Proof using Type.
  intros Hs Hsub. transitivity (length (omap id (mvals (declared_relations d)))).
  - apply submseteq_length, NoDup_submseteq; [by apply ssorted_NoDup|done].
  - rewrite <- (length_map snd (declared_relations d)). unfold mvals.
    induction (map snd (declared_relations d)) as [|[v|] l IH]; cbn in *; lia.
Qed.

(** The walk stops with the inherited role or, at a relation it has seen, with none. *)
Lemma find_parent_role_spec fuel : forall ancestor visited,
  ssorted visited -> (forall r, r ∈ visited -> r ∈ omap id (mvals (declared_relations d))) ->
  (forall parent, ancestor = Some parent -> parent ∈ omap id (mvals (declared_relations d))) ->
  length (declared_relations d) < fuel + length visited ->
  (forall r, r ∈ visited -> mget (r, parent_role) (declared_roles d) = None) ->
  (forall r above, r ∈ visited -> parent_of d r = Some above -> above ∈ visited \/ ancestor = Some above) ->
  exists found, find_parent_role fuel d parent_role ancestor visited = Some found /\
    forall f, (exists parent, ancestor = Some parent /\ inherited parent f) <-> found = Some f.
Proof using Type.
  induction fuel as [|fuel IH]; intros [parent|] visited Hs Hsub Ha Hfuel Hnone Hup; cbn;
    try (exists None; split; [done|]; split; [by intros (? & ? & _)|done]).
  - pose proof (visited_bound visited Hs Hsub). lia.
  - destruct (smem parent visited) eqn:Ev.
    { apply smem_true in Ev. exists None. split; [done|]. intros f. split; [|done]. intros (? & [= <-] & Hi). exfalso.
      apply (inherited_outside visited parent f Hi Hnone); [|done]. intros r above Hr Hp. destruct (Hup r above Hr Hp) as [|[= <-]]; done. }
    apply smem_false in Ev. destruct (mget (parent, parent_role) (declared_roles d)) as [role|] eqn:Er.
    { exists (Some (parent, role)). split; [done|]. intros f. split.
      - intros (? & [= <-] & Hi). f_equal. by eapply inherited_unique; [apply inherited_here|].
      - intros [= <-]. exists parent. split; [done|]. by apply inherited_here. }
    destruct (IH (parent_of d parent) (sins parent visited)) as (found & -> & Hf).
    + by apply sins_sorted.
    + intros r [->|Hr]%elem_sins; [by apply Ha|by apply Hsub].
    + apply parent_values.
    + assert (length (parent :: visited) <= length (sins parent visited)); [|cbn in *; lia].
      apply submseteq_length, NoDup_submseteq; [constructor; [done|by apply ssorted_NoDup]|]. intros r. rewrite elem_sins, elem_of_cons. done.
    + intros r [->|Hr]%elem_sins; auto.
    + intros r above [->|Hr]%elem_sins Hp; [by right|]. left. apply elem_sins. destruct (Hup r above Hr Hp) as [|[= <-]]; auto.
    + exists found. split; [done|]. intros f. rewrite <- Hf. split.
      * intros (? & [= <-] & Hi). inversion Hi; simplify_eq. eauto.
      * intros (above & Hp & Hi). exists parent. split; [done|]. by eapply inherited_above.
Qed.
End ancestors.

(** An added role that overrides an inherited one has its ordering. *)
Definition respects (d : Declared) (added : str * RoleEntry) : Prop :=
  forall parent_role above parent role,
    overrides added.2 = Some parent_role -> parent_of d added.1 = Some above ->
    inherited d (default parent_role (strip_suffix b#"[]" parent_role)) above (parent, role) ->
    ordered added.2 = ordered role.

Lemma check_added_role_spec d relation role :
  exists res, check_added_role d relation role = Some res /\ (res = Ok tt <-> respects d (relation, role)).
Proof.
  unfold check_added_role, respects. cbn [fst snd]. destruct (overrides role) as [parent_role|]; [|by exists (Ok tt)].
  destruct (find_parent_role_spec d (default parent_role (strip_suffix b#"[]" parent_role)) (walk_fuel d) (parent_of d relation) [])
    as (found & -> & Hf); [constructor|by intros ? ?%not_elem_of_nil|apply parent_values|unfold walk_fuel; cbn; lia
      |by intros ? ?%not_elem_of_nil|by intros ? ? ?%not_elem_of_nil|].
  destruct found as [[parent declared_role]|].
  - destruct (proj2 (Hf _) eq_refl) as (above & Hp & Hi).
    destruct (Bool.eqb (ordered role) (ordered declared_role)) eqn:E.
    + apply Bool.eqb_prop in E. eexists. split; [done|]. split; [|done]. intros _ pr above' parent' role' [= <-] Hp' Hi'.
      rewrite Hp in Hp'. injection Hp' as <-. by injection (inherited_unique _ _ _ _ _ Hi Hi') as <- <-.
    + apply Bool.eqb_false_iff in E. eexists. split; [done|]. split; [done|]. intros H. by destruct E; apply (H parent_role above parent).
  - eexists. split; [done|]. split; [|done]. intros _ pr above parent role' [= <-] Hp Hi.
    assert (None = Some (parent, role')) as [=]. apply Hf. by exists above.
Qed.

Lemma check_added_roles_spec d added :
  exists res, check_added_roles d added = Some res /\ (res = Ok tt <-> Forall (respects d) added).
Proof.
  induction added as [|[relation role] added IH]; cbn; [by exists (Ok tt)|].
  destruct (check_added_role_spec d relation role) as (res & -> & Hr). setoid_rewrite Forall_cons.
  destruct res as [[]|e]; [|exists (Err e); split; [done|]; rewrite <- Hr; naive_solver].
  destruct IH as (res & -> & IH). exists res. split; [done|]. rewrite <- Hr, IH. tauto.
Qed.

(** What the operations so far declare. *)
Definition declarations (d : Declared) (ops : list OperationSpec) : Declared :=
  fold_left (fun d op => (declare d op).1) ops d.

Definition roles_respect (d : Declared) (ops : list OperationSpec) : Prop :=
  forall pre op post, ops = pre ++ op :: post ->
    let '(after, added) := declare (declarations d pre) op in Forall (respects after) added.

Lemma roles_respect_cons d op ops :
  roles_respect d (op :: ops) <-> Forall (respects (declare d op).1) (declare d op).2 /\ roles_respect (declare d op).1 ops.
Proof.
  unfold roles_respect. split.
  - intros H. split; [specialize (H [] op ops eq_refl); cbn in H; by destruct (declare d op)|].
    intros pre op' post ->. by apply (H (op :: pre) op' post).
  - intros [Ho H] [|op1 pre] op' post [= <- E]; [cbn; by destruct (declare d op)|]. subst. by apply (H pre op' post).
Qed.

Lemma check_operations_spec ops : forall d,
  exists res, check_operations d ops = Some res /\ (res = Ok tt <-> roles_respect d ops).
Proof.
  induction ops as [|op ops IH]; intros d; cbn.
  { exists (Ok tt). split; [done|]. split; [|done]. by intros _ [|] op post [=]. }
  setoid_rewrite roles_respect_cons. destruct (declare d op) as [after added]. cbn.
  destruct (check_added_roles_spec after added) as (res & -> & Hr).
  destruct res as [[]|e]; [|exists (Err e); split; [done|]; rewrite <- Hr; naive_solver].
  destruct (IH after) as (res & -> & Ho). exists res. split; [done|]. rewrite <- Hr, Ho. tauto.
Qed.

(** ** The selection *)

(** The discovery order lists every dependency before its dependent. *)
Definition discovered (graph : MigrationGraph) : Prop :=
  forall pre m post, migrations graph = pre ++ m :: post -> forall d, d ∈ dependencies m -> dependency_key d ∈ map key pre.

Definition closed (graph : MigrationGraph) (ledger : list MigrationKey) : Prop :=
  forall a b, depends graph a b -> a ∈ ledger -> b ∈ ledger.

(** The migrations of a plan as the executors run them: rollbacks, then applies. *)
Definition executions (selection : list MigrationSpec * list MigrationSpec) : list (MigrationAction * MigrationKey) :=
  map (fun m => (Rollback, key m)) selection.2 ++ map (fun m => (Apply, key m)) selection.1.

(** The recorded migrations after one more succeeded. *)
Definition recorded (ledger : list MigrationKey) (e : MigrationAction * MigrationKey) : list MigrationKey :=
  match e.1 with
  | Apply => ledger ++ [e.2]
  | Rollback => base.filter (fun k => k <> e.2) ledger
  end.

(** The migrations a plan leaves applied. *)
Definition intended (graph : MigrationGraph) (target : option str) : list MigrationSpec :=
  match target with
  | None => migrations graph
  | Some t => match position (is_target t) (migrations graph) with Some i => firstn (S i) (migrations graph) | None => [] end
  end.

Section prefixes.
Context (graph : MigrationGraph).
Context (Hkeys : NoDup (map key (migrations graph))) (Hdiscovered : discovered graph).

Lemma prefix_closed pre post : migrations graph = pre ++ post -> closed graph (map key pre).
Proof using Hkeys Hdiscovered.
  intros E a b (m & d & Hm & Hd & <- & <-) Hin. rewrite E in Hm, Hkeys. rewrite map_app, NoDup_app in Hkeys.
  apply elem_of_app in Hm as [Hm|Hm].
  - apply list_elem_of_split in Hm as (pre1 & pre2 & ->). rewrite map_app. apply elem_of_app. left.
    apply (Hdiscovered pre1 m (pre2 ++ post)); [|done]. by rewrite E, <- app_assoc.
  - destruct Hkeys as (_ & Hdis & _). destruct (Hdis (key m) Hin). apply list_elem_of_fmap. by exists m.
Qed.

(** The applied migrations of a prefix, with all of a shorter one. *)
Lemma prefixes_closed applied pre1 post1 pre2 post2 ledger :
  closed graph applied -> migrations graph = pre1 ++ post1 -> migrations graph = pre2 ++ post2 ->
  (forall k, k ∈ ledger <-> k ∈ map key pre1 \/ (k ∈ applied /\ k ∈ map key pre2)) -> closed graph ledger.
Proof using Hkeys Hdiscovered.
  intros Ha E1 E2 Hl a b Hab Hin. apply Hl. apply Hl in Hin as [Hin|[Hin Hin2]].
  - left. by eapply prefix_closed.
  - right. split; [by eapply Ha|by eapply prefix_closed].
Qed.
End prefixes.

Lemma filter_split {A} (p : A -> bool) l x y :
  List.filter p l = x ++ y -> exists l1 l2, l = l1 ++ l2 /\ List.filter p l1 = x /\ List.filter p l2 = y.
Proof.
  revert x. induction l as [|a l IH]; intros x; cbn.
  { intros E. symmetry in E. apply app_nil in E as [-> ->]. by exists [], []. }
  destruct (p a) eqn:Ep.
  - destruct x as [|b x]; cbn; [intros <-; exists [], (a :: l); cbn; by rewrite Ep|].
    intros [= <- E]. destruct (IH x E) as (l1 & l2 & -> & <- & <-). exists (a :: l1), l2. cbn. by rewrite Ep.
  - intros E. destruct (IH x E) as (l1 & l2 & -> & <- & <-). exists (a :: l1), l2. cbn. by rewrite Ep.
Qed.

Lemma enumerate_upto (p : MigrationSpec -> bool) bound ms : forall start,
  map snd (List.filter (fun e => Nat.leb e.1 bound && p e.2) (combine (seq start (length ms)) ms)) =
  List.filter p (firstn (S bound - start) ms).
Proof.
  induction ms as [|m ms IH]; intros start; cbn [length seq combine List.filter fst snd]; [by rewrite firstn_nil|].
  destruct (Nat.leb_spec start bound) as [Hle|Hlt].
  - replace (S bound - start) with (S (S bound - S start)) by lia. cbn [firstn List.filter andb].
    destruct (p m); cbn [map snd]; by rewrite IH.
  - cbn [andb]. rewrite IH. replace (S bound - start) with 0 by lia. by replace (S bound - S start) with 0 by lia.
Qed.

Lemma enumerate_after (p : MigrationSpec -> bool) bound ms : forall start,
  map snd (List.filter (fun e => Nat.ltb bound e.1 && p e.2) (combine (seq start (length ms)) ms)) =
  List.filter p (skipn (S bound - start) ms).
Proof.
  induction ms as [|m ms IH]; intros start; cbn [length seq combine List.filter fst snd]; [by rewrite skipn_nil|].
  destruct (Nat.ltb_spec bound start) as [Hlt|Hle].
  - cbn [andb]. replace (S bound - start) with 0 by lia. cbn [skipn List.filter].
    specialize (IH (S start)). replace (S bound - S start) with 0 in IH by lia. cbn [skipn] in IH.
    destruct (p m); cbn [map snd]; by rewrite IH.
  - cbn [andb]. rewrite IH. by replace (S bound - start) with (S (S bound - S start)) by lia.
Qed.

Lemma select_spec graph keys target apply rollback :
  select graph keys target = Ok (apply, rollback) ->
  exists rest, migrations graph = intended graph target ++ rest /\
    apply = List.filter (fun m => negb (smem (key m) keys)) (intended graph target) /\
    (target = None -> rest = []) /\ rollback = rev (List.filter (fun m => smem (key m) keys) rest).
Proof.
  unfold select, intended. destruct target as [t|]; [|intros [= <- <-]; exists []; by rewrite app_nil_r].
  destruct (position (is_target t) (migrations graph)) as [i|]; [|done]. cbn [ok_or]. intros [= <- <-].
  exists (skipn (S i) (migrations graph)). unfold enumerate.
  rewrite (enumerate_upto (fun m => negb (smem (key m) keys))), (enumerate_after (fun m => smem (key m) keys)).
  rewrite Nat.sub_0_r. split; [by rewrite firstn_skipn|]. by split_and!.
Qed.

Lemma recorded_rollbacks ms k : forall ledger,
  k ∈ fold_left recorded (map (fun m => (Rollback, key m)) ms) ledger <-> k ∈ ledger /\ k ∉ map key ms.
Proof.
  induction ms as [|m ms IH]; intros ledger; cbn [map fold_left].
  { split; [intros H; split; [done|by apply not_elem_of_nil]|by intros [? _]]. }
  rewrite IH. cbn. rewrite list_elem_of_filter, not_elem_of_cons. tauto.
Qed.

Lemma recorded_applies ms k : forall ledger,
  k ∈ fold_left recorded (map (fun m => (Apply, key m)) ms) ledger <-> k ∈ ledger \/ k ∈ map key ms.
Proof.
  induction ms as [|m ms IH]; intros ledger; cbn [map fold_left].
  { split; [by left|by intros [?|?%not_elem_of_nil]]. }
  rewrite IH. cbn. rewrite elem_of_app, list_elem_of_singleton, elem_of_cons. tauto.
Qed.

Lemma elem_filter_keys (p : MigrationKey -> bool) ms k :
  k ∈ map key (List.filter (fun m => p (key m)) ms) <-> p k = true /\ k ∈ map key ms.
Proof.
  rewrite !(list_elem_of_fmap key). split.
  - intros (m & -> & Hm). rewrite list_elem_of_In, filter_In, <- list_elem_of_In in Hm. destruct Hm. eauto.
  - intros (Hp & m & -> & Hm). exists m. split; [done|]. by rewrite list_elem_of_In, filter_In, <- list_elem_of_In.
Qed.

(** Part of a plan has run: [undone] of the migrations after the intended ones, and
    [done] of the intended ones. *)
Lemma partial_ledger graph applied done_ undone kept rest pre :
  NoDup (map key (migrations graph)) -> (forall k, k ∈ applied -> k ∈ map key (migrations graph)) ->
  migrations graph = pre ++ kept ++ undone -> pre = done_ ++ rest ->
  forall k, k ∈ fold_left recorded
      (map (fun m => (Rollback, key m)) (rev (List.filter (fun m => smem (key m) (sof applied)) undone)) ++
       map (fun m => (Apply, key m)) (List.filter (fun m => negb (smem (key m) (sof applied))) done_)) applied <->
    k ∈ map key done_ \/ (k ∈ applied /\ k ∈ map key (pre ++ kept)).
Proof.
  intros Hn Hknown E -> k. rewrite fold_left_app, recorded_applies, recorded_rollbacks, map_rev, elem_of_rev.
  rewrite (elem_filter_keys (fun k => smem k (sof applied))), (elem_filter_keys (fun k => negb (smem k (sof applied)))).
  rewrite negb_true_iff, smem_true, smem_false, elem_sof.
  rewrite app_assoc in E. rewrite E in Hn, Hknown. rewrite map_app, NoDup_app in Hn. destruct Hn as (_ & Hdis & _).
  specialize (Hknown k). rewrite map_app, elem_of_app in Hknown. specialize (Hdis k).
  assert (k ∈ map key done_ -> k ∈ map key ((done_ ++ rest) ++ kept)) as Hsub.
  { intros H. rewrite !map_app, !elem_of_app. by left; left. }
  assert (k ∈ applied \/ k ∉ applied) as [Ha|Ha] by (destruct (decide (k ∈ applied)); tauto); tauto.
Qed.

Lemma plan_ok graph applied target selection :
  plan_selection graph applied target = Some (Ok selection) ->
  graph_ok graph applied /\ select graph (sof (map record_key applied)) target = Ok selection.
Proof.
  unfold plan_selection. destruct (validate_graph_spec graph applied) as (errors & -> & Hok).
  destruct errors; [|done]. destruct (check_checksum_drift graph applied); [|done].
  destruct (validate_role_ordering graph) as [[]|]; [|done|done]. intros [= H]. by split; [apply Hok|].
Qed.

Lemma position_found p ms : is_Some (position p ms) <-> exists m, m ∈ ms /\ p m = true.
Proof.
  induction ms as [|m ms IH]; cbn; [split; [by intros [? [=]]|by intros (? & ?%not_elem_of_nil & _)]|].
  destruct (p m) eqn:E; [split; [exists m; split; [apply list_elem_of_here|done]|by eexists]|].
  split.
  - destruct (position p ms); [|by intros [? [=]]]. intros _. destruct (proj1 IH) as (m' & ? & ?); [by eexists|].
    exists m'. by split; [apply list_elem_of_further|].
  - intros (m' & [->|H]%elem_of_cons & Hp); [by rewrite Hp in E|]. destruct (proj2 IH) as [i ->]; by eexists.
Qed.

(** The gates and the selection always end, and they succeed exactly when the graph
    and the ledger are well formed, every applied migration still has its recorded
    checksum, every added role keeps the ordering of the role it overrides and the
    target names a migration. *)
Lemma plan_selection_iff graph applied target :
  exists res, plan_selection graph applied target = Some res /\
    ((exists selection, res = Ok selection) <->
     graph_ok graph applied /\
     (forall r, r ∈ applied ->
        exists m, m ∈ migrations graph /\ key m = record_key r /\ checksum m = Some (applied_checksum r)) /\
     roles_respect (declared [] []) (concat (map operations (migrations graph))) /\
     forall t, target = Some t -> exists m, m ∈ migrations graph /\ is_target t m = true).
Proof.
  unfold plan_selection, validate_role_ordering. destruct (validate_graph_spec graph applied) as (errors & -> & Hok).
  destruct errors as [|e errors]; [|eexists; split; [done|]; split; [by intros (? & [=])|intros (H & _); by apply Hok in H]].
  pose proof (proj1 Hok eq_refl) as Hg. pose proof (check_checksum_drift_spec graph applied (go_keys _ _ Hg)) as Hc.
  destruct (check_checksum_drift graph applied) as [[]|drift];
    [|eexists; split; [done|]; split; [by intros (? & [=])|intros (_ & H & _); by apply Hc in H]].
  destruct (check_operations_spec (concat (map operations (migrations graph))) (declared [] [])) as (res & -> & Hr).
  destruct res as [[]|e]; [|eexists; split; [done|]; split; [by intros (? & [=])|intros (_ & _ & H & _); by apply Hr in H]].
  eexists. split; [done|]. unfold select. destruct target as [t|].
  - pose proof (position_found (is_target t) (migrations graph)) as Hp.
    destruct (position (is_target t) (migrations graph)) as [i|]; cbn [ok_or].
    + split; [|by eexists]. intros _. split_and!; [done|by apply Hc|by apply Hr|]. intros ? [= <-]. by apply Hp.
    + split; [by intros (? & [=])|]. intros (_ & _ & _ & H). by destruct (proj2 Hp (H t eq_refl)) as [? [=]].
  - split; [|by eexists]. intros _. split_and!; [done|by apply Hc|by apply Hr|done].
Qed.

(** Over a graph discovered in dependency order, the migrations recorded as applied are closed under dependencies at every point of the run of a plan, its
    rollbacks and then its applies; when all have run, the applied migrations are
    exactly the intended ones: those up to the target, or all of them. *)
Lemma plan_keeps_dependencies graph applied target selection n :
  plan_selection graph applied target = Some (Ok selection) -> discovered graph ->
  closed graph (fold_left recorded (firstn n (executions selection)) (map record_key applied)) /\
  (forall k, k ∈ fold_left recorded (executions selection) (map record_key applied) <-> k ∈ map key (intended graph target)).
Proof.
  intros [Hg Hsel]%plan_ok Hd. destruct selection as [apply rollback].
  apply select_spec in Hsel as (rest & E & Hap & _ & Hrb).
  assert (forall k, k ∈ map record_key applied -> k ∈ map key (migrations graph)) as Hknown.
  { intros k (r & -> & Hr)%list_elem_of_fmap. by apply (go_known _ _ Hg). }
  pose proof (go_keys _ _ Hg) as Hn. unfold executions. cbn [fst snd]. split.
  - rewrite firstn_app, !firstn_map, length_map. set (m := n - _). 
    pose proof (firstn_skipn n rollback) as Er. rewrite Hrb in Er at 3. apply (f_equal (@rev _)) in Er.
    rewrite rev_involutive, rev_app_distr in Er. symmetry in Er. apply filter_split in Er as (kept & undone & -> & _ & Hu).
    pose proof (firstn_skipn m apply) as Ea. rewrite Hap in Ea at 3. symmetry in Ea.
    apply filter_split in Ea as (done_ & todo & Ei & Hdone & _).
    assert (firstn n rollback = rev (List.filter (fun m => smem (key m) (sof (map record_key applied))) undone)) as ->
      by (by rewrite Hu, rev_involutive). rewrite <- Hdone.
    apply (prefixes_closed graph Hn Hd (map record_key applied) done_ (todo ++ kept ++ undone) (intended graph target ++ kept) undone).
    + exact (go_closed _ _ Hg).
    + by rewrite E, Ei, <- app_assoc.
    + by rewrite E, <- app_assoc.
    + by eapply partial_ledger.
  - intros k. subst apply rollback.
    rewrite (partial_ledger graph (map record_key applied) (intended graph target) rest [] [] (intended graph target) Hn Hknown E)
      by (by rewrite app_nil_r).
    rewrite app_nil_r. tauto.
Qed.

(** ** Examples *)

Definition example_migration (stem : str) (needs : list str) : MigrationSpec :=
  migration_spec b#"app" stem (map (dependency_spec b#"app") needs) [RunTypeql (b#"define entity " ++ stem ++ b#";") None]
    (Some (stem ++ b#"-csum")) None true.

Definition example_record (stem : str) : AppliedMigrationRecord :=
  applied_migration b#"app" stem (stem ++ b#"-csum") None.

Definition example_graph : MigrationGraph :=
  migration_graph [example_migration b#"0001_initial" []; example_migration b#"0002_add" [b#"0001_initial"];
    example_migration b#"0003_more" [b#"0002_add"]].

Lemma example_discovered : discovered example_graph.
Proof.
  intros pre m post Em d. destruct pre as [|m1 [|m2 [|m3 pre]]]; injection Em as; subst.
  - cbn. intros H. by apply not_elem_of_nil in H.
  - cbn. intros H. apply list_elem_of_singleton in H as ->. apply list_elem_of_here.
  - cbn. intros H. apply list_elem_of_singleton in H as ->. apply list_elem_of_further, list_elem_of_here.
  - exfalso. destruct pre; discriminate.
Qed.

End ReleasedPlan.
