(* ===== verification/ReleasedExecutor.v ===== *)
(** * The released executor (migration/src/plan.rs, executor.rs, backfill.rs)

    Execution plans, and their execution step by step with one transaction per
    step. What the session layer answers is an argument: a function of the
    calls made so far. The statements a run commits are always a prefix of the
    plan's, in its order, and all of them exactly when every migration succeeds. *)

From S2P Require Import Prelude BTree Text Codec Versions ReleasedSpec ReleasedPlan.
Import Codec(Number(..), PosInt, NegInt, Float, Json(..), JNull, JBool, JNumber, JString, JArray, JObject).
Import ReleasedSpec ReleasedPlan.
#[local] Open Scope Z_scope.

Module ReleasedExecutor.

(** ** Plans *)

Inductive TxType : Set := TxRead | TxWrite | TxSchema.

Inductive StepKind : Set := StepSchema | StepWrite | StepBackfill.

Inductive OperationKind : Set :=
| KRunTypeql | KDefineSchema | KAddAttribute | KRemoveAttribute | KAddEntity | KRemoveEntity | KAddRelation
| KRemoveRelation | KAddOwnership | KRemoveOwnership | KModifyOwnership | KModifyTypeAnnotations
| KModifyRoleAnnotations | KAddRole | KRemoveRole | KAddRolePlayer | KRemoveRolePlayer | KRenameAttribute | KCopyAttribute.

Definition OperationKind_as_str (kind : OperationKind) : str :=
  match kind with
  | KRunTypeql => b#"run_typeql"
  | KDefineSchema => b#"define_schema"
  | KAddAttribute => b#"add_attribute"
  | KRemoveAttribute => b#"remove_attribute"
  | KAddEntity => b#"add_entity"
  | KRemoveEntity => b#"remove_entity"
  | KAddRelation => b#"add_relation"
  | KRemoveRelation => b#"remove_relation"
  | KAddOwnership => b#"add_ownership"
  | KRemoveOwnership => b#"remove_ownership"
  | KModifyOwnership => b#"modify_ownership"
  | KModifyTypeAnnotations => b#"modify_type_annotations"
  | KModifyRoleAnnotations => b#"modify_role_annotations"
  | KAddRole => b#"add_role"
  | KRemoveRole => b#"remove_role"
  | KAddRolePlayer => b#"add_role_player"
  | KRemoveRolePlayer => b#"remove_role_player"
  | KRenameAttribute => b#"rename_attribute"
  | KCopyAttribute => b#"copy_attribute"
  end.

Record ExecutionStep : Set := execution_step {
  tx_type : TxType;
  step_kind : StepKind;
  operation_kind : OperationKind;
  forward : str;
  reverse : option str }.

Record MigrationExecution : Set := migration_execution {
  execution_app_label : str;
  execution_name : str;
  action : MigrationAction;
  steps : list ExecutionStep;
  execution_reversible : bool }.

Record ExecutionPlan : Set := execution_plan {
  to_apply : list MigrationExecution;
  to_rollback : list MigrationExecution }.

(** ** Answers of the session layer *)

Inductive QueryResult : Set := Rows (items : list Json) | Documents (items : list Json) | QueryOk.

(** ** Histories *)

(** The calls of an executor on the session, with their answers. [A] is what an
    external ledger is asked. *)
Inductive Event {A : Set} : Set :=
| WriterOpen (answer : result str ())
| OpenTx (t : TxType) (answer : result str ())
| WriterOpenIn (answer : result str ())
| Query (typeql : str) (answer : result str QueryResult)
| Commit (answer : result str ())
| RollbackTx
| Close
| Ledger (question : A).
Arguments Event : clear implicits.

(** What the session answers, given the calls before. The server version is known
    from the connection, and the count queries of a backfill depend on the text alone. *)
Record Session {A : Set} : Set := session {
  require_legacy_writer_open : list (Event A) -> result str ();
  server_version : option Versions.Version;
  transaction_context : list (Event A) -> TxType -> result str ();
  require_legacy_writer_open_in_transaction : list (Event A) -> result str ();
  query : list (Event A) -> str -> result str QueryResult;
  commit : list (Event A) -> result str ();
  backfill_count_views : str -> result str (str * str);
  render_json : Json -> str }.
Arguments Session : clear implicits.

(** [Database::check_schema_annotation_support], with the error's text. *)
Definition check_schema_annotation_support {A} (s : Session A) (typeql : str) : result str () :=
  match Versions.check_schema_annotation_support typeql (server_version s) with
  | Ok _ => Ok tt
  | Err e => Err (b#"Unsupported version: " ++ Versions.VersionError_to_string e)
  end.

(** A computation: its result and the calls it adds to those before. *)
Definition M (A : Set) (X : Type) : Type := list (Event A) -> X * list (Event A).

Definition ret {A X} (x : X) : M A X := fun _ => (x, []).

Definition bind {A X Y} (c : M A X) (k : X -> M A Y) : M A Y := fun h =>
  let '(x, seg) := c h in let '(y, seg') := k x (h ++ seg) in (y, seg ++ seg').

Notation "'let>' x ':=' c 'in' k" := (bind c (fun x => k)) (at level 10, x pattern, c at level 100, k at level 200).

Section executor.
Context {A : Set} (s : Session A).

Definition call {X} (answer : list (Event A) -> X) (event : X -> Event A) : M A X := fun h => (answer h, [event (answer h)]).

Definition writer_open : M A (result str ()) := call (require_legacy_writer_open s) WriterOpen.
Definition open_tx (t : TxType) : M A (result str ()) := call (fun h => transaction_context s h t) (OpenTx t).
Definition writer_open_in : M A (result str ()) := call (require_legacy_writer_open_in_transaction s) WriterOpenIn.
Definition run_query (typeql : str) : M A (result str QueryResult) := call (fun h => query s h typeql) (Query typeql).
Definition commit_tx : M A (result str ()) := call (commit s) Commit.

(** [let _ = rollback(); let _ = close();] *)
Definition abandon : M A () := fun _ => (tt, [RollbackTx; Close]).

(** ** Backfills *)

Record BackfillResult : Set := backfill_result {
  backfill_step_index : nat;
  matched : Z;
  inserted : Z;
  skipped : Z;
  conflicts : Z }.

(** [as_u64], or the saturating [as_f64() as u64]. *)
Definition number_to_u64 (n : Number) : Z :=
  match n with
  | PosInt z => z
  | NegInt _ => 0
  | Float mantissa exponent =>
      let truncated := if 0 <=? exponent then mantissa * 2 ^ exponent else Z.quot mantissa (2 ^ (- exponent)) in
      Z.max 0 (Z.min truncated u64_max)
  end.

Definition json_get (field : str) (value : Json) : option Json :=
  match value with
  | JObject entries => option_map snd (List.find (fun e => str_eqb e.1 field) entries)
  | _ => None
  end.

(** The fuel bounds the nesting of value envelopes. *)
Fixpoint scalar_to_u64_fuel (fuel : nat) (value : Json) : option Z :=
  match value with
  | JNumber n => Some (number_to_u64 n)
  | JObject _ =>
      match fuel, json_get b#"value" value with
      | S fuel, Some inner => scalar_to_u64_fuel fuel inner
      | _, _ => None
      end
  | _ => None
  end.

Fixpoint json_depth (value : Json) : nat :=
  match value with
  | JObject entries => S (fold_right (fun e depth => Nat.max (json_depth e.2) depth) O entries)
  | _ => O
  end.

Definition scalar_to_u64 (value : Json) : option Z := scalar_to_u64_fuel (json_depth value) value.

(** A [BackfillQuery] error, rendered. *)
Definition at_step (step_index : nat) (message : str) : str :=
  b#"backfill execution error: backfill step " ++ dshow (Z.of_nat step_index) ++ b#": " ++ message.

Definition extract_count (answer : QueryResult) (step_index : nat) (label : str) : result str Z :=
  match answer with
  | QueryOk | Rows [] | Documents [] => Ok 0
  | Rows (item :: _) | Documents (item :: _) =>
      let value :=
        match json_get b#"c" item with
        | Some value => Some value
        | None => match item with JObject ((_, value) :: _) => Some value | _ => None end
        end in
      let? value := ok_or value
        (at_step step_index (label ++ b#" count answer has no recognizable key: " ++ render_json s item)) in
      ok_or (scalar_to_u64 value)
        (at_step step_index (label ++ b#" count value is not a number: " ++ render_json s value))
  end.

(** A count query in a read transaction of its own. *)
Definition run_count (step_index : nat) (label count_query : str) : M A (result str Z) :=
  let> opened := open_tx TxRead in
  match opened with
  | Err e => ret (Err (at_step step_index (b#"failed to open read tx for " ++ label ++ b#" count: " ++ e)))
  | Ok _ =>
      let> answer := run_query count_query in
      let> _ := abandon in
      match answer with
      | Err e => ret (Err (at_step step_index (label ++ b#" count query failed: " ++ e)))
      | Ok answer => ret (extract_count answer step_index label)
      end
  end.

(** The counts, then the write, which stays uncommitted. *)
Definition prepare_backfill (step : ExecutionStep) (step_index : nat) : M A (result str BackfillResult) :=
  match backfill_count_views s (forward step) with
  | Err e => ret (Err (b#"inconsistent authoring input: " ++ e))
  | Ok (guarded_query, total_query) =>
      let> counted := run_count step_index b#"guarded" guarded_query in
      match counted with
      | Err e => ret (Err e)
      | Ok inserted =>
          let> counted := run_count step_index b#"total" total_query in
          match counted with
          | Err e => ret (Err e)
          | Ok matched =>
              let> opened := open_tx TxWrite in
              match opened with
              | Err e => ret (Err (at_step step_index (b#"failed to open write tx: " ++ e)))
              | Ok _ =>
                  let> guarded := writer_open_in in
                  match guarded with
                  | Err e =>
                      let> _ := abandon in
                      ret (Err (at_step step_index (b#"legacy cutover guard rejected the write: " ++ e)))
                  | Ok _ =>
                      let> written := run_query (forward step) in
                      match written with
                      | Err e =>
                          let> _ := abandon in ret (Err (at_step step_index (b#"backfill write query failed: " ++ e)))
                      | Ok _ => ret (Ok (backfill_result step_index matched inserted (Z.max 0 (matched - inserted)) 0))
                      end
                  end
              end
          end
      end
  end.

Definition execute_backfill (step : ExecutionStep) (step_index : nat) : M A (result str BackfillResult) :=
  let> prepared := prepare_backfill step step_index in
  match prepared with
  | Err e => ret (Err e)
  | Ok result =>
      let> committed := commit_tx in
      match committed with
      | Err e => ret (Err (at_step step_index (b#"backfill write commit failed: " ++ e)))
      | Ok _ => ret (Ok result)
      end
  end.

(** ** Migrations *)

Record MigrationResult : Set := migration_result {
  result_app_label : str;
  result_name : str;
  result_action : MigrationAction;
  success : bool;
  error : option str;
  backfill : option (list BackfillResult) }.

Definition failed (m : MigrationExecution) (message : str) : MigrationResult :=
  migration_result (execution_app_label m) (execution_name m) (action m) false (Some message) None.

Definition succeeded (m : MigrationExecution) (backfills : list BackfillResult) : MigrationResult :=
  migration_result (execution_app_label m) (execution_name m) (action m) true None
    (match backfills with [] => None | _ :: _ => Some backfills end).

(** The TypeQL a step runs. *)
Definition statement (a : MigrationAction) (step : ExecutionStep) : str :=
  match a with
  | Apply => forward step
  | Rollback => default (forward step) (reverse step)
  end.

(** One step that is not a backfill, in its own transaction. *)
Definition execute_step (a : MigrationAction) (step : ExecutionStep) : M A (result str ()) :=
  match check_schema_annotation_support s (statement a step) with
  | Err e => ret (Err e)
  | Ok _ =>
      let> opened := open_tx (tx_type step) in
      match opened with
      | Err e => ret (Err (b#"failed to open transaction: " ++ e))
      | Ok _ =>
          let> guarded := writer_open_in in
          match guarded with
          | Err e => let> _ := abandon in ret (Err e)
          | Ok _ =>
              let> answer := run_query (statement a step) in
              match answer with
              | Err e => let> _ := abandon in ret (Err (b#"query failed: " ++ e))
              | Ok _ =>
                  let> committed := commit_tx in
                  match committed with
                  | Err e => ret (Err (b#"commit failed: " ++ e))
                  | Ok _ => ret (Ok tt)
                  end
              end
          end
      end
  end.

Definition is_backfill (a : MigrationAction) (step : ExecutionStep) : bool :=
  match step_kind step, a with StepBackfill, Apply => true | _, _ => false end.

Fixpoint execute_steps (m : MigrationExecution) (step_index : nat) (todo : list ExecutionStep)
    (backfills : list BackfillResult) : M A MigrationResult :=
  match todo with
  | [] => ret (succeeded m backfills)
  | step :: todo =>
      if is_backfill (action m) step
      then
        let> counted := execute_backfill step step_index in
        match counted with
        | Ok result => execute_steps m (S step_index) todo (backfills ++ [result])
        | Err e => ret (failed m (b#"backfill step " ++ dshow (Z.of_nat step_index) ++ b#" failed: " ++ e))
        end
      else
        let> ran := execute_step (action m) step in
        match ran with
        | Ok _ => execute_steps m (S step_index) todo backfills
        | Err e => ret (failed m e)
        end
  end.

Definition execute_migration (m : MigrationExecution) : M A MigrationResult :=
  match action m, execution_reversible m with
  | Rollback, false => ret (failed m (execution_name m ++ b#" is not reversible"))
  | _, _ =>
      let> guarded := writer_open in
      match guarded with
      | Err e => ret (failed m e)
      | Ok _ => execute_steps m 0 (steps m) []
      end
  end.

Fixpoint execute_all (ms : list MigrationExecution) : M A (list MigrationResult) :=
  match ms with
  | [] => ret []
  | m :: ms =>
      let> result := execute_migration m in
      if success result then let> results := execute_all ms in ret (result :: results) else ret [result]
  end.

(** Rollbacks, then applies; the first failed migration ends the run. *)
Definition execute_plan (plan : ExecutionPlan) : M A (list MigrationResult) := execute_all (to_rollback plan ++ to_apply plan).

End executor.
(** ** Committed statements *)

(** The statements of the open transaction after some calls. *)
Fixpoint pending_after {A} (pending : list str) (events : list (Event A)) : list str :=
  match events with
  | [] => pending
  | OpenTx _ _ :: events | Commit _ :: events | RollbackTx :: events => pending_after [] events
  | Query typeql (Ok _) :: events => pending_after (pending ++ [typeql]) events
  | _ :: events => pending_after pending events
  end.

(** The statements whose commit was acknowledged, in order. *)
Fixpoint durable {A} (pending : list str) (events : list (Event A)) : list str :=
  match events with
  | [] => []
  | OpenTx _ _ :: events | Commit (Err _) :: events | RollbackTx :: events => durable [] events
  | Query typeql (Ok _) :: events => durable (pending ++ [typeql]) events
  | Commit (Ok _) :: events => pending ++ durable [] events
  | _ :: events => durable pending events
  end.

Lemma durable_app {A} (xs ys : list (Event A)) : forall pending,
  durable pending (xs ++ ys) = durable pending xs ++ durable (pending_after pending xs) ys.
Proof.
  induction xs as [|[| | |typeql []|[]| | |] xs IH]; intros pending; cbn; rewrite ?IH, ?app_assoc; done.
Qed.

Lemma pending_after_app {A} (xs ys : list (Event A)) : forall pending,
  pending_after pending (xs ++ ys) = pending_after (pending_after pending xs) ys.
Proof. induction xs as [|[| | |typeql []|[]| | |] xs IH]; intros pending; cbn; by rewrite ?IH. Qed.

Lemma bind_inv {A X Y} (c : M A X) (k : X -> M A Y) h y seg :
  bind c k h = (y, seg) -> exists x seg1 seg2, c h = (x, seg1) /\ k x (h ++ seg1) = (y, seg2) /\ seg = seg1 ++ seg2.
Proof. unfold bind. destruct (c h) as [x seg1]. destruct (k x (h ++ seg1)) as [y' seg2] eqn:E. intros [= -> <-]. eauto 7. Qed.

(** Evaluates a computation that is a chain of calls, by cases on the answers. *)
Ltac run_calls H :=
  repeat (unfold bind, call, ret in H; cbv beta iota in H;
    match type of H with
    | context [match ?e with Ok _ => _ | Err _ => _ end] => destruct e eqn:?
    end);
  unfold bind, call, ret in H; cbv beta iota in H.

(** The fuel of [scalar_to_u64] is enough: it unfolds one envelope at a time. *)
Lemma json_get_depth field value inner :
  json_get field value = Some inner -> (json_depth inner < json_depth value)%nat.
Proof.
  destruct value as [| | | | |entries]; try done. cbn. induction entries as [|[k v] entries IH]; cbn; [done|].
  destruct (str_eqb k field); [intros [= <-]; lia|]. intros H. specialize (IH H). lia.
Qed.

Lemma scalar_to_u64_enough fuel : forall value, (json_depth value <= fuel)%nat -> scalar_to_u64_fuel fuel value = scalar_to_u64 value.
Proof.
  unfold scalar_to_u64. induction fuel as [fuel IH] using lt_wf_ind. intros value Hd.
  destruct value as [| | | | |entries]; try by destruct fuel.
  remember (JObject entries) as value eqn:Ev. destruct fuel as [|fuel]; [by subst; cbn in Hd; lia|].
  destruct (json_depth value) as [|depth] eqn:Ed; [by subst|]. subst value.
  cbn [scalar_to_u64_fuel]. destruct (json_get b#"value" (JObject entries)) as [inner|] eqn:Eg; [|done].
  apply json_get_depth in Eg. rewrite (IH fuel) by lia. rewrite (IH depth) by lia. done.
Qed.

(** A count answer is read through any nesting of value envelopes. *)
Lemma scalar_to_u64_object entries :
  scalar_to_u64 (JObject entries) =
  match json_get b#"value" (JObject entries) with Some inner => scalar_to_u64 inner | None => None end.
Proof.
  unfold scalar_to_u64 at 1. destruct (json_depth (JObject entries)) as [|depth] eqn:Ed; [done|]. cbn [scalar_to_u64_fuel].
  destruct (json_get b#"value" (JObject entries)) as [inner|] eqn:Eg; [|done].
  apply json_get_depth in Eg. apply scalar_to_u64_enough. lia.
Qed.

Section committed.
Context {A : Set} (s : Session A).

Lemma execute_step_durable a step h r seg pending :
  execute_step s a step h = (r, seg) ->
  durable pending seg = match r with Ok _ => [statement a step] | Err _ => [] end.
Proof using Type.
  unfold execute_step, open_tx, writer_open_in, run_query, commit_tx, abandon. intros H. run_calls H; by injection H as <- <-.
Qed.

Lemma run_count_durable i label q h r seg pending : run_count s i label q h = (r, seg) -> durable pending seg = [].
Proof using Type.
  unfold run_count, open_tx, run_query, abandon. intros H. run_calls H; by injection H as <- <-.
Qed.

(** A prepared backfill has committed nothing, and its write is pending. *)
Lemma prepare_backfill_durable step i h r seg pending :
  prepare_backfill s step i h = (r, seg) ->
  durable pending seg = [] /\ forall b, r = Ok b -> pending_after pending seg = [forward step].
Proof using Type.
  unfold prepare_backfill. destruct (backfill_count_views s (forward step)) as [[guarded total]|e]; [|by intros [= <- <-]].
  intros (r1 & seg1 & seg2 & H1 & H & ->)%bind_inv. rewrite durable_app, (run_count_durable _ _ _ _ _ _ _ H1).
  cbn. destruct r1 as [inserted|e]; [|by injection H as <- <-].
  apply bind_inv in H as (r2 & seg3 & seg4 & H2 & H & ->).
  rewrite durable_app, (run_count_durable _ _ _ _ _ _ _ H2). destruct r2 as [matched|e]; [|by injection H as <- <-].
  unfold open_tx, writer_open_in, run_query, abandon in H.
  run_calls H; injection H as <- <-; (split; [done|]); intros b [=]. by rewrite !pending_after_app.
Qed.

Lemma execute_backfill_durable step i h r seg pending :
  execute_backfill s step i h = (r, seg) -> durable pending seg = match r with Ok _ => [forward step] | Err _ => [] end.
Proof using Type.
  intros (r1 & seg1 & seg2 & H1 & H & ->)%bind_inv. apply (prepare_backfill_durable _ _ _ _ _ pending) in H1 as [H0 Hp].
  rewrite durable_app, H0. destruct r1 as [b|e]; [|by injection H as <- <-]. rewrite (Hp b eq_refl).
  unfold commit_tx in H. run_calls H; by injection H as <- <-.
Qed.

Definition statements (m : MigrationExecution) : list str := map (statement (action m)) (steps m).

(** The steps commit in order, and all of them exactly when the migration succeeds. *)
Lemma execute_steps_durable m todo : forall i backfills h r seg pending,
  execute_steps s m i todo backfills h = (r, seg) ->
  exists k, durable pending seg = firstn k (map (statement (action m)) todo) /\
    if success r then k = length todo else (k < length todo)%nat.
Proof using Type.
  induction todo as [|step todo IH]; intros i backfills h r seg pending; cbn [execute_steps].
  { intros [= <- <-]. by exists 0%nat. }
  destruct (is_backfill (action m) step) eqn:Eb; intros (r1 & seg1 & seg2 & H1 & H & ->)%bind_inv; rewrite durable_app.
  - apply (execute_backfill_durable _ _ _ _ _ pending) in H1. rewrite H1.
    assert (action m = Apply) as Ea by (unfold is_backfill in Eb; by destruct (step_kind step), (action m)).
    destruct r1 as [b|e]; [|injection H as <- <-; exists 0%nat; cbn; split; [done|lia]].
    apply (IH _ _ _ _ _ (pending_after pending seg1)) in H as (k & -> & Hk). exists (S k). cbn. rewrite Ea in *.
    split; [done|]. destruct (success r); lia.
  - apply (execute_step_durable _ _ _ _ _ pending) in H1. rewrite H1.
    destruct r1 as [[]|e]; [|injection H as <- <-; exists 0%nat; cbn; split; [done|lia]].
    apply (IH _ _ _ _ _ (pending_after pending seg1)) in H as (k & -> & Hk). exists (S k). cbn.
    split; [done|]. destruct (success r); lia.
Qed.

Lemma execute_migration_durable m h r seg pending :
  execute_migration s m h = (r, seg) ->
  exists k, durable pending seg = firstn k (statements m) /\
    if success r then k = length (steps m) else (k < length (steps m))%nat \/ k = 0%nat.
Proof using Type.
  unfold execute_migration, statements. intros H.
  assert (r = failed m (execution_name m ++ b#" is not reversible") /\ seg = [] \/
    bind (writer_open s) (fun guarded => match guarded with Err e => ret (failed m e) | Ok _ => execute_steps s m 0 (steps m) [] end) h
      = (r, seg)) as [[-> ->]|H']
    by (destruct (action m), (execution_reversible m); [by right..|left; by injection H as <- <-]).
  { exists 0%nat. cbn. auto. }
  clear H. apply bind_inv in H' as (r1 & seg1 & seg2 & H1 & H & ->). unfold writer_open, call in H1. injection H1 as <- <-.
  rewrite durable_app. cbn [durable pending_after app].
  destruct (require_legacy_writer_open s h); [|injection H as <- <-; exists 0%nat; cbn; auto].
  apply (execute_steps_durable _ _ _ _ _ _ _ pending) in H as (k & Hd & Hk). exists k. split; [done|].
  destruct (success r); [done|by left].
Qed.

(** The run of some migrations: all succeed and commit everything, or the last
    attempted one fails after a part of its steps. *)
Lemma execute_all_durable ms : forall h results seg pending,
  execute_all s ms h = (results, seg) ->
  (Forall (fun r => success r = true) results /\ length results = length ms /\
   durable pending seg = concat (map statements ms)) \/
  (exists pre m post k r, ms = pre ++ m :: post /\ length results = S (length pre) /\
     Forall (fun r => success r = true) (firstn (length pre) results) /\ last results = Some r /\ success r = false /\
     durable pending seg = concat (map statements pre) ++ firstn k (statements m) /\
     ((k < length (steps m))%nat \/ k = 0%nat)).
Proof using Type.
  induction ms as [|m ms IH]; intros h results seg pending; cbn [execute_all]; [intros [= <- <-]; by left|].
  intros (r & seg1 & seg2 & H1 & H & ->)%bind_inv. rewrite durable_app.
  apply (execute_migration_durable _ _ _ _ pending) in H1 as (k & -> & Hk). destruct (success r) eqn:Es.
  - apply bind_inv in H as (results' & seg3 & seg4 & H2 & [= <- <-] & ->). rewrite app_nil_r.
    assert (firstn k (statements m) = statements m) as ->
      by (rewrite Hk; apply firstn_all2; unfold statements; rewrite length_map; lia).
    apply (IH _ _ _ (pending_after pending seg1)) in H2 as [(Hs & Hl & ->)|(pre & m' & post & k' & r' & -> & Hl & Hs & Hr & Hf & -> & Hk')].
    + left. cbn. split_and!; [by constructor|by rewrite Hl|done].
    + right. exists (m :: pre), m', post, k', r'. cbn. rewrite Hl, app_assoc.
      split_and!; [done|done|by constructor| |done|done|done]. by destruct results'.
  - injection H as <- <-. right. exists [], m, ms, k, r. cbn. rewrite app_nil_r. by split_and!.
Qed.

(** ** Attempted migrations *)

Definition migration_key (m : MigrationExecution) : MigrationAction * (str * str) :=
  (action m, (execution_app_label m, execution_name m)).

Definition result_key (r : MigrationResult) : MigrationAction * (str * str) := (result_action r, (result_app_label r, result_name r)).

Lemma execute_steps_key m todo : forall i backfills h, result_key (execute_steps s m i todo backfills h).1 = migration_key m.
Proof using Type.
  induction todo as [|step todo IH]; intros i backfills h; cbn [execute_steps]; [done|].
  destruct (is_backfill (action m) step); unfold bind.
  - destruct (execute_backfill s step i h) as [[b|e] seg]; [|done].
    specialize (IH (S i) (backfills ++ [b]) (h ++ seg)). by destruct (execute_steps _ _ _ _ _ _).
  - destruct (execute_step s (action m) step h) as [[u|e] seg]; [|done].
    specialize (IH (S i) backfills (h ++ seg)). by destruct (execute_steps _ _ _ _ _ _).
Qed.

Lemma execute_migration_key m h : result_key (execute_migration s m h).1 = migration_key m.
Proof using Type.
  assert (result_key (bind (writer_open s) (fun g => match g with Err e => ret (failed m e)
    | Ok _ => execute_steps s m 0 (steps m) [] end) h).1 = migration_key m) as Hgo.
  { unfold bind, writer_open, call. destruct (require_legacy_writer_open s h) as [u|e]; [|done].
    pose proof (execute_steps_key m (steps m) 0 [] (h ++ [WriterOpen (Ok u)])) as H. by destruct (execute_steps _ _ _ _ _ _). }
  unfold execute_migration. destruct (action m), (execution_reversible m); [exact Hgo..|done].
Qed.

(** The attempted migrations are a prefix, and only the last one may have failed. *)
Lemma execute_all_keys ms : forall h, exists n,
  map result_key (List.filter success (execute_all s ms h).1) = firstn n (map migration_key ms) /\
  (Forall (fun r => success r = true) (execute_all s ms h).1 -> (length ms <= n)%nat).
Proof using Type.
  induction ms as [|m ms IH]; intros h; cbn [execute_all]; [by exists 0%nat|]. unfold bind.
  pose proof (execute_migration_key m h) as Hk. destruct (execute_migration s m h) as [result seg]. cbn in Hk.
  destruct (success result) eqn:Es.
  - destruct (IH (h ++ seg)) as (n & Hn & Hall). destruct (execute_all s ms (h ++ seg)) as [results seg'].
    exists (S n). cbn in *. rewrite Es. cbn. rewrite Hn, Hk. split; [done|]. intros [_ H]%Forall_cons. specialize (Hall H). lia.
  - exists 0%nat. cbn. rewrite Es. split; [done|]. intros [H _]%Forall_cons. congruence.
Qed.
End committed.

(** ** Queries in schema transactions *)

(** The queries sent while the last opened transaction is a schema transaction. *)
Fixpoint schema_queries {A} (current : option TxType) (events : list (Event A)) : list str :=
  match events with
  | [] => []
  | OpenTx t _ :: events => schema_queries (Some t) events
  | Query typeql _ :: events =>
      match current with
      | Some TxSchema => typeql :: schema_queries current events
      | _ => schema_queries current events
      end
  | _ :: events => schema_queries current events
  end.

Section gated.
Context {A : Set} (s : Session A).

(** Every query of a schema transaction passes the version gate. *)
Definition gated (events : list (Event A)) : Prop :=
  forall current, Forall (fun typeql => check_schema_annotation_support s typeql = Ok tt) (schema_queries current events).

Definition gates {X} (c : M A X) : Prop := forall h, gated (c h).2.

Lemma gated_app x y : gated x -> gated y -> gated (x ++ y).
Proof using Type.
  intros Hx Hy current. specialize (Hx current). revert current Hx.
  induction x as [|e x IH]; intros current Hx; [apply Hy|].
  destruct e; cbn in *; try (by apply IH). destruct current as [[]|]; try (by apply IH).
  apply Forall_cons in Hx as [Hq Hx]. constructor; [done|]. by apply IH.
Qed.

Lemma gates_ret {X} (x : X) : gates (ret x).
Proof using Type. intros h current. constructor. Qed.

Lemma gates_bind {X Y} (c : M A X) (k : X -> M A Y) : gates c -> (forall x, gates (k x)) -> gates (bind c k).
Proof using Type.
  intros Hc Hk h. specialize (Hc h). unfold bind. destruct (c h) as [x seg]. specialize (Hk x (h ++ seg)).
  destruct (k x (h ++ seg)) as [y seg']. by apply gated_app.
Qed.

Lemma gates_call {X} (answer : list (Event A) -> X) event :
  (forall x, match event x with Query _ _ => False | _ => True end) -> gates (call answer event).
Proof using Type.
  intros He h current. cbn. specialize (He (answer h)). by destruct (event (answer h)).
Qed.

Lemma gates_query typeql u : check_schema_annotation_support s typeql = Ok u -> gates (run_query s typeql).
Proof using Type. destruct u. intros H h current. cbn. destruct current as [[]|]; by repeat constructor. Qed.

Lemma gates_abandon : gates abandon.
Proof using Type. intros h current. constructor. Qed.

(** A backfill opens no schema transaction. *)
Lemma gates_prepare_backfill step i : gates (prepare_backfill s step i).
Proof using Type.
  intros h. destruct (prepare_backfill s step i h) as [r seg] eqn:H. intros current. revert H.
  unfold prepare_backfill, run_count, open_tx, run_query, writer_open_in, abandon.
  destruct (backfill_count_views s (forward step)) as [[guarded total]|e]; [|intros [= <- <-]; constructor].
  intros H. run_calls H; injection H as <- <-; constructor.
Qed.
End gated.

Create HintDb gates.
#[export] Hint Resolve gates_ret gates_abandon gates_prepare_backfill gates_query : gates.
#[export] Hint Extern 1 (gates _ (call _ _)) => apply gates_call; done : gates.
#[export] Hint Extern 1 (gates _ (open_tx _ _)) => apply gates_call; done : gates.
#[export] Hint Extern 1 (gates _ (writer_open_in _)) => apply gates_call; done : gates.
#[export] Hint Extern 1 (gates _ (writer_open _)) => apply gates_call; done : gates.
#[export] Hint Extern 1 (gates _ (commit_tx _)) => apply gates_call; done : gates.

(** Decomposes a computation into its calls. *)
Ltac gates_steps :=
  repeat first
    [ progress eauto with gates
    | apply gates_bind; [|intros]
    | match goal with |- context [match ?e with _ => _ end] => destruct e eqn:? end ].

Section gated_runs.
Context {A : Set} (s : Session A).

Lemma gates_execute_step a step : gates s (execute_step s a step).
Proof using Type. unfold execute_step. gates_steps. Qed.

Lemma gates_execute_backfill step i : gates s (execute_backfill s step i).
Proof using Type. unfold execute_backfill. gates_steps. Qed.

Lemma gates_execute_plan plan : gates s (execute_plan s plan).
Proof using Type.
  assert (forall m todo i backfills, gates s (execute_steps s m i todo backfills)) as Hsteps.
  { intros m todo. induction todo as [|step todo IH]; intros i backfills; cbn [execute_steps]; [apply gates_ret|].
    destruct (is_backfill _ _); (apply gates_bind; [by apply gates_execute_step || apply gates_execute_backfill|]);
      intros [x|e]; [apply IH|apply gates_ret|apply IH|apply gates_ret]. }
  unfold execute_plan. induction (to_rollback plan ++ to_apply plan) as [|m ms IH]; cbn [execute_all]; [apply gates_ret|].
  apply gates_bind; [unfold execute_migration; gates_steps; apply Hsteps|intros r; gates_steps].
Qed.
End gated_runs.

(** C14. The statements a run of a plan commits, whatever the session answers: all
    of the plan's, rollbacks before applies and in step order, when every migration
    succeeds; otherwise those of the migrations before the first failed one and a
    proper part of the failed one's, and nothing after it is attempted. *)
Theorem execute_plan_durable {A} (s : Session A) plan h :
  let '(results, seg) := execute_plan s plan h in
  (Forall (fun r => success r = true) results /\ length results = length (to_rollback plan ++ to_apply plan) /\
   durable [] seg = concat (map statements (to_rollback plan ++ to_apply plan))) \/
  (exists pre m post k r, to_rollback plan ++ to_apply plan = pre ++ m :: post /\ length results = S (length pre) /\
     Forall (fun r => success r = true) (firstn (length pre) results) /\ last results = Some r /\ success r = false /\
     durable [] seg = concat (map statements pre) ++ firstn k (statements m) /\
     ((k < length (steps m))%nat \/ k = 0%nat)).
Proof. unfold execute_plan. destruct (execute_all s _ h) as [results seg] eqn:E. by eapply execute_all_durable. Qed.

(** ** Examples *)

(** A session that answers every call. *)
Definition accepting (A : Set) : Session A :=
  session A (fun _ => Ok tt) None (fun _ _ => Ok tt) (fun _ => Ok tt) (fun _ _ => Ok QueryOk) (fun _ => Ok tt)
    (fun typeql => Ok (typeql, typeql)) (fun _ => []).

End ReleasedExecutor.
