(* ===== verification/ReleasedSteps.v ===== *)
(** * Step assembly of the released planner (migration/src/plan.rs, spec.rs)

    The lowering of operations to execution steps: the schema queries of every
    operation, their reverses, the removals a whole relation's removal covers, and
    the plan with its steps. Rendering a query goes through the TypeQL grammar and
    is an argument. A plan exists exactly when the gates pass and every operation it
    needs can be lowered; a step has a reverse exactly when its operation is
    invertible and its migration reversible. *)

From S2P Require Import Prelude BTree Text Ident ReleasedSpec ReleasedAnnotations ReleasedGraph ReleasedPlan ReleasedExecutor.
Import Ident ReleasedSpec ReleasedAnnotations ReleasedGraph ReleasedPlan ReleasedExecutor.

Module ReleasedSteps.

(** ** Schema queries *)

Inductive SchemaCapability : Set :=
| Owns (attribute : str) (ordered : bool) (flags : str)
| OwnsSource (attribute : str) (annotations : list AnnotationToken)
| Relates (role : str) (ordered : bool)
| RelatesRole (role : RoleEntry)
| RelatesSource (role : str) (annotations : list AnnotationToken)
| Plays (relation role : str).

(** A type with annotations of its own and capabilities. *)
Record SchemaDefinition : Set := schema_type {
  subject : str;
  head : list AnnotationToken;
  capabilities : list SchemaCapability }.

Inductive SchemaUndefinition : Set :=
| UndefineType (name : str)
| UndefineCapability (subject : str) (capability : SchemaCapability)
| UndefineAnnotation (name : str) (key : option str) (subject : str) (capability : option SchemaCapability).

Inductive SchemaQuery : Set :=
| QueryDefine (definitions : list SchemaDefinition)
| QueryRedefine (definitions : list SchemaDefinition)
| QueryUndefine (undefinitions : list SchemaUndefinition).

(** What goes through the TypeQL grammar: queries, whole schemas, the flags of an
    ownership, annotation tokens, string literals, the label of a bare capability,
    and the statements of a copy. *)
Record Renderer : Set := renderer {
  render_typeql : SchemaQuery -> result str str;
  to_typeql : SchemaInfo -> result str str;
  flags_string : OwnedAttributeEntry -> str;
  render_token : AnnotationToken -> str;
  escaped_string_literal : str -> str;
  meta_flag : str -> str -> str;
  check_capability : SchemaCapability -> result str ();
  synthesized_copy : str -> str -> str -> option str -> result str (str * str) }.

Section assembly.
Context (r : Renderer).

Definition map_err {E F A} (f : E -> F) (res : result E A) : result F A :=
  match res with Ok a => Ok a | Err e => Err (f e) end.

Definition render_query (q : SchemaQuery) : result MigrationError str := map_err AuthoringInput (render_typeql r q).
Definition schema_to_typeql (schema : SchemaInfo) : result MigrationError str := map_err SchemaGeneration (to_typeql r schema).

Definition define_attribute (attribute : AttributeSchemaEntry) : result MigrationError str :=
  schema_to_typeql (schema_info [] [] (mins (attr_name attribute) attribute [])).
Definition undefine_attribute (name : str) : result MigrationError str := render_query (QueryUndefine [UndefineType name]).
Definition define_entity (entity : EntitySchemaEntry) : result MigrationError str :=
  schema_to_typeql (schema_info (mins (entity_type_name entity) entity []) [] []).
Definition undefine_entity (name : str) : result MigrationError str := undefine_attribute name.
Definition define_relation (relation : RelationSchemaEntry) : result MigrationError str :=
  schema_to_typeql (schema_info [] (mins (type_name relation) relation []) []).
Definition undefine_relation (name : str) : result MigrationError str := undefine_attribute name.

Definition undefine_players (relation : str) (role : RoleEntry) : list SchemaUndefinition :=
  map (fun player => UndefineCapability player (Plays relation (role_name role))) (player_type_names role).

Definition undefine_relation_with_players (relation : RelationSchemaEntry) : result MigrationError str :=
  render_query (QueryUndefine
    (concat (map (undefine_players (type_name relation)) (roles relation)) ++ [UndefineType (type_name relation)])).

Definition define_ownership (owner : str) (attribute : OwnedAttributeEntry) : result MigrationError str :=
  render_query (QueryDefine [schema_type owner []
    [Owns (owned_attr_name attribute) (owned_is_ordered attribute) (flags_string r attribute)]]).
Definition undefine_ownership (owner name : str) : result MigrationError str :=
  render_query (QueryUndefine [UndefineCapability owner (OwnsSource name [])]).
Definition undefine_known_ownership (owner : str) (attribute : OwnedAttributeEntry) : result MigrationError str :=
  render_query (QueryUndefine [UndefineCapability owner (Owns (owned_attr_name attribute) (owned_is_ordered attribute) [])]).

Definition define_player (relation role player : str) : SchemaDefinition := schema_type player [] [Plays relation role].

Definition define_role (relation : str) (role : RoleEntry) : result MigrationError str :=
  render_query (QueryDefine (schema_type relation [] [RelatesRole role] ::
    map (define_player relation (role_name role)) (player_type_names role))).
Definition undefine_role (relation role : str) : result MigrationError str :=
  render_query (QueryUndefine [UndefineCapability relation (RelatesSource role [])]).
Definition undefine_role_with_players (relation : str) (role : RoleEntry) : result MigrationError str :=
  render_query (QueryUndefine
    (undefine_players relation role ++ [UndefineCapability relation (Relates (role_name role) (ordered role))])).

Definition define_role_player (relation role player : str) : result MigrationError str :=
  render_query (QueryDefine [define_player relation role player]).
Definition undefine_role_player (relation role player : str) : result MigrationError str :=
  render_query (QueryUndefine [UndefineCapability player (Plays relation role)]).

(** ** Annotation steps *)

Definition schema_step (forward : str) (reverse : option str) : ExecutionStep :=
  execution_step TxSchema StepSchema KRunTypeql forward reverse.

(** The capability with the annotations of a statement. *)
Definition annotated (capability : SchemaCapability) (annotations : list AnnotationToken) : SchemaCapability :=
  match capability with
  | OwnsSource attribute _ => OwnsSource attribute annotations
  | RelatesSource role _ => RelatesSource role annotations
  | other => other
  end.

Definition annotation_definition (subject : str) (capability : option SchemaCapability) (token : AnnotationToken)
    : SchemaDefinition :=
  match capability with
  | Some capability => schema_type subject [] [annotated capability [token]]
  | None => schema_type subject [token] []
  end.

Definition annotation_undefinition (subject : str) (capability : option SchemaCapability) (token : AnnotationToken)
    : SchemaUndefinition :=
  UndefineAnnotation (token_name token) (meta_key token) subject capability.

Definition annotation_query (subject : str) (capability : option SchemaCapability) (st : AnnotationStatement) : SchemaQuery :=
  match st with
  | Undefine tokens => QueryUndefine (map (annotation_undefinition subject capability) tokens)
  | Redefine token => QueryRedefine [annotation_definition subject capability token]
  | Define tokens => QueryDefine (map (annotation_definition subject capability) tokens)
  end.

Definition annotation_step (subject : str) (capability : option SchemaCapability)
    (change : AnnotationStatement * AnnotationStatement) : result MigrationError ExecutionStep :=
  let? forward := render_query (annotation_query subject capability change.1) in
  let? reverse := render_query (annotation_query subject capability change.2) in
  Ok (schema_step forward (Some reverse)).

Definition annotation_token_steps (subject : str) (capability : option SchemaCapability) (diff : AnnotationTokenDiff)
    : result MigrationError (list ExecutionStep) :=
  try_map (annotation_step subject capability) (annotation_changes diff).

Definition meta_token (entry : str * str) : AnnotationToken :=
  default (annotation_token b#"meta" None) (last (split_annotation_tokens (meta_flag r entry.1 entry.2))).

Definition doc_meta_tokens (doc : option str) (meta : BTreeMap str str) : list AnnotationToken :=
  match doc with Some doc => [annotation_token b#"doc" (Some (escaped_string_literal r doc))] | None => [] end ++
  map meta_token meta.

Definition diff_doc_meta (old_doc new_doc : option str) (old_meta new_meta : BTreeMap str str) : AnnotationTokenDiff :=
  diff_annotation_tokens (render_token r) (doc_meta_tokens old_doc old_meta) (doc_meta_tokens new_doc new_meta).

(** ** Carried TypeQL *)

(** The text after a leading white-space character, in UTF-8. *)
Definition skip_space (s : str) : option str :=
  match s with
  | [] => None
  | c :: s =>
      if in_range 9 13 c || oeqb c " "%char then Some s
      else match code c, map code s, s with
           | 194%Z, 133%Z :: _, _ :: s | 194%Z, 160%Z :: _, _ :: s => Some s
           | 225%Z, 154%Z :: 128%Z :: _, _ :: _ :: s | 227%Z, 128%Z :: 128%Z :: _, _ :: _ :: s
           | 226%Z, 129%Z :: 159%Z :: _, _ :: _ :: s => Some s
           | 226%Z, 128%Z :: d :: _, _ :: _ :: s =>
               if ((128 <=? d) && (d <=? 138) || (d =? 168) || (d =? 169) || (d =? 175))%Z then Some s else None
           | _, _, _ => None
           end
  end.

Fixpoint trim_spaces (fuel : nat) (s : str) : str :=
  match fuel, skip_space s with
  | S fuel, Some s => trim_spaces fuel s
  | _, _ => s
  end.

Fixpoint text_lines (s : str) : list str :=
  match s with
  | [] => [[]]
  | c :: s =>
      match text_lines s with
      | line :: rest => if oeqb c "010"%char then [] :: line :: rest else (c :: line) :: rest
      | [] => [[c]]
      end
  end.

Definition to_ascii_lowercase (c : ascii) : ascii := if is_ascii_uppercase c then byte_of (code c + 32) else c.

Definition is_statement_line (line : str) : bool :=
  negb (str_eqb line [] || starts_with b#"#" line || starts_with b#"//" line).

(** The first line that is not empty or a comment decides. Trailing space does not
    matter for it. *)
Definition run_typeql_tx_type (typeql : str) : TxType :=
  let first_statement :=
    default [] (List.find is_statement_line (map (fun line => trim_spaces (length line) line) (text_lines typeql))) in
  let first_statement := map to_ascii_lowercase first_statement in
  if starts_with b#"define" first_statement || starts_with b#"undefine" first_statement ||
     starts_with b#"redefine" first_statement
  then TxSchema else TxWrite.

(** [copy_attribute_typeql] on a copy: carried TypeQL first, else the synthesized
    statements. *)
Definition copy_attribute_typeql (owner source dest filter forward reverse : option str)
    : result MigrationError (str * option str) :=
  match forward, owner, source, dest with
  | Some forward, _, _, _ => Ok (forward, reverse)
  | None, Some owner, Some source, Some dest =>
      let? copy := map_err AuthoringInput (synthesized_copy r owner source dest filter) in
      Ok (copy.1, Some (default copy.2 reverse))
  | None, _, _, _ =>
      Err (AuthoringInput b#"copy_attribute requires either forward TypeQL or the structured owner/source/dest fields")
  end.

(** ** Assembly *)

Definition removed_relation_labels (operations : list OperationSpec) : BTreeSet str :=
  sof (omap (fun op => match op with RemoveRelation name => Some name | _ => None end) operations).

Definition shadowed_by_remove_relation (op : OperationSpec) (removed : BTreeSet str) : bool :=
  match op with
  | RemoveRole relation _ | RemoveRolePlayer relation _ _ => smem relation removed
  | RemoveOwnership owner _ => smem owner removed
  | _ => false
  end.

Definition from_spec (op : OperationSpec) : OperationKind :=
  match op with
  | RunTypeql _ _ => KRunTypeql
  | DefineSchema _ => KDefineSchema
  | AddAttribute _ => KAddAttribute
  | RemoveAttribute _ => KRemoveAttribute
  | AddEntity _ => KAddEntity
  | RemoveEntity _ => KRemoveEntity
  | AddRelation _ => KAddRelation
  | RemoveRelation _ => KRemoveRelation
  | AddOwnership _ _ => KAddOwnership
  | RemoveOwnership _ _ => KRemoveOwnership
  | ModifyOwnership _ _ _ _ => KModifyOwnership
  | ModifyTypeAnnotations _ _ _ _ _ => KModifyTypeAnnotations
  | ModifyRoleAnnotations _ _ _ _ _ _ => KModifyRoleAnnotations
  | AddRole _ _ => KAddRole
  | RemoveRole _ _ => KRemoveRole
  | AddRolePlayer _ _ _ => KAddRolePlayer
  | RemoveRolePlayer _ _ _ => KRemoveRolePlayer
  | RenameAttribute _ _ _ => KRenameAttribute
  | CopyAttribute _ _ _ _ _ _ => KCopyAttribute
  end.

(** A step with a reverse, and one without. *)
Definition reversible_step (forward reverse : result MigrationError str) : result MigrationError (list ExecutionStep) :=
  let? forward := forward in
  let? reverse := reverse in
  Ok [schema_step forward (Some reverse)].

Definition final_step (forward : result MigrationError str) : result MigrationError (list ExecutionStep) :=
  let? forward := forward in
  Ok [schema_step forward None].

(** The steps of one operation, before the migration's own data is set on them. *)
Definition lower_operation (op : OperationSpec) : result MigrationError (list ExecutionStep) :=
  match op with
  | RunTypeql forward reverse =>
      let tx := run_typeql_tx_type forward in
      Ok [execution_step tx (match tx with TxWrite => StepWrite | _ => StepSchema end) KRunTypeql forward reverse]
  | DefineSchema schema =>
      let? forward := schema_to_typeql schema in
      Ok [execution_step TxSchema StepSchema KDefineSchema forward None]
  | AddAttribute attribute => reversible_step (define_attribute attribute) (undefine_attribute (attr_name attribute))
  | RemoveAttribute name => final_step (undefine_attribute name)
  | AddEntity entity => reversible_step (define_entity entity) (undefine_entity (entity_type_name entity))
  | RemoveEntity name => final_step (undefine_entity name)
  | AddRelation relation => reversible_step (define_relation relation) (undefine_relation_with_players relation)
  | RemoveRelation name => final_step (undefine_relation name)
  | AddOwnership owner attribute =>
      reversible_step (define_ownership owner attribute) (undefine_known_ownership owner attribute)
  | RemoveOwnership owner name => final_step (undefine_ownership owner name)
  | ModifyOwnership owner name old_annotations new_annotations =>
      let? _ := map_err AuthoringInput (check_capability r (OwnsSource name [])) in
      annotation_token_steps owner (Some (OwnsSource name []))
        (diff_annotation_tokens (render_token r) (split_annotation_tokens old_annotations)
          (split_annotation_tokens new_annotations))
  | ModifyTypeAnnotations name old_doc new_doc old_meta new_meta =>
      annotation_token_steps name None (diff_doc_meta old_doc new_doc old_meta new_meta)
  | ModifyRoleAnnotations relation role old_doc new_doc old_meta new_meta =>
      let? _ := map_err AuthoringInput (check_capability r (RelatesSource role [])) in
      annotation_token_steps relation (Some (RelatesSource role [])) (diff_doc_meta old_doc new_doc old_meta new_meta)
  | AddRole relation role => reversible_step (define_role relation role) (undefine_role_with_players relation role)
  | RemoveRole relation role => final_step (undefine_role relation role)
  | AddRolePlayer relation role player =>
      reversible_step (define_role_player relation role player) (undefine_role_player relation role player)
  | RemoveRolePlayer relation role player =>
      reversible_step (undefine_role_player relation role player) (define_role_player relation role player)
  | CopyAttribute owner source dest filter forward reverse =>
      let? copy := copy_attribute_typeql owner source dest filter forward reverse in
      Ok [execution_step TxWrite StepBackfill KCopyAttribute copy.1 copy.2]
  | RenameAttribute _ _ _ => Err (UnloweredOperation b#"RenameAttribute")
  end.

(** The operation's kind, and no reverse in an irreversible migration. *)
Definition finish_step (migration_reversible : bool) (kind : OperationKind) (step : ExecutionStep) : ExecutionStep :=
  execution_step (tx_type step) (step_kind step) kind (forward step) (if migration_reversible then reverse step else None).

Definition assemble_operation (migration_reversible : bool) (op : OperationSpec) : result MigrationError (list ExecutionStep) :=
  let? op_steps := lower_operation op in
  Ok (map (finish_step migration_reversible (from_spec op)) op_steps).

Definition kept_operations (operations : list OperationSpec) : list OperationSpec :=
  List.filter (fun op => negb (shadowed_by_remove_relation op (removed_relation_labels operations))) operations.

Definition assemble_steps (operations : list OperationSpec) (migration_reversible : bool)
    : result MigrationError (list ExecutionStep) :=
  let? steps := try_map (assemble_operation migration_reversible) (kept_operations operations) in
  Ok (concat steps).

Definition assemble_migration (a : MigrationAction) (m : MigrationSpec) : result MigrationError MigrationExecution :=
  let? steps := assemble_steps (operations m) (ReleasedSpec.reversible m) in
  Ok (migration_execution (app_label m) (name m) a steps (forallb (fun s => bool_decide (is_Some (reverse s))) steps)).

(** [plan]: the gates and the selection, then the steps of every selected migration. *)
Definition plan (graph : MigrationGraph) (applied : list AppliedMigrationRecord) (target : option str)
    : option (result MigrationError ExecutionPlan) :=
  match plan_selection graph applied target with
  | None => None
  | Some (Err e) => Some (Err e)
  | Some (Ok (apply, rollback)) => Some (
      let? apply_executions := try_map (assemble_migration Apply) apply in
      let? rollback_executions := try_map (assemble_migration Rollback) rollback in
      Ok (execution_plan apply_executions rollback_executions))
  end.


(** ** Reversibility *)

(** The operations whose steps have a reverse. *)
Definition invertible (op : OperationSpec) : bool :=
  match op with
  | RunTypeql _ reverse => bool_decide (is_Some reverse)
  | CopyAttribute _ _ _ _ (Some _) reverse => bool_decide (is_Some reverse)
  | DefineSchema _ | RemoveAttribute _ | RemoveEntity _ | RemoveRelation _ | RemoveOwnership _ _ | RemoveRole _ _
  | RenameAttribute _ _ _ => false
  | _ => true
  end.

Lemma reversible_step_reverse f b steps : reversible_step f b = Ok steps -> Forall (fun s => is_Some (reverse s)) steps.
Proof using Type.
  unfold reversible_step. destruct f as [f|]; [|done]. destruct b as [b|]; [|done]. intros [= <-].
  apply Forall_singleton. by eexists.
Qed.

Lemma final_step_reverse f steps : final_step f = Ok steps -> Forall (fun s => reverse s = None) steps.
Proof using Type. unfold final_step. destruct f as [f|]; [|done]. intros [= <-]. by apply Forall_singleton. Qed.

Lemma annotation_token_steps_reverse name capability diff steps :
  annotation_token_steps name capability diff = Ok steps -> Forall (fun s => is_Some (reverse s)) steps.
Proof using Type.
  unfold annotation_token_steps. revert steps. induction (annotation_changes diff) as [|c changes IH]; intros steps; cbn.
  { intros [= <-]. constructor. }
  unfold annotation_step at 1. destruct (render_query _) as [f|]; [|done]. destruct (render_query _) as [b|]; [|done]. cbn.
  destruct (try_map _ changes) as [rest|] eqn:E; [|done]. intros [= <-]. constructor; [by eexists|]. by apply IH.
Qed.

Lemma lower_operation_reverse op steps :
  lower_operation op = Ok steps -> Forall (fun s => is_Some (reverse s) <-> invertible op = true) steps.
Proof using Type.
  assert (forall steps, Forall (fun s => is_Some (reverse s)) steps ->
    Forall (fun s => is_Some (reverse s) <-> true = true) steps) as Hyes by (intros st H; eapply Forall_impl; [exact H|]; done).
  assert (forall steps, Forall (fun s => reverse s = None) steps ->
    Forall (fun s => is_Some (reverse s) <-> false = true) steps) as Hno.
  { intros st H. eapply Forall_impl; [exact H|]. cbn. intros s ->. split; [by intros [? [=]]|done]. }
  destruct op as [| | | | | | | | | | | | | | | | | |owner source dest filter carried undo];
    cbn [lower_operation invertible]; intros H;
    try exact (Hyes _ (reversible_step_reverse _ _ _ H)); try exact (Hyes _ (annotation_token_steps_reverse _ _ _ _ H));
    try exact (Hno _ (final_step_reverse _ _ H)); try done;
    try (destruct (map_err _ (check_capability _ _)); [|done]; exact (Hyes _ (annotation_token_steps_reverse _ _ _ _ H))).
  - destruct (schema_to_typeql _) as [f|]; [|done]. injection H as <-. apply Hno. by apply Forall_singleton.
  - injection H as <-. apply Forall_singleton. cbn. by rewrite bool_decide_eq_true.
  - unfold copy_attribute_typeql in H. destruct carried as [f|].
    + injection H as <-. apply Forall_singleton. cbn. by rewrite bool_decide_eq_true.
    + destruct owner, source, dest; try done. destruct (map_err _ _) as [copy|]; [|done]. injection H as <-.
      apply Hyes, Forall_singleton. by eexists.
Qed.

Lemma assembled_reverses rev ops : forall steps,
  try_map (assemble_operation rev) ops = Ok steps ->
  forallb (fun s => bool_decide (is_Some (reverse s))) (concat steps) = true <->
  Forall (fun op => lower_operation op = Ok [] \/ (rev = true /\ invertible op = true)) ops.
Proof using Type.
  induction ops as [|op ops IH]; intros steps; cbn [try_map]; [intros [= <-]; split; [constructor|done]|].
  unfold assemble_operation at 1. destruct (lower_operation op) as [op_steps|] eqn:El; [|done].
  destruct (try_map _ ops) as [rest|] eqn:Er; [|done]. intros [= <-]. cbn [concat].
  rewrite forallb_app, andb_true_iff, (IH rest eq_refl), Forall_cons.
  enough (forallb (fun s => bool_decide (is_Some (reverse s))) (map (finish_step rev (from_spec op)) op_steps) = true <->
    lower_operation op = Ok [] \/ rev = true /\ invertible op = true) as -> by done.
  pose proof (lower_operation_reverse op op_steps El) as Hl. rewrite El. destruct op_steps as [|st op_steps]; [cbn; split; [by left|done]|].
  rewrite forallb_forall. split.
  - intros H. right. specialize (H _ (or_introl eq_refl)). cbn in H. apply bool_decide_eq_true in H.
    apply Forall_cons in Hl as [Hl _]. destruct rev; [split; [done|by apply Hl]|]. by destruct H as [? [=]].
  - intros [[=]|[-> Hi]] x (y & <- & Hy)%in_map_iff. cbn. apply bool_decide_eq_true. rewrite Forall_forall in Hl.
    by apply (Hl y); [apply list_elem_of_In|].
Qed.

Lemma assemble_keys a ms : forall executions,
  try_map (assemble_migration a) ms = Ok executions -> map migration_key executions = map (fun m => (a, key m)) ms.
Proof using Type.
  induction ms as [|m ms IH]; intros es; cbn [try_map]; [by intros [= <-]|].
  destruct (assemble_migration a m) as [e|] eqn:E; [|done]. destruct (try_map _ ms) as [rest|] eqn:Er; [|done].
  intros [= <-]. cbn. rewrite (IH rest eq_refl). f_equal. unfold assemble_migration in E.
  destruct (assemble_steps _ _) as [steps|]; [|done]. by injection E as <-.
Qed.

(** The planned executions are those of the selection, in the same order. *)
Lemma plan_keys graph applied target ep :
  plan graph applied target = Some (Ok ep) ->
  exists selection, plan_selection graph applied target = Some (Ok selection) /\
    map migration_key (to_rollback ep ++ to_apply ep) = executions selection.
Proof using Type.
  unfold plan. destruct (plan_selection graph applied target) as [[[apply rollback]|]|]; [|done|done]. intros [= H].
  destruct (try_map (assemble_migration Apply) apply) as [es|] eqn:Ea; [|done].
  destruct (try_map (assemble_migration Rollback) rollback) as [es'|] eqn:Er; [|done]. injection H as <-.
  exists (apply, rollback). split; [done|]. unfold executions. cbn.
  by rewrite map_app, (assemble_keys _ _ _ Ea), (assemble_keys _ _ _ Er).
Qed.

(** ** What planning needs rendered *)

Inductive Rendering : Set :=
| RenderQuery (query : SchemaQuery)
| RenderSchema (schema : SchemaInfo)
| CheckCapability (capability : SchemaCapability)
| RenderCopy (owner source dest : str) (filter : option str).

Definition renders (x : Rendering) : Prop :=
  match x with
  | RenderQuery query => exists text, render_typeql r query = Ok text
  | RenderSchema schema => exists text, to_typeql r schema = Ok text
  | CheckCapability capability => check_capability r capability = Ok tt
  | RenderCopy owner source dest filter => exists copy, synthesized_copy r owner source dest filter = Ok copy
  end.

(** Both directions of every change of annotations. *)
Definition both_ways (name : str) (capability : option SchemaCapability) (diff : AnnotationTokenDiff) : list Rendering :=
  concat (map (fun change => [RenderQuery (annotation_query name capability change.1);
                              RenderQuery (annotation_query name capability change.2)]) (annotation_changes diff)).

Definition undefined (name : str) : Rendering := RenderQuery (QueryUndefine [UndefineType name]).

(** What has to go through the grammar for an operation; a rename of an attribute
    and a copy without TypeQL or a named owner, source and destination have no steps. *)
Definition required (op : OperationSpec) : option (list Rendering) :=
  match op with
  | RunTypeql _ _ | CopyAttribute _ _ _ _ (Some _) _ => Some []
  | CopyAttribute (Some owner) (Some source) (Some dest) filter None _ => Some [RenderCopy owner source dest filter]
  | CopyAttribute _ _ _ _ None _ | RenameAttribute _ _ _ => None
  | DefineSchema schema => Some [RenderSchema schema]
  | AddAttribute a => Some [RenderSchema (schema_info [] [] (mins (attr_name a) a [])); undefined (attr_name a)]
  | AddEntity e => Some [RenderSchema (schema_info (mins (entity_type_name e) e []) [] []); undefined (entity_type_name e)]
  | AddRelation l =>
      Some [RenderSchema (schema_info [] (mins (type_name l) l []) []);
            RenderQuery (QueryUndefine (concat (map (undefine_players (type_name l)) (roles l)) ++ [UndefineType (type_name l)]))]
  | RemoveAttribute name | RemoveEntity name | RemoveRelation name => Some [undefined name]
  | AddOwnership owner a =>
      Some [RenderQuery (QueryDefine [schema_type owner [] [Owns (owned_attr_name a) (owned_is_ordered a) (flags_string r a)]]);
            RenderQuery (QueryUndefine [UndefineCapability owner (Owns (owned_attr_name a) (owned_is_ordered a) [])])]
  | RemoveOwnership owner name => Some [RenderQuery (QueryUndefine [UndefineCapability owner (OwnsSource name [])])]
  | ModifyOwnership owner name old new =>
      Some (CheckCapability (OwnsSource name []) :: both_ways owner (Some (OwnsSource name []))
        (diff_annotation_tokens (render_token r) (split_annotation_tokens old) (split_annotation_tokens new)))
  | ModifyTypeAnnotations name old_doc new_doc old_meta new_meta =>
      Some (both_ways name None (diff_doc_meta old_doc new_doc old_meta new_meta))
  | ModifyRoleAnnotations relation role old_doc new_doc old_meta new_meta =>
      Some (CheckCapability (RelatesSource role []) :: both_ways relation (Some (RelatesSource role []))
        (diff_doc_meta old_doc new_doc old_meta new_meta))
  | AddRole relation role =>
      Some [RenderQuery (QueryDefine (schema_type relation [] [RelatesRole role] ::
              map (define_player relation (role_name role)) (player_type_names role)));
            RenderQuery (QueryUndefine (undefine_players relation role ++
              [UndefineCapability relation (Relates (role_name role) (ordered role))]))]
  | RemoveRole relation role => Some [RenderQuery (QueryUndefine [UndefineCapability relation (RelatesSource role [])])]
  | AddRolePlayer relation role player =>
      Some [RenderQuery (QueryDefine [define_player relation role player]);
            RenderQuery (QueryUndefine [UndefineCapability player (Plays relation role)])]
  | RemoveRolePlayer relation role player =>
      Some [RenderQuery (QueryUndefine [UndefineCapability player (Plays relation role)]);
            RenderQuery (QueryDefine [define_player relation role player])]
  end.

Lemma render_query_iff q : (exists text, render_query q = Ok text) <-> renders (RenderQuery q).
Proof using Type. unfold render_query. cbn. destruct (render_typeql r q); split; intros [? [=]]; by eexists. Qed.

Lemma schema_to_typeql_iff s : (exists text, schema_to_typeql s = Ok text) <-> renders (RenderSchema s).
Proof using Type. unfold schema_to_typeql. cbn. destruct (to_typeql r s); split; intros [? [=]]; by eexists. Qed.

Lemma reversible_step_iff f b x y :
  (exists text, f = Ok text) <-> renders x -> (exists text, b = Ok text) <-> renders y ->
  (exists steps, reversible_step f b = Ok steps) <-> Forall renders [x; y].
Proof using Type.
  intros Hx Hy. rewrite Forall_cons, Forall_singleton, <- Hx, <- Hy. unfold reversible_step.
  destruct f, b; split; naive_solver.
Qed.

Lemma final_step_iff f x :
  (exists text, f = Ok text) <-> renders x -> (exists steps, final_step f = Ok steps) <-> Forall renders [x].
Proof using Type. intros Hx. rewrite Forall_singleton, <- Hx. unfold final_step. destruct f; split; naive_solver. Qed.

Lemma annotation_token_steps_iff name capability diff :
  (exists steps, annotation_token_steps name capability diff = Ok steps) <-> Forall renders (both_ways name capability diff).
Proof using Type.
  unfold annotation_token_steps, both_ways. rewrite try_map_ok_iff, <- flat_map_concat_map, Forall_flat_map.
  apply Forall_iff. intros change. rewrite Forall_cons, Forall_singleton, <- !render_query_iff. unfold annotation_step.
  destruct (render_query _) as [f|]; [|naive_solver]. destruct (render_query _) as [b|]; naive_solver.
Qed.

Lemma checked_iff capability (res : result MigrationError (list ExecutionStep)) xs :
  (exists steps, res = Ok steps) <-> Forall renders xs ->
  (exists steps, (let? _ := map_err AuthoringInput (check_capability r capability) in res) = Ok steps) <->
  Forall renders (CheckCapability capability :: xs).
Proof using Type.
  intros H. rewrite Forall_cons, <- H. cbn. destruct (check_capability r capability) as [[]|]; cbn; naive_solver.
Qed.

Lemma lower_operation_iff op :
  (exists steps, lower_operation op = Ok steps) <-> exists xs, required op = Some xs /\ Forall renders xs.
Proof using Type.
  assert (forall xs P, P <-> Forall renders xs -> P <-> exists ys, Some xs = Some ys /\ Forall renders ys) as Hsome.
  { intros xs P ->. split; [by exists xs|]. by intros (? & [= <-] & ?). }
  destruct op as [| | | | | | | | | | | | | | | | | |owner source dest filter carried undo]; cbn [lower_operation required];
    try (apply Hsome;
      first [apply checked_iff, annotation_token_steps_iff|apply annotation_token_steps_iff
            |apply reversible_step_iff; [apply schema_to_typeql_iff || apply render_query_iff|apply render_query_iff]
            |apply final_step_iff, render_query_iff]).
  - apply Hsome. rewrite Forall_singleton, <- schema_to_typeql_iff. destruct (schema_to_typeql _); naive_solver.
  - apply Hsome. split; [constructor|by eexists].
  - split; [by intros [? [=]]|by intros (? & [=] & _)].
  - unfold copy_attribute_typeql. destruct carried as [text|].
    { destruct owner, source, dest; apply Hsome; (split; [constructor|by eexists]). }
    destruct owner, source, dest; try (split; [by intros [? [=]]|by intros (? & [=] & _)]). apply Hsome.
    rewrite Forall_singleton. cbn. destruct (synthesized_copy _ _ _ _ _); cbn; naive_solver.
Qed.

Lemma assemble_migration_iff a m :
  (exists e, assemble_migration a m = Ok e) <->
  Forall (fun op => exists xs, required op = Some xs /\ Forall renders xs) (kept_operations (operations m)).
Proof using Type.
  transitivity (exists steps, try_map (assemble_operation (ReleasedSpec.reversible m)) (kept_operations (operations m)) = Ok steps).
  { unfold assemble_migration, assemble_steps. destruct (try_map _ _); naive_solver. }
  rewrite try_map_ok_iff. apply Forall_iff. intros op. rewrite <- lower_operation_iff. unfold assemble_operation.
  destruct (lower_operation op); naive_solver.
Qed.

(** The migrations a plan runs: those intended that are not applied, and those applied
    that are not intended. *)
Lemma selected_iff graph applied target apply rollback m :
  graph_ok graph applied -> select graph (sof (map record_key applied)) target = Ok (apply, rollback) ->
  m ∈ migrations graph ->
  m ∈ apply \/ m ∈ rollback <-> (m ∈ intended graph target <-> key m ∉ map record_key applied).
Proof using Type.
  intros Hg (rest & E & -> & _ & ->)%select_spec Hm. rewrite elem_of_rev, !list_elem_of_In, !filter_In, <- !list_elem_of_In.
  rewrite negb_true_iff, smem_true, smem_false, elem_sof. pose proof (go_keys _ _ Hg) as Hn.
  rewrite E in Hm, Hn. rewrite map_app, NoDup_app in Hn. destruct Hn as (_ & Hdis & _).
  assert (m ∈ intended graph target -> m ∈ rest -> False) as Hd.
  { intros H1 H2. apply (Hdis (key m)); apply list_elem_of_fmap; by exists m. }
  rewrite elem_of_app in Hm. destruct (decide (key m ∈ map record_key applied)); tauto.
Qed.

Lemma plan_iff graph applied target :
  exists res, plan graph applied target = Some res /\
    ((exists ep, res = Ok ep) <->
     graph_ok graph applied /\
     (forall a, a ∈ applied ->
        exists m, m ∈ migrations graph /\ key m = record_key a /\ checksum m = Some (applied_checksum a)) /\
     roles_respect (declared [] []) (concat (map operations (migrations graph))) /\
     (forall t, target = Some t -> exists m, m ∈ migrations graph /\ is_target t m = true) /\
     forall m op, m ∈ migrations graph -> (m ∈ intended graph target <-> key m ∉ map record_key applied) ->
       op ∈ kept_operations (operations m) -> exists xs, required op = Some xs /\ Forall renders xs).
Proof using Type.
  destruct (plan_selection_iff graph applied target) as (res & Hres & Hiff). unfold plan. rewrite Hres.
  destruct res as [[apply rollback]|e].
  2:{ eexists. split; [done|]. split; [by intros [? [=]]|]. intros (H1 & H2 & H3 & H4 & _).
      by destruct (proj2 Hiff) as [? [=]]. }
  destruct (proj1 Hiff) as (H1 & H2 & H3 & H4); [by eexists|]. apply plan_ok in Hres as [_ Hsel].
  eexists. split; [done|]. pose proof (try_map_ok_iff (assemble_migration Apply) apply) as Ha.
  pose proof (try_map_ok_iff (assemble_migration Rollback) rollback) as Hr.
  rewrite Forall_forall in Ha, Hr. setoid_rewrite assemble_migration_iff in Ha. setoid_rewrite assemble_migration_iff in Hr.
  setoid_rewrite Forall_forall in Ha. setoid_rewrite Forall_forall in Hr.
  assert (forall m, m ∈ apply \/ m ∈ rollback -> m ∈ migrations graph) as Hin.
  { apply select_spec in Hsel as (rest & E & -> & _ & ->). intros m. rewrite E, elem_of_app, elem_of_rev, !list_elem_of_In, !filter_In, <- !list_elem_of_In. tauto. }
  transitivity ((exists es, try_map (assemble_migration Apply) apply = Ok es) /\
    (exists es, try_map (assemble_migration Rollback) rollback = Ok es)).
  { destruct (try_map (assemble_migration Apply) apply); [|naive_solver].
    destruct (try_map (assemble_migration Rollback) rollback); naive_solver. }
  rewrite Ha, Hr. split.
  - intros [Ka Kr]. split_and!; [done..|]. intros m op Hm Hs Hop. apply (selected_iff _ _ _ apply rollback m) in Hs as [Hs|Hs]; eauto.
  - intros (_ & _ & _ & _ & H). split; intros m Hm op Hop; apply (H m op); auto; apply (selected_iff _ _ _ apply rollback); auto.
Qed.
End assembly.

(** C15. [plan] always ends, and it makes a plan exactly when the graph and the
    ledger are well formed, every applied migration still has its recorded checksum,
    every added role keeps the ordering of the role it overrides, the target names a
    migration, and every operation of a migration to apply or to roll back that the
    removal of its relation does not cover can be lowered: it is no rename of an
    attribute and no underspecified copy, and the grammar renders what it needs. *)
Theorem plan_accepts_iff r graph applied target :
  exists res, plan r graph applied target = Some res /\
    ((exists ep, res = Ok ep) <->
     graph_ok graph applied /\
     (forall a, a ∈ applied ->
        exists m, m ∈ migrations graph /\ key m = record_key a /\ checksum m = Some (applied_checksum a)) /\
     roles_respect (declared [] []) (concat (map operations (migrations graph))) /\
     (forall t, target = Some t -> exists m, m ∈ migrations graph /\ is_target t m = true) /\
     forall m op, m ∈ migrations graph -> (m ∈ intended graph target <-> key m ∉ map record_key applied) ->
       op ∈ kept_operations (operations m) -> exists xs, required r op = Some xs /\ Forall (renders r) xs).
Proof. apply plan_iff. Qed.

(** A plan over an empty ledger applies every migration in discovery order. *)
Lemma fresh_executions r graph ep :
  plan r graph [] None = Some (Ok ep) ->
  graph_ok graph [] /\ map migration_key (to_rollback ep ++ to_apply ep) = map (fun m => (Apply, key m)) (migrations graph).
Proof.
  intros ([apply rollback] & Hp & ->)%plan_keys. apply plan_ok in Hp as [Hg Hs]. split; [done|].
  apply select_spec in Hs as (rest & E & -> & Hrest & ->). rewrite (Hrest eq_refl). unfold executions. cbn.
  f_equal. clear. induction (migrations graph) as [|m ms IH]; cbn; [done|]. by rewrite IH.
Qed.

(** C40. The planner keeps the discovery order, which the validation does not require to
    be a dependency order. Over an empty ledger the applied migrations are closed
    under dependencies after every migration of the run exactly when every
    dependency is discovered before its dependent; and a ledger that is not closed,
    as a run that stops can leave it, is refused by every later plan. *)
Theorem plan_closed_iff_discovered r graph ep :
  plan r graph [] None = Some (Ok ep) ->
  ((forall n, closed graph (fold_left recorded (firstn n (map migration_key (to_rollback ep ++ to_apply ep))) [])) <->
   discovered graph) /\
  forall applied target ep', ~ closed graph (map record_key applied) -> plan r graph applied target <> Some (Ok ep').
Proof.
  intros Hp. split.
  - split.
    + apply fresh_executions in Hp as [Hg ->]. intros H pre m post E d Hd.
      assert (firstn (S (length pre)) (migrations graph) = pre ++ [m]) as Ef.
      { rewrite E, firstn_app, firstn_all2, Nat.sub_succ_l, Nat.sub_diag by lia. done. }
      assert (depends graph (key m) (dependency_key d)) as Hdep.
      { exists m, d. split_and!; [|done..]. rewrite E. apply elem_of_app. right. apply list_elem_of_here. }
      specialize (H (S (length pre)) _ _ Hdep).
      rewrite firstn_map, !recorded_applies, Ef, map_app, !elem_of_app in H. cbn [map] in H. rewrite !list_elem_of_singleton in H.
      destruct H as [H%not_elem_of_nil|[H|H]]; [by right; right|done|done|].
      destruct (go_acyclic _ _ Hg (key m)). apply tc_once. by rewrite <- H at 2.
    + intros Hd n. apply plan_keys in Hp as (selection & Hs & ->).
      by apply (plan_keeps_dependencies graph [] None selection n Hs Hd).
  - intros applied target ep' Hc (selection & [Hg _]%plan_ok & _)%plan_keys. apply Hc. exact (go_closed _ _ Hg).
Qed.

(** An assembled migration can be rolled back exactly when every operation that
    is not covered by the removal of its relation either needs no step or is
    invertible in a reversible migration. *)
Theorem assemble_reversible_iff r a m e :
  assemble_migration r a m = Ok e ->
  execution_reversible e = true <->
  Forall (fun op => lower_operation r op = Ok [] \/ (ReleasedSpec.reversible m = true /\ invertible op = true))
    (kept_operations (operations m)).
Proof.
  unfold assemble_migration, assemble_steps. destruct (try_map _ _) as [steps|] eqn:E; [|done]. intros [= <-].
  by apply assembled_reverses.
Qed.

(** ** Examples *)

(** A renderer that prints the kind of query. *)
Definition plain : Renderer :=
  renderer (fun q => Ok (match q with QueryDefine _ => b#"define" | QueryRedefine _ => b#"redefine" | QueryUndefine _ => b#"undefine" end))
    (fun _ => Ok b#"define") (fun _ => []) flag string_literal
    (fun k v => flag (annotation_token b#"meta" (Some (string_literal k ++ b#", " ++ string_literal v)))) (fun _ => Ok tt)
    (fun _ _ _ _ => Ok (b#"copy", b#"undo")).

Definition example_addition : MigrationSpec :=
  migration_spec b#"app" b#"0002_player" [] [AddRolePlayer b#"employment" b#"employee" b#"person"] None None true.

Lemma assemble_reversible_iff_witness :
  exists e, assemble_migration plain Rollback example_addition = Ok e /\ execution_reversible e = true.
Proof.
  eexists. split; [vm_compute; reflexivity|].
  apply (proj2 (assemble_reversible_iff plain Rollback example_addition
    (migration_execution b#"app" b#"0002_player" Rollback
       [execution_step TxSchema StepSchema KAddRolePlayer b#"define" (Some b#"undefine")] true)
    ltac:(vm_compute; reflexivity))).
  apply Forall_cons_2; [right; split; reflexivity|apply Forall_nil_2].
Defined.

(** A graph that is valid although a dependency is discovered after its dependent. *)
Definition out_of_order : MigrationGraph :=
  migration_graph [example_migration b#"0001_late" [b#"0002_base"]; example_migration b#"0002_base" []].

Lemma plan_closed_iff_discovered_witness :
  exists ep, plan plain out_of_order [] None = Some (Ok ep) /\
    ~ (forall n, closed out_of_order (fold_left recorded (firstn n (map migration_key (to_rollback ep ++ to_apply ep))) [])).
Proof.
  destruct (plan plain out_of_order [] None) as [[ep|]|] eqn:E; [|vm_compute in E; discriminate..].
  exists ep. split; [reflexivity|]. destruct (plan_closed_iff_discovered plain out_of_order ep E) as [[H _] _].
  intros Hc. specialize (H Hc [] _ _ eq_refl (dependency_spec b#"app" b#"0002_base") (list_elem_of_here _ _)).
  by apply not_elem_of_nil in H.
Defined.

End ReleasedSteps.
