(* ===== verification/ReleasedRunLog.v ===== *)
(** * The migrate command of the released engine (migration/src/executor.rs,
      state/mod.rs, bin/type_bridge_migration.rs)

    The execution of a plan with a run log, and the command that plans, executes
    and records. The state store's answers, the clock and fresh identifiers are
    arguments, like the session's answers. The recorded migrations stay closed under
    dependencies whatever fails; when the command succeeds they are the intended
    ones. A failing run log loses the record of migrations that were applied. *)

From S2P Require Import Prelude BTree Text ReleasedSpec ReleasedGraph ReleasedPlan ReleasedExecutor ReleasedSteps.
Import ReleasedSpec ReleasedGraph ReleasedPlan ReleasedExecutor ReleasedSteps.

Module ReleasedRunLog.

Record MigrationExecutorInfo : Set := migration_executor_info {
  ip : option str;
  mac : option str }.

Record MigrationRunRecord : Set := migration_run_record {
  run_id : str;
  run_app_label : str;
  run_name : str;
  run_checksum : str;
  direction : str;
  status : str;
  started_at : str;
  finished_at : option str;
  run_error : option str;
  executor_ip : option str;
  executor_mac : option str }.

Definition direction_label (a : MigrationAction) : str :=
  match a with Apply => b#"apply" | Rollback => b#"rollback" end.

Definition started_run_record (id now : str) (m : MigrationExecution) (checksum : str) (executor : MigrationExecutorInfo)
    : MigrationRunRecord :=
  migration_run_record id (execution_app_label m) (execution_name m) checksum (direction_label (action m)) b#"started"
    now None None (ip executor) (mac executor).

Definition finished_run_record (now : str) (run : MigrationRunRecord) (final_status : str) (error : option str)
    : MigrationRunRecord :=
  migration_run_record (run_id run) (run_app_label run) (run_name run) (run_checksum run) (direction run) final_status
    (started_at run) (Some now) error (executor_ip run) (executor_mac run).

(** A call on the state store, with its answer. *)
Inductive StoreCall : Set :=
| RecordRun (run : MigrationRunRecord) (answer : result str ())
| RecordApplied (record : AppliedMigrationRecord) (answer : result str ())
| RecordUnapplied (app_label name : str) (answer : result str ()).

Record Store : Set := store {
  record_run : list (Event StoreCall) -> MigrationRunRecord -> result str ();
  record_applied : list (Event StoreCall) -> AppliedMigrationRecord -> result str ();
  record_unapplied : list (Event StoreCall) -> str -> str -> result str ();
  new_run_id : list (Event StoreCall) -> str;
  migration_timestamp_now : list (Event StoreCall) -> str }.

Section migrate.
Context (s : Session StoreCall) (st : Store) (executor : MigrationExecutorInfo).

Definition log_run (run : MigrationRunRecord) : M StoreCall (result str ()) :=
  call (fun h => record_run st h run) (fun answer => Ledger (RecordRun run answer)).

(** What is read without a call on the session or the store. *)
Definition peek {X} (f : list (Event StoreCall) -> X) : M StoreCall X := fun h => (f h, []).

Definition execute_logged_migration (checksums : BTreeMap (str * str) str) (m : MigrationExecution)
    : M StoreCall (result str MigrationResult) :=
  let> opened := writer_open s in
  match opened with
  | Err e => ret (Err e)
  | Ok _ =>
      let checksum := default [] (mget (execution_app_label m, execution_name m) checksums) in
      let> run := peek (fun h => started_run_record (new_run_id st h) (migration_timestamp_now st h) m checksum executor) in
      let> logged := log_run run in
      match logged with
      | Err e => ret (Err e)
      | Ok _ =>
          let> outcome := execute_migration s m in
          let final_status := if success outcome then b#"succeeded" else b#"failed" in
          let> finished :=
            peek (fun h => finished_run_record (migration_timestamp_now st h) run final_status (error outcome)) in
          let> logged := log_run finished in
          match logged with
          | Err e => ret (Err e)
          | Ok _ => ret (Ok outcome)
          end
      end
  end.

Fixpoint execute_all_logged (checksums : BTreeMap (str * str) str) (ms : list MigrationExecution)
    : M StoreCall (result str (list MigrationResult)) :=
  match ms with
  | [] => ret (Ok [])
  | m :: ms =>
      let> outcome := execute_logged_migration checksums m in
      match outcome with
      | Err e => ret (Err e)
      | Ok outcome =>
          if success outcome
          then let> rest := execute_all_logged checksums ms in
               ret (match rest with Ok results => Ok (outcome :: results) | Err e => Err e end)
          else ret (Ok [outcome])
      end
  end.

Definition execute_plan_with_run_log (plan : ExecutionPlan) (checksums : BTreeMap (str * str) str)
    : M StoreCall (result str (list MigrationResult)) :=
  execute_all_logged checksums (to_rollback plan ++ to_apply plan).

Definition migration_checksums (graph : MigrationGraph) : BTreeMap (str * str) str :=
  mof (map (fun m => (key m, default [] (checksum m))) (migrations graph)).

(** The checksum of the loaded migration with the labels of a result. *)
Definition result_checksum (graph : MigrationGraph) (outcome : MigrationResult) : str :=
  match List.find (fun m => str_eqb (app_label m) (result_app_label outcome) && str_eqb (name m) (result_name outcome))
          (migrations graph) with
  | Some m => default [] (checksum m)
  | None => []
  end.

Definition record_result (graph : MigrationGraph) (outcome : MigrationResult) : M StoreCall (result str ()) :=
  match result_action outcome with
  | Apply =>
      let record := applied_migration (result_app_label outcome) (result_name outcome) (result_checksum graph outcome) None in
      call (fun h => record_applied st h record) (fun answer => Ledger (RecordApplied record answer))
  | Rollback =>
      call (fun h => record_unapplied st h (result_app_label outcome) (result_name outcome))
        (fun answer => Ledger (RecordUnapplied (result_app_label outcome) (result_name outcome) answer))
  end.

(** The results one after the other; whether one failed. *)
Fixpoint record_all (graph : MigrationGraph) (results : list MigrationResult) (any_failure : bool)
    : M StoreCall (result str bool) :=
  match results with
  | [] => ret (Ok any_failure)
  | outcome :: results =>
      if success outcome
      then let> recorded := record_result graph outcome in
           match recorded with
           | Err e => ret (Err e)
           | Ok _ => record_all graph results any_failure
           end
      else record_all graph results true
  end.

Inductive CommandError : Set :=
| PlanningFailed (e : MigrationError)
| StateFailed (e : str)
| ReportedExit.

(** [cmd_migrate] from the loaded graph and applied records on; [None] as in
    [plan]. *)
Definition cmd_migrate (r : Renderer) (graph : MigrationGraph) (applied : list AppliedMigrationRecord) (target : option str)
    : M StoreCall (option (result CommandError ())) :=
  match plan r graph applied target with
  | None => ret None
  | Some (Err e) => ret (Some (Err (PlanningFailed e)))
  | Some (Ok plan) =>
      match to_apply plan, to_rollback plan with
      | [], [] => ret (Some (Ok tt))
      | _, _ =>
          let> ran := execute_plan_with_run_log plan (migration_checksums graph) in
          match ran with
          | Err e => ret (Some (Err (StateFailed e)))
          | Ok results =>
              let> recorded := record_all graph results false in
              ret (Some (match recorded with
                         | Err e => Err (StateFailed e)
                         | Ok true => Err ReportedExit
                         | Ok false => Ok tt
                         end))
          end
      end
  end.

End migrate.

(** ** The recorded migrations *)

(** The applied migrations the store holds after some calls. *)
Fixpoint ledger_after (ledger : list MigrationKey) (events : list (Event StoreCall)) : list MigrationKey :=
  match events with
  | [] => ledger
  | Ledger (RecordApplied record (Ok _)) :: events => ledger_after (recorded ledger (Apply, record_key record)) events
  | Ledger (RecordUnapplied label stem (Ok _)) :: events => ledger_after (recorded ledger (Rollback, (label, stem))) events
  | _ :: events => ledger_after ledger events
  end.

Lemma ledger_after_app xs ys : forall ledger, ledger_after ledger (xs ++ ys) = ledger_after (ledger_after ledger xs) ys.
Proof. induction xs as [|[| | | | | | |[|? []|? ? []]] xs IH]; intros ledger; cbn; by rewrite ?IH. Qed.

(** Calls that record no migration. *)
Definition quiet (seg : list (Event StoreCall)) : Prop := forall ledger, ledger_after ledger seg = ledger.

Lemma quiet_app xs ys : quiet xs -> quiet ys -> quiet (xs ++ ys).
Proof. intros Hx Hy ledger. by rewrite ledger_after_app, Hx, Hy. Qed.

(** No call on the store at all. *)
Definition silent (seg : list (Event StoreCall)) : Prop :=
  Forall (fun e => match e with Ledger _ => False | _ => True end) seg.

Lemma silent_quiet seg : silent seg -> quiet seg.
Proof. induction 1 as [|[| | | | | | |] seg He Hs IH]; intros ledger; cbn; try done; apply IH. Qed.

Section commands.
Context (s : Session StoreCall) (st : Store) (executor : MigrationExecutorInfo).

Lemma execute_step_silent a step h r seg : execute_step s a step h = (r, seg) -> silent seg.
Proof using Type.
  unfold execute_step, open_tx, writer_open_in, run_query, commit_tx, abandon. intros H.
  run_calls H; injection H as <- <-; repeat constructor.
Qed.

Lemma execute_backfill_silent step i h r seg : execute_backfill s step i h = (r, seg) -> silent seg.
Proof using Type.
  unfold execute_backfill, prepare_backfill, run_count, open_tx, writer_open_in, run_query, commit_tx, abandon.
  destruct (backfill_count_views s (forward step)) as [[guarded total]|e]; [|intros [= <- <-]; constructor].
  intros H. run_calls H; injection H as <- <-; repeat constructor.
Qed.

Lemma execute_steps_silent m todo : forall i backfills h r seg, execute_steps s m i todo backfills h = (r, seg) -> silent seg.
Proof using Type.
  induction todo as [|step todo IH]; intros i backfills h r seg; cbn [execute_steps]; [intros [= <- <-]; constructor|].
  destruct (is_backfill (action m) step); intros (r1 & seg1 & seg2 & H1 & H & ->)%bind_inv.
  - apply Forall_app. split; [by eapply execute_backfill_silent|]. destruct r1; [by eapply IH|injection H as <- <-; constructor].
  - apply Forall_app. split; [by eapply execute_step_silent|]. destruct r1; [by eapply IH|injection H as <- <-; constructor].
Qed.

Lemma execute_migration_silent m h r seg : execute_migration s m h = (r, seg) -> silent seg.
Proof using Type.
  assert (bind (writer_open s) (fun g => match g with Err e => ret (failed m e) | Ok _ => execute_steps s m 0 (steps m) [] end) h
    = (r, seg) -> silent seg) as Hgo.
  { intros (g & seg1 & seg2 & [= <- <-] & H & ->)%bind_inv. apply Forall_app. split; [by repeat constructor|].
    destruct (require_legacy_writer_open s h); [by eapply execute_steps_silent|injection H as <- <-; constructor]. }
  unfold execute_migration. destruct (action m), (execution_reversible m); [exact Hgo..|intros [= <- <-]; constructor].
Qed.

(** A logged migration records nothing; its result is the migration's. *)
Lemma logged_migration_spec checksums m h r seg :
  execute_logged_migration s st executor checksums m h = (r, seg) ->
  quiet seg /\ forall outcome, r = Ok outcome -> result_key outcome = migration_key m.
Proof using Type.
  intros (g & seg1 & seg2 & [= <- <-] & H & ->)%bind_inv. destruct (require_legacy_writer_open s h); [|by injection H as <- <-].
  apply bind_inv in H as (run & seg3 & seg4 & [= <- <-] & H & ->). apply bind_inv in H as (l & seg5 & seg6 & [= <- <-] & H & ->).
  destruct (record_run st _ _); [|by injection H as <- <-]. apply bind_inv in H as (outcome & seg7 & seg8 & Hm & H & ->).
  apply bind_inv in H as (fin & seg9 & seg10 & [= <- <-] & H & ->). apply bind_inv in H as (l & seg11 & seg12 & [= <- <-] & H & ->).
  assert (quiet seg7) as Hq by (by eapply silent_quiet, execute_migration_silent).
  match type of Hm with execute_migration s m ?h = _ => pose proof (execute_migration_key s m h) as Hk end. rewrite Hm in Hk.
  destruct (record_run st _ _); injection H as <- <-;
    (split; [intros ledger; rewrite !ledger_after_app; cbn; by rewrite !Hq|by intros ? [= <-]]).
Qed.

Lemma logged_all_spec checksums ms : forall h r seg,
  execute_all_logged s st executor checksums ms h = (r, seg) ->
  quiet seg /\ forall results, r = Ok results -> exists n,
    map result_key (List.filter success results) = firstn n (map migration_key ms) /\
    (Forall (fun outcome => success outcome = true) results -> (length ms <= n)%nat).
Proof using Type.
  induction ms as [|m ms IH]; intros h r seg; cbn [execute_all_logged].
  { intros [= <- <-]. split; [done|]. intros ? [= <-]. by exists 0%nat. }
  intros (o & seg1 & seg2 & H1 & H & ->)%bind_inv. apply logged_migration_spec in H1 as [Hq Hk].
  destruct o as [outcome|e]; [|injection H as <- <-; split; [by rewrite app_nil_r|done]].
  specialize (Hk outcome eq_refl). destruct (success outcome) eqn:Es.
  - apply bind_inv in H as (rest & seg3 & seg4 & H2 & [= <- <-] & ->). rewrite app_nil_r.
    apply IH in H2 as [Hq' Hr]. split; [by apply quiet_app|]. destruct rest as [results|]; [|done]. intros ? [= <-].
    destruct (Hr results eq_refl) as (n & Hn & Hall). exists (S n). cbn. rewrite Es. cbn. rewrite Hn, Hk. split; [done|].
    intros [_ H]%Forall_cons. specialize (Hall H). lia.
  - injection H as <- <-. split; [by rewrite app_nil_r|]. intros ? [= <-]. exists 0%nat. cbn. rewrite Es. split; [done|].
    intros [H _]%Forall_cons. congruence.
Qed.

Lemma record_result_spec graph outcome h r seg ledger :
  record_result st graph outcome h = (r, seg) ->
  ledger_after ledger seg = match r with Ok _ => recorded ledger (result_key outcome) | Err _ => ledger end.
Proof using Type.
  unfold record_result, call, result_key. destruct (result_action outcome); intros [= <- <-]; cbn.
  - by destruct (record_applied st h _).
  - by destruct (record_unapplied st h _ _).
Qed.

(** The records are those of a prefix of the successes, of all of them unless a
    record fails. *)
Lemma record_all_spec graph results : forall any h r seg ledger,
  record_all st graph results any h = (r, seg) ->
  exists n, ledger_after ledger seg = fold_left recorded (firstn n (map result_key (List.filter success results))) ledger /\
    (forall failure, r = Ok failure -> (length (List.filter success results) <= n)%nat /\
       (failure = false -> any = false /\ Forall (fun outcome => success outcome = true) results)).
Proof using Type.
  induction results as [|outcome results IH]; intros any h r seg ledger; cbn [record_all].
  { intros [= <- <-]. exists 0%nat. split; [done|]. intros failure [= <-]. split; [done|]. by split. }
  cbn [List.filter]. destruct (success outcome) eqn:Es.
  - intros (o & seg1 & seg2 & H1 & H & ->)%bind_inv. apply (record_result_spec _ _ _ _ _ ledger) in H1.
    rewrite ledger_after_app, H1. destruct o as [u|e].
    + apply (IH _ _ _ _ (recorded ledger (result_key outcome))) in H as (n & Hn & Hr). exists (S n). split; [exact Hn|].
      intros failure E. destruct (Hr failure E) as [Hl Hf]. cbn. split; [lia|]. intros E'. destruct (Hf E') as [-> H]. split; [done|].
      by constructor.
    + injection H as <- <-. by exists 0%nat.
  - intros H. apply (IH _ _ _ _ ledger) in H as (n & Hn & Hr). exists n. split; [done|].
    intros failure E. destruct (Hr failure E) as [Hl Hf]. split; [done|]. intros E'. by destruct (Hf E') as [? _].
Qed.

Lemma run_and_record graph ms checksums h ran seg ledger :
  execute_all_logged s st executor checksums ms h = (ran, seg) ->
  forall h' outcome seg',
    match ran with
    | Err e => ret (Some (Err (StateFailed e)))
    | Ok results =>
        bind (record_all st graph results false) (fun recorded => ret (Some (match recorded with
          | Err e => Err (StateFailed e)
          | Ok true => Err ReportedExit
          | Ok false => Ok tt
          end)))
    end h' = (outcome, seg') ->
  exists n, ledger_after ledger (seg ++ seg') = fold_left recorded (firstn n (map migration_key ms)) ledger /\
    (outcome = Some (Ok tt) -> (length ms <= n)%nat).
Proof using Type.
  intros [Hq Hr]%logged_all_spec h' outcome seg' H. rewrite ledger_after_app, Hq.
  destruct ran as [results|e]; [|injection H as <- <-; by exists 0%nat].
  destruct (Hr results eq_refl) as (n & Hn & Hall).
  apply bind_inv in H as (rec & seg1 & seg2 & H & [= <- <-] & ->). rewrite app_nil_r.
  apply (record_all_spec _ _ _ _ _ _ ledger) in H as (n' & Hl & Hf).
  exists (Nat.min n' n). rewrite Hl, Hn, firstn_firstn. split; [done|]. intros E.
  destruct rec as [[]|]; try done. destruct (Hf false eq_refl) as [Hlen Hs]. destruct (Hs eq_refl) as [_ Hok]. specialize (Hall Hok).
  rewrite <- (length_map result_key), Hn, length_firstn, length_map in Hlen. lia.
Qed.

(** *** A refused run record *)

(** The state of [m] when the run log refuses [run]: nothing is committed when the
    start cannot be logged, everything when a success cannot. *)
Record lost (m : MigrationExecution) (run : MigrationRunRecord) (committed : list str) : Prop := {
  lost_label : run_app_label run = execution_app_label m;
  lost_name : run_name run = execution_name m;
  lost_part : exists k, committed = firstn k (statements m);
  lost_started : status run = b#"started" -> committed = [];
  lost_succeeded : status run = b#"succeeded" -> committed = statements m }.

Lemma silent_refused seg run e : silent seg -> Ledger (RecordRun run (Err e)) ∉ seg.
Proof using Type. intros H Hin. unfold silent in H. rewrite Forall_forall in H. exact (H _ Hin). Qed.

Lemma migration_committed m h r seg pending :
  execute_migration s m h = (r, seg) ->
  (exists k, durable pending seg = firstn k (statements m)) /\ (success r = true -> durable pending seg = statements m).
Proof using Type.
  intros (k & -> & Hk)%(execute_migration_durable s _ _ _ _ pending). split; [by exists k|]. intros Hs. rewrite Hs in Hk.
  apply firstn_all2. unfold statements. rewrite length_map. lia.
Qed.

Lemma logged_migration_log checksums m h r seg pending :
  execute_logged_migration s st executor checksums m h = (r, seg) ->
  (forall run e, Ledger (RecordRun run (Err e)) ∈ seg -> r = Err e /\ lost m run (durable pending seg)) /\
  (forall outcome, r = Ok outcome -> success outcome = true -> durable pending seg = statements m).
Proof using Type.
  intros (g & seg1 & seg2 & [= <- <-] & H & ->)%bind_inv. destruct (require_legacy_writer_open s h) as [u|e0].
  2:{ injection H as <- <-. split; [|done]. intros run e Hin. apply list_elem_of_singleton in Hin. discriminate. }
  apply bind_inv in H as (run & seg3 & seg4 & [= <- <-] & H & ->). apply bind_inv in H as (l & seg5 & seg6 & [= <- <-] & H & ->).
  set (run := started_run_record _ _ _ _ _) in *.
  destruct (record_run st _ run) as [u'|e1] eqn:E1.
  2:{ injection H as <- <-. split; [|done]. intros run' e Hin. cbn [app] in Hin. rewrite !elem_of_cons in Hin. destruct Hin as [[=]|[[= -> ->]|Hin]].
      - split; [done|]. cbn. split; try done. by exists 0%nat.
      - by apply not_elem_of_nil in Hin. }
  apply bind_inv in H as (outcome & seg7 & seg8 & Hm & H & ->).
  apply bind_inv in H as (fin & seg9 & seg10 & [= <- <-] & H & ->). apply bind_inv in H as (l & seg11 & seg12 & [= <- <-] & H & ->).
  pose proof (execute_migration_silent _ _ _ _ Hm) as Hsilent.
  destruct (migration_committed _ _ _ _ pending Hm) as [Hpart Hall].
  set (fin := finished_run_record _ _ _ _) in *.
  cbn [app]. rewrite ?app_nil_r in H. rewrite !app_nil_r. cbn [durable]. rewrite durable_app.
  destruct (record_run st _ fin) as [u2|e2] eqn:E2; injection H as <- <-; cbn [app durable]; rewrite ?app_nil_r.
  - split; [|by intros ? [= <-]]. intros run' e Hin. exfalso.
    rewrite !elem_of_cons, elem_of_app, list_elem_of_singleton in Hin.
    destruct Hin as [[=]|[[=]|[Hin|[=]]]]. by eapply silent_refused.
  - split; [|done]. intros run' e Hin. rewrite !elem_of_cons, elem_of_app, list_elem_of_singleton in Hin.
    destruct Hin as [[=]|[[=]|[Hin|[= -> ->]]]]; [by destruct (silent_refused _ _ _ Hsilent Hin)|]. split; [done|].
    split; try done; unfold fin, run; cbn; destruct (success outcome); try done; try discriminate; auto.
Qed.

Lemma logged_all_log checksums ms : forall h r seg pending run e,
  execute_all_logged s st executor checksums ms h = (r, seg) -> Ledger (RecordRun run (Err e)) ∈ seg ->
  r = Err e /\ exists pre m post committed, ms = pre ++ m :: post /\
    durable pending seg = concat (map statements pre) ++ committed /\ lost m run committed.
Proof using Type.
  induction ms as [|m ms IH]; intros h r seg pending run e; cbn [execute_all_logged]; [by intros [= <- <-] ?%not_elem_of_nil|].
  intros (o & seg1 & seg2 & H1 & H & ->)%bind_inv Hin. apply (logged_migration_log _ _ _ _ _ pending) in H1 as [Hlog Hok].
  rewrite elem_of_app in Hin. destruct Hin as [Hin|Hin].
  - destruct (Hlog _ _ Hin) as [-> Hlost]. injection H as <- <-. rewrite app_nil_r. split; [done|].
    by exists [], m, ms, (durable pending seg1).
  - destruct o as [outcome|e']; [|injection H as <- <-; by apply not_elem_of_nil in Hin].
    destruct (success outcome) eqn:Es; [|injection H as <- <-; by apply not_elem_of_nil in Hin].
    apply bind_inv in H as (rest & seg3 & seg4 & H2 & [= <- <-] & ->). rewrite app_nil_r in *.
    destruct (IH _ _ _ (pending_after pending seg1) _ _ H2 Hin) as (-> & pre & m' & post & committed & -> & Hd & Hlost).
    split; [done|]. exists (m :: pre), m', post, committed. rewrite durable_app, (Hok outcome eq_refl Es), Hd. cbn.
    by rewrite app_assoc.
Qed.

Lemma record_all_log graph results : forall any h r seg run answer,
  record_all st graph results any h = (r, seg) -> Ledger (RecordRun run answer) ∉ seg.
Proof using Type.
  induction results as [|outcome results IH]; intros any h r seg run answer; cbn [record_all];
    [intros [= <- <-]; apply not_elem_of_nil|].
  destruct (success outcome); [|by apply IH]. intros (o & seg1 & seg2 & H1 & H & ->)%bind_inv.
  rewrite elem_of_app. intros [Hin|Hin].
  - unfold record_result, call in H1. destruct (result_action outcome); injection H1 as <- <-;
      apply list_elem_of_singleton in Hin; discriminate.
  - destruct o; [by eapply IH|]. injection H as <- <-. by apply not_elem_of_nil in Hin.
Qed.
End commands.

(** C12. The migrate command keeps the recorded migrations of a graph discovered in
    dependency order closed under dependencies, whatever the session and the store
    answer and wherever the command stops; when it succeeds, exactly the intended
    migrations are recorded. *)
Theorem migrate_keeps_dependencies s st executor r graph applied target h :
  discovered graph ->
  let '(outcome, seg) := cmd_migrate s st executor r graph applied target h in
  (closed graph (map record_key applied) -> closed graph (ledger_after (map record_key applied) seg)) /\
  (outcome = Some (Ok tt) ->
   forall k, k ∈ ledger_after (map record_key applied) seg <-> k ∈ map key (intended graph target)).
Proof.
  intros Hd. destruct (cmd_migrate s st executor r graph applied target h) as [outcome seg] eqn:E. unfold cmd_migrate in E.
  destruct (plan r graph applied target) as [[ep|e]|] eqn:Ep; [|by injection E as <- <-..].
  apply plan_keys in Ep as (selection & Hp & Hkeys).
  pose proof (plan_keeps_dependencies graph applied target selection) as Hkeep.
  assert (exists n, ledger_after (map record_key applied) seg =
      fold_left recorded (firstn n (map migration_key (to_rollback ep ++ to_apply ep))) (map record_key applied) /\
    (outcome = Some (Ok tt) -> (length (to_rollback ep ++ to_apply ep) <= n)%nat)) as (n & -> & Hall).
  { assert (bind (execute_plan_with_run_log s st executor ep (migration_checksums graph)) (fun ran =>
      match ran with
      | Err e => ret (Some (Err (StateFailed e)))
      | Ok results => bind (record_all st graph results false) (fun recorded => ret (Some (match recorded with
          | Err e => Err (StateFailed e) | Ok true => Err ReportedExit | Ok false => Ok tt end)))
      end) h = (outcome, seg) \/ to_rollback ep ++ to_apply ep = [] /\ seg = []) as [H|[-> ->]].
    { destruct (to_apply ep), (to_rollback ep); [right; by injection E as <- <-|by left..]. }
    - apply bind_inv in H as (ran & seg1 & seg2 & H1 & H & ->). by eapply run_and_record.
    - by exists 0%nat. }
  rewrite Hkeys. split; [intros _; by apply Hkeep|]. intros Eo. specialize (Hall Eo).
  rewrite firstn_all2; [by apply (Hkeep 0%nat)|]. by rewrite <- Hkeys, length_map.
Qed.

(** C39. When the run log refuses a record, the migrate command ends with that error and
    records no migration at all, although every migration before the refused one is
    committed, and the refused one is too when it is its success that cannot be
    logged: the next run plans them again. *)
Theorem log_failure_loses_applied s st executor r graph applied target h outcome seg run e :
  cmd_migrate s st executor r graph applied target h = (outcome, seg) -> Ledger (RecordRun run (Err e)) ∈ seg ->
  outcome = Some (Err (StateFailed e)) /\ ledger_after (map record_key applied) seg = map record_key applied /\
  exists ep pre m post committed, plan r graph applied target = Some (Ok ep) /\
    to_rollback ep ++ to_apply ep = pre ++ m :: post /\
    durable [] seg = concat (map statements pre) ++ committed /\ lost m run committed.
Proof.
  unfold cmd_migrate. destruct (plan r graph applied target) as [[ep|pe]|] eqn:Ep;
    [|intros [= <- <-] ?%not_elem_of_nil; done..].
  intros E Hin. assert (bind (execute_plan_with_run_log s st executor ep (migration_checksums graph)) (fun ran =>
      match ran with
      | Err e => ret (Some (Err (StateFailed e)))
      | Ok results => bind (record_all st graph results false) (fun recorded => ret (Some (match recorded with
          | Err e => Err (StateFailed e) | Ok true => Err ReportedExit | Ok false => Ok tt end)))
      end) h = (outcome, seg)) as H.
  { destruct (to_apply ep), (to_rollback ep); [injection E as <- <-; by apply not_elem_of_nil in Hin|done..]. }
  apply bind_inv in H as (ran & seg1 & seg2 & H1 & H & ->). apply elem_of_app in Hin as [Hin|Hin].
  - pose proof H1 as [Hq _]%logged_all_spec.
    destruct (logged_all_log s st executor _ _ _ _ _ [] _ _ H1 Hin) as (-> & pre & m & post & committed & Hms & Hd & Hlost).
    injection H as <- <-. rewrite app_nil_r. split_and!; [done|apply Hq|]. eauto 10.
  - destruct ran as [results|e']; [|injection H as <- <-; by apply not_elem_of_nil in Hin].
    apply bind_inv in H as (rec & seg3 & seg4 & H & [= <- <-] & ->). rewrite app_nil_r in Hin.
    by destruct (record_all_log _ _ _ _ _ _ _ _ _ H Hin).
Qed.

(** ** Examples *)

Definition runs_logged (h : list (Event StoreCall)) : nat :=
  length (List.filter (fun e => match e with Ledger (RecordRun _ _) => true | _ => false end) h).

(** A store that fails the run log after some records. *)
Definition store_with_log (runs : nat) : Store :=
  store (fun h _ => if Nat.ltb (runs_logged h) runs then Ok tt else Err b#"log unavailable")
    (fun _ _ => Ok tt) (fun _ _ _ => Ok tt) (fun _ => b#"run") (fun _ => b#"now").

Lemma migrate_keeps_dependencies_witness :
  discovered example_graph /\
  (forall k, k ∈ ledger_after [] (cmd_migrate (accepting StoreCall) (store_with_log 6) (migration_executor_info None None)
     plain example_graph [] None []).2 <-> k ∈ map key (migrations example_graph)).
Proof.
  split; [exact example_discovered|].
  pose proof (migrate_keeps_dependencies (accepting StoreCall) (store_with_log 6) (migration_executor_info None None)
    plain example_graph [] None [] example_discovered) as H.
  destruct (cmd_migrate (accepting StoreCall) (store_with_log 6) (migration_executor_info None None) plain example_graph [] None [])
    as [outcome seg] eqn:E. refine (proj2 H _). vm_compute in E. injection E as <- _. reflexivity.
Defined.

Lemma log_failure_loses_applied_witness :
  let '(outcome, seg) := cmd_migrate (accepting StoreCall) (store_with_log 2) (migration_executor_info None None)
    plain example_graph [] None [] in
  outcome = Some (Err (StateFailed b#"log unavailable")) /\ ledger_after [] seg = [] /\
  durable [] seg = [b#"define entity 0001_initial;"].
Proof.
  pose proof (log_failure_loses_applied (accepting StoreCall) (store_with_log 2) (migration_executor_info None None)
    plain example_graph [] None []) as H.
  destruct (cmd_migrate (accepting StoreCall) (store_with_log 2) (migration_executor_info None None) plain example_graph [] None [])
    as [outcome seg] eqn:E.
  destruct (H outcome seg (migration_run_record b#"run" b#"app" b#"0002_add" b#"0002_add-csum" b#"apply" b#"started" b#"now" None None None None)
    b#"log unavailable" eq_refl) as (Ho & Hl & _).
  - vm_compute in E. injection E as _ <-. apply list_elem_of_In. vm_compute. tauto.
  - split; [exact Ho|]. split; [exact Hl|]. vm_compute in E. injection E as _ <-. reflexivity.
Defined.

End ReleasedRunLog.
