(* ===== verification/ReleasedRecovery.v ===== *)
(** * Released recovery execution (migration/src/recovery.rs)

    Checked plans with their step identities, and their execution under an
    external ledger that classifies every step before it runs and records events
    around every commit. The ledger's answers, like the session's, are functions of
    the calls so far. The execution is fail-closed: it commits only what the ledger
    called pending and after the intent is recorded, and it stops at the first step
    that fails or whose outcome is not known. *)

From S2P Require Import Prelude BTree Text Versions Ident Fingerprint ReleasedSpec ReleasedGraph ReleasedPlan ReleasedExecutor ReleasedSteps.
Import ReleasedSpec ReleasedGraph ReleasedPlan ReleasedExecutor ReleasedSteps.
#[local] Open Scope Z_scope.

Module ReleasedRecovery.

Record CheckedMigrationIdentity : Set := checked_migration_identity {
  identity_app_label : str;
  identity_name : str;
  identity_checksum : str;
  identity_action : MigrationAction }.

Record CheckedExecutionStep : Set := checked_execution_step {
  id : str;
  migration : CheckedMigrationIdentity;
  step_index : nat;
  checked_operation_kind : OperationKind;
  execution : ExecutionStep }.

Record CheckedMigrationExecution : Set := checked_migration_execution {
  identity : CheckedMigrationIdentity;
  checked_steps : list CheckedExecutionStep;
  checked_reversible : bool }.

Record CheckedExecutionPlan : Set := checked_execution_plan {
  checked_to_apply : list CheckedMigrationExecution;
  checked_to_rollback : list CheckedMigrationExecution }.

Definition ordered_steps (plan : CheckedExecutionPlan) : list CheckedExecutionStep :=
  concat (map checked_steps (checked_to_rollback plan ++ checked_to_apply plan)).

(** ** Preparation *)

Inductive PrepareError : Set :=
| PlanError (e : MigrationError)
| MissingRecoveryChecksum (app_label name : str).

Section prepare.
Context (sha256 : str -> str).

Definition action_token (a : MigrationAction) : str :=
  match a with Apply => b#"apply" | Rollback => b#"rollback" end.

(** Everything the hasher of [step_id] is fed. *)
Definition step_preimage (m : CheckedMigrationIdentity) (index : nat) (kind : OperationKind) : str :=
  Fingerprint.hash_field b#"type-bridge-execution-step-v1" ++ Fingerprint.hash_field (identity_checksum m) ++
  Fingerprint.hash_field (identity_app_label m) ++ Fingerprint.hash_field (identity_name m) ++
  Fingerprint.hash_field (action_token (identity_action m)) ++
  Fingerprint.hash_field (Fingerprint.be_bytes 8 (Z.min (Z.of_nat index) u64_max)) ++
  Fingerprint.hash_field (OperationKind_as_str kind).

Definition step_id (m : CheckedMigrationIdentity) (index : nat) (kind : OperationKind) : str :=
  b#"tb-step-v1:" ++ Fingerprint.to_hex (sha256 (step_preimage m index kind)).

Fixpoint check_steps (m : CheckedMigrationIdentity) (index : nat) (steps : list ExecutionStep) : list CheckedExecutionStep :=
  match steps with
  | [] => []
  | step :: steps =>
      checked_execution_step (step_id m index (operation_kind step)) m index (operation_kind step) step ::
      check_steps m (S index) steps
  end.

Definition prepare_migration (checksums : BTreeMap (str * str) str) (m : MigrationExecution)
    : result PrepareError CheckedMigrationExecution :=
  let missing := MissingRecoveryChecksum (execution_app_label m) (execution_name m) in
  let? checksum := ok_or (mget (execution_app_label m, execution_name m) checksums) missing in
  if bool_decide (checksum = []) then Err missing
  else
    let identity := checked_migration_identity (execution_app_label m) (execution_name m) checksum (action m) in
    Ok (checked_migration_execution identity (check_steps identity 0 (steps m)) (execution_reversible m)).

Definition prepare_migrations (ms : list MigrationExecution) (checksums : BTreeMap (str * str) str)
    : result PrepareError (list CheckedMigrationExecution) :=
  try_map (prepare_migration checksums) ms.

Definition prepare_recovery_plan (plan : ExecutionPlan) (checksums : BTreeMap (str * str) str)
    : result PrepareError CheckedExecutionPlan :=
  let? apply := prepare_migrations (to_apply plan) checksums in
  let? rollback := prepare_migrations (to_rollback plan) checksums in
  Ok (checked_execution_plan apply rollback).

(** The checksums the graph carries. *)
Definition recovery_checksums (graph : MigrationGraph) : BTreeMap (str * str) str :=
  mof (omap (fun m => match checksum m with Some c => Some (key m, c) | None => None end) (migrations graph)).

Definition plan_recovery (r : Renderer) (graph : MigrationGraph) (applied : list AppliedMigrationRecord) (target : option str)
    : option (result PrepareError CheckedExecutionPlan) :=
  match plan r graph applied target with
  | None => None
  | Some (Err e) => Some (Err (PlanError e))
  | Some (Ok plan) => Some (prepare_recovery_plan plan (recovery_checksums graph))
  end.

End prepare.

(** ** The external ledger *)

Inductive PendingProof : Set := NotCommitted | IdempotentReplay (strategy : str).

Inductive StepRecoveryDecision : Set :=
| DecisionPending (proof : PendingProof)
| DecisionApplied (evidence : option str)
| DecisionIndeterminate (reason : str).

Inductive StepRecoveryEventKind : Set := BeforeCommit | Committed | FailedBeforeCommit | UnknownCommitOutcome.

Record StepRecoveryEvent : Set := step_recovery_event {
  event_step : CheckedExecutionStep;
  event_kind : StepRecoveryEventKind;
  event_message : option str;
  event_backfill : option BackfillResult }.

(** A call on the controller, with its answer. *)
Inductive Question : Set :=
| Classify (step : CheckedExecutionStep) (answer : result str StepRecoveryDecision)
| RecordEvent (event : StepRecoveryEvent) (answer : result str ()).

Record StepRecoveryController : Set := step_recovery_controller {
  classify : list (Event Question) -> CheckedExecutionStep -> result str StepRecoveryDecision;
  record_event : list (Event Question) -> StepRecoveryEvent -> result str () }.

Inductive StepExecutionOutcome : Set :=
| OutcomeApplied (evidence : option str)
| OutcomeCommitted (backfill : option BackfillResult)
| OutcomeFailedBeforeCommit (error : str)
| OutcomeIndeterminate (error : str).

Record StepExecutionResult : Set := step_result {
  result_step : CheckedExecutionStep;
  outcome : StepExecutionOutcome }.

Inductive RecoveryMigrationStatus : Set := MigrationSucceeded | MigrationFailed | MigrationIndeterminate.

Record RecoveryMigrationResult : Set := recovery_migration_result {
  result_migration : CheckedMigrationIdentity;
  migration_status : RecoveryMigrationStatus;
  result_steps : list StepExecutionResult;
  result_error : option str }.

Inductive RecoveryPlanStatus : Set := PlanSucceeded | PlanFailed | PlanIndeterminate.

Record RecoveryExecutionResult : Set := recovery_execution_result {
  plan_status : RecoveryPlanStatus;
  migration_results : list RecoveryMigrationResult }.

(** ** Execution *)

Section execution.
Context (s : Session Question) (c : StepRecoveryController).

Definition ask_classify (step : CheckedExecutionStep) : M Question (result str StepRecoveryDecision) :=
  call (fun h => classify c h step) (fun answer => Ledger (Classify step answer)).

Definition record (event : StepRecoveryEvent) : M Question (result str ()) :=
  call (fun h => record_event c h event) (fun answer => Ledger (RecordEvent event answer)).

Definition committed (step : CheckedExecutionStep) (backfill : option BackfillResult) : M Question StepExecutionOutcome :=
  let> recorded := record (step_recovery_event step Committed None backfill) in
  match recorded with
  | Err e => ret (OutcomeIndeterminate (b#"TypeDB committed step " ++ id step ++
               b#", but its committed event was not durably recorded: " ++ e))
  | Ok _ => ret (OutcomeCommitted backfill)
  end.

Definition failed_before_commit (step : CheckedExecutionStep) (message : str) (backfill : option BackfillResult)
    : M Question StepExecutionOutcome :=
  let> recorded := record (step_recovery_event step FailedBeforeCommit (Some message) backfill) in
  match recorded with
  | Err e => ret (OutcomeFailedBeforeCommit (message ++ b#"; failed to record failed-before-commit event: " ++ e))
  | Ok _ => ret (OutcomeFailedBeforeCommit message)
  end.

Definition unknown_commit (step : CheckedExecutionStep) (message : str) (backfill : option BackfillResult)
    : M Question StepExecutionOutcome :=
  let> recorded := record (step_recovery_event step UnknownCommitOutcome (Some message) backfill) in
  match recorded with
  | Err e => ret (OutcomeIndeterminate (message ++ b#"; failed to record unknown-commit event: " ++ e))
  | Ok _ => ret (OutcomeIndeterminate message)
  end.

(** The intent, the commit and what came of it, with the transaction open. *)
Definition commit_step (step : CheckedExecutionStep) (backfill : option BackfillResult) (unknown : str)
    : M Question StepExecutionOutcome :=
  let> recorded := record (step_recovery_event step BeforeCommit None backfill) in
  match recorded with
  | Err e =>
      let> _ := abandon in
      failed_before_commit step (b#"before-commit event was not recorded: " ++ e) backfill
  | Ok _ =>
      let> answer := commit_tx s in
      match answer with
      | Err e => unknown_commit step (unknown ++ e) backfill
      | Ok _ => committed step backfill
      end
  end.

Definition execute_pending_backfill (step : CheckedExecutionStep) : M Question StepExecutionOutcome :=
  let> prepared := prepare_backfill s (execution step) (step_index step) in
  match prepared with
  | Err e => failed_before_commit step e None
  | Ok backfill => commit_step step (Some backfill) b#"backfill commit outcome is unknown: "
  end.

Definition execute_pending_typeql (step : CheckedExecutionStep) (typeql : str) : M Question StepExecutionOutcome :=
  match check_schema_annotation_support s typeql with
  | Err e => failed_before_commit step e None
  | Ok _ =>
      let> opened := open_tx s (tx_type (execution step)) in
      match opened with
      | Err e => failed_before_commit step (b#"failed to open transaction: " ++ e) None
      | Ok _ =>
          let> guarded := writer_open_in s in
          match guarded with
          | Err e => let> _ := abandon in ret (OutcomeFailedBeforeCommit e)
          | Ok _ =>
              let> answer := run_query s typeql in
              match answer with
              | Err e => let> _ := abandon in failed_before_commit step (b#"query failed: " ++ e) None
              | Ok _ => commit_step step None b#"commit outcome is unknown: "
              end
          end
      end
  end.

Definition execute_pending_step (step : CheckedExecutionStep) : M Question StepExecutionOutcome :=
  if is_backfill (identity_action (migration step)) (execution step) then execute_pending_backfill step
  else match identity_action (migration step), reverse (execution step) with
       | Apply, _ => execute_pending_typeql step (forward (execution step))
       | Rollback, Some reverse => execute_pending_typeql step reverse
       | Rollback, None => failed_before_commit step b#"rollback step has no reverse TypeQL" None
       end.

Definition migration_result (m : CheckedMigrationExecution) (status : RecoveryMigrationStatus)
    (steps : list StepExecutionResult) (error : str) : RecoveryMigrationResult :=
  recovery_migration_result (identity m) status steps (Some error).

Fixpoint recover_steps (m : CheckedMigrationExecution) (todo : list CheckedExecutionStep) (results : list StepExecutionResult)
    : M Question RecoveryMigrationResult :=
  match todo with
  | [] => ret (recovery_migration_result (identity m) MigrationSucceeded results None)
  | step :: todo =>
      let> decision := ask_classify step in
      match decision with
      | Err e =>
          let message := b#"failed to classify step " ++ id step ++ b#": " ++ e in
          ret (migration_result m MigrationIndeterminate (results ++ [step_result step (OutcomeIndeterminate message)]) message)
      | Ok (DecisionApplied evidence) => recover_steps m todo (results ++ [step_result step (OutcomeApplied evidence)])
      | Ok (DecisionIndeterminate reason) =>
          ret (migration_result m MigrationIndeterminate (results ++ [step_result step (OutcomeIndeterminate reason)]) reason)
      | Ok (DecisionPending _) =>
          let> result := execute_pending_step step in
          let results := results ++ [step_result step result] in
          match result with
          | OutcomeApplied _ | OutcomeCommitted _ => recover_steps m todo results
          | OutcomeFailedBeforeCommit e => ret (migration_result m MigrationFailed results e)
          | OutcomeIndeterminate e => ret (migration_result m MigrationIndeterminate results e)
          end
      end
  end.

Definition execute_recovery_migration (m : CheckedMigrationExecution) : M Question RecoveryMigrationResult :=
  match identity_action (identity m), checked_reversible m with
  | Rollback, false =>
      ret (migration_result m MigrationFailed [] (identity_name (identity m) ++ b#" is not reversible"))
  | _, _ =>
      let> guarded := writer_open s in
      match guarded with
      | Err e => ret (migration_result m MigrationFailed [] e)
      | Ok _ => recover_steps m (checked_steps m) []
      end
  end.

Fixpoint recover_all (ms : list CheckedMigrationExecution) (results : list RecoveryMigrationResult)
    : M Question RecoveryExecutionResult :=
  match ms with
  | [] => ret (recovery_execution_result PlanSucceeded results)
  | m :: ms =>
      let> result := execute_recovery_migration m in
      let results := results ++ [result] in
      match migration_status result with
      | MigrationSucceeded => recover_all ms results
      | MigrationFailed => ret (recovery_execution_result PlanFailed results)
      | MigrationIndeterminate => ret (recovery_execution_result PlanIndeterminate results)
      end
  end.

Definition execute_recovery_plan (plan : CheckedExecutionPlan) : M Question RecoveryExecutionResult :=
  recover_all (checked_to_rollback plan ++ checked_to_apply plan) [].

End execution.
(** ** What a step does *)

(** The answers to the commits among some calls. *)
Fixpoint commits {A} (events : list (Event A)) : list (result str ()) :=
  match events with
  | [] => []
  | Commit answer :: events => answer :: commits events
  | _ :: events => commits events
  end.

Lemma commits_app {A} (xs ys : list (Event A)) : commits (xs ++ ys) = commits xs ++ commits ys.
Proof. induction xs as [|[] xs IH]; cbn; by rewrite ?IH. Qed.

Definition recovery_statement (step : CheckedExecutionStep) : str :=
  statement (identity_action (migration step)) (execution step).

(** Nothing was committed. *)
Definition uncommitted (seg : list (Event Question)) : Prop :=
  commits seg = [] /\ forall pending, durable pending seg = [].

(** The calls of a pending step up to its end: it failed without a commit, or it
    recorded its intent, committed once and recorded the outcome. *)
Inductive pending_run (step : CheckedExecutionStep) : StepExecutionOutcome -> list (Event Question) -> Prop :=
| pending_failed e seg : uncommitted seg -> pending_run step (OutcomeFailedBeforeCommit e) seg
| pending_unknown pre backfill e message answer error :
    uncommitted pre -> (forall pending, pending_after pending pre = [recovery_statement step]) ->
    pending_run step (OutcomeIndeterminate error)
      (pre ++ [Ledger (RecordEvent (step_recovery_event step BeforeCommit None backfill) (Ok tt)); Commit (Err e);
               Ledger (RecordEvent (step_recovery_event step UnknownCommitOutcome (Some message) backfill) answer)])
| pending_committed pre backfill :
    uncommitted pre -> (forall pending, pending_after pending pre = [recovery_statement step]) ->
    pending_run step (OutcomeCommitted backfill)
      (pre ++ [Ledger (RecordEvent (step_recovery_event step BeforeCommit None backfill) (Ok tt)); Commit (Ok tt);
               Ledger (RecordEvent (step_recovery_event step Committed None backfill) (Ok tt))])
| pending_unrecorded pre backfill e error :
    uncommitted pre -> (forall pending, pending_after pending pre = [recovery_statement step]) ->
    pending_run step (OutcomeIndeterminate error)
      (pre ++ [Ledger (RecordEvent (step_recovery_event step BeforeCommit None backfill) (Ok tt)); Commit (Ok tt);
               Ledger (RecordEvent (step_recovery_event step Committed None backfill) (Err e))]).

Section pending.
Context (s : Session Question) (c : StepRecoveryController).

Lemma failed_before_commit_run step message backfill h o seg :
  failed_before_commit c step message backfill h = (o, seg) ->
  uncommitted seg /\ exists e, o = OutcomeFailedBeforeCommit e.
Proof using Type.
  unfold failed_before_commit, record. intros H. run_calls H; injection H as <- <-; by split; [|eexists].
Qed.

Lemma uncommitted_app x y : uncommitted x -> uncommitted y -> uncommitted (x ++ y).
Proof using Type.
  intros [Hx Dx] [Hy Dy]. split; [by rewrite commits_app, Hx, Hy|]. intros pending. by rewrite durable_app, Dx, Dy.
Qed.

Lemma commit_step_run step backfill unknown pre h o seg :
  uncommitted pre -> (forall pending, pending_after pending pre = [recovery_statement step]) ->
  commit_step s c step backfill unknown h = (o, seg) -> pending_run step o (pre ++ seg).
Proof using Type.
  intros Hu Hp (r & seg1 & seg2 & H1 & H & ->)%bind_inv. unfold record, call in H1. injection H1 as <- <-.
  destruct (record_event c h (step_recovery_event step BeforeCommit None backfill)) as [[]|e].
  - apply bind_inv in H as (r & seg3 & seg4 & H2 & H & ->). unfold commit_tx, call in H2. injection H2 as <- <-.
    destruct (commit s _) as [[]|e].
    + unfold committed, record, bind, call, ret in H.
      destruct (record_event c _ (step_recovery_event step Committed None backfill)) as [[]|e]; injection H as <- <-;
        by constructor.
    + unfold unknown_commit, record in H. run_calls H; injection H as <- <-; by constructor.
  - apply bind_inv in H as (r & seg3 & seg4 & [= <- <-] & H & ->).
    apply failed_before_commit_run in H as [Hf [e' ->]]. constructor.
    apply uncommitted_app; [done|]. apply (uncommitted_app [_] _); [done|]. by apply (uncommitted_app [_; _] _).
Qed.

Lemma prepare_backfill_commits step i h r seg : prepare_backfill s step i h = (r, seg) -> commits seg = [].
Proof using Type.
  unfold prepare_backfill, run_count, open_tx, run_query, writer_open_in, abandon.
  destruct (backfill_count_views s (forward step)) as [[guarded total]|e]; [|by intros [= <- <-]].
  intros H. run_calls H; by injection H as <- <-.
Qed.

Lemma execute_pending_typeql_run step h o seg :
  execute_pending_typeql s c step (recovery_statement step) h = (o, seg) -> pending_run step o seg.
Proof using Type.
  unfold execute_pending_typeql. intros H.
  assert (forall message pre h seg, uncommitted pre -> failed_before_commit c step message None h = (o, seg) ->
    pending_run step o (pre ++ seg)) as Hfail.
  { intros message pre h' seg' Hu [Hf [e ->]]%failed_before_commit_run. constructor. by apply uncommitted_app. }
  destruct (check_schema_annotation_support s (recovery_statement step)); [|by apply (Hfail _ [] _ _) in H].
  apply bind_inv in H as (r1 & seg1 & seg2 & [= <- <-] & H & ->).
  destruct (transaction_context s h _); [|by eapply Hfail].
  apply bind_inv in H as (r2 & seg3 & seg4 & [= <- <-] & H & ->).
  destruct (require_legacy_writer_open_in_transaction s _); [|injection H as <- <-; by constructor].
  apply bind_inv in H as (r3 & seg5 & seg6 & [= <- <-] & H & ->).
  destruct (query s _ (recovery_statement step)).
  - rewrite !app_assoc. by eapply commit_step_run.
  - apply bind_inv in H as (r4 & seg7 & seg8 & [= <- <-] & H & ->). rewrite !app_assoc. by eapply Hfail.
Qed.

Lemma execute_pending_step_run step h o seg : execute_pending_step s c step h = (o, seg) -> pending_run step o seg.
Proof using Type.
  unfold execute_pending_step. destruct (is_backfill _ _) eqn:Eb.
  - assert (identity_action (migration step) = Apply) as Ea
      by (unfold is_backfill in Eb; by destruct (step_kind (execution step)), (identity_action (migration step))).
    intros (r & seg1 & seg2 & H1 & H & ->)%bind_inv.
    pose proof (prepare_backfill_commits _ _ _ _ _ H1) as Hc.
    assert (forall pending, durable pending seg1 = [] /\ forall b, r = Ok b -> pending_after pending seg1 = [recovery_statement step]) as Hd.
    { intros pending. unfold recovery_statement. rewrite Ea. by eapply prepare_backfill_durable. }
    assert (uncommitted seg1) as Hu by (split; [done|]; intros pending; apply Hd).
    destruct r as [b|e].
    + eapply commit_step_run; [done| |exact H]. intros pending. by eapply Hd.
    + apply failed_before_commit_run in H as [Hf [e' ->]]. constructor. by apply uncommitted_app.
  - pose proof (execute_pending_typeql_run step h o seg) as Hrun. unfold recovery_statement, statement in Hrun.
    destruct (identity_action (migration step)); [done|]. destruct (reverse (execution step)) as [r|]; [done|].
    intros [Hf [e ->]]%failed_before_commit_run. by constructor.
Qed.
End pending.

(** ** What a run does *)

(** Every commit comes right after its intent was recorded, for a step that was
    classified as pending. *)
Definition guarded (seg : list (Event Question)) : Prop :=
  forall pre answer post, seg = pre ++ Commit answer :: post ->
  exists earlier step backfill proof,
    pre = earlier ++ [Ledger (RecordEvent (step_recovery_event step BeforeCommit None backfill) (Ok tt))] /\
    Ledger (Classify step (Ok (DecisionPending proof))) ∈ earlier.

Lemma commits_split (x y pre post : list (Event Question)) answer :
  commits x = [] -> x ++ y = pre ++ Commit answer :: post ->
  exists pre', pre = x ++ pre' /\ y = pre' ++ Commit answer :: post.
Proof.
  revert pre. induction x as [|e x IH]; intros pre Hc E; [by exists pre|].
  destruct pre as [|e' pre]; injection E as -> E; [done|].
  destruct (IH pre) as (pre' & -> & ->); [by destruct e'|done|]. by exists pre'.
Qed.

Lemma guarded_app x y : guarded x -> guarded y -> guarded (x ++ y).
Proof.
  intros Hx Hy pre answer post E. apply app_eq_app in E as [l [[-> E]|[-> E]]].
  - destruct l as [|e l]; cbn in E.
    + destruct (Hy [] answer post) as (earlier & ? & ? & ? & E' & _); [done|]. by destruct earlier.
    + injection E as <- ->. by eapply Hx.
  - destruct (Hy l answer post E) as (earlier & step & backfill & proof & -> & Hin).
    exists (x ++ earlier), step, backfill, proof. rewrite app_assoc. split; [done|]. apply elem_of_app. by right.
Qed.

Lemma guarded_none x : commits x = [] -> guarded x.
Proof.
  intros Hc pre answer post E. rewrite <- (app_nil_r x) in E. apply commits_split in E as (pre' & _ & E); [|done]. by destruct pre'.
Qed.

Lemma pending_run_guarded step o seg proof :
  pending_run step o seg -> guarded (Ledger (Classify step (Ok (DecisionPending proof))) :: seg).
Proof.
  assert (forall pre backfill a last, commits pre = [] -> guarded (Ledger (Classify step (Ok (DecisionPending proof))) ::
    pre ++ [Ledger (RecordEvent (step_recovery_event step BeforeCommit None backfill) (Ok tt)); Commit a; Ledger last])) as Hg.
  { intros pre backfill a last Hc before answer post E. rewrite app_comm_cons in E. apply commits_split in E as (l & -> & E); [|done].
    destruct l as [|e1 [|e2 [|e3 l]]]; injection E as; subst; try done.
    - exists (Ledger (Classify step (Ok (DecisionPending proof))) :: pre), step, backfill, proof. split; [done|].
      apply list_elem_of_here.
    - by destruct l. }
  intros []; [|by apply Hg; destruct H..]. apply guarded_none. by destruct H.
Qed.

Definition progressed (r : StepExecutionResult) : Prop :=
  match outcome r with OutcomeApplied _ | OutcomeCommitted _ => True | _ => False end.

Definition committed_statement (r : StepExecutionResult) : list str :=
  match outcome r with OutcomeCommitted _ => [recovery_statement (result_step r)] | _ => [] end.

(** The last step of an attempt that stopped. *)
Definition stopped (status : RecoveryMigrationStatus) (last : list StepExecutionResult) : Prop :=
  match status with
  | MigrationSucceeded => last = []
  | MigrationFailed => last = [] \/ exists step e, last = [step_result step (OutcomeFailedBeforeCommit e)]
  | MigrationIndeterminate => exists step e, last = [step_result step (OutcomeIndeterminate e)]
  end.

(** An attempt at the steps [todo]: its results are for a prefix of them, all steps
    but a last one made progress, and what it committed are the statements of the
    committed steps and possibly of a last one whose outcome is indeterminate. *)
Definition attempt (todo : list CheckedExecutionStep) (results : list StepExecutionResult)
    (status : RecoveryMigrationStatus) (seg : list (Event Question)) : Prop :=
  exists rest good last, todo = map result_step results ++ rest /\ (status = MigrationSucceeded -> rest = []) /\
    results = good ++ last /\ Forall progressed good /\ stopped status last /\
    (forall pending, durable pending seg = concat (map committed_statement good) \/
       exists step e, last = [step_result step (OutcomeIndeterminate e)] /\
         durable pending seg = concat (map committed_statement good) ++ [recovery_statement step]) /\
    guarded seg.

Lemma attempt_app todo1 todo2 results1 results2 status seg1 seg2 :
  attempt todo1 results1 MigrationSucceeded seg1 -> attempt todo2 results2 status seg2 ->
  attempt (todo1 ++ todo2) (results1 ++ results2) status (seg1 ++ seg2).
Proof.
  intros (rest1 & good1 & last1 & -> & Hr1 & -> & Hg1 & Hs1 & Hd1 & Hc1) (rest2 & good2 & last2 & -> & Hr2 & -> & Hg2 & Hs & Hd2 & Hc2).
  rewrite (Hr1 eq_refl). cbn in Hs1. subst last1. exists rest2, (good1 ++ good2), last2. split_and!; [|done| |by apply Forall_app| done| |by apply guarded_app].
  - by rewrite !app_nil_r, !map_app, !app_assoc.
  - by rewrite app_nil_r, app_assoc.
  - intros pending. rewrite map_app, concat_app, durable_app.
    destruct (Hd1 pending) as [->|(? & ? & ? & _)]; [|done].
    destruct (Hd2 (pending_after pending seg1)) as [->|(step & e & -> & ->)]; [by left|right].
    exists step, e. by rewrite app_assoc.
Qed.

(** The calls of one pending step, with its classification before. *)
Lemma pending_attempt step o seg proof status rest :
  pending_run step o seg ->
  status = match o with
           | OutcomeApplied _ | OutcomeCommitted _ => MigrationSucceeded
           | OutcomeFailedBeforeCommit _ => MigrationFailed
           | OutcomeIndeterminate _ => MigrationIndeterminate
           end ->
  (status = MigrationSucceeded -> rest = []) ->
  attempt (step :: rest) [step_result step o] status (Ledger (Classify step (Ok (DecisionPending proof))) :: seg).
Proof.
  intros Hrun -> Hrest. pose proof (pending_run_guarded step o seg proof Hrun) as Hg.
  destruct Hrun as [e seg [Hc Hd]|pre b e message answer error [Hc Hd] Hp|pre b [Hc Hd] Hp|pre b e error [Hc Hd] Hp].
  - exists rest, [], [step_result step (OutcomeFailedBeforeCommit e)]. split_and!; try done; [right; by eexists _, _|].
    intros pending. left. exact (Hd pending).
  - exists rest, [], [step_result step (OutcomeIndeterminate error)]. split_and!; try done; [by eexists _, _|].
    intros pending. left. cbn. by rewrite durable_app, Hd.
  - exists rest, [step_result step (OutcomeCommitted b)], []. split_and!; try done; [by constructor|].
    intros pending. left. cbn. by rewrite durable_app, Hd, Hp.
  - exists rest, [], [step_result step (OutcomeIndeterminate error)]. split_and!; try done; [by eexists _, _|].
    intros pending. right. exists step, error. split; [done|]. cbn. by rewrite durable_app, Hd, Hp.
Qed.

(** A decision that stops or skips a step without a call on the session. *)
Lemma decided_attempt step o answer status rest :
  progressed (step_result step o) /\ status = MigrationSucceeded /\ rest = [] \/
  (exists e, o = OutcomeIndeterminate e) /\ status = MigrationIndeterminate ->
  committed_statement (step_result step o) = [] ->
  attempt (step :: rest) [step_result step o] status [Ledger (Classify step answer)].
Proof.
  intros [(Hp & -> & ->)|[[e ->] ->]] Hc.
  - exists [], [step_result step o], []. split_and!; try done; [by constructor|intros pending; left; cbn; by rewrite Hc|by apply guarded_none].
  - exists rest, [], [step_result step (OutcomeIndeterminate e)].
    split_and!; try done; [by eexists _, _|by intros pending; left|by apply guarded_none].
Qed.

Section runs.
Context (s : Session Question) (c : StepRecoveryController).

Lemma recover_steps_attempt m todo : forall results h r seg,
  recover_steps s c m todo results h = (r, seg) ->
  exists attempted, result_steps r = results ++ attempted /\ attempt todo attempted (migration_status r) seg.
Proof using Type.
  induction todo as [|step todo IH]; intros results h r seg; cbn [recover_steps].
  { intros [= <- <-]. exists []. rewrite app_nil_r. split; [done|]. exists [], [], []. split_and!; try done; [by left|by apply guarded_none]. }
  assert (forall o seg1 h seg2, attempt [step] [step_result step o] MigrationSucceeded seg1 ->
    recover_steps s c m todo (results ++ [step_result step o]) h = (r, seg2) ->
    exists attempted, result_steps r = results ++ attempted /\
      attempt (step :: todo) attempted (migration_status r) (seg1 ++ seg2)) as Hgo.
  { intros o seg1 h' seg2 Ha (attempted & -> & Hb)%IH. exists (step_result step o :: attempted). rewrite <- app_assoc. split; [done|].
    by apply (attempt_app [step] todo [step_result step o] attempted). }
  intros (d & seg1 & seg2 & [= <- <-] & H & ->)%bind_inv.
  destruct (classify c h step) as [[proof|evidence|reason]|e].
  - apply bind_inv in H as (o & seg3 & seg4 & Hp & H & ->). apply execute_pending_step_run in Hp.
    change ([Ledger (Classify step (Ok (DecisionPending proof)))] ++ seg3 ++ seg4)
      with ((Ledger (Classify step (Ok (DecisionPending proof))) :: seg3) ++ seg4).
    destruct o; [by eapply Hgo; [by eapply pending_attempt|exact H]..| |];
      injection H as <- <-; rewrite app_nil_r; eexists; (split; [done|]); by eapply pending_attempt.
  - eapply Hgo; [|exact H]. apply decided_attempt; [by left|done].
  - injection H as <- <-. eexists. split; [done|]. apply decided_attempt; [right; by split; [eexists|]|done].
  - injection H as <- <-. eexists. split; [done|]. apply decided_attempt; [right; by split; [eexists|]|done].
Qed.

Lemma recovery_migration_attempt m h r seg :
  execute_recovery_migration s c m h = (r, seg) -> attempt (checked_steps m) (result_steps r) (migration_status r) seg.
Proof using Type.
  assert (forall seg, commits seg = [] -> (forall pending, durable pending seg = []) ->
    attempt (checked_steps m) [] MigrationFailed seg) as Hfail.
  { intros seg' Hc Hd. exists (checked_steps m), [], []. split_and!; try done; [by left|by intros; left|by apply guarded_none]. }
  unfold execute_recovery_migration. intros H.
  assert (r = migration_result m MigrationFailed [] (identity_name (identity m) ++ b#" is not reversible") /\ seg = [] \/
    bind (writer_open s) (fun g => match g with Err e => ret (migration_result m MigrationFailed [] e)
      | Ok _ => recover_steps s c m (checked_steps m) [] end) h = (r, seg)) as [[-> ->]|H']
    by (destruct (identity_action (identity m)), (checked_reversible m); [by right..|left; by injection H as <- <-]).
  { by apply Hfail. }
  clear H. apply bind_inv in H' as (g & seg1 & seg2 & [= <- <-] & H & ->).
  destruct (require_legacy_writer_open s h) as [u|e]; [|injection H as <- <-; by apply Hfail].
  apply recover_steps_attempt in H as (attempted & -> & Ha).
  apply (attempt_app [] (checked_steps m) [] attempted _ [_]); [|done].
  exists [], [], []. split_and!; try done; [by intros; left|by apply guarded_none].
Qed.

Definition plan_status_of (status : RecoveryMigrationStatus) : RecoveryPlanStatus :=
  match status with
  | MigrationSucceeded => PlanSucceeded
  | MigrationFailed => PlanFailed
  | MigrationIndeterminate => PlanIndeterminate
  end.

Lemma recover_all_attempt ms : forall results h r seg,
  recover_all s c ms results h = (r, seg) ->
  exists status attempted, plan_status r = plan_status_of status /\ migration_results r = results ++ attempted /\
    attempt (concat (map checked_steps ms)) (concat (map result_steps attempted)) status seg.
Proof using Type.
  induction ms as [|m ms IH]; intros results h r seg; cbn [recover_all].
  { intros [= <- <-]. exists MigrationSucceeded, []. rewrite app_nil_r. split_and!; try done.
    exists [], [], []. split_and!; try done; [by left|by apply guarded_none]. }
  intros (r1 & seg1 & seg2 & H1 & H & ->)%bind_inv. apply recovery_migration_attempt in H1.
  assert (forall status, status <> MigrationSucceeded -> attempt (checked_steps m) (result_steps r1) status seg1 ->
    attempt (concat (map checked_steps (m :: ms))) (concat (map result_steps [r1])) status (seg1 ++ [])) as Hstop.
  { intros status Hs (rest & good & last & E & Hr & Hrest). cbn. rewrite !app_nil_r.
    exists (rest ++ concat (map checked_steps ms)), good, last. split; [by rewrite E, app_assoc|]. split; [by intros ?%Hs|done]. }
  destruct (migration_status r1) eqn:Es.
  - apply IH in H as (status & attempted & Hp & -> & Ha). exists status, (r1 :: attempted). rewrite <- app_assoc.
    split_and!; [done|done|]. cbn. by apply attempt_app.
  - injection H as <- <-. exists MigrationFailed, [r1]. split_and!; [done|done|]. by apply Hstop.
  - injection H as <- <-. exists MigrationIndeterminate, [r1]. split_and!; [done|done|]. by apply Hstop.
Qed.
End runs.

(** C13. A recovery run is fail-closed, whatever the session and the ledger answer:
    the attempted steps are a prefix of the plan's, all of them when it succeeds;
    every step but a last one is committed or proven applied; every commit comes
    right after a recorded intent for a step classified as pending; and what is
    committed are the statements of the committed steps, in order, and possibly of a
    last step reported as indeterminate. *)
Theorem recovery_fail_closed s c plan h :
  let '(result, seg) := execute_recovery_plan s c plan h in
  exists status, plan_status result = plan_status_of status /\
    attempt (ordered_steps plan) (concat (map result_steps (migration_results result))) status seg.
Proof.
  destruct (execute_recovery_plan s c plan h) as [result seg] eqn:E.
  apply recover_all_attempt in E as (status & attempted & Hs & -> & Ha). by exists status.
Qed.

(** ** Step identities *)

(** ** The version gate *)

Section gated.
Context (s : Session Question) (c : StepRecoveryController).

Lemma gates_record event : gates s (record c event).
Proof using Type. by apply gates_call. Qed.

Lemma gates_failed_before_commit step message backfill : gates s (failed_before_commit c step message backfill).
Proof using Type. unfold failed_before_commit. apply gates_bind; [apply gates_record|]. intros [x|e]; apply gates_ret. Qed.

#[local] Hint Resolve gates_record gates_failed_before_commit : gates.

Lemma gates_commit_step step backfill unknown : gates s (commit_step s c step backfill unknown).
Proof using Type. unfold commit_step, committed, unknown_commit. gates_steps. Qed.

#[local] Hint Resolve gates_commit_step : gates.

Lemma gates_execute_pending_step step : gates s (execute_pending_step s c step).
Proof using Type. unfold execute_pending_step, execute_pending_backfill, execute_pending_typeql. gates_steps. Qed.

Lemma gates_recover_steps m todo : forall results, gates s (recover_steps s c m todo results).
Proof using Type.
  induction todo as [|step todo IH]; intros results; cbn [recover_steps]; [apply gates_ret|].
  apply gates_bind; [by apply gates_call|]. intros [[proof|evidence|reason]|e]; [|apply IH|apply gates_ret..].
  apply gates_bind; [apply gates_execute_pending_step|]. intros []; [apply IH..|apply gates_ret|apply gates_ret].
Qed.

Lemma gates_recovery_plan plan : gates s (execute_recovery_plan s c plan).
Proof using Type.
  unfold execute_recovery_plan. generalize (@nil RecoveryMigrationResult).
  induction (checked_to_rollback plan ++ checked_to_apply plan) as [|m ms IH]; intros results; cbn [recover_all]; [apply gates_ret|].
  apply gates_bind; [unfold execute_recovery_migration; gates_steps; apply gates_recover_steps|intros r; gates_steps].
Qed.

Lemma gated_unannotated events : gated s events ->
  Forall (fun typeql => Versions.annotated typeql -> forall v, server_version s = Some v ->
    Versions.line_ltb (Versions.line v) (3, 12) = false) (schema_queries None events).
Proof using Type.
  intros H. eapply Forall_impl; [apply H|]. cbn. unfold check_schema_annotation_support. intros typeql Hq Ha v Ev.
  rewrite Ev in Hq. apply (Versions.supported_line typeql); [|done]. by destruct (Versions.check_schema_annotation_support _ _) as [[]|].
Qed.
End gated.

(** C11. A run of a plan, as executed or recovered, sends no text with a schema annotation in
    a schema transaction to a server whose version is known and below 3.12. *)
Theorem schema_statements_gated s c plan recovery h :
  let annotated_from_3_12 typeql := Versions.annotated typeql -> forall v, server_version s = Some v ->
    Versions.line_ltb (Versions.line v) (3, 12) = false in
  Forall annotated_from_3_12 (schema_queries None (execute_plan s plan h).2) /\
  Forall annotated_from_3_12 (schema_queries None (execute_recovery_plan s c recovery h).2).
Proof. split; apply gated_unannotated; [apply gates_execute_plan|apply gates_recovery_plan]. Qed.

Section identities.
Context (sha256 : str -> str).

Definition hashable_identity (m : CheckedMigrationIdentity) : Prop :=
  Fingerprint.hashable (identity_checksum m) /\ Fingerprint.hashable (identity_app_label m) /\
  Fingerprint.hashable (identity_name m).

Lemma step_preimage_inj m i k m' i' k' :
  hashable_identity m -> hashable_identity m' -> Z.of_nat i <= u64_max -> Z.of_nat i' <= u64_max ->
  step_preimage m i k = step_preimage m' i' k' -> m = m' /\ i = i'.
Proof using Type.
  intros (Hc & Hl & Hn) (Hc' & Hl' & Hn') Hi Hi' E. unfold step_preimage in E.
  assert (forall s, (length s <= 100)%nat -> Fingerprint.hashable s) as Hsmall
    by (intros; unfold Fingerprint.hashable, u64_max; lia).
  assert (forall a, Fingerprint.hashable (action_token a)) as Ha by (intros []; apply Hsmall, Nat.leb_le; reflexivity).
  apply app_inv_head in E. apply Fingerprint.hash_field_inj in E as [Ec E]; [|done..].
  apply Fingerprint.hash_field_inj in E as [El E]; [|done..]. apply Fingerprint.hash_field_inj in E as [En E]; [|done..].
  apply Fingerprint.hash_field_inj in E as [Ea E]; [|apply Ha..].
  apply Fingerprint.hash_field_inj in E as [Ei _]; [|by apply Hsmall; rewrite Fingerprint.be_bytes_length; lia..].
  rewrite !Z.min_l in Ei by done. apply Fingerprint.be_bytes_inj in Ei; [|unfold u64_max in *; cbn; lia..].
  split; [|lia]. destruct m as [l n ch a], m' as [l' n' ch' a']. cbn in *. subst. by destruct a, a'.
Qed.

(** The hash does not collide on the steps of the plan, which fit its fields. *)
Definition collision_free (steps : list CheckedExecutionStep) : Prop :=
  forall x y, x ∈ steps -> y ∈ steps ->
    let pre step := step_preimage (migration step) (step_index step) (checked_operation_kind step) in
    sha256 (pre x) = sha256 (pre y) -> pre x = pre y.

Definition fits (step : CheckedExecutionStep) : Prop :=
  hashable_identity (migration step) /\ Z.of_nat (step_index step) <= u64_max.

Lemma check_steps_spec m steps : forall index,
  map execution (check_steps sha256 m index steps) = steps /\
  Forall (fun x => migration x = m /\ (index <= step_index x)%nat /\
    id x = step_id sha256 (migration x) (step_index x) (checked_operation_kind x)) (check_steps sha256 m index steps) /\
  NoDup (map (fun x => (migration x, step_index x)) (check_steps sha256 m index steps)).
Proof using Type.
  induction steps as [|step steps IH]; intros index; cbn; [split_and!; [done|constructor|apply NoDup_nil_2]|].
  destruct (IH (S index)) as (-> & Hf & Hn). split_and!; [done| |].
  - constructor; [by cbn|]. eapply Forall_impl; [exact Hf|]. cbn. intros x (? & ? & ?). split_and!; [done|lia|done].
  - constructor; [|done]. intros (x & Ex & Hx)%list_elem_of_fmap. rewrite Forall_forall in Hf.
    destruct (Hf x Hx) as (_ & Hi & _). injection Ex as _ Ei. lia.
Qed.

Lemma prepare_migration_spec checksums m cm :
  prepare_migration sha256 checksums m = Ok cm ->
  map execution (checked_steps cm) = steps m /\
  (identity_app_label (identity cm), identity_name (identity cm), identity_action (identity cm)) =
    (execution_app_label m, execution_name m, action m) /\
  Forall (fun x => migration x = identity cm /\
    id x = step_id sha256 (migration x) (step_index x) (checked_operation_kind x)) (checked_steps cm) /\
  NoDup (map (fun x => (migration x, step_index x)) (checked_steps cm)).
Proof using Type.
  unfold prepare_migration. destruct (mget _ checksums) as [checksum|]; [|done]. cbn [ok_or].
  destruct (bool_decide _); [done|]. intros [= <-]. cbn.
  destruct (check_steps_spec (checked_migration_identity (execution_app_label m) (execution_name m) checksum (action m)) (steps m) 0)
    as (? & Hf & ?). split_and!; [done|done| |done]. eapply Forall_impl; [exact Hf|]. naive_solver.
Qed.

Lemma prepared_all checksums ms : forall cms,
  try_map (prepare_migration sha256 checksums) ms = Ok cms ->
  Forall2 (fun m cm => prepare_migration sha256 checksums m = Ok cm) ms cms.
Proof using Type.
  induction ms as [|m ms IH]; intros cms; cbn; [intros [= <-]; constructor|].
  destruct (prepare_migration sha256 checksums m) as [cm|] eqn:E; [|done].
  destruct (try_map _ ms) as [cms'|] eqn:E'; [|done]. intros [= <-]. constructor; [done|by apply IH].
Qed.

Definition execution_key (m : MigrationExecution) : str * str * MigrationAction :=
  (execution_app_label m, execution_name m, action m).

Lemma prepared_steps checksums ms cms :
  Forall2 (fun m cm => prepare_migration sha256 checksums m = Ok cm) ms cms -> NoDup (map execution_key ms) ->
  map execution (concat (map checked_steps cms)) = concat (map steps ms) /\
  Forall (fun x => id x = step_id sha256 (migration x) (step_index x) (checked_operation_kind x) /\
    (identity_app_label (migration x), identity_name (migration x), identity_action (migration x)) ∈ map execution_key ms)
    (concat (map checked_steps cms)) /\
  NoDup (map (fun x => (migration x, step_index x)) (concat (map checked_steps cms))).
Proof using Type.
  induction 1 as [|m cm ms cms Hm _ IH]; cbn [map concat]; [intros _; split_and!; [done|constructor|apply NoDup_nil_2]|].
  intros [Hnew Hn]%NoDup_cons. destruct (IH Hn) as (He & Hf & Hnd).
  apply prepare_migration_spec in Hm as (Hme & Hid & Hmf & Hmn). rewrite !map_app, Hme, He. split_and!; [done| |].
  - apply Forall_app. split.
    + eapply Forall_impl; [exact Hmf|]. cbn. intros x [Hx ->]. split; [done|]. rewrite Hx, Hid. apply list_elem_of_here.
    + eapply Forall_impl; [exact Hf|]. cbn. intros x [-> Hx]. split; [done|]. by apply list_elem_of_further.
  - apply NoDup_app. split_and!; [done| |done]. intros [i n] Hin Hin'. apply Hnew.
    apply list_elem_of_fmap in Hin as (x & [= -> ->] & Hx). apply list_elem_of_fmap in Hin' as (y & [= E1 E2] & Hy).
    rewrite Forall_forall in Hmf, Hf. destruct (Hmf x Hx) as [Hxm _]. destruct (Hf y Hy) as [_ Hyk].
    rewrite <- E1, Hxm, Hid in Hyk. exact Hyk.
Qed.

Lemma NoDup_map_finer {X Y Z} (f : X -> Y) (g : X -> Z) l :
  NoDup (map g l) -> (forall x y, x ∈ l -> y ∈ l -> f x = f y -> g x = g y) -> NoDup (map f l).
Proof using Type.
  induction l as [|x l IH]; cbn; [intros; apply NoDup_nil_2|]. intros [Hx Hn]%NoDup_cons H. constructor.
  - intros (y & Ey & Hy)%list_elem_of_fmap. apply Hx. apply list_elem_of_fmap. exists y. split; [|done].
    apply H; [apply list_elem_of_here|by apply list_elem_of_further|done].
  - apply IH; [done|]. intros a b Ha Hb. apply H; by apply list_elem_of_further.
Qed.
End identities.

(** Preparing a plan keeps its steps in execution order and gives them pairwise
    distinct identities, unless the hash collides on what it is fed for them. *)
Lemma step_ids_distinct sha256 plan checksums checked :
  prepare_recovery_plan sha256 plan checksums = Ok checked ->
  NoDup (map execution_key (to_rollback plan ++ to_apply plan)) ->
  Forall fits (ordered_steps checked) -> collision_free sha256 (ordered_steps checked) ->
  map execution (ordered_steps checked) = concat (map steps (to_rollback plan ++ to_apply plan)) /\
  NoDup (map id (ordered_steps checked)).
Proof.
  unfold prepare_recovery_plan, prepare_migrations, ordered_steps. intros H Hn Hfit Hfree.
  destruct (try_map _ (to_apply plan)) as [apply|] eqn:Ea; [|done].
  destruct (try_map _ (to_rollback plan)) as [rollback|] eqn:Er; [|done]. injection H as <-.
  cbn [checked_to_rollback checked_to_apply] in *.
  destruct (prepared_steps sha256 checksums (to_rollback plan ++ to_apply plan) (rollback ++ apply)) as (He & Hf & Hnd);
    [by apply Forall2_app; apply prepared_all|done|].
  split; [done|]. eapply NoDup_map_finer; [exact Hnd|]. cbn. rewrite Forall_forall in Hf. rewrite Forall_forall in Hfit.
  intros x y Hx Hy E. destruct (Hf x Hx) as [Ex _], (Hf y Hy) as [Ey _], (Hfit x Hx) as [Hfx Hix], (Hfit y Hy) as [Hfy Hiy].
  rewrite Ex, Ey in E. unfold step_id in E. apply app_inv_head in E.
  apply (f_equal Fingerprint.hex_bytes) in E. rewrite !Fingerprint.hex_bytes_to_hex in E.
  by destruct (step_preimage_inj _ _ _ _ _ _ Hfx Hfy Hix Hiy (Hfree x y Hx Hy E)) as [-> ->].
Qed.


Lemma NoDup_filter_keys (p : MigrationSpec -> bool) ms : NoDup (map key ms) -> NoDup (map key (List.filter p ms)).
Proof.
  induction ms as [|m ms IH]; cbn; [done|]. intros [Hm Hn]%NoDup_cons. destruct (p m); cbn; [|by apply IH].
  constructor; [|by apply IH]. intros (x & E & Hx)%list_elem_of_fmap. apply Hm. rewrite E. apply list_elem_of_fmap. exists x.
  split; [done|]. rewrite list_elem_of_In, filter_In, <- list_elem_of_In in Hx. by destruct Hx.
Qed.

Lemma NoDup_action_keys (a : MigrationAction) ms : NoDup (map key ms) -> NoDup (map (fun m => (a, key m)) ms).
Proof. intros H. eapply NoDup_map_finer; [exact H|]. by intros x y _ _ [= ? ?]; unfold key; f_equal. Qed.

(** A plan runs every migration at most once in each direction. *)
Lemma executions_NoDup graph applied target selection :
  plan_selection graph applied target = Some (Ok selection) -> NoDup (executions selection).
Proof.
  intros [Hg Hs]%plan_ok. destruct selection as [apply rollback]. apply select_spec in Hs as (rest & E & -> & _ & ->).
  pose proof (go_keys _ _ Hg) as Hn. rewrite E, map_app in Hn. apply NoDup_app in Hn as (Hi & _ & Hr).
  unfold executions. cbn [fst snd]. apply NoDup_app. split_and!.
  - rewrite map_rev, <- Permutation_rev. by apply NoDup_action_keys, NoDup_filter_keys.
  - intros x (m & -> & _)%list_elem_of_fmap (m' & [=] & _)%list_elem_of_fmap.
  - by apply NoDup_action_keys, NoDup_filter_keys.
Qed.

(** C24. A recovery plan made from a graph has the steps of the plan in execution
    order, with pairwise distinct identities, unless the hash collides on what it
    is fed for them. *)
Theorem plan_recovery_ids_distinct sha256 r graph applied target checked :
  plan_recovery sha256 r graph applied target = Some (Ok checked) ->
  Forall fits (ordered_steps checked) -> collision_free sha256 (ordered_steps checked) ->
  NoDup (map id (ordered_steps checked)) /\
  exists ep, plan r graph applied target = Some (Ok ep) /\
    map execution (ordered_steps checked) = concat (map steps (to_rollback ep ++ to_apply ep)).
Proof.
  unfold plan_recovery. destruct (plan r graph applied target) as [[ep|e]|] eqn:Ep; [|done|done].
  intros [= H] Hfit Hfree. apply plan_keys in Ep as (selection & Hp & Hk).
  destruct (step_ids_distinct sha256 ep (recovery_checksums graph) checked H) as [He Hn]; [|done|done|].
  { eapply NoDup_map_finer; [rewrite Hk; by eapply executions_NoDup|]. intros x y _ _ [= ? ? ?].
    unfold migration_key. congruence. }
  split; [done|]. by exists ep.
Qed.

(** ** Example *)

Lemma plan_recovery_ids_distinct_witness :
  exists checked, plan_recovery (fun bytes => bytes) plain example_graph [] None = Some (Ok checked) /\
    NoDup (map id (ordered_steps checked)).
Proof.
  destruct (plan_recovery (fun bytes => bytes) plain example_graph [] None) as [[checked|e]|] eqn:E;
    [|vm_compute in E; discriminate|vm_compute in E; discriminate].
  exists checked. split; [reflexivity|].
  refine (proj1 (plan_recovery_ids_distinct (fun bytes => bytes) plain example_graph [] None checked E _ _)).
  - vm_compute in E. injection E as <-. unfold ordered_steps. cbn [checked_to_rollback checked_to_apply map concat checked_steps app].
    repeat (apply Forall_cons_2; [repeat split; vm_compute; discriminate|]). apply Forall_nil_2.
  - intros x y _ _ pre H. exact H.
Defined.

End ReleasedRecovery.
