(* ===== verification/History.v ===== *)
(** * Migration history (schema-migration/src/history.rs)

    The validated graph of verified manifests, its deterministic topological
    order, the applied sets it admits, and the plans that apply or roll back
    migrations. [None] stands for a panic (an index out of a map, an underflow of
    a counter) or exhausted fuel; the theorems say that neither happens. *)

From S2P Require Import Prelude BTree Text Ident Fingerprint Schema SchemaDelta Delta Safety Migration Manifest.
From Stdlib Require Import Relation_Operators Operators_Properties Sorted.
Import Ident Fingerprint Schema SchemaDelta Safety Migration Manifest.
#[local] Open Scope nat_scope.

Module History.

Definition Edges : Set := BTreeMap MigrationId (BTreeSet MigrationId).

Definition graph_failure (code : string) : Diagnostic := stable Integrity code.

(** ** Deterministic orders *)

(** One child of the emitted node: its counter is decremented if it is still
    waiting, and it becomes ready at zero. *)
Definition release (acc : BTreeMap MigrationId nat * BTreeSet MigrationId) (child : MigrationId)
    : option (BTreeMap MigrationId nat * BTreeSet MigrationId) :=
  match mget child acc.1 with
  | None => Some acc
  | Some O => None
  | Some (S count) => Some (mins child count acc.1, if count =? 0 then sins child acc.2 else acc.2)
  end.

Fixpoint release_all (acc : BTreeMap MigrationId nat * BTreeSet MigrationId) (children : list MigrationId)
    : option (BTreeMap MigrationId nat * BTreeSet MigrationId) :=
  match children with
  | [] => Some acc
  | child :: children =>
      match release acc child with Some acc => release_all acc children | None => None end
  end.

(** The loop that takes the least ready node; what is still waiting is returned. *)
Fixpoint drain (fuel : nat) (next : Edges) (remaining : BTreeMap MigrationId nat)
    (ready : BTreeSet MigrationId) (order : list MigrationId)
    : option (list MigrationId * BTreeMap MigrationId nat) :=
  match ready with
  | [] => Some (order, remaining)
  | id :: _ =>
      match fuel with
      | O => None
      | S fuel =>
          match mget id next with
          | None => None
          | Some children =>
              match release_all (remaining, sdel id ready) children with
              | None => None
              | Some (remaining, ready) => drain fuel next (mdel id remaining) ready (order ++ [id])
              end
          end
      end
  end.

(** The counters: for every node of the subset, the number of its neighbors that satisfy [waits]. *)
Fixpoint count_waits (subset : list MigrationId) (previous : Edges) (waits : MigrationId -> bool)
    : option (BTreeMap MigrationId nat) :=
  match subset with
  | [] => Some []
  | id :: subset =>
      match mget id previous, count_waits subset previous waits with
      | Some ps, Some remaining => Some (mins id (length (List.filter waits ps)) remaining)
      | _, _ => None
      end
  end.

Definition ready_of (remaining : BTreeMap MigrationId nat) : BTreeSet MigrationId :=
  sof (map fst (List.filter (fun e => e.2 =? 0) remaining)).

Definition order_apply_subset (required applied : BTreeSet MigrationId) (parents children : Edges)
    : option (result Diagnostic (list MigrationId)) :=
  match count_waits required parents (fun parent => smem parent required && negb (smem parent applied)) with
  | None => None
  | Some remaining =>
      match drain (length required) children remaining (ready_of remaining) [] with
      | None => None
      | Some (order, remaining) =>
          Some (if negb (bool_decide (remaining = [])) then Err (graph_failure "migration_history_cycle")
                else Ok order)
      end
  end.

Definition order_rollback_subset (removals : BTreeSet MigrationId) (parents children : Edges)
    : option (result Diagnostic (list MigrationId)) :=
  match count_waits removals children (fun child => smem child removals) with
  | None => None
  | Some remaining =>
      match drain (length removals) parents remaining (ready_of remaining) [] with
      | None => None
      | Some (order, remaining) =>
          Some (if negb (bool_decide (remaining = [])) then Err (graph_failure "migration_history_cycle")
                else Ok order)
      end
  end.

Definition topological_order (parents children : Edges) : option (result Diagnostic (list MigrationId)) :=
  match order_apply_subset (mkeys parents) [] parents children with
  | None => None
  | Some r =>
      Some (let? order := r in
            if negb (length order =? length parents) then Err (graph_failure "migration_history_cycle")
            else Ok order)
  end.

(** Depth-first reachability; [None] on a missing node or exhausted fuel. *)
Fixpoint reach (fuel : nat) (edges : Edges) (seen : BTreeSet MigrationId) (stack : list MigrationId)
    : option (BTreeSet MigrationId) :=
  match stack with
  | [] => Some seen
  | id :: stack =>
      match fuel with
      | O => None
      | S fuel =>
          match mget id edges with
          | None => None
          | Some nexts =>
              let '(seen, stack) :=
                fold_left (fun acc next =>
                  if smem next acc.1 then acc else (sins next acc.1, next :: acc.2)) nexts (seen, stack) in
              reach fuel edges seen stack
          end
      end
  end.

Definition reachable (start : MigrationId) (edges : Edges) : option (BTreeSet MigrationId) :=
  reach (S (length edges)) edges [] [start].

(** ** The history graph *)

Definition Manifests : Set := BTreeMap MigrationId VerifiedSchemaMigrationManifest.

Record MigrationHistoryGraph : Set := history_graph {
  graph_children : Edges;
  heads : list MigrationId;
  manifests : Manifests;
  graph_parents : Edges;
  topological : list MigrationId }.

Fixpoint collect_manifests (by_id : Manifests) (l : list VerifiedSchemaMigrationManifest)
    : result Diagnostic Manifests :=
  match l with
  | [] => Ok by_id
  | m :: l =>
      if mmem (manifest_id m) by_id then Err (graph_failure "migration_history_duplicate_id")
      else collect_manifests (mins (manifest_id m) m by_id) l
  end.

Definition check_legacy_bridges (by_id : Manifests) : result Diagnostic () :=
  let bridges := map manifest_id (List.filter is_legacy_bridge (mvals by_id)) in
  if 1 <? length bridges then Err (graph_failure "migration_history_multiple_legacy_bridges")
  else match bridges with
       | [] => Ok tt
       | bridge :: _ =>
           if existsb (fun e : MigrationId * VerifiedSchemaMigrationManifest =>
                bool_decide (length (parents e.2) = 0) && negb (oeqb e.1 bridge)) by_id
           then Err (graph_failure "migration_history_root_beside_legacy_bridge")
           else Ok tt
       end.

(** [children.get_mut(parent).expect(..).insert(id)]. *)
Definition add_child (id : MigrationId) (children : Edges) (parent : MigrationId) : option Edges :=
  match mget parent children with
  | Some s => Some (mins parent (sins id s) children)
  | None => None
  end.

Fixpoint add_parents (by_id : Manifests) (id : MigrationId) (children : Edges) (direct : list MigrationId)
    : option (result Diagnostic Edges) :=
  match direct with
  | [] => Some (Ok children)
  | parent :: direct =>
      if negb (mmem parent by_id) then Some (Err (graph_failure "migration_history_missing_parent"))
      else match add_child id children parent with
           | None => None
           | Some children => add_parents by_id id children direct
           end
  end.

(** The loop over the manifests in identity order. *)
Fixpoint link_manifests (by_id : Manifests) (acc : Edges * Edges)
    (l : list (MigrationId * VerifiedSchemaMigrationManifest)) : option (result Diagnostic (Edges * Edges)) :=
  match l with
  | [] => Some (Ok acc)
  | (id, m) :: l =>
      let direct := sof (parents m) in
      if smem id direct then Some (Err (graph_failure "migration_history_self_parent"))
      else match add_parents by_id id acc.2 direct with
           | None => None
           | Some (Err e) => Some (Err e)
           | Some (Ok children) => link_manifests by_id (mins id direct acc.1, children) l
           end
  end.

(** One parent edge of the profile lineage. *)
Definition lineage_edge (m parent : VerifiedSchemaMigrationManifest) : result Diagnostic () :=
  match profile_bridge m with
  | Some bridge =>
      if negb (bool_decide (manifest_profile parent = from_semantic_profile bridge))
         || negb (bool_decide (lowering_profile parent = from_lowering_profile bridge))
      then Err (graph_failure "migration_history_profile_bridge_parent_mismatch")
      else if negb (bool_decide (manifest_target parent = manifest_source m))
      then Err (graph_failure "migration_history_profile_bridge_state_mismatch")
      else Ok tt
  | None =>
      if negb (bool_decide (manifest_profile parent = manifest_profile m))
         || negb (bool_decide (lowering_profile parent = lowering_profile m))
      then Err (graph_failure "migration_history_profile_change_without_bridge")
      else Ok tt
  end.

Fixpoint lineage_parents (by_id : Manifests) (m : VerifiedSchemaMigrationManifest) (ps : list MigrationId)
    : option (result Diagnostic ()) :=
  match ps with
  | [] => Some (Ok tt)
  | p :: ps =>
      match mget p by_id with
      | None => None
      | Some parent =>
          match lineage_edge m parent with
          | Ok _ => lineage_parents by_id m ps
          | Err e => Some (Err e)
          end
      end
  end.

Fixpoint lineage_edges (by_id : Manifests) (parents : Edges)
    (l : list (MigrationId * VerifiedSchemaMigrationManifest)) : option (result Diagnostic ()) :=
  match l with
  | [] => Some (Ok tt)
  | (id, m) :: l =>
      match mget id parents with
      | None => None
      | Some ps =>
          match lineage_parents by_id m ps with
          | Some (Ok _) => lineage_edges by_id parents l
          | r => r
          end
      end
  end.

Fixpoint lineage_members (bridge : VerifiedSchemaMigrationManifest) (ancestors descendants : BTreeSet MigrationId)
    (l : list (MigrationId * VerifiedSchemaMigrationManifest)) : result Diagnostic () :=
  match l with
  | [] => Ok tt
  | (id, m) :: l =>
      if oeqb id (manifest_id bridge) || smem id ancestors || smem id descendants
      then lineage_members bridge ancestors descendants l
      else Err (graph_failure (if bool_decide (manifest_profile m = manifest_profile bridge)
                               then "migration_history_root_beside_profile_bridge"
                               else "migration_history_old_profile_not_bridge_ancestor"))
  end.

Definition validate_profile_lineage (by_id : Manifests) (parents children : Edges) : option (result Diagnostic ()) :=
  let bridges := List.filter is_profile_bridge (mvals by_id) in
  if 1 <? length bridges then Some (Err (graph_failure "migration_history_multiple_profile_bridges"))
  else match lineage_edges by_id parents by_id with
       | Some (Ok _) =>
           match bridges with
           | [] => Some (Ok tt)
           | bridge :: _ =>
               match reachable (manifest_id bridge) parents, reachable (manifest_id bridge) children with
               | Some ancestors, Some descendants =>
                   Some (lineage_members bridge ancestors descendants by_id)
               | _, _ => None
               end
           end
       | r => r
       end.

Definition from_verified (l : list VerifiedSchemaMigrationManifest) : option (result Diagnostic MigrationHistoryGraph) :=
  match collect_manifests [] l with
  | Err e => Some (Err e)
  | Ok by_id =>
      match check_legacy_bridges by_id with
      | Err e => Some (Err e)
      | Ok _ =>
          match link_manifests by_id ([], map (fun id => (id, [])) (mkeys by_id)) by_id with
          | None => None
          | Some (Err e) => Some (Err e)
          | Some (Ok (parents, children)) =>
              match topological_order parents children with
              | None => None
              | Some (Err e) => Some (Err e)
              | Some (Ok topological) =>
                  match validate_profile_lineage by_id parents children with
                  | None => None
                  | Some (Err e) => Some (Err e)
                  | Some (Ok _) =>
                      let heads := map fst (List.filter (fun e : MigrationId * BTreeSet MigrationId =>
                                     bool_decide (length e.2 = 0)) children) in
                      Some (Ok (history_graph children heads by_id parents topological))
                  end
              end
          end
      end
  end.

Definition default_head (g : MigrationHistoryGraph) : result Diagnostic (option MigrationId) :=
  match heads g with
  | [] => Ok None
  | [head] => Ok (Some head)
  | _ => Err (graph_failure "migration_history_ambiguous_default_head")
  end.

Fixpoint validate_each (g : MigrationHistoryGraph) (applied : BTreeSet MigrationId) (l : list MigrationId)
    : result Diagnostic () :=
  match l with
  | [] => Ok tt
  | id :: l =>
      let? direct := ok_or (mget id (graph_parents g)) (graph_failure "migration_history_unknown_applied_id") in
      if existsb (fun parent => negb (smem parent applied)) direct
      then Err (graph_failure "migration_history_applied_not_downward_closed")
      else validate_each g applied l
  end.

Definition validate_applied (g : MigrationHistoryGraph) (applied : BTreeSet MigrationId) : result Diagnostic () :=
  validate_each g applied applied.

(** The filter of [applied_frontier]; [None] on a missing child set. *)
Fixpoint frontier_of (g : MigrationHistoryGraph) (applied : BTreeSet MigrationId) (l : list MigrationId)
    : option (list MigrationId) :=
  match l with
  | [] => Some []
  | id :: l =>
      match mget id (graph_children g), frontier_of g applied l with
      | Some children, Some rest =>
          Some (if forallb (fun child => negb (smem child applied)) children then id :: rest else rest)
      | _, _ => None
      end
  end.

Definition applied_frontier (g : MigrationHistoryGraph) (applied : BTreeSet MigrationId)
    : option (result Diagnostic (list MigrationId)) :=
  match validate_applied g applied with
  | Err e => Some (Err e)
  | Ok _ => match frontier_of g applied applied with Some l => Some (Ok l) | None => None end
  end.

(** The closure loop; the stack pops its last element first. *)
Fixpoint closure_loop (fuel : nat) (parents : Edges) (closure : BTreeSet MigrationId) (pending : list MigrationId)
    : option (result Diagnostic (BTreeSet MigrationId)) :=
  match pending with
  | [] => Some (Ok closure)
  | id :: pending =>
      match fuel with
      | O => None
      | S fuel =>
          match mget id parents with
          | None => Some (Err (graph_failure "migration_history_unknown_apply_target"))
          | Some direct =>
              if smem id closure then closure_loop fuel parents closure pending
              else closure_loop fuel parents (sins id closure) (rev direct ++ pending)
          end
      end
  end.

(** Enough for every target and every edge to be popped once. *)
Definition closure_fuel (parents : Edges) (targets : BTreeSet MigrationId) : nat :=
  length targets + sum_list_with length (mvals parents).

Definition plan_apply (g : MigrationHistoryGraph) (applied targets : BTreeSet MigrationId)
    : option (result Diagnostic (list MigrationId)) :=
  match validate_applied g applied with
  | Err e => Some (Err e)
  | Ok _ =>
      match closure_loop (closure_fuel (graph_parents g) targets) (graph_parents g) [] (rev targets) with
      | None => None
      | Some (Err e) => Some (Err e)
      | Some (Ok closure) =>
          order_apply_subset (sdiff closure applied) applied (graph_parents g) (graph_children g)
      end
  end.

Definition plan_apply_to_default_head (g : MigrationHistoryGraph) (applied : BTreeSet MigrationId)
    : option (result Diagnostic (list MigrationId)) :=
  match default_head g with
  | Err e => Some (Err e)
  | Ok None => Some (let? _ := validate_applied g applied in Ok [])
  | Ok (Some head) => plan_apply g applied [head]
  end.

Fixpoint check_removals (g : MigrationHistoryGraph) (applied removals : BTreeSet MigrationId) (l : list MigrationId)
    : option (result Diagnostic ()) :=
  match l with
  | [] => Some (Ok tt)
  | id :: l =>
      if negb (mmem id (manifests g)) then Some (Err (graph_failure "migration_history_unknown_rollback_target"))
      else if negb (smem id applied) then Some (Err (graph_failure "migration_history_rollback_not_applied"))
      else match mget id (graph_children g) with
           | None => None
           | Some children =>
               if existsb (fun child => smem child applied && negb (smem child removals)) children
               then Some (Err (graph_failure "migration_history_remaining_applied_descendant"))
               else check_removals g applied removals l
           end
  end.

Definition plan_rollback (g : MigrationHistoryGraph) (applied removals : BTreeSet MigrationId)
    : option (result Diagnostic (list MigrationId)) :=
  match validate_applied g applied with
  | Err e => Some (Err e)
  | Ok _ =>
      match check_removals g applied removals removals with
      | None => None
      | Some (Err e) => Some (Err e)
      | Some (Ok _) => order_rollback_subset removals (graph_parents g) (graph_children g)
      end
  end.

(** [profile_bridge_with_ancestors]. *)
Definition profile_bridge_with_ancestors (g : MigrationHistoryGraph)
    : option (option (VerifiedSchemaMigrationManifest * BTreeSet MigrationId)) :=
  match List.find is_profile_bridge (mvals (manifests g)) with
  | None => Some None
  | Some bridge =>
      match reachable (manifest_id bridge) (graph_parents g) with
      | Some ancestors => Some (Some (bridge, ancestors))
      | None => None
      end
  end.

Definition require_adoption_authority_pair_state (adopted_genesis_present : bool) (legacy_bridge_count : nat)
    : result Diagnostic () :=
  if (adopted_genesis_present && (legacy_bridge_count =? 1))
     || (negb adopted_genesis_present && (legacy_bridge_count =? 0))
  then Ok tt else Err (stable Integrity "migration_adoption_authority_incomplete").

Definition require_adoption_authority_pair (g : MigrationHistoryGraph) (adopted_genesis_present : bool)
    : result Diagnostic () :=
  require_adoption_authority_pair_state adopted_genesis_present
    (length (List.filter is_legacy_bridge (mvals (manifests g)))).

Definition require_workspace_profile_heads (g : MigrationHistoryGraph) (workspace : SemanticProfileId)
    : option (result Diagnostic ()) :=
  (fix loop (l : list MigrationId) : option (result Diagnostic ()) :=
     match l with
     | [] => Some (Ok tt)
     | head :: l =>
         match mget head (manifests g) with
         | None => None
         | Some m =>
             let head_profile := semantic_id (manifest_profile m) in
             if str_eqb head_profile workspace then loop l
             else
               let bridged := existsb is_profile_bridge (mvals (manifests g)) in
               let older :=
                 match for_semantic_profile head_profile, for_semantic_profile workspace with
                 | Some history, Some workspace => oltb history workspace
                 | _, _ => false
                 end in
               Some (Err (graph_failure (if older && negb bridged
                                         then "migration_history_profile_upgrade_required"
                                         else "migration_history_profile_not_workspace")))
         end
     end) (heads g).

(** The stem of a discovered file is the manifest's name. *)
Definition require_stem_binding (m : VerifiedSchemaMigrationManifest) (stem : str) : result Diagnostic () :=
  if negb (str_eqb (migration_name (manifest_id m)) stem)
  then Err (invalid "migration_discovery_filename_manifest_mismatch") else Ok tt.

End History.
