(* ===== verification/HistoryOrder.v ===== *)
(** * The deterministic order of a history (schema-migration/src/history.rs)

    The loop that orders a subset of a migration graph takes the least ready
    node at every step. It is total, it stops exactly at the nodes a cycle
    blocks, and the order it emits is the only greedy one. *)

From S2P Require Import Prelude BTree Migration Manifest History.
From Stdlib Require Import Relation_Operators Operators_Properties Sorted.
Import Migration Manifest History.
#[local] Open Scope nat_scope.

Module HistoryOrder.

(** ** Graphs *)

Definition edge (E : Edges) (x y : MigrationId) : Prop := exists s, mget x E = Some s /\ y ∈ s.

(** [next] is the transpose of [prev], over the same nodes. *)
Record transposed (prev next : Edges) : Prop := {
  tr_prev : msorted prev;
  tr_next : msorted next;
  tr_keys : forall x, is_Some (mget x prev) <-> is_Some (mget x next);
  tr_edges : forall x y, edge prev x y <-> edge next y x;
  tr_prev_sets : forall x s, mget x prev = Some s -> ssorted s;
  tr_next_sets : forall x s, mget x next = Some s -> ssorted s }.

Lemma transposed_flip prev next : transposed prev next -> transposed next prev.
Proof. intros [H1 H2 H3 H4 H5 H6]. by split. Qed.

Lemma edge_known prev next x y : transposed prev next -> edge prev x y -> is_Some (mget y prev).
Proof. intros Ht (s & Hs)%(tr_edges _ _ Ht). apply (tr_keys _ _ Ht). destruct Hs as [-> _]. eauto. Qed.

(** ** Nodes that cannot be ordered lie on a cycle *)

Section descent.
Context {A : Type} `{EqDecision A} (R : A -> A -> Prop).

Lemma chain_cycle (S p : list A) x :
  (forall y, y ∈ S -> exists z, z ∈ S /\ R y z) ->
  x ∈ S -> NoDup (x :: p) -> (forall y, y ∈ p -> y ∈ S) ->
  (forall y, y ∈ p -> clos_trans A R y x) ->
  exists z, z ∈ S /\ clos_trans A R z z.
Proof.
  intros Hnext. remember (length S - length p) as n eqn:Hn. revert p x Hn.
  induction n as [|n IH]; intros p x Hn Hx Hnd Hp Hc.
  - exfalso. assert (length (x :: p) <= length S) as Hle.
    { apply submseteq_length, NoDup_submseteq; [done|]. intros y [->|Hy]%elem_of_cons; auto. }
    simpl in Hle. lia.
  - destruct (Hnext x Hx) as (z & Hz & Hxz).
    destruct (decide (z ∈ x :: p)) as [[->|Hin]%elem_of_cons|Hin].
    + exists x. split; [done|]. by apply t_step.
    + exists x. split; [done|]. apply t_trans with z; [by apply t_step|by apply Hc].
    + apply (IH (x :: p) z); [simpl; lia|done|by apply NoDup_cons|intros y [->|Hy]%elem_of_cons; auto|].
      intros y [->|Hy]%elem_of_cons; [by apply t_step|]. apply t_trans with x; [by apply Hc|by apply t_step].
Qed.

Lemma blocked_cycle (S : list A) :
  (forall y, y ∈ S -> exists z, z ∈ S /\ R y z) -> S <> [] -> exists z, z ∈ S /\ clos_trans A R z z.
Proof.
  intros Hnext Hne. destruct S as [|x S]; [done|].
  apply (chain_cycle (x :: S) [] x); [done|by left|repeat constructor; set_solver|set_solver..].
Qed.
End descent.

(** ** Releasing the children of a node *)

Lemma release_all_spec cs R Q :
  NoDup cs -> msorted R -> ssorted Q -> (forall c, c ∈ cs -> mget c R <> Some 0) ->
  exists R' Q', release_all (R, Q) cs = Some (R', Q') /\ msorted R' /\ ssorted Q' /\
  (forall c, mget c R' = if decide (c ∈ cs) then pred <$> mget c R else mget c R) /\
  (forall c, c ∈ Q' <-> c ∈ Q \/ (c ∈ cs /\ mget c R = Some 1)).
Proof.
  revert R Q. induction cs as [|c cs IH]; intros R Q Hnd Hm Hs H0; cbn [release_all].
  { exists R, Q. split_and!; [done..| |]; [intros c; by destruct (decide (c ∈ [])) as [?%not_elem_of_nil|]|set_solver]. }
  apply NoDup_cons in Hnd as [Hc Hnd]. unfold release at 1. cbn [fst snd].
  destruct (mget c R) as [[|n]|] eqn:Ec.
  - destruct (H0 c); [by left|done].
  - destruct (IH (mins c n R) (if n =? 0 then sins c Q else Q)) as (R' & Q' & E & H1 & H2 & H3 & H4);
      [done|by apply mins_sorted|destruct (n =? 0); [by apply sins_sorted|done]|..].
    { intros d Hd. rewrite mget_mins_ne by (intros ->; done). apply H0. by right. }
    exists R', Q'. split_and!; [done..| |].
    + intros d. rewrite H3. destruct (decide (d = c)) as [->|Hne].
      * destruct (decide (c ∈ cs)); [done|]. destruct (decide (c ∈ c :: cs)) as [|Hnin]; [|destruct Hnin; by left].
        by rewrite mget_mins_eq, Ec.
      * rewrite mget_mins_ne by done.
        destruct (decide (d ∈ cs)) as [Hd|Hd], (decide (d ∈ c :: cs)) as [Hd'|Hd']; try done.
        -- destruct Hd'. by right.
        -- by apply elem_of_cons in Hd' as [->|?].
    + intros d. rewrite H4. destruct (decide (d = c)) as [->|Hne].
      * rewrite Ec. destruct n as [|n]; simpl; rewrite ?elem_sins; set_solver.
      * rewrite mget_mins_ne, elem_of_cons by done. destruct (n =? 0); rewrite ?elem_sins; tauto.
  - destruct (IH R Q) as (R' & Q' & E & H1 & H2 & H3 & H4); [done..|intros d Hd; apply H0; by right|].
    exists R', Q'. split_and!; [done..| |].
    + intros d. rewrite H3. destruct (decide (d ∈ cs)) as [Hd|Hd], (decide (d ∈ c :: cs)) as [Hd'|Hd']; try done.
      * destruct Hd'. by right.
      * apply elem_of_cons in Hd' as [->|?]; [by rewrite Ec|done].
    + intros d. rewrite H4, elem_of_cons. destruct (decide (d = c)) as [->|]; [|tauto].
      rewrite Ec. intuition congruence.
Qed.

(** ** The loop *)

Section kahn.
Context (prev next : Edges) (S : list MigrationId).

(** The neighbors [x] still waits for. *)
Definition opens (E : list MigrationId) (x : MigrationId) : list MigrationId :=
  List.filter (fun p => smem p S && negb (smem p E)) (default [] (mget x prev)).

Definition unlocked (E : list MigrationId) (x : MigrationId) : Prop :=
  forall p, edge prev x p -> p ∈ S -> p ∈ E.

(** Every node is emitted unlocked, and is the least such node. *)
Definition emission (E : list MigrationId) : Prop :=
  forall pre x post, E = pre ++ x :: post ->
    x ∈ S /\ x ∉ pre /\ unlocked pre x /\
    forall y, y ∈ S -> y ∉ pre -> unlocked pre y -> x = y \/ olt x y.

Lemma elem_opens E x p : p ∈ opens E x <-> edge prev x p /\ p ∈ S /\ p ∉ E.
Proof.
  unfold opens, edge. rewrite list_elem_of_In, filter_In, andb_true_iff, negb_true_iff, smem_true, smem_false.
  rewrite <- list_elem_of_In. destruct (mget x prev) as [s|]; simpl.
  - split; [intros (? & ? & ?); split_and!; [eauto|done..]|]. by intros ((s' & [= ->] & ?) & ? & ?).
  - split; [by intros [?%not_elem_of_nil _]|]. by intros ((? & ? & _) & _).
Qed.

Lemma opens_zero E x : length (opens E x) = 0 <-> unlocked E x.
Proof.
  split.
  - intros H p He Hp. destruct (decide (p ∈ E)) as [|Hn]; [done|]. exfalso.
    assert (p ∈ opens E x) as Hin by (by apply elem_opens).
    destruct (opens E x); [by apply not_elem_of_nil in Hin|done].
  - intros H. destruct (opens E x) as [|p l] eqn:E0; [done|]. exfalso.
    assert (p ∈ opens E x) as (He & Hp & Hn)%elem_opens by (rewrite E0; by left). by apply Hn, H.
Qed.

Lemma emission_extend E x :
  emission E -> x ∈ S -> x ∉ E -> unlocked E x ->
  (forall y, y ∈ S -> y ∉ E -> unlocked E y -> x = y \/ olt x y) -> emission (E ++ [x]).
Proof.
  intros He H1 H2 H3 H4 pre y post Heq.
  destruct post as [|z post] using rev_ind.
  - apply app_inj_tail in Heq as [<- <-]. done.
  - clear IHpost. rewrite app_comm_cons, app_assoc in Heq. apply app_inj_tail in Heq as [-> <-]. eapply He; eauto.
Qed.

Context (Ht : transposed prev next) (HS : ssorted S).
Context (Hk : forall x, x ∈ S -> is_Some (mget x prev)).

Lemma opens_snoc_edge E x c :
  edge prev c x -> x ∈ S -> x ∉ E -> length (opens E c) = Datatypes.S (length (opens (E ++ [x]) c)).
Proof.
  intros He Hx HE. 
  assert (x :: opens (E ++ [x]) c ≡ₚ opens E c) as Hp; [|by rewrite <- Hp].
  assert (forall F, NoDup (opens F c)) as Hnd.
  { intros F. apply NoDup_ListNoDup, List.NoDup_filter, NoDup_ListNoDup.
    destruct (mget c prev) as [s|] eqn:Es; simpl; [|constructor].
    apply ssorted_NoDup. by eapply (tr_prev_sets _ _ Ht). }
  apply NoDup_Permutation; [apply NoDup_cons; split; [|done]|done|].
  - rewrite elem_opens, elem_of_app. set_solver.
  - intros p. rewrite elem_of_cons, !elem_opens, elem_of_app, list_elem_of_singleton. split.
    + intros [->|(H1 & H2 & H3)]; [done|]. split_and!; [done..|]. tauto.
    + intros (H1 & H2 & H3). destruct (decide (p = x)) as [->|]; [by left|right]. split_and!; [done..|]. tauto.
Qed.

Lemma opens_snoc_other E x c : ~ edge prev c x -> opens (E ++ [x]) c = opens E c.
Proof.
  intros He. unfold opens. destruct (mget c prev) as [s|] eqn:Es; [|done]. simpl.
  apply filter_ext_in. intros p Hp%list_elem_of_In. f_equal. f_equal.
  destruct (smem p E) eqn:E1.
  - apply smem_true in E1. apply smem_true. set_solver.
  - apply smem_false in E1. apply smem_false. rewrite elem_of_app, list_elem_of_singleton.
    intros [?| ->]; [done|]. apply He. by exists s.
Qed.

Record KInv (E : list MigrationId) (R : BTreeMap MigrationId nat) (Q : BTreeSet MigrationId) : Prop := {
  ki_nodup : NoDup E;
  ki_emission : emission E;
  ki_sorted : msorted R;
  ki_ready_sorted : ssorted Q;
  ki_remaining : forall x n, mget x R = Some n <-> x ∈ S /\ x ∉ E /\ n = length (opens E x);
  ki_ready : forall x, x ∈ Q <-> x ∈ S /\ x ∉ E /\ unlocked E x }.

Lemma kinv_elems E R Q : KInv E R Q -> forall x, x ∈ E -> x ∈ S.
Proof.
  intros H x Hx. apply list_elem_of_split in Hx as (pre & post & ->). by edestruct (ki_emission _ _ _ H).
Qed.

Lemma kinv_length E R Q : KInv E R Q -> Q <> [] -> length E < length S.
Proof.
  intros H Hq. destruct Q as [|x Q]; [done|].
  assert (x ∈ x :: Q) as (H1 & H2 & _)%(ki_ready _ _ _ H) by (by left).
  assert (length (x :: E) <= length S) as Hle; [|simpl in Hle; lia].
  apply submseteq_length, NoDup_submseteq; [apply NoDup_cons; split; [done|by apply (ki_nodup _ _ _ H)]|].
  intros y [->|Hy]%elem_of_cons; [done|]. by eapply kinv_elems.
Qed.

(** One iteration. *)
Lemma kinv_step E R x Q :
  KInv E R (x :: Q) ->
  exists cs R' Q', mget x next = Some cs /\ release_all (R, sdel x (x :: Q)) cs = Some (R', Q') /\
  KInv (E ++ [x]) (mdel x R') Q'.
Proof.
  intros H. pose proof H as [Hnd Hem Hms Hqs Hrem Hrd].
  assert (x ∈ x :: Q) as (HxS & HxE & Hux)%Hrd by (by left).
  destruct (Hk x HxS) as [ps Hps]. destruct (proj1 (tr_keys _ _ Ht x) (ltac:(eauto))) as [cs Hcs].
  assert (forall c, c ∈ cs <-> edge prev c x) as Hch.
  { intros c. rewrite (tr_edges _ _ Ht). unfold edge. rewrite Hcs. naive_solver. }
  assert (x ∉ cs) as Hself.
  { rewrite Hch. intros He. apply HxE. by apply Hux. }
  destruct (release_all_spec cs R (sdel x (x :: Q))) as (R' & Q' & Er & H1 & H2 & H3 & H4).
  { eapply ssorted_NoDup, (tr_next_sets _ _ Ht); eauto. }
  { done. }
  { by apply sdel_sorted. }
  { intros c Hc%Hch Hz. apply Hrem in Hz as (_ & HcE & Hz).
    rewrite (opens_snoc_edge E x c) in Hz by done. done. }
  exists cs, R', Q'. split_and!; [done..|]. 
  assert (forall y n, mget y (mdel x R') = Some n <-> y ∈ S /\ y ∉ E ++ [x] /\ n = length (opens (E ++ [x]) y)) as Hrem'.
  { intros y n. rewrite mget_mdel, H3, elem_of_app, list_elem_of_singleton.
    destruct (oeqb_spec x y) as [<-|Hne]; [split; [done|tauto]|].
    destruct (decide (y ∈ cs)) as [Hy|Hy].
    - apply Hch in Hy. pose proof (opens_snoc_edge E x y Hy HxS HxE) as Ho.
      destruct (mget y R) as [m|] eqn:Em; simpl.
      + apply Hrem in Em as (Ha & Hb & ->). rewrite Ho. simpl. split; [intros [= <-]|intros (_ & _ & ->); done].
        split_and!; [done| |done]. intros [?|?]; congruence.
      + split; [done|]. intros (Ha & Hb & _).
        assert (mget y R = Some (length (opens E y))) as Em'; [|congruence]. apply Hrem. tauto.
    - rewrite (opens_snoc_other E x y) by (by rewrite <- Hch). rewrite Hrem. intuition congruence. }
  split; [| |by apply mdel_sorted|done|done|].
  - apply NoDup_app. split_and!; [done| |repeat constructor; set_solver]. intros y Hy ->%list_elem_of_singleton. done.
  - apply emission_extend; try done. intros y Hy HyE Hu.
    assert (y ∈ x :: Q) as [->|Hin]%elem_of_cons by (by apply Hrd); [by left|right].
    inversion Hqs as [|? ? _ Hall]; subst. rewrite Forall_forall in Hall. by apply Hall.
  - intros y. rewrite H4, elem_sdel, Hrd, elem_of_app, list_elem_of_singleton, <- opens_zero, <- opens_zero.
    destruct (decide (y = x)) as [->|Hne].
    { split; [|tauto]. intros [[? _]|[? _]]; done. }
    destruct (decide (y ∈ cs)) as [Hy|Hy].
    + pose proof Hy as He%Hch. rewrite (opens_snoc_edge E x y He HxS HxE), Hrem.
      rewrite (opens_snoc_edge E x y He HxS HxE). intuition lia.
    + rewrite (opens_snoc_other E x y) by (by rewrite <- Hch). tauto.
Qed.

Lemma kahn_drain_spec fuel E R Q :
  KInv E R Q -> length S - length E <= fuel ->
  exists E' R', drain fuel next R Q E = Some (E', R') /\ KInv E' R' [].
Proof.
  revert E R Q. induction fuel as [|fuel IH]; intros E R Q H Hf.
  - destruct Q as [|x Q]; [by exists E, R|]. pose proof (kinv_length _ _ _ H ltac:(done)). lia.
  - destruct Q as [|x Q]; [by exists E, R|]. pose proof (kinv_length _ _ _ H ltac:(done)) as Hl.
    destruct (kinv_step E R x Q H) as (cs & R' & Q' & Hcs & Hr & H'). cbn [drain]. rewrite Hcs, Hr.
    apply IH; [done|]. rewrite length_app. simpl. lia.
Qed.

(** The edges between nodes of the subset. *)
Definition within (x y : MigrationId) : Prop := edge prev x y /\ x ∈ S /\ y ∈ S.

Definition acyclic : Prop := forall x, ~ clos_trans MigrationId within x x.

(** The order of the subset: a permutation of it in which every node is the
    least of those that wait for nothing. *)
Definition ordered (E : list MigrationId) : Prop := E ≡ₚ S /\ emission E.

Lemma emission_before E x y :
  emission E -> clos_trans MigrationId within x y -> forall pre post, E = pre ++ x :: post -> y ∈ pre.
Proof.
  intros He Hc. induction Hc as [x y (Hxy & Hx & Hy)|x y z _ IH1 _ IH2]; intros pre post ->.
  - destruct (He pre x post eq_refl) as (_ & _ & Hu & _). by apply Hu.
  - specialize (IH1 pre post eq_refl). apply list_elem_of_split in IH1 as (a & b & ->).
    apply elem_of_app. left. apply (IH2 a (b ++ x :: post)). by rewrite <- app_assoc.
Qed.

Lemma within_left x y : clos_trans MigrationId within x y -> x ∈ S.
Proof. induction 1 as [? ? (_ & ? & _)|]; done. Qed.

Lemma ordered_acyclic E : ordered E -> acyclic.
Proof.
  intros [Hp He] x Hc.
  assert (x ∈ S) as Hx by (eapply within_left; eauto).
  rewrite <- Hp in Hx. apply list_elem_of_split in Hx as (pre & post & Heq).
  pose proof (emission_before E x x He Hc pre post Heq) as Hin. by destruct (He pre x post Heq) as (_ & ? & _).
Qed.

Lemma ordered_unique E E' : ordered E -> ordered E' -> E = E'.
Proof.
  intros [Hp He] [Hp' He'].
  assert (forall p p' pre, E = pre ++ p -> E' = pre ++ p' -> length p = length p' -> p = p') as H.
  { induction p as [|x p IH]; intros [|y p'] pre H1 H2 Hl; try done.
    destruct (He pre x p H1) as (Hx & Hxn & Hxu & Hxl). destruct (He' pre y p' H2) as (Hy & Hyn & Hyu & Hyl).
    assert (x = y) as <-.
    { destruct (Hxl y Hy Hyn Hyu) as [|Hlt]; [done|]. destruct (Hyl x Hx Hxn Hxu) as [|Hgt]; [done|].
      unfold olt in *. rewrite (cmp_opp x y), Hlt in Hgt. done. }
    f_equal. apply (IH p' (pre ++ [x])); [by rewrite <- app_assoc..|by injection Hl]. }
  apply (H E E' []); [done..|]. by rewrite Hp, Hp'.
Qed.

Lemma count_waits_spec w l :
  (forall x, x ∈ l -> is_Some (mget x prev)) -> ssorted l ->
  exists R, count_waits l prev w = Some R /\ msorted R /\
  forall x n, mget x R = Some n <-> x ∈ l /\ n = length (List.filter w (default [] (mget x prev))).
Proof.
  induction l as [|y l IH]; intros Hl Hs; cbn [count_waits].
  { exists []. split_and!; [done|constructor|]. intros x n. simpl. set_solver. }
  destruct IH as (R & HR & Hm & Hg); [intros x Hx; apply Hl; by right|by inversion Hs|].
  destruct (Hl y) as [ps Hps]; [by left|]. rewrite Hps, HR. eexists. split_and!; [done|by apply mins_sorted|].
  intros x n. rewrite mget_mins. destruct (oeqb_spec y x) as [<-|Hne].
  - rewrite Hps. simpl. split; [intros [= <-]; split; [by left|done]|by intros [_ ->]].
  - rewrite Hg, elem_of_cons. intuition congruence.
Qed.

Lemma elem_ready_of R x : msorted R -> x ∈ ready_of R <-> mget x R = Some 0.
Proof.
  intros Hm. unfold ready_of. rewrite elem_sof, list_elem_of_In, in_map_iff. split.
  - intros ([y n] & <- & [Hin Hz]%filter_In). apply Nat.eqb_eq in Hz. simpl in *. subst n.
    apply list_elem_of_In in Hin. by apply elem_mget.
  - intros Hg. exists (x, 0). split; [done|]. apply filter_In. split; [|done].
    apply list_elem_of_In. by apply elem_mget.
Qed.

Lemma kinv_done E R : KInv E R [] -> (R = [] /\ ordered E) \/ (R <> [] /\ ~ acyclic).
Proof.
  intros H. destruct R as [|[y n] R0] eqn:ER.
  - left. split; [done|]. split; [|by apply (ki_emission _ _ _ H)].
    apply NoDup_Permutation; [by apply (ki_nodup _ _ _ H)|by apply ssorted_NoDup|].
    intros x. split; [by eapply kinv_elems|]. intros Hx. destruct (decide (x ∈ E)) as [|Hn]; [done|].
    pose proof (proj2 (ki_remaining _ _ _ H x (length (opens E x))) ltac:(done)) as Hbad. done.
  - right. split; [done|]. rewrite <- ER in H. intros Hac.
    destruct (blocked_cycle within (List.filter (fun x => negb (smem x E)) S)) as (z & _ & Hz); [| |by apply (Hac z)].
    + intros x Hx. apply list_elem_of_In, filter_In in Hx as [Hx%list_elem_of_In Hn%negb_true_iff%smem_false].
      destruct (opens E x) as [|p l] eqn:Eo.
      { assert (x ∈ []) as []%not_elem_of_nil. apply (ki_ready _ _ _ H). split_and!; [done..|].
        apply opens_zero. by rewrite Eo. }
      assert (p ∈ opens E x) as (Hp1 & Hp2 & Hp3)%elem_opens by (rewrite Eo; by left).
      exists p. split; [|by split_and!]. apply list_elem_of_In, filter_In.
      split; [by apply list_elem_of_In|]. by apply negb_true_iff, smem_false.
    + assert (mget y R = Some n) as (Hy & HyE & _)%(ki_remaining _ _ _ H).
      { apply elem_mget; [by apply (ki_sorted _ _ _ H)|]. rewrite ER. by left. }
      intros Hnil. assert (y ∈ []) as []%not_elem_of_nil. rewrite <- Hnil.
      apply list_elem_of_In, filter_In. split; [by apply list_elem_of_In|]. by apply negb_true_iff, smem_false.
Qed.

(** The counters and the loop together: they return, and with nothing left
    exactly when the subset has no cycle. *)
Lemma kahn_correct w :
  (forall p, w p = smem p S) ->
  exists R0 E R, count_waits S prev w = Some R0 /\ drain (length S) next R0 (ready_of R0) [] = Some (E, R) /\
  ((R = [] /\ ordered E) \/ (R <> [] /\ ~ acyclic)).
Proof.
  intros Hw. destruct (count_waits_spec w S Hk HS) as (R0 & HR & Hm & Hg).
  assert (forall x, length (List.filter w (default [] (mget x prev))) = length (opens [] x)) as Hlen.
  { intros x. unfold opens. f_equal. apply filter_ext. intros p. by rewrite Hw, andb_true_r. }
  assert (KInv [] R0 (ready_of R0)) as Hinv.
  { split; [constructor| |done|apply sof_sorted| |].
    - intros pre x post Hbad. by destruct pre.
    - intros x n. rewrite Hg, Hlen. set_solver.
    - intros x. rewrite elem_ready_of, Hg, Hlen, <- opens_zero by done. set_solver. }
  destruct (kahn_drain_spec (length S) [] R0 (ready_of R0) Hinv) as (E & R & Hd & Hf); [simpl; lia|].
  exists R0, E, R. split_and!; [done..|]. by apply kinv_done.
Qed.
End kahn.

(** What an order returns: the one order, or the cycle it met. *)
Definition order_result prev S (r : result Diagnostic (list MigrationId)) : Prop :=
  (forall E, r = Ok E <-> ordered prev S E) /\
  (forall e, r = Err e <-> e = graph_failure "migration_history_cycle" /\ ~ acyclic prev S).

Lemma order_result_intro prev S r :
  (exists E, r = Ok E /\ ordered prev S E) \/ (r = Err (graph_failure "migration_history_cycle") /\ ~ acyclic prev S) ->
  order_result prev S r.
Proof.
  intros [(E & -> & HE)|[-> Hc]]; split.
  - intros E'. split; [by intros [= <-]|]. intros HE'. f_equal. by eapply ordered_unique.
  - intros e. split; [done|]. intros [_ []]. by eapply ordered_acyclic.
  - intros E. split; [done|]. intros HE. destruct Hc. by eapply ordered_acyclic.
  - intros e. split; [by intros [= <-]|by intros [-> _]].
Qed.

Lemma order_apply_subset_spec required applied parents children :
  transposed parents children -> ssorted required -> (forall x, x ∈ required -> is_Some (mget x parents)) ->
  (forall x, x ∈ required -> x ∉ applied) ->
  exists r, order_apply_subset required applied parents children = Some r /\ order_result parents required r.
Proof.
  intros Ht HS Hk Hd. unfold order_apply_subset.
  destruct (kahn_correct parents children required Ht HS Hk
              (fun p => smem p required && negb (smem p applied))) as (R0 & E & R & -> & -> & H).
  { intros p. destruct (smem p required) eqn:Ep; [|done]. apply smem_true, Hd, smem_false in Ep. by rewrite Ep. }
  eexists. split; [done|]. apply order_result_intro.
  destruct H as [[-> HE]|[HR Hc]]; [left; eauto|right]. destruct R; done.
Qed.

Lemma order_rollback_subset_spec removals parents children :
  transposed parents children -> ssorted removals -> (forall x, x ∈ removals -> is_Some (mget x parents)) ->
  exists r, order_rollback_subset removals parents children = Some r /\ order_result children removals r.
Proof.
  intros Ht HS Hk. unfold order_rollback_subset.
  destruct (kahn_correct children parents removals (transposed_flip _ _ Ht) HS
              (fun x Hx => proj1 (tr_keys _ _ Ht x) (Hk x Hx)) (fun p => smem p removals)) as (R0 & E & R & -> & -> & H);
    [done|].
  eexists. split; [done|]. apply order_result_intro.
  destruct H as [[-> HE]|[HR Hc]]; [left; eauto|right]. destruct R; done.
Qed.

Lemma elem_mkeys (E : Edges) x : msorted E -> x ∈ mkeys E <-> is_Some (mget x E).
Proof.
  intros Hm. unfold mkeys. rewrite list_elem_of_In, in_map_iff. split.
  - intros ([y s] & <- & Hin%list_elem_of_In). exists s. by apply elem_mget.
  - intros [s Hs]. exists (x, s). split; [done|]. by apply list_elem_of_In, elem_mget.
Qed.

Lemma topological_order_spec parents children :
  transposed parents children ->
  exists r, topological_order parents children = Some r /\ order_result parents (mkeys parents) r.
Proof.
  intros Ht. pose proof (tr_prev _ _ Ht) as Hm. unfold topological_order.
  destruct (order_apply_subset_spec (mkeys parents) [] parents children) as (r & -> & Hr); [done|done| |set_solver|].
  { intros x. by apply elem_mkeys. }
  eexists. split; [done|]. destruct r as [E|e]; [|done]. simpl.
  destruct (proj1 (proj1 Hr E) eq_refl) as [Hp _].
  rewrite Hp. unfold mkeys. by rewrite length_map, Nat.eqb_refl.
Qed.

End HistoryOrder.
