(* ===== verification/HistoryReach.v ===== *)
(** * Reachability in a history (schema-migration/src/history.rs)

    The two searches of the history graph, [reachable] and the closure of apply
    targets, return within their fuel and compute the transitive closure. *)

From S2P Require Import Prelude BTree Migration Manifest History HistoryOrder.
From Stdlib Require Import Relation_Operators Operators_Properties Sorted.
Import Migration Manifest History HistoryOrder.
#[local] Open Scope nat_scope.

Module HistoryReach.

Section search.
Context (prev next : Edges) (Ht : transposed prev next).

#[local] Abbreviation path := (clos_trans MigrationId (edge prev)).
#[local] Abbreviation walk := (clos_refl_trans MigrationId (edge prev)).

Lemma path_known x y : path x y -> is_Some (mget y prev).
Proof. induction 1; [by eapply edge_known|done]. Qed.

Lemma path_source x y : path x y -> is_Some (mget x prev).
Proof. induction 1 as [? ? (s & Hs & _)|]; eauto. Qed.

Lemma walk_known x y : is_Some (mget x prev) -> walk x y -> is_Some (mget y prev).
Proof. intros Hx Hw. induction Hw; [by eapply edge_known|done|auto]. Qed.

Lemma seen_length (s : list MigrationId) :
  ssorted s -> (forall y, y ∈ s -> is_Some (mget y prev)) -> length s <= length prev.
Proof.
  intros Hs Hk. rewrite <- (length_map fst prev).
  apply submseteq_length, NoDup_submseteq; [by apply ssorted_NoDup|].
  intros y Hy. by apply mget_elem, Hk.
Qed.

(** One expansion: the unseen neighbors are seen and pushed. *)
Lemma push_spec (nexts seen stack seen' stack' : list MigrationId) :
  ssorted seen ->
  fold_left (fun acc next => if smem next acc.1 then acc else (sins next acc.1, next :: acc.2))
    nexts (seen, stack) = (seen', stack') ->
  ssorted seen' /\ length seen' + length stack = length seen + length stack' /\
  (forall y, y ∈ seen' <-> y ∈ seen \/ y ∈ nexts) /\
  (forall y, y ∈ stack' <-> y ∈ stack \/ (y ∈ nexts /\ y ∉ seen)).
Proof.
  revert seen stack. induction nexts as [|x nexts IH]; intros seen stack Hs; simpl.
  { intros [= <- <-]. set_solver by lia. }
  destruct (smem x seen) eqn:Ex.
  - intros H%IH; [|done]. apply smem_true in Ex. destruct H as (H1 & H2 & H3 & H4).
    split_and!; [done..| |].
    + intros y. rewrite H3, elem_of_cons. set_solver.
    + intros y. rewrite H4, elem_of_cons. set_solver.
  - intros H%IH; [|by apply sins_sorted]. apply smem_false in Ex. destruct H as (H1 & H2 & H3 & H4).
    assert (length (sins x seen) = S (length seen)) as Hl.
    { change (S (length seen)) with (length (x :: seen)). apply Permutation_length, NoDup_Permutation.
      - by apply ssorted_NoDup, sins_sorted.
      - apply NoDup_cons. split; [done|by apply ssorted_NoDup].
      - intros y. rewrite elem_sins, elem_of_cons. done. }
    split_and!; [done|simpl in H2; lia| |].
    + intros y. rewrite H3, elem_sins, elem_of_cons. tauto.
    + intros y. rewrite H4, elem_sins, !elem_of_cons.
      destruct (decide (y = x)) as [->|]; tauto.
Qed.

Record RInv (start : MigrationId) (seen : BTreeSet MigrationId) (stack : list MigrationId) : Prop := {
  ri_sorted : ssorted seen;
  ri_seen : forall y, y ∈ seen -> path start y;
  ri_stack : forall y, y ∈ stack -> y = start \/ y ∈ seen;
  ri_done : forall y, y = start \/ y ∈ seen -> y ∈ stack \/ forall z, edge prev y z -> z ∈ seen }.

Lemma reach_spec fuel start seen stack :
  is_Some (mget start prev) -> RInv start seen stack ->
  length stack + length prev <= fuel + length seen ->
  exists s, reach fuel prev seen stack = Some s /\ RInv start s [].
Proof.
  intros Hstart. revert seen stack. induction fuel as [|fuel IH]; intros seen stack H Hf.
  - destruct stack as [|x stack]; [by exists seen|]. exfalso.
    assert (length seen <= length prev) as Hle; [|simpl in Hf; lia].
    apply seen_length; [by apply (ri_sorted _ _ _ H)|]. intros y Hy. eapply path_known. by apply (ri_seen _ _ _ H).
  - destruct stack as [|x stack]; [by exists seen|]. cbn [reach].
    assert (x = start \/ x ∈ seen) as Hx by (apply (ri_stack _ _ _ H); by left).
    assert (is_Some (mget x prev)) as [nexts Hn].
    { destruct Hx as [->|Hx]; [done|]. eapply path_known. by apply (ri_seen _ _ _ H). }
    rewrite Hn. destruct (fold_left _ nexts (seen, stack)) as [seen' stack'] eqn:Ef.
    apply push_spec in Ef as (H1 & H2 & H3 & H4); [|by apply (ri_sorted _ _ _ H)].
    assert (forall z, z ∈ nexts <-> edge prev x z) as Hedge.
    { intros z. unfold edge. rewrite Hn. naive_solver. }
    apply IH; [split; [done|..]|simpl in Hf; lia].
    + intros y [Hy|Hy]%H3; [by apply (ri_seen _ _ _ H)|]. apply Hedge in Hy.
      destruct Hx as [->|Hx]; [by apply t_step|]. apply t_trans with x; [by apply (ri_seen _ _ _ H)|by apply t_step].
    + intros y [Hy|[Hy _]]%H4; [|right; apply H3; by right].
      destruct (ri_stack _ _ _ H y) as [->|]; [by right|by left|right; apply H3; by left].
    + intros y Hy. destruct (decide (y = x)) as [->|Hne].
      { right. intros z Hz%Hedge. apply H3. by right. }
      assert (y ∈ stack' \/ (y = start \/ y ∈ seen)) as [|Hy']; [|by left|].
      { rewrite H4. rewrite H3 in Hy. destruct (decide (y ∈ seen)); tauto. }
      destruct (ri_done _ _ _ H y Hy') as [[->|Hs]%elem_of_cons|Hd]; [done|left; apply H4; by left|].
      right. intros z Hz%Hd. apply H3. by left.
Qed.

(** [reachable] returns the nodes a path leads to. *)
Lemma reachable_spec start :
  is_Some (mget start prev) ->
  exists s, reachable start prev = Some s /\ ssorted s /\ forall y, y ∈ s <-> path start y.
Proof.
  intros Hs. destruct (reach_spec (S (length prev)) start [] [start] Hs) as (s & Hr & H).
  { split; [constructor|set_solver..]. }
  { simpl. lia. }
  exists s. split_and!; [done|by apply (ri_sorted _ _ _ H)|]. intros y. split; [apply (ri_seen _ _ _ H)|].
  assert (forall x z, path x z -> x = start \/ x ∈ s -> z ∈ s) as Hcl; [|intros Hp; eapply Hcl; eauto].
  intros x z Hp. induction Hp as [x z He|x w z _ IH1 _ IH2]; intros Hx; [|auto].
  destruct (ri_done _ _ _ H x Hx) as [[]%not_elem_of_nil|Hd]. by apply Hd.
Qed.

(** ** The closure of the targets *)

(** What is left to push: the edges of the nodes outside the closure. *)
Definition pushes (E : Edges) (closure : list MigrationId) : nat :=
  sum_list_with (fun e => if smem e.1 closure then 0 else length e.2) E.

Lemma pushes_sins (E : Edges) x closure :
  msorted E -> x ∉ closure -> pushes E closure = length (default [] (mget x E)) + pushes E (sins x closure).
Proof.
  intros Hm Hx. unfold pushes. induction E as [|[y s] E IH]; [done|]. simpl.
  inversion Hm as [|? ? Hm' Hall]; subst. simpl in IH. 
  assert (smem y (sins x closure) = oeqb x y || smem y closure) as ->.
  { apply eq_true_iff_eq. rewrite orb_true_iff, oeqb_true, !smem_true, elem_sins. intuition congruence. }
  specialize (IH Hm').
  destruct (oeqb_spec x y) as [<-|Hne]; simpl.
  - apply smem_false in Hx. rewrite Hx. simpl.
    assert (mget x E = None) as HN; [|rewrite HN in IH; simpl in IH; lia].
    apply mget_None. intros Hin. rewrite Forall_forall in Hall. specialize (Hall x Hin). unfold olt in Hall.
    by rewrite cmp_refl in Hall.
  - lia.
Qed.

Record CInv (targets closure pending : list MigrationId) : Prop := {
  ci_sorted : ssorted closure;
  ci_closure : forall y, y ∈ closure -> exists t, t ∈ targets /\ walk t y;
  ci_pending : forall y, y ∈ pending -> exists t, t ∈ targets /\ walk t y;
  ci_targets : forall y, y ∈ targets -> y ∈ closure \/ y ∈ pending;
  ci_edges : forall y z, y ∈ closure -> edge prev y z -> z ∈ closure \/ z ∈ pending }.

Lemma closure_loop_spec fuel targets closure pending :
  (forall t, t ∈ targets -> is_Some (mget t prev)) -> CInv targets closure pending ->
  length pending + pushes prev closure <= fuel ->
  exists s, closure_loop fuel prev closure pending = Some (Ok s) /\ CInv targets s [].
Proof.
  intros Hk. revert closure pending. induction fuel as [|fuel IH]; intros closure pending H Hf.
  - destruct pending as [|x pending]; [by exists closure|simpl in Hf; lia].
  - destruct pending as [|x pending]; [by exists closure|]. cbn [closure_loop].
    destruct (ci_pending _ _ _ H x) as (t & Hin & Hw); [by left|].
    destruct (walk_known t x (Hk t Hin) Hw) as [direct Hd]. rewrite Hd.
    destruct (smem x closure) eqn:Ex.
    + apply smem_true in Ex. apply IH; [|simpl in Hf; lia].
      destruct H as [H1 H2 H3 H4 H5]. split; [done..| | |].
      * intros y Hy. apply H3. by right.
      * intros y Hy. destruct (H4 y Hy) as [|[->|]%elem_of_cons]; auto.
      * intros y z Hy Hz. destruct (H5 y z Hy Hz) as [|[->|]%elem_of_cons]; auto.
    + apply smem_false in Ex. apply IH.
      2:{ rewrite (pushes_sins prev x closure (tr_prev _ _ Ht) Ex), Hd in Hf. simpl in Hf.
          rewrite length_app, length_rev. lia. }
      assert (forall z, z ∈ rev direct <-> edge prev x z) as Hedge.
      { intros z. rewrite list_elem_of_In, <- in_rev, <- list_elem_of_In. unfold edge. rewrite Hd. naive_solver. }
      destruct H as [H1 H2 H3 H4 H5]. split; [by apply sins_sorted|..].
      * intros y [->|Hy]%elem_sins; eauto.
      * intros y [Hy|Hy]%elem_of_app; [|apply H3; by right]. exists t. split; [done|].
        apply rt_trans with x; [done|]. by apply rt_step, Hedge.
      * intros y Hy. rewrite elem_sins, elem_of_app. destruct (H4 y Hy) as [|[->|]%elem_of_cons]; auto.
      * intros y z Hy Hz. rewrite elem_sins, elem_of_app, Hedge. apply elem_sins in Hy as [->|Hy]; [auto|].
        destruct (H5 y z Hy Hz) as [|[->|]%elem_of_cons]; auto.
Qed.

Lemma pushes_nil (E : Edges) : pushes E [] = sum_list_with length (mvals E).
Proof. unfold pushes. induction E as [|[y s] E IH]; simpl in *; [done|]. by rewrite IH. Qed.

Lemma closure_fuel_spec targets :
  (forall t, t ∈ targets -> is_Some (mget t prev)) ->
  exists s, closure_loop (closure_fuel prev targets) prev [] (rev targets) = Some (Ok s) /\ ssorted s /\
  forall y, y ∈ s <-> exists t, t ∈ targets /\ walk t y.
Proof.
  intros Hk. assert (forall y, y ∈ rev targets <-> y ∈ targets) as Hrev.
  { intros y. by rewrite !list_elem_of_In, <- in_rev. }
  destruct (closure_loop_spec (closure_fuel prev targets) targets [] (rev targets) Hk) as (s & Hr & H).
  { split; [constructor|set_solver| | |set_solver].
    - intros y Hy%Hrev. exists y. split; [done|apply rt_refl].
    - intros y Hy%Hrev. by right. }
  { unfold closure_fuel. rewrite length_rev, pushes_nil. lia. }
  exists s. split_and!; [done|by apply (ci_sorted _ _ _ H)|]. intros y. split; [apply (ci_closure _ _ _ H)|].
  intros (t & Hin & Hw). assert (t ∈ s) as Hts by (by destruct (ci_targets _ _ _ H t Hin) as [|[]%not_elem_of_nil]).
  clear Hin. induction Hw as [x z He|x|x w z _ IH1 _ IH2]; [|done|auto].
  by destruct (ci_edges _ _ _ H x z Hts He) as [|[]%not_elem_of_nil].
Qed.

(** An unknown target is refused, whatever the rest of the search meets. *)
Lemma closure_loop_unknown fuel closure pending :
  (exists t, t ∈ pending /\ mget t prev = None) ->
  length pending + pushes prev closure <= fuel ->
  closure_loop fuel prev closure pending = Some (Err (graph_failure "migration_history_unknown_apply_target")).
Proof.
  revert closure pending. induction fuel as [|fuel IH]; intros closure pending (t & Hin & Hn) Hf.
  - destruct pending; [by apply not_elem_of_nil in Hin|simpl in Hf; lia].
  - destruct pending as [|x pending]; [by apply not_elem_of_nil in Hin|]. cbn [closure_loop].
    destruct (mget x prev) as [direct|] eqn:Ex; [|done].
    assert (t ∈ pending) as Hin' by (by apply elem_of_cons in Hin as [->|]; [congruence|]).
    destruct (smem x closure) eqn:Em.
    + apply IH; [eauto|simpl in Hf; lia].
    + apply smem_false in Em. rewrite (pushes_sins prev x closure (tr_prev _ _ Ht) Em), Ex in Hf. simpl in Hf.
      apply IH; [exists t; split; [apply elem_of_app; by right|done]|rewrite length_app, length_rev; lia].
Qed.

End search.

End HistoryReach.
