(* ===== verification/HistoryPlans.v ===== *)
(** * Apply and rollback plans (schema-migration/src/history.rs)

    Over a validated graph, a plan to apply contains exactly the missing
    ancestors of its targets, a plan to roll back exactly the removals, and every
    prefix of either leaves an applied set the graph accepts. Applying and rolling
    back are inverse, and the default plan leaves nothing unapplied. *)

From S2P Require Import Prelude BTree Fingerprint SchemaDelta Safety Migration Manifest History HistoryOrder HistoryReach.
From Stdlib Require Import Relation_Operators Operators_Properties Sorted.
Import Fingerprint SchemaDelta Safety Migration Manifest History HistoryOrder HistoryReach.
#[local] Open Scope nat_scope.

Module HistoryPlans.

(** The shape [from_verified] gives a graph. *)
Record valid_graph (g : MigrationHistoryGraph) : Prop := {
  vg_transposed : transposed (graph_parents g) (graph_children g);
  vg_manifests : forall x, is_Some (mget x (manifests g)) <-> is_Some (mget x (graph_parents g));
  vg_acyclic : forall x, ~ clos_trans MigrationId (edge (graph_parents g)) x x;
  vg_heads : forall x, x ∈ heads g <-> mget x (graph_children g) = Some [];
  vg_heads_sorted : ssorted (heads g) }.

(** [y] is [x] or an ancestor of it. *)
Definition ancestor (g : MigrationHistoryGraph) : MigrationId -> MigrationId -> Prop :=
  clos_refl_trans MigrationId (edge (graph_parents g)).

Definition closed (g : MigrationHistoryGraph) (applied : list MigrationId) : Prop :=
  (forall x, x ∈ applied -> is_Some (mget x (graph_parents g))) /\
  (forall x p, x ∈ applied -> edge (graph_parents g) x p -> p ∈ applied).

Lemma closed_ext g a b : (forall x, x ∈ a <-> x ∈ b) -> closed g a -> closed g b.
Proof. intros H [H1 H2]. split; [intros x Hx%H; auto|]. intros x p Hx%H He. apply H. eauto. Qed.

Lemma closed_ancestor g applied x y : closed g applied -> ancestor g x y -> x ∈ applied -> y ∈ applied.
Proof. intros [_ H]. induction 1; eauto. Qed.

Lemma validate_each_iff g applied l :
  validate_each g applied l = Ok tt <->
  (forall x, x ∈ l -> is_Some (mget x (graph_parents g))) /\
  (forall x p, x ∈ l -> edge (graph_parents g) x p -> p ∈ applied).
Proof.
  induction l as [|x l IH]; cbn [validate_each]; [set_solver|].
  unfold edge in *. destruct (mget x (graph_parents g)) as [direct|] eqn:Ex; simpl.
  2:{ split; [done|]. intros [H _]. destruct (H x) as [? ?]; [by left|congruence]. }
  destruct (existsb _ direct) eqn:Ee.
  - split; [done|]. intros [_ H]. apply existsb_exists in Ee as (p & Hp & Hn%negb_true_iff%smem_false).
    destruct Hn. apply (H x p); [by left|]. exists direct. split; [done|by apply list_elem_of_In].
  - rewrite IH. assert (forall p, p ∈ direct -> p ∈ applied) as Hd.
    { intros p Hp. destruct (smem p applied) eqn:Em; [by apply smem_true|]. exfalso.
      assert (existsb (fun q => negb (smem q applied)) direct = true) as Hbad; [|congruence].
      apply existsb_exists. exists p. split; [by apply list_elem_of_In|]. by rewrite Em. }
    split.
    + intros [H1 H2]. split; [intros y [->|Hy]%elem_of_cons; eauto|].
      intros y p [->|Hy]%elem_of_cons He; [|eauto]. destruct He as (s & Hs & Hp). rewrite Ex in Hs.
      injection Hs as <-. auto.
    + intros [H1 H2]. split; [intros y Hy; apply H1; by right|intros y p Hy; apply H2; by right].
Qed.

Lemma validate_applied_iff g applied : validate_applied g applied = Ok tt <-> closed g applied.
Proof. apply validate_each_iff. Qed.

Lemma validate_applied_cases g applied :
  (validate_applied g applied = Ok tt /\ closed g applied) \/ (exists e, validate_applied g applied = Err e).
Proof.
  destruct (validate_applied g applied) as [[]|e] eqn:E; [left|right; eauto]. by rewrite <- validate_applied_iff.
Qed.

Lemma within_path E S x y :
  clos_trans MigrationId (within E S) x y -> clos_trans MigrationId (edge E) x y.
Proof. induction 1 as [? ? (He & _)|]; [by apply t_step|eapply t_trans; eassumption]. Qed.

Section plans.
Context (g : MigrationHistoryGraph) (Hg : valid_graph g).

Lemma graph_subset_acyclic S : acyclic (graph_parents g) S.
Proof.
  intros x Hc. by apply (vg_acyclic _ Hg x), (within_path _ S).
Qed.

Lemma rev_path x y :
  clos_trans MigrationId (edge (graph_children g)) x y -> clos_trans MigrationId (edge (graph_parents g)) y x.
Proof.
  induction 1 as [x y He|]; [|eapply t_trans; eassumption]. apply t_step. by apply (tr_edges _ _ (vg_transposed _ Hg)).
Qed.

Lemma graph_children_acyclic S : acyclic (graph_children g) S.
Proof.
  intros x Hc. by apply (vg_acyclic _ Hg x), rev_path, (within_path _ S).
Qed.

Lemma order_result_ok E S r : order_result E S r -> acyclic E S -> exists order, r = Ok order /\ ordered E S order.
Proof.
  intros [H1 H2] Ha. destruct r as [order|e]; [exists order; split; [done|by apply H1]|].
  by destruct (proj1 (H2 e) eq_refl) as [_ []].
Qed.

(** A prefix of an apply order keeps the applied set closed. *)
Lemma apply_prefix_closed (applied targets required order pre post : list MigrationId) :
  closed g applied -> (forall t, t ∈ targets -> is_Some (mget t (graph_parents g))) ->
  (forall x, x ∈ required <-> x ∉ applied /\ exists t, t ∈ targets /\ ancestor g t x) ->
  ordered (graph_parents g) required order -> order = pre ++ post -> closed g (sunion applied pre).
Proof.
  intros [H1 H2] Hk Hr [Hp He] ->.
  assert (forall x, x ∈ pre -> x ∈ required) as Hpre.
  { intros x Hx. rewrite <- Hp. apply elem_of_app. by left. }
  split.
  - intros x [Hx|Hx]%elem_sunion; [auto|]. apply Hpre, Hr in Hx as (_ & t & Ht & Hw).
    eapply walk_known; eauto. by apply (vg_transposed _ Hg).
  - intros x p [Hx|Hx]%elem_sunion Hxp; apply elem_sunion; [left; eauto|].
    destruct (decide (p ∈ applied)) as [|Hn]; [by left|right].
    pose proof Hx as (_ & t & Ht & Hw)%Hpre%Hr.
    assert (p ∈ required) as Hreq.
    { apply Hr. split; [done|]. exists t. split; [done|]. eapply rt_trans; [done|by apply rt_step]. }
    apply list_elem_of_split in Hx as (a & b & ->).
    destruct (He a x (b ++ post)) as (_ & _ & Hu & _); [by rewrite <- app_assoc|].
    apply elem_of_app. left. by apply Hu.
Qed.

Lemma plan_apply_spec (applied targets : list MigrationId) :
  closed g applied -> (forall t, t ∈ targets -> is_Some (mget t (graph_parents g))) ->
  exists required order, plan_apply g applied targets = Some (Ok order) /\ ssorted required /\
  ordered (graph_parents g) required order /\
  (forall x, x ∈ required <-> x ∉ applied /\ exists t, t ∈ targets /\ ancestor g t x).
Proof.
  intros Hc Hk. pose proof (vg_transposed _ Hg) as Ht. unfold plan_apply.
  rewrite (proj2 (validate_applied_iff g applied) Hc).
  destruct (closure_fuel_spec _ _ Ht targets Hk) as (s & -> & Hs & Hin).
  assert (forall x, x ∈ sdiff s applied <-> x ∉ applied /\ exists t, t ∈ targets /\ ancestor g t x) as Hreq.
  { intros x. rewrite elem_sdiff, Hin. tauto. }
  destruct (order_apply_subset_spec (sdiff s applied) applied _ _ Ht) as (r & -> & Hr).
  { by apply sdiff_sorted. }
  { intros x (_ & t & Htin & Hw)%Hreq. eapply walk_known; eauto. }
  { by intros x [_ ?]%elem_sdiff. }
  destruct (order_result_ok _ _ _ Hr (graph_subset_acyclic _)) as (order & -> & Ho).
  exists (sdiff s applied), order. split_and!; [done|by apply sdiff_sorted|done..].
Qed.

Lemma plan_apply_invert applied targets order :
  plan_apply g applied targets = Some (Ok order) ->
  closed g applied /\ forall t, t ∈ targets -> is_Some (mget t (graph_parents g)).
Proof.
  unfold plan_apply. destruct (validate_applied_cases g applied) as [[-> Hc]|[e ->]]; [|done]. intros H.
  split; [done|]. intros t Hin. destruct (mget t (graph_parents g)) as [|] eqn:Et; [eauto|]. exfalso.
  rewrite (closure_loop_unknown _ _ (vg_transposed _ Hg)) in H; [done| |].
  - exists t. split; [|done]. by rewrite list_elem_of_In, <- in_rev, <- list_elem_of_In.
  - unfold closure_fuel. rewrite length_rev, pushes_nil. lia.
Qed.

(** ** Rollback *)

Definition removable (applied removals : list MigrationId) : Prop :=
  forall x, x ∈ removals -> x ∈ applied /\ forall c, edge (graph_children g) x c -> c ∈ applied -> c ∈ removals.

Definition removal_failure (applied removals : list MigrationId) (e : Diagnostic) : Prop :=
  exists x, x ∈ removals /\
  ((mget x (manifests g) = None /\ e = graph_failure "migration_history_unknown_rollback_target") \/
   (x ∉ applied /\ e = graph_failure "migration_history_rollback_not_applied") \/
   (exists c, edge (graph_children g) x c /\ c ∈ applied /\ c ∉ removals /\
     e = graph_failure "migration_history_remaining_applied_descendant")).

Lemma check_removals_spec applied removals l :
  closed g applied -> (forall x, x ∈ l -> x ∈ removals) ->
  (check_removals g applied removals l = Some (Ok tt) /\
   forall x, x ∈ l -> x ∈ applied /\ forall c, edge (graph_children g) x c -> c ∈ applied -> c ∈ removals) \/
  (exists e, check_removals g applied removals l = Some (Err e) /\ removal_failure applied removals e).
Proof.
  intros Hc. induction l as [|x l IH]; intros Hl; cbn [check_removals]; [left; split; [done|set_solver]|].
  assert (x ∈ removals) as Hx by (apply Hl; by left).
  destruct (mmem x (manifests g)) eqn:Em; cbn [negb].
  2:{ right. eexists. split; [done|]. exists x. split; [done|]. left. split; [by apply mmem_false|done]. }
  destruct (smem x applied) eqn:Ea; cbn [negb].
  2:{ right. eexists. split; [done|]. exists x. split; [done|]. right. left. split; [by apply smem_false|done]. }
  apply smem_true in Ea. destruct (proj1 (tr_keys _ _ (vg_transposed _ Hg) x) (proj1 Hc x Ea)) as [cs Hcs].
  rewrite Hcs. destruct (existsb _ cs) eqn:Ee.
  - right. eexists. split; [done|]. exists x. split; [done|]. right. right.
    apply existsb_exists in Ee as (c & Hin & [Hca Hcr]%andb_true_iff). exists c.
    split_and!; [|by apply smem_true|by apply smem_false, negb_true_iff|done]. exists cs.
    split; [done|by apply list_elem_of_In].
  - destruct IH as [[-> H]|H]; [intros y Hy; apply Hl; by right| |by right].
    left. split; [done|]. intros y [->|Hy]%elem_of_cons; [|auto]. split; [done|].
    intros c (cs' & Hcs' & Hin) Hca. rewrite Hcs in Hcs'. injection Hcs' as <-.
    destruct (smem c removals) eqn:Er; [by apply smem_true|]. exfalso.
    assert (existsb (fun child => smem child applied && negb (smem child removals)) cs = true) as Hbad; [|congruence].
    apply existsb_exists. exists c. split; [by apply list_elem_of_In|]. rewrite Er. apply smem_true in Hca. by rewrite Hca.
Qed.

Lemma removable_no_failure applied removals e :
  closed g applied -> removable applied removals -> ~ removal_failure applied removals e.
Proof.
  intros [Hk _] Hr (x & Hx & [[Hn _]|[[Hn _]|(c & He & Hc & Hn & _)]]); destruct (Hr x Hx) as [Ha Hch].
  - apply Hk, (vg_manifests _ Hg) in Ha as [? ?]. congruence.
  - done.
  - by apply Hn, Hch.
Qed.

Lemma rollback_prefix_closed (applied removals order pre post : list MigrationId) :
  closed g applied -> removable applied removals ->
  ordered (graph_children g) removals order -> order = pre ++ post -> closed g (sdiff applied pre).
Proof.
  intros [H1 H2] Hr [Hp He] ->. split.
  - intros x [Hx _]%elem_sdiff. auto.
  - intros x p [Hx Hn]%elem_sdiff Hxp. apply elem_sdiff. split; [by eapply H2|]. intros Hpp. apply Hn.
    assert (p ∈ removals) as Hprem by (rewrite <- Hp; apply elem_of_app; by left).
    apply (tr_edges _ _ (vg_transposed _ Hg)) in Hxp.
    assert (x ∈ removals) as Hxrem by (by apply (Hr p Hprem)).
    apply list_elem_of_split in Hpp as (a & b & ->).
    destruct (He a p (b ++ post)) as (_ & _ & Hu & _); [by rewrite <- app_assoc|].
    apply elem_of_app. left. by apply Hu.
Qed.

Lemma plan_rollback_spec applied removals :
  closed g applied -> removable applied removals -> ssorted removals ->
  exists order, plan_rollback g applied removals = Some (Ok order) /\ ordered (graph_children g) removals order.
Proof.
  intros Hc Hr Hs. unfold plan_rollback. rewrite (proj2 (validate_applied_iff g applied) Hc).
  destruct (check_removals_spec applied removals removals Hc) as [[-> _]|(e & _ & He)]; [done| |].
  2:{ by destruct (removable_no_failure applied removals e Hc Hr). }
  destruct (order_rollback_subset_spec removals _ _ (vg_transposed _ Hg) Hs) as (r & -> & Hres).
  { intros x Hx. apply Hc. by apply Hr. }
  destruct (order_result_ok _ _ _ Hres (graph_children_acyclic _)) as (order & -> & Ho). by exists order.
Qed.

Lemma plan_rollback_invert applied removals order :
  plan_rollback g applied removals = Some (Ok order) -> closed g applied /\ removable applied removals.
Proof.
  unfold plan_rollback. destruct (validate_applied_cases g applied) as [[-> Hc]|[e ->]]; [|done].
  destruct (check_removals_spec applied removals removals Hc) as [[_ H]|(e & -> & _)]; done.
Qed.

(** ** Round trips *)

Lemma apply_then_rollback (applied targets order : list MigrationId) :
  ssorted applied -> plan_apply g applied targets = Some (Ok order) ->
  exists back, plan_rollback g (sunion applied order) (sof order) = Some (Ok back) /\
  back ≡ₚ order /\ sdiff (sunion applied order) back = applied.
Proof.
  intros Hsa H.
  destruct (plan_apply_invert _ _ _ H) as [Hc Hk].
  destruct (plan_apply_spec applied targets Hc Hk) as (req & order' & E & Hs & Ho & Hreq).
  rewrite H in E. injection E as <-. pose proof Ho as [Hp _].
  assert (closed g (sunion applied order)) as Hc'.
  { eapply (apply_prefix_closed applied targets req order order []); try done. by rewrite app_nil_r. }
  destruct (plan_rollback_spec (sunion applied order) (sof order) Hc') as (back & -> & Hbp & _).
  { intros x Hx. rewrite elem_sof in Hx. split; [by apply elem_sunion; right|]. intros c Hxc Hcin.
    rewrite elem_sof. apply elem_sunion in Hcin as [Hca|]; [|done]. exfalso.
    rewrite Hp, Hreq in Hx. destruct Hx as [Hx _]. apply Hx. eapply (proj2 Hc c x); [done|].
    by apply (tr_edges _ _ (vg_transposed _ Hg)). }
  { apply sof_sorted. }
  assert (forall x, x ∈ back <-> x ∈ order) as Hbo by (intros x; by rewrite Hbp, elem_sof).
  exists back. split_and!; [done| |].
  + rewrite Hbp. apply NoDup_Permutation; [by apply ssorted_NoDup, sof_sorted|rewrite Hp; by apply ssorted_NoDup|].
    intros x. apply elem_sof.
  + apply ssorted_ext; [by apply sdiff_sorted, sunion_sorted|done|]. intros x.
    rewrite elem_sdiff, elem_sunion, Hbo, Hp, Hreq. destruct (decide (x ∈ applied)); tauto.
Qed.

Lemma rollback_then_apply (applied targets order : list MigrationId) :
  ssorted applied -> ssorted targets -> plan_rollback g applied targets = Some (Ok order) ->
  exists again, plan_apply g (sdiff applied order) targets = Some (Ok again) /\
  again ≡ₚ order /\ sunion (sdiff applied order) again = applied.
Proof.
  intros Hsa Hst H.
  destruct (plan_rollback_invert _ _ _ H) as [Hc Hr].
  destruct (plan_rollback_spec applied targets Hc Hr Hst) as (order' & E & Ho).
  rewrite H in E. injection E as <-. pose proof Ho as [Hp _].
  assert (closed g (sdiff applied order)) as Hc'.
  { eapply (rollback_prefix_closed applied targets order order []); try done. by rewrite app_nil_r. }
  destruct (plan_apply_spec (sdiff applied order) targets Hc') as (req & again & -> & Hs & [Hap _] & Hreq).
  { intros t Ht. apply Hc. by apply Hr. }
  assert (forall x, x ∈ req <-> x ∈ targets) as Hrt.
  { intros x. rewrite Hreq, elem_sdiff, Hp. split.
    - intros (Hn & t & Ht & Hw). assert (x ∈ applied) as Hx; [|by destruct (decide (x ∈ targets)); [|destruct Hn]].
      eapply closed_ancestor; [done|done|]. by apply Hr.
    - intros Hx. split; [tauto|]. exists x. split; [done|apply rt_refl]. }
  exists again. split_and!; [done| |].
  + rewrite Hap, Hp. apply NoDup_Permutation; [by apply ssorted_NoDup..|done].
  + apply ssorted_ext; [by apply sunion_sorted, sdiff_sorted|done|]. intros x.
    rewrite elem_sunion, elem_sdiff, Hap, Hrt, Hp. split; [intros [[? _]|Ht]; [done|by apply Hr]|].
    destruct (decide (x ∈ targets)); tauto.
Qed.

(** ** The default plan *)

Lemma reaches_head x : is_Some (mget x (graph_parents g)) -> exists h, h ∈ heads g /\ ancestor g h x.
Proof.
  intros Hx. pose proof (vg_transposed _ Hg) as Ht. pose proof (transposed_flip _ _ Ht) as Ht'.
  apply (tr_keys _ _ Ht) in Hx. destruct (reachable_spec _ _ Ht' x Hx) as (desc & _ & _ & Hd).
  assert (forall y, y ∈ x :: desc -> is_Some (mget y (graph_children g))) as Hk.
  { intros y [->|Hy]%elem_of_cons; [done|]. eapply path_known; [done|]. by apply Hd. }
  destruct (decide (Exists (fun y => mget y (graph_children g) = Some []) (x :: desc))) as [He|He].
  - apply Exists_exists in He as (h & Hin & Hh). exists h. split; [by apply (vg_heads _ Hg)|].
    apply elem_of_cons in Hin as [->|Hin]; [apply rt_refl|]. by apply clos_t_clos_rt, rev_path, Hd.
  - exfalso. destruct (blocked_cycle (edge (graph_children g)) (x :: desc)) as (z & _ & Hz); [|done|].
    + intros y Hy. destruct (Hk y Hy) as [[|z s] Hs].
      { destruct He. apply Exists_exists. by exists y. }
      assert (edge (graph_children g) y z) as Hyz by (exists (z :: s); split; [done|by left]).
      exists z. split; [|done]. right. apply Hd. apply elem_of_cons in Hy as [->|Hy]; [by apply t_step|].
      apply t_trans with y; [by apply Hd|by apply t_step].
    + by apply (vg_acyclic _ Hg z), rev_path.
Qed.

Lemma default_plan_spec applied :
  length (heads g) <= 1 -> closed g applied ->
  exists order, plan_apply_to_default_head g applied = Some (Ok order) /\
  (forall x, is_Some (mget x (graph_parents g)) -> x ∈ sunion applied order) /\
  plan_apply_to_default_head g (sunion applied order) = Some (Ok []).
Proof.
  intros Hh Hc. pose proof reaches_head as Hr. pose proof (vg_heads _ Hg) as Hvh.
  unfold plan_apply_to_default_head, default_head.
  destruct (heads g) as [|h [|? ?]]; [| |simpl in Hh; lia].
  - exists []. cbn [sunion fold_left]. rewrite (proj2 (validate_applied_iff g applied) Hc). split_and!; [done| |done].
    intros x (h & []%not_elem_of_nil & _)%Hr.
  - assert (is_Some (mget h (graph_parents g))) as Hk.
    { apply (tr_keys _ _ (vg_transposed _ Hg)). exists []. apply Hvh. by left. }
    assert (forall t, t ∈ [h] -> is_Some (mget t (graph_parents g))) as Hk' by (by intros t ->%list_elem_of_singleton).
    destruct (plan_apply_spec applied [h] Hc Hk') as (req & order & -> & Hs & Ho & Hreq).
    assert (closed g (sunion applied order)) as Hc'.
    { eapply (apply_prefix_closed applied [h] req order order []); try done. by rewrite app_nil_r. }
    assert (forall x, is_Some (mget x (graph_parents g)) -> x ∈ sunion applied order) as Hall.
    { intros x (h' & ->%list_elem_of_singleton & Hw)%Hr. apply elem_sunion. rewrite (proj1 Ho), Hreq.
      destruct (decide (x ∈ applied)); [by left|right]. split; [done|]. exists h. split; [by left|done]. }
    destruct (plan_apply_spec (sunion applied order) [h] Hc' Hk') as (req' & again & E & _ & [Hp _] & Hreq').
    exists order. split_and!; [done..|]. rewrite E. do 2 f_equal. clear E. destruct again as [|x again]; [done|]. exfalso.
    assert (x ∈ req') as (Hn & t & Htin & Hw)%Hreq' by (rewrite <- Hp; by left). apply Hn, Hall.
    eapply walk_known; [by apply (vg_transposed _ Hg)| |done]. by apply Hk'.
Qed.

End plans.

End HistoryPlans.
