(* ===== verification/HistoryGraph.v ===== *)
(** * The validated history graph (schema-migration/src/history.rs)

    [from_verified] accepts exactly the well-formed histories, without panicking,
    and the graph it returns has the edges its manifests declare. The theorems on
    the plans of such a graph close the file. *)

From S2P Require Import Prelude BTree Text Ident Fingerprint Schema SchemaDelta Delta Safety Migration Manifest.
From S2P Require Import History HistoryOrder HistoryReach HistoryPlans.
From Stdlib Require Import Relation_Operators Operators_Properties Sorted.
Import Ident Fingerprint Schema SchemaDelta Safety Migration Manifest History HistoryOrder HistoryReach HistoryPlans.
#[local] Open Scope nat_scope.

Module HistoryGraph.

#[local] Abbreviation Mf := VerifiedSchemaMigrationManifest.

(** [p] is a declared parent of the manifest [x]. *)
Definition declared (l : list Mf) (x p : MigrationId) : Prop :=
  exists m, m ∈ l /\ manifest_id m = x /\ p ∈ parents m.

(** The profiles of a manifest [m] continue those of its parent [q]. *)
Definition profile_step (m q : Mf) : Prop :=
  match profile_bridge m with
  | Some bridge => manifest_profile q = from_semantic_profile bridge /\
      lowering_profile q = from_lowering_profile bridge /\ manifest_target q = manifest_source m
  | None => manifest_profile q = manifest_profile m /\ lowering_profile q = lowering_profile m
  end.

Record history_ok (l : list Mf) : Prop := {
  ho_ids : NoDup (map manifest_id l);
  ho_legacy : forall b m, b ∈ l -> m ∈ l -> is_legacy_bridge b = true ->
    is_legacy_bridge m = true \/ parents m = [] -> m = b;
  ho_parents : forall x p, declared l x p -> exists q, q ∈ l /\ manifest_id q = p;
  ho_acyclic : forall x, ~ clos_trans MigrationId (declared l) x x;
  ho_profile : forall b m, b ∈ l -> m ∈ l -> is_profile_bridge b = true -> is_profile_bridge m = true -> m = b;
  ho_lineage : forall m q, m ∈ l -> q ∈ l -> manifest_id q ∈ parents m -> profile_step m q;
  ho_bridged : forall b m, b ∈ l -> m ∈ l -> is_profile_bridge b = true ->
    clos_refl_trans MigrationId (declared l) (manifest_id b) (manifest_id m) \/
    clos_refl_trans MigrationId (declared l) (manifest_id m) (manifest_id b) }.

(** ** Indexing by identity *)

Definition indexed (l : list Mf) (by_id : Manifests) : Prop :=
  msorted by_id /\ forall x m, mget x by_id = Some m <-> m ∈ l /\ manifest_id m = x.

Lemma collect_manifests_spec l by_id :
  msorted by_id ->
  (exists r, collect_manifests by_id l = Ok r /\ msorted r /\ NoDup (map manifest_id l) /\
     (forall m, m ∈ l -> mget (manifest_id m) by_id = None) /\
     forall x m, mget x r = Some m <-> mget x by_id = Some m \/ (m ∈ l /\ manifest_id m = x)) \/
  (collect_manifests by_id l = Err (graph_failure "migration_history_duplicate_id") /\
     ~ (NoDup (map manifest_id l) /\ forall m, m ∈ l -> mget (manifest_id m) by_id = None)).
Proof.
  revert by_id. induction l as [|m l IH]; intros by_id Hs; cbn [collect_manifests].
  { left. exists by_id. split_and!; [done..|constructor|set_solver|set_solver]. }
  destruct (mmem (manifest_id m) by_id) eqn:Em.
  { right. split; [done|]. intros [_ H]. apply mmem_true, mget_elem in Em as [? E].
    rewrite H in E; [done|by left]. }
  apply mmem_false in Em.
  assert (forall y, mget y (mins (manifest_id m) m by_id) = None <-> y <> manifest_id m /\ mget y by_id = None) as Hn.
  { intros y. rewrite mget_mins. destruct (oeqb_spec (manifest_id m) y) as [<-|Hne]; [split; [done|tauto]|]. intuition. }
  destruct (IH (mins (manifest_id m) m by_id)) as [(r & Hc & Hr & Hnd & Hd & Hg)|[Hc Hbad]]; [by apply mins_sorted| |].
  - left. exists r. split_and!; [done..| | |].
    + cbn [map]. apply NoDup_cons. split; [|done]. intros (m' & Hid & Hin%list_elem_of_In)%list_elem_of_In%in_map_iff.
      apply Hd, Hn in Hin as [Hne _]. congruence.
    + intros m' [->|Hin]%elem_of_cons; [done|]. by apply Hn, Hd.
    + intros x m'. rewrite Hg, mget_mins, elem_of_cons. destruct (oeqb_spec (manifest_id m) x) as [<-|Hne].
      * rewrite Em. split; [intros [[= <-]|[? ?]]; auto|]. intros [?|[[->|?] ?]]; [done|by left|by right].
      * naive_solver.
  - right. split; [done|]. intros [Hnd H]. cbn [map] in Hnd. apply NoDup_cons in Hnd as [Hnin Hnd]. apply Hbad.
    split; [done|]. intros m' Hin. apply Hn. split; [|apply H; by right]. intros Heq. apply Hnin.
    apply list_elem_of_In, in_map_iff. exists m'. split; [done|by apply list_elem_of_In].
Qed.

Section indexed_facts.
Context (l : list Mf) (by_id : Manifests) (Hi : indexed l by_id).

Lemma elem_indexed m : m ∈ mvals by_id <-> m ∈ l.
Proof.
  destruct Hi as [Hs Hg]. unfold mvals. split.
  - intros ([x m'] & <- & Hin%list_elem_of_In)%list_elem_of_In%in_map_iff. apply elem_mget, Hg in Hin; [tauto|done].
  - intros Hin. apply list_elem_of_In, in_map_iff. exists (manifest_id m, m). split; [done|].
    by apply list_elem_of_In, elem_mget, Hg.
Qed.

Lemma indexed_entry x m : (x, m) ∈ by_id <-> m ∈ l /\ manifest_id m = x.
Proof. destruct Hi as [Hs Hg]. rewrite <- Hg. by apply elem_mget. Qed.

Lemma indexed_inj m m' : m ∈ l -> m' ∈ l -> manifest_id m = manifest_id m' -> m = m'.
Proof.
  destruct Hi as [_ Hg]. intros H H' Heq.
  assert (mget (manifest_id m) by_id = Some m) as E by (by apply Hg).
  assert (mget (manifest_id m) by_id = Some m') as E' by (by apply Hg). congruence.
Qed.

Lemma mvals_NoDup : NoDup (mvals by_id).
Proof.
  assert (mkeys by_id = map manifest_id (mvals by_id)) as Hk.
  { unfold mkeys, mvals. rewrite map_map. apply map_ext_in. intros [x m] Hin%list_elem_of_In. simpl.
    by apply indexed_entry in Hin as [_ ->]. }
  apply (NoDup_fmap_1 manifest_id). change (manifest_id <$> mvals by_id) with (map manifest_id (mvals by_id)).
  rewrite <- Hk. apply ssorted_NoDup. apply Hi.
Qed.

(** At most one manifest has a property. *)
Lemma filter_unique (f : Mf -> bool) :
  (length (List.filter f (mvals by_id)) <= 1) <->
  (forall m m', m ∈ l -> m' ∈ l -> f m = true -> f m' = true -> m' = m).
Proof.
  assert (forall m, m ∈ List.filter f (mvals by_id) <-> m ∈ l /\ f m = true) as Hin.
  { intros m. rewrite list_elem_of_In, filter_In, <- list_elem_of_In, elem_indexed. done. }
  assert (NoDup (List.filter f (mvals by_id))) as Hnd.
  { apply NoDup_ListNoDup, List.NoDup_filter, NoDup_ListNoDup, mvals_NoDup. }
  split.
  - intros Hl m m' H1 H2 H3 H4.
    assert (m ∈ List.filter f (mvals by_id)) as Hm by (by apply Hin).
    assert (m' ∈ List.filter f (mvals by_id)) as Hm' by (by apply Hin).
    destruct (List.filter f (mvals by_id)) as [|a [|b r]]; [set_solver|set_solver|simpl in Hl; lia].
  - intros H. destruct (List.filter f (mvals by_id)) as [|a [|b r]]; [simpl; lia..|]. exfalso.
    destruct (proj1 (Hin a)) as [Ha1 Ha2]; [by left|]. destruct (proj1 (Hin b)) as [Hb1 Hb2]; [right; by left|].
    apply NoDup_cons in Hnd as [Hnd _]. apply Hnd. rewrite (H a b) by done. by left.
Qed.

Lemma check_legacy_bridges_iff :
  check_legacy_bridges by_id = Ok tt <->
  forall b m, b ∈ l -> m ∈ l -> is_legacy_bridge b = true -> is_legacy_bridge m = true \/ parents m = [] -> m = b.
Proof.
  unfold check_legacy_bridges. rewrite length_map.
  assert (forall m, m ∈ List.filter is_legacy_bridge (mvals by_id) <-> m ∈ l /\ is_legacy_bridge m = true) as Hin.
  { intros m. rewrite list_elem_of_In, filter_In, <- list_elem_of_In, elem_indexed. done. }
  pose proof (filter_unique is_legacy_bridge) as Hu.
  destruct (Nat.ltb_spec 1 (length (List.filter is_legacy_bridge (mvals by_id)))) as [Hlt|Hle].
  { split; [done|]. intros H. assert (length (List.filter is_legacy_bridge (mvals by_id)) <= 1); [|lia].
    apply Hu. eauto. }
  specialize (proj1 Hu Hle) as Huniq. clear Hu Hle.
  destruct (List.filter is_legacy_bridge (mvals by_id)) as [|b0 r]; cbn [map].
  { split; [|done]. intros _ b m Hb _ Hlb _. assert (b ∈ []) as []%not_elem_of_nil. by apply Hin. }
  destruct (proj1 (Hin b0)) as [Hb0 Hl0]; [by left|].
  destruct (existsb _ by_id) eqn:Ee.
  - split; [done|]. intros H. apply existsb_exists in Ee as ([x m] & Hx & [Hp Hne]%andb_true_iff). exfalso.
    apply list_elem_of_In, indexed_entry in Hx as [Hm <-]. cbn [fst snd] in *.
    apply negb_true_iff, oeqb_false in Hne. apply bool_decide_eq_true in Hp. apply nil_length_inv in Hp.
    apply Hne. f_equal. apply H; auto.
  - split; [|done]. intros _ b m Hb Hm Hlb [Hlm|Hp]; [by apply Huniq|].
    assert (b = b0) as -> by (by apply Huniq). apply indexed_inj; [done..|].
    destruct (oeqb_spec (manifest_id m) (manifest_id b0)) as [|Hne]; [done|]. exfalso.
    assert (existsb (fun e : MigrationId * Mf => bool_decide (length (parents e.2) = 0)
      && negb (oeqb e.1 (manifest_id b0))) by_id = true) as Hbad; [|congruence].
    apply existsb_exists. exists (manifest_id m, m). split; [apply list_elem_of_In; by apply indexed_entry|].
    cbn [fst snd]. rewrite Hp. apply oeqb_false in Hne. by rewrite Hne.
Qed.
End indexed_facts.

(** ** Linking *)

(** The child sets: one, sorted, for every identity. *)
Definition child_sets (by_id : Manifests) (C : Edges) : Prop :=
  msorted C /\ (forall x, is_Some (mget x C) <-> is_Some (mget x by_id)) /\
  forall x s, mget x C = Some s -> ssorted s.

Lemma add_child_spec by_id id C p :
  child_sets by_id C -> is_Some (mget p by_id) ->
  exists C', add_child id C p = Some C' /\ child_sets by_id C' /\
  forall x y, edge C' x y <-> edge C x y \/ (x = p /\ y = id).
Proof.
  intros (Hm & Hk & Hs) Hp. unfold add_child. destruct (proj2 (Hk p) Hp) as [s Es]. rewrite Es.
  eexists. split; [done|]. split; [split_and!|].
  - by apply mins_sorted.
  - intros x. rewrite <- Hk, mget_mins. destruct (oeqb_spec p x) as [<-|]; [|done]. rewrite Es. split; eauto.
  - intros x t. rewrite mget_mins. destruct (oeqb_spec p x) as [<-|]; [intros [= <-]|by apply Hs].
    apply sins_sorted. by eapply Hs.
  - intros x y. unfold edge. rewrite mget_mins. destruct (oeqb_spec p x) as [<-|Hne].
    + rewrite Es. split.
      * intros (? & [= <-] & [->|]%elem_sins); [by right|left; eauto].
      * intros [(? & [= <-] & ?)|[_ ->]]; eexists; (split; [done|apply elem_sins; auto]).
    + split; [by left|]. intros [?|[-> _]]; done.
Qed.

Lemma add_parents_spec by_id id direct C :
  child_sets by_id C ->
  (exists C', add_parents by_id id C direct = Some (Ok C') /\ child_sets by_id C' /\
     (forall p, p ∈ direct -> is_Some (mget p by_id)) /\
     forall x y, edge C' x y <-> edge C x y \/ (x ∈ direct /\ y = id)) \/
  (add_parents by_id id C direct = Some (Err (graph_failure "migration_history_missing_parent")) /\
     ~ forall p, p ∈ direct -> is_Some (mget p by_id)).
Proof.
  revert C. induction direct as [|p direct IH]; intros C HC; cbn [add_parents].
  { left. exists C. split_and!; [done..|set_solver|set_solver]. }
  destruct (mmem p by_id) eqn:Em; cbn [negb].
  2:{ right. split; [done|]. intros H. destruct (H p) as [? ?]; [by left|]. apply mmem_false in Em. congruence. }
  apply mmem_true, mget_elem in Em. destruct (add_child_spec by_id id C p HC Em) as (C1 & -> & HC1 & He1).
  destruct (IH C1 HC1) as [(C' & -> & HC' & Hk & He)|[-> Hbad]].
  - left. exists C'. split_and!; [done..| |].
    + intros q [->|Hq]%elem_of_cons; auto.
    + intros x y. rewrite He, He1, elem_of_cons. tauto.
  - right. split; [done|]. intros H. apply Hbad. intros q Hq. apply H. by right.
Qed.

Lemma link_manifests_spec by_id rest P C :
  child_sets by_id C -> msorted P -> NoDup (map fst rest) -> (forall e, e ∈ rest -> mget e.1 P = None) ->
  (exists P' C', link_manifests by_id (P, C) rest = Some (Ok (P', C')) /\ child_sets by_id C' /\ msorted P' /\
     (forall x m, (x, m) ∈ rest -> x ∉ parents m /\ forall p, p ∈ parents m -> is_Some (mget p by_id)) /\
     (forall x s, mget x P' = Some s <-> mget x P = Some s \/ exists m, (x, m) ∈ rest /\ s = sof (parents m)) /\
     (forall p x, edge C' p x <-> edge C p x \/ exists m, (x, m) ∈ rest /\ p ∈ parents m)) \/
  (exists e, link_manifests by_id (P, C) rest = Some (Err e) /\
     ~ forall x m, (x, m) ∈ rest -> x ∉ parents m /\ forall p, p ∈ parents m -> is_Some (mget p by_id)).
Proof.
  revert P C. induction rest as [|[x m] rest IH]; intros P C HC HP Hnd Hd; cbn [link_manifests fst snd].
  { left. exists P, C. split_and!; [done..|set_solver|set_solver|set_solver]. }
  cbn [map fst] in Hnd. apply NoDup_cons in Hnd as [Hx Hnd].
  destruct (smem x (sof (parents m))) eqn:Es.
  { right. eexists. split; [done|]. intros H. rewrite smem_true, elem_sof in Es.
    destruct (H x m) as [Hn _]; [by left|done]. }
  apply smem_false in Es. rewrite elem_sof in Es.
  destruct (add_parents_spec by_id x (sof (parents m)) C HC) as [(C1 & -> & HC1 & Hk1 & He1)|[-> Hbad]].
  2:{ right. eexists. split; [done|]. intros H. apply Hbad. intros p Hp. rewrite elem_sof in Hp.
      destruct (H x m) as [_ Hk]; [by left|]. auto. }
  destruct (IH (mins x (sof (parents m)) P) C1) as [(P' & C' & -> & HC' & HP' & Hok & Hp & Hc)|(e & -> & Hbad)];
    [done|by apply mins_sorted|done| | |].
  { intros [y m'] Hin. cbn [fst]. rewrite mget_mins_ne; [apply (Hd (y, m')); by right|]. intros <-. apply Hx.
    apply list_elem_of_In, in_map_iff. exists (x, m'). split; [done|by apply list_elem_of_In]. }
  2:{ right. exists e. split; [done|]. intros H. apply Hbad. intros y m' Hin. apply H. by right. }
  left. exists P', C'. split_and!; [done..| | |].
  - intros y m' [[= -> ->]|Hin]%elem_of_cons; [|by apply Hok]. split; [done|]. intros p Hin. apply Hk1. by rewrite elem_sof.
  - intros y s. rewrite Hp, mget_mins. assert (mget x P = None) as HN by (apply (Hd (x, m)); by left).
    destruct (oeqb_spec x y) as [<-|Hne].
    + rewrite HN. split.
      * intros [[= <-]|(m' & Hin & ->)]; right; [exists m|exists m']; (split; [set_solver|done]).
      * intros [|(m' & [[= <-]|Hin]%elem_of_cons & ->)]; [done|by left|right; eauto].
    + split.
      * intros [|(m' & Hin & ->)]; [by left|right; exists m'; split; [by right|done]].
      * intros [|(m' & [[= -> _]|Hin]%elem_of_cons & ->)]; [by left|done|right; eauto].
  - intros p y. rewrite Hc, He1, elem_sof. split.
    + intros [[|[? ->]]|(m' & Hin & ?)]; [by left|right; exists m; split; [by left|done]|].
      right. exists m'. split; [by right|done].
    + intros [|(m' & [[= -> ->]|Hin]%elem_of_cons & ?)]; [tauto|tauto|]. right. eauto.
Qed.

(** The edges are those the manifests declare. *)
Record linked (l : list Mf) (by_id : Manifests) (P C : Edges) : Prop := {
  lk_indexed : indexed l by_id;
  lk_transposed : transposed P C;
  lk_parents : forall x s, mget x P = Some s <-> exists m, m ∈ l /\ manifest_id m = x /\ s = sof (parents m);
  lk_edge : forall x p, edge P x p <-> declared l x p }.

Definition parents_known (l : list Mf) : Prop :=
  forall x p, declared l x p -> x <> p /\ exists q, q ∈ l /\ manifest_id q = p.

Lemma indexed_known l by_id p : indexed l by_id -> is_Some (mget p by_id) <-> exists q, q ∈ l /\ manifest_id q = p.
Proof. intros [_ Hg]. split; [intros [q Hq%Hg]; eauto|]. intros [q Hq]. exists q. by apply Hg. Qed.

Lemma no_children by_id : msorted by_id -> child_sets by_id (map (fun id => (id, [])) (mkeys by_id)).
Proof.
  intros Hs. assert (map fst (map (fun id : MigrationId => (id, [] : list MigrationId)) (mkeys by_id)) = mkeys by_id) as Hk.
  { rewrite map_map. apply map_id. }
  split_and!.
  - by rewrite Hk.
  - intros x. rewrite !mget_elem, Hk. done.
  - intros x s H%mget_In%list_elem_of_In%in_map_iff. destruct H as (y & [= <- <-] & _). constructor.
Qed.

Lemma link_spec l by_id :
  indexed l by_id ->
  (exists P C, link_manifests by_id ([], map (fun id => (id, [])) (mkeys by_id)) by_id = Some (Ok (P, C)) /\
     parents_known l /\ linked l by_id P C) \/
  (exists e, link_manifests by_id ([], map (fun id => (id, [])) (mkeys by_id)) by_id = Some (Err e) /\ ~ parents_known l).
Proof.
  intros Hi. pose proof Hi as [Hs Hg]. pose proof (indexed_entry _ _ Hi) as Hin.
  assert (parents_known l <-> forall x m, (x, m) ∈ by_id ->
    x ∉ parents m /\ forall p, p ∈ parents m -> is_Some (mget p by_id)) as Hpk.
  { split.
    - intros H x m [Hm Hx]%Hin. split; [intros Hp; by destruct (H x x) as [? _]; [by exists m|]|].
      intros p Hp. apply (indexed_known l by_id p Hi). apply (H x p). by exists m.
    - intros H x p (m & Hm & Hx & Hp). destruct (H x m) as [H1 H2]; [by apply Hin|].
      split; [intros <-; done|]. apply (indexed_known l by_id p Hi). auto. }
  destruct (link_manifests_spec by_id by_id [] (map (fun id => (id, [])) (mkeys by_id)))
    as [(P & C & Hl & (HC1 & HC2 & HC3) & HP & Hok & Hp & Hc)|(e & He & Hbad)];
    [by apply no_children|constructor|by apply ssorted_NoDup|done| |].
  2:{ right. exists e. by rewrite Hpk. }
  left. exists P, C. split; [done|]. split; [by apply Hpk|].
  assert (forall x s, mget x P = Some s <-> exists m, m ∈ l /\ manifest_id m = x /\ s = sof (parents m)) as HPg.
  { intros x s. rewrite Hp. split.
    - intros [|(m & [Hm Hx]%Hin & ->)]; [done|]. by exists m.
    - intros (m & Hm & Hx & ->). right. exists m. split; [by apply Hin|done]. }
  assert (forall x p, edge P x p <-> declared l x p) as HPe.
  { intros x p. unfold edge, declared. split.
    - intros (s & (m & Hm & Hx & ->)%HPg & Hps). rewrite elem_sof in Hps. by exists m.
    - intros (m & Hm & Hx & Hps). exists (sof (parents m)). split; [apply HPg; by exists m|by rewrite elem_sof]. }
  split; [done| |done..]. split; [done..| | | |done].
  - intros x. rewrite HC2, (indexed_known l by_id x Hi). split.
    + intros [s (m & Hm & Hx & _)%HPg]. by exists m.
    + intros (m & Hm & Hx). exists (sof (parents m)). apply HPg. by exists m.
  - intros x p. rewrite HPe, Hc. split.
    + intros (m & Hm & Hx & Hps). right. exists m. split; [by apply Hin|done].
    + intros [(s & H%mget_In%list_elem_of_In%in_map_iff & Hps)|(m & [Hm Hx]%Hin & Hps)]; [|by exists m].
      destruct H as (y & [= _ <-] & _). by apply not_elem_of_nil in Hps.
  - intros x s (m & _ & _ & ->)%HPg. apply sof_sorted.
Qed.

(** ** Profile lineage *)

Lemma lineage_edge_iff m q : lineage_edge m q = Ok tt <-> profile_step m q.
Proof.
  unfold lineage_edge, profile_step. destruct (profile_bridge m) as [b|]; repeat case_bool_decide; simpl; intuition done.
Qed.

Lemma lineage_parents_spec by_id m ps :
  (forall p, p ∈ ps -> is_Some (mget p by_id)) ->
  exists r, lineage_parents by_id m ps = Some r /\
  (r = Ok tt <-> forall p q, p ∈ ps -> mget p by_id = Some q -> profile_step m q).
Proof.
  induction ps as [|p ps IH]; intros Hk; cbn [lineage_parents]; [exists (Ok tt); split; [done|set_solver]|].
  destruct (Hk p) as [q Hq]; [by left|]. rewrite Hq. pose proof (lineage_edge_iff m q) as He.
  destruct (lineage_edge m q) as [[]|e].
  - destruct IH as (r & -> & Hr); [intros p' Hp'; apply Hk; by right|]. exists r. split; [done|]. rewrite Hr. split.
    + intros H p' q' [->|Hp']%elem_of_cons Hq'; [|eauto]. assert (q' = q) as -> by congruence. by apply He.
    + intros H p' q' Hp'. apply H. by right.
  - exists (Err e). split; [done|]. split; [done|]. intros H. apply He. apply (H p); [by left|done].
Qed.

Lemma lineage_edges_spec by_id (P : Edges) rest :
  (forall x m, (x, m) ∈ rest -> exists s, mget x P = Some s /\ forall p, p ∈ s -> is_Some (mget p by_id)) ->
  exists r, lineage_edges by_id P rest = Some r /\
  (r = Ok tt <-> forall x m p q, (x, m) ∈ rest -> edge P x p -> mget p by_id = Some q -> profile_step m q).
Proof.
  induction rest as [|[x m] rest IH]; intros Hk; cbn [lineage_edges]; [exists (Ok tt); split; [done|set_solver]|].
  destruct (Hk x m) as (s & Hs & Hks); [by left|]. rewrite Hs.
  destruct (lineage_parents_spec by_id m s Hks) as (r1 & -> & Hr1). destruct r1 as [[]|e].
  - destruct IH as (r & -> & Hr); [intros y m' Hin; eapply Hk; by right|]. exists r. split; [done|]. rewrite Hr. split.
    + intros H y m' p q [[= -> ->]|Hin]%elem_of_cons He Hq; [|eauto].
      destruct He as (s' & Hs' & Hp). rewrite Hs in Hs'. injection Hs' as <-. by apply (proj1 Hr1 eq_refl p).
    + intros H y m' p q Hin. apply H. by right.
  - exists (Err e). split; [done|]. split; [done|]. intros H. apply Hr1. intros p q Hp Hq.
    apply (H x m p q); [by left|by exists s|done].
Qed.

Lemma lineage_members_iff b anc desc rest :
  lineage_members b anc desc rest = Ok tt <->
  forall x m, (x, m) ∈ rest -> x = manifest_id b \/ x ∈ anc \/ x ∈ desc.
Proof.
  induction rest as [|[x m] rest IH]; cbn [lineage_members]; [set_solver|].
  destruct (oeqb x (manifest_id b) || smem x anc || smem x desc) eqn:E.
  - rewrite !orb_true_iff, oeqb_true, !smem_true in E. rewrite IH. split.
    + intros H y m' [[= -> _]|Hin]%elem_of_cons; [tauto|eauto].
    + intros H y m' Hin. apply (H y m'). by right.
  - rewrite !orb_false_iff, oeqb_false, !smem_false in E. split; [done|]. intros H.
    destruct (H x m) as [|[|]]; [by left|tauto..].
Qed.

(** The three conditions on profiles. *)
Definition lineage_ok (l : list Mf) : Prop :=
  (forall b m, b ∈ l -> m ∈ l -> is_profile_bridge b = true -> is_profile_bridge m = true -> m = b) /\
  (forall m q, m ∈ l -> q ∈ l -> manifest_id q ∈ parents m -> profile_step m q) /\
  (forall b m, b ∈ l -> m ∈ l -> is_profile_bridge b = true ->
    clos_refl_trans MigrationId (declared l) (manifest_id b) (manifest_id m) \/
    clos_refl_trans MigrationId (declared l) (manifest_id m) (manifest_id b)).

Lemma clos_trans_ext {A} (R R' : A -> A -> Prop) x y :
  (forall x y, R x y <-> R' x y) -> clos_trans A R x y <-> clos_trans A R' x y.
Proof.
  intros H. split; (induction 1 as [? ? He|]; [by apply t_step, H|eapply t_trans; eassumption]).
Qed.

Lemma clos_trans_flip {A} (R R' : A -> A -> Prop) x y :
  (forall x y, R x y <-> R' y x) -> clos_trans A R x y <-> clos_trans A R' y x.
Proof.
  intros H. split; (induction 1 as [? ? He|]; [by apply t_step, H|eapply t_trans; eassumption]).
Qed.

Lemma walk_cases {A} (R : A -> A -> Prop) x y : clos_refl_trans A R x y <-> y = x \/ clos_trans A R x y.
Proof.
  split.
  - induction 1 as [x y H| |x y z _ [->|H1] _ [->|H2]]; [right; by apply t_step|by left|auto..].
    right. by apply t_trans with y.
  - intros [->|H]; [apply rt_refl|]. by apply clos_t_clos_rt.
Qed.

Lemma validate_profile_lineage_spec l by_id P C :
  linked l by_id P C ->
  exists r, validate_profile_lineage by_id P C = Some r /\ (r = Ok tt <-> lineage_ok l).
Proof.
  intros [Hi Ht HP He]. pose proof (indexed_entry _ _ Hi) as Hin. unfold validate_profile_lineage, lineage_ok.
  pose proof (filter_unique l by_id Hi is_profile_bridge) as Hu.
  assert (forall m, m ∈ List.filter is_profile_bridge (mvals by_id) <-> m ∈ l /\ is_profile_bridge m = true) as Hf.
  { intros m. rewrite list_elem_of_In, filter_In, <- list_elem_of_In, (elem_indexed l by_id Hi). done. }
  assert (forall m, m ∈ l -> is_Some (mget (manifest_id m) P)) as Hk.
  { intros m Hm. exists (sof (parents m)). apply HP. by exists m. }
  destruct (Nat.ltb_spec 1 (length (List.filter is_profile_bridge (mvals by_id)))) as [Hlt|Hle].
  { eexists. split; [done|]. split; [done|]. intros [H _]. apply Hu in H. lia. }
  pose proof (proj1 Hu Hle) as Huniq. clear Hu Hle.
  destruct (lineage_edges_spec by_id P by_id) as (r1 & -> & Hr1).
  { intros x m [Hm <-]%Hin. exists (sof (parents m)). split; [apply HP; by exists m|].
    intros p Hp. rewrite elem_sof in Hp. destruct (edge_known P C (manifest_id m) p Ht) as [s Hs].
    - apply He. by exists m.
    - apply HP in Hs as (q & Hq & <- & _). apply (indexed_known l by_id _ Hi). by exists q. }
  assert (r1 = Ok tt <-> forall m q, m ∈ l -> q ∈ l -> manifest_id q ∈ parents m -> profile_step m q) as Hlin.
  { rewrite Hr1. split.
    - intros H m q Hm Hq Hp. apply (H (manifest_id m) m (manifest_id q)); [by apply Hin|apply He; by exists m|].
      by apply Hi.
    - intros H x m p q [Hm <-]%Hin Hp [Hq <-]%(proj2 Hi). apply He in Hp as (m' & Hm' & Hid & Hp).
      apply (indexed_inj _ _ Hi) in Hid as ->; auto. }
  destruct r1 as [[]|e1]; [|exists (Err e1); split; [done|]; split; [done|]; intros (_ & H & _); by apply Hlin in H].
  specialize (proj1 Hlin eq_refl) as Hlin1.
  destruct (List.filter is_profile_bridge (mvals by_id)) as [|b r].
  { exists (Ok tt). split; [done|]. split; [|done]. intros _. split_and!; [done..|].
    intros b m Hb _ Hpb. assert (b ∈ []) as []%not_elem_of_nil. by apply Hf. }
  destruct (proj1 (Hf b)) as [Hb Hpb]; [by left|].
  destruct (reachable_spec P C Ht (manifest_id b) (Hk b Hb)) as (anc & -> & _ & Ha).
  destruct (reachable_spec C P (transposed_flip _ _ Ht) (manifest_id b)) as (desc & -> & _ & Hd).
  { by apply (tr_keys _ _ Ht), Hk. }
  eexists. split; [done|]. rewrite lineage_members_iff.
  assert (forall x, x ∈ anc <-> clos_trans MigrationId (declared l) (manifest_id b) x) as Ha'.
  { intros x. rewrite Ha. by apply clos_trans_ext. }
  assert (forall x, x ∈ desc <-> clos_trans MigrationId (declared l) x (manifest_id b)) as Hd'.
  { intros x. rewrite Hd. apply clos_trans_flip. intros u v. by rewrite <- He, (tr_edges _ _ Ht). }
  split.
  - intros H. split_and!; [done..|]. intros b' m Hb' Hm Hpb'. assert (b' = b) as -> by (by apply Huniq).
    rewrite !walk_cases. destruct (H (manifest_id m) m) as [|[|]]; [by apply Hin|auto|left; right; by apply Ha'|].
    right. right. by apply Hd'.
  - intros (_ & _ & H) x m [Hm <-]%Hin. rewrite Ha', Hd'. specialize (H b m Hb Hm Hpb). rewrite !walk_cases in H.
    intuition.
Qed.

(** ** The graph *)

(** What a graph records of its manifests. *)
Record graph_of (l : list Mf) (g : MigrationHistoryGraph) : Prop := {
  go_linked : linked l (manifests g) (graph_parents g) (graph_children g);
  go_heads_sorted : ssorted (heads g);
  go_heads : forall x, x ∈ heads g <-> (exists m, m ∈ l /\ manifest_id m = x) /\ forall y, ~ declared l y x;
  go_topological : ordered (graph_parents g) (mkeys (manifests g)) (topological g) }.

Lemma linked_keys l by_id P C : linked l by_id P C -> mkeys P = mkeys by_id.
Proof.
  intros [Hi Ht HP _]. apply ssorted_ext; [apply Ht|apply Hi|]. intros x. unfold mkeys.
  rewrite <- !mget_elem, (indexed_known l by_id x Hi). split.
  - intros [s (m & Hm & Hx & _)%HP]. by exists m.
  - intros (m & Hm & Hx). exists (sof (parents m)). apply HP. by exists m.
Qed.

Lemma linked_acyclic l by_id P C :
  linked l by_id P C -> acyclic P (mkeys P) <-> forall x, ~ clos_trans MigrationId (declared l) x x.
Proof.
  intros [Hi Ht HP He]. unfold acyclic.
  assert (forall x y, within P (mkeys P) x y <-> declared l x y) as H.
  { intros x y. unfold within. rewrite <- He. split; [tauto|]. intros Hxy. split_and!; [done|..].
    - apply elem_mkeys; [apply Ht|]. destruct Hxy as (s & -> & _). eauto.
    - apply elem_mkeys; [apply Ht|]. by eapply edge_known. }
  split; intros Ha x Hc; (eapply Ha, clos_trans_ext; [|exact Hc]); intros u v; [|symmetry]; apply H.
Qed.

Lemma elem_heads (C : Edges) x :
  msorted C ->
  x ∈ map fst (List.filter (fun e : MigrationId * BTreeSet MigrationId => bool_decide (length e.2 = 0)) C)
  <-> mget x C = Some [].
Proof.
  intros Hs. rewrite list_elem_of_In, in_map_iff. split.
  - intros ([y s] & <- & [Hin Hl%bool_decide_eq_true]%filter_In). cbn [snd fst] in *. apply nil_length_inv in Hl as ->.
    apply elem_mget; [done|by apply list_elem_of_In].
  - intros H. exists (x, []). split; [done|]. apply filter_In. split; [|done]. by apply list_elem_of_In, elem_mget.
Qed.

Lemma heads_sorted (C : Edges) f : msorted C -> msorted (List.filter f C).
Proof.
  induction C as [|[x s] C IH]; intros H; [constructor|]. simpl in *. inversion H as [|? ? H1 H2]; subst.
  destruct (f (x, s)); [|auto]. simpl. constructor; [auto|]. rewrite Forall_forall in H2 |- *.
  intros y Hy. apply H2. apply list_elem_of_In, in_map_iff in Hy as (e & <- & [Hin _]%filter_In).
  by apply list_elem_of_In, in_map.
Qed.

Lemma linked_heads l by_id P C x :
  linked l by_id P C ->
  mget x C = Some [] <-> (exists m, m ∈ l /\ manifest_id m = x) /\ forall y, ~ declared l y x.
Proof.
  intros Hl. pose proof (lk_transposed _ _ _ _ Hl) as Ht.
  rewrite <- (indexed_known l by_id x (lk_indexed _ _ _ _ Hl)), mget_elem.
  change (map fst by_id) with (mkeys by_id). rewrite <- (linked_keys _ _ _ _ Hl).
  unfold mkeys. rewrite <- mget_elem, (tr_keys _ _ Ht). split.
  - intros Hx. split; [eauto|]. intros y Hd. apply (lk_edge _ _ _ _ Hl), (tr_edges _ _ Ht) in Hd as (s & Es & Hin).
    rewrite Hx in Es. injection Es as <-. by apply not_elem_of_nil in Hin.
  - intros [[s Hx] Hno]. rewrite Hx. destruct s as [|y s]; [done|]. destruct (Hno y).
    apply (lk_edge _ _ _ _ Hl), (tr_edges _ _ Ht). exists (y :: s). split; [done|by left].
Qed.

Lemma from_verified_spec l :
  (exists g, from_verified l = Some (Ok g) /\ history_ok l /\ graph_of l g) \/
  (exists e, from_verified l = Some (Err e) /\ ~ history_ok l).
Proof.
  unfold from_verified.
  destruct (collect_manifests_spec l []) as [(by_id & -> & Hs & Hnd & _ & Hg)|[-> Hbad]]; [constructor| |].
  2:{ right. eexists. split; [done|]. intros H. apply Hbad. split; [by apply H|done]. }
  assert (indexed l by_id) as Hi. { split; [done|]. intros x m. rewrite Hg. simpl. intuition done. }
  pose proof (check_legacy_bridges_iff l by_id Hi) as Hlb.
  destruct (check_legacy_bridges by_id) as [[]|e].
  2:{ right. eexists. split; [done|]. intros H. by pose proof (proj2 Hlb (ho_legacy _ H)). }
  destruct (link_spec l by_id Hi) as [(P & C & -> & Hpk & Hl)|(e & -> & Hbad)].
  2:{ right. eexists. split; [done|]. intros H. apply Hbad. intros x p Hd. split; [|by eapply (ho_parents _ H)].
      intros <-. apply (ho_acyclic _ H x). by apply t_step. }
  pose proof (lk_transposed _ _ _ _ Hl) as Ht. pose proof (linked_acyclic l by_id P C Hl) as Hac.
  destruct (topological_order_spec P C Ht) as (r & -> & Hr1 & Hr2).
  destruct r as [order|e].
  2:{ right. eexists. split; [done|]. intros H. destruct (proj1 (Hr2 e) eq_refl) as [_ []]. by apply Hac, ho_acyclic. }
  pose proof (proj1 (Hr1 order) eq_refl) as Ho.
  destruct (validate_profile_lineage_spec l by_id P C Hl) as (r & -> & Hr). destruct r as [[]|e].
  2:{ right. eexists. split; [done|]. intros H.
      assert (lineage_ok l) as Hbad%Hr; [split_and!; [apply (ho_profile _ H)|apply (ho_lineage _ H)|apply (ho_bridged _ H)]|done]. }
  destruct (proj1 Hr eq_refl) as (Hp1 & Hp2 & Hp3). left. eexists. split; [done|]. split; [split; try done|].
  - by apply Hlb.
  - intros x p Hd. by apply (Hpk x p).
  - apply Hac. by eapply ordered_acyclic.
  - split; cbn [graph_children graph_parents manifests heads topological]; [done| | |].
    + apply heads_sorted, Ht.
    + intros x. rewrite elem_heads by apply Ht. by eapply linked_heads.
    + by rewrite <- (linked_keys _ _ _ _ Hl).
Qed.

Lemma graph_valid l g : from_verified l = Some (Ok g) -> valid_graph g.
Proof.
  intros H. destruct (from_verified_spec l) as [(g' & E & Ho & [Hl Hhs Hh Ht])|(e & E & _)]; [|congruence].
  rewrite E in H. injection H as <-. pose proof (lk_transposed _ _ _ _ Hl) as Htr. split; [done| | | |done].
  - intros x. rewrite !mget_elem. change (x ∈ mkeys (manifests g') <-> x ∈ mkeys (graph_parents g')).
    by rewrite (linked_keys _ _ _ _ Hl).
  - intros x Hc. apply (ho_acyclic _ Ho x). eapply clos_trans_ext; [|exact Hc]. intros u v. symmetry.
    apply (lk_edge _ _ _ _ Hl).
  - intros x. rewrite Hh. symmetry. by eapply linked_heads.
Qed.

(** C7. Building a history never panics; it succeeds exactly on the well-formed
    histories (distinct identities, known parents, no cycle, at most one legacy
    bridge that is then the only root, and one profile lineage), and the graph it
    returns has exactly the declared edges in both directions, the identities
    without children as heads, and the greedy topological order. *)
Theorem from_verified_correct l :
  exists r, from_verified l = Some r /\ (is_ok r = true <-> history_ok l) /\
  forall g, r = Ok g -> graph_of l g.
Proof.
  destruct (from_verified_spec l) as [(g & -> & Ho & Hg)|(e & -> & Hbad)]; eexists; (split; [done|]); simpl.
  - split; [done|]. by intros ? [= <-].
  - split; [|done]. split; [done|]. intros H. by destruct Hbad.
Qed.

(** C8. Over a graph built from manifests, planning an apply never panics. It fails
    exactly when the applied set is refused or, failing that, a target is unknown;
    otherwise the plan lists, once each, exactly the targets and their ancestors
    that are not applied, and every prefix of it extends the applied set to one the
    graph accepts. *)
Theorem plan_apply_correct l g applied targets :
  from_verified l = Some (Ok g) ->
  exists r, plan_apply g applied targets = Some r /\
  (forall e, r = Err e <-> validate_applied g applied = Err e \/
     (validate_applied g applied = Ok tt /\ e = graph_failure "migration_history_unknown_apply_target" /\
      exists t, t ∈ targets /\ mget t (manifests g) = None)) /\
  (forall order, r = Ok order ->
     NoDup order /\ (forall x, x ∈ order <-> x ∉ applied /\ exists t, t ∈ targets /\ ancestor g t x) /\
     forall pre post, order = pre ++ post -> validate_applied g (sunion applied pre) = Ok tt).
Proof.
  intros Hb. pose proof (graph_valid l g Hb) as Hg.
  assert (forall t, mget t (manifests g) = None <-> mget t (graph_parents g) = None) as Hn.
  { intros t. rewrite !eq_None_not_Some. by rewrite (vg_manifests _ Hg). }
  destruct (validate_applied_cases g applied) as [[Hv Hc]|[e He]].
  2:{ exists (Err e). unfold plan_apply. rewrite He. split; [done|]. split; [|done].
      intros e'. split; [intros [= ->]; by left|]. intros [[= ->]|[H _]]; done. }
  destruct (decide (Forall (fun t => mget t (graph_parents g) <> None) targets)) as [Hk|Hk].
  - rewrite Forall_forall in Hk.
    assert (forall t, t ∈ targets -> is_Some (mget t (graph_parents g))) as Hk'.
    { intros t Ht. apply not_eq_None_Some. by apply Hk. }
    destruct (plan_apply_spec g Hg applied targets Hc Hk') as (req & order & -> & Hs & Ho & Hreq).
    exists (Ok order). split; [done|]. split.
    + intros e. split; [done|]. intros [H|(_ & _ & t & Ht & Hnone%Hn)]; [congruence|]. by destruct (Hk t Ht).
    + intros ? [= <-]. pose proof Ho as [Hp _]. split_and!.
      * rewrite Hp. by apply ssorted_NoDup.
      * intros x. by rewrite Hp.
      * intros pre post Heq. apply validate_applied_iff. by eapply apply_prefix_closed.
  - apply not_Forall_Exists in Hk; [|apply _]. apply Exists_exists in Hk as (t & Ht & Hnone).
    assert (mget t (graph_parents g) = None) as HN.
    { apply dec_stable. exact Hnone. }
    eexists. split; [unfold plan_apply; rewrite Hv, (closure_loop_unknown _ _ (vg_transposed _ Hg)); [done| |]|].
    + exists t. split; [by rewrite list_elem_of_In, <- in_rev, <- list_elem_of_In|done].
    + unfold closure_fuel. rewrite length_rev, pushes_nil. lia.
    + split; [|done]. intros e. split; [|intros [H|(_ & -> & _)]; [congruence|done]].
      intros [= <-]. right. split_and!; [done..|]. exists t. split; [done|by apply Hn].
Qed.

(** C9. Over a graph built from manifests, planning a rollback of a set never
    panics. It succeeds exactly when the applied set is accepted, every removal is
    applied and no applied child of a removal stays; a refusal names a removal that
    violates one of these. The plan is a permutation of the removals, and every
    prefix of it leaves an applied set the graph accepts. *)
Theorem plan_rollback_correct l g applied removals :
  from_verified l = Some (Ok g) -> ssorted removals ->
  exists r, plan_rollback g applied removals = Some r /\
  (is_ok r = true <-> validate_applied g applied = Ok tt /\ removable g applied removals) /\
  (forall e, r = Err e -> validate_applied g applied = Err e \/ removal_failure g applied removals e) /\
  (forall order, r = Ok order ->
     order ≡ₚ removals /\
     forall pre post, order = pre ++ post -> validate_applied g (sdiff applied pre) = Ok tt).
Proof.
  intros Hb Hs. pose proof (graph_valid l g Hb) as Hg.
  destruct (validate_applied_cases g applied) as [[Hv Hc]|[e He]].
  2:{ exists (Err e). unfold plan_rollback. rewrite He. split_and!; [done| | |done].
      - split; [done|]. by intros [? _].
      - intros e' [= ->]. by left. }
  destruct (check_removals_spec g Hg applied removals removals Hc) as [[Hok Hr]|(e & He & Hbad)]; [done| |].
  - destruct (plan_rollback_spec g Hg applied removals Hc Hr Hs) as (order & -> & Ho).
    exists (Ok order). split_and!; [done|done|done|]. intros ? [= <-]. split; [apply Ho|].
    intros pre post Heq. apply validate_applied_iff. by eapply rollback_prefix_closed.
  - exists (Err e). unfold plan_rollback. rewrite Hv, He. split_and!; [done| | |done].
    + split; [done|]. intros [_ Hr]. by destruct (removable_no_failure g Hg applied removals e Hc Hr).
    + intros e' [= ->]. by right.
Qed.

(** C10. Applying and rolling back are inverse: what a plan applied can be rolled
    back, which restores the applied set it started from; and what a plan rolled
    back can be applied again by targeting the removals, which restores the set. *)
Theorem apply_rollback_roundtrip l g applied targets :
  from_verified l = Some (Ok g) -> ssorted applied -> ssorted targets ->
  (forall order, plan_apply g applied targets = Some (Ok order) ->
     exists back, plan_rollback g (sunion applied order) (sof order) = Some (Ok back) /\
     back ≡ₚ order /\ sdiff (sunion applied order) back = applied) /\
  (forall order, plan_rollback g applied targets = Some (Ok order) ->
     exists again, plan_apply g (sdiff applied order) targets = Some (Ok again) /\
     again ≡ₚ order /\ sunion (sdiff applied order) again = applied).
Proof.
  intros Hb Hsa Hst. pose proof (graph_valid l g Hb) as Hg.
  split; intros order H; [by eapply apply_then_rollback|by eapply rollback_then_apply].
Qed.

(** C38. From any applied set the graph accepts, the default plan of a history with
    at most one head exists; running it applies every migration of the history, and
    planning again then gives the empty plan. *)
Theorem default_plan_completes l g applied :
  from_verified l = Some (Ok g) -> length (heads g) <= 1 -> validate_applied g applied = Ok tt ->
  exists order, plan_apply_to_default_head g applied = Some (Ok order) /\
  (forall m, m ∈ l -> manifest_id m ∈ sunion applied order) /\
  plan_apply_to_default_head g (sunion applied order) = Some (Ok []).
Proof.
  intros Hb Hh Hv. pose proof (graph_valid l g Hb) as Hg. apply validate_applied_iff in Hv.
  assert (forall m, m ∈ l -> is_Some (mget (manifest_id m) (graph_parents g))) as Hl.
  { intros m Hm. destruct (from_verified_spec l) as [(g' & E & _ & Hgo)|(e & E & _)]; [|congruence].
    rewrite Hb in E. injection E as <-. exists (sof (parents m)). apply (lk_parents _ _ _ _ (go_linked _ _ Hgo)).
    by exists m. }
  destruct (default_plan_spec g Hg applied Hh Hv) as (order & E & Hall & Hagain).
  exists order. split_and!; [done| |done]. intros m Hm. by apply Hall, Hl.
Qed.

(** ** Examples: a diamond *)

Definition node (name : string) : MigrationId := migration_id b#"app" (lit name).

Definition example_node (name : string) (above : list string) : Mf :=
  verified_manifest MigrationV1 (node name) [] None
    (lowering_binding (example_fingerprint "lowering") TYPEDB_3_12_1_SCHEMA_LOWERING_PROFILE_ID)
    (scope example_source) (map node above) (example_fingerprint "plan") None [] true Additive
    (semantic_binding (example_fingerprint "semantic") b#"typedb-3.12.1/v1")
    (Delta.Delta.declared example_facts) example_source [] (Delta.Delta.declared example_facts) example_target.

Definition example_history : list Mf :=
  [example_node "d" ["b"%string; "c"%string]; example_node "c" ["a"%string];
   example_node "b" ["a"%string]; example_node "a" []].

Definition example_graph : MigrationHistoryGraph :=
  match from_verified example_history with
  | Some (Ok g) => g
  | _ => history_graph [] [] [] [] []
  end.

Lemma example_graph_built : from_verified example_history = Some (Ok example_graph).
Proof. vm_compute. reflexivity. Qed.

Lemma plan_apply_correct_w :
  plan_apply example_graph [node "a"] [node "c"] = Some (Ok [node "c"]) /\
  validate_applied example_graph (sunion [node "a"] [node "c"]) = Ok tt.
Proof.
  assert (plan_apply example_graph [node "a"] [node "c"] = Some (Ok [node "c"])) as E by (vm_compute; reflexivity).
  split; [exact E|].
  destruct (plan_apply_correct example_history example_graph [node "a"] [node "c"] example_graph_built)
    as (r & Hr & _ & H).
  rewrite E in Hr. injection Hr as <-. apply (H _ eq_refl) with (post := []). reflexivity.
Defined.

Lemma plan_rollback_correct_w :
  let all := [node "a"; node "b"; node "c"; node "d"] in
  plan_rollback example_graph all [node "b"; node "d"] = Some (Ok [node "d"; node "b"]) /\
  validate_applied example_graph (sdiff all [node "d"]) = Ok tt.
Proof.
  intros all.
  assert (plan_rollback example_graph all [node "b"; node "d"] = Some (Ok [node "d"; node "b"])) as E
    by (vm_compute; reflexivity).
  split; [exact E|].
  destruct (plan_rollback_correct example_history example_graph all [node "b"; node "d"] example_graph_built)
    as (r & Hr & _ & _ & H).
  { repeat constructor. }
  rewrite E in Hr. injection Hr as <-. apply (H _ eq_refl) with (post := [node "b"]). reflexivity.
Defined.

Lemma apply_rollback_roundtrip_w :
  exists back, plan_rollback example_graph (sunion [node "a"] [node "b"; node "c"; node "d"])
    (sof [node "b"; node "c"; node "d"]) = Some (Ok back) /\
  back ≡ₚ [node "b"; node "c"; node "d"] /\ sdiff (sunion [node "a"] [node "b"; node "c"; node "d"]) back = [node "a"].
Proof.
  apply (apply_rollback_roundtrip example_history example_graph [node "a"] [node "d"] example_graph_built).
  - repeat constructor.
  - repeat constructor.
  - vm_compute. reflexivity.
Defined.

Lemma default_plan_completes_w :
  exists order, plan_apply_to_default_head example_graph [node "a"; node "c"] = Some (Ok order) /\
  (forall m, m ∈ example_history -> manifest_id m ∈ sunion [node "a"; node "c"] order) /\
  plan_apply_to_default_head example_graph (sunion [node "a"; node "c"] order) = Some (Ok []).
Proof.
  apply (default_plan_completes example_history example_graph [node "a"; node "c"] example_graph_built).
  - vm_compute. lia.
  - vm_compute. reflexivity.
Defined.

End HistoryGraph.
